(* ===== verification/_CoqProject ===== *)
-Q . S2P
Prelude.v
Bytes.v
Iobuf.v
Uuid.v
ScopeExit.v
RefCount.v
DevaCount.v
Result.v
Logging.v
ContextStorage.v
Tracing.v
Future.v
FutureVoid.v
FutureStorage.v
ErasureCode.v
NvmeDemo.v
StarterDemos.v
Store.v
MemStore.v
LocalStore.v
Chunk.v
Reassembly.v
ChunkSpec.v
ChunkLifetime.v
Bank.v
Proto.v
ManusyaService.v
Namespace.v
Deva.v
Op.v
Rsm.v
RaftGroup.v
DevaService.v
KvStore.v
RocksdbStore.v
AsuraService.v
Client.v
Stream.v
Deployment.v
Sad.v
SadPrint.v
SadServers.v
CommandLine.v
Process.v
MockDeva.v
