(* ===== verification/Prelude.v ===== *)
(** * pain: a verification library for a distributed file store

    The repository is a distributed file store in C++ on brpc and braft. Three servers, a
    client SDK and a tool are made of the parts below; this library models their logic as Rocq definitions
    that follow the sources line by line, and proves what makes each of them correct, or shows
    what they do instead. Paths are relative to [src/].

    ** The system and its parts

    - A _chunk server_ ("manusya", [src/manusya/]) stores append-only chunks. RPC handlers
      ([manusya_service_impl.cc]) look a chunk up in a [Bank] ([bank.cc]); a [Chunk] ([chunk.cc])
      writes its file through a [FileHandle] of a [Store] ([store.h]), which keeps it in memory
      ([mem_store.cc]) or in a directory ([local_store.cc]). An append that arrives ahead of the
      end of the file waits, in a set ordered by offset, for the gap to be filled or for a timer.
    - A _metadata server_ ("deva", [src/deva/]) keeps a [Namespace] and [FileInfo]s in a [Deva].
      Its handlers ([deva_service_impl.cc]) turn a request into a log operation ([op.cc],
      [container_op.cc]), submit it to a raft group through [bridge.h], and wait for the closure
      that applies it ([rsm.cc]) to fulfil a promise.
    - A _registry_ ("asura", [src/asura/]) keeps tables of servers in a key-value store
      ([src/common/store.h]) implemented on RocksDB ([src/common/rocksdb_store.cc]).
    - The _client SDK_ ([src/pain/], [src/deva/sdk/]) learns the metadata servers from the registry
      and sends requests to the leader of their raft group.
    - A _command line tool_ ("sad", [src/sad/]) parses its words with parsers that static objects
      build before [main] runs, sends one request to one server and prints the answer.
    - Promises and futures, UUIDs, results, logging, tracing, scope guards and the storage of trace
      contexts ([include/pain/base/], [src/base/]) are shared by all of them.
    - A mock of a cluster of metadata servers ([src/deva/mock/]) serves tests; [src/examples/] holds
      demonstrations of the client, of erasure coding, of SPDK and of DPDK.

    ** Files

    - [Prelude], [Bytes]: [Status], the state-and-assertion monad [Prog] with its weakest
      preconditions [wp] (no assertion fails) and [wlp], automation, generic lemmas; 64-bit words
      and byte layouts.
    - [Iobuf], [Uuid], [Proto]: the interface of [butil::IOBuf]; [pain::UUID] (validation and
      parsing are code, the rest is an interface with a hexadecimal instance); shared messages.
    - [ScopeExit], [RefCount], [DevaCount]: scope guards; the counts of the classes that intrusive
      pointers point to, in a heap of objects with the members that the classes have; the two counters
      of a metadata container.
    - [Result], [ContextStorage]: [pain::Result]; bthread-local pointers and the stacks of trace
      contexts.
    - [Logging], [Tracing]: the macros of [plog.h] and their expansion, loggers and sinks, start-up of
      the tracer; spans and the propagation of trace contexts through RPC headers and log entries.
    - [Future], [FutureVoid], [FutureStorage]: promises and futures as objects in a heap; the
      specializations for [void] on their own; the union that a shared state keeps its contents in.
    - [ErasureCode], [NvmeDemo], [StarterDemos]: the demonstrations of erasure coding and of SPDK; those
      that start DPDK and an NVMe-oF target.
    - [Store], [MemStore], [LocalStore]: the class of chunk stores as operations and laws, and its
      two implementations.
    - [Chunk], [Reassembly], [ChunkSpec]: the chunk and its invariant; an abstract chunk (bytes and
      waiting fragments) and the simulation; the theorems.
    - [ChunkLifetime]: who holds chunks and waiting requests, statement by statement of the timer
      callbacks.
    - [Bank], [ManusyaService]: the bank, with chunks in a heap; the RPC handlers.
    - [Namespace], [Deva], [Op], [Rsm], [RaftGroup], [DevaService]: directory tree and path parsing;
      the commands; the log format; the replicated state machine; a group of them over one log; the
      RPC handlers.
    - [KvStore], [RocksdbStore], [AsuraService]: the key-value interface; the store on RocksDB with
      checkpoints and recovery; the registry's handlers.
    - [Client], [Stream]: [call_rpc] and [FileSystem]; streams, controllers and the demonstration
      program.
    - [Deployment]: the SDK composed with a metadata server and a registry.
    - [Sad], [SadPrint], [SadServers], [CommandLine]: the commands of the tool; the JSON objects it
      prints; the tool composed with the servers; its parsers, and the whole process from its words.
    - [Process], [MockDeva]: the [main] functions of the three servers; the mock cluster.

    ** How the code is modelled

    A method is a program [Prog S A] on the state of its object: it reads and writes the state
    and returns a value, or [None] when a [BOOST_ASSERT] fails, a null pointer is dereferenced or
    a third-party call would not return. Definitions keep the names of the sources. A pointer
    argument is an option, an out-parameter is passed and returned; a caller that would block is
    a value of the result ([AppendResult], [GetResult], [Handler]); objects that several parts
    share live in heaps ([Future.Heap], [Bank], the requests of [Chunk]). [uint64_t] sums wrap
    ([u64]), stored integers keep their width. Concurrency is a sequence of steps, where the
    sources hold a mutex for the length of a step: [Chunk.step] interleaves appends, timers,
    wake-ups, seals and reads, [Bank.bank_step] the operations on a bank, [Rsm] lets the
    closures of a leader run in any order, and [RaftGroup.step] interleaves the nodes of a group:
    proposals, batches of entries, closures, snapshots, restarts, and the installation of a snapshot
    of one node on another one while it runs.
    Where no mutex is held the steps are single statements ([RefCount.plain_step], [ChunkLifetime]).
    The handlers leave out what they log and trace: [Logging] and [Tracing] model that on its own.

    Third-party code is a class of operations and a class of laws that state its documented
    behaviour ([IOBufOps], [UuidOps], [ProtoOps], [PosixOps], [RocksdbOps], [DiskOps], [NetOps],
    [KeyOps], [ContextOps], [SadOps], [ArgparseOps], [JsonOps], [RaftOps], [TracingOps], [PropagatorOps], [ControllerOps], [FmtOps],
    [IsalOps], [RandOps], [SpdkOps]), each with a concrete instance that the witnesses use. Abstract classes of the sources are
    treated the same way ([StoreOps], [KvOps]): clients are verified against the laws,
    implementations prove them ([mem_store_laws], [local_store_laws], [rocksdb_kv_laws]).

    ** What is proved

    - Chunks ([ChunkSpec]): in every interleaving a chunk keeps its invariant and no operation
      that may run fails an assertion; bytes once written stay; a sealed chunk never changes and
      refuses appends; a waiting append is answered; [append] refines the abstract chunk, so
      that the fragments of a stream may arrive in any order; reading, and what a wrapped sum does.
    - Stores ([LocalStore]): the store on a directory meets the contract as long as no write is short
      ([PosixFullWrites], which [append] asserts), so the theorems on chunks and banks that rest on
      [StoreLaws] hold for both stores (those that need [StoreReliable] hold where calls do not fail);
      what a short write does; where the local store differs from the one in memory.
    - Banks and handlers ([Bank], [ManusyaService]): every chunk of a bank stays valid under its own
      UUID; listing; what [load] does; writing and reading back through the handlers.
    - Metadata ([Namespace], [Deva], [Op], [Rsm], [RaftGroup], [DevaService]): [parse_path] equals a
      splitting of the path; look-ups, creation and removal; encoding and decoding of log entries; a
      node that replays the log reaches the state of processing in order what it has seen of it, through
      restarts and in every interleaving of the group, and a leader does when its closures run in order;
      what goes wrong otherwise, and with snapshots, which hold nothing and leave a gap where they are
      loaded; [OpenFile] and [Mkdir] end to end, also when raft refuses the operation.
    - Registry ([RocksdbStore], [AsuraService]): the store answers as a map of hashes for separated
      keys; [recover] is atomic whatever fails on the way, once the database is closed, and what is left
      when it cannot be closed; checkpoints; registration and listing.
    - Client ([Client], [Stream], [Deployment]): [call_rpc] returns when servers do not redirect;
      what a redirection and a dead leader do to it; opening, making directories and connecting,
      from the application down to the state of the servers; what an application sees of a
      server that does not lead its group, and that the demonstration program always succeeds.
    - Tool ([Sad], [SadPrint], [SadServers], [CommandLine]): its static objects build the same parsers in
      whatever order they are initialized; the words of a command line reach the command that they
      name with the values they give; a table finds the command of every name; ids are validated before
      anything is sent; writing and reading a chunk, from the words down to the store; what is
      printed; exit codes.
    - Contexts ([ContextStorage], [Tracing]): the storage implements one list of contexts per bthread,
      in every interleaving, but for what is lost when bthread cannot set a key; when it can, scopes
      restore the context and a trace crosses an RPC and the log.
    - Promises ([Future], [FutureVoid], [FutureStorage]): reachable heaps are well formed; a promise
      that is overwritten leaves its future blocked; the [void] specializations are equivalent; the
      union supports what [Future] says, but for an exception over a value, and its destructor takes
      down what was built.
    - Lifetimes ([RefCount], [DevaCount], [ChunkLifetime], [ScopeExit]): counts equal the pointers that
      exist, so that nothing is freed early and cycles apart everything is freed; what a second counter
      would do; requests that the timer does not free; a scope guard runs its function at most once.
    - Processes ([Process], [MockDeva], [Logging]): a registry keeps its servers across a restart, a
      chunk server forgets its chunks; which failures of start-up go unnoticed; that a metadata server
      with a request that is never answered does not end; how long the mock waits for a leader; what a
      log line says.
    - Demonstrations ([ErasureCode], [NvmeDemo], [StarterDemos], [Stream]): the decode matrix recovers
      every lost fragment; the programs end and give back what they took; what they do on errors; in
      every interleaving of its cores the DPDK program greets once from each.

    Several theorems state behaviour that the code hardly intends (the header of each file and
    the comment of each theorem say which); they are stated as the code behaves.

    ** Fuel and bounds

    A loop that is not structural takes fuel, and running out of it counts as a failure, so that
    [wp] proves that the given fuel suffices: [Chunk.drain] takes the length of the queue (each
    round but the last unlinks a request), [Namespace.parse_loop] the length of the path,
    [LocalStore.list_attrs_loop] the length of the buffer, iterators of a key-value store more
    rounds than the store has entries. [Client.call_loop] may run for ever: out of fuel is the
    value [None], and theorems say when two rounds are enough and when no number is.
    [ErasureCode.skip_errors] takes the length of its table, [RefCount] releases by the rank of a
    class, and the polling of [NvmeDemo] takes a number of rounds, enough for a driver that completes
    commands in a bounded number of polls; the polls of [MockDeva] are as many as the code makes.
    [ContextStorage.pop_until] takes the size of the stack; stacks are kept below 2^62 contexts by
    the length of the sequence of operations ([room]), so that sizes do not wrap around.

    ** Not modelled

    - The text of the JSON objects that the tool prints, the help of its parsers, and argparse on command
      lines of other forms than [CommandLine.line] and [CommandLine.line_missing]; of tracing and logging,
      what OpenTelemetry and spdlog do with what they are given.
    - Formatters that only serve log lines, the generator of [UUID::generate], declarations that
      nothing uses ([src/pain/chunk.h]), and tests.
    - braft, brpc, RocksDB, protobuf and the operating system, beyond their interfaces: elections,
      replication and changes of the members of a raft group are not steps of [RaftGroup]. *)
From stdpp Require Export base tactics option list numbers strings gmap pretty sorting.
From Stdlib Require Export ZArith Lia.

Set Default Goal Selector "!".

(** ** Status values

    [butil::Status] is observed by the sources only through the two arguments of its
    constructor and [ok()]: an error code and a message. [Status::OK()] has code 0. *)
Record Status := mkStatus { error_code : Z; error_str : string }.

Definition OK : Status := mkStatus 0 "OK".
Definition ok (s : Status) : bool := (error_code s =? 0)%Z.

(** Linux errno values used by the sources. *)
Definition EPERM : Z := 1.
Definition ENOENT : Z := 2.
Definition EIO : Z := 5.
Definition EEXIST : Z := 17.
Definition EINVAL : Z := 22.

(** Decimal rendering of an unsigned integer, as [std::format("{}", n)] prints it. *)
Definition fmt_u (z : Z) : string := pretty (Z.to_N z).

(** Fixed-width unsigned arithmetic: [uint64_t] and [uint32_t] wrap modulo a power of two. *)
Definition u64 (z : Z) : Z := z mod 2 ^ 64.
Definition u32 (z : Z) : Z := z mod 2 ^ 32.

(** ** The program monad

    A handler reads and writes a state [S] and returns a value; [None] is a failed
    [BOOST_ASSERT], after which the process does not continue. *)
Definition Prog (S A : Type) : Type := S → option (A * S).

#[export] Instance prog_ret {S} : MRet (Prog S) := λ A a s, Some (a, s).
#[export] Instance prog_bind {S} : MBind (Prog S) := λ A B f p s,
  match p s with
  | Some (a, s') => f a s'
  | None => None
  end.

Section prog.
Context {S T A : Type}.

Definition get : Prog S S := λ s, Some (s, s).
Definition put (s : S) : Prog S unit := λ _, Some (tt, s).
Definition modify (f : S → S) : Prog S unit := λ s, Some (tt, f s).
Definition gets (f : S → A) : Prog S A := λ s, Some (f s, s).
Definition abort : Prog S A := λ _, None.
(** Run a program on a part of a larger state. *)
Definition zoom (g : T → S) (u : S → T → T) (p : Prog S A) : Prog T A := λ t,
  match p (g t) with
  | Some (a, s') => Some (a, u s' t)
  | None => None
  end.
(** A call of code that is not modelled: its result, and the state after it. *)
Definition external (c : S → A * S) : Prog S A := λ s, Some (c s).
End prog.

(** [BOOST_ASSERT(b)]. *)
Definition boost_assert {S} (b : bool) : Prog S unit := if b then mret tt else abort.

(** *** Weakest preconditions: [wp] is total (no assertion fails), [wlp] partial. *)
Definition wp {S A} (p : Prog S A) (s : S) (Q : A → S → Prop) : Prop :=
  match p s with Some (a, s') => Q a s' | None => False end.
Definition wlp {S A} (p : Prog S A) (s : S) (Q : A → S → Prop) : Prop :=
  match p s with Some (a, s') => Q a s' | None => True end.

Create HintDb pain discriminated.
Create Rewrite HintDb pain_rw.
Create Rewrite HintDb iobuf.
#[export] Hint Constants Transparent : pain.

Section prog_lemmas.
Context {S : Type}.

Lemma bind_Some {A B} (p : Prog S A) (f : A → Prog S B) s r :
  (p ≫= f) s = Some r ↔ ∃ a s', p s = Some (a, s') ∧ f a s' = Some r.
Proof.
  unfold mbind, prog_bind. destruct (p s) as [[a s']|]; naive_solver.
Qed.

Lemma bind_step {A B} (p : Prog S A) (f : A → Prog S B) s a s' :
  p s = Some (a, s') → (p ≫= f) s = f a s'.
Proof. intros E. unfold mbind, prog_bind. cbn. by rewrite E. Qed.

Lemma ret_eq {A} (a : A) (s : S) : (mret a : Prog S A) s = Some (a, s).
Proof. done. Qed.

Lemma wlp_ret {A} (a : A) (s : S) Q : Q a s → wlp (mret a) s Q.
Proof. done. Qed.

Lemma wlp_bind {A B} (p : Prog S A) (f : A → Prog S B) s Q :
  wlp (p ≫= f) s Q ↔ wlp p s (λ a s', wlp (f a) s' Q).
Proof. unfold wlp, mbind, prog_bind. by destruct (p s) as [[a s']|]. Qed.

Lemma wlp_mono {A} (p : Prog S A) s (P Q : A → S → Prop) :
  wlp p s P → (∀ a s', P a s' → Q a s') → wlp p s Q.
Proof. unfold wlp. destruct (p s) as [[a s']|]; auto. Qed.

Lemma wlp_and {A} (p : Prog S A) s (P Q : A → S → Prop) :
  wlp p s P → wlp p s Q → wlp p s (λ a s', P a s' ∧ Q a s').
Proof. unfold wlp. destruct (p s) as [[a s']|]; auto. Qed.

Lemma wlp_elim {A} (p : Prog S A) s Q a s' :
  wlp p s Q → p s = Some (a, s') → Q a s'.
Proof. unfold wlp. intros H E. by rewrite E in H. Qed.

Lemma wp_bind {A B} (p : Prog S A) (f : A → Prog S B) s Q :
  wp (p ≫= f) s Q ↔ wp p s (λ a s', wp (f a) s' Q).
Proof. unfold wp, mbind, prog_bind. by destruct (p s) as [[a s']|]. Qed.

Lemma wp_step {A B} (p : Prog S A) (f : A → Prog S B) s a s' Q :
  p s = Some (a, s') → wp (f a) s' Q → wp (p ≫= f) s Q.
Proof. intros E H. unfold wp, mbind, prog_bind in *. by rewrite E. Qed.

Lemma wp_eq {A} (p q : Prog S A) s Q : p s = q s → wp q s Q → wp p s Q.
Proof. unfold wp. by intros ->. Qed.

Lemma wp_reduce {A} (p q : Prog S A) s s' Q : p s = q s' → wp q s' Q → wp p s Q.
Proof. unfold wp. by intros ->. Qed.

Lemma wp_eval {A} (p : Prog S A) s a s' (Q : A → S → Prop) :
  p s = Some (a, s') → Q a s' → wp p s Q.
Proof. unfold wp. by intros ->. Qed.

Lemma wp_mono {A} (p : Prog S A) s (P Q : A → S → Prop) :
  wp p s P → (∀ a s', P a s' → Q a s') → wp p s Q.
Proof. unfold wp. destruct (p s) as [[a s']|]; auto. Qed.

Lemma wp_and {A} (p : Prog S A) s (P Q : A → S → Prop) :
  wp p s P → wlp p s Q → wp p s (λ a s', P a s' ∧ Q a s').
Proof. unfold wp, wlp. destruct (p s) as [[a s']|]; auto. Qed.

Lemma wp_external {A B} (c : S → A * S) (k : A → Prog S B) s Q :
  wp (k (fst (c s))) (snd (c s)) Q → wp (external c ≫= k) s Q.
Proof. intros Hk. unfold wp, mbind, prog_bind, external in *. by destruct (c s). Qed.

(** Running a program for its effect only. *)
Lemma wp_void {A} (p : Prog S A) s (Q : S → Prop) :
  wp p s (λ _ s', Q s') → wp (_ ← p; mret tt) s (λ _ s', Q s').
Proof. unfold wp, mbind, prog_bind. by destruct (p s) as [[a s']|]. Qed.

Lemma wlp_keep_if {A} (P : Prop) (p : Prog S A) s :
  (P → wlp p s (λ _ s', s' = s)) → wlp p s (λ _ s', P → s' = s).
Proof. unfold wlp. destruct (p s) as [[a s']|]; auto. Qed.

Lemma wp_wlp {A} (p : Prog S A) s Q : wp p s Q → wlp p s Q.
Proof. unfold wp, wlp. destruct (p s) as [[a s']|]; auto. Qed.

Lemma wp_exists {A} (p : Prog S A) s Q :
  wp p s Q ↔ ∃ a s', p s = Some (a, s') ∧ Q a s'.
Proof. unfold wp. destruct (p s) as [[a s']|]; naive_solver. Qed.

Lemma wlp_zoom {T A} (g : T → S) (u : S → T → T) (p : Prog S A) t Q :
  wlp p (g t) (λ a s', Q a (u s' t)) → wlp (zoom g u p) t Q.
Proof. unfold wlp, zoom. by destruct (p (g t)) as [[a s']|]. Qed.

Lemma wp_zoom {T A} (g : T → S) (u : S → T → T) (p : Prog S A) t Q :
  wp p (g t) (λ a s', Q a (u s' t)) → wp (zoom g u p) t Q.
Proof. unfold wp, zoom. by destruct (p (g t)) as [[a s']|]. Qed.

Lemma zoom_step {T A} (g : T → S) (u : S → T → T) (p : Prog S A) t a s' :
  p (g t) = Some (a, s') → zoom g u p t = Some (a, u s' t).
Proof. unfold zoom. by intros ->. Qed.
End prog_lemmas.

#[export] Hint Resolve wlp_ret wp_wlp : pain.

(** *** Programs that keep something of the state, whatever they do to the rest *)
Definition preserves {S T A} (g : S → T) (p : Prog S A) : Prop :=
  ∀ s, wlp p s (λ _ s', g s' = g s).

Section preserves.
Context {S T : Type} (g : S → T).

Lemma preserves_ret {A} (a : A) : preserves g (mret a).
Proof. by intros s. Qed.

Lemma preserves_bind {A B} (p : Prog S A) (f : A → Prog S B) :
  preserves g p → (∀ a, preserves g (f a)) → preserves g (p ≫= f).
Proof.
  intros Hp Hf s. apply wlp_bind. eapply wlp_mono; [apply Hp|]. cbn. intros a s' E.
  eapply wlp_mono; [apply Hf|]. cbn. intros b s'' E'. by rewrite E'.
Qed.

Lemma preserves_get : preserves g get.
Proof. by intros s. Qed.
Lemma preserves_gets {A} (f : S → A) : preserves g (gets f).
Proof. by intros s. Qed.
Lemma preserves_abort {A} : preserves g (abort : Prog S A).
Proof. by intros s. Qed.
Lemma preserves_modify f : (∀ s, g (f s) = g s) → preserves g (modify f).
Proof. intros E s. apply E. Qed.
Lemma preserves_zoom {U A} (h : S → U) (u : U → S → S) (p : Prog U A) :
  (∀ x s, g (u x s) = g s) → preserves g (zoom h u p).
Proof. intros E s. unfold wlp, zoom. destruct (p (h s)) as [[a s']|]; [apply E|done]. Qed.
End preserves.

#[export] Hint Resolve preserves_ret preserves_bind preserves_get preserves_gets preserves_abort
  preserves_modify preserves_zoom : pain.

(** Decompose [preserves g p] along the syntax of [p]. *)
Ltac preserves_step :=
  match goal with
  | |- preserves _ (_ ≫= _) => apply preserves_bind; [|intros]
  | |- preserves _ (mret _) => apply preserves_ret
  | |- preserves _ get => apply preserves_get
  | |- preserves _ (gets _) => apply preserves_gets
  | |- preserves _ abort => apply preserves_abort
  | |- preserves _ (modify _) => apply preserves_modify; by intros
  | |- preserves _ (zoom _ _ _) => apply preserves_zoom; by intros
  | |- preserves _ (match ?x with _ => _ end) => destruct x
  | |- preserves _ (let _ := _ in _) => cbv zeta
  end.
Ltac preserves_tac := repeat preserves_step; eauto with pain.

(** *** Reachability *)
Lemma rtc_preserves {A} (R : relation A) (P : A → Prop) x y :
  (∀ x y, R x y → P x → P y) → rtc R x y → P x → P y.
Proof. intros HR. induction 1; eauto. Qed.

(** *** Automation *)

(** Turn the boolean tests of the code into the propositions they decide. *)
Ltac bool_to_prop :=
  repeat match goal with
  | H : (_ =? _)%Z = true |- _ => apply Z.eqb_eq in H
  | H : (_ =? _)%Z = false |- _ => apply Z.eqb_neq in H
  | H : (_ <? _)%Z = true |- _ => apply Z.ltb_lt in H
  | H : (_ <? _)%Z = false |- _ => apply Z.ltb_ge in H
  | H : (_ <=? _)%Z = true |- _ => apply Z.leb_le in H
  | H : (_ <=? _)%Z = false |- _ => apply Z.leb_gt in H
  | H : bool_decide _ = true |- _ => apply bool_decide_eq_true in H
  | H : bool_decide _ = false |- _ => apply bool_decide_eq_false in H
  | H : negb _ = true |- _ => apply negb_true_iff in H
  | H : negb _ = false |- _ => apply negb_false_iff in H
  | H : (_ && _) = true |- _ => apply andb_true_iff in H; destruct H
  | H : (_ || _) = false |- _ => apply orb_false_iff in H; destruct H
  end.

Lemma Some_pair_eq {A B} (a a' : A) (b b' : B) :
  Some (a, b) = Some (a', b') → a = a' ∧ b = b'.
Proof. by intros [= -> ->]. Qed.

(** Invert a hypothesis [p s = Some (a, s')]: one case per path through the program. *)
Ltac prog_inv_step :=
  match goal with
  | H : Some (_, _) = Some (_, _) |- _ => apply Some_pair_eq in H as [? ?]; subst
  | H : Some _ = Some _ |- _ => injection H as H; subst
  | H : None = Some _ |- _ => discriminate H
  | H : Some _ = None |- _ => discriminate H
  | H : (_ ≫= _) _ = Some _ |- _ => apply bind_Some in H as (?&?&?&?)
  | H : mret _ _ = Some _ |- _ => unfold mret, prog_ret in H
  | H : get _ = Some _ |- _ => unfold get in H
  | H : put _ _ = Some _ |- _ => unfold put in H
  | H : modify _ _ = Some _ |- _ => unfold modify in H
  | H : gets _ _ = Some _ |- _ => unfold gets in H
  | H : abort _ = Some _ |- _ => unfold abort in H
  | H : boost_assert _ _ = Some _ |- _ => unfold boost_assert in H
  | H : (match ?x with _ => _ end) _ = Some _ |- _ => destruct x eqn:?
  | H : (match ?x with _ => _ end) = Some _ |- _ => destruct x eqn:?
  | H : (if ?x then _ else _) _ = Some _ |- _ => destruct x eqn:?
  | H : (?a, ?b) = (_, _) |- _ => injection H as H; subst
  | x : unit |- _ => destruct x
  end.
Ltac prog_inv := repeat (prog_inv_step; cbn beta iota zeta in *).

(** ** Lists *)
Section lists.
Context {A : Type}.
Implicit Types l : list A.

Lemma take_drop_app_mid l1 l2 (n : nat) :
  n = length l1 → take n (l1 ++ l2) = l1 ∧ drop n (l1 ++ l2) = l2.
Proof. intros ->. by rewrite take_app_length, drop_app_length. Qed.

Lemma take_length_take (n : nat) l : take (length (take n l)) l = take n l.
Proof.
  rewrite length_take. destruct (Nat.le_gt_cases n (length l)).
  - by rewrite Nat.min_l.
  - by rewrite Nat.min_r, !take_ge by lia.
Qed.

Lemma last_cons_ne (x : A) l : l ≠ [] → last (x :: l) = last l.
Proof. destruct l; [done|]. done. Qed.

Lemma StronglySorted_mono (R1 R2 : relation A) l :
  (∀ x y, x ∈ l → y ∈ l → R1 x y → R2 x y) → StronglySorted R1 l → StronglySorted R2 l.
Proof.
  intros HR Hl. induction Hl as [|x l Hl IH Hx]; [constructor|]. constructor.
  - apply IH. intros. apply HR; [by right|by right|done].
  - rewrite Forall_forall in *. intros y Hy. apply HR; [left|by right|auto].
Qed.

Lemma StronglySorted_filter (P : A → Prop) `{!∀ x, Decision (P x)} (R : relation A) l :
  StronglySorted R l → StronglySorted R (filter P l).
Proof.
  induction 1 as [|x l Hl IH Hx]; [constructor|]. rewrite filter_cons. case_decide; [|done].
  constructor; [done|]. rewrite Forall_forall in *. intros y [_ Hy]%list_elem_of_filter. auto.
Qed.

Lemma filter_all_id (P : A → Prop) `{!∀ x, Decision (P x)} l :
  (∀ x, x ∈ l → P x) → filter P l = l.
Proof.
  induction l as [|x l IH]; [done|]. intros HP. rewrite filter_cons_True by (apply HP; left).
  f_equal. apply IH. intros y Hy. apply HP. by right.
Qed.

Lemma filter_none (P : A → Prop) `{!∀ x, Decision (P x)} l :
  (∀ x, x ∈ l → ¬ P x) → filter P l = [].
Proof.
  induction l as [|x l IH]; [done|]. intros HP. rewrite filter_cons_False by (apply HP; left).
  apply IH. intros y Hy. apply HP. by right.
Qed.

(** Removing an element that is in the list only as its head. *)
Lemma filter_ne_head `{!EqDecision A} (x : A) l : x ∉ l → filter (λ y, y ≠ x) (x :: l) = l.
Proof.
  intros Hx. rewrite filter_cons_False by auto. apply filter_all_id. by intros y Hy ->.
Qed.

Lemma Forall2_elem_of_l {B} (P : A → B → Prop) l (k : list B) x :
  Forall2 P l k → x ∈ l → ∃ y, y ∈ k ∧ P x y.
Proof.
  intros Hlk [i Hi]%list_elem_of_lookup_1.
  destruct (Forall2_lookup_l _ _ _ _ _ Hlk Hi) as (y & Hy & HP).
  exists y. split; [by eapply list_elem_of_lookup_2|done].
Qed.

Lemma prefix_app_mono l1 l2 l3 : l1 `prefix_of` l2 → l1 `prefix_of` l2 ++ l3.
Proof. intros [k ->]. exists (k ++ l3). by rewrite app_assoc. Qed.
End lists.

(** ** Sums over finite maps *)
Section sum_map.
Context `{Countable K} {A : Type}.
Implicit Types (m : gmap K A) (f : A → nat).

Definition sum_map f m : nat := sum_list (f ∘ snd <$> map_to_list m).

Lemma sum_map_empty f : sum_map f ∅ = 0.
Proof. unfold sum_map. by rewrite map_to_list_empty. Qed.

Lemma sum_list_perm (l l' : list nat) : l ≡ₚ l' → sum_list l = sum_list l'.
Proof. induction 1; cbn in *; lia. Qed.

Lemma sum_map_insert f m k x : m !! k = None → sum_map f (<[k := x]> m) = f x + sum_map f m.
Proof. intros Hk. unfold sum_map. by rewrite (sum_list_perm _ _ (fmap_Permutation _ _ _ (map_to_list_insert m k x Hk))). Qed.

Lemma sum_map_delete f m k x : m !! k = Some x → sum_map f m = (f x + sum_map f (delete k m)).
Proof.
  intros Hk. rewrite <- (insert_delete_id m k x Hk) at 1. apply sum_map_insert, lookup_delete_eq.
Qed.

Lemma sum_map_update f m k x y :
  m !! k = Some x → (f x + sum_map f (<[k := y]> m) = f y + sum_map f m).
Proof.
  intros Hk. rewrite (sum_map_delete f m k x Hk), <- insert_delete_eq.
  rewrite sum_map_insert by apply lookup_delete_eq. lia.
Qed.

Lemma sum_map_pos f m : (0 < sum_map f m) → ∃ k x, m !! k = Some x ∧ (0 < f x).
Proof.
  unfold sum_map. intros Hpos. assert (∃ p, p ∈ map_to_list m ∧ (0 < f (snd p))) as ([k x]&Hin&Hx).
  { induction (map_to_list m) as [|p l IH]; cbn in Hpos; [lia|].
    destruct (decide (0 < f (snd p))) as [Hp|]; [exists p; split; [left|done]|].
    destruct IH as (q&?&?); [lia|]. exists q. split; [by right|done]. }
  exists k, x. split; [by apply elem_of_map_to_list|done].
Qed.

Lemma sum_map_ge f m k x : m !! k = Some x → (f x <= sum_map f m).
Proof. intros Hk. rewrite (sum_map_delete f m k x Hk). lia. Qed.
End sum_map.

(** ** Strings *)
Lemma str_app_assoc (s1 s2 s3 : string) : (s1 +:+ s2) +:+ s3 = s1 +:+ (s2 +:+ s3).
Proof. induction s1 as [|c s1 IH]; [done|]. exact (f_equal (String c) IH). Qed.

Lemma str_app_nil_l (s : string) : "" +:+ s = s.
Proof. done. Qed.

Lemma str_app_nil_r (s : string) : s +:+ "" = s.
Proof. induction s as [|c s IH]; [done|]. exact (f_equal (String c) IH). Qed.

Lemma str_app_inj_l (s t1 t2 : string) : s +:+ t1 = s +:+ t2 → t1 = t2.
Proof. induction s as [|c s IH]; [done|]. intros E. apply IH. by injection E. Qed.

Lemma str_length_app (s t : string) : String.length (s +:+ t) = String.length s + String.length t.
Proof. induction s as [|c s IH]; [done|]. exact (f_equal Datatypes.S IH). Qed.

Lemma str_length_app_r (s t : string) : String.length t <= String.length (s +:+ t).
Proof. rewrite str_length_app. lia. Qed.

(** What is left of a string after its first [n] characters. *)
Fixpoint str_drop (n : nat) (s : string) : string :=
  match n, s with
  | O, _ => s
  | S n, String _ s' => str_drop n s'
  | S n, EmptyString => EmptyString
  end.

Lemma str_drop_nil n : str_drop n "" = "".
Proof. by destruct n. Qed.

Lemma str_drop_add n k s : str_drop k (str_drop n s) = str_drop (n + k) s.
Proof.
  revert s; induction n as [|n IH]; intros s; [done|].
  destruct s; cbn [str_drop Nat.add]; [apply str_drop_nil|apply IH].
Qed.

Lemma length_str_drop n s : String.length (str_drop n s) = String.length s - n.
Proof. revert s; induction n as [|n IH]; intros [|c s]; cbn; auto. Qed.

Lemma str_drop_app s t : str_drop (String.length s) (s +:+ t) = t.
Proof. induction s as [|c s IH]; [done|]. exact IH. Qed.

(** A name of a directory entry: not empty, not a dot name, without a slash. *)
Definition slash : Ascii.ascii := Ascii.ascii_of_nat 47.
Fixpoint no_slash (p : string) : bool :=
  match p with
  | EmptyString => true
  | String c p' => negb (Ascii.eqb c slash) && no_slash p'
  end.
Definition plain_name (p : string) : bool :=
  negb (bool_decide (p = "")) && negb (bool_decide (p = ".")) && negb (bool_decide (p = "..")) &&
  no_slash p.

(** ** Arithmetic *)
Lemma u64_small z : (0 ≤ z < 2 ^ 64)%Z → u64 z = z.
Proof. intros H. unfold u64. by rewrite Z.mod_small. Qed.

Lemma u64_range z : (0 ≤ u64 z < 2 ^ 64)%Z.
Proof. unfold u64. apply Z.mod_pos_bound. lia. Qed.

Lemma u64_add_idemp_l a b : u64 (u64 a + b) = u64 (a + b).
Proof. unfold u64. by rewrite Zplus_mod_idemp_l. Qed.

Lemma ok_OK : ok OK = true.
Proof. done. Qed.

#[export] Hint Resolve u64_small u64_range : pain.
