(* ===== verification/Bytes.v ===== *)
(** * Machine words and bytes

    64-bit words bounded by construction, and the little-endian byte layout of the
    integers that the sources place in memory ([reinterpret_cast] in
    [include/pain/base/uuid.h], the [OpMeta] header of [src/deva/op.cc]). *)
From Stdlib Require Import Strings.Byte.
From S2P Require Import Prelude.
Set Default Goal Selector "!".
Local Open Scope Z_scope.

Abbreviation byte := Byte.byte.

#[export] Instance byte_eq_dec : EqDecision byte := Byte.byte_eq_dec.

(** ** Definitions *)

Definition byte_to_Z (b : byte) : Z := Z.of_N (Byte.to_N b).
(** Conversion to [char] keeps the low eight bits. *)
Definition byte_of_Z (z : Z) : byte :=
  match Byte.of_N (Z.to_N (z mod 256)) with Some b => b | None => Byte.x00 end.

(** The [n] low-order bytes of [z], least significant first. *)
Fixpoint le_bytes (n : nat) (z : Z) : list byte :=
  match n with
  | O => []
  | S m => byte_of_Z z :: le_bytes m (z / 256)
  end.

(** The unsigned integer that the bytes [bs] represent. *)
Fixpoint le_val (bs : list byte) : Z :=
  match bs with
  | [] => 0
  | b :: rest => byte_to_Z b + 256 * le_val rest
  end.

(** Two's complement reading of a 32-bit word. *)
Definition i32_of_u32 (z : Z) : Z := if z <? 2 ^ 31 then z else z - 2 ^ 32.

(** ** 64-bit words *)
Record w64 := mkW64 { w64_val : Z; w64_ok : bool_decide (0 <= w64_val < 2 ^ 64) }.

Lemma u64_ok z : bool_decide (0 <= u64 z < 2 ^ 64).
Proof. apply bool_decide_pack, u64_range. Qed.

(** Conversion to [uint64_t] wraps around. *)
Definition W64 (z : Z) : w64 := mkW64 (u64 z) (u64_ok z).

(** ** Lemmas *)

Lemma byte_to_Z_range b : 0 <= byte_to_Z b < 256.
Proof. unfold byte_to_Z. pose proof (Byte.to_N_bounded b). lia. Qed.

Lemma byte_to_of_Z z : byte_to_Z (byte_of_Z z) = z mod 256.
Proof.
  unfold byte_to_Z, byte_of_Z.
  assert (0 <= z mod 256 < 256) by (apply Z.mod_pos_bound; lia).
  destruct (Byte.of_N (Z.to_N (z mod 256))) as [b|] eqn:E.
  - apply Byte.to_of_N in E. rewrite E. lia.
  - apply Byte.of_N_None_iff in E. lia.
Qed.

Lemma byte_of_to_Z b : byte_of_Z (byte_to_Z b) = b.
Proof.
  unfold byte_of_Z. rewrite Z.mod_small by apply byte_to_Z_range.
  unfold byte_to_Z. by rewrite N2Z.id, Byte.of_to_N.
Qed.

Lemma length_le_bytes n z : length (le_bytes n z) = n.
Proof. revert z; induction n; intros z; simpl; auto. Qed.

Lemma le_val_le_bytes n z : le_val (le_bytes n z) = z mod 256 ^ Z.of_nat n.
Proof.
  revert z; induction n as [|n IH]; intros z.
  { cbn. by rewrite Z.mod_1_r. }
  cbn [le_bytes le_val]. rewrite byte_to_of_Z, IH, Nat2Z.inj_succ, Z.pow_succ_r by lia.
  rewrite Z.rem_mul_r by lia. lia.
Qed.

Lemma le_val_range bs : 0 <= le_val bs < 256 ^ Z.of_nat (length bs).
Proof.
  induction bs as [|b bs IH]; cbn [le_val length]; [lia|].
  pose proof (byte_to_Z_range b). rewrite Nat2Z.inj_succ, Z.pow_succ_r; lia.
Qed.

Lemma le_bytes_le_val bs : le_bytes (length bs) (le_val bs) = bs.
Proof.
  induction bs as [|b bs IH]; cbn [le_val length le_bytes]; [done|].
  pose proof (byte_to_Z_range b) as Hb. f_equal.
  - unfold byte_of_Z. replace (byte_to_Z b + 256 * le_val bs) with
      (byte_to_Z b + le_val bs * 256) by lia.
    rewrite Z.mod_add by lia. apply byte_of_to_Z.
  - replace (byte_to_Z b + 256 * le_val bs) with (byte_to_Z b + le_val bs * 256) by lia.
    rewrite Z.div_add, Z.div_small by lia. by rewrite Z.add_0_l.
Qed.

Lemma w64_range w : 0 <= w64_val w < 2 ^ 64.
Proof. destruct w as [z H]. simpl. by apply bool_decide_unpack in H. Qed.

Lemma w64_eq w1 w2 : w64_val w1 = w64_val w2 → w1 = w2.
Proof.
  destruct w1 as [z1 H1], w2 as [z2 H2]; simpl. intros ->. f_equal. apply proof_irrel.
Qed.

Lemma W64_val w : W64 (w64_val w) = w.
Proof. apply w64_eq. simpl. apply u64_small, w64_range. Qed.

Lemma w64_val_W64 z : 0 <= z < 2 ^ 64 → w64_val (W64 z) = z.
Proof. apply u64_small. Qed.

Lemma i32_of_u32_small z : 0 <= z < 2 ^ 31 → i32_of_u32 z = z.
Proof. unfold i32_of_u32. intros ?. destruct (Z.ltb_spec z (2 ^ 31)); lia. Qed.

#[export] Instance w64_eq_dec : EqDecision w64.
Proof.
  intros w1 w2. destruct (decide (w64_val w1 = w64_val w2)) as [E|E].
  - left. by apply w64_eq.
  - right. intros ->. done.
Defined.

#[export] Program Instance w64_countable : Countable w64 :=
  inj_countable' w64_val W64 _.
Next Obligation. apply W64_val. Qed.

#[export] Hint Rewrite length_le_bytes le_val_le_bytes : pain_rw.
