(* ===== verification/Iobuf.v ===== *)
(** * The [butil::IOBuf] interface

    [IOBuf] (brpc's chained byte buffer, aliased in [include/pain/base/types.h]) is not part
    of the repository. The development is parametric in it: [IOBufOps] lists the members the
    sources call and [IOBufLaws] their documented behaviour, stated through the bytes a buffer
    holds. [list byte] is an instance, used by the witnesses. *)
From S2P Require Import Prelude Bytes.
Set Default Goal Selector "!".
Local Open Scope Z_scope.

Class IOBufOps := {
  IOBuf : Type;
  iob_bytes : IOBuf → list byte;
  iob_empty : IOBuf;                                  (* IOBuf() *)
  iob_size : IOBuf → Z;                               (* size() *)
  iob_append : IOBuf → IOBuf → IOBuf;                 (* append(const IOBuf&) *)
  iob_append_raw : IOBuf → list byte → IOBuf;         (* append(const void*, size_t) *)
  iob_clear : IOBuf → IOBuf;                          (* clear() *)
  (* src.append_to(dst, n, pos): the new destination *)
  iob_append_to : IOBuf → IOBuf → Z → Z → IOBuf;
  (* src.cutn(void*, n): bytes copied out, the remaining source *)
  iob_cutn_raw : IOBuf → Z → list byte * IOBuf;
  (* src.cutn(IOBuf*, n): the destination after the append, the remaining source *)
  iob_cutn : IOBuf → IOBuf → Z → IOBuf * IOBuf;
}.

Class IOBufLaws `{IOBufOps} : Prop := {
  iob_bytes_empty : iob_bytes iob_empty = [];
  iob_size_spec b : iob_size b = Z.of_nat (length (iob_bytes b));
  iob_bytes_append a b : iob_bytes (iob_append a b) = iob_bytes a ++ iob_bytes b;
  iob_bytes_append_raw a l : iob_bytes (iob_append_raw a l) = iob_bytes a ++ l;
  iob_bytes_clear b : iob_bytes (iob_clear b) = [];
  iob_bytes_append_to src dst n pos :
    iob_bytes (iob_append_to src dst n pos) =
    iob_bytes dst ++ take (Z.to_nat n) (drop (Z.to_nat pos) (iob_bytes src));
  iob_cutn_raw_fst b n : fst (iob_cutn_raw b n) = take (Z.to_nat n) (iob_bytes b);
  iob_cutn_raw_snd b n : iob_bytes (snd (iob_cutn_raw b n)) = drop (Z.to_nat n) (iob_bytes b);
  iob_cutn_fst b dst n :
    iob_bytes (fst (iob_cutn b dst n)) = iob_bytes dst ++ take (Z.to_nat n) (iob_bytes b);
  iob_cutn_snd b dst n : iob_bytes (snd (iob_cutn b dst n)) = drop (Z.to_nat n) (iob_bytes b);
}.

Lemma iob_size_nonneg `{IOBufLaws} b : 0 <= iob_size b.
Proof. rewrite iob_size_spec. lia. Qed.

#[export] Hint Resolve iob_size_nonneg : pain.
#[export] Hint Rewrite @iob_bytes_empty @iob_size_spec @iob_bytes_append @iob_bytes_append_raw
  @iob_bytes_clear @iob_bytes_append_to @iob_cutn_raw_fst @iob_cutn_raw_snd
  @iob_cutn_fst @iob_cutn_snd using typeclasses eauto : iobuf.

(** The list instance. *)
Module ListIOBuf.
#[export] Instance ops : IOBufOps := {
  IOBuf := list byte;
  iob_bytes b := b;
  iob_empty := [];
  iob_size b := Z.of_nat (length b);
  iob_append a b := a ++ b;
  iob_append_raw a l := a ++ l;
  iob_clear _ := [];
  iob_append_to src dst n pos := dst ++ take (Z.to_nat n) (drop (Z.to_nat pos) src);
  iob_cutn_raw b n := (take (Z.to_nat n) b, drop (Z.to_nat n) b);
  iob_cutn b dst n := (dst ++ take (Z.to_nat n) b, drop (Z.to_nat n) b);
}.
#[export] Instance laws : @IOBufLaws ops.
Proof. by constructor. Qed.
End ListIOBuf.
