(* ===== verification/Uuid.v ===== *)
(** * UUIDs ([include/pain/base/uuid.h])

    [pain::UUID] adds word access, validation and parsing to the third-party class
    [UUIDv4::UUID]. The 16 bytes of the object are kept as two 64-bit words, the ones that
    [low()] and [high()] read; construction from two words, printing, parsing and ordering
    belong to the library and are the members of [UuidOps], with the laws the sources rely
    on in [UuidLaws]. *)
From S2P Require Import Prelude Bytes.
From Stdlib Require Import Strings.Ascii.
Set Default Goal Selector "!".

(** ** Definitions *)

(** The object representation: bytes 0-7 and bytes 8-15 as little-endian words. *)
Record UUID := mkUUID { uuid_w0 : w64; uuid_w1 : w64 }.

Definition low (u : UUID) : Z := w64_val (uuid_w0 u).
Definition high (u : UUID) : Z := w64_val (uuid_w1 u).

#[export] Instance UUID_eq_dec : EqDecision UUID.
Proof. solve_decision. Defined.

#[export] Program Instance UUID_countable : Countable UUID :=
  inj_countable' (λ u, (uuid_w0 u, uuid_w1 u)) (λ p, mkUUID (fst p) (snd p)) _.
Next Obligation. by intros []. Qed.

Class UuidOps := {
  uuid_ctor : Z → Z → UUID;                 (* UUID(uint64_t high, uint64_t low) *)
  uuid_str : UUID → string;                 (* str() *)
  uuid_from_str_factory : string → UUID;    (* UUIDv4::UUID::fromStrFactory *)
  uuid_lt : relation UUID;                  (* operator< *)
  uuid_lt_dec :: RelDecision uuid_lt;
}.

Definition hexchars : string := "0123456789abcdef".

(** [hexchars.find(c) != npos]. *)
Fixpoint str_mem (c : ascii) (s : string) : bool :=
  match s with
  | EmptyString => false
  | String c' s' => Ascii.eqb c c' || str_mem c s'
  end.

(** The loop of [valid] from position [i] on, where [s] is the rest of the string. *)
Fixpoint valid_loop (i : nat) (s : string) : bool :=
  match s with
  | EmptyString => true
  | String current rest =>
      if (i =? 8)%nat || (i =? 13)%nat || (i =? 18)%nat || (i =? 23)%nat
      then if negb (Ascii.eqb current "-") then false else valid_loop (S i) rest
      else if negb (str_mem current hexchars) then false else valid_loop (S i) rest
  end.

(** [UUID::valid]. *)
Definition valid (uuid : string) : bool :=
  if negb (String.length uuid =? 36)%nat then false else valid_loop 0 uuid.

Section ops.
Context `{UuidOps}.

(** [UUID::from_str]. *)
Definition from_str (str : string) : option UUID :=
  if negb (valid str) then None else Some (uuid_from_str_factory str).

(** [UUID::from_str_or_die]: no validation. *)
Definition from_str_or_die (str : string) : UUID := uuid_from_str_factory str.
End ops.

(** [std::hash<pain::UUID>], over the hash of 64-bit words, into a [size_t] of 64 bits. *)
Definition uuid_hash (std_hash : Z → Z) (uuid : UUID) : Z :=
  let h1 := std_hash (low uuid) in
  let h2 := std_hash (high uuid) in
  Z.lxor h1 (u64 (Z.shiftl h2 1)).

Class UuidLaws `{UuidOps} : Prop := {
  high_ctor h l : (0 <= h < 2 ^ 64)%Z → high (uuid_ctor h l) = h;
  low_ctor h l : (0 <= l < 2 ^ 64)%Z → low (uuid_ctor h l) = l;
  from_str_factory_str u : uuid_from_str_factory (uuid_str u) = u;
  valid_str u : valid (uuid_str u) = true;
  uuid_lt_strict :: StrictOrder uuid_lt;
  uuid_lt_tri :: Trichotomy uuid_lt;
}.

(** What [valid] accepts, position by position. *)
Definition uuid_position_ok (i : nat) (c : ascii) : Prop :=
  if decide (i = 8 ∨ i = 13 ∨ i = 18 ∨ i = 23) then c = "-"%char
  else str_mem c hexchars = true.

(** ** Lemmas *)

Lemma UUID_eq u1 u2 : high u1 = high u2 → low u1 = low u2 → u1 = u2.
Proof. destruct u1, u2; unfold high, low; simpl. intros ?%w64_eq ?%w64_eq. by subst. Qed.

Lemma high_range u : (0 <= high u < 2 ^ 64)%Z.
Proof. apply w64_range. Qed.

Lemma low_range u : (0 <= low u < 2 ^ 64)%Z.
Proof. apply w64_range. Qed.

Lemma ctor_high_low `{UuidLaws} u : uuid_ctor (high u) (low u) = u.
Proof.
  apply UUID_eq; [apply high_ctor, high_range | apply low_ctor, low_range].
Qed.

#[export] Instance uuid_str_inj `{UuidLaws} : Inj (=) (=) uuid_str.
Proof.
  intros u1 u2 E. by rewrite <-(from_str_factory_str u1), <-(from_str_factory_str u2), E.
Qed.

Lemma valid_loop_spec i s :
  valid_loop i s = true ↔
  ∀ k c, String.get k s = Some c → uuid_position_ok (i + k) c.
Proof.
  revert i; induction s as [|c s IH]; intros i.
  { split; [by intros _ [|k] c|done]. }
  assert (Hsplit : (∀ k c', String.get k (String c s) = Some c' →
                     uuid_position_ok (i + k) c') ↔
                   uuid_position_ok i c ∧
                   ∀ k c', String.get k s = Some c' → uuid_position_ok (S i + k) c').
  { split.
    - intros Hk. split.
      + specialize (Hk 0%nat c). rewrite Nat.add_0_r in Hk. auto.
      + intros k c' E. replace (S i + k)%nat with (i + S k)%nat by lia. by apply Hk.
    - intros [H0 HS] [|k] c' E; simpl in E.
      + injection E as <-. by rewrite Nat.add_0_r.
      + replace (i + S k)%nat with (S i + k)%nat by lia. by apply HS. }
  rewrite Hsplit, <-IH. clear Hsplit IH. unfold uuid_position_ok. cbn [valid_loop].
  case_decide as D.
  - assert ((i =? 8)%nat || (i =? 13)%nat || (i =? 18)%nat || (i =? 23)%nat = true) as ->.
    { destruct D as [-> | [-> | [-> | ->]]]; done. }
    destruct (Ascii.eqb_spec c "-"); simpl; intuition congruence.
  - assert ((i =? 8)%nat || (i =? 13)%nat || (i =? 18)%nat || (i =? 23)%nat = false) as ->.
    { rewrite !orb_false_iff, !Nat.eqb_neq. tauto. }
    destruct (str_mem c hexchars); simpl; intuition congruence.
Qed.

(** A printed UUID is the name of a directory entry. *)
Lemma valid_no_slash i s : valid_loop i s = true → no_slash s = true.
Proof.
  revert i; induction s as [|c s IH]; intros i; [done|]. cbn [valid_loop no_slash].
  destruct (Ascii.eqb_spec c slash) as [->|_]; cbn [negb andb].
  - replace (negb (Ascii.eqb slash "-")) with true by done.
    replace (negb (str_mem slash hexchars)) with true by done. by case_match.
  - repeat case_match; first [done|apply IH].
Qed.

Lemma uuid_str_plain `{UuidLaws} u : plain_name (uuid_str u) = true.
Proof.
  pose proof (valid_str u) as Hv. unfold valid in Hv.
  destruct (Nat.eqb_spec (String.length (uuid_str u)) 36) as [E|]; [|done]. cbn [negb] in Hv.
  unfold plain_name. rewrite (valid_no_slash _ _ Hv).
  rewrite !bool_decide_eq_false_2; [done|..].
  all: intros E'; by rewrite E' in E.
Qed.

(** [UUID::valid] accepts exactly the strings of 36 characters that have a dash at
    positions 8, 13, 18 and 23 and a lowercase hexadecimal digit at every other position. *)
Theorem valid_spec s :
  valid s = true ↔
  String.length s = 36 ∧ ∀ k c, String.get k s = Some c → uuid_position_ok k c.
Proof.
  unfold valid. destruct (Nat.eqb_spec (String.length s) 36) as [E|E]; cbn [negb].
  - rewrite (valid_loop_spec 0). cbn [Nat.add]. tauto.
  - split; [done|]. by intros [? _].
Qed.

(** Parsing the printed form of a UUID with [from_str] succeeds and gives back
    that UUID. *)
Theorem from_str_str `{UuidLaws} u : from_str (uuid_str u) = Some u.
Proof. unfold from_str. by rewrite valid_str, from_str_factory_str. Qed.

Lemma u64_shift_one x : u64 (Z.shiftl x 1) = (2 * (x mod 2 ^ 63))%Z.
Proof.
  unfold u64. rewrite Z.shiftl_mul_pow2 by lia. replace (2 ^ 64)%Z with (2 * 2 ^ 63)%Z by done.
  rewrite (Z.mul_comm x), Z.mul_mod_distr_l by lia. done.
Qed.
Lemma lxor_cancel a b c : Z.lxor a b = Z.lxor a c ↔ b = c.
Proof.
  split; [|by intros ->]. intros E%(f_equal (Z.lxor a)). by rewrite <-!Z.lxor_assoc, Z.lxor_nilpotent, !Z.lxor_0_l in E.
Qed.

(** The shift drops the top bit of the hash of the high word: of UUIDs with the same low word those
    collide that agree on the other 63 bits of it, and no others. *)
Theorem uuid_hash_collides std_hash u v :
  low u = low v →
  uuid_hash std_hash u = uuid_hash std_hash v ↔
  (std_hash (high u) mod 2 ^ 63 = std_hash (high v) mod 2 ^ 63)%Z.
Proof. intros E. unfold uuid_hash. rewrite E, lxor_cancel, !u64_shift_one. lia. Qed.

(** ** A concrete library, for witnesses: 32 hexadecimal digits in memory order. *)
Module HexUuid.
Definition hex_digit (n : N) : ascii :=
  match String.get (N.to_nat n) hexchars with Some c => c | None => "0"%char end.

Definition hex_byte (b : byte) : string :=
  String (hex_digit (Byte.to_N b / 16)) (String (hex_digit (Byte.to_N b mod 16)) "").

Fixpoint hex_bytes (bs : list byte) : string :=
  match bs with [] => "" | b :: rest => hex_byte b +:+ hex_bytes rest end.

Definition str (u : UUID) : string :=
  let a := le_bytes 8 (low u) in
  let b := le_bytes 8 (high u) in
  hex_bytes (take 4 a) +:+ "-" +:+ hex_bytes (take 2 (drop 4 a)) +:+ "-" +:+
  hex_bytes (drop 6 a) +:+ "-" +:+ hex_bytes (take 2 b) +:+ "-" +:+ hex_bytes (drop 2 b).

Definition unhex_digit (c : ascii) : N :=
  let n := N_of_ascii c in if (n <? 58)%N then (n - 48)%N else (n - 87)%N.

Fixpoint unhex (s : string) : list byte :=
  match s with
  | String "-" rest => unhex rest
  | String c (String d rest) =>
      byte_of_Z (Z.of_N (16 * unhex_digit c + unhex_digit d)) :: unhex rest
  | _ => []
  end.

Definition of_str (s : string) : UUID :=
  mkUUID (W64 (le_val (take 8 (unhex s)))) (W64 (le_val (drop 8 (unhex s)))).

Definition lt (u v : UUID) : Prop :=
  (low u < low v ∨ low u = low v ∧ high u < high v)%Z.

#[export] Instance lt_dec : RelDecision lt.
Proof. unfold lt. intros u v. apply _. Defined.

#[export] Instance ops : UuidOps := {
  uuid_ctor h l := mkUUID (W64 l) (W64 h);
  uuid_str := str;
  uuid_from_str_factory := of_str;
  uuid_lt := lt;
}.

Lemma unhex_hex_byte b s : unhex (hex_byte b +:+ s) = b :: unhex s.
Proof. destruct b; reflexivity. Qed.

Lemma unhex_hex_bytes bs s : unhex (hex_bytes bs +:+ s) = bs ++ unhex s.
Proof.
  induction bs as [|b bs IH]; [done|]. cbn [hex_bytes].
  rewrite str_app_assoc, unhex_hex_byte, IH. done.
Qed.

Lemma unhex_dash s : unhex ("-" +:+ s) = unhex s.
Proof. done. Qed.

Lemma unhex_str u : unhex (str u) = le_bytes 8 (low u) ++ le_bytes 8 (high u).
Proof.
  unfold str. cbv zeta. rewrite unhex_hex_bytes, unhex_dash, unhex_hex_bytes, unhex_dash,
    unhex_hex_bytes, unhex_dash, unhex_hex_bytes, unhex_dash.
  rewrite <-(str_app_nil_r (hex_bytes (drop 2 _))), unhex_hex_bytes.
  cbn [unhex]. by rewrite app_nil_r.
Qed.

Lemma le_val_le_bytes_w64 w : le_val (le_bytes 8 (w64_val w)) = w64_val w.
Proof. rewrite le_val_le_bytes. apply Z.mod_small, w64_range. Qed.

Lemma of_str_str u : of_str (str u) = u.
Proof.
  unfold of_str. rewrite unhex_str.
  assert (Hl : length (le_bytes 8 (low u)) = 8%nat) by apply length_le_bytes.
  rewrite take_app_length', drop_app_length' by done.
  unfold low, high. rewrite !le_val_le_bytes_w64, !W64_val. by destruct u.
Qed.

Lemma valid_loop_hex i b s :
  (i ∉ [7; 8; 12; 13; 17; 18; 22; 23])%nat →
  valid_loop i (hex_byte b +:+ s) = valid_loop (S (S i)) s.
Proof.
  intros Hi. rewrite !not_elem_of_cons in Hi. destruct Hi as (?&?&?&?&?&?&?&?&_).
  assert (∀ j, j = i ∨ j = S i →
    (j =? 8)%nat || (j =? 13)%nat || (j =? 18)%nat || (j =? 23)%nat = false) as Hj.
  { intros j Hj. rewrite !orb_false_iff, !Nat.eqb_neq. lia. }
  assert (Hd : ∀ n, (n < 16)%N → str_mem (hex_digit n) hexchars = true).
  { intros n Hn.
    assert (n ∈ [0;1;2;3;4;5;6;7;8;9;10;11;12;13;14;15]%N) as Hin
      by (rewrite !elem_of_cons; lia).
    repeat (apply elem_of_cons in Hin as [->|Hin]; [done|]). by apply elem_of_nil in Hin. }
  pose proof (Byte.to_N_bounded b).
  change (valid_loop i (String (hex_digit (Byte.to_N b / 16))
    (String (hex_digit (Byte.to_N b mod 16)) s)) = valid_loop (S (S i)) s).
  cbn [valid_loop]. rewrite (Hj i), (Hj (S i)) by auto.
  rewrite !Hd; [done| |].
  - apply N.mod_lt. lia.
  - apply N.Div0.div_lt_upper_bound. lia.
Qed.

Lemma valid_loop_dash i s :
  (i ∈ [8; 13; 18; 23])%nat → valid_loop i ("-" +:+ s) = valid_loop (S i) s.
Proof.
  rewrite !elem_of_cons, elem_of_nil. intros Hi.
  change (valid_loop i (String "-" s) = valid_loop (S i) s). cbn [valid_loop].
  assert ((i =? 8)%nat || (i =? 13)%nat || (i =? 18)%nat || (i =? 23)%nat = true) as ->; [|done].
  rewrite !orb_true_iff, !Nat.eqb_eq. tauto.
Qed.

Lemma length_hex_byte b s : String.length (hex_byte b +:+ s) = S (S (String.length s)).
Proof. done. Qed.

Lemma length_dash s : String.length ("-" +:+ s) = S (String.length s).
Proof. done. Qed.

Lemma valid_str_hex u : valid (str u) = true.
Proof.
  unfold valid, str. cbn [le_bytes take drop]. cbv zeta.
  cbn [hex_bytes]. rewrite !str_app_assoc, !str_app_nil_l.
  assert (Hlen : ∀ s, String.length s = 36%nat →
    (if negb (String.length s =? 36)%nat then false else valid_loop 0 s) = valid_loop 0 s).
  { intros s ->. done. }
  rewrite Hlen by (repeat first [rewrite length_hex_byte | rewrite length_dash]; done).
  repeat first
    [ rewrite valid_loop_dash by (rewrite !elem_of_cons; tauto)
    | rewrite valid_loop_hex by
        (rewrite !not_elem_of_cons; repeat split; try lia; apply not_elem_of_nil) ].
  done.
Qed.

#[export] Instance laws : @UuidLaws ops.
Proof.
  split.
  - intros h l Hh. by apply w64_val_W64.
  - intros h l Hl. by apply w64_val_W64.
  - apply of_str_str.
  - apply valid_str_hex.
  - split; [intros u|intros u v w]; cbv [complement uuid_lt ops lt]; lia.
  - intros u v. unfold uuid_lt; simpl; unfold lt.
    destruct (decide (u = v)) as [->|E]; [by right; left|].
    destruct (decide (low u = low v)) as [El|]; [|lia].
    destruct (decide (high u = high v)) as [Eh|]; [|lia].
    destruct E. by apply UUID_eq.
Qed.
End HexUuid.

(** Where words are their own hashes, two UUIDs that differ in the top bit. *)
Example hash_top_bit :
  uuid_hash id (mkUUID (W64 5) (W64 3)) = uuid_hash id (mkUUID (W64 5) (W64 (2 ^ 63 + 3))).
Proof. apply uuid_hash_collides; by vm_compute. Qed.

(** [from_str_str] with the hexadecimal library, on the UUID with high word 7 and low word 300. *)
Lemma from_str_str_witness :
  @from_str HexUuid.ops "2c010000-0000-0000-0700-000000000000" =
  Some (mkUUID (W64 300) (W64 7)).
Proof.
  exact (@from_str_str HexUuid.ops HexUuid.laws (mkUUID (W64 300) (W64 7))).
Defined.
