(* ===== verification/ScopeExit.v ===== *)
(** * Scope guards ([include/pain/base/scope_exit.h])

    A [ScopeExit] holds a function and a flag; its destructor runs the function when the flag is
    set. Guards are named variables here, each with the number of the function it was made with; a
    program makes guards, moves them, releases them and lets them go out of scope. The function of
    a guard runs exactly once, or never if the guard was released, as long as no released guard
    is moved: the move constructor sets the flag of the new guard without looking at the old one. *)
From S2P Require Import Prelude.
Set Default Goal Selector "!".

Module ScopeExit.

(** The guards in scope, the functions that ran, in order, and the number of the next function. *)
Record Guard := mkGuard { func : nat; run : bool }.
#[export] Instance Guard_eq_dec : EqDecision Guard.
Proof. solve_decision. Defined.
Record State := mkState { guards : gmap nat Guard; ran : list nat; released : list nat; fresh : nat }.
Definition start : State := mkState ∅ [] [] 0.

Definition guard (g : nat) : Prog State Guard :=
  s ← get; match guards s !! g with Some x => mret x | None => abort end.
Definition set_guard (g : nat) (x : Guard) (s : State) : State :=
  mkState (<[g := x]> (guards s)) (ran s) (released s) (fresh s).

(** [ScopeExit(F&&)], [make_scope_exit], [SCOPE_EXIT]: a guard with a new function. *)
Definition make (g : nat) : Prog State unit :=
  modify (λ s, mkState (<[g := mkGuard (fresh s) true]> (guards s)) (ran s) (released s) (S (fresh s))).
(** [ScopeExit(ScopeExit&&)]. *)
Definition move (g' g : nat) : Prog State unit :=
  rhs ← guard g;
  modify (set_guard g (mkGuard (func rhs) false));;
  modify (set_guard g' (mkGuard (func rhs) true)).
(** [release]; what was released is noted for the statements. *)
Definition release (g : nat) : Prog State unit :=
  x ← guard g;
  modify (set_guard g (mkGuard (func x) false));;
  if run x then modify (λ s, mkState (guards s) (ran s) (func x :: released s) (fresh s)) else mret tt.
(** [~ScopeExit]. *)
Definition dtor (g : nat) : Prog State unit :=
  x ← guard g;
  modify (λ s, mkState (delete g (guards s)) (ran s) (released s) (fresh s));;
  if run x then modify (λ s, mkState (guards s) (ran s ++ [func x]) (released s) (fresh s)) else mret tt.

Inductive GuardOp := Make (g : nat) | Move (g' g : nat) | Release (g : nat) | Drop (g : nat).
Definition exec (op : GuardOp) : Prog State unit :=
  match op with Make g => make g | Move g' g => move g' g | Release g => release g | Drop g => dtor g end.

(** Guards are used in their scope and new names are new. *)
Definition scoped (op : GuardOp) (s : State) : Prop :=
  match op with
  | Make g => guards s !! g = None
  | Move g' g => guards s !! g' = None ∧ is_Some (guards s !! g)
  | Release g | Drop g => is_Some (guards s !! g)
  end.
(** No guard is moved from once its flag is cleared. *)
Definition from_armed (op : GuardOp) (s : State) : Prop :=
  match op with Move _ g => ∀ x, guards s !! g = Some x → run x = true | _ => True end.

Definition step (s s' : State) : Prop := ∃ op, scoped op s ∧ exec op s = Some (tt, s').
Definition careful_step (s s' : State) : Prop := ∃ op, scoped op s ∧ from_armed op s ∧ exec op s = Some (tt, s').

(** ** The invariant: every function is at one place *)
Definition armed (f : nat) (x : Guard) : nat := if decide (x = mkGuard f true) then 1 else 0.
Definition times (f : nat) (l : list nat) : nat := length (filter (f =.) l).
Definition places (f : nat) (s : State) : nat :=
  sum_map (armed f) (guards s) + times f (ran s) + times f (released s).
Definition inv (s : State) : Prop :=
  (∀ f, places f s = if decide (f < fresh s) then 1 else 0) ∧
  (∀ g x, guards s !! g = Some x → func x < fresh s).

Lemma guard_eq g x s : guards s !! g = Some x → guard g s = Some (x, s).
Proof. intros E. unfold guard. erewrite bind_step by done. by rewrite E. Qed.

Lemma times_cons f x l : times f (x :: l) = (if decide (f = x) then 1 else 0) + times f l.
Proof. unfold times. rewrite filter_cons. by case_decide. Qed.
Lemma times_snoc f l x : times f (l ++ [x]) = times f l + if decide (f = x) then 1 else 0.
Proof. unfold times. rewrite filter_app, length_app, filter_cons, filter_nil. by case_decide. Qed.
Lemma armed_cleared f x : armed f (mkGuard x false) = 0.
Proof. unfold armed. by rewrite decide_False. Qed.
Lemma armed_set f x : armed f (mkGuard x true) = if decide (f = x) then 1 else 0.
Proof. unfold armed. apply decide_ext. split; congruence. Qed.

Lemma inv_start : inv start.
Proof. split; [intros f; unfold places, times; cbn; by rewrite sum_map_empty|]. intros g x. cbn. by rewrite lookup_empty. Qed.

Lemma make_wp g s : inv s → guards s !! g = None → wp (make g) s (λ _ s', inv s').
Proof.
  intros [Hp Hf] Hg. eapply wp_eval; [done|]. split.
  - intros f. specialize (Hp f). unfold places in *. cbn [guards ran released fresh]. rewrite sum_map_insert, armed_set by done.
    repeat case_decide; lia.
  - intros g' x. cbn. rewrite lookup_insert_Some. intros [[<- <-]|[_ Hx]]; [cbn; lia|]. specialize (Hf _ _ Hx). lia.
Qed.

Lemma move_wp g' g x s :
  inv s → guards s !! g' = None → guards s !! g = Some x → run x = true → wp (move g' g) s (λ _ s', inv s').
Proof.
  intros [Hp Hf] Hg' Hg Hx. destruct x as [n b]. cbn in Hx. subst b. unfold move. eapply wp_step; [by apply guard_eq|].
  eapply wp_step; [done|]. eapply wp_eval; [done|].
  assert (Hne : g' ≠ g) by congruence. split.
  - intros f. specialize (Hp f). unfold places, set_guard in *. cbn [guards ran released fresh func].
    rewrite sum_map_insert by (by rewrite lookup_insert_ne).
    pose proof (sum_map_update (armed f) (guards s) g _ (mkGuard n false) Hg) as E.
    rewrite armed_cleared in E. lia.
  - intros g1 y. cbn. rewrite !lookup_insert_Some. pose proof (Hf _ _ Hg).
    intros [[<- <-]|[_ [[<- <-]|[_ Hy]]]]; [done|done|by eapply Hf].
Qed.

Lemma release_guard g x s :
  inv s → guards s !! g = Some x → wp (release g) s (λ _ s', inv s').
Proof.
  intros [Hp Hf] Hg. unfold release. eapply wp_step; [by apply guard_eq|]. eapply wp_step; [done|].
  assert (Hf' : ∀ g1 y, <[g := mkGuard (func x) false]> (guards s) !! g1 = Some y → func y < fresh s).
  { intros g1 y. rewrite lookup_insert_Some. intros [[<- <-]|[_ Hy]]; [exact (Hf _ _ Hg)|by eapply Hf]. }
  destruct x as [n []]; (eapply wp_eval; [done|]); (split; [|exact Hf']); intros f; specialize (Hp f);
    pose proof (sum_map_update (armed f) (guards s) g _ (mkGuard n false) Hg) as E; rewrite armed_cleared in E;
    unfold places, set_guard in *; cbn [guards ran released fresh run func] in *.
  - rewrite times_cons. rewrite armed_set in E. lia.
  - lia.
Qed.

Lemma dtor_wp g x s :
  inv s → guards s !! g = Some x → wp (dtor g) s (λ _ s', inv s').
Proof.
  intros [Hp Hf] Hg. unfold dtor. eapply wp_step; [by apply guard_eq|]. eapply wp_step; [done|].
  assert (Hf' : ∀ g1 y, delete g (guards s) !! g1 = Some y → func y < fresh s).
  { intros g1 y [_ Hy]%lookup_delete_Some. by eapply Hf. }
  destruct x as [n []]; (eapply wp_eval; [done|]); (split; [|exact Hf']); intros f; specialize (Hp f);
    pose proof (sum_map_delete (armed f) (guards s) g _ Hg) as E; unfold places in *; cbn [guards ran released fresh run func] in *.
  - rewrite times_snoc. rewrite armed_set in E. lia.
  - rewrite armed_cleared in E. lia.
Qed.

Lemma exec_wp op s : inv s → scoped op s → from_armed op s → wp (exec op) s (λ _ s', inv s').
Proof.
  intros Hi Hs Ha. destruct op as [g|g' g|g|g]; cbn in *.
  - by apply make_wp.
  - destruct Hs as [Hg' [x Hg]]. eapply move_wp; [done|done|exact Hg|by apply Ha].
  - destruct Hs as [x Hg]. by eapply release_guard.
  - destruct Hs as [x Hg]. by eapply dtor_wp.
Qed.
Lemma careful_inv s : rtc careful_step start s → inv s.
Proof.
  intros Hr. eapply (rtc_preserves careful_step inv); [|exact Hr|apply inv_start].
  intros s1 s2 (op&Hs&Ha&E) Hi. pose proof (exec_wp op s1 Hi Hs Ha) as Hw. unfold wp in Hw. by rewrite E in Hw.
Qed.

Lemma times_pos f l : 0 < times f l ↔ f ∈ l.
Proof.
  unfold times. split.
  - destruct (filter (f =.) l) as [|x k] eqn:E; [cbn; lia|]. intros _.
    assert (Hx : x ∈ filter (f =.) l) by (rewrite E; left). by apply list_elem_of_filter in Hx as [-> ?].
  - intros Hf. destruct (filter (f =.) l) as [|x k] eqn:E; [|cbn; lia].
    assert (Hx : f ∈ filter (f =.) l) by (by apply list_elem_of_filter). rewrite E in Hx. by apply elem_of_nil in Hx.
Qed.

(** In a program that uses its guards in their scopes and moves only from guards whose flag is
    set, no operation fails, a function runs at most once and not at all once it was released,
    and when no guard is left each function that was not released has run exactly once. *)
Theorem guards_run_once s :
  rtc careful_step start s →
  (∀ op, scoped op s → from_armed op s → is_Some (exec op s)) ∧
  (∀ f, times f (ran s) <= 1 ∧ (f ∈ released s → f ∉ ran s)) ∧
  (guards s = ∅ → ∀ f, f < fresh s → times f (ran s) = if decide (f ∈ released s) then 0 else 1).
Proof.
  intros Hr. pose proof (careful_inv s Hr) as Hi. split_and!.
  - intros op Hs Ha. pose proof (exec_wp op s Hi Hs Ha) as Hw. apply wp_exists in Hw as (?&?&->&_). by eexists.
  - intros f. destruct Hi as [Hp _]. specialize (Hp f). unfold places in Hp.
    rewrite <- !times_pos. case_decide; lia.
  - intros Hg f Hf. destruct Hi as [Hp _]. specialize (Hp f). unfold places in Hp.
    rewrite Hg, sum_map_empty, decide_True in Hp by done.
    case_decide as Hl; rewrite <- times_pos in Hl; lia.
Qed.

(** A guard that was released runs its function after all when it is moved. *)
Theorem release_undone_by_move :
  ∃ s, rtc step start s ∧ guards s = ∅ ∧ 0 ∈ released s ∧ ran s = [0].
Proof.
  eexists. split; [|split_and!].
  - eapply rtc_l; [exists (Make 0); split; [by vm_compute|reflexivity]|].
    eapply rtc_l; [exists (Release 0); split; [by eexists|reflexivity]|].
    eapply rtc_l; [exists (Move 1 0); split; [split; [by vm_compute|by eexists]|reflexivity]|].
    eapply rtc_l; [exists (Drop 1); split; [by eexists|reflexivity]|].
    eapply rtc_l; [exists (Drop 0); split; [by eexists|reflexivity]|]. apply rtc_refl.
  - vm_compute. reflexivity.
  - left.
  - reflexivity.
Qed.

(** Two guards, one of which is moved and the other released. *)
Module Witness.
Lemma guards_run_once_witness :
  ∃ s, rtc careful_step start s ∧ ran s = [0] ∧ times 0 (ran s) <= 1 ∧ times 1 (ran s) <= 1.
Proof.
  assert (∃ s, rtc careful_step start s ∧ ran s = [0]) as (s&Hr&E).
  { eexists. split.
    - eapply rtc_l; [exists (Make 0); split_and!; [by vm_compute|done|reflexivity]|].
      eapply rtc_l; [exists (Make 1); split_and!; [by vm_compute|done|reflexivity]|].
      eapply rtc_l; [exists (Move 2 0); split_and!; [split; [by vm_compute|by eexists]|by intros x [= <-]|reflexivity]|].
      eapply rtc_l; [exists (Release 1); split_and!; [by eexists|done|reflexivity]|].
      eapply rtc_l; [exists (Drop 2); split_and!; [by eexists|done|reflexivity]|].
      eapply rtc_l; [exists (Drop 1); split_and!; [by eexists|done|reflexivity]|]. apply rtc_refl.
    - reflexivity. }
  exists s. destruct (guards_run_once s Hr) as (_&Ht&_). split_and!; [exact Hr|exact E|apply Ht|apply Ht].
Defined.
End Witness.
End ScopeExit.
