(* ===== verification/RefCount.v ===== *)
(** * Intrusive reference counts

    The classes [Store], [FileHandle], [Chunk], [AppendRequest] of [src/manusya/] and
    [Container], [Rsm], [Op] of [src/deva/], [Store] of [src/common/] carry their own counter, which
    [boost::intrusive_ptr] drives through the overloads of [intrusive_ptr_add_ref] and
    [intrusive_ptr_release]; four of the counters that matter between threads are
    [std::atomic<int>], two are a plain [int]. The model has a heap of such objects with their
    pointer members, the pointer variables in scope, and the operations of the smart pointer.
    Releasing the last reference deletes the object, which releases its members. The second
    part looks at counters that several threads decrement without a lock. *)
From S2P Require Import Prelude.
Set Default Goal Selector "!".
Local Open Scope Z_scope.

Module RefCount.

(** ** Counters *)
Definition int_max : Z := 2 ^ 31 - 1.

(** [std::atomic<int>] wraps around; overflow of an [int] is undefined. *)
Definition i32 (z : Z) : Z := (z + 2 ^ 31) mod 2 ^ 32 - 2 ^ 31.
Definition fetch_add (n : Z) : Prog Z Z := c ← get; put (i32 (c + n));; mret c.
Definition fetch_sub (n : Z) : Prog Z Z := c ← get; put (i32 (c - n));; mret c.
Definition pre_increment : Prog Z Z :=
  c ← get; if c <? int_max then put (c + 1);; mret (c + 1) else abort.
Definition pre_decrement : Prog Z Z :=
  c ← get; if - 2 ^ 31 <? c then put (c - 1);; mret (c - 1) else abort.

(** The overloads; a release says whether the object is to be deleted. *)
Definition store_add_ref : Prog Z unit := _ ← fetch_add 1; mret tt.
Definition store_release : Prog Z bool := old ← fetch_sub 1; mret (old =? 1).
Definition file_handle_add_ref : Prog Z unit := _ ← pre_increment; mret tt.
Definition file_handle_release : Prog Z bool := c ← pre_decrement; mret (c =? 0).
Definition chunk_add_ref : Prog Z unit := _ ← fetch_add 1; mret tt.
Definition chunk_release : Prog Z bool := old ← fetch_sub 1; mret (old =? 1).
Definition request_add_ref : Prog Z unit := _ ← pre_increment; mret tt.
Definition request_release : Prog Z bool := c ← pre_decrement; mret (c =? 0).
Definition container_add_ref : Prog Z unit := _ ← fetch_add 1; mret tt.
Definition container_release : Prog Z bool := old ← fetch_sub 1; mret (old =? 1).
Definition rsm_add_ref : Prog Z unit := _ ← fetch_add 1; mret tt.
Definition rsm_release : Prog Z bool := old ← fetch_sub 1; mret (old =? 1).
Definition op_add_ref : Prog Z unit := _ ← fetch_add 1; mret tt.
Definition op_release : Prog Z bool := old ← fetch_sub 1; mret (old =? 1).

(** [common::Store]; its counter has no initializer, and the default constructor of an atomic makes
    it zero. *)
Definition kv_store_add_ref : Prog Z unit := _ ← fetch_add 1; mret tt.
Definition kv_store_release : Prog Z bool := old ← fetch_sub 1; mret (old =? 1).

Inductive Kind := KStore | KFileHandle | KChunk | KAppendRequest | KContainer | KRsm | KOp | KKvStore.
#[export] Instance Kind_eq_dec : EqDecision Kind.
Proof. solve_decision. Defined.

Definition intrusive_ptr_add_ref (k : Kind) : Prog Z unit :=
  match k with
  | KStore => store_add_ref | KFileHandle => file_handle_add_ref | KChunk => chunk_add_ref
  | KAppendRequest => request_add_ref | KContainer => container_add_ref | KRsm => rsm_add_ref
  | KOp => op_add_ref | KKvStore => kv_store_add_ref
  end.
Definition intrusive_ptr_release (k : Kind) : Prog Z bool :=
  match k with
  | KStore => store_release | KFileHandle => file_handle_release | KChunk => chunk_release
  | KAppendRequest => request_release | KContainer => container_release | KRsm => rsm_release
  | KOp => op_release | KKvStore => kv_store_release
  end.

(** The pointer members of each class, in declaration order: [FileHandle::_store],
    [Chunk::_fh] and [_store], [AppendRequest::chunk], [Rsm::_container], [ContainerOp::_rsm]. *)
Definition members (k : Kind) : list Kind :=
  match k with
  | KStore | KContainer | KKvStore => []
  | KFileHandle => [KStore]
  | KChunk => [KFileHandle; KStore]
  | KAppendRequest => [KChunk]
  | KRsm => [KContainer]
  | KOp => [KRsm]
  end.

(** Members point to classes of smaller rank. *)
Definition rank (k : Kind) : nat :=
  match k with
  | KStore | KContainer | KKvStore => 0
  | KFileHandle | KRsm => 1
  | KChunk | KOp => 2
  | KAppendRequest => 3
  end.

(** ** The heap, and the pointer variables [V] of a program, [ty] their classes *)
Record Object := mkObject { kind : Kind; count : Z; fields : list (option positive) }.

Section heap.
Context `{Countable V} (ty : V → Kind).

Record Heap := mkHeap {
  objects : gmap positive Object;
  next : positive;
  vars : gmap V (option positive);      (* in scope; [None] is a null pointer *)
}.
Implicit Types (h : Heap) (x y : V) (p : positive).

Definition empty_heap : Heap := mkHeap ∅ 1 ∅.
Definition set_objects f h : Heap := mkHeap (f (objects h)) (next h) (vars h).
Definition set_vars f h : Heap := mkHeap (objects h) (next h) (f (vars h)).

(** An access to an object: memory that was freed does not answer. *)
Definition deref p : Prog Heap Object :=
  h ← get; match objects h !! p with Some o => mret o | None => abort end.

Definition set_count (n : Z) (o : Object) : Object := mkObject (kind o) n (fields o).
Definition set_fields (fs : list (option positive)) (o : Object) : Object := mkObject (kind o) (count o) fs.

Definition on_count {A} p (f : Prog Z A) : Prog Heap A :=
  o ← deref p;
  match f (count o) with
  | Some (a, n) => modify (set_objects (<[p := set_count n o]>));; mret a
  | None => abort
  end.

Definition add_ref p : Prog Heap unit := o ← deref p; on_count p (intrusive_ptr_add_ref (kind o)).

(** [intrusive_ptr_release]: the last reference deletes the object, whose destructor releases
    its members in reverse order. From then on the object is gone. The rank of its class bounds
    the depth. *)
Fixpoint release_all (release : positive → Prog Heap unit) (l : list (option positive)) : Prog Heap unit :=
  match l with
  | [] => mret tt
  | None :: l => release_all release l
  | Some q :: l => release q;; release_all release l
  end.
Fixpoint release (fuel : nat) p : Prog Heap unit :=
  match fuel with
  | O => abort
  | S fuel =>
      o ← deref p;
      dead ← on_count p (intrusive_ptr_release (kind o));
      if (dead : bool)
      then modify (set_objects (delete p));; release_all (release fuel) (reverse (fields o))
      else mret tt
  end.
Definition release_opt (r : option positive) : Prog Heap unit :=
  match r with
  | None => mret tt
  | Some p => o ← deref p; release (S (rank (kind o))) p
  end.
Definition add_ref_opt (r : option positive) : Prog Heap unit :=
  match r with None => mret tt | Some p => add_ref p end.

Definition read_var x : Prog Heap (option positive) :=
  h ← get; match vars h !! x with Some r => mret r | None => abort end.
Definition write_var x (r : option positive) : Prog Heap unit := modify (set_vars <[x := r]>).

Definition new_object (k : Kind) : Prog Heap positive :=
  h ← get;
  put (mkHeap (<[next h := mkObject k 0 (replicate (length (members k)) None)]> (objects h))
         (Pos.succ (next h)) (vars h));;
  mret (next h).

(** *** What a program does with its pointers *)
Inductive PtrOp :=
| ONull (x : V)                    (* X p;              *)
| ONew (x : V)                     (* X p(new T());     *)
| OCopy (x y : V)                  (* X p(q);           *)
| OAssign (x y : V)                (* p = q;            *)
| OMove (x y : V)                  (* X p(std::move(q)); *)
| ODrop (x : V)                    (* p goes out of scope *)
| OSet (x : V) (i : nat) (y : V)   (* p->member = q;    *)
| OGet (x y : V) (i : nat).        (* X p(q->member);   *)

Definition field (i : nat) (o : Object) : option positive := default None (fields o !! i).

Definition exec (o : PtrOp) : Prog Heap unit :=
  match o with
  | ONull x => write_var x None
  | ONew x => p ← new_object (ty x); add_ref p;; write_var x (Some p)
  | OCopy x y => r ← read_var y; add_ref_opt r;; write_var x r
  | OAssign x y =>
      r ← read_var y; add_ref_opt r;;
      old ← read_var x; write_var x r;; release_opt old
  | OMove x y => r ← read_var y; write_var y None;; write_var x r
  | ODrop x => r ← read_var x; modify (set_vars (delete x));; release_opt r
  | OSet x i y =>
      r ← read_var x;
      match r with
      | None => abort
      | Some p =>
          q ← read_var y; add_ref_opt q;;
          o ← deref p;
          modify (set_objects (<[p := set_fields (<[i := q]> (fields o)) o]>));;
          release_opt (field i o)
      end
  | OGet x y i =>
      r ← read_var y;
      match r with
      | None => abort
      | Some p => o ← deref p; add_ref_opt (field i o);; write_var x (field i o)
      end
  end.

(** What the compiler checks of scopes and types, and that no null pointer is dereferenced. *)
Definition new_in x h : Prop := vars h !! x = None.
Definition typed (o : PtrOp) h : Prop :=
  match o with
  | ONull x | ONew x => new_in x h
  | OCopy x y | OMove x y => new_in x h ∧ is_Some (vars h !! y) ∧ ty x = ty y
  | OAssign x y => is_Some (vars h !! x) ∧ is_Some (vars h !! y) ∧ ty x = ty y
  | ODrop x => is_Some (vars h !! x)
  | OSet x i y =>
      (∃ p, vars h !! x = Some (Some p)) ∧ is_Some (vars h !! y) ∧ members (ty x) !! i = Some (ty y)
  | OGet x y i =>
      new_in x h ∧ (∃ p, vars h !! y = Some (Some p)) ∧ members (ty y) !! i = Some (ty x)
  end.

(** *** The invariant: a counter is the number of references to its object *)
Definition occ p (l : list (option positive)) : nat := length (filter (Some p =.) l).
Definition points p (r : option positive) : nat := if decide (r = Some p) then 1 else 0.
Definition refs h p : nat :=
  (sum_map (points p) (vars h) + sum_map (λ o, occ p (fields o)) (objects h))%nat.

(** [r] may be stored in a pointer to class [k]. *)
Definition fits h (k : Kind) (r : option positive) : Prop :=
  ∀ p, r = Some p → ∃ o, objects h !! p = Some o ∧ kind o = k.

(** [pend]: references that are being released. *)
Record wf_pend (pend : list (option positive)) h : Prop := {
  wf_count p o : objects h !! p = Some o →
    count o = Z.of_nat (refs h p + occ p pend) ∧ 0 < count o;
  wf_vars x r : vars h !! x = Some r → fits h (ty x) r;
  wf_fields p o : objects h !! p = Some o → Forall2 (fits h) (members (kind o)) (fields o);
  wf_pending r : r ∈ pend → ∀ p, r = Some p → is_Some (objects h !! p);
  wf_next p : (next h <= p)%positive → objects h !! p = None;
}.
Definition wf h : Prop := wf_pend [] h.

(** No counter above [n]. *)
Definition below (n : Z) h : Prop := ∀ p o, objects h !! p = Some o → count o <= n.
End heap.
Arguments Heap : clear implicits.
Arguments Heap V {_ _}.

(** ** Lemmas *)
Lemma i32_small z : - 2 ^ 31 <= z < 2 ^ 31 → i32 z = z.
Proof. intros Hz. unfold i32. rewrite Z.mod_small; lia. Qed.

Lemma pre_increment_eq c : c < int_max → pre_increment c = Some (c + 1, c + 1).
Proof. intros Hc. unfold pre_increment. erewrite bind_step by done. by rewrite (proj2 (Z.ltb_lt _ _) Hc). Qed.
Lemma pre_decrement_eq c : 0 < c → pre_decrement c = Some (c - 1, c - 1).
Proof.
  intros Hc. unfold pre_decrement. erewrite bind_step by done. by rewrite (proj2 (Z.ltb_lt _ _)) by lia.
Qed.
Lemma fetch_add_eq c : 0 <= c < int_max → fetch_add 1 c = Some (c, c + 1).
Proof. unfold int_max. intros Hc. unfold fetch_add. erewrite bind_step by done. cbn. by rewrite i32_small by lia. Qed.
Lemma fetch_sub_eq c : 0 < c <= int_max → fetch_sub 1 c = Some (c, c - 1).
Proof. unfold int_max. intros Hc. unfold fetch_sub. erewrite bind_step by done. cbn. by rewrite i32_small by lia. Qed.

Lemma add_ref_counts k c : 0 <= c < int_max → intrusive_ptr_add_ref k c = Some (tt, c + 1).
Proof.
  intros Hc. destruct k;
    first [exact (bind_step _ _ _ _ _ (fetch_add_eq c Hc))
          |exact (bind_step _ _ _ _ _ (pre_increment_eq c (proj2 Hc)))].
Qed.

Lemma release_counts k c : 0 < c <= int_max → intrusive_ptr_release k c = Some (c =? 1, c - 1).
Proof.
  intros Hc. assert (Hz : (c - 1 =? 0) = (c =? 1)) by (destruct (Z.eqb_spec (c - 1) 0), (Z.eqb_spec c 1); lia).
  destruct k;
    first [exact (bind_step _ _ _ _ _ (fetch_sub_eq c Hc))
          |rewrite <- Hz; exact (bind_step _ _ _ _ _ (pre_decrement_eq c (proj1 Hc)))].
Qed.

Section heap_lemmas.
Context `{Countable V} (ty : V → Kind).
Implicit Types (h : Heap V) (x y : V) (p q : positive) (pend l : list (option positive)).

Lemma occ_app p l l' : occ p (l ++ l') = (occ p l + occ p l')%nat.
Proof. unfold occ. by rewrite filter_app, length_app. Qed.
Lemma occ_cons p r l : occ p (r :: l) = (points p r + occ p l)%nat.
Proof.
  unfold occ, points. rewrite filter_cons. by repeat case_decide; try congruence.
Qed.
Lemma occ_reverse p l : occ p (reverse l) = occ p l.
Proof. unfold occ. apply Permutation_length. by rewrite reverse_Permutation. Qed.
Lemma occ_insert p l i old r :
  l !! i = Some old → (points p old + occ p (<[i := r]> l) = points p r + occ p l)%nat.
Proof.
  intros Hi. rewrite <- (take_drop_middle l i old Hi) at 2. rewrite insert_take_drop by by eapply lookup_lt_Some.
  rewrite !occ_app, !occ_cons. lia.
Qed.
Lemma points_ne p q : p ≠ q → points p (Some q) = 0%nat.
Proof. intros. unfold points. by rewrite decide_False by congruence. Qed.
Lemma points_eq p : points p (Some p) = 1%nat.
Proof. unfold points. by rewrite decide_True. Qed.
Lemma occ_pos p l : Some p ∈ l → (0 < occ p l)%nat.
Proof. intros (l1&l2&->)%list_elem_of_split. rewrite occ_app, occ_cons, points_eq. lia. Qed.

(** Objects keep their identity: [h'] has at most the objects of [h], no counter grew. *)
Record shrinks h h' : Prop := {
  sh_objects p o' : objects h' !! p = Some o' →
    ∃ o, objects h !! p = Some o ∧ kind o = kind o' ∧ fields o = fields o' ∧ count o' <= count o;
  sh_vars : vars h' = vars h;
  sh_next : next h' = next h;
}.
Lemma shrinks_refl h : shrinks h h.
Proof. split; [|done..]. intros p o' Hp. exists o'. split_and!; auto; lia. Qed.
Lemma shrinks_trans h1 h2 h3 : shrinks h1 h2 → shrinks h2 h3 → shrinks h1 h3.
Proof.
  intros [O1 V1 N1] [O2 V2 N2]. split; [|congruence..]. intros p o3 Hp.
  destruct (O2 p o3 Hp) as (o2&Hp2&?&?&?). destruct (O1 p o2 Hp2) as (o1&?&?&?&?).
  exists o1. split_and!; [done|congruence|congruence|lia].
Qed.
Lemma shrinks_below n h h' : shrinks h h' → below n h → below n h'.
Proof. intros [HO _ _] Hb p o' Hp. destruct (HO p o' Hp) as (o&Ho&_&_&?). specialize (Hb p o Ho). lia. Qed.
Lemma shrinks_fits k r h h' : shrinks h h' →
  (∀ p, r = Some p → is_Some (objects h' !! p)) → fits h k r → fits h' k r.
Proof.
  intros [HO _ _] Hlive Hf p ->. destruct (Hlive p) as [o' Ho']; [done|]. exists o'. split; [done|].
  destruct (HO p o' Ho') as (o&Ho&Hk&_). destruct (Hf p) as (o2&Ho2&?); [done|]. congruence.
Qed.

(** *** Effects of the single operations on the invariant *)
Lemma deref_eq p o h : objects h !! p = Some o → deref p h = Some (o, h).
Proof. intros E. unfold deref. erewrite bind_step by done. by rewrite E. Qed.

Lemma on_count_eq {A} p o h (f : Prog Z A) a n :
  objects h !! p = Some o → f (count o) = Some (a, n) →
  on_count p f h = Some (a, set_objects <[p := set_count n o]> h).
Proof.
  intros E Ef. unfold on_count. erewrite bind_step by by apply deref_eq. by rewrite Ef.
Qed.

(** Replacing an object by one with the same members leaves the references alone. *)
Lemma refs_set_count p o n q h :
  objects h !! p = Some o → refs (set_objects <[p := set_count n o]> h) q = refs h q.
Proof.
  intros Ho. unfold refs. cbn [set_objects objects vars].
  pose proof (sum_map_update (λ o, occ q (fields o)) (objects h) p o (set_count n o) Ho) as E.
  cbn [set_count fields] in E. lia.
Qed.

Lemma wf_set_count pend pend' p o n h :
  objects h !! p = Some o → wf_pend ty pend h →
  n = Z.of_nat (refs h p + occ p pend') → 0 < n →
  (∀ q, q ≠ p → occ q pend' = occ q pend) →
  (∀ q, Some q ∈ pend' → is_Some (objects h !! q)) →
  wf_pend ty pend' (set_objects <[p := set_count n o]> h).
Proof.
  intros Ho [C Vr F P N] Hn Hpos Hocc Hlive.
  assert (Hfits : ∀ k r, fits h k r → fits (set_objects <[p := set_count n o]> h) k r).
  { intros k r Hf q Hq. destruct (Hf q Hq) as (o2&Ho2&Hk). destruct (decide (p = q)) as [<-|].
    - exists (set_count n o). cbn. rewrite lookup_insert_eq. split; [done|]. congruence.
    - exists o2. cbn. by rewrite lookup_insert_ne by done. }
  split.
  - intros q o2. rewrite refs_set_count by done. cbn. destruct (decide (p = q)) as [<-|].
    + rewrite lookup_insert_eq. intros [= <-]. cbn. lia.
    + rewrite lookup_insert_ne by done. intros Hq. rewrite Hocc by done. by apply C.
  - intros x r Hx. apply Hfits. by apply Vr.
  - intros q o2. cbn. rewrite lookup_insert_Some. intros [[<- <-]|[_ Hq]]; cbn.
    + eapply Forall2_impl; [exact (F p o Ho)|]. auto.
    + eapply Forall2_impl; [exact (F q o2 Hq)|]. auto.
  - intros r Hr q ->. cbn. rewrite lookup_insert_is_Some. destruct (decide (p = q)); [by left|right].
    split; [done|]. by apply Hlive.
  - intros q Hq. cbn. rewrite lookup_insert_ne; [by apply N|]. intros ->. rewrite (N q Hq) in Ho. done.
Qed.

(** A reference that was taken is pending until it is stored. *)
Lemma add_ref_wf pend p o n h :
  wf_pend ty pend h → objects h !! p = Some o → below n h → n < int_max →
  wp (add_ref p) h (λ _ h', wf_pend ty (Some p :: pend) h' ∧ below (n + 1) h' ∧
    vars h' = vars h ∧ next h' = next h ∧
    ∀ q o', objects h !! q = Some o' → ∃ o2, objects h' !! q = Some o2 ∧ kind o2 = kind o' ∧ fields o2 = fields o').
Proof.
  intros Hwf Ho Hb Hn. pose proof (Hb p o Ho) as Hle. destruct (wf_count _ _ _ Hwf p o Ho) as [HC Hpos].
  unfold add_ref. eapply wp_step; [by apply deref_eq|]. eapply wp_eval.
  { eapply on_count_eq; [done|]. apply add_ref_counts. lia. }
  split_and!; [| |done|done|].
  - eapply wf_set_count; [done|done| |lia| |].
    + rewrite occ_cons, points_eq. lia.
    + intros q Hq. by rewrite occ_cons, points_ne.
    + intros q [Hq|Hq]%elem_of_cons; [injection Hq as ->; eauto|]. by apply (wf_pending _ _ _ Hwf (Some q)).
  - intros q o2. cbn. rewrite lookup_insert_Some. intros [[<- <-]|[_ Hq]]; cbn; [lia|].
    specialize (Hb q o2 Hq). lia.
  - intros q o' Hq. cbn. destruct (decide (p = q)) as [<-|].
    + exists (set_count (count o + 1) o). rewrite lookup_insert_eq. cbn. split_and!; [done|congruence..].
    + exists o'. by rewrite lookup_insert_ne.
Qed.

Lemma wf_perm pend pend' h : pend ≡ₚ pend' → wf_pend ty pend h → wf_pend ty pend' h.
Proof.
  intros Hp [C Vr F P N]. split; [|done|done| |done].
  - intros q o Hq. unfold occ. rewrite <- Hp. by apply C.
  - intros r. rewrite <- Hp. apply P.
Qed.

Lemma wf_none pend h : wf_pend ty (None :: pend) h ↔ wf_pend ty pend h.
Proof.
  split; intros [C Vr F P N]; split; [exact C|exact Vr|exact F| |exact N|exact C|exact Vr|exact F| |exact N].
  - intros r Hr. apply P. by right.
  - intros r [->|Hr]%elem_of_cons; [done|by apply P].
Qed.

(** Storing a pending reference in a new variable, and taking one out. *)
Lemma wf_store_var pend x r h :
  wf_pend ty (r :: pend) h → vars h !! x = None → fits h (ty x) r →
  wf_pend ty pend (set_vars <[x := r]> h).
Proof.
  intros [C Vr F P N] Hx Hr. split; [| |exact F| |exact N].
  - intros p o Ho. destruct (C p o Ho) as [Hc Hpos]. split; [|done]. rewrite Hc, occ_cons.
    unfold refs. cbn [set_vars objects vars]. rewrite sum_map_insert by done. lia.
  - intros y r'. cbn. rewrite lookup_insert_Some. intros [[<- <-]|[_ Hy]]; [exact Hr|by apply Vr].
  - intros r' Hr'. apply P. by right.
Qed.

Lemma wf_take_var pend x r h :
  wf_pend ty pend h → vars h !! x = Some r → wf_pend ty (r :: pend) (set_vars (delete x) h).
Proof.
  intros [C Vr F P N] Hx. split; [| |exact F| |exact N].
  - intros p o Ho. destruct (C p o Ho) as [Hc Hpos]. split; [|done]. rewrite Hc, occ_cons.
    unfold refs. cbn [set_vars objects vars]. rewrite (sum_map_delete _ (vars h) x r Hx). lia.
  - intros y r'. cbn. rewrite lookup_delete_Some. intros [_ Hy]. by apply Vr.
  - intros r' [->|Hr']%elem_of_cons p Hp; [|by eapply P].
    destruct (Vr x r Hx p Hp) as (o&Ho&_). by exists o.
Qed.

Lemma fits_same_kinds h h' k r :
  (∀ p o, objects h !! p = Some o → ∃ o', objects h' !! p = Some o' ∧ kind o' = kind o) →
  fits h k r → fits h' k r.
Proof. intros Hk Hf p ->. destruct (Hf p) as (o&Ho&<-); [done|]. apply (Hk p o Ho). Qed.

(** Exchanging a member for a pending reference. *)
Lemma wf_set_field pend p o i k old r h :
  wf_pend ty (r :: pend) h → objects h !! p = Some o → fields o !! i = Some old →
  members (kind o) !! i = Some k → fits h k r →
  wf_pend ty (old :: pend) (set_objects <[p := set_fields (<[i := r]> (fields o)) o]> h).
Proof.
  intros [C Vr F P N] Ho Hold Hk Hr.
  assert (Hkinds : ∀ q o2, objects h !! q = Some o2 →
    ∃ o', objects (set_objects <[p := set_fields (<[i := r]> (fields o)) o]> h) !! q = Some o' ∧ kind o' = kind o2).
  { intros q o2 Hq. cbn. destruct (decide (p = q)) as [<-|]; [rewrite lookup_insert_eq|rewrite lookup_insert_ne by done; eauto].
    eexists. split; [done|]. cbn. congruence. }
  assert (Hrefs : ∀ q, (refs (set_objects <[p := set_fields (<[i := r]> (fields o)) o]> h) q + points q old
                        = refs h q + points q r)%nat).
  { intros q. unfold refs. cbn [set_objects objects vars].
    pose proof (sum_map_update (λ o, occ q (fields o)) (objects h) p o (set_fields (<[i := r]> (fields o)) o) Ho) as E.
    cbn [set_fields fields] in E. pose proof (occ_insert q (fields o) i old r Hold). lia. }
  split.
  - intros q o' Hq. rewrite occ_cons. specialize (Hrefs q).
    assert (∃ o2, objects h !! q = Some o2 ∧ count o2 = count o') as (o2&Hq2&Hc2).
    { revert Hq. cbn. rewrite lookup_insert_Some. intros [[<- <-]|[_ Hq]]; eauto. }
    destruct (C q o2 Hq2) as [Hc Hpos]. rewrite occ_cons in Hc. lia.
  - intros x r' Hx. eapply fits_same_kinds; [exact Hkinds|]. by apply Vr.
  - intros q o' Hq. revert Hq. cbn. rewrite lookup_insert_Some. intros [[<- <-]|[_ Hq]]; cbn.
    + apply Forall2_same_length_lookup. split.
      * rewrite length_insert. by eapply Forall2_length, F.
      * intros j k' r' Hk' Hr'. eapply fits_same_kinds; [exact Hkinds|].
        destruct (decide (i = j)) as [<-|].
        -- rewrite list_lookup_insert_eq in Hr' by by eapply lookup_lt_Some. by simplify_eq.
        -- rewrite list_lookup_insert_ne in Hr' by done. eapply Forall2_lookup_lr; [exact (F p o Ho)|done..].
    + eapply Forall2_impl; [exact (F q o' Hq)|]. intros k' r' Hf. by eapply fits_same_kinds.
  - intros r' [->|Hr']%elem_of_cons q ->.
    + assert (is_Some (objects h !! q)) as [o2 Hq].
      { destruct (Forall2_lookup_r _ _ _ _ _ (F p o Ho) Hold) as (k'&_&Hf).
        destruct (Hf q) as (o2&?&_); [done|]. by exists o2. }
      destruct (Hkinds q o2 Hq) as (o'&?&_). by exists o'.
    + destruct (P (Some q)) with (p := q) as [o2 Hq]; [by right|done|].
      destruct (Hkinds q o2 Hq) as (o'&?&_). by exists o'.
  - intros q Hq. cbn. rewrite lookup_insert_ne; [by apply N|]. intros ->. rewrite (N q Hq) in Ho. done.
Qed.

Lemma occ_dead pend p h : wf_pend ty pend h → objects h !! p = None → (refs h p + occ p pend = 0)%nat.
Proof.
  intros [C Vr F P N] Hp. unfold refs.
  assert (sum_map (points p) (vars h) = 0%nat) as ->.
  { destruct (Nat.eq_0_gt_0_cases (sum_map (points p) (vars h))) as [->|Hpos]; [done|].
    destruct (sum_map_pos _ _ Hpos) as (x&r&Hx&Hr). unfold points in Hr. case_decide as E; [|lia]. subst r.
    destruct (Vr x _ Hx p) as (o&Ho&_); [done|]. congruence. }
  assert (sum_map (λ o, occ p (fields o)) (objects h) = 0%nat) as ->.
  { destruct (Nat.eq_0_gt_0_cases (sum_map (λ o, occ p (fields o)) (objects h))) as [->|Hpos]; [done|].
    destruct (sum_map_pos _ _ Hpos) as (q&o&Hq&Hr). unfold occ in Hr.
    destruct (filter (Some p =.) (fields o)) as [|r l] eqn:E; [cbn in Hr; lia|].
    assert (Hin : r ∈ filter (Some p =.) (fields o)) by (rewrite E; left).
    apply list_elem_of_filter in Hin as [<- [i Hi]%list_elem_of_lookup].
    destruct (Forall2_lookup_r _ _ _ _ _ (F q o Hq) Hi) as (k&_&Hf).
    destruct (Hf p) as (o'&Ho'&_); [done|]. congruence. }
  destruct (Nat.eq_0_gt_0_cases (occ p pend)) as [->|Hpos]; [done|]. unfold occ in Hpos.
  destruct (filter (Some p =.) pend) as [|r l] eqn:E; [cbn in Hpos; lia|].
  assert (Hin : r ∈ filter (Some p =.) pend) by (rewrite E; left).
  apply list_elem_of_filter in Hin as [<- Hin]. destruct (P _ Hin p) as [o Ho]; [done|]. congruence.
Qed.

Lemma occ_nones p (n : nat) : occ p (replicate n None) = 0%nat.
Proof. induction n as [|n IH]; [done|]. cbn [replicate]. by rewrite occ_cons, IH. Qed.

(** [new T()] behind a first pointer. *)
Lemma new_wf pend k n h :
  wf_pend ty pend h → below n h → 1 <= n →
  wp (p ← new_object k; add_ref p;; mret p) h (λ p h',
    p = next h ∧ wf_pend ty (Some p :: pend) h' ∧ below n h' ∧ vars h' = vars h ∧
    objects h' = <[p := mkObject k 1 (replicate (length (members k)) None)]> (objects h)).
Proof.
  intros Hwf Hb Hn. pose proof Hwf as [C Vr F P N]. assert (Hfree : objects h !! next h = None) by (apply N; lia).
  set (o := mkObject k 0 (replicate (length (members k)) None)).
  set (h1 := mkHeap (<[next h := o]> (objects h)) (Pos.succ (next h)) (vars h)).
  eapply wp_step; [done|]. fold h1. eapply wp_step.
  { unfold add_ref. erewrite bind_step by (apply (deref_eq _ o); apply lookup_insert_eq).
    apply (on_count_eq _ o); [apply lookup_insert_eq|]. by apply add_ref_counts. }
  assert (Hobjs : objects (set_objects <[next h := set_count 1 o]> h1) =
                  <[next h := mkObject k 1 (replicate (length (members k)) None)]> (objects h)).
  { cbn. by rewrite insert_insert_eq. }
  set (h2 := set_objects <[next h := set_count 1 o]> h1) in *.
  change (next h = next h ∧ wf_pend ty (Some (next h) :: pend) h2 ∧ below n h2 ∧ vars h2 = vars h ∧
      objects h2 = <[next h := mkObject k 1 (replicate (length (members k)) None)]> (objects h)).
  split_and!; [done| | |done|exact Hobjs].
  2:{ intros q o'. rewrite Hobjs, lookup_insert_Some. intros [[<- <-]|[_ Hq]]; [done|by eapply Hb]. }
  assert (Hfits : ∀ k' r, fits h k' r → fits h2 k' r).
  { intros k' r Hf q ->. destruct (Hf q) as (o2&Ho2&?); [done|]. exists o2. rewrite Hobjs.
    rewrite lookup_insert_ne; [done|]. intros E. rewrite <- E, Hfree in Ho2. done. }
  assert (Hrefs : ∀ q, refs h2 q = refs h q).
  { intros q. unfold refs. rewrite Hobjs, sum_map_insert by done. cbn [fields vars set_objects h2 h1].
    rewrite occ_nones. lia. }
  split.
  - intros q o'. rewrite Hobjs, Hrefs, occ_cons, lookup_insert_Some. intros [[<- <-]|[Hne Hq]].
    + rewrite points_eq. pose proof (occ_dead _ _ _ Hwf Hfree). cbn. lia.
    + rewrite points_ne by done. by apply C.
  - intros x r Hx. apply Hfits. by apply Vr.
  - intros q o'. rewrite Hobjs, lookup_insert_Some. intros [[<- <-]|[_ Hq]]; cbn [kind fields].
    + apply Forall2_replicate_r; [done|]. apply Forall_forall. by intros k' _ ?.
    + eapply Forall2_impl; [exact (F q o' Hq)|]. intros k' r. apply Hfits.
  - intros r Hr q ->. rewrite Hobjs, lookup_insert_is_Some. destruct (decide (next h = q)); [by left|right; split; [done|]].
    apply elem_of_cons in Hr as [?|Hr]; [congruence|]. by eapply P.
  - intros q Hq. rewrite Hobjs. cbn in Hq. rewrite lookup_insert_ne by lia. apply N. lia.
Qed.

(** Releasing a pending reference. *)
Definition released pend h (_ : unit) h' : Prop := wf_pend ty pend h' ∧ shrinks h h'.

Lemma wf_delete pend p o h :
  wf_pend ty (Some p :: pend) h → objects h !! p = Some o → count o = 1 →
  wf_pend ty (reverse (fields o) ++ pend) (set_objects (delete p) h) ∧ shrinks h (set_objects (delete p) h).
Proof.
  intros [C Vr F P N] Ho Hone. destruct (C p o Ho) as [Hc _]. rewrite occ_cons, points_eq, Hone in Hc.
  assert (Hp : refs h p = 0%nat ∧ occ p pend = 0%nat) by lia. destruct Hp as [Hrefs Hpend].
  unfold refs in Hrefs.
  assert (Hfits : ∀ k r, r ≠ Some p → fits h k r → fits (set_objects (delete p) h) k r).
  { intros k r Hr Hf q ->. destruct (Hf q) as (o2&Ho2&?); [done|]. exists o2. cbn.
    by rewrite lookup_delete_ne by congruence. }
  assert (Hself : ∀ q o' (i : nat), objects h !! q = Some o' → fields o' !! i ≠ Some (Some p)).
  { intros q o' i Hq Hi. pose proof (sum_map_ge (λ o, occ p (fields o)) (objects h) q o' Hq) as Hge.
    cbn in Hge. apply list_elem_of_lookup_2, occ_pos in Hi. lia. }
  split; [split|].
  - intros q o'. cbn [set_objects objects]. rewrite lookup_delete_Some. intros [Hne Hq].
    destruct (C q o' Hq) as [Hcq Hpos]. split; [|done]. rewrite Hcq, occ_cons, points_ne by done.
    rewrite occ_app, occ_reverse. unfold refs. cbn [set_objects objects vars].
    rewrite (sum_map_delete (λ o, occ q (fields o)) (objects h) p o Ho). lia.
  - intros x r Hx. apply Hfits; [|by apply Vr]. intros ->.
    pose proof (sum_map_ge (points p) (vars h) x _ Hx) as Hge. rewrite points_eq in Hge. lia.
  - intros q o'. cbn [set_objects objects]. rewrite lookup_delete_Some. intros [Hne Hq].
    apply Forall2_same_length_lookup. split; [by eapply Forall2_length, F|].
    intros i k r Hk Hr. apply Hfits; [intros ->; by eapply Hself|].
    eapply Forall2_lookup_lr; [exact (F q o' Hq)|done..].
  - intros r Hr q ->. cbn. rewrite lookup_delete_is_Some. apply elem_of_app in Hr as [Hr|Hr].
    + rewrite elem_of_reverse in Hr. apply list_elem_of_lookup in Hr as [i Hi]. split.
      * intros <-. by eapply Hself.
      * destruct (Forall2_lookup_r _ _ _ _ _ (F p o Ho) Hi) as (k&_&Hf).
        destruct (Hf q) as (o'&?&_); [done|]. by exists o'.
    + split; [intros <-; apply occ_pos in Hr; lia|]. apply (P (Some q)); [by right|done].
  - intros q Hq. cbn. rewrite lookup_delete_None. right. by apply N.
  - split; [|done..]. intros q o'. cbn. rewrite lookup_delete_Some. intros [_ Hq].
    exists o'. split_and!; [done..|lia].
Qed.

Lemma wf_release_one pend p o h :
  wf_pend ty (Some p :: pend) h → objects h !! p = Some o → count o ≠ 1 →
  wf_pend ty pend (set_objects <[p := set_count (count o - 1) o]> h) ∧
  shrinks h (set_objects <[p := set_count (count o - 1) o]> h).
Proof.
  intros Hwf Ho Hone. destruct (wf_count _ _ _ Hwf p o Ho) as [Hc Hpos].
  rewrite occ_cons, points_eq in Hc. split.
  - eapply wf_set_count; [done|exact Hwf| | | |].
    + lia.
    + lia.
    + intros q Hq. by rewrite occ_cons, points_ne.
    + intros q Hq. apply (wf_pending _ _ _ Hwf (Some q)); [by right|done].
  - split; [|done..]. intros q o'. cbn. rewrite lookup_insert_Some. intros [[<- <-]|[_ Hq]].
    + exists o. split_and!; [done..|]. cbn. lia.
    + exists o'. split_and!; [done..|lia].
Qed.

Lemma members_rank k k' : k' ∈ members k → (rank k' < rank k)%nat.
Proof. destruct k; cbn; set_unfold; naive_solver lia. Qed.

Lemma release_all_wp (rel : positive → Prog (Heap V) unit) l pend h (bound : nat) :
  (∀ p o pend h, wf_pend ty (Some p :: pend) h → objects h !! p = Some o → (rank (kind o) < bound)%nat →
     below int_max h → wp (rel p) h (released pend h)) →
  wf_pend ty (l ++ pend) h → below int_max h →
  (∀ p, Some p ∈ l → ∃ o, objects h !! p = Some o ∧ (rank (kind o) < bound)%nat) →
  wp (release_all rel l) h (released pend h).
Proof.
  intros Hrel. revert h. induction l as [|[p|] l IH]; cbn [release_all app]; intros h Hwf Hb Hl.
  - split; [done|apply shrinks_refl].
  - destruct (Hl p) as (o&Ho&Hk); [left|]. apply wp_bind.
    eapply wp_mono; [by eapply Hrel|]. cbn. intros ? h1 [Hwf1 Hsh1].
    eapply wp_mono; [apply IH; [done|by eapply shrinks_below| ]|].
    + intros q Hq. destruct (wf_pending _ _ _ Hwf1 (Some q)) with (p := q) as [o1 Ho1];
        [apply elem_of_app; by left|done|]. exists o1. split; [done|].
      destruct (sh_objects _ _ Hsh1 q o1 Ho1) as (o2&Ho2&<-&_). destruct (Hl q) as (o3&Ho3&?); [by right|]. congruence.
    + intros ? h2 [Hwf2 Hsh2]. split; [done|]. by eapply shrinks_trans.
  - apply IH; [by apply wf_none|done|]. intros q Hq. apply Hl. by right.
Qed.

Lemma release_wp fuel : ∀ p o pend h,
  wf_pend ty (Some p :: pend) h → objects h !! p = Some o → (rank (kind o) < fuel)%nat →
  below int_max h → wp (release fuel p) h (released pend h).
Proof.
  induction fuel as [|fuel IH]; intros p o pend h Hwf Ho Hk Hb; [lia|]. cbn [release].
  eapply wp_step; [by apply deref_eq|]. destruct (wf_count _ _ _ Hwf p o Ho) as [_ Hpos].
  eapply wp_step.
  { eapply on_count_eq; [done|]. apply release_counts. split; [done|by eapply Hb]. }
  cbn beta. destruct (Z.eqb_spec (count o) 1) as [Hone|Hone].
  - eapply wp_step; [done|]. destruct (wf_delete _ _ _ _ Hwf Ho Hone) as [Hwf1 Hsh1].
    replace (set_objects (delete p) (set_objects <[p := set_count (count o - 1) o]> h))
      with (set_objects (delete p) h).
    2:{ unfold set_objects. cbn. by rewrite delete_insert_eq. }
    eapply wp_mono; [eapply (release_all_wp _ _ pend _ fuel); [exact IH|done|by eapply shrinks_below|]|].
    + intros q Hq. rewrite elem_of_reverse in Hq. apply list_elem_of_lookup in Hq as [i Hi].
      destruct (Forall2_lookup_r _ _ _ _ _ (wf_fields _ _ _ Hwf p o Ho) Hi) as (k&Hki&Hf).
      destruct (Hf q) as (o1&Ho1&<-); [done|]. apply list_elem_of_lookup_2, members_rank in Hki.
      exists o1. split; [|lia]. cbn. rewrite lookup_delete_ne; [done|]. intros <-. simplify_eq. lia.
    + intros ? h2 [? ?]. split; [done|]. by eapply shrinks_trans.
  - by destruct (wf_release_one _ _ _ _ Hwf Ho Hone).
Qed.

Lemma release_opt_wp pend r h :
  wf_pend ty (r :: pend) h → below int_max h → wp (release_opt r) h (released pend h).
Proof.
  intros Hwf Hb. destruct r as [p|]; cbn [release_opt].
  - destruct (wf_pending _ _ _ Hwf (Some p)) with (p := p) as [o Ho]; [left|done|].
    eapply wp_step; [by apply deref_eq|]. eapply release_wp; [done..|lia|done].
  - split; [by apply wf_none|apply shrinks_refl].
Qed.

Lemma add_ref_opt_wp pend r n h :
  wf_pend ty pend h → (∃ k, fits h k r) → below n h → n < int_max →
  wp (add_ref_opt r) h (λ _ h', wf_pend ty (r :: pend) h' ∧ below (n + 1) h' ∧
    vars h' = vars h ∧ next h' = next h ∧
    ∀ q o', objects h !! q = Some o' → ∃ o2, objects h' !! q = Some o2 ∧ kind o2 = kind o' ∧ fields o2 = fields o').
Proof.
  intros Hwf [k Hf] Hb Hn. destruct r as [p|]; cbn.
  - destruct (Hf p) as (o&Ho&_); [done|]. by eapply add_ref_wf.
  - split_and!; [by apply wf_none| |done|done|by eauto]. intros p o Ho. specialize (Hb p o Ho). lia.
Qed.

(** [h'] still has the objects of [h]. *)
Definition keeps h h' : Prop :=
  ∀ p o, objects h !! p = Some o → ∃ o', objects h' !! p = Some o' ∧ kind o' = kind o ∧ fields o' = fields o.

Lemma keeps_fits k r h h' : keeps h h' → fits h k r → fits h' k r.
Proof. intros Hk. apply fits_same_kinds. intros p o Ho. destruct (Hk p o Ho) as (o'&?&?&_). by exists o'. Qed.

Lemma read_var_eq x r h : vars h !! x = Some r → read_var x h = Some (r, h).
Proof. intros Hx. unfold read_var. erewrite bind_step by done. by rewrite Hx. Qed.

Lemma below_mono n n' h : n <= n' → below n h → below n' h.
Proof. intros Hn Hb p o Ho. specialize (Hb p o Ho). lia. Qed.

(** *** The operations: each keeps the invariant and raises no counter by more than one *)
Context (n : Z) (n_small : 0 <= n < int_max).

Lemma new_wp x h :
  wf ty h → below n h → vars h !! x = None →
  wp (exec ty (ONew x)) h (λ _ h', wf ty h' ∧ below (n + 1) h' ∧ keeps h h' ∧
    vars h' = <[x := Some (next h)]> (vars h) ∧ objects h !! next h = None ∧
    objects h' = <[next h := mkObject (ty x) 1 (replicate (length (members (ty x))) None)]> (objects h)).
Proof.
  intros Hwf Hb Hx. cbn [exec].
  assert (Hnew : wp (p ← new_object (ty x); add_ref p;; mret p) h (λ p h',
    p = next h ∧ wf_pend ty (Some p :: []) h' ∧ below (n + 1) h' ∧ vars h' = vars h ∧
    objects h' = <[p := mkObject (ty x) 1 (replicate (length (members (ty x))) None)]> (objects h))).
  { apply new_wf; [done| |lia]. eapply below_mono; [|exact Hb]. lia. }
  apply wp_exists in Hnew as (p&h1&E&->&Hwf1&Hb1&Hv1&Ho1).
  apply bind_Some in E as (p&h2&E1&E2). apply bind_Some in E2 as ([]&h3&E2&[= -> ->]).
  eapply wp_step; [exact E1|]. eapply wp_step; [exact E2|].
  assert (Hfree : objects h !! next h = None) by (eapply wf_next; [done|lia]).
  unfold wp, write_var, modify. split_and!.
  - apply wf_store_var; [done|by rewrite Hv1|]. intros q [= <-].
    eexists. rewrite Ho1, lookup_insert_eq. by split.
  - exact Hb1.
  - intros q o Hq. exists o. cbn. rewrite Ho1, lookup_insert_ne; [done|]. intros E. rewrite <- E in Hq. congruence.
  - cbn. by rewrite Hv1.
  - done.
  - exact Ho1.
Qed.

Lemma copy_wp x y r h :
  wf ty h → below n h → vars h !! x = None → vars h !! y = Some r → ty x = ty y →
  wp (exec ty (OCopy x y)) h (λ _ h', wf ty h' ∧ below (n + 1) h' ∧ keeps h h' ∧
    vars h' = <[x := r]> (vars h)).
Proof.
  intros Hwf Hb Hx Hy Hty. cbn [exec]. eapply wp_step; [by apply read_var_eq|].
  pose proof (wf_vars _ _ _ Hwf y r Hy) as Hf. apply wp_bind.
  eapply wp_mono; [eapply (add_ref_opt_wp [] r n); [done|by eexists|done|lia]|].
  cbn. intros _ h1 (Hwf1&Hb1&Hv1&_&Hk1). unfold wp, write_var, modify. split_and!.
  - apply wf_store_var; [done|by rewrite Hv1|]. rewrite Hty. eapply keeps_fits; [exact Hk1|done].
  - exact Hb1.
  - exact Hk1.
  - cbn. by rewrite Hv1.
Qed.

Lemma drop_wp x r h :
  wf ty h → below n h → vars h !! x = Some r →
  wp (exec ty (ODrop x)) h (λ _ h', wf ty h' ∧ below (n + 1) h' ∧
    vars h' = delete x (vars h) ∧ shrinks (set_vars (delete x) h) h').
Proof.
  intros Hwf Hb Hx. cbn [exec]. eapply wp_step; [by apply read_var_eq|]. eapply wp_step; [done|].
  eapply wp_mono; [apply release_opt_wp; [by eapply wf_take_var|]|].
  - eapply below_mono; [|exact Hb]. lia.
  - intros ? h1 [Hwf1 Hsh1]. split_and!; [done| |exact (sh_vars _ _ Hsh1)|done].
    eapply shrinks_below; [done|]. eapply below_mono; [|exact Hb]. lia.
Qed.

Lemma set_wp x i y p o r h :
  wf ty h → below n h → vars h !! x = Some (Some p) → objects h !! p = Some o →
  vars h !! y = Some r → members (ty x) !! i = Some (ty y) →
  wp (exec ty (OSet x i y)) h (λ _ h', wf ty h' ∧ below (n + 1) h' ∧ vars h' = vars h ∧
    (field i o = None → ∀ q o1, objects h !! q = Some o1 → ∃ o2, objects h' !! q = Some o2 ∧ kind o2 = kind o1 ∧
       fields o2 = if decide (p = q) then <[i := r]> (fields o1) else fields o1)).
Proof.
  intros Hwf Hb Hx Ho Hy Hm. cbn [exec]. eapply wp_step; [by apply read_var_eq|]. cbn beta iota.
  eapply wp_step; [by apply read_var_eq|]. pose proof (wf_vars _ _ _ Hwf y r Hy) as Hf. apply wp_bind.
  eapply wp_mono; [eapply (add_ref_opt_wp [] r n); [done|by eexists|done|lia]|].
  intros ? h1 (Hwf1&Hb1&Hv1&_&Hk1). destruct (Hk1 p o Ho) as (o1&Ho1&Hkind&Hfields).
  eapply wp_step; [by apply deref_eq|]. eapply wp_step; [done|].
  assert (Hkx : kind o = ty x).
  { destruct (wf_vars _ _ _ Hwf x _ Hx p) as (o'&?&?); [done|]. congruence. }
  assert (is_Some (fields o1 !! i)) as [old Hold].
  { rewrite <- Hkx, <- Hkind in Hm.
    destruct (Forall2_lookup_l _ _ _ _ _ (wf_fields _ _ _ Hwf1 p o1 Ho1) Hm) as (r'&?&_). by exists r'. }
  assert (Hwf2 : wf_pend ty [old] (set_objects <[p := set_fields (<[i := r]> (fields o1)) o1]> h1)).
  { eapply (wf_set_field _ _ _ _ (ty y)); [done..|by rewrite Hkind, Hkx|]. by eapply keeps_fits. }
  assert (Hb2 : below (n + 1) (set_objects <[p := set_fields (<[i := r]> (fields o1)) o1]> h1)).
  { intros q o'. cbn. rewrite lookup_insert_Some. intros [[<- <-]|[_ Hq]]; cbn; by eapply Hb1. }
  replace (field i o1) with old by (unfold field; by rewrite Hold).
  eapply wp_mono; [apply wp_and; [apply release_opt_wp; [exact Hwf2|eapply below_mono; [|exact Hb2]; lia]|]|].
  { apply (wlp_keep_if (old = None)). intros ->. done. }
  intros [] h2 [[Hwf3 Hsh] Hsame]. split_and!; [done|by eapply shrinks_below|by rewrite (sh_vars _ _ Hsh)|].
  intros Hnone q o2 Hq. rewrite Hsame by (unfold field in Hnone; by rewrite <- Hfields, Hold in Hnone). cbn.
  destruct (Hk1 q o2 Hq) as (o3&Ho3&Hk3&Hf3). destruct (decide (p = q)) as [<-|Hne].
  - simplify_eq. eexists. rewrite lookup_insert_eq. split; [done|]. cbn. by rewrite Hfields.
  - exists o3. by rewrite lookup_insert_ne.
Qed.

Definition exec_ok (op : PtrOp) h : Prop :=
  wp (exec ty op) h (λ _ h', wf ty h' ∧ below (n + 1) h').

Lemma store_new_ok x r h :
  wf_pend ty [r] h → below (n + 1) h → vars h !! x = None → fits h (ty x) r →
  wf ty (set_vars <[x := r]> h) ∧ below (n + 1) (set_vars <[x := r]> h).
Proof. intros. split; [by apply wf_store_var|done]. Qed.

Lemma wf_add_null h : wf ty h → wf_pend ty [None] h.
Proof. apply wf_none. Qed.

(** Giving up the old value of a variable for a pending one. *)
Lemma wf_exchange_var x old r h :
  wf_pend ty [r] h → vars h !! x = Some old → fits h (ty x) r →
  wf_pend ty [old] (set_vars <[x := r]> h).
Proof.
  intros Hwf Hx Hr. pose proof (wf_take_var _ x old h Hwf Hx) as Hwf1.
  apply (wf_perm _ [r; old]) in Hwf1; [|by constructor].
  apply (wf_store_var [old] x r) in Hwf1; [|cbn; by rewrite lookup_delete_eq|].
  - unfold set_vars in *. cbn in *. by rewrite insert_delete_eq in Hwf1.
  - intros p ->. by apply Hr.
Qed.

Lemma move_ok x y r h :
  wf ty h → below n h → vars h !! x = None → vars h !! y = Some r → ty x = ty y → exec_ok (OMove x y) h.
Proof.
  intros Hwf Hb Hx Hy Hty. unfold exec_ok. cbn [exec]. eapply wp_step; [by apply read_var_eq|].
  eapply wp_step; [done|]. assert (Hwf1 : wf_pend ty [r] (set_vars <[y := None]> h)).
  { by eapply wf_exchange_var; [by apply wf_add_null|..]. }
  assert (Hxy : x ≠ y) by (intros ->; congruence). unfold wp, write_var, modify. apply store_new_ok.
  - done.
  - eapply below_mono; [|exact Hb]. lia.
  - cbn. by rewrite lookup_insert_ne by done.
  - rewrite Hty. intros p ->. by apply (wf_vars _ _ _ Hwf y (Some p)).
Qed.

Lemma assign_ok x y old r h :
  wf ty h → below n h → vars h !! x = Some old → vars h !! y = Some r → ty x = ty y →
  exec_ok (OAssign x y) h.
Proof.
  intros Hwf Hb Hx Hy Hty. unfold exec_ok. cbn [exec]. eapply wp_step; [by apply read_var_eq|].
  pose proof (wf_vars _ _ _ Hwf y r Hy) as Hf. apply wp_bind.
  eapply wp_mono; [eapply (add_ref_opt_wp [] r n); [done|by eexists|done|lia]|].
  cbn. intros _ h1 (Hwf1&Hb1&Hv1&_&Hk1). eapply wp_step; [apply read_var_eq; by rewrite Hv1|].
  eapply wp_step; [done|]. eapply wp_mono; [apply release_opt_wp|].
  - eapply wf_exchange_var; [done|by rewrite Hv1|]. rewrite Hty. by eapply keeps_fits.
  - eapply below_mono; [|exact Hb1]. lia.
  - intros ? h2 [? Hsh]. split; [done|]. by eapply shrinks_below.
Qed.

Lemma get_ok x y i p h :
  wf ty h → below n h → vars h !! x = None → vars h !! y = Some (Some p) →
  members (ty y) !! i = Some (ty x) → exec_ok (OGet x y i) h.
Proof.
  intros Hwf Hb Hx Hy Hm. unfold exec_ok. cbn [exec]. eapply wp_step; [by apply read_var_eq|]. cbn beta iota.
  destruct (wf_vars _ _ _ Hwf y _ Hy p) as (o&Ho&Hk); [done|].
  eapply wp_step; [by apply deref_eq|]. rewrite <- Hk in Hm.
  destruct (Forall2_lookup_l _ _ _ _ _ (wf_fields _ _ _ Hwf p o Ho) Hm) as (r&Hr&Hf).
  replace (field i o) with r by (unfold field; by rewrite Hr). apply wp_bind.
  eapply wp_mono; [eapply (add_ref_opt_wp [] r n); [done|by eexists|done|lia]|].
  cbn. intros _ h1 (Hwf1&Hb1&Hv1&_&Hk1). unfold wp, write_var, modify. apply store_new_ok; [done..|by rewrite Hv1|].
  by eapply keeps_fits.
Qed.

Lemma exec_wf op h : wf ty h → below n h → typed ty op h → exec_ok op h.
Proof.
  intros Hwf Hb Ht. unfold exec_ok. destruct op; cbn in Ht.
  - unfold wp. cbn. apply store_new_ok; [by apply wf_add_null| |done|by intros p].
    eapply below_mono; [|exact Hb]. lia.
  - eapply wp_mono; [by apply new_wp|]. cbn. naive_solver.
  - destruct Ht as (?&[r Hr]&?). eapply wp_mono; [by eapply copy_wp|]. cbn. naive_solver.
  - destruct Ht as ([? ?]&[? ?]&?). by eapply assign_ok.
  - destruct Ht as (?&[? ?]&?). by eapply move_ok.
  - destruct Ht as [r Hr]. eapply wp_mono; [by eapply drop_wp|]. cbn. naive_solver.
  - destruct Ht as ([p Hp]&[r Hr]&?). destruct (wf_vars _ _ _ Hwf x _ Hp p) as (o&Ho&_); [done|].
    eapply wp_mono; [by eapply set_wp|]. cbn. naive_solver.
  - destruct Ht as (?&[p Hp]&?). by eapply get_ok.
Qed.
End heap_lemmas.

(** ** Theorems *)
Section theorems.
Context `{Countable V} (ty : V → Kind).
Implicit Types (h : Heap V).

(** A well-typed operation of a program that reached [h]. *)
Definition step h h' : Prop := ∃ op, typed ty op h ∧ exec ty op h = Some (tt, h').

Lemma empty_wf : wf ty (empty_heap (V := V)).
Proof.
  split; cbn.
  - by intros p o ?%lookup_empty_Some.
  - by intros x r ?%lookup_empty_Some.
  - by intros p o ?%lookup_empty_Some.
  - by intros r ?%elem_of_nil.
  - done.
Qed.

Lemma reachable_wf (k : nat) h :
  nsteps step k empty_heap h → Z.of_nat k <= int_max → wf ty h ∧ below (Z.of_nat k) h.
Proof.
  revert h. induction k as [|k IH]; intros h Hs Hk.
  - inversion Hs; subst. split; [apply empty_wf|]. intros p o Hp. cbn in Hp. by rewrite lookup_empty in Hp.
  - apply nsteps_inv_r in Hs as (h1&Hs&op&Ht&E). destruct (IH h1 Hs) as [Hwf Hb]; [lia|].
    pose proof (exec_wf ty (Z.of_nat k) ltac:(lia) op h1 Hwf Hb Ht) as Hx.
    unfold exec_ok, wp in Hx. rewrite E in Hx. destruct Hx as [? Hx]. split; [done|].
    eapply below_mono; [|exact Hx]. lia.
Qed.

(** Whatever is alive is held, through members of ever larger classes, by a variable. *)
Lemma held_by_larger h p o :
  wf ty h → (∀ x r, vars h !! x = Some r → r = None) → objects h !! p = Some o →
  ∃ q o', objects h !! q = Some o' ∧ (rank (kind o) < rank (kind o'))%nat.
Proof.
  intros Hwf Hv Ho. destruct (wf_count _ _ _ Hwf p o Ho) as [Hc Hpos]. unfold refs in Hc. cbn in Hc.
  assert (sum_map (points p) (vars h) = 0%nat) as Hzero.
  { destruct (Nat.eq_0_gt_0_cases (sum_map (points p) (vars h))) as [->|Hp]; [done|].
    destruct (sum_map_pos _ _ Hp) as (x&r&Hx&Hr). rewrite (Hv x r Hx) in Hr. unfold points in Hr.
    rewrite decide_False in Hr by done. lia. }
  destruct (sum_map_pos (λ o, occ p (fields o)) (objects h)) as (q&o'&Hq&Hocc); [unfold occ in *; cbn in Hc; lia|].
  exists q, o'. split; [done|]. unfold occ in Hocc.
  destruct (filter (Some p =.) (fields o')) as [|r l] eqn:E; [cbn in Hocc; lia|].
  assert (Hin : r ∈ filter (Some p =.) (fields o')) by (rewrite E; left).
  apply list_elem_of_filter in Hin as [<- [i Hi]%list_elem_of_lookup].
  destruct (Forall2_lookup_r _ _ _ _ _ (wf_fields _ _ _ Hwf q o' Hq) Hi) as (k&Hk&Hf).
  destruct (Hf p) as (o2&Ho2&<-); [done|]. simplify_eq.
  by eapply members_rank, list_elem_of_lookup_2.
Qed.

Lemma no_variables_no_objects h :
  wf ty h → (∀ x r, vars h !! x = Some r → r = None) → objects h = ∅.
Proof.
  intros Hwf Hv. apply map_empty. intros p. destruct (objects h !! p) as [o|] eqn:Ho; [exfalso|done].
  assert (Hmax : ∀ k : Kind, (rank k <= 3)%nat) by (intros []; cbn; lia).
  assert (∀ (d : nat) p o, (3 - rank (kind o) <= d)%nat → objects h !! p = Some o → False) as Hno.
  { induction d as [|d IH]; intros q o1 Hd Hq; destruct (held_by_larger h q o1 Hwf Hv Hq) as (q'&o'&Hq'&Hlt).
    - specialize (Hmax (kind o')). lia.
    - eapply (IH q' o'); [lia|done]. }
  by eapply Hno.
Qed.

(** C13: Of a program that uses its pointers within their scopes and classes and dereferences no
    null pointer, with fewer than 2^31 operations so far: every counter is the number of
    references to its object and positive, so objects are deleted when, and only when, their
    last reference goes; no further operation touches freed memory; and when no pointer is left
    nothing is, as the classes rule out cycles. *)
Theorem pointers_sound (k : nat) h :
  nsteps step k empty_heap h → Z.of_nat k < int_max →
  (∀ p o, objects h !! p = Some o → count o = Z.of_nat (refs h p) ∧ 0 < count o) ∧
  (∀ op, typed ty op h → is_Some (exec ty op h)) ∧
  ((∀ x r, vars h !! x = Some r → r = None) → objects h = ∅).
Proof.
  intros Hs Hk. destruct (reachable_wf k h Hs) as [Hwf Hb]; [lia|]. split_and!.
  - intros p o Ho. destruct (wf_count _ _ _ Hwf p o Ho) as [Hc ?].
    change (occ p []) with 0%nat in Hc. by rewrite Nat.add_0_r in Hc.
  - intros op Ht. pose proof (exec_wf ty (Z.of_nat k) ltac:(lia) op h Hwf Hb Ht) as Hx.
    unfold exec_ok in Hx. apply wp_exists in Hx as (a&h'&->&_). by eexists.
  - by apply no_variables_no_objects.
Qed.
End theorems.

(** ** Releases that race

    [AppendRequest] and [FileHandle] count with a plain [int]: decrementing is a load and a
    store, between which other threads run. *)
Module Racing.

(** A thread inside [intrusive_ptr_release]: before the load, between load and store, after it
    and having deleted the object or not. *)
Inductive Thread := Before | Loaded (v : Z) | Released (deleted : bool).

Record State := mkState { counter : Z; threads : list Thread }.

(** [--p->use_count == 0] by thread [i] in two steps. *)
Inductive plain_step : relation State :=
| plain_load c ts i : ts !! i = Some Before →
    plain_step (mkState c ts) (mkState c (<[i := Loaded c]> ts))
| plain_store c ts i v : ts !! i = Some (Loaded v) →
    plain_step (mkState c ts) (mkState (v - 1) (<[i := Released (v - 1 =? 0)]> ts)).

(** [p->_use_count.fetch_sub(1) == 1] by thread [i]. *)
Inductive atomic_step : relation State :=
| atomic_sub c ts i : ts !! i = Some Before →
    atomic_step (mkState c ts) (mkState (c - 1) (<[i := Released (c =? 1)]> ts)).

(** [k] threads hold the [k] references to an object and are about to release them. *)
Definition releasing (k : nat) : State := mkState (Z.of_nat k) (replicate k Before).

Definition running (t : Thread) : nat := match t with Released _ => 0 | _ => 1 end.
Definition deleting (t : Thread) : nat := match t with Released true => 1 | _ => 0 end.
Definition total (w : Thread → nat) (ts : list Thread) : nat := sum_list_with w ts.

Lemma total_app w ts ts' : total w (ts ++ ts') = (total w ts + total w ts')%nat.
Proof. apply sum_list_with_app. Qed.

Lemma total_insert w (ts : list Thread) i t t' :
  ts !! i = Some t → (w t + total w (<[i := t']> ts) = w t' + total w ts)%nat.
Proof.
  intros Hi. rewrite <- (take_drop_middle ts i t Hi) at 2.
  rewrite insert_take_drop by by eapply lookup_lt_Some. rewrite !total_app. cbn. lia.
Qed.

Record plain_inv (s : State) : Prop := {
  pi_counter : Z.of_nat (total running (threads s)) <= counter s;
  pi_loaded i v : threads s !! i = Some (Loaded v) → Z.of_nat (total running (threads s)) <= v;
  pi_once : (total deleting (threads s) <= 1)%nat;
  pi_last : (0 < total deleting (threads s) → total running (threads s) = 0)%nat;
}.

Lemma total_releasing (k : nat) : total running (replicate k Before) = k ∧ total deleting (replicate k Before) = 0%nat.
Proof. induction k as [|k [IH1 IH2]]; [done|].
  split; cbn [replicate total sum_list_with running deleting]; [by rewrite <- IH1 at 2|exact IH2].
Qed.

Lemma releasing_inv (k : nat) : plain_inv (releasing k).
Proof.
  destruct (total_releasing k) as [Hr Hd]. split; cbn [releasing counter threads]; rewrite ?Hr, ?Hd; try lia.
  intros i v Hi. apply lookup_replicate in Hi as [? _]. done.
Qed.

Lemma plain_step_inv s s' : plain_step s s' → plain_inv s → plain_inv s'.
Proof.
  intros [c ts i Hi|c ts i v Hi] [HC HL HO HD]; cbn [counter threads] in *.
  - pose proof (total_insert running ts i _ (Loaded c) Hi) as E1.
    pose proof (total_insert deleting ts i _ (Loaded c) Hi) as E2. cbn [running deleting] in E1, E2.
    split; cbn [counter threads]; [lia| |lia|lia]. intros j v Hj. apply list_lookup_insert_Some in Hj as [(<-&[= <-]&_)|[_ Hj]]; [lia|].
    specialize (HL j v Hj). lia.
  - pose proof (total_insert running ts i _ (Released (v - 1 =? 0)) Hi) as E1.
    pose proof (total_insert deleting ts i _ (Released (v - 1 =? 0)) Hi) as E2. cbn [running deleting] in E1, E2.
    pose proof (HL i v Hi) as Hv. assert (Hd : total deleting ts = 0%nat) by lia.
    split; cbn [counter threads]; [lia| | |].
    + intros j v' Hj. apply list_lookup_insert_Some in Hj as [(<-&?&_)|[_ Hj]]; [done|].
      specialize (HL j v' Hj). lia.
    + destruct (v - 1 =? 0); lia.
    + destruct (Z.eqb_spec (v - 1) 0); lia.
Qed.

Record atomic_inv (s : State) : Prop := {
  ai_counter : counter s = Z.of_nat (total running (threads s));
  ai_once : (total deleting (threads s) = if decide (total running (threads s) = 0) then 1 else 0)%nat;
}.

Lemma atomic_step_inv s s' : atomic_step s s' → atomic_inv s → atomic_inv s'.
Proof.
  intros [c ts i Hi] [HC HO]; cbn [counter threads] in *.
  pose proof (total_insert running ts i _ (Released (c =? 1)) Hi) as E1.
  pose proof (total_insert deleting ts i _ (Released (c =? 1)) Hi) as E2. cbn [running deleting] in E1, E2.
  split; cbn [counter threads]; [lia|]. destruct (decide _), (Z.eqb_spec c 1); case_decide; lia.
Qed.

(** Threads that release one after the other, the counter too large. *)
Lemma plain_sequential (m : nat) : ∀ c pre,
  Forall (Released false =.) pre → Z.of_nat m < c →
  ∃ ts, rtc plain_step (mkState c (pre ++ replicate m Before)) (mkState (c - Z.of_nat m) ts) ∧
        Forall (Released false =.) ts.
Proof.
  induction m as [|m IH]; intros c pre Hpre Hc.
  - exists pre. rewrite app_nil_r, Z.sub_0_r. split; [apply rtc_refl|done].
  - destruct (IH (c - 1) (pre ++ [Released false])) as (ts&Hrun&Hts).
    { apply Forall_app. split; [done|]. by constructor. }
    { lia. }
    exists ts. split; [|done]. cbn [replicate].
    eapply rtc_l; [apply (plain_load _ _ (length pre)); by rewrite list_lookup_middle|].
    rewrite insert_app_r_alt, Nat.sub_diag by done. cbn [insert list_insert].
    eapply rtc_l; [apply (plain_store _ _ (length pre) c); by rewrite list_lookup_middle|].
    rewrite insert_app_r_alt, Nat.sub_diag by done. cbn [insert list_insert].
    rewrite (proj2 (Z.eqb_neq (c - 1) 0)) by lia.
    rewrite <- app_assoc in Hrun. cbn [app] in Hrun. by replace (c - Z.of_nat (S m)) with (c - 1 - Z.of_nat m) by lia.
Qed.

Lemma released_totals ts :
  Forall (Released false =.) ts → total running ts = 0%nat ∧ total deleting ts = 0%nat.
Proof. by induction 1 as [|t ts <- _ IH]. Qed.

(** Two threads that both load before either stores. *)
Lemma plain_lost_update (m : nat) :
  rtc plain_step (releasing (S (S m)))
    (mkState (Z.of_nat (S m)) ([Released false; Released false] ++ replicate m Before)).
Proof.
  unfold releasing. cbn [replicate]. set (c := Z.of_nat (S (S m))).
  assert (Hc : c - 1 = Z.of_nat (S m)) by lia. assert (Hne : (c - 1 =? 0) = false) by (apply Z.eqb_neq; lia).
  eapply rtc_l; [by apply (plain_load _ _ 0)|]. eapply rtc_l; [by apply (plain_load _ _ 1)|].
  eapply rtc_l; [by apply (plain_store _ _ 0 c)|]. eapply rtc_l; [by apply (plain_store _ _ 1 c)|].
  cbn [insert list_insert]. rewrite Hne, Hc. apply rtc_refl.
Qed.

(** C35: When the holders of the last references release them at the same time, an atomic counter
    has exactly one of them delete the object, after all others are done. With a plain [int] at
    most one does, also after all others; but there are runs in which none does. *)
Theorem racing_releases (k : nat) :
  (0 < k)%nat →
  (∀ s, rtc atomic_step (releasing k) s →
     total deleting (threads s) = if decide (total running (threads s) = 0%nat) then 1%nat else 0%nat) ∧
  (∀ s, rtc plain_step (releasing k) s →
     (total deleting (threads s) <= 1)%nat ∧
     ((0 < total deleting (threads s))%nat → total running (threads s) = 0%nat)) ∧
  ((1 < k)%nat → ∃ s, rtc plain_step (releasing k) s ∧
     total running (threads s) = 0%nat ∧ total deleting (threads s) = 0%nat).
Proof.
  intros Hk. destruct (total_releasing k) as [Hr Hd]. split_and!.
  - intros s Hs. apply ai_once. eapply rtc_preserves; [exact atomic_step_inv|exact Hs|].
    split; cbn [releasing counter threads]; rewrite Hr; [done|]. rewrite Hd, decide_False by lia. done.
  - intros s Hs. apply (rtc_preserves plain_step plain_inv _ _ plain_step_inv) in Hs as [_ _ ? ?];
      [done|apply releasing_inv].
  - intros Hk1. destruct k as [|[|m]]; [lia..|].
    destruct (plain_sequential m (Z.of_nat (S m)) [Released false; Released false]) as (ts&Hrun&Hts);
      [by repeat constructor|lia|].
    eexists. split; [etrans; [apply plain_lost_update|exact Hrun]|]. cbn [threads]. by apply released_totals.
Qed.
End Racing.

Module Witness.
(** A file handle on a store: variable 0 holds the store, 1 the handle. *)
Definition ty (x : nat) : Kind := if (x =? 0)%nat then KStore else KFileHandle.
Definition after (op : PtrOp) (h : Heap nat) : Heap nat :=
  match exec ty op h with Some (_, h') => h' | None => h end.
Definition h1 := after (ONew 0%nat) empty_heap.
Definition h2 := after (ONew 1%nat) h1.
Definition h3 := after (OSet 1%nat 0 0%nat) h2.
Definition h4 := after (ODrop 0%nat) h3.
Definition h5 := after (ODrop 1%nat) h4.

Lemma handle_run : nsteps (step ty) 5 empty_heap h5.
Proof.
  eapply nsteps_l; [exists (ONew 0%nat); split; [vm_compute; reflexivity|reflexivity]|].
  eapply nsteps_l; [exists (ONew 1%nat); split; [vm_compute; reflexivity|reflexivity]|].
  eapply nsteps_l; [exists (OSet 1%nat 0 0%nat); split; [|reflexivity]|].
  { split_and!; [by eexists|by eexists|done]. }
  eapply nsteps_l; [exists (ODrop 0%nat); split; [by eexists|reflexivity]|].
  eapply nsteps_l; [exists (ODrop 1%nat); split; [by eexists|reflexivity]|].
  apply nsteps_O.
Qed.

Lemma pointers_sound_witness :
  (refs h3 1%positive = 2)%nat ∧ objects h5 = ∅.
Proof.
  split; [vm_compute; reflexivity|].
  apply (proj2 (proj2 (pointers_sound ty 5 h5 handle_run ltac:(vm_compute; reflexivity)))).
  intros x r Hx. vm_compute in Hx. discriminate Hx.
Defined.

Lemma racing_releases_witness :
  ∃ s, rtc Racing.plain_step (Racing.releasing 2) s ∧
    Racing.total Racing.running (Racing.threads s) = 0%nat ∧
    Racing.total Racing.deleting (Racing.threads s) = 0%nat.
Proof. apply (proj2 (proj2 (Racing.racing_releases 2 ltac:(lia)))). lia. Defined.
End Witness.
End RefCount.
