(* ===== verification/DevaCount.v ===== *)
(** * The two counters of a metadata container ([src/deva/deva.h], [src/deva/container.h])

    [Container] carries a counter for intrusive pointers, and so does [Deva], which derives from it:
    which one a pointer moves depends on its type alone, [ContainerPtr] or [DevaPtr]. The program holds
    its containers through [ContainerPtr] only, and that is sound; the overloads for [DevaPtr] are
    there for the taking, and an object that is held through both is deleted too early. *)
From S2P Require Import Prelude RefCount.
Import RefCount.
Set Default Goal Selector "!".
Local Open Scope Z_scope.

Module DevaCount.

(** The overloads of [deva.h]; those of [container.h] are in [RefCount]. *)
Definition deva_add_ref : Prog Z unit := _ ← fetch_add 1; mret tt.
Definition deva_release : Prog Z bool := old ← fetch_sub 1; mret (old =? 1).

(** The types of pointers, and an object with its two counters. *)
Inductive Ptr := PContainer | PDeva.
Record Object := mkObject { container_count : Z; deva_count : Z }.
(** The object, while it exists, and how many pointers of each type there are to it. *)
Record State := mkState { object : option Object; pointers : Ptr → nat }.

Definition counter (k : Ptr) (o : Object) : Z :=
  match k with PContainer => container_count o | PDeva => deva_count o end.
Definition set_counter (k : Ptr) (n : Z) (o : Object) : Object :=
  match k with PContainer => mkObject n (deva_count o) | PDeva => mkObject (container_count o) n end.
Definition add_ref (k : Ptr) : Prog Z unit := match k with PContainer => container_add_ref | PDeva => deva_add_ref end.
Definition release_ref (k : Ptr) : Prog Z bool := match k with PContainer => container_release | PDeva => deva_release end.

#[export] Instance Ptr_eq_dec : EqDecision Ptr.
Proof. solve_decision. Defined.
Definition set_pointers (k : Ptr) (n : nat) (s : State) : State :=
  mkState (object s) (λ k', if decide (k' = k) then n else pointers s k').

(** An overload on the object; after the object was deleted it would touch freed memory. *)
Definition on_counter {A} (k : Ptr) (p : Prog Z A) : Prog State A := λ s,
  match object s with
  | None => None
  | Some o => match p (counter k o) with
              | Some (a, n) => Some (a, mkState (Some (set_counter k n o)) (pointers s))
              | None => None
              end
  end.

(** A pointer is made; a pointer goes, and with it the object when the overload says so. *)
Definition acquire (k : Ptr) : Prog State unit :=
  on_counter k (add_ref k);;
  modify (λ s, set_pointers k (S (pointers s k)) s).
Definition drop_ptr (k : Ptr) : Prog State unit :=
  last ← on_counter k (release_ref k);
  modify (λ s, set_pointers k (pred (pointers s k)) s);;
  if (last : bool) then modify (λ s, mkState None (pointers s)) else mret tt.

(** [new Deva()]. *)
Definition fresh : State := mkState (Some (mkObject 0 0)) (λ _, 0%nat).

(** Steps of a program that uses the pointer types [used]: it makes pointers from what it holds (or
    from the new object), and lets go of pointers that it has. *)
Inductive step (used : Ptr → Prop) : State → State → Prop :=
| step_acquire k s s' :
    used k → s = fresh ∨ (∃ k', used k' ∧ 0 < pointers s k')%nat → Z.of_nat (pointers s k) < int_max →
    acquire k s = Some (tt, s') → step used s s'
| step_drop k s s' :
    used k → (0 < pointers s k)%nat → drop_ptr k s = Some (tt, s') → step used s s'.

(** ** Lemmas *)
Lemma counter_set k n o k' : counter k' (set_counter k n o) = if decide (k' = k) then n else counter k' o.
Proof. by destruct k, k'. Qed.

Lemma add_ref_eq k c : 0 <= c < int_max → add_ref k c = Some (tt, c + 1).
Proof. intros Hc. destruct k; cbn; unfold container_add_ref, deva_add_ref; by rewrite (bind_step _ _ _ _ _ (fetch_add_eq c Hc)). Qed.
Lemma release_ref_eq k c : 0 < c <= int_max → release_ref k c = Some (c =? 1, c - 1).
Proof. intros Hc. destruct k; cbn; unfold container_release, deva_release; by rewrite (bind_step _ _ _ _ _ (fetch_sub_eq c Hc)). Qed.

(** While the object exists, each counter is the number of pointers of its type. *)
Definition counts (s : State) : Prop :=
  ∀ o, object s = Some o → ∀ k, counter k o = Z.of_nat (pointers s k) ∧ Z.of_nat (pointers s k) <= int_max.

Lemma counts_fresh : counts fresh.
Proof. intros o [= <-] k. by destruct k. Qed.

(** The state after a pointer was made, and after one was let go. *)
Definition acquired (k : Ptr) (o : Object) (s : State) : State :=
  set_pointers k (S (pointers s k)) (mkState (Some (set_counter k (Z.of_nat (S (pointers s k))) o)) (pointers s)).
Definition dropped (k : Ptr) (o : Object) (s : State) : State :=
  let left := pred (pointers s k) in
  set_pointers k left (mkState (if decide (left = 0%nat) then None else Some (set_counter k (Z.of_nat left) o)) (pointers s)).

Lemma acquire_eq k o s :
  counts s → object s = Some o → Z.of_nat (pointers s k) < int_max → acquire k s = Some (tt, acquired k o s).
Proof.
  intros Hc Ho Hlt. destruct (Hc o Ho k) as [E _]. unfold acquire, on_counter, mbind, prog_bind. rewrite Ho, E.
  rewrite add_ref_eq by lia. unfold acquired. replace (Z.of_nat (pointers s k) + 1) with (Z.of_nat (S (pointers s k))) by lia.
  done.
Qed.
Lemma drop_eq k o s :
  counts s → object s = Some o → (0 < pointers s k)%nat → drop_ptr k s = Some (tt, dropped k o s).
Proof.
  intros Hc Ho Hlt. destruct (Hc o Ho k) as [E Hle]. unfold drop_ptr, on_counter, mbind, prog_bind. rewrite Ho, E.
  rewrite release_ref_eq by lia. unfold dropped. destruct (decide (pred (pointers s k) = 0%nat)) as [Hz|Hz].
  - rewrite (proj2 (Z.eqb_eq _ _)) by lia. done.
  - rewrite (proj2 (Z.eqb_neq _ _)) by lia.
    replace (Z.of_nat (pointers s k) - 1) with (Z.of_nat (pred (pointers s k))) by lia. done.
Qed.

Lemma pointers_acquired k o s k' :
  pointers (acquired k o s) k' = if decide (k' = k) then S (pointers s k) else pointers s k'.
Proof. done. Qed.
Lemma pointers_dropped k o s k' :
  pointers (dropped k o s) k' = if decide (k' = k) then pred (pointers s k) else pointers s k'.
Proof. done. Qed.
Lemma object_dropped k o s :
  object (dropped k o s) =
  if decide (pred (pointers s k) = 0%nat) then None else Some (set_counter k (Z.of_nat (pred (pointers s k))) o).
Proof. done. Qed.

Lemma counts_acquired k o s :
  counts s → object s = Some o → Z.of_nat (pointers s k) < int_max → counts (acquired k o s).
Proof.
  intros Hc Ho Hlt o' [= <-] k'. rewrite counter_set, pointers_acquired.
  case_decide; [lia|]. by apply Hc.
Qed.
Lemma counts_dropped k o s :
  counts s → object s = Some o → counts (dropped k o s).
Proof.
  intros Hc Ho o'. rewrite object_dropped. case_decide; [done|]. intros [= <-] k'.
  rewrite counter_set, pointers_dropped. case_decide; [|by apply Hc].
  subst. destruct (Hc o Ho k). lia.
Qed.

(** Freed objects are not touched. *)
Lemma dead s k : object s = None → acquire k s = None ∧ drop_ptr k s = None.
Proof. intros E. unfold acquire, drop_ptr, on_counter, mbind, prog_bind. by rewrite E. Qed.

Lemma step_counts used s s' : step used s s' → counts s → counts s'.
Proof.
  intros [k s1 s2 _ _ Hlt E|k s1 s2 _ Hp E] Hc; destruct (object s1) as [o|] eqn:Ho;
    try (by rewrite ?(proj1 (dead s1 k Ho)), ?(proj2 (dead s1 k Ho)) in E).
  - rewrite (acquire_eq k o s1 Hc Ho Hlt) in E. injection E as <-. by apply counts_acquired.
  - rewrite (drop_eq k o s1 Hc Ho Hp) in E. injection E as <-. by apply counts_dropped.
Qed.

(** Where one type is used: nothing has happened, or the object is gone with its pointers, or there
    are pointers, of that type. *)
Definition one_inv (k : Ptr) (s : State) : Prop :=
  counts s ∧ (∀ k', k' ≠ k → pointers s k' = 0%nat) ∧
  (s = fresh ∨ (object s = None ∧ pointers s k = 0%nat) ∨ (is_Some (object s) ∧ (0 < pointers s k)%nat)).

Lemma step_one k s s' : step (k =.) s s' → one_inv k s → one_inv k s'.
Proof.
  intros Hs (Hc & Hother & _). pose proof (step_counts _ _ _ Hs Hc) as Hc'.
  destruct Hs as [k1 s1 s2 <- _ Hlt E|k1 s1 s2 <- Hp E]; destruct (object s1) as [o|] eqn:Ho;
    try (by rewrite ?(proj1 (dead s1 k Ho)), ?(proj2 (dead s1 k Ho)) in E).
  - rewrite (acquire_eq k o s1 Hc Ho Hlt) in E. injection E as <-. split_and!; [done| |right; right].
    + intros k' Hk. rewrite pointers_acquired, decide_False by done. by apply Hother.
    + split; [by eexists|]. rewrite pointers_acquired, decide_True by done. lia.
  - rewrite (drop_eq k o s1 Hc Ho Hp) in E. injection E as <-. split_and!; [done| |right].
    + intros k' Hk. rewrite pointers_dropped, decide_False by done. by apply Hother.
    + rewrite pointers_dropped, decide_True, object_dropped by done. case_decide; [by left|right]. split; [by eexists|lia].
Qed.

(** ** Theorems *)

(** A program that uses one of the two types of pointers can copy and drop every pointer it has, and
    the object goes exactly with the last of them. *)
Theorem one_type_sound k s :
  rtc (step (k =.)) fresh s →
  ((∀ k', pointers s k' = 0%nat) ↔ s = fresh ∨ object s = None) ∧
  ((0 < pointers s k)%nat → is_Some (drop_ptr k s) ∧ (Z.of_nat (pointers s k) < int_max → is_Some (acquire k s))).
Proof.
  intros Hs. assert (one_inv k s) as (Hc & Hother & Hcase).
  { eapply rtc_preserves; [intros x y; apply step_one|exact Hs|]. split_and!; [apply counts_fresh|done|by left]. }
  split.
  - split.
    + intros Hz. destruct Hcase as [->|[[E _]|[_ Hp]]]; [by left|by right|]. rewrite Hz in Hp. lia.
    + intros Hd k'. destruct (decide (k' = k)) as [->|Hk]; [|by apply Hother].
      destruct Hcase as [->|[[_ E]|[[o Ho] Hp]]]; [done|done|]. destruct Hd as [->|Hd]; [done|congruence].
  - intros Hp. destruct Hcase as [->|[[_ E]|[[o Ho] _]]]; [by cbn in Hp; lia|lia|]. split.
    + rewrite (drop_eq k o s) by done. by eexists.
    + intros Hlt. rewrite (acquire_eq k o s) by done. by eexists.
Qed.

Lemma drop_all k n s :
  counts s → is_Some (object s) → pointers s k = S n →
  ∃ s', nsteps (step (λ _, True)) (S n) s s' ∧ object s' = None ∧ ∀ k', k' ≠ k → pointers s' k' = pointers s k'.
Proof.
  revert s; induction n as [|n IH]; intros s Hc [o Ho] Hp.
  - exists (dropped k o s). split_and!.
    + eapply nsteps_l; [|apply nsteps_O]. apply (step_drop _ k); [done|lia|]. apply drop_eq; [done..|lia].
    + by rewrite object_dropped, decide_True by lia.
    + intros k' Hk. by rewrite pointers_dropped, decide_False.
  - assert (drop_ptr k s = Some (tt, dropped k o s)) as E by (apply drop_eq; [done..|lia]).
    destruct (IH (dropped k o s)) as (s' & Hs & Hn & Hk').
    + by apply counts_dropped.
    + rewrite object_dropped, decide_False by lia. by eexists.
    + rewrite pointers_dropped, decide_True by done. lia.
    + exists s'. split_and!; [|done|].
      * eapply nsteps_l; [|exact Hs]. apply (step_drop _ k); [done|lia|exact E].
      * intros k' Hk. rewrite (Hk' k' Hk). by rewrite pointers_dropped, decide_False.
Qed.

(** An object that is held through both types goes with the last pointer of either, whatever
    pointers of the other type are left: each of them points to freed memory, and the next operation on
    one touches it. *)
Theorem two_types_dangle s k k' :
  rtc (step (λ _, True)) fresh s → is_Some (object s) →
  k ≠ k' → (0 < pointers s k)%nat → (0 < pointers s k')%nat →
  ∃ s', nsteps (step (λ _, True)) (pointers s k) s s' ∧ object s' = None ∧
    pointers s' k' = pointers s k' ∧ acquire k' s' = None ∧ drop_ptr k' s' = None.
Proof.
  intros Hs Ho Hk Hp Hp'. assert (counts s) as Hc.
  { eapply rtc_preserves; [intros x y; apply step_counts|exact Hs|apply counts_fresh]. }
  destruct (pointers s k) as [|n] eqn:E; [lia|].
  destruct (drop_all k n s Hc Ho E) as (s' & Hs' & Hn & Hsame).
  exists s'. split_and!; [done|done|by apply Hsame|by apply dead..].
Qed.
End DevaCount.

Module Witness.
Import DevaCount.

(** A container pointer to a new object, and a second pointer made from the object it points to. *)
Definition after (k : Ptr) (s : State) : State := match acquire k s with Some (_, s) => s | None => s end.
Definition held : State := after PDeva (after PContainer fresh).

Lemma one_type_sound_witness :
  is_Some (drop_ptr PContainer (after PContainer fresh)) ∧ object (after PContainer fresh) ≠ None.
Proof.
  split; [|by vm_compute]. apply (proj2 (one_type_sound PContainer (after PContainer fresh)
    ltac:(apply rtc_once, (step_acquire _ PContainer); [done|by left|by vm_compute|by vm_compute]))).
  by vm_compute; lia.
Defined.

Lemma two_types_dangle_witness :
  ∃ s', nsteps (step (λ _, True)) 1 held s' ∧ object s' = None ∧ pointers s' PContainer = 1%nat ∧
    acquire PContainer s' = None ∧ drop_ptr PContainer s' = None.
Proof.
  apply (two_types_dangle held PDeva PContainer).
  - apply (rtc_l _ _ (after PContainer fresh)).
    + apply (step_acquire _ PContainer); [done|by left|by vm_compute|by vm_compute].
    + apply rtc_once, (step_acquire _ PDeva); [done| |by vm_compute|by vm_compute].
      right. exists PContainer. split; [done|]. vm_compute. lia.
  - by eexists.
  - done.
  - vm_compute. lia.
  - vm_compute. lia.
Defined.
End Witness.
