(* ===== verification/Result.v ===== *)
(** * Results ([include/pain/base/result.h])

    [Result<T, E>] holds a value or an error. Members that assert which one it is return an
    option here, [None] for the failed assertion; the overloads for lvalues and rvalues differ in
    whether the content is moved out, not in what they return. *)
From S2P Require Import Prelude.
Set Default Goal Selector "!".

Module Result.

(** The variant [_value], of [Ok] and [Err]. *)
Inductive Result (T E : Type) := Ok (value : T) | Err (value : E).
Arguments Ok {T E} value.
Arguments Err {T E} value.

Section result.
Context {T E : Type}.
Implicit Types (r : Result T E).

Definition is_ok r : bool := match r with Ok _ => true | Err _ => false end.
Definition is_err r : bool := match r with Ok _ => false | Err _ => true end.

(** [std::get<Ok>(_value).value] and [std::get<Err>(_value).value]. *)
Definition get_ok r : option T := match r with Ok v => Some v | Err _ => None end.
Definition get_err r : option E := match r with Ok _ => None | Err e => Some e end.

Definition value r : option T := if is_ok r then get_ok r else None.
Definition err r : option E := if negb (is_ok r) then get_err r else None.
Definition unwrap r : option T := if is_ok r then get_ok r else None.
Definition expect (msg : string) r : option T := if is_ok r then get_ok r else None.
Definition unwrap_err r : option E := if negb (is_ok r) then get_err r else None.

(** [value_or] converts its argument to [T]. *)
Definition value_or {U} (convert : U → T) (v : U) r : T :=
  match r with Ok x => x | Err _ => convert v end.
Definition unwrap_or (v : T) r : T := match r with Ok x => x | Err _ => v end.
End result.

(** [map] and [map_or]; [map_or] gives a result too, and always an [Ok]. *)
Definition map {T E U} (f : T → U) (r : Result T E) : Result U E :=
  match r with Ok v => Ok (f v) | Err e => Err e end.
Definition map_or {T E U V} (convert : V → U) (u : V) (f : T → U) (r : Result T E) : Result U E :=
  match r with Ok v => Ok (f v) | Err _ => Ok (convert u) end.

(** ** Theorems *)
#[export] Instance result_fmap {E} : FMap (λ T, Result T E) := λ A B f r, map f r.

Section laws.
Context {T E : Type}.
Implicit Types (r : Result T E).

(** The members that assert agree with [is_ok], and exactly one of value and error is there. *)
Lemma result_cases r :
  (is_ok r = true ∧ is_err r = false ∧ is_Some (unwrap r) ∧ unwrap_err r = None) ∨
  (is_ok r = false ∧ is_err r = true ∧ unwrap r = None ∧ is_Some (unwrap_err r)).
Proof. destruct r; [left|right]; split_and!; try done; by eexists. Qed.

(** [map] is functorial, keeps errors, and commutes with taking the value out. *)
Theorem map_laws {U V} (f : T → U) (g : U → V) r :
  map id r = r ∧ map g (map f r) = map (g ∘ f) r ∧ unwrap (map f r) = f <$> unwrap r ∧
  unwrap_err (map f r) = unwrap_err r.
Proof. by destruct r. Qed.

(** [map_or] is [map] with a default, and its result can always be unwrapped. *)
Theorem map_or_unwraps {U V} (convert : V → U) u (f : T → U) r :
  unwrap (map_or convert u f r) = Some (unwrap_or (convert u) (map f r)).
Proof. by destruct r. Qed.

Lemma value_or_unwrap_or v r : value_or id v r = unwrap_or v r.
Proof. by destruct r. Qed.
End laws.
End Result.
