(* ===== verification/Logging.v ===== *)
(** * Logging and the set-up of tracing ([include/pain/base/plog.h], [include/pain/base/spdlog_sink.h],
      [src/base/boost_assert.cc], and [init_tracer] and [cleanup_tracer] of [src/base/tracer.cc])

    [PLOG_INFO((key, value)(key, value)...)] builds a format string from the keys at compile time and
    hands the values to spdlog, the trace id of the bthread in front, unless the level is off, in
    which case nothing is evaluated. brpc's and OpenTelemetry's own messages are forwarded to the
    default logger with their levels translated by tables. [fmt::format] is third-party
    ([FmtOps]); of spdlog the model keeps the default logger and what was handed to it. *)
From S2P Require Import Prelude.
From Stdlib Require Import Strings.Ascii.
Set Default Goal Selector "!".
Local Open Scope Z_scope.

(** [fmt::format] with a format string and the printed arguments; [None] is a malformed one. *)
Class FmtOps := { vformat : string → list string → option string }.
Class FmtLaws `{FmtOps} : Prop := {
  vformat_end : vformat "" [] = Some "";
  vformat_char c rest args : c ≠ "{"%char → c ≠ "}"%char →
    vformat (String c rest) args = String c <$> vformat rest args;
  vformat_arg rest a args : vformat ("{}" +:+ rest) (a :: args) = String.append a <$> vformat rest args;
}.

Module Logging.

(** [spdlog::level::level_enum], in increasing order. *)
Inductive level := trace | debug | info | warn | err | critical | off.
#[export] Instance level_eq_dec : EqDecision level.
Proof. solve_decision. Defined.
Definition level_value (l : level) : nat :=
  match l with trace => 0 | debug => 1 | info => 2 | warn => 3 | err => 4 | critical => 5 | off => 6 end.

(** ** [plog.h] *)

(** [__PLOG_PREPROCESS_PAIRS]: each pair gets another pair of parentheses, by two macros in turn. *)
Section pairs.
Context {V : Type}.
Fixpoint add_paren (one : bool) (seq : list (string * V)) : list (string * V) :=
  match seq with
  | [] => []                                  (* __PLOG_ADD_PAREN_1_END, __PLOG_ADD_PAREN_2_END *)
  | (x, y) :: seq => (x, y) :: add_paren (negb one) seq
  end.
Definition preprocess_pairs (pairs : list (string * V)) : list (string * V) := add_paren true pairs.

(** [__PLOG_PROCESS_KEY_ELEMENT], joined as adjacent string literals. *)
Fixpoint key_elements (idx : nat) (seq : list (string * V)) : string :=
  match seq with
  | [] => ""
  | (key, _) :: seq => (if (idx =? 0)%nat then "" else " ") +:+ key +:+ ":{}" +:+ key_elements (S idx) seq
  end.
Definition plog_format (seq : list (string * V)) : string := key_elements 0 (preprocess_pairs seq).
(** [__PLOG_PROCESS_VALUE_ELEMENT]. *)
Definition plog_values (seq : list (string * V)) : list V := snd <$> preprocess_pairs seq.
End pairs.

Section plog.
Context `{FmtOps} {S : Type}.

Fixpoint evaluate (vs : list (Prog S string)) : Prog S (list string) :=
  match vs with [] => mret [] | v :: vs => a ← v; l ← evaluate vs; mret (a :: l) end.

(** [__PLOG(LEVEL, seq)]: the message, or nothing when [SPDLOG_ACTIVE_LEVEL] compiles it out. *)
Definition __PLOG (active_level l : level) (seq : list (string * Prog S string)) : Prog S (option string) :=
  if (level_value l <? level_value active_level)%nat then mret None else
  args ← evaluate (plog_values seq);
  match vformat (plog_format seq) args with
  | Some message => mret (Some message)
  | None => abort
  end.
(** [__TRACE_PLOG]. *)
Definition __TRACE_PLOG (active_level l : level) (trace_id : Prog S string)
    (seq : list (string * Prog S string)) : Prog S (option string) :=
  __PLOG active_level l (("trace_id", trace_id) :: seq).
(** [PLOG_TRACE], ..., [PLOG_CRITICAL]; [spdlog::should_log] compares with the default logger's level. *)
Definition PLOG (active_level logger_level l : level) (trace_id : Prog S string)
    (seq : list (string * Prog S string)) : Prog S (option string) :=
  if (level_value logger_level <=? level_value l)%nat then __TRACE_PLOG active_level l trace_id seq
  else mret None.
End plog.

(** [pfmt(seq)]: a format string and its arguments. *)
Definition pfmt {V} (seq : list (string * V)) : string * list V := (plog_format seq, plog_values seq).

(** ** The default logger *)
Record LoggerOptions := mkLoggerOptions {
  file_name : string; name : string; file_size : Z; flush_period : Z; level_log : level;
  rotate : Z; queue_size : Z; async_threads : Z;
}.
(** The defaults of the fields that the servers do not set. *)
Definition logger_options (file_name name : string) (l : level) : LoggerOptions :=
  mkLoggerOptions file_name name (Z.shiftl 100 20) 2 l 10 (Z.shiftl 32 10) 1.

(** Calls of spdlog, in order. *)
Inductive Call :=
| RotatingSink (file : string) (size max_files : Z) (rotate_on_open : bool)
| InitThreadPool (queue threads : Z)
| SetDefaultLogger (name : string) (block_on_overflow : bool)
| SetPattern (pattern : string)
| SetLevel (l : level)
| FlushOn (l : level)
| FlushEvery (seconds : Z)
| Log (l : level) (file : string) (line : Z) (message : string)
| Flush
| Shutdown
| PrintError (text : string)
| PrintStack
| BreakDebugger.
Definition Calls := list Call.
Definition call (c : Call) : Prog Calls unit := modify (λ l, l ++ [c]).

(** [make_logger]: the calls, and what its result does when it is destroyed. *)
Definition make_logger (o : LoggerOptions) : Prog Calls (Prog Calls unit) :=
  call (RotatingSink (file_name o) (file_size o) (rotate o) false);;
  call (InitThreadPool (queue_size o) (async_threads o));;
  call (SetDefaultLogger (name o) true);;
  call (SetPattern "[%Y-%m-%d %H:%M:%S.%e] [%t] [%n] [%^%l%$] %s:%# %v");;
  call (SetLevel (level_log o));;
  call (FlushOn err);;
  call (FlushEvery (flush_period o));;
  mret (call Flush;; call Shutdown).

(** [SpdlogSink::OnLogMessage]. *)
Definition severity_to_level : list level := [debug; info; warn; err; critical].
Definition BLOG_FATAL : Z := 4.
Definition OnLogMessage (severity : Z) (file : string) (line : Z) (content : string) : Prog Calls bool :=
  let severity := if severity <? 0 then 0 else severity in
  match severity_to_level !! Z.to_nat severity with
  | None => abort
  | Some level =>
      call (Log level file line content);;
      (if severity =? BLOG_FATAL then call Flush else mret tt);;
      mret true
  end.

(** [TraceLogHandle::Handle]: the levels of OpenTelemetry are None, Error, Warning, Info, Debug. *)
Definition levels : list level := [debug; err; warn; debug; trace].
Definition Handle (l : Z) (file : string) (line : Z) (msg : string) : Prog Calls unit :=
  if l <? 0 then abort else
  match levels !! Z.to_nat l with
  | None => abort
  | Some level => call (Log level file line msg)
  end.

(** [boost::assertion_failed], [boost::assertion_failed_msg], with one logger registered. *)
Definition assertion_failed (expr function file : string) (line : Z) : Prog Calls unit :=
  call Flush;;
  call (PrintError ("Assertion failed: " +:+ expr +:+ " in function " +:+ function +:+ " at " +:+ file +:+ ":" +:+ fmt_u line));;
  call PrintStack;;
  call BreakDebugger.
Definition assertion_failed_msg (expr msg function file : string) (line : Z) : Prog Calls unit :=
  call Flush;;
  call (PrintError ("Assertion failed: " +:+ expr +:+ " (" +:+ msg +:+ ") in function " +:+ function +:+ " at " +:+ file +:+ ":" +:+ fmt_u line));;
  call PrintStack;;
  call BreakDebugger.

(** ** [init_tracer], [cleanup_tracer] *)
Record TracerFlags := mkTracerFlags {
  http_exporter_url : string; http_exporter_enable : bool;
  file_exporter_enable : bool; file_exporter_path : string;
}.
(** The values the flags are defined with. *)
Definition default_tracer_flags : TracerFlags :=
  mkTracerFlags "http://localhost:4318/v1/traces" true false "trace_exporter".

Inductive Exporter := HttpExporter (url : string) | FileExporter (file : string).
(** OpenTelemetry's globals, and the function's static stream by the file it has opened. *)
Record Globals := mkGlobals {
  log_handler : bool; internal_log_debug : bool; bthread_storage : bool;
  provider : option (string * list Exporter);
  http_propagator : bool;
  s_out : option string;
}.

Definition init_tracer (flags : TracerFlags) (service_name : string) : Prog Globals unit :=
  g ← get;
  let http := if http_exporter_enable flags then [HttpExporter (http_exporter_url flags)] else [] in
  let opened := (file_exporter_path flags +:+ "." +:+ service_name +:+ ".otlp") in
  let out := default opened (s_out g) in
  let file := if file_exporter_enable flags then [FileExporter out] else [] in
  put (mkGlobals true true true (Some (service_name, http ++ file)) true
         (if file_exporter_enable flags then Some out else s_out g)).
Definition cleanup_tracer : Prog Globals unit :=
  modify (λ g, mkGlobals (log_handler g) (internal_log_debug g) false None (http_propagator g) (s_out g)).

(** ** Theorems *)
Section plog_theorems.
Context `{FmtLaws} {St : Type}.
Implicit Types (seq : list (string * Prog St string)).

Fixpoint no_braces (s : string) : bool :=
  match s with
  | EmptyString => true
  | String c s => negb (Ascii.eqb c "{"%char) && negb (Ascii.eqb c "}"%char) && no_braces s
  end.

Lemma vformat_text k rest args : no_braces k = true → vformat (k +:+ rest) args = String.append k <$> vformat rest args.
Proof.
  induction k as [|c k IH]; intros Hk.
  - change ("" +:+ rest) with rest. by destruct (vformat rest args).
  - cbn in Hk. apply andb_true_iff in Hk as [[H1 H2]%andb_true_iff Hk].
    change (String c k +:+ rest) with (String c (k +:+ rest)).
    rewrite vformat_char; [|by intros ->|by intros ->]. rewrite IH by done. by destruct (vformat rest args).
Qed.

Lemma preprocess_pairs_id {V} (seq : list (string * V)) : preprocess_pairs seq = seq.
Proof.
  unfold preprocess_pairs. generalize true. induction seq as [|[x y] seq IH]; intros b; [done|]. cbn. by rewrite IH.
Qed.

(** The message: [key:value] for every pair, with blanks between them. *)
Fixpoint message (idx : nat) (kvs : list (string * string)) : string :=
  match kvs with
  | [] => ""
  | (k, v) :: kvs => (if (idx =? 0)%nat then "" else " ") +:+ k +:+ ":" +:+ v +:+ message (S idx) kvs
  end.

Lemma vformat_keys idx (kvs : list (string * string)) :
  Forall (λ kv, no_braces kv.1 = true) kvs →
  vformat (key_elements idx kvs) (snd <$> kvs) = Some (message idx kvs).
Proof.
  intros Hk. revert idx. induction Hk as [|[k v] kvs Hk _ IH]; intros idx; cbn [key_elements message fmap list_fmap].
  - apply vformat_end.
  - cbn in Hk. rewrite vformat_text by (by destruct (idx =? 0)%nat). rewrite vformat_text by done.
    change (":{}" +:+ key_elements (S idx) kvs) with (":" +:+ ("{}" +:+ key_elements (S idx) kvs)).
    rewrite vformat_text, vformat_arg by done. cbn [snd]. by rewrite IH.
Qed.

Lemma evaluate_length (vs : list (Prog St string)) s args s' :
  evaluate vs s = Some (args, s') → length args = length vs.
Proof.
  revert s args s'. induction vs as [|v vs IH]; intros s args s' E; cbn in E; [by injection E as <- <-|].
  apply bind_Some in E as (a&s1&_&E). apply bind_Some in E as (l&s2&Hl&E). injection E as <- <-.
  cbn. f_equal. by eapply IH.
Qed.

(** When the level of a line is on, and its keys hold no braces, the line is made of the trace id
    and the pairs, in their order, each as key:value; when it is off nothing of it is evaluated. *)
Theorem plog_line active_level logger_level l trace_id seq (s s' : St) args :
  Forall (λ kv, no_braces kv.1 = true) seq →
  evaluate (trace_id :: seq.*2) s = Some (args, s') →
  PLOG active_level logger_level l trace_id seq s =
    if decide (level_value logger_level <= level_value l ∧ level_value active_level <= level_value l)%nat
    then Some (Some (message 0 (zip ("trace_id" :: seq.*1) args)), s')
    else Some (None, s).
Proof.
  intros Hk He. unfold PLOG. destruct (Nat.leb_spec (level_value logger_level) (level_value l)) as [Hon|Hoff].
  2: { rewrite decide_False by lia. done. }
  unfold __TRACE_PLOG, __PLOG. destruct (Nat.ltb_spec (level_value l) (level_value active_level)) as [Hc|Hc].
  { rewrite decide_False by lia. done. }
  rewrite decide_True by lia. unfold plog_values, plog_format. rewrite preprocess_pairs_id.
  change (snd <$> ("trace_id", trace_id) :: seq) with (trace_id :: seq.*2). erewrite bind_step by exact He.
  pose proof (evaluate_length _ _ _ _ He) as Hl. cbn in Hl. rewrite length_fmap in Hl.
  assert (Ekeys : ∀ idx (kvs : list (string * Prog St string)) (vs : list string), length vs = length kvs →
    key_elements idx kvs = key_elements idx (zip kvs.*1 vs)).
  { intros idx kvs. revert idx. induction kvs as [|[k v] kvs IH]; intros idx [|v' vs] Hlen; [done..|]. cbn in *.
    by rewrite (IH _ vs) by lia. }
  rewrite (Ekeys _ _ args) by (cbn; lia). change ((("trace_id", trace_id) :: seq).*1) with ("trace_id" :: seq.*1).
  assert (Eargs : snd <$> zip ("trace_id" :: seq.*1) args = args) by (apply snd_zip; cbn; rewrite length_fmap; lia).
  pose proof (vformat_keys 0 (zip ("trace_id" :: seq.*1) args)) as Ev. rewrite Eargs in Ev. rewrite Ev; [done|].
  apply (Forall_fmap fst (λ k, no_braces k = true)). rewrite fst_zip by (cbn; rewrite length_fmap; lia).
  constructor; [done|]. by apply Forall_fmap.
Qed.
End plog_theorems.

(** Messages of brpc: the sink takes all severities up to that of FATAL, which it flushes, and tells
    brpc that nothing is left to do; the table ends there. *)
Theorem sink_forwards severity file line content l :
  OnLogMessage severity file line content l =
    if decide (severity <= BLOG_FATAL)
    then Some (true, l ++ [Log (default off (severity_to_level !! Z.to_nat severity)) file line content] ++
                     (if decide (severity = BLOG_FATAL) then [Flush] else []))
    else None.
Proof.
  unfold OnLogMessage, BLOG_FATAL. case_decide as Hs.
  - assert (Hc : severity < 0 ∨ severity = 0 ∨ severity = 1 ∨ severity = 2 ∨ severity = 3 ∨ severity = 4) by lia.
    destruct Hc as [Hneg|Hc].
    + rewrite (proj2 (Z.ltb_lt _ _)) by done. replace (Z.to_nat severity) with 0%nat by lia.
      rewrite decide_False by lia. by rewrite app_nil_r.
    + destruct Hc as [->|[->|[->|[->| ->]]]]; [reflexivity..|].
      change (Some (true, (l ++ [Log critical file line content]) ++ [Flush]) =
              Some (true, l ++ [Log critical file line content] ++ [Flush])). by rewrite <- app_assoc.
  - rewrite (proj2 (Z.ltb_ge _ _)) by lia. by rewrite (lookup_ge_None_2 severity_to_level) by (cbn; lia).
Qed.

(** More severe messages of brpc get higher levels. *)
Lemma sink_monotone i j a b :
  (i <= j)%nat → severity_to_level !! i = Some a → severity_to_level !! j = Some b →
  (level_value a <= level_value b)%nat.
Proof.
  intros Hij. do 5 (destruct i as [|i]; [do 5 (destruct j as [|j]; [cbn; intros [= <-] [= <-]; cbn in *; lia|]); done|]). done.
Qed.

(** The file exporter keeps writing to the file of its first use, whatever is initialised later. *)
Theorem exporter_file_fixed flags flags' service service' g g1 g2 :
  file_exporter_enable flags = true → file_exporter_enable flags' = true → s_out g = None →
  init_tracer flags service g = Some (tt, g1) → init_tracer flags' service' g1 = Some (tt, g2) →
  FileExporter (file_exporter_path flags +:+ "." +:+ service +:+ ".otlp") ∈ default [] (snd <$> provider g2) ∧
  fst <$> provider g2 = Some service'.
Proof.
  intros Hf Hf' Hn E1 E2. unfold init_tracer in *. prog_inv. rewrite Hf, Hf', Hn. cbn. split; [|done].
  apply elem_of_app. right. by left.
Qed.

(** After [cleanup_tracer] no provider and no context storage is left. *)
Lemma cleanup_leaves_none g g' : cleanup_tracer g = Some (tt, g') → provider g' = None ∧ bthread_storage g' = false.
Proof. intros [= <-]. done. Qed.

(** ** Witnesses *)
Module Witness.
Fixpoint format (s : string) (args : list string) : option string :=
  match s with
  | EmptyString => Some ""
  | String c rest =>
      if Ascii.eqb c "{"%char then
        match rest, args with
        | String d rest, a :: args => if Ascii.eqb d "}"%char then String.append a <$> format rest args else None
        | _, _ => None
        end
      else if Ascii.eqb c "}"%char then None
      else String c <$> format rest args
  end.
#[local] Instance fmt_ops : FmtOps := {| vformat := format |}.
#[local] Instance fmt_laws : FmtLaws.
Proof.
  split; [done| |done]. intros c rest args H1 H2. cbn.
  by rewrite (proj2 (Ascii.eqb_neq c _) H1), (proj2 (Ascii.eqb_neq c _) H2).
Qed.

Definition line : list (string * Prog nat string) :=
  [("desc", mret "opened"); ("calls", n ← get; put (S n);; mret (fmt_u (Z.of_nat n)))].

Lemma plog_line_witness :
  PLOG trace info warn (mret "0af7") line 3%nat = Some (Some "trace_id:0af7 desc:opened calls:3", 4%nat) ∧
  PLOG trace info debug (mret "0af7") line 3%nat = Some (None, 3%nat).
Proof.
  split; (rewrite (plog_line trace info _ (mret "0af7") line 3%nat 4%nat ["0af7"; "opened"; "3"]);
    [|by repeat constructor|by vm_compute]).
  - rewrite decide_True by (cbn; lia). vm_compute. reflexivity.
  - rewrite decide_False by (cbn; lia). reflexivity.
Defined.

Lemma exporter_file_fixed_witness :
  ∃ g, FileExporter "trace_exporter.deva.otlp" ∈ default [] (snd <$> provider g) ∧ fst <$> provider g = Some "asura".
Proof.
  set (flags := mkTracerFlags "" false true "trace_exporter").
  set (g0 := mkGlobals false false false None false None).
  destruct (init_tracer flags "deva" g0) as [[[] g1]|] eqn:E1; [|done].
  destruct (init_tracer flags "asura" g1) as [[[] g2]|] eqn:E2; [|done].
  exists g2. exact (exporter_file_fixed flags flags "deva" "asura" g0 g1 g2 eq_refl eq_refl eq_refl E1 E2).
Defined.
End Witness.
End Logging.
