(* ===== verification/ContextStorage.v ===== *)
(** * Contexts of traces ([src/base/bthread_local_context_storage.cc],
    [include/pain/base/bthread_local_context_storage.h], [include/pain/base/bthread_local.h])

    The servers keep the context of the current span in a stack per bthread: [Stack] is an
    array that grows, [BthreadLocal] hands every bthread a stack of its own, made when it is
    first asked for, and [BthreadLocalContextStorage] attaches and detaches contexts. Contexts
    and tokens are OpenTelemetry's ([ContextOps]); the table of bthread-specific pointers is
    bthread's ([KeyOps]); making the key and setting its entry for a bthread may fail. A
    reference to a slot outside of an array is a failure of the program. *)
From S2P Require Import Prelude.
From stdpp Require Import functions.
Set Default Goal Selector "!".
Local Open Scope Z_scope.

Class ContextOps := {
  Context : Type;
  Token : Type;
  empty_context : Context;                  (* Context() *)
  CreateToken : Context → Token;
  token_eq : Token → Context → bool;        (* Token::operator==(const Context&) *)
}.
Class ContextLaws `{ContextOps} : Prop := {
  token_eq_create c : token_eq (CreateToken c) c = true;
}.

(** What a bthread key holds: for every bthread, nothing or a pointer. *)
Class KeyOps (K : Type) := {
  bthread_key_create : K → Z * K;                    (* 0 or an errno, and the key then *)
  bthread_getspecific : Z → K → option positive;
  bthread_setspecific : Z → positive → K → Z * K;    (* 0 or an errno *)
  bthread_ended : Z → K → K;
}.
Class KeyLaws `{KeyOps K} : Prop := {
  getspecific_created t k :
    fst (bthread_key_create k) = 0 → bthread_getspecific t (snd (bthread_key_create k)) = None;
  getspecific_set t p k :
    fst (bthread_setspecific t p k) = 0 →
    bthread_getspecific t (snd (bthread_setspecific t p k)) = Some p;
  getspecific_set_failed t t' p k :
    fst (bthread_setspecific t p k) ≠ 0 →
    bthread_getspecific t' (snd (bthread_setspecific t p k)) = bthread_getspecific t' k;
  getspecific_set_other t t' p k :
    t ≠ t' → bthread_getspecific t' (snd (bthread_setspecific t p k)) = bthread_getspecific t' k;
  getspecific_ended t k : bthread_getspecific t (bthread_ended t k) = None;
  getspecific_ended_other t t' k :
    t ≠ t' → bthread_getspecific t' (bthread_ended t k) = bthread_getspecific t' k;
}.

Module ContextStorage.

(** ** [BthreadLocalContextStorage::Stack] *)
Section stack.
Context `{ContextOps}.

(** The members of [Stack]; [base_] is null or an array of [capacity_] contexts. *)
Record Stack := mkStack { size_ : Z; capacity_ : Z; base_ : option (list Context) }.

(** [Stack::Stack]. *)
Definition new_stack : Stack := mkStack 0 0 None.

(** [base_[i]], read and written. *)
Definition slot (i : Z) : Prog Stack Context :=
  s ← get;
  match base_ s ≫= (λ a, a !! Z.to_nat i) with Some c => mret c | None => abort end.
Definition set_slot (i : Z) (c : Context) : Prog Stack unit :=
  s ← get;
  match base_ s with
  | Some a =>
      if decide (Z.to_nat i < length a)%nat
      then put (mkStack (size_ s) (capacity_ s) (Some (<[Z.to_nat i := c]> a)))
      else abort
  | None => abort
  end.
Definition set_size (n : Z) : Prog Stack unit := modify (λ s, mkStack n (capacity_ s) (base_ s)).

(** [Pop]. *)
Definition Pop : Prog Stack unit :=
  size ← gets size_;
  if size =? 0 then mret tt
  else set_slot (u64 (size - 1)) empty_context;; set_size (u64 (size - 1)).

(** [Contains]: positions [pos], [pos - 1], ..., 1. *)
Fixpoint contains_loop (token : Token) (pos : nat) : Prog Stack bool :=
  match pos with
  | O => mret false
  | S pos' =>
      c ← slot (Z.of_nat pos');
      if token_eq token c then mret true else contains_loop token pos'
  end.
Definition Contains (token : Token) : Prog Stack bool :=
  size ← gets size_; contains_loop token (Z.to_nat size).

(** [Top]. *)
Definition Top : Prog Stack Context :=
  size ← gets size_;
  if size =? 0 then mret empty_context else slot (u64 (size - 1)).

(** The loop of [Resize]: copies the slots from [i] on into [temp]. *)
Fixpoint copy_loop (fuel : nat) (i limit : Z) (base temp : list Context) : option (list Context) :=
  if i <? limit then
    match fuel, base !! Z.to_nat i with
    | S fuel, Some c =>
        if decide (Z.to_nat i < length temp)%nat
        then copy_loop fuel (i + 1) limit base (<[Z.to_nat i := c]> temp)
        else None
    | _, _ => None
    end
  else Some temp.

(** [Resize]: called with [size_] already counting the context to come. *)
Definition Resize (new_capacity : Z) : Prog Stack unit :=
  s ← get;
  let old_size := u64 (size_ s - 1) in
  let new_capacity := if new_capacity =? 0 then 2 else new_capacity in
  let temp := replicate (Z.to_nat new_capacity) empty_context in
  match base_ s with
  | Some base =>
      match copy_loop (Z.to_nat (Z.min old_size new_capacity)) 0 (Z.min old_size new_capacity) base temp with
      | Some temp => put (mkStack (size_ s) new_capacity (Some temp))
      | None => abort
      end
  | None => put (mkStack (size_ s) new_capacity (Some temp))
  end.

(** [Push]. *)
Definition Push (context : Context) : Prog Stack unit :=
  size ← gets size_;
  let size := u64 (size + 1) in
  set_size size;;
  capacity ← gets capacity_;
  (if capacity <? size then Resize (u64 (size * 2)) else mret tt);;
  set_slot (u64 (size - 1)) context.

End stack.

(** ** [BthreadLocal<T>]

    The objects that pointers refer to, and the key. *)
Section bthread_local.
Context `{KeyOps K} {T : Type}.

Record BthreadLocal := mkBthreadLocal { objects : gmap positive T; _tls_key : K }.

(** [BthreadLocal::BthreadLocal], from what the member holds before: whether the key could be
    made is not looked at. A key that could not be made has no entries, and none can be set. *)
Definition new_bthread_local (key : K) : BthreadLocal :=
  let '(_, key) := bthread_key_create key in mkBthreadLocal ∅ key.

(** [get]. *)
Definition get_pointer (t : Z) : Prog BthreadLocal (option positive) :=
  gets (λ l, bthread_getspecific t (_tls_key l)).

(** [set]. *)
Definition set_pointer (t : Z) (p : positive) : Prog BthreadLocal Z := λ l,
  let '(e, k) := bthread_setspecific t p (_tls_key l) in
  Some (e, mkBthreadLocal (objects l) k).

(** [new T()]. *)
Definition new_object (x : T) : Prog BthreadLocal positive := λ l,
  let p := fresh (dom (objects l)) in
  Some (p, mkBthreadLocal (<[p := x]> (objects l)) (_tls_key l)).

(** [get_or_create], [operator->] and [operator*]: the result of [set] is not looked at. *)
Definition get_or_create (init : T) (t : Z) : Prog BthreadLocal positive :=
  p ← get_pointer t;
  match p with
  | Some p => mret p
  | None => p ← new_object init; _ ← set_pointer t p; mret p
  end.

(** A member function of the object a pointer refers to. *)
Definition on_object {A} (p : positive) (f : Prog T A) : Prog BthreadLocal A := λ l,
  match objects l !! p with
  | None => None
  | Some x =>
      match f x with
      | Some (a, x') => Some (a, mkBthreadLocal (<[p := x']> (objects l)) (_tls_key l))
      | None => None
      end
  end.

(** The end of a bthread: the destructor given to [bthread_key_create] deletes the object. *)
Definition end_bthread (t : Z) : Prog BthreadLocal unit :=
  p ← get_pointer t;
  modify (λ l, mkBthreadLocal (match p with Some p => delete p (objects l) | None => objects l end)
                              (bthread_ended t (_tls_key l))).
End bthread_local.

(** ** [BthreadLocalContextStorage] *)
Section storage.
Context `{ContextOps} `{KeyOps K}.
Abbreviation Storage := (BthreadLocal (K := K) (T := Stack)).

(** [GetStack()], for the bthread [t] that runs the caller. *)
Definition on_stack {A} (t : Z) (f : Prog Stack A) : Prog Storage A :=
  p ← get_or_create new_stack t; on_object p f.

(** [GetCurrent]. *)
Definition GetCurrent (t : Z) : Prog Storage Context := on_stack t Top.
(** [Attach]. *)
Definition Attach (t : Z) (context : Context) : Prog Storage Token :=
  on_stack t (Push context);; mret (CreateToken context).
(** [Detach], every [GetStack()] of it in its place; its loop pops until the token is on top. *)
Fixpoint pop_until (fuel : nat) (t : Z) (token : Token) : Prog Storage unit :=
  match fuel with
  | O => abort
  | S fuel =>
      top ← on_stack t Top;
      if negb (token_eq token top) then on_stack t Pop;; pop_until fuel t token else mret tt
  end.

Definition stack_size (t : Z) (l : Storage) : nat :=
  match bthread_getspecific t (_tls_key l) ≫= λ p, objects l !! p with
  | Some s => Z.to_nat (size_ s)
  | None => 0
  end.

Definition Detach (t : Z) (token : Token) : Prog Storage bool :=
  top ← on_stack t Top;
  if token_eq token top then on_stack t Pop;; mret true else
  contained ← on_stack t (Contains token);
  if negb contained then mret false else
  size ← gets (stack_size t);
  pop_until (S size) t token;;
  on_stack t Pop;;
  mret true.
End storage.

(** ** The abstract storage: a list of contexts for every bthread, the top first *)
Inductive Op `{ContextOps} :=
| OpGetCurrent (t : Z)
| OpAttach (t : Z) (context : Context)
| OpDetach (t : Z) (token : Token)
| OpEnd (t : Z).
Inductive Reply `{ContextOps} :=
| RContext (context : Context)
| RToken (token : Token)
| RBool (b : bool)
| RUnit.

Section spec.
Context `{ContextOps}.
Implicit Types (l : list Context) (m : Z → list Context).

Definition top l : Context := default empty_context (head l).

(** What is left below the topmost context of the token, if there is one. *)
Fixpoint below (token : Token) l : option (list Context) :=
  match l with
  | [] => None
  | c :: l => if token_eq token c then Some l else below token l
  end.

Definition spec_detach (token : Token) l : bool * list Context :=
  match below token l with
  | Some l' => (true, l')
  | None => (match l with [] => token_eq token empty_context | _ => false end, l)
  end.

Definition spec_step (o : Op) m : Reply * (Z → list Context) :=
  match o with
  | OpGetCurrent t => (RContext (top (m t)), m)
  | OpAttach t c => (RToken (CreateToken c), <[t := c :: m t]> m)
  | OpDetach t token => (RBool (fst (spec_detach token (m t))), <[t := snd (spec_detach token (m t))]> m)
  | OpEnd t => (RUnit, <[t := []]> m)
  end.

Fixpoint spec_run (os : list Op) m : list Reply * (Z → list Context) :=
  match os with
  | [] => ([], m)
  | o :: os =>
      let '(r, m) := spec_step o m in
      let '(rs, m) := spec_run os m in (r :: rs, m)
  end.

(** Unless setting the key is [reliable], the context that a bthread attaches when it has none
    may be lost. *)
Inductive may_step (reliable : bool) (o : Op) m : Reply → (Z → list Context) → Prop :=
| may_do : may_step reliable o m (fst (spec_step o m)) (snd (spec_step o m))
| may_lose t c :
    reliable = false → o = OpAttach t c → m t = [] →
    may_step reliable o m (RToken (CreateToken c)) m.

Inductive may_run (reliable : bool) : list Op → (Z → list Context) →
    list Reply → (Z → list Context) → Prop :=
| may_run_nil m : may_run reliable [] m [] m
| may_run_cons o os m r m1 rs m2 :
    may_step reliable o m r m1 → may_run reliable os m1 rs m2 → may_run reliable (o :: os) m (r :: rs) m2.

Lemma may_run_reliable os m rs m' : may_run true os m rs m' → spec_run os m = (rs, m').
Proof.
  induction 1 as [|o os m r m1 rs m2 Hs _ IH]; [done|]. cbn [spec_run].
  destruct Hs as [|t c [=]]. destruct (spec_step o m) as [r m1]. cbn [fst snd] in IH. by rewrite IH.
Qed.
End spec.

Section run.
Context `{ContextOps} `{KeyOps K}.
Abbreviation Storage := (BthreadLocal (K := K) (T := Stack)).

Definition step (o : Op) : Prog Storage Reply :=
  match o with
  | OpGetCurrent t => c ← GetCurrent t; mret (RContext c)
  | OpAttach t c => token ← Attach t c; mret (RToken token)
  | OpDetach t token => b ← Detach t token; mret (RBool b)
  | OpEnd t => end_bthread t;; mret RUnit
  end.

Fixpoint run (os : list Op) : Prog Storage (list Reply) :=
  match os with
  | [] => mret []
  | o :: os => r ← step o; rs ← run os; mret (r :: rs)
  end.
End run.

(** ** Lemmas: the array holds the list, bottom first *)
Section stack_lemmas.
Context `{ContextOps}.
Implicit Types (s : Stack) (l : list Context).

Record stack_rep s l : Prop := {
  rep_size : size_ s = Z.of_nat (length l);
  rep_capacity : size_ s ≤ capacity_ s;
  rep_base : match base_ s with
    | None => capacity_ s = 0
    | Some a => Z.of_nat (length a) = capacity_ s ∧ take (length l) a = reverse l
    end;
}.

(** Sizes that are far from wrapping around. *)
Definition small l : Prop := Z.of_nat (length l) < 2 ^ 62.

Lemma new_stack_rep : stack_rep new_stack [].
Proof. by split. Qed.

Lemma slot_eq s l i c : stack_rep s l → reverse l !! i = Some c → slot (Z.of_nat i) s = Some (c, s).
Proof.
  intros [Hsz Hc Hb] Hi. unfold slot. erewrite bind_step by done.
  pose proof (lookup_lt_Some _ _ _ Hi) as Hlt. rewrite length_reverse in Hlt.
  destruct (base_ s) as [a|]; [|lia]. destruct Hb as [_ Ha].
  assert (a !! i = Some c) as E by (rewrite <-Hi, <-Ha; by rewrite lookup_take_lt).
  cbn [mbind option_bind]. rewrite Nat2Z.id. by rewrite E.
Qed.

Lemma top_slot l c l' : l = c :: l' → reverse l !! length l' = Some c.
Proof.
  intros ->. rewrite reverse_cons, lookup_app_r by (by rewrite length_reverse).
  by rewrite length_reverse, Nat.sub_diag.
Qed.

Lemma size_pred l c : small (c :: l) → u64 (Z.of_nat (length (c :: l)) - 1) = Z.of_nat (length l).
Proof. unfold small. cbn [length]. intros Hs. rewrite u64_small; lia. Qed.

Lemma Top_eq s l : stack_rep s l → small l → Top s = Some (top l, s).
Proof.
  intros Hr Hs. unfold Top. erewrite bind_step by done. rewrite (rep_size _ _ Hr).
  destruct l as [|c l]; [done|]. rewrite size_pred by done.
  replace (Z.of_nat (length (c :: l)) =? 0) with false by done.
  apply (slot_eq s (c :: l)); [done|by apply top_slot].
Qed.

Lemma Pop_wp s l : stack_rep s l → small l → wp Pop s (λ _ s', stack_rep s' (tail l)).
Proof.
  intros Hr Hs. unfold Pop. eapply wp_step; [done|]. rewrite (rep_size _ _ Hr).
  destruct l as [|c l]; [done|]. rewrite size_pred by done.
  replace (Z.of_nat (length (c :: l)) =? 0) with false by done.
  destruct Hr as [Hsz Hc Hb]. unfold set_slot. cbn [length] in *.
  destruct (base_ s) as [a|] eqn:Eb; [|lia]. destruct Hb as [Ha Ht]. rewrite Nat2Z.id.
  assert (length l < length a)%nat by lia.
  eapply wp_step; [erewrite bind_step by done; rewrite Eb; by rewrite decide_True|].
  cbn. split; cbn; [done|lia|]. rewrite length_insert. split; [done|].
  rewrite take_insert_ge by lia. rewrite reverse_cons in Ht.
  rewrite <-(Nat.min_l (length l) (S (length l))), <-take_take by lia.
  rewrite Ht. by rewrite take_app_le, <-(length_reverse l), firstn_all by (rewrite length_reverse; lia).
Qed.

Lemma contains_loop_eq token s l k :
  stack_rep s l → (k <= length l)%nat →
  contains_loop token k s = Some (existsb (token_eq token) (take k (reverse l)), s).
Proof.
  intros Hr. induction k as [|k IH]; intros Hk; [done|]. cbn [contains_loop].
  destruct (lookup_lt_is_Some_2 (reverse l) k) as [c Hc]; [rewrite length_reverse; lia|].
  erewrite bind_step by by eapply slot_eq. rewrite (take_S_r _ _ _ Hc), existsb_app. cbn [existsb].
  rewrite orb_false_r. destruct (token_eq token c); [by rewrite orb_true_r|].
  rewrite orb_false_r. apply IH. lia.
Qed.

Lemma existsb_reverse {A} (f : A → bool) (l : list A) : existsb f (reverse l) = existsb f l.
Proof.
  induction l as [|x l IH]; [done|]. rewrite reverse_cons, existsb_app, IH. cbn.
  by rewrite orb_false_r, orb_comm.
Qed.

Lemma Contains_eq token s l :
  stack_rep s l → Contains token s = Some (existsb (token_eq token) l, s).
Proof.
  intros Hr. unfold Contains. erewrite bind_step by done. rewrite (rep_size _ _ Hr), Nat2Z.id.
  rewrite (contains_loop_eq _ _ l) by done.
  by rewrite <-(length_reverse l), firstn_all, existsb_reverse.
Qed.

(** The copy of a prefix into a larger array. *)
Lemma copy_loop_eq base temp k i n :
  n = (i + k)%nat → (n <= length base)%nat → (n <= length temp)%nat →
  take i temp = take i base →
  ∃ temp', copy_loop k (Z.of_nat i) (Z.of_nat n) base temp = Some temp' ∧
           length temp' = length temp ∧ take n temp' = take n base.
Proof.
  revert temp i; induction k as [|k IH]; intros temp i Hn Hb Ht Hi; cbn [copy_loop].
  - exists temp. replace n with i by lia. by rewrite Z.ltb_irrefl.
  - rewrite (proj2 (Z.ltb_lt _ _)), Nat2Z.id by lia.
    destruct (lookup_lt_is_Some_2 base i) as [c Hc]; [lia|]. rewrite Hc, decide_True by lia.
    replace (Z.of_nat i + 1) with (Z.of_nat (S i)) by lia.
    destruct (IH (<[i := c]> temp) (S i)) as (temp' & E & El & Et); [lia|lia|by rewrite length_insert; lia| |].
    { rewrite (take_S_r _ _ c) by (apply list_lookup_insert_eq; lia).
      by rewrite (take_S_r _ _ c), take_insert_ge, Hi by done. }
    exists temp'. by rewrite El, length_insert.
Qed.

Lemma Resize_wp s l n :
  stack_rep s l → small l → 2 * Z.of_nat (length l) <= n → 0 < n →
  let s1 := mkStack (Z.of_nat (S (length l))) (capacity_ s) (base_ s) in
  wp (Resize n) s1 (λ _ s', ∃ a, s' = mkStack (Z.of_nat (S (length l))) n (Some a) ∧
    Z.of_nat (length a) = n ∧ take (length l) a = reverse l).
Proof.
  intros [Hsz Hc Hb] Hs Hn Hpos s1. unfold Resize. eapply wp_step; [done|].
  cbn [size_ base_ s1]. rewrite (proj2 (Z.eqb_neq _ _)) by lia.
  replace (u64 _) with (Z.of_nat (length l)) by (unfold small in Hs; rewrite u64_small; lia).
  rewrite Z.min_l, Nat2Z.id by lia. destruct (base_ s) as [a|].
  - destruct Hb as [Ha Ht].
    destruct (copy_loop_eq a (replicate (Z.to_nat n) empty_context) (length l) 0 (length l))
      as (a' & E & El & Et); [done|lia|rewrite length_replicate; lia|done|].
    change (Z.of_nat 0) with 0 in E. cbn zeta. rewrite E. eapply wp_eval; [done|]. exists a'. split; [done|].
    rewrite El, length_replicate, Et. split; [lia|done].
  - eapply wp_eval; [done|]. eexists. split; [done|]. rewrite length_replicate.
    destruct l; [|cbn in *; lia]. split; [lia|done].
Qed.

Lemma set_slot_top n cap a l c :
  Z.of_nat (length a) = cap → (length l < length a)%nat → take (length l) a = reverse l →
  n = Z.of_nat (S (length l)) →
  wp (set_slot (Z.of_nat (length l)) c) (mkStack n cap (Some a)) (λ _ s', stack_rep s' (c :: l)).
Proof.
  intros Ha Hl Ht ->. unfold set_slot. eapply wp_step; [done|]. cbn [base_]. rewrite Nat2Z.id, decide_True by done.
  eapply wp_eval; [done|]. split; cbn [size_ capacity_ base_ length]; [done|lia|].
  rewrite length_insert. split; [done|].
  rewrite (take_S_r _ _ c) by by apply list_lookup_insert_eq.
  by rewrite take_insert_ge, Ht, reverse_cons.
Qed.

Lemma Push_wp s l c : stack_rep s l → small l → wp (Push c) s (λ _ s', stack_rep s' (c :: l)).
Proof.
  intros Hr Hs. pose proof Hr as [Hsz Hc Hb]. unfold small in Hs.
  unfold Push. eapply wp_step; [done|]. rewrite Hsz.
  replace (u64 (Z.of_nat (length l) + 1)) with (Z.of_nat (S (length l))) by (rewrite u64_small; lia).
  replace (u64 (Z.of_nat (S (length l)) - 1)) with (Z.of_nat (length l)) by (rewrite u64_small; lia).
  replace (u64 (Z.of_nat (S (length l)) * 2)) with (Z.of_nat (2 * S (length l))) by (rewrite u64_small; lia).
  eapply wp_step; [done|]. eapply wp_step; [done|]. cbn [capacity_].
  apply wp_bind. destruct (Z.ltb_spec (capacity_ s) (Z.of_nat (S (length l)))).
  - eapply wp_mono; [apply (Resize_wp s l (Z.of_nat (2 * S (length l)))); [done|done|lia|lia]|].
    cbv beta. intros _ s' (a & -> & Ea & Et). apply set_slot_top; [done|lia|done|done].
  - eapply wp_eval; [done|]. destruct (base_ s) as [a|]; [|lia]. destruct Hb as [Ha Ht].
    apply set_slot_top; [done|lia|done|done].
Qed.
End stack_lemmas.

Section storage_lemmas.
Context `{ContextOps} `{KeyLaws K}.
Abbreviation Storage := (BthreadLocal (K := K) (T := Stack)).
Implicit Types (g : Storage) (l : list Context) (m : Z → list Context) (t : Z).

Definition pointer g t : option positive := bthread_getspecific t (_tls_key g).

(** The key has room for every bthread. *)
Definition set_succeeds : Prop := ∀ t p (k : K), fst (bthread_setspecific t p k) = 0.

(** Every bthread has a stack that holds its list, of its own; there are no other stacks when
    setting the key is [reliable]. *)
Context (reliable : bool).
Record storage_rep g m : Prop := {
  sr_stack t : match pointer g t with
    | None => m t = []
    | Some p => ∃ s, objects g !! p = Some s ∧ stack_rep s (m t)
    end;
  sr_apart t t' p : pointer g t = Some p → pointer g t' = Some p → t = t';
  sr_owned p : reliable = true → is_Some (objects g !! p) → ∃ t, pointer g t = Some p;
}.

Lemma storage_rep_ext g m m' : (∀ t, m t = m' t) → storage_rep g m → storage_rep g m'.
Proof. intros E [Hs Ha Ho]. split; [|done..]. intros t. rewrite <-E. apply Hs. Qed.

Lemma insert_self t m t' : (<[t := m t]> m) t' = m t'.
Proof.
  destruct (decide (t = t')) as [->|]; [by rewrite fn_lookup_insert|by rewrite fn_lookup_insert_ne].
Qed.

Lemma insert_twice t l l' m t' : (<[t := l']> (<[t := l]> m)) t' = (<[t := l']> m) t'.
Proof.
  destruct (decide (t = t')) as [->|]; [by rewrite !fn_lookup_insert|by rewrite !fn_lookup_insert_ne].
Qed.

Lemma new_storage_rep k : (∀ t, bthread_getspecific t k = None) →
  storage_rep (mkBthreadLocal ∅ k) (λ _, []).
Proof.
  intros Hk. split; unfold pointer; cbn.
  - intros t. by rewrite Hk.
  - intros t t' p. by rewrite Hk.
  - intros p _. rewrite lookup_empty. by intros [? [=]].
Qed.

Lemma new_bthread_local_rep k :
  fst (bthread_key_create k) = 0 → storage_rep (new_bthread_local k) (λ _, []).
Proof.
  intros Hk. unfold new_bthread_local. pose proof (λ t, getspecific_created t k Hk) as Hc.
  destruct (bthread_key_create k) as [e k']. by apply new_storage_rep.
Qed.

(** The stack of one bthread changes. *)
Lemma storage_rep_update g m t p s' l' :
  storage_rep g m → pointer g t = Some p → stack_rep s' l' →
  storage_rep (mkBthreadLocal (<[p := s']> (objects g)) (_tls_key g)) (<[t := l']> m).
Proof.
  intros [Hs Ha Ho] Hp Hs'. split; [|done|]; unfold pointer in *; cbn.
  - intros t'. pose proof (Hs t') as Ht'. destruct (decide (t = t')) as [<-|Hne].
    + rewrite Hp, fn_lookup_insert. exists s'. by rewrite lookup_insert_eq.
    + rewrite fn_lookup_insert_ne by done.
      destruct (bthread_getspecific t' (_tls_key g)) as [p'|] eqn:Ep; [|done].
      assert (p ≠ p') by (intros ->; by apply Hne, (Ha t t' p')).
      by rewrite lookup_insert_ne.
  - intros p' Hrel [x [[<- _]|[_ Hx]]%lookup_insert_Some]; [by exists t|by apply Ho].
Qed.

(** A stack that no bthread owns changes, or is made. *)
Definition unowned g (p : positive) : Prop := ∀ t, pointer g t ≠ Some p.
Lemma storage_rep_unowned g m p s' :
  reliable = false → storage_rep g m → unowned g p →
  storage_rep (mkBthreadLocal (<[p := s']> (objects g)) (_tls_key g)) m.
Proof.
  intros Hrel [Hs Ha Ho] Hp. split; [|done|by rewrite Hrel]. unfold unowned, pointer in *; cbn.
  intros t. pose proof (Hs t) as Ht. destruct (bthread_getspecific t (_tls_key g)) as [q|] eqn:Eq; [|done].
  rewrite lookup_insert_ne; [done|]. intros ->. by apply (Hp t).
Qed.
Lemma storage_rep_key g m k :
  (∀ t, bthread_getspecific t k = pointer g t) → storage_rep g m →
  storage_rep (mkBthreadLocal (objects g) k) m.
Proof.
  intros Hk [Hs Ha Ho]. split; unfold pointer; cbn [objects _tls_key].
  - intros t. rewrite Hk. apply Hs.
  - intros t t' p. rewrite !Hk. apply Ha.
  - intros p Hrel Hp. destruct (Ho p Hrel Hp) as [t Ht]. exists t. by rewrite Hk.
Qed.

Context (set_ok : reliable = true → set_succeeds).

(** The new stack of a bthread, with its key set. *)
Lemma created_rep g m t p k :
  storage_rep g m → pointer g t = None → objects g !! p = None →
  bthread_getspecific t k = Some p → (∀ t', t ≠ t' → bthread_getspecific t' k = pointer g t') →
  storage_rep (mkBthreadLocal (<[p := new_stack]> (objects g)) k) m.
Proof.
  intros [Hs Ha Ho] Ep Hfresh Hset Hother. pose proof (Hs t) as Ht. unfold pointer in *. rewrite Ep in Ht.
  assert (∀ t', t ≠ t' → bthread_getspecific t' k ≠ Some p) as Hnew.
  { intros t' Hne E. rewrite Hother in E by done. specialize (Hs t'). rewrite E in Hs.
    destruct Hs as (s & Hs & _). by rewrite Hfresh in Hs. }
  split; unfold pointer; cbn.
  - intros t'. destruct (decide (t = t')) as [<-|Hne].
    + rewrite Hset, Ht. exists new_stack. rewrite lookup_insert_eq. by split; [|apply new_stack_rep].
    + rewrite Hother by done. specialize (Hs t').
      destruct (bthread_getspecific t' (_tls_key g)) as [p'|] eqn:Ep'; [|done].
      rewrite lookup_insert_ne; [done|]. intros <-. by apply (Hnew t'); [|rewrite Hother].
  - intros t1 t2 q E1 E2. destruct (decide (t = t1)) as [<-|Hn1], (decide (t = t2)) as [<-|Hn2]; [done|..].
    + rewrite Hset in E1. injection E1 as <-. by destruct (Hnew t2 Hn2).
    + rewrite Hset in E2. injection E2 as <-. by destruct (Hnew t1 Hn1).
    + rewrite Hother in E1, E2 by done. by eapply Ha.
  - intros q Hrel [x [[<- _]|[_ Hx]]%lookup_insert_Some]; [by exists t|].
    destruct (Ho q Hrel) as [t' Ht']; [by exists x|]. exists t'. rewrite Hother; [done|].
    intros <-. by rewrite Ep in Ht'.
Qed.

(** The stack that [get_or_create] finds or makes: that of the bthread, or a new one that
    nothing else refers to. *)
Definition lost g m t (p : positive) : Prop :=
  reliable = false ∧ m t = [] ∧ objects g !! p = Some new_stack ∧ unowned g p.

Lemma get_or_create_wp g m t :
  storage_rep g m →
  wp (get_or_create new_stack t) g (λ p g', storage_rep g' m ∧ (pointer g' t = Some p ∨ lost g' m t p)).
Proof.
  intros Hrep. pose proof (sr_stack _ _ Hrep t) as Ht. unfold pointer in *.
  unfold get_or_create. eapply wp_step; [done|].
  destruct (bthread_getspecific t (_tls_key g)) as [p|] eqn:Ep; [by eapply wp_eval; [|eauto]|].
  set (p := fresh (dom (objects g))).
  assert (objects g !! p = None) as Hfresh by apply not_elem_of_dom, is_fresh.
  eapply wp_step; [done|]. unfold set_pointer. apply wp_bind. fold p. unfold wp at 1. cbn.
  pose proof (set_ok) as Hok. pose proof (getspecific_set t p (_tls_key g)) as Hset.
  pose proof (λ t', getspecific_set_other t t' p (_tls_key g)) as Hother.
  pose proof (λ t', getspecific_set_failed t t' p (_tls_key g)) as Hfailed.
  specialize (λ E, Hok E t p (_tls_key g)).
  destruct (bthread_setspecific t p (_tls_key g)) as [e k]. cbn in *.
  destruct (decide (e = 0)) as [He|He].
  { specialize (Hset He). split; [by apply (created_rep g m t)|by left]. }
  assert (reliable = false) as Hrel by (destruct reliable; [by destruct He; apply Hok|done]).
  assert (unowned g p) as Hun.
  { intros t' E. pose proof (sr_stack _ _ Hrep t') as Hs. rewrite E in Hs.
    destruct Hs as (s & Hs & _). by rewrite Hfresh in Hs. }
  split.
  - change (<[p:=new_stack]> (objects g))
      with (objects (mkBthreadLocal (<[p:=new_stack]> (objects g)) (_tls_key g))).
    apply storage_rep_key; [intros t'; by apply Hfailed|]. by apply storage_rep_unowned.
  - right. split_and!; [done|done|apply lookup_insert_eq|]. intros t'. unfold pointer. cbn.
    rewrite Hfailed by done. apply Hun.
Qed.

Lemma on_stack_wp {A} g m t (f : Prog Stack A) l' (Q : A → Prop) :
  storage_rep g m →
  (∀ s, stack_rep s (m t) → wp f s (λ a s', stack_rep s' l' ∧ Q a)) →
  wp (on_stack t f) g (λ a g', (storage_rep g' (<[t := l']> m) ∨
    (reliable = false ∧ m t = [] ∧ storage_rep g' m)) ∧ Q a).
Proof.
  intros Hrep Hf. unfold on_stack. apply wp_bind. eapply wp_mono; [by apply get_or_create_wp|].
  cbv beta. intros p g' [Hrep' [Hp|(Hrel & Hm & Hs & Hun)]].
  - pose proof (sr_stack _ _ Hrep' t) as Ht. rewrite Hp in Ht.
    destruct Ht as (s & Hs & Hsr). specialize (Hf s Hsr). unfold on_object, wp in *. rewrite Hs.
    destruct (f s) as [[a s']|]; [|done]. destruct Hf as [Hs' HQ].
    split; [left; by apply storage_rep_update|done].
  - specialize (Hf new_stack). rewrite Hm in Hf. specialize (Hf new_stack_rep).
    unfold on_object, wp in *. rewrite Hs. destruct (f new_stack) as [[a s']|]; [|done].
    destruct Hf as [Hs' HQ]. split; [right; split_and!; [done|done|by apply storage_rep_unowned]|done].
Qed.

(** A member function that adds nothing to an empty stack. *)
Lemma on_stack_kept {A} g m t (f : Prog Stack A) l' (Q : A → Prop) :
  storage_rep g m → (m t = [] → l' = []) →
  (∀ s, stack_rep s (m t) → wp f s (λ a s', stack_rep s' l' ∧ Q a)) →
  wp (on_stack t f) g (λ a g', storage_rep g' (<[t := l']> m) ∧ Q a).
Proof.
  intros Hrep Hl Hf. eapply wp_mono; [by apply (on_stack_wp g m t f l' Q)|]. cbv beta.
  intros a g' [[Hg|(_ & Hm & Hg)] HQ]; (split; [|done]); [done|].
  rewrite (Hl Hm), <-Hm. eapply storage_rep_ext; [|exact Hg]. intros t'. by rewrite insert_self.
Qed.

(** A member function that leaves the stack as it is. *)
Lemma on_stack_read {A} g m t (f : Prog Stack A) a :
  storage_rep g m → (∀ s, stack_rep s (m t) → f s = Some (a, s)) →
  wp (on_stack t f) g (λ a' g', storage_rep g' m ∧ a' = a).
Proof.
  intros Hrep Hf. eapply wp_mono.
  - apply (on_stack_kept g m t f (m t) (λ a', a' = a)); [done|done|]. intros s Hs.
    by eapply wp_eval; [apply Hf|].
  - cbv beta. intros a' g' [Hg ->]. split; [|done].
    eapply storage_rep_ext; [|done]. apply insert_self.
Qed.

Lemma stack_size_eq g m t : storage_rep g m → stack_size t g = length (m t).
Proof.
  intros [Hs _ _]. specialize (Hs t). unfold stack_size, pointer in *.
  destruct (bthread_getspecific t (_tls_key g)) as [p|]; [|by rewrite Hs].
  destruct Hs as (s & Hs & Hr). cbn. by rewrite Hs, (rep_size _ _ Hr), Nat2Z.id.
Qed.

Lemma existsb_below token l : existsb (token_eq token) l = bool_decide (is_Some (below token l)).
Proof.
  induction l as [|c l IH]; [done|]. cbn. by destruct (token_eq token c).
Qed.

Lemma pop_until_wp fuel token l' t g m :
  storage_rep g m → small (m t) → below token (m t) = Some l' → (length (m t) <= fuel)%nat →
  wp (pop_until fuel t token) g (λ _ g', ∃ c, storage_rep g' (<[t := c :: l']> m)).
Proof.
  revert g m. induction fuel as [|fuel IH]; intros g m Hrep Hs Hb Hf.
  { destruct (m t) as [|c l]; [done|]. cbn in Hf. lia. }
  cbn [pop_until]. apply wp_bind.
  eapply wp_mono; [apply (on_stack_read g m t Top (top (m t))); [done|]; intros s Hsr; by apply Top_eq|].
  cbv beta. intros _ g1 [Hrep1 ->]. destruct (m t) as [|c l] eqn:Em; [done|]. cbn in Hb |- *.
  destruct (token_eq token c) eqn:Et; cbn [negb].
  - injection Hb as ->. eapply wp_eval; [done|]. exists c. rewrite <-Em.
    eapply storage_rep_ext; [|exact Hrep1]. intros t'. by rewrite insert_self.
  - apply wp_bind. eapply wp_mono.
    { apply (on_stack_kept g1 m t Pop l (λ _, True)); [done|by rewrite Em|]. rewrite Em. intros s Hsr.
      eapply wp_mono; [by apply (Pop_wp s (c :: l))|]. cbv beta. by intros _ s' Hs'. }
    cbv beta. intros _ g2 [Hrep2 _].
    eapply wp_mono; [apply (IH g2 (<[t := l]> m)); [done|..]|].
    + rewrite fn_lookup_insert. unfold small in *. cbn in Hs. lia.
    + by rewrite fn_lookup_insert.
    + rewrite fn_lookup_insert. cbn in Hf. lia.
    + cbv beta. intros _ g3 [c' Hc']. exists c'. eapply storage_rep_ext; [|exact Hc'].
      intros t'. apply insert_twice.
Qed.

Lemma Detach_wp g m t token :
  storage_rep g m → small (m t) →
  wp (Detach t token) g (λ b g',
    storage_rep g' (<[t := snd (spec_detach token (m t))]> m) ∧ b = fst (spec_detach token (m t))).
Proof.
  intros Hrep Hs. unfold Detach. apply wp_bind.
  eapply wp_mono; [apply (on_stack_read g m t Top (top (m t))); [done|]; intros s Hsr; by apply Top_eq|].
  cbv beta. intros _ g1 [Hrep1 ->]. unfold spec_detach.
  assert (∀ l' g', storage_rep g' m → l' = tail (m t) →
    wp (on_stack t Pop;; mret true) g' (λ b g'', storage_rep g'' (<[t := l']> m) ∧ b = true)) as Hpop.
  { intros l' g' Hg' ->. apply wp_bind. eapply wp_mono.
    - apply (on_stack_kept g' m t Pop (tail (m t)) (λ _, True)); [done|by intros ->|]. intros s Hsr.
      eapply wp_mono; [by apply (Pop_wp s (m t))|]. by cbv beta.
    - cbv beta. intros _ g'' [Hg'' _]. by eapply wp_eval. }
  destruct (token_eq token (top (m t))) eqn:Et.
  { destruct (m t) as [|c l] eqn:Em; cbn in Et |- *; rewrite Et; by apply Hpop. }
  apply wp_bind. eapply wp_mono; [apply (on_stack_read g1 m t (Contains token)
    (existsb (token_eq token) (m t))); [done|]; intros s Hsr; by apply Contains_eq|].
  cbv beta. intros _ g2 [Hrep2 ->]. rewrite existsb_below.
  destruct (below token (m t)) as [l'|] eqn:Eb; cbn [is_Some negb].
  - rewrite bool_decide_eq_true_2 by by eexists. cbn [negb]. eapply wp_step; [done|].
    rewrite (stack_size_eq _ m) by done. apply wp_bind.
    eapply wp_mono; [apply (pop_until_wp _ token l' t g2 m); [done|done|done|lia]|].
    cbv beta. intros _ g3 [c Hc]. apply wp_bind. eapply wp_mono.
    { apply (on_stack_kept g3 _ t Pop l' (λ _, True) Hc); rewrite fn_lookup_insert; [done|]. intros s Hsr.
      eapply wp_mono; [apply (Pop_wp s (c :: l')); [done|]|by cbv beta].
      assert (length l' < length (m t))%nat; [|unfold small in *; cbn; lia].
      clear - Eb. revert Eb. induction (m t) as [|x l IH]; [done|]. cbn.
      destruct (token_eq token x); [intros [= ->]; lia|intros E; specialize (IH E); lia]. }
    cbv beta. intros _ g4 [Hg4 _]. eapply wp_eval; [done|]. split; [|done].
    eapply storage_rep_ext; [|exact Hg4]. intros t'. apply insert_twice.
  - rewrite bool_decide_eq_false_2 by (by intros [? [=]]). cbn [negb].
    eapply wp_eval; [done|]. cbn [fst snd]. split.
    + eapply storage_rep_ext; [|exact Hrep2]. intros t'. by rewrite insert_self.
    + by destruct (m t).
Qed.

Lemma end_bthread_wp g m t :
  storage_rep g m → wp (end_bthread t) g (λ _ g', storage_rep g' (<[t := []]> m)).
Proof.
  intros [Hs Ha Ho]. unfold end_bthread. eapply wp_step; [done|]. eapply wp_eval; [done|].
  unfold pointer in *. split; unfold pointer; cbn [objects _tls_key].
  - intros t'. destruct (decide (t = t')) as [<-|Hne].
    + by rewrite getspecific_ended, fn_lookup_insert.
    + rewrite getspecific_ended_other, fn_lookup_insert_ne by done. specialize (Hs t').
      destruct (bthread_getspecific t' (_tls_key g)) as [p'|] eqn:Ep'; [|done].
      destruct (bthread_getspecific t (_tls_key g)) as [p|] eqn:Ep; [|done].
      rewrite lookup_delete_ne; [done|]. intros ->. by apply Hne, (Ha _ _ p').
  - intros t1 t2 p E1 E2.
    destruct (decide (t = t1)) as [<-|Hn1]; [by rewrite getspecific_ended in E1|].
    destruct (decide (t = t2)) as [<-|Hn2]; [by rewrite getspecific_ended in E2|].
    rewrite getspecific_ended_other in E1, E2 by done. by eapply Ha.
  - intros p Hrel Hp. assert (is_Some (objects g !! p) ∧ bthread_getspecific t (_tls_key g) ≠ Some p) as [Hp' Hn].
    { destruct (bthread_getspecific t (_tls_key g)) as [p0|]; [|done].
      destruct Hp as [x [Hne Hx]%lookup_delete_Some]. split; [by exists x|]. by intros [= ->]. }
    destruct (Ho p Hrel Hp') as [t' Ht']. exists t'. rewrite getspecific_ended_other; [done|].
    intros <-. by apply Hn.
Qed.

(** No stack comes near the limit within [n] more operations. *)
Definition room (n : nat) m : Prop := ∀ t, Z.of_nat (length (m t)) + Z.of_nat n < 2 ^ 62.

Lemma room_small n m t : room n m → small (m t).
Proof. intros Hr. specialize (Hr t). unfold small. lia. Qed.

Lemma length_spec_detach token l : (length (snd (spec_detach token l)) <= length l)%nat.
Proof.
  unfold spec_detach. destruct (below token l) as [l'|] eqn:E; [|done]. cbn. revert E.
  induction l as [|x l IH]; [done|]. cbn. destruct (token_eq token x); [intros [= ->]; lia|].
  intros E. specialize (IH E). lia.
Qed.

Lemma room_insert n m t l :
  room (S n) m → (length l <= S (length (m t)))%nat → room n (<[t := l]> m).
Proof.
  intros Hr Hl t'. pose proof (Hr t'). pose proof (Hr t).
  destruct (decide (t = t')) as [<-|]; [rewrite fn_lookup_insert|rewrite fn_lookup_insert_ne by done]; lia.
Qed.

Lemma room_step n o m : room (S n) m → room n (snd (spec_step o m)).
Proof.
  intros Hr. destruct o; cbn [spec_step snd].
  - intros t'. specialize (Hr t'). lia.
  - by apply room_insert.
  - apply room_insert; [done|]. pose proof (length_spec_detach token (m t)). lia.
  - apply room_insert; [done|]. cbn. lia.
Qed.

Lemma GetCurrent_wp g m t :
  storage_rep g m → small (m t) → wp (GetCurrent t) g (λ c g', storage_rep g' m ∧ c = top (m t)).
Proof. intros Hrep Hs. apply on_stack_read; [done|]. intros s Hsr. by apply Top_eq. Qed.

Lemma Attach_wp g m t c :
  storage_rep g m → small (m t) →
  wp (Attach t c) g (λ token g', (storage_rep g' (<[t := c :: m t]> m) ∨
    (reliable = false ∧ m t = [] ∧ storage_rep g' m)) ∧ token = CreateToken c).
Proof.
  intros Hrep Hs. unfold Attach. apply wp_bind. eapply wp_mono.
  { apply (on_stack_wp g m t (Push c) (c :: m t) (λ _, True)); [done|]. intros s Hsr.
    eapply wp_mono; [by apply (Push_wp s (m t))|by cbv beta]. }
  cbv beta. intros _ g' [Hg' _]. by eapply wp_eval.
Qed.

Lemma step_wp o g m n :
  storage_rep g m → room (S n) m →
  wp (step o) g (λ r g', ∃ m', may_step reliable o m r m' ∧ storage_rep g' m' ∧ room n m').
Proof.
  intros Hrep Hroom. pose proof (room_step n o m Hroom) as Hroom'.
  assert (∀ g', storage_rep g' (snd (spec_step o m)) → ∃ m',
    may_step reliable o m (fst (spec_step o m)) m' ∧ storage_rep g' m' ∧ room n m') as Hdo.
  { intros g' Hg'. exists (snd (spec_step o m)). split_and!; [constructor|done|done]. }
  destruct o as [t|t c|t token|t]; cbn [step spec_step fst snd] in *.
  - apply wp_bind. eapply wp_mono; [apply (GetCurrent_wp g m t); [done|by eapply room_small]|].
    cbv beta. intros _ g' [Hg' ->]. by eapply wp_eval; [|apply Hdo].
  - apply wp_bind. eapply wp_mono; [apply (Attach_wp g m t c); [done|by eapply room_small]|].
    cbv beta. intros _ g' [Hg' ->]. eapply wp_eval; [done|].
    destruct Hg' as [Hg'|(Hrel & Hm & Hg')]; [by apply Hdo|]. exists m. split_and!; [|done|].
    + by eapply may_lose.
    + intros t'. specialize (Hroom t'). lia.
  - apply wp_bind. eapply wp_mono; [apply (Detach_wp g m t token); [done|by eapply room_small]|].
    cbv beta. intros b g' [Hg' ->]. by eapply wp_eval; [|apply Hdo].
  - apply wp_bind. eapply wp_mono; [by apply end_bthread_wp|]. cbv beta. intros _ g' Hg'.
    by eapply wp_eval; [|apply Hdo].
Qed.

Lemma run_wp os g m :
  storage_rep g m → room (length os) m →
  wp (run os) g (λ rs g', ∃ m', may_run reliable os m rs m' ∧ storage_rep g' m').
Proof.
  revert g m; induction os as [|o os IH]; intros g m Hrep Hroom.
  { eapply wp_eval; [done|]. exists m. split; [constructor|done]. }
  cbn [run]. apply wp_bind. eapply wp_mono; [by eapply (step_wp o g m (length os))|]. cbv beta.
  intros r g1 (m1 & Hs & Hg1 & Hroom1). apply wp_bind. eapply wp_mono; [by apply (IH g1 m1)|].
  cbv beta. intros rs g2 (m2 & Hr & Hg2). eapply wp_eval; [done|]. exists m2. split; [|done].
  by eapply may_run_cons.
Qed.
End storage_lemmas.
#[global] Arguments storage_rep {_ _ _} reliable g m.

Section theorems.
Context `{ContextOps} `{KeyLaws K}.
Abbreviation Storage := (BthreadLocal (K := K) (T := Stack)).
Implicit Types (g : Storage) (l : list Context) (m : Z → list Context) (t : Z).

(** *** Uses of the storage by scopes: a context attached, a scope, and its token detached. *)
Definition of_other t (o : Op) : Prop :=
  match o with
  | OpGetCurrent _ => True
  | OpAttach t' _ | OpDetach t' _ | OpEnd t' => t' ≠ t
  end.
Inductive scoped t : list Op → Prop :=
| scoped_nil : scoped t []
| scoped_other o os : of_other t o → scoped t os → scoped t (o :: os)
| scoped_scope c os1 os2 : scoped t os1 → scoped t os2 →
    scoped t (OpAttach t c :: os1 ++ OpDetach t (CreateToken c) :: os2).

Lemma spec_run_app os1 os2 m :
  snd (spec_run (os1 ++ os2) m) = snd (spec_run os2 (snd (spec_run os1 m))).
Proof.
  revert m; induction os1 as [|o os1 IH]; intros m; [done|]. cbn. destruct (spec_step o m) as [r m1].
  specialize (IH m1). destruct (spec_run os1 m1) as [? m2]. cbn in *. rewrite <-IH.
  by destruct (spec_run (os1 ++ os2) m1).
Qed.

Lemma spec_run_cons o os m : snd (spec_run (o :: os) m) = snd (spec_run os (snd (spec_step o m))).
Proof. cbn. destruct (spec_step o m) as [r m1]. cbn. by destruct (spec_run os m1). Qed.

Lemma scoped_keeps `{!ContextLaws} t os m : scoped t os → snd (spec_run os m) t = m t.
Proof.
  intros Hs. revert m. induction Hs as [|o os Ho Hs IH|c os1 os2 Hs1 IH1 Hs2 IH2]; intros m; [done|..].
  - rewrite spec_run_cons, IH. destruct o as [t'|t' c|t' k|t']; cbn in *; [done|..];
      by rewrite fn_lookup_insert_ne.
  - rewrite spec_run_cons, spec_run_app, spec_run_cons, IH2. cbn.
    rewrite fn_lookup_insert, IH1, fn_lookup_insert. unfold spec_detach. cbn [below].
    by rewrite token_eq_create.
Qed.

(** What [storage_rep] claims for a key that can always be set includes what it claims for any. *)
Lemma storage_rep_weaken g m : storage_rep true g m → storage_rep false g m.
Proof. intros [Hs Ha _]. by split. Qed.

(** C12: The storage answers any sequence of operations of any bthreads, interleaved
    in any way, as one list of contexts per bthread does - arrays that grow, stacks made on
    demand and their removal when a bthread ends included, as long as no stack comes near 2^62
    contexts ([room]) - but for one thing: the context that a bthread attaches when it has none
    may be lost, because [bthread_setspecific] may fail
    and its result is not looked at. When it never fails the answers are exactly those of the
    lists, and no stack is left without a bthread. *)
Theorem storage_refines os g m :
  storage_rep false g m → room (length os) m →
  wp (run os) g (λ rs g',
    (∃ m', may_run false os m rs m' ∧ storage_rep false g' m') ∧
    (set_succeeds (K := K) → storage_rep true g m →
     rs = fst (spec_run os m) ∧ storage_rep true g' (snd (spec_run os m)))).
Proof.
  intros Hrep Hroom. pose proof (run_wp false ltac:(done) os g m Hrep Hroom) as Hw. unfold wp in *.
  destruct (run os g) as [[rs g']|] eqn:E; [|done]. split; [done|]. intros Hset Hrep1.
  pose proof (run_wp true (λ _, Hset) os g m Hrep1 Hroom) as Hw1. unfold wp in Hw1. rewrite E in Hw1.
  destruct Hw1 as (m' & Hrun & Hg'). by rewrite (may_run_reliable _ _ _ _ Hrun).
Qed.

(** After code that detaches what it attached, whatever other bthreads did
    meanwhile, the current context of a bthread is the one from before, as long as setting the
    key does not fail. *)
Theorem scope_restores `{!ContextLaws} (set_ok : set_succeeds (K := K)) t os g m :
  storage_rep true g m → room (length os) m → scoped t os →
  wp (c ← GetCurrent t; _ ← run os; c' ← GetCurrent t; mret (c, c')) g (λ r _, fst r = snd r).
Proof.
  intros Hrep Hroom Hos.
  assert (∀ g1 m1, storage_rep true g1 m1 → room 0 m1 →
    wp (GetCurrent t) g1 (λ c g2, storage_rep true g2 m1 ∧ c = top (m1 t))) as Hcur.
  { intros g1 m1 Hg1 Hr1. apply (GetCurrent_wp true (λ _, set_ok)); [done|by eapply room_small]. }
  apply wp_bind. eapply wp_mono; [apply (Hcur g m Hrep)|].
  { intros t'. specialize (Hroom t'). lia. }
  cbv beta. intros c g1 [Hg1 ->]. apply wp_bind.
  eapply wp_mono; [by apply (run_wp true (λ _, set_ok) os g1 m)|].
  cbv beta. intros rs g2 (m2 & Hrun%may_run_reliable & Hg2). apply wp_bind.
  eapply wp_mono; [apply (Hcur g2 m2 Hg2)|].
  - assert (∀ os m, room (length os) m → room 0 (snd (spec_run os m))) as Hr.
    { clear. intros os. induction os as [|o os IH]; intros m Hr; [done|]. rewrite spec_run_cons.
      by apply IH, room_step. }
    specialize (Hr os m Hroom). by rewrite Hrun in Hr.
  - cbv beta. intros c' g3 [_ ->]. eapply wp_eval; [done|]. cbn.
    pose proof (scoped_keeps t os m Hos) as Hk. rewrite Hrun in Hk. cbn in Hk. by rewrite Hk.
Qed.
End theorems.

(** When the key cannot be set for a bthread, a context that it attaches is lost, and every
    call leaves one more stack behind. *)
Theorem unset_key_forgets `{ContextOps} `{KeyLaws K} t c (g : BthreadLocal (K := K) (T := Stack)) :
  bthread_getspecific t (_tls_key g) = None →
  (∀ p k, fst (bthread_setspecific t p k) ≠ 0) →
  wp (Attach t c;; GetCurrent t) g (λ c' g',
    c' = empty_context ∧ size (objects g') = (2 + size (objects g))%nat).
Proof.
  intros Hnone Hfail.
  assert (∀ A (f : Prog Stack A) a s (g : BthreadLocal (K := K) (T := Stack)),
    bthread_getspecific t (_tls_key g) = None → f new_stack = Some (a, s) →
    ∃ g', on_stack t f g = Some (a, g') ∧ bthread_getspecific t (_tls_key g') = None ∧
          size (objects g') = S (size (objects g))) as Hon.
  { clear g Hnone. intros A f a s g Hnone Hf. unfold on_stack, get_or_create, set_pointer.
    erewrite bind_step; [|erewrite bind_step by done; rewrite Hnone; cbv iota; erewrite bind_step by done;
      unfold mbind, prog_bind; rewrite (surjective_pairing (bthread_setspecific _ _ _)); reflexivity].
    unfold on_object. cbn [objects _tls_key]. rewrite lookup_insert_eq, Hf.
    eexists. split; [done|]. cbn [objects _tls_key]. split.
    - by rewrite getspecific_set_failed.
    - rewrite insert_insert_eq. apply map_size_insert_None, not_elem_of_dom, is_fresh. }
  unfold Attach. destruct (Hon _ (Push c) tt (mkStack 1 2 (Some [c; empty_context])) g Hnone)
    as (g1 & E1 & Hn1 & Hs1); [by vm_compute|].
  destruct (Hon _ Top empty_context new_stack g1 Hn1) as (g2 & E2 & Hn2 & Hs2); [done|].
  eapply wp_step; [by erewrite bind_step by exact E1|]. eapply wp_eval; [exact E2|].
  split; [done|]. by rewrite Hs2, Hs1.
Qed.

(** ** Witnesses: contexts that are numbers, and a key that is a map *)
Module Witness.
#[local] Instance contexts : ContextOps := {|
  Context := nat; Token := nat; empty_context := 0%nat; CreateToken c := c;
  token_eq k c := bool_decide (k = c);
|}.
#[local] Instance context_laws : ContextLaws.
Proof. split. intros c. by apply bool_decide_eq_true. Qed.

#[local] Instance key : KeyOps (gmap Z positive) := {|
  bthread_key_create _ := (0, ∅);
  bthread_getspecific t k := k !! t;
  bthread_setspecific t p k := (0, <[t := p]> k);
  bthread_ended t k := delete t k;
|}.
#[local] Instance key_laws : KeyLaws.
Proof.
  split; cbn.
  - intros t k _. apply lookup_empty.
  - intros t p k _. apply lookup_insert_eq.
  - done.
  - intros t t' p k Hne. by apply lookup_insert_ne.
  - intros t k. apply lookup_delete_eq.
  - intros t t' k Hne. by apply lookup_delete_ne.
Qed.
Lemma key_set : set_succeeds (K := gmap Z positive).
Proof. by intros t p k. Qed.

Definition none_started : BthreadLocal (K := gmap Z positive) (T := Stack) := new_bthread_local ∅.
Lemma none_started_rep : storage_rep true none_started (λ _, []).
Proof. by apply (new_bthread_local_rep true ∅). Qed.

(** Two bthreads, one of which attaches three contexts and leaves all but the first. *)
Definition ctx (c : nat) : Context := c.
Definition tokens (k : nat) : Token := k.
Definition contexts_of_spans : list Op :=
  [OpAttach 1 (ctx 7); OpAttach 2 (ctx 8); OpAttach 1 (ctx 9); OpAttach 1 (ctx 10); OpDetach 1 (tokens 9);
   OpGetCurrent 1; OpGetCurrent 2; OpDetach 2 (tokens 5); OpEnd 1; OpGetCurrent 1].
Lemma enough_room : room (length contexts_of_spans) (λ _, []).
Proof. intros t. by vm_compute. Qed.

Lemma storage_refines_witness :
  wp (run contexts_of_spans) none_started (λ rs _,
    rs = [RToken (tokens 7); RToken (tokens 8); RToken (tokens 9); RToken (tokens 10); RBool true;
          RContext (ctx 7); RContext (ctx 8); RBool false; RUnit; RContext (ctx 0)]).
Proof.
  pose proof (storage_refines contexts_of_spans none_started (λ _, [])
    (storage_rep_weaken _ _ none_started_rep) enough_room) as Hw.
  eapply wp_mono; [exact Hw|]. cbv beta. intros rs g' [_ Hset].
  destruct (Hset key_set none_started_rep) as [E _]. rewrite E. reflexivity.
Defined.

Definition nested : list Op :=
  [OpAttach 1 (ctx 7); OpAttach 2 (ctx 3); OpAttach 1 (ctx 8); OpGetCurrent 1; OpDetach 1 (tokens 8);
   OpDetach 1 (tokens 7)].
Lemma nested_scoped : scoped 1 nested.
Proof.
  apply (scoped_scope 1 (ctx 7) [OpAttach 2 (ctx 3); OpAttach 1 (ctx 8); OpGetCurrent 1; OpDetach 1 (tokens 8)] []);
    [|apply scoped_nil].
  apply scoped_other; [done|]. apply (scoped_scope 1 (ctx 8) [OpGetCurrent 1] []); [|apply scoped_nil].
  apply scoped_other; [done|apply scoped_nil].
Qed.
Lemma nested_room : room (length nested) (λ _, []).
Proof. intros t. by vm_compute. Qed.

Lemma scope_restores_witness :
  wp (c ← GetCurrent 1; _ ← run nested; c' ← GetCurrent 1; mret (c, c')) none_started
    (λ r _, fst r = snd r).
Proof.
  exact (scope_restores key_set 1 nested none_started (λ _, []) none_started_rep nested_room nested_scoped).
Defined.
End Witness.
End ContextStorage.
