(* ===== verification/Tracing.v ===== *)
(** * Tracing across bthreads and servers ([include/pain/base/brpc_text_map_carrier.h],
    [src/base/tracer.cc], [include/pain/base/tracer.h] and the three [macro.h])

    A block under [SPAN] starts a span, makes it the current one of its bthread by attaching a
    context to the storage of [ContextStorage.v], and detaches it at the end of its scope. A client
    writes the current context into its controller ([inject_tracer], and the same code in
    [rpc_client.h]); the handler's [DEFINE_SPAN] reads it back ([extract_context]) and makes its
    span a child of the client's. Work that goes on in another bthread, the timer of a waiting
    append and the closure of a log entry, takes the span along and makes it current there.
    Spans, the propagator and the controller are third-party ([TracingOps], [PropagatorOps],
    [ControllerOps]); the theorems show that every span on the way belongs to one trace. *)
From S2P Require Import Prelude ContextStorage.
From stdpp Require Import functions list.
Import ContextStorage.ContextStorage.
Set Default Goal Selector "!".
Local Open Scope Z_scope.

(** OpenTelemetry's spans. [StartSpan] gets the parent of its options, invalid when none was
    set, the current context, and what it draws at random. *)
Class TracingOps `{ContextOps} := {
  Span : Type;
  SpanContext : Type;
  TraceId : Type;
  GetSpan : Context → Span;                 (* an invalid span when the context has none *)
  SetSpan : Context → Span → Context;
  GetContext : Span → SpanContext;
  GetInvalid : SpanContext;
  IsValid : SpanContext → bool;
  trace_id : SpanContext → TraceId;
  ToLowerBase16 : TraceId → list Ascii.ascii;
  StartSpan : string → string → SpanContext → Context → nat → Span;
  new_trace_id : nat → TraceId;
}.
Class TracingLaws `{TracingOps} : Prop := {
  get_set_span c s : GetSpan (SetSpan c s) = s;
  invalid_invalid : IsValid GetInvalid = false;
  base16_length i : length (ToLowerBase16 i) = 32%nat;
  start_valid tracer name parent c n : IsValid (GetContext (StartSpan tracer name parent c n)) = true;
  start_trace tracer name parent c n :
    trace_id (GetContext (StartSpan tracer name parent c n)) =
    if IsValid parent then trace_id parent
    else if IsValid (GetContext (GetSpan c)) then trace_id (GetContext (GetSpan c))
    else new_trace_id n;
}.

(** The propagator of W3C trace contexts: the [Set]s that injecting a context makes, the context
    it extracts from what [Get] answers. *)
Class PropagatorOps `{ContextOps} := {
  Inject : Context → list (string * string);
  Extract : (string → string) → Context → Context;
}.
Class PropagatorLaws `{TracingOps} `{!PropagatorOps} : Prop := {
  inject_keys c : NoDup (fst <$> Inject c);
  extract_inject c get base :
    IsValid (GetContext (GetSpan c)) = true →
    (∀ k v, (k, v) ∈ Inject c → get k = v) →
    IsValid (GetContext (GetSpan (Extract get base))) = true ∧
    trace_id (GetContext (GetSpan (Extract get base))) = trace_id (GetContext (GetSpan c));
}.

(** [brpc::Controller]: the protocol of the request, its HTTP headers and its user fields. *)
Inductive Protocol := PROTOCOL_HTTP | PROTOCOL_H2 | PROTOCOL_OTHER (n : Z).
Class ControllerOps (C : Type) := {
  request_protocol : C → Protocol;
  GetHeader : C → string → option string;
  SetHeader : string → string → C → C;
  seek_user_field : C → string → option string;
  set_user_field : string → string → C → C;
}.
Class ControllerLaws C `{ControllerOps C} : Prop := {
  protocol_set_header k v c : request_protocol (SetHeader k v c) = request_protocol c;
  protocol_set_field k v c : request_protocol (set_user_field k v c) = request_protocol c;
  header_set k v c : GetHeader (SetHeader k v c) k = Some v;
  header_other k k' v c : k ≠ k' → GetHeader (SetHeader k v c) k' = GetHeader c k';
  field_set k v c : seek_user_field (set_user_field k v c) k = Some v;
  field_other k k' v c : k ≠ k' → seek_user_field (set_user_field k v c) k' = seek_user_field c k';
}.

Module Tracing.

(** ** [BrpcTextMapCarrier] *)

(** A [string_view]: the characters from its pointer up to the terminator of the string it
    points into, and its length. *)
Record string_view := mkView { data : string; view_size : nat }.
Definition view (s : string) : string_view := mkView s (String.length s).
Definition view_string (v : string_view) : string := String.substring 0 (view_size v) (data v).

Section carrier.
Context `{ControllerOps C}.

Definition is_http (c : C) : bool :=
  match request_protocol c with PROTOCOL_HTTP | PROTOCOL_H2 => true | PROTOCOL_OTHER _ => false end.

(** [Get]: for HTTP the key is what [key.data()] points to, otherwise the view itself. *)
Definition Get (c : C) (key : string_view) : string :=
  if is_http c then match GetHeader c (data key) with Some v => v | None => "" end
  else match seek_user_field c (view_string key) with Some v => v | None => "" end.

Definition Set_ (key value : string_view) (c : C) : C :=
  if is_http c then SetHeader (view_string key) (view_string value) c
  else set_user_field (view_string key) (view_string value) c.
End carrier.

(** ** Spans as scopes of a bthread *)
Section tracing.
Context `{TracingOps} `{!PropagatorOps} `{KeyOps K} `{ControllerOps C}.
Abbreviation Storage := (BthreadLocal (K := K) (T := Stack)).

(** [get_trace_id], [get_current_trace_id]: 32 digits of a buffer of 32. *)
Definition get_trace_id (span : Span) : string :=
  let span_context := GetContext span in
  String.string_of_list_ascii (take 32 (ToLowerBase16 (trace_id span_context))).
Definition get_current_trace_id (t : Z) : Prog Storage string :=
  c ← GetCurrent t; mret (get_trace_id (GetSpan c)).

(** [inject_tracer]. *)
Definition inject_tracer (t : Z) (cntl : C) : Prog Storage C :=
  current_ctx ← GetCurrent t;
  mret (foldl (λ carrier kv, Set_ (view kv.1) (view kv.2) carrier) cntl (Inject current_ctx)).
(** [extract_context]. *)
Definition extract_context (t : Z) (cntl : C) : Prog Storage Context :=
  current_ctx ← GetCurrent t;
  mret (Extract (λ k, Get cntl (view k)) current_ctx).

(** [Tracer::WithActiveSpan(span)] for the length of [body]. *)
Definition with_active_span {A} (t : Z) (span : Span) (body : Prog Storage A) : Prog Storage A :=
  current ← GetCurrent t;
  token ← Attach t (SetSpan current span);
  r ← body;
  _ ← Detach t token;
  mret r.

(** [SPAN(module, span, name)] and the rest of its block; [n] is the draw of [StartSpan]. *)
Definition SPAN {A} (tracer name : string) (t : Z) (n : nat) (body : Span → Prog Storage A) : Prog Storage A :=
  current ← GetCurrent t;
  let span := StartSpan tracer name GetInvalid current n in
  with_active_span t span (body span).
(** [DEFINE_SPAN(module, span, controller)]. *)
Definition DEFINE_SPAN {A} (tracer name : string) (t : Z) (cntl : C) (n : nat)
    (body : Span → Prog Storage A) : Prog Storage A :=
  new_context ← extract_context t cntl;
  current ← GetCurrent t;
  let span := StartSpan tracer name (GetContext (GetSpan new_context)) current n in
  with_active_span t span (body span).
(** The macros of the two servers, and of the tool. *)
Definition manusya_SPAN {A} name t n body : Prog Storage A := SPAN "manusya" name t n body.
Definition manusya_DEFINE_SPAN {A} name t cntl n body : Prog Storage A := DEFINE_SPAN "manusya" name t cntl n body.
Definition deva_SPAN {A} name t n body : Prog Storage A := SPAN "deva" name t n body.
Definition sad_SPAN {A} name t n body : Prog Storage A := SPAN "sad" name t n body.
Definition deva_DEFINE_SPAN {A} name t cntl n body : Prog Storage A := DEFINE_SPAN "deva" name t cntl n body.

#[local] Set Warnings "-register-all".
(** A piece of code as far as its spans go: a block with a span and the blocks inside it. *)
Inductive Block := mkBlock (tracer name : string) (inner : list Block).

(** Running blocks: the spans they start, and the next draw. *)
Section blocks.
Context (run_block : Block → nat → Prog Storage (list Span * nat)).
Fixpoint run_each (bs : list Block) (n : nat) : Prog Storage (list Span * nat) :=
  match bs with
  | [] => mret ([], n)
  | b :: bs =>
      '(spans, n) ← run_block b n;
      '(rest, n) ← run_each bs n;
      mret (spans ++ rest, n)
  end.
End blocks.
Fixpoint run_block (t : Z) (b : Block) (n : nat) : Prog Storage (list Span * nat) :=
  match b with
  | mkBlock tracer name inner =>
      SPAN tracer name t n (λ span,
        '(spans, n) ← run_each (run_block t) inner (S n);
        mret (span :: spans, n))
  end.
Definition run_blocks (t : Z) := run_each (run_block t).

(** A handler: its [DEFINE_SPAN] and the blocks inside. *)
Definition handle (tracer name : string) (t : Z) (cntl : C) (inner : list Block) (n : nat) :
    Prog Storage (list Span * nat) :=
  DEFINE_SPAN tracer name t cntl n (λ span,
    '(spans, n) ← run_blocks t inner (S n);
    mret (span :: spans, n)).

(** Work that continues in another bthread under the span it was handed: the timer callback of
    [Chunk::append], [OpClosure::Run]. *)
Definition continue_with (t : Z) (span : Span) (inner : list Block) (n : nat) : Prog Storage (list Span * nat) :=
  with_active_span t span (run_blocks t inner n).

(** How deep blocks nest, at most. *)
Fixpoint depth (b : Block) : nat :=
  match b with mkBlock _ _ inner => S (list_max (depth <$> inner)) end.
Definition depths (bs : list Block) : nat := list_max (depth <$> bs).
End tracing.

(** ** Lemmas *)
Section Block_ind.
Context (P : Block → Prop) (step : ∀ tracer name inner, Forall P inner → P (mkBlock tracer name inner)).
Fixpoint Block_nested_ind (b : Block) : P b :=
  match b with
  | mkBlock tracer name inner =>
      step tracer name inner ((fix go (bs : list Block) : Forall P bs :=
        match bs with
        | [] => Forall_nil_2 _
        | b :: bs => Forall_cons_2 _ _ _ (Block_nested_ind b) (go bs)
        end) inner)
  end.
End Block_ind.

Lemma length_string_of l : String.length (String.string_of_list_ascii l) = length l.
Proof. induction l as [|a l IH]; [done|]. cbn. by rewrite IH. Qed.

Section carrier_lemmas.
Context `{ControllerLaws C}.
Implicit Types (c : C) (k v : string).

Lemma view_view s : view_string (view s) = s.
Proof. unfold view_string, view. cbn. induction s as [|a s IH]; [done|]. cbn. by rewrite IH. Qed.

Lemma is_http_Set (k v : string_view) c : is_http (Set_ k v c) = is_http c.
Proof.
  unfold Set_. destruct (is_http c) eqn:E; unfold is_http in *;
    by rewrite ?protocol_set_header, ?protocol_set_field.
Qed.

Lemma Get_Set k v c : Get (Set_ (view k) (view v) c) (view k) = v.
Proof.
  unfold Get. rewrite is_http_Set. unfold Set_. rewrite !view_view.
  destruct (is_http c); cbn [data view]; by rewrite ?header_set, ?field_set.
Qed.
Lemma Get_Set_ne k k' v c : k ≠ k' → Get (Set_ (view k) (view v) c) (view k') = Get c (view k').
Proof.
  intros Hne. unfold Get. rewrite is_http_Set. unfold Set_. rewrite !view_view.
  destruct (is_http c); cbn [data view]; by rewrite ?header_other, ?field_other.
Qed.

Definition set_all (kvs : list (string * string)) (c : C) : C :=
  foldl (λ carrier kv, Set_ (view kv.1) (view kv.2) carrier) c kvs.

Lemma set_all_other kvs k c : k ∉ kvs.*1 → Get (set_all kvs c) (view k) = Get c (view k).
Proof.
  revert c. induction kvs as [|[k' v'] kvs IH]; intros c Hk; [done|]. cbn in *.
  apply not_elem_of_cons in Hk as [Hne Hk]. unfold set_all in IH. rewrite IH by done. by apply Get_Set_ne.
Qed.

Lemma set_all_get kvs k v c : NoDup kvs.*1 → (k, v) ∈ kvs → Get (set_all kvs c) (view k) = v.
Proof.
  revert c. induction kvs as [|[k' v'] kvs IH]; intros c Hnd Hin; [by apply elem_of_nil in Hin|].
  cbn in Hnd. apply NoDup_cons in Hnd as [Hk' Hnd]. apply elem_of_cons in Hin as [[= -> ->]|Hin].
  - cbn. fold (set_all kvs (Set_ (view k') (view v') c)). rewrite set_all_other by done. apply Get_Set.
  - cbn. by apply IH.
Qed.
End carrier_lemmas.

Section scope_lemmas.
Context `{TracingLaws} `{!ContextLaws} `{!PropagatorOps} `{!PropagatorLaws} `{KeyLaws K} (set_ok : set_succeeds (K := K)).
Context `{ControllerLaws C}.
Abbreviation Storage := (BthreadLocal (K := K) (T := Stack)).
Implicit Types (g : Storage) (m : Z → list Context) (t : Z).

(** The span that is current in a bthread, and room for [d] more contexts in its stack. *)
Definition current m t : SpanContext := GetContext (GetSpan (top (m t))).
Definition fits_below (d : nat) m t : Prop := Z.of_nat (length (m t)) + Z.of_nat d < 2 ^ 62.

Lemma fits_small d m t : fits_below d m t → small (m t).
Proof. unfold fits_below, small. lia. Qed.

Lemma insert_back t l m : ∀ t', (<[t := m t]> (<[t := l]> m)) t' = m t'.
Proof. intros t'. rewrite insert_twice. apply insert_self. Qed.

Lemma with_active_wp {A} t span (body : Prog Storage A) g m (Q : A → Prop) :
  storage_rep true g m → fits_below 1 m t →
  (∀ g1, storage_rep true g1 (<[t := SetSpan (top (m t)) span :: m t]> m) →
     wp body g1 (λ r g2, storage_rep true g2 (<[t := SetSpan (top (m t)) span :: m t]> m) ∧ Q r)) →
  wp (with_active_span t span body) g (λ r g', storage_rep true g' m ∧ Q r).
Proof.
  intros Hg Hroom Hbody. pose proof (fits_small _ _ _ Hroom) as Hs. unfold with_active_span.
  apply wp_bind. eapply wp_mono; [by apply (GetCurrent_wp true (λ _, set_ok))|]. cbv beta. intros _ g1 [Hg1 ->].
  apply wp_bind. eapply wp_mono; [by apply (Attach_wp true (λ _, set_ok))|]. cbv beta. intros _ g2 [[Hg2|([=] & _)] ->].
  apply wp_bind. eapply wp_mono; [by apply Hbody|]. cbv beta. intros r g3 [Hg3 HQ].
  apply wp_bind. eapply wp_mono.
  { apply (Detach_wp true (λ _, set_ok)); [exact Hg3|]. rewrite fn_lookup_insert. unfold fits_below, small in *. cbn. lia. }
  cbv beta. intros b g4 [Hg4 _]. split; [|done]. rewrite fn_lookup_insert in Hg4.
  unfold spec_detach in Hg4. cbn [below] in Hg4. rewrite token_eq_create in Hg4. cbn [snd] in Hg4.
  eapply storage_rep_ext; [|exact Hg4]. apply insert_back.
Qed.

(** The state inside a scope: its span is current. *)
Lemma current_insert m t span : current (<[t := SetSpan (top (m t)) span :: m t]> m) t = GetContext span.
Proof. unfold current. rewrite fn_lookup_insert. cbn. by rewrite get_set_span. Qed.
Lemma fits_insert d m t c : fits_below (S d) m t → fits_below d (<[t := c :: m t]> m) t.
Proof. unfold fits_below. rewrite fn_lookup_insert. cbn. lia. Qed.

Definition in_trace (i : TraceId) (span : Span) : Prop :=
  IsValid (GetContext span) = true ∧ trace_id (GetContext span) = i.

(** What running code does when its bthread stands in trace [i]. *)
Definition traced {A} (t : Z) (d : nat) (p : Prog Storage A) (Q : TraceId → A → Prop) : Prop :=
  ∀ g m, storage_rep true g m → fits_below d m t → IsValid (current m t) = true →
    wp p g (λ r g', storage_rep true g' m ∧ Q (trace_id (current m t)) r).

Definition spans_in (i : TraceId) (r : list Span * nat) : Prop := Forall (in_trace i) r.1.

Lemma scope_wp {A} t d span (body : Prog Storage A) Q g m :
  (∀ g1 m1, storage_rep true g1 m1 → fits_below d m1 t → current m1 t = GetContext span →
     wp body g1 (λ r g2, storage_rep true g2 m1 ∧ Q r)) →
  storage_rep true g m → fits_below (S d) m t →
  wp (with_active_span t span body) g (λ r g', storage_rep true g' m ∧ Q r).
Proof.
  intros Hbody Hg Hroom. apply with_active_wp; [done|unfold fits_below in *; lia|].
  intros g1 Hg1. apply Hbody; [done|by apply fits_insert|apply current_insert].
Qed.

Lemma run_each_wp t d run bs n :
  Forall (λ b, ∀ n, traced t d (run b n) spans_in) bs → traced t d (run_each run bs n) spans_in.
Proof.
  intros Hbs. revert n. induction Hbs as [|b bs Hb _ IH]; intros n g m Hg Hroom Hv; cbn [run_each].
  - split; [done|]. by apply Forall_nil.
  - apply wp_bind. eapply wp_mono; [by apply Hb|]. cbv beta. intros [spans n1] g1 [Hg1 Hs].
    apply wp_bind. eapply wp_mono; [by apply IH|]. cbv beta. intros [rest n2] g2 [Hg2 Hr].
    split; [done|]. by apply Forall_app.
Qed.

Lemma traced_more {A} t d d' (p : Prog Storage A) Q : (d <= d')%nat → traced t d p Q → traced t d' p Q.
Proof. intros Hd Hp g m Hg Hroom Hv. apply Hp; [done| |done]. unfold fits_below in *. lia. Qed.

Lemma depth_le b bs : b ∈ bs → (depth b <= depths bs)%nat.
Proof.
  intros Hb. assert (Hmax : Forall (λ k, k <= depths bs)%nat (depth <$> bs)) by by apply list_max_le.
  rewrite Forall_forall in Hmax. apply Hmax. by apply list_elem_of_fmap_2.
Qed.

(** Spans under a current span are in its trace. *)
Lemma run_block_wp t b : ∀ n, traced t (depth b) (run_block t b n) spans_in.
Proof.
  induction b as [tracer name inner IH] using Block_nested_ind. intros n g m Hg Hroom Hv. cbn [run_block].
  unfold SPAN. apply wp_bind. eapply wp_mono; [apply (GetCurrent_wp true (λ _, set_ok)); [done|by eapply fits_small]|].
  cbv beta. intros _ g1 [Hg1 ->].
  assert (Hin : in_trace (trace_id (current m t)) (StartSpan tracer name GetInvalid (top (m t)) n)).
  { split; [apply start_valid|]. rewrite start_trace, invalid_invalid. unfold current in *. by rewrite Hv. }
  apply (scope_wp t (depths inner)); [|done|exact Hroom]. intros g2 m2 Hg2 Hroom2 Hc2.
  destruct Hin as [Hiv Hit]. apply wp_bind. eapply wp_mono.
  { eapply (run_each_wp t (depths inner)); [|done|done|by rewrite Hc2].
    rewrite Forall_forall in IH |- *. intros b Hb n'. eapply traced_more; [|by apply IH]. by apply depth_le. }
  cbv beta. intros [spans n1] g3 [Hg3 Hs]. split; [done|]. rewrite Hc2, Hit in Hs.
  apply Forall_cons. by split.
Qed.

Lemma run_blocks_wp t bs n : traced t (depths bs) (run_blocks t bs n) spans_in.
Proof.
  apply run_each_wp, Forall_forall. intros b Hb n'. eapply traced_more; [by apply depth_le|]. apply run_block_wp.
Qed.

Lemma handle_wp tracer name t cntl inner n g m i :
  storage_rep true g m → fits_below (S (depths inner)) m t →
  (IsValid (GetContext (GetSpan (Extract (λ k, Get cntl (view k)) (top (m t))))) = true ∧
   trace_id (GetContext (GetSpan (Extract (λ k, Get cntl (view k)) (top (m t))))) = i) →
  wp (handle tracer name t cntl inner n) g (λ r g', storage_rep true g' m ∧ spans_in i r).
Proof.
  intros Hg Hroom [Hv Hi]. pose proof (fits_small _ _ _ Hroom) as Hs. unfold handle, DEFINE_SPAN, extract_context.
  apply wp_bind, wp_bind. eapply wp_mono; [by apply (GetCurrent_wp true (λ _, set_ok))|]. cbv beta. intros _ g1 [Hg1 ->].
  eapply wp_eval; [done|]. apply wp_bind. eapply wp_mono; [by apply (GetCurrent_wp true (λ _, set_ok))|].
  cbv beta. intros _ g2 [Hg2 ->].
  set (span := StartSpan _ _ _ _ _).
  assert (Hin : in_trace i span).
  { split; [apply start_valid|]. unfold span. rewrite start_trace. by rewrite Hv. }
  apply (scope_wp t (depths inner)); [|done|exact Hroom]. intros g3 m3 Hg3 Hroom3 Hc3.
  destruct Hin as [Hiv Hit]. apply wp_bind. eapply wp_mono; [apply run_blocks_wp; [done|done|by rewrite Hc3]|].
  cbv beta. intros [spans n1] g4 [Hg4 Hsp]. split; [done|]. rewrite Hc3, Hit in Hsp. apply Forall_cons. by split.
Qed.

(** ** Theorems *)

(** What the transport owes: the server reads from its controller what the client put there. *)
Definition delivered (sent received : C) : Prop := ∀ k, Get received (view k) = Get sent (view k).

(** C18: As long as [bthread_setspecific] does not fail and the server reads from its controller
    every field that the client set in its own, a client that stands in a span and writes its
    context into the controller of a call puts every span that the handler starts on the server,
    in whatever nesting of blocks (which leaves the stacks below 2^62 contexts), into its own trace;
    both bthreads end with the contexts they had. *)
Theorem trace_crosses t t' tracer name cntl cntl_s inner n gc mc gs ms :
  storage_rep true gc mc → small (mc t) → IsValid (current mc t) = true →
  storage_rep true gs ms → fits_below (S (depths inner)) ms t' →
  wp (inject_tracer t cntl) gc (λ sent gc', storage_rep true gc' mc ∧
    (delivered sent cntl_s →
     wp (handle tracer name t' cntl_s inner n) gs (λ r gs', storage_rep true gs' ms ∧
       spans_in (trace_id (current mc t)) r))).
Proof.
  intros Hgc Hsm Hv Hgs Hroom. unfold inject_tracer. apply wp_bind.
  eapply wp_mono; [by apply (GetCurrent_wp true (λ _, set_ok))|]. cbv beta. intros _ g1 [Hg1 ->]. eapply wp_eval; [done|].
  split; [done|]. intros Hd. apply handle_wp; [done|done|]. apply extract_inject; [done|].
  intros k v Hkv. rewrite (Hd k). apply set_all_get; [apply inject_keys|done].
Qed.

(** Work that is handed a span and continues under it in another bthread, as the timer of a
    waiting append and the closure of a log entry do, stays in the trace of that span whatever
    the bthread was doing, and leaves its contexts as they were. *)
Theorem trace_continues t span inner n g m :
  storage_rep true g m → fits_below (S (depths inner)) m t → IsValid (GetContext span) = true →
  wp (continue_with t span inner n) g (λ r g', storage_rep true g' m ∧ spans_in (trace_id (GetContext span)) r).
Proof.
  intros Hg Hroom Hv. unfold continue_with. apply (scope_wp t (depths inner)); [|done|exact Hroom].
  intros g1 m1 Hg1 Hroom1 Hc. eapply wp_mono; [apply run_blocks_wp; [done|done|by rewrite Hc]|].
  cbv beta. intros r g2 [Hg2 Hr]. by rewrite Hc in Hr.
Qed.

(** The trace id that goes into log lines has 32 characters and is that of the current span. *)
Theorem log_trace_id t g m :
  storage_rep true g m → small (m t) →
  wp (get_current_trace_id t) g (λ s g', storage_rep true g' m ∧ String.length s = 32%nat ∧
    s = String.string_of_list_ascii (ToLowerBase16 (trace_id (current m t)))).
Proof.
  intros Hg Hs. unfold get_current_trace_id. apply wp_bind. eapply wp_mono; [by apply (GetCurrent_wp true (λ _, set_ok))|].
  cbv beta. intros _ g1 [Hg1 ->]. eapply wp_eval; [done|]. split; [done|]. unfold get_trace_id.
  rewrite take_ge by (by rewrite base16_length). split; [|done].
  by rewrite length_string_of, base16_length.
Qed.
End scope_lemmas.

(** ** Witnesses: a context is its span, a span its trace and its own number, and the propagator
    writes the trace number in unary *)
Module Witness.
Definition SpanId : Type := nat * nat.
#[local] Instance contexts : ContextOps := {|
  Context := option SpanId; Token := option SpanId; empty_context := None; CreateToken c := c;
  token_eq k c := bool_decide (k = c);
|}.
#[local] Instance context_laws : ContextLaws.
Proof. split. intros c. by apply bool_decide_eq_true. Qed.

Definition number (c : option SpanId) : nat := match c with Some (i, _) => i | None => 0%nat end.
Definition valid (c : option SpanId) : bool := match c with Some _ => true | None => false end.
#[local] Instance tracing : TracingOps := {|
  Span := option SpanId; SpanContext := option SpanId; TraceId := nat;
  GetSpan c := c; SetSpan _ s := s; GetContext s := s; GetInvalid := None; IsValid := valid;
  trace_id := number; ToLowerBase16 i := replicate 32 (Ascii.ascii_of_nat (48 + i));
  StartSpan _ _ parent c n :=
    Some (if valid parent then number parent else if valid c then number c else n, n);
  new_trace_id n := n;
|}.
#[local] Instance tracing_laws : TracingLaws.
Proof. by split. Qed.

Definition one : Ascii.ascii := Ascii.ascii_of_nat 49.
Fixpoint unary (n : nat) : string := match n with O => "1" | S n => String one (unary n) end.
Definition encoded (c : option SpanId) : list (string * string) :=
  match c with Some (i, _) => [("traceparent", unary i)] | None => [] end.
Definition decoded (get : string → string) (base : option SpanId) : option SpanId :=
  match get "traceparent" with "" => base | String _ v => Some (String.length v, 0%nat) end.
#[local] Instance propagator : PropagatorOps := {| Inject := encoded; Extract := decoded |}.

Lemma unary_tail n : ∃ v, unary n = String one v ∧ String.length v = n.
Proof.
  induction n as [|n (v&E&Hl)]; [by exists ""|]. exists (unary n). split; [done|]. rewrite E. cbn. by rewrite Hl.
Qed.
#[local] Instance propagator_laws : PropagatorLaws.
Proof.
  split.
  - intros [[i s]|]; cbn; [|apply NoDup_nil_2]. apply NoDup_singleton.
  - intros [[i s]|] get base Hv Hget; [|done]. cbn. unfold decoded.
    rewrite (Hget "traceparent" (unary i)) by by left. destruct (unary_tail i) as (v&->&Hl). by cbn.
Qed.

Record Cntl := mkCntl { protocol : Protocol; headers : gmap string string; user_fields : gmap string string }.
#[local] Instance controller : ControllerOps Cntl := {|
  request_protocol := protocol;
  GetHeader c k := headers c !! k;
  SetHeader k v c := mkCntl (protocol c) (<[k := v]> (headers c)) (user_fields c);
  seek_user_field c k := user_fields c !! k;
  set_user_field k v c := mkCntl (protocol c) (headers c) (<[k := v]> (user_fields c));
|}.
#[local] Instance controller_laws : ControllerLaws Cntl.
Proof.
  split; cbn; intros; first [done|apply lookup_insert_eq|by apply lookup_insert_ne].
Qed.

#[local] Instance key : KeyOps (gmap Z positive) := {|
  bthread_key_create _ := (0, ∅);
  bthread_getspecific t k := k !! t;
  bthread_setspecific t p k := (0, <[t := p]> k);
  bthread_ended t k := delete t k;
|}.
#[local] Instance key_laws : KeyLaws.
Proof.
  split; cbn; intros; first [done|apply lookup_empty|apply lookup_insert_eq|by apply lookup_insert_ne|apply lookup_delete_eq
                            |by apply lookup_delete_ne].
Qed.
Lemma carrier_key_set : set_succeeds (K := gmap Z positive).
Proof. by intros t p k. Qed.

(** A client in trace 7 calls a server whose handler runs a block in a block. *)
Definition client_stacks : Z → list Context := λ t, if decide (t = 1) then [Some (7, 1)%nat] else [].
Definition client_stack : Stack := mkStack 1 1 (Some [Some (7, 1)%nat : Context]).
Definition client : BthreadLocal (K := gmap Z positive) (T := Stack) :=
  mkBthreadLocal {[1%positive := client_stack]} {[1 := 1%positive]}.
Definition server : BthreadLocal (K := gmap Z positive) (T := Stack) := mkBthreadLocal ∅ ∅.
Definition call : Cntl := mkCntl (PROTOCOL_OTHER 1) ∅ ∅.
Definition received : Cntl := mkCntl (PROTOCOL_OTHER 1) ∅ {["traceparent" := unary 7]}.
Definition blocks : list Block := [mkBlock "manusya" "append" [mkBlock "manusya" "open" []]].

Lemma client_rep : storage_rep true client client_stacks.
Proof.
  split; unfold pointer; cbn.
  - intros t. unfold client_stacks. destruct (decide (t = 1)) as [->|Hne].
    + exists client_stack. split; [by vm_compute|]. by split; vm_compute.
    + by rewrite lookup_singleton_ne by done.
  - intros t t' p Ht Ht'. apply lookup_singleton_Some in Ht as [<- _].
    by apply lookup_singleton_Some in Ht' as [<- _].
  - intros p _ [s Hs]. apply lookup_singleton_Some in Hs as [<- _]. by exists 1.
Qed.
Lemma server_rep : storage_rep true server (λ _, []).
Proof. by apply new_storage_rep. Qed.

Lemma delivered_call : delivered (set_all (encoded (Some (7, 1)%nat)) call) received.
Proof.
  intros k. assert (E : set_all (encoded (Some (7, 1)%nat)) call = received) by (vm_compute; reflexivity).
  by rewrite E.
Qed.

Lemma trace_crosses_witness :
  match inject_tracer 1 call client with
  | Some (sent, _) => delivered sent received ∧
      wp (handle "manusya" "AppendChunk" 1 received blocks 20) server (λ r _, spans_in 7%nat r)
  | None => False
  end.
Proof.
  pose proof (trace_crosses carrier_key_set 1 1 "manusya" "AppendChunk" call received blocks 20 client client_stacks
    server (λ _, []) client_rep ltac:(by vm_compute) ltac:(reflexivity) server_rep ltac:(by vm_compute)) as Hw.
  apply wp_exists in Hw as (sent&g&E&_&Hrun).
  assert (Es : sent = set_all (encoded (Some (7, 1)%nat)) call).
  { vm_compute in E. injection E as <- _. vm_compute. reflexivity. }
  rewrite E. subst sent. split; [exact delivered_call|]. specialize (Hrun delivered_call).
  eapply wp_mono; [exact Hrun|]. cbv beta. intros r g' [_ Hr]. exact Hr.
Defined.

Lemma trace_continues_witness :
  wp (continue_with 1 (Some (9, 3)%nat) blocks 30) client (λ r g', storage_rep true g' client_stacks ∧ spans_in 9%nat r).
Proof. exact (trace_continues carrier_key_set 1 (Some (9, 3)%nat) blocks 30 client client_stacks client_rep ltac:(by vm_compute) eq_refl). Defined.

Lemma log_trace_id_witness :
  wp (get_current_trace_id 1) client (λ s _, String.length s = 32%nat).
Proof.
  eapply wp_mono; [exact (log_trace_id carrier_key_set 1 client client_stacks client_rep ltac:(by vm_compute))|].
  cbv beta. tauto.
Defined.
End Witness.
End Tracing.
