(* ===== verification/Future.v ===== *)
(** * Promises and futures ([include/pain/base/future.h])

    A [FutureState] is shared by one [Promise] and the [Future]s taken from it. [FutureState]
    and its operations are modelled by value; [Promise] and [Future] objects live in a heap
    where each holds a (possibly null) reference to a state, so that moves and destructors
    are visible. A blocked [get] is an outcome: the condition variable only wakes it up when
    the state changes. The back pointer [FutureState::promise] is written by the sources and
    never read; it is left out. *)
From S2P Require Import Prelude.
Set Default Goal Selector "!".

(** An exception in flight: the message of the [std::runtime_error]. *)
Definition exception := string.

(** ** The shared state *)
Inductive FutureState (T : Type) :=
| kFuture
| kResult (value : T)
| kException (ex : exception).
Arguments kFuture {T}.
Arguments kResult {T} value.
Arguments kException {T} ex.

(** What a call of [get] does in a given state. *)
Inductive GetResult (T : Type) :=
| Blocked
| Value (v : T)
| Throw (ex : exception).
Arguments Blocked {T}.
Arguments Value {T} v.
Arguments Throw {T} ex.

Section state.
Context {T : Type}.

Definition failed (s : FutureState T) : bool :=
  match s with kException _ => true | _ => false end.

Definition available (s : FutureState T) : bool :=
  match s with kResult _ | kException _ => true | kFuture => false end.

(** [set_value] asserts that the state is still [kFuture]. *)
Definition set_value (value : T) : Prog (FutureState T) unit :=
  s ← get; boost_assert (match s with kFuture => true | _ => false end);; put (kResult value).

(** [set_exception] does not look at the state. Over a value it has no defined effect in the
    sources: [FutureStorage] models the union that values and exceptions share. *)
Definition set_exception (ex : exception) : Prog (FutureState T) unit := put (kException ex).

(** [get]: [moved v] is what a move leaves of [v]. *)
Definition state_get (moved : T → T) : Prog (FutureState T) (GetResult T) :=
  s ← get;
  match s with
  | kFuture => mret Blocked
  | kException ex => mret (Throw ex)
  | kResult v => put (kResult (moved v));; mret (Value v)
  end.
End state.

(** ** Promise and future objects *)
Section objects.
Context {T : Type} (moved : T → T).

Record Heap := mkHeap {
  states : gmap positive (FutureState T);
  promises : gmap positive (option positive);    (* Promise::_state *)
  futures : gmap positive (option positive);     (* Future::_state *)
  next_loc : positive;
}.

Definition empty_heap : Heap := mkHeap ∅ ∅ ∅ 1.

Definition set_states f h := mkHeap (f (states h)) (promises h) (futures h) (next_loc h).
Definition set_promises f h := mkHeap (states h) (f (promises h)) (futures h) (next_loc h).
Definition set_futures f h := mkHeap (states h) (promises h) (f (futures h)) (next_loc h).

Definition alloc : Prog Heap positive :=
  h ← get;
  put (mkHeap (states h) (promises h) (futures h) (Pos.succ (next_loc h)));;
  mret (next_loc h).

(** Member access through [_state->]: a null or dangling reference does not return. *)
Definition deref (o : option positive) : Prog Heap (positive * FutureState T) :=
  h ← get;
  match o with
  | None => abort
  | Some l => match states h !! l with None => abort | Some s => mret (l, s) end
  end.

Definition on_state {A} (o : option positive) (p : Prog (FutureState T) A) : Prog Heap A :=
  '(l, s) ← deref o;
  match p s with
  | None => abort
  | Some (a, s') => modify (set_states <[l := s']>);; mret a
  end.

Definition promise_ref (p : positive) : Prog Heap (option positive) :=
  h ← get; match promises h !! p with None => abort | Some o => mret o end.

Definition future_ref (f : positive) : Prog Heap (option positive) :=
  h ← get; match futures h !! f with None => abort | Some o => mret o end.

(** [Promise()]. *)
Definition promise_new : Prog Heap positive :=
  l ← alloc;
  modify (set_states <[l := kFuture]>);;
  p ← alloc;
  modify (set_promises <[p := Some l]>);;
  mret p.

(** [~Promise()]: breaks the promise when nothing was delivered. *)
Definition promise_dtor (p : positive) : Prog Heap unit :=
  o ← promise_ref p;
  (match o with
   | None => mret tt
   | Some _ =>
       '(_, s) ← deref o;
       if negb (available s) then on_state o (set_exception "Broken Promise") else mret tt
   end);;
  modify (set_promises (delete p)).

(** [Promise(Promise&& other)]: [std::exchange(other._state, nullptr)], then
    [_state->promise = this], a dereference. *)
Definition promise_move_ctor (other : positive) : Prog Heap positive :=
  o ← promise_ref other;
  _ ← deref o;
  modify (set_promises <[other := None]>);;
  p ← alloc;
  modify (set_promises <[p := o]>);;
  mret p.

(** [operator=(Promise&&)]. *)
Definition promise_move_assign (this other : positive) : Prog Heap unit :=
  if decide (this = other) then mret tt else
  _ ← promise_ref this;
  o ← promise_ref other;
  modify (set_promises <[other := None]>);;
  modify (set_promises <[this := o]>);;
  _ ← deref o;
  mret tt.

Definition get_future (p : positive) : Prog Heap positive :=
  o ← promise_ref p;
  boost_assert (bool_decide (is_Some o));;
  f ← alloc;
  modify (set_futures <[f := o]>);;
  mret f.

Definition promise_set_value (p : positive) (v : T) : Prog Heap unit :=
  o ← promise_ref p; on_state o (set_value v).

Definition promise_set_exception (p : positive) (ex : exception) : Prog Heap unit :=
  o ← promise_ref p; on_state o (set_exception ex).

Definition is_ready (p : positive) : Prog Heap bool :=
  o ← promise_ref p; '(_, s) ← deref o; mret (available s).

Definition future_get (f : positive) : Prog Heap (GetResult T) :=
  o ← future_ref f; on_state o (state_get moved).

(** [Future()], [Future(Future&&)], [operator=(Future&&)] and [~Future()]. *)
Definition future_new : Prog Heap positive :=
  f ← alloc; modify (set_futures <[f := None]>);; mret f.

Definition future_move_ctor (rhs : positive) : Prog Heap positive :=
  o ← future_ref rhs;
  modify (set_futures <[rhs := None]>);;
  f ← alloc;
  modify (set_futures <[f := o]>);;
  mret f.

Definition future_move_assign (this rhs : positive) : Prog Heap unit :=
  if decide (this = rhs) then mret tt else
  _ ← future_ref this;
  o ← future_ref rhs;
  modify (set_futures <[rhs := None]>);;
  modify (set_futures <[this := o]>).

Definition future_dtor (f : positive) : Prog Heap unit := modify (set_futures (delete f)).

(** [make_ready_future(value)]: the promise is destroyed when the function returns. *)
Definition make_ready_future (v : T) : Prog Heap positive :=
  p ← promise_new;
  promise_set_value p v;;
  f ← get_future p;
  promise_dtor p;;
  mret f.

(** The operations a program may perform on these objects, in any order. *)
Inductive FutureOp :=
| ONew
| ODtor (p : positive)
| OMoveCtor (p : positive)
| OMoveAssign (this other : positive)
| OGetFuture (p : positive)
| OSetValue (p : positive) (v : T)
| OSetException (p : positive) (ex : exception)
| OGet (f : positive)
| OFutureNew
| OFutureMoveCtor (rhs : positive)
| OFutureMoveAssign (this rhs : positive)
| OFutureDtor (f : positive).

Definition exec (o : FutureOp) : Prog Heap unit :=
  match o with
  | ONew => _ ← promise_new; mret tt
  | ODtor p => promise_dtor p
  | OMoveCtor p => _ ← promise_move_ctor p; mret tt
  | OMoveAssign a b => promise_move_assign a b
  | OGetFuture p => _ ← get_future p; mret tt
  | OSetValue p v => promise_set_value p v
  | OSetException p ex => promise_set_exception p ex
  | OGet f => _ ← future_get f; mret tt
  | OFutureNew => _ ← future_new; mret tt
  | OFutureMoveCtor rhs => _ ← future_move_ctor rhs; mret tt
  | OFutureMoveAssign this rhs => future_move_assign this rhs
  | OFutureDtor f => future_dtor f
  end.

Fixpoint exec_all (os : list FutureOp) : Prog Heap unit :=
  match os with
  | [] => mret tt
  | o :: rest => exec o;; exec_all rest
  end.

Definition is_move_assign (o : FutureOp) : bool :=
  match o with OMoveAssign _ _ => true | _ => false end.

(** The state [l] is owned by the live promise [p]. *)
Definition owns (h : Heap) (p l : positive) : Prop := promises h !! p = Some (Some l).

(** Well-formed heaps: references point to allocated states, a state has at most one
    promise, and fresh locations are unused. *)
Record heap_wf (h : Heap) : Prop := {
  wf_promise p l : owns h p l → is_Some (states h !! l);
  wf_future f l : futures h !! f = Some (Some l) → is_Some (states h !! l);
  wf_unique p1 p2 l : owns h p1 l → owns h p2 l → p1 = p2;
  wf_fresh_s l : (next_loc h <= l)%positive → states h !! l = None;
  wf_fresh_p l : (next_loc h <= l)%positive → promises h !! l = None;
  wf_fresh_f l : (next_loc h <= l)%positive → futures h !! l = None;
}.

(** Every undelivered state still has a promise that can deliver it. *)
Definition no_orphan (h : Heap) : Prop :=
  ∀ l, states h !! l = Some kFuture → ∃ p, owns h p l.
End objects.

(** ** Lemmas *)
Section lemmas.
Context {T : Type} (moved : T → T).
Implicit Types (h : Heap (T := T)).

Ltac unfold_ops :=
  unfold promise_new, promise_dtor, promise_move_ctor, promise_move_assign, get_future,
    promise_set_value, promise_set_exception, future_get, promise_ref, future_ref, on_state,
    deref, alloc, set_value, set_exception, state_get in *.

(** The effect of a delivery attempt on the state a reference points to. *)
Lemma on_state_Some {A} o (p : Prog (FutureState T) A) h a h' :
  on_state o p h = Some (a, h') →
  ∃ l s s', o = Some l ∧ states h !! l = Some s ∧ p s = Some (a, s') ∧
            h' = set_states <[l := s']> h.
Proof.
  unfold on_state, deref. intros H. prog_inv.
  eexists _, _, _; split_and!; done.
Qed.

(** Updates that leave every state allocated and no promise duplicated keep [heap_wf]. *)
Lemma wf_set_states l s s' h :
  states h !! l = Some s → heap_wf h → heap_wf (set_states <[l := s']> h).
Proof.
  intros Hl [Hp Hf Hu Hs Hpf Hff]. split; unfold owns in *; cbn; try done.
  - intros p l' E. destruct (decide (l = l')) as [->|]; simplify_map_eq; eauto.
  - intros f l' E. destruct (decide (l = l')) as [->|]; simplify_map_eq; eauto.
  - intros l' Hl'. rewrite lookup_insert_ne; [auto|]. intros ->.
    rewrite Hs in Hl by done. done.
Qed.

Lemma wf_delete_promise p h : heap_wf h → heap_wf (set_promises (delete p) h).
Proof.
  intros [Hp Hf Hu Hs Hpf Hff]. split; unfold owns in *; cbn; try done.
  - intros p' l E. apply lookup_delete_Some in E as [_ E]. eauto.
  - intros p1 p2 l E1 E2. apply lookup_delete_Some in E1 as [_ E1], E2 as [_ E2]. eauto.
  - intros l Hl. rewrite lookup_delete_None. auto.
Qed.

Definition bump h : Heap (T := T) :=
  mkHeap (states h) (promises h) (futures h) (Pos.succ (next_loc h)).

Lemma wf_bump h : heap_wf h → heap_wf (bump h).
Proof.
  intros [Hp Hf Hu Hs Hpf Hff]. split; unfold owns, bump in *; cbn in *; try done.
  - intros l Hl. apply Hs. lia.
  - intros l Hl. apply Hpf. lia.
  - intros l Hl. apply Hff. lia.
Qed.

Lemma alloc_Some h l h' : alloc h = Some (l, h') → l = next_loc h ∧ h' = bump h.
Proof. unfold alloc. intros H. by prog_inv. Qed.

Lemma wf_add_future f l h :
  (f < next_loc h)%positive →
  (∀ l', l = Some l' → is_Some (states h !! l')) → heap_wf h →
  heap_wf (set_futures <[f := l]> h).
Proof.
  intros Hfn Hl [Hp Hf Hu Hs Hpf Hff]. split; unfold owns in *; cbn; try done.
  - intros f' l' E. destruct (decide (f = f')) as [->|]; simplify_map_eq; eauto.
  - intros l' Hl'. rewrite lookup_insert_ne; [auto|]. intros ->. lia.
Qed.

Lemma wf_delete_future f h : heap_wf h → heap_wf (set_futures (delete f) h).
Proof.
  intros [Hp Hf Hu Hs Hpf Hff]. split; unfold owns in *; cbn; try done.
  - intros f' l E. apply lookup_delete_Some in E as [_ E]. eauto.
  - intros l Hl. rewrite lookup_delete_None. auto.
Qed.

Lemma future_lt_next f o h :
  heap_wf h → futures h !! f = Some o → (f < next_loc h)%positive.
Proof.
  intros Hwf Hp. apply Pos.lt_nle. intros Hle.
  by rewrite (wf_fresh_f _ Hwf) in Hp.
Qed.

(** Moving the reference of the future [g] into [f]. *)
Lemma wf_move_future f g o h :
  futures h !! g = Some o → (f < next_loc h)%positive → heap_wf h →
  heap_wf (set_futures <[f := o]> (set_futures <[g := None]> h)).
Proof.
  intros Hg Hf Hwf. pose proof (future_lt_next _ _ _ Hwf Hg).
  apply wf_add_future; [done| |].
  - intros l ->. by eapply (wf_future _ Hwf).
  - by apply wf_add_future.
Qed.

(** Moving the reference held by [a] into [b]. *)
Lemma wf_transfer a b o h :
  a ≠ b → promises h !! a = Some o → (b < next_loc h)%positive → heap_wf h →
  heap_wf (set_promises <[b := o]> (set_promises <[a := None]> h)).
Proof.
  intros Hab Ha Hb [Hp Hf Hu Hs Hpf Hff].
  assert (Hown : ∀ p l, <[b := o]> (<[a := None]> (promises h)) !! p = Some (Some l) →
            p = b ∧ o = Some l ∨ p ≠ a ∧ p ≠ b ∧ promises h !! p = Some (Some l)).
  { intros p l E. destruct (decide (b = p)) as [->|]; simplify_map_eq; [by left|].
    destruct (decide (a = p)) as [->|]; simplify_map_eq; by right. }
  split; unfold owns in *; cbn; try done.
  - intros p l E. apply Hown in E as [(-> & ->) | (? & ? & E)]; eauto.
  - intros p1 p2 l E1 E2.
    apply Hown in E1 as [(-> & ->) | (N1 & ? & E1)];
    apply Hown in E2 as [(-> & E2) | (N2 & ? & E2)]; subst; eauto.
    + destruct N2. by eapply Hu.
    + destruct N1. by eapply Hu.
  - intros l Hl. rewrite !lookup_insert_ne; [auto| |].
    + intros ->. rewrite Hpf in Ha by done. done.
    + intros ->. lia.
Qed.

Lemma promise_lt_next p o h :
  heap_wf h → promises h !! p = Some o → (p < next_loc h)%positive.
Proof.
  intros Hwf Hp. apply Pos.lt_nle. intros Hle.
  by rewrite (wf_fresh_p _ Hwf) in Hp.
Qed.

Lemma state_lt_next l s h :
  heap_wf h → states h !! l = Some s → (l < next_loc h)%positive.
Proof.
  intros Hwf Hp. apply Pos.lt_nle. intros Hle.
  by rewrite (wf_fresh_s _ Hwf) in Hp.
Qed.

Lemma promise_new_Some h p h' :
  promise_new h = Some (p, h') →
  p = Pos.succ (next_loc h) ∧
  h' = mkHeap (<[next_loc h := kFuture]> (states h)) (<[p := Some (next_loc h)]> (promises h))
              (futures h) (Pos.succ (Pos.succ (next_loc h))).
Proof. unfold promise_new, alloc. intros H. by prog_inv. Qed.

Lemma promise_new_wf h p h' : heap_wf h → promise_new h = Some (p, h') → heap_wf h'.
Proof.
  intros [Hp Hf Hu Hs Hpf Hff] [-> ->]%promise_new_Some.
  assert (Hne : ∀ p l, promises h !! p = Some (Some l) → l ≠ next_loc h).
  { intros p l E ->. apply Hp in E as [s Es]. rewrite Hs in Es by lia. done. }
  split; unfold owns in *; cbn.
  - intros p l E. destruct (decide (Pos.succ (next_loc h) = p)) as [<-|].
    + rewrite lookup_insert_eq in E. injection E as <-. rewrite lookup_insert_eq. eauto.
    + rewrite lookup_insert_ne in E by done. rewrite lookup_insert_ne; [eauto|].
      intros <-. by eapply Hne.
  - intros f l E. rewrite lookup_insert_is_Some. destruct (decide (next_loc h = l)); eauto.
  - intros p1 p2 l E1 E2.
    destruct (decide (Pos.succ (next_loc h) = p1)) as [<-|],
      (decide (Pos.succ (next_loc h) = p2)) as [<-|]; simplify_map_eq; try done.
    + by apply Hne in E2.
    + by apply Hne in E1.
    + eauto.
  - intros l Hl. rewrite lookup_insert_ne by lia. apply Hs. lia.
  - intros l Hl. rewrite lookup_insert_ne by lia. apply Hpf. lia.
  - intros l Hl. apply Hff. lia.
Qed.

Lemma on_state_wf {A} o (p : Prog (FutureState T) A) h a h' :
  heap_wf h → on_state o p h = Some (a, h') → heap_wf h'.
Proof.
  intros Hwf (l & s & s' & _ & Hl & _ & ->)%on_state_Some. by eapply wf_set_states.
Qed.

Lemma promise_ref_Some p h o h' :
  promise_ref p h = Some (o, h') → promises h !! p = Some o ∧ h' = h.
Proof. unfold promise_ref. intros H. by prog_inv. Qed.

Lemma future_ref_Some f h o h' :
  future_ref f h = Some (o, h') → futures h !! f = Some o ∧ h' = h.
Proof. unfold future_ref. intros H. by prog_inv. Qed.

Lemma deref_Some o h l s h' :
  deref o h = Some ((l, s), h') → o = Some l ∧ states h !! l = Some s ∧ h' = h.
Proof. unfold deref. intros H. by prog_inv. Qed.

Lemma boost_assert_Some b h u h' :
  boost_assert b h = Some (u, h') → b = true ∧ h' = h.
Proof. unfold boost_assert. intros H. by prog_inv. Qed.
End lemmas.

(** Invert the primitive accesses of the heap. *)
Ltac heap_inv :=
  repeat match goal with
  | H : promise_ref _ _ = Some _ |- _ => apply promise_ref_Some in H as [? ->]
  | H : future_ref _ _ = Some _ |- _ => apply future_ref_Some in H as [? ->]
  | H : deref _ _ = Some (?r, _) |- _ => destruct r; apply deref_Some in H as (?&?&->); subst
  | H : boost_assert _ _ = Some _ |- _ => apply boost_assert_Some in H as [? ->]
  | H : alloc _ = Some _ |- _ => apply alloc_Some in H as [-> ->]
  | _ => prog_inv_step; cbn beta iota zeta in *
  end.

Section theorems.
Context {T : Type} (moved : T → T).
Implicit Types (h : Heap (T := T)).

Lemma promise_dtor_wf p h u h' : heap_wf h → promise_dtor p h = Some (u, h') → heap_wf h'.
Proof.
  unfold promise_dtor. intros Hwf H. heap_inv; apply wf_delete_promise; try done.
  eapply on_state_wf; eauto.
Qed.

Lemma promise_move_ctor_wf p h q h' :
  heap_wf h → promise_move_ctor p h = Some (q, h') → heap_wf h'.
Proof.
  unfold promise_move_ctor. intros Hwf H. heap_inv.
  match goal with E : promises h !! p = Some _ |- _ => rename E into Ep end.
  pose proof (promise_lt_next _ _ _ Hwf Ep).
  apply (wf_transfer p (next_loc h) _ (bump h)); [lia|done|cbn; lia|by apply wf_bump].
Qed.

Lemma promise_move_assign_wf a b h u h' :
  heap_wf h → promise_move_assign a b h = Some (u, h') → heap_wf h'.
Proof.
  unfold promise_move_assign. intros Hwf H. heap_inv; [done|].
  apply wf_transfer; try done. by eapply promise_lt_next.
Qed.

Lemma get_future_wf p h f h' : heap_wf h → get_future p h = Some (f, h') → heap_wf h'.
Proof.
  unfold get_future. intros Hwf H. heap_inv.
  apply wf_add_future; [cbn; lia| |by apply wf_bump].
  intros l' ->. eapply (wf_promise _ Hwf). done.
Qed.

Lemma exec_heap_wf_aux o h h' :
  heap_wf h → exec moved o h = Some (tt, h') → heap_wf h'.
Proof.
  intros Hwf. destruct o; cbn [exec]; intros H.
  - heap_inv. by eapply promise_new_wf.
  - by eapply promise_dtor_wf.
  - heap_inv. by eapply promise_move_ctor_wf.
  - by eapply promise_move_assign_wf.
  - heap_inv. by eapply get_future_wf.
  - unfold promise_set_value in H. heap_inv. by eapply on_state_wf.
  - unfold promise_set_exception in H. heap_inv. by eapply on_state_wf.
  - unfold future_get in H. heap_inv. by eapply on_state_wf.
  - unfold future_new in H. heap_inv. apply wf_add_future; [cbn; lia|done|by apply wf_bump].
  - unfold future_move_ctor in H. heap_inv.
    match goal with E : futures h !! ?r = Some _ |- _ =>
      pose proof (future_lt_next _ _ _ Hwf E);
      apply (wf_move_future (next_loc h) r _ (bump h)); [done|cbn; lia|by apply wf_bump] end.
  - unfold future_move_assign in H. heap_inv; [done|].
    apply wf_move_future; [done| |done]. by eapply future_lt_next.
  - unfold future_dtor in H. heap_inv. by apply wf_delete_future.
Qed.

(** An undelivered state in [h'] that was already undelivered in [h]. *)
Lemma on_state_delivers {A} o (p : Prog (FutureState T) A) h a h' l :
  on_state o p h = Some (a, h') →
  states h' !! l = Some kFuture →
  (∀ s a s', p s = Some (a, s') → s' = kFuture → s = kFuture) →
  states h !! l = Some kFuture.
Proof.
  intros (l0 & s & s' & -> & Hs & Hp & ->)%on_state_Some Hl Hk. cbn in Hl.
  destruct (decide (l0 = l)) as [->|]; simplify_map_eq; [|done].
  f_equal. by eapply Hk.
Qed.

Lemma on_state_promises {A} o (p : Prog (FutureState T) A) h a h' :
  on_state o p h = Some (a, h') → promises h' = promises h.
Proof. by intros (l0 & s & s' & -> & Hs & Hp & ->)%on_state_Some. Qed.

Lemma set_value_available v (s : FutureState T) u s' :
  set_value v s = Some (u, s') → s = kFuture ∧ s' = kResult v.
Proof. unfold set_value. intros H. prog_inv. by case_match. Qed.

Lemma state_get_kFuture (s : FutureState T) r s' :
  state_get moved s = Some (r, s') → s' = kFuture → s = kFuture.
Proof. unfold state_get. intros H ->. by prog_inv. Qed.

Lemma no_orphan_on_state {A} o (p : Prog (FutureState T) A) h a h' :
  no_orphan h → on_state o p h = Some (a, h') →
  (∀ s a s', p s = Some (a, s') → s' = kFuture → s = kFuture) → no_orphan h'.
Proof.
  intros Hno H Hk l Hl. pose proof (on_state_promises _ _ _ _ _ H) as Hp.
  unfold owns. rewrite Hp. apply Hno. by eapply on_state_delivers.
Qed.

(** Without a move assignment, undelivered states keep a promise. *)
Lemma promise_new_no_orphan h p h' :
  heap_wf h → no_orphan h → promise_new h = Some (p, h') → no_orphan h'.
Proof.
  intros Hwf Hno [-> ->]%promise_new_Some l. unfold owns; cbn. intros Hl.
  destruct (decide (next_loc h = l)) as [<-|].
  { exists (Pos.succ (next_loc h)). by rewrite lookup_insert_eq. }
  rewrite lookup_insert_ne in Hl by done. destruct (Hno l Hl) as [p Hp].
  exists p. rewrite lookup_insert_ne; [done|].
  intros <-. unfold owns in Hp. rewrite (wf_fresh_p _ Hwf) in Hp by lia. done.
Qed.

(** What the destructor of a promise does, path by path. *)
Lemma promise_dtor_Some p h u h' :
  promise_dtor p h = Some (u, h') →
  ∃ o h1, promises h !! p = Some o ∧ h' = set_promises (delete p) h1 ∧
    (o = None ∧ h1 = h ∨
     (∃ l s, o = Some l ∧ states h !! l = Some s ∧ available s = true ∧ h1 = h) ∨
     (∃ l, o = Some l ∧ states h !! l = Some kFuture ∧
           h1 = set_states <[l := kException "Broken Promise"]> h)).
Proof.
  unfold promise_dtor. intros H. heap_inv.
  - match goal with E : on_state _ _ _ = _ |- _ =>
      apply on_state_Some in E as (l0 & s0 & s1 & [= <-] & E2 & E3 & ->) end.
    unfold set_exception in E3. prog_inv. bool_to_prop.
    eexists _, _; split_and!; [done|done|]. do 2 right. eexists. split_and!; [done| |done].
    match goal with E : available ?s = false |- _ => by destruct s end.
  - bool_to_prop. eexists _, _; split_and!; [done|done|]. right; left. eauto 10.
  - eexists _, _; split_and!; [done|done|]. by left.
Qed.

Lemma promise_dtor_no_orphan p h u h' :
  heap_wf h → no_orphan h → promise_dtor p h = Some (u, h') → no_orphan h'.
Proof.
  intros Hwf Hno (o & h1 & Hp & -> & Hcases)%promise_dtor_Some l. cbn.
  intros Hl.
  assert (states h !! l = Some kFuture ∧ o ≠ Some l ∧ promises h1 = promises h)
    as (Hl0 & Hne & Heq).
  { destruct Hcases as [(-> & ->) | [(l' & s & -> & Hs & Ha & ->) | (l' & -> & Hs & ->)]].
    - done.
    - split_and!; [done| |done]. intros [= ->]. rewrite Hl in Hs. by injection Hs as <-.
    - cbn in Hl. destruct (decide (l' = l)) as [->|]; simplify_map_eq.
      split_and!; [done|congruence|done]. }
  destruct (Hno l Hl0) as [q Hq]. exists q. unfold owns in *; cbn.
  rewrite Heq, lookup_delete_ne; [done|]. congruence.
Qed.

Lemma promise_move_ctor_no_orphan p h q h' :
  heap_wf h → no_orphan h → promise_move_ctor p h = Some (q, h') → no_orphan h'.
Proof.
  unfold promise_move_ctor. intros Hwf Hno H. heap_inv.
  match goal with E : promises h !! p = Some _ |- _ => rename E into Ep end.
  pose proof (promise_lt_next _ _ _ Hwf Ep).
  intros l'. unfold owns; cbn. intros Hl. destruct (Hno l' Hl) as [r Hr]. unfold owns in Hr.
  destruct (decide (r = p)) as [->|].
  - exists (next_loc h). rewrite Ep in Hr. by rewrite lookup_insert_eq.
  - exists r. rewrite !lookup_insert_ne; [done| |]; [done|].
    intros <-. by rewrite (wf_fresh_p _ Hwf) in Hr.
Qed.

(** As long as promises are not overwritten by move assignment, a future whose
    value was not delivered has a live promise that can still deliver it: every operation
    other than a move assignment preserves this. *)
Theorem exec_no_orphan o h h' :
  is_move_assign o = false → heap_wf h → no_orphan h →
  exec moved o h = Some (tt, h') → no_orphan h'.
Proof.
  intros Ho Hwf Hno. destruct o; cbn [exec]; intros H; try done.
  - heap_inv. by eapply promise_new_no_orphan.
  - by eapply promise_dtor_no_orphan.
  - heap_inv. by eapply promise_move_ctor_no_orphan.
  - unfold get_future in H. heap_inv. done.
  - unfold promise_set_value in H. heap_inv. eapply no_orphan_on_state; eauto.
    intros s a s' [-> ->]%set_value_available. done.
  - unfold promise_set_exception in H. heap_inv. eapply no_orphan_on_state; eauto.
    unfold set_exception. intros s a s' E ?. by prog_inv.
  - unfold future_get in H. heap_inv. eapply no_orphan_on_state; eauto.
    intros s a s' E. by eapply state_get_kFuture.
  - unfold future_new in H. by heap_inv.
  - unfold future_move_ctor in H. by heap_inv.
  - unfold future_move_assign in H. by heap_inv.
  - unfold future_dtor in H. by heap_inv.
Qed.

(** An undelivered state that no promise refers to. *)
Definition orphan h (l : positive) : Prop :=
  states h !! l = Some kFuture ∧ ∀ p, ¬ owns h p l.

Lemma on_state_orphan {A} r (p : Prog (FutureState T) A) h a h' l :
  r ≠ Some l → orphan h l → on_state r p h = Some (a, h') → orphan h' l.
Proof.
  intros Hr [Hl Hno] (l0 & s & s' & -> & Hs & Hp & ->)%on_state_Some.
  split; [|done]. cbn. rewrite lookup_insert_ne; congruence.
Qed.

Lemma future_get_orphan f h r h' l :
  orphan h l → future_get moved f h = Some (r, h') → orphan h' l.
Proof.
  unfold future_get. intros [Hl Hno] H. heap_inv.
  match goal with E : on_state _ _ _ = _ |- _ =>
    apply on_state_Some in E as (l0 & s & s' & -> & Hs & Hp & ->) end.
  split; [|done]. cbn. destruct (decide (l0 = l)) as [->|]; simplify_map_eq; [|done].
  unfold state_get in Hp. by prog_inv.
Qed.

Lemma promise_set_orphan {A} q (p : Prog (FutureState T) A) h a h' l :
  orphan h l → (o ← promise_ref q; on_state o p) h = Some (a, h') → orphan h' l.
Proof.
  intros Hl H. heap_inv. eapply on_state_orphan; [|done..].
  intros ->. by eapply (proj2 Hl).
Qed.

(** Orphans stay orphans: nothing can deliver to them any more. *)
Lemma exec_orphan o h h' l :
  heap_wf h → orphan h l → exec moved o h = Some (tt, h') → orphan h' l.
Proof.
  intros Hwf Hl. pose proof (state_lt_next _ _ _ Hwf (proj1 Hl)).
  destruct o; cbn [exec]; intros H'.
  - heap_inv. match goal with E : promise_new _ = _ |- _ => apply promise_new_Some in E as [-> ->] end.
    destruct Hl as [Hl Hno]. split; cbn; [rewrite lookup_insert_ne by lia; done|].
    intros p. unfold owns; cbn. destruct (decide (Pos.succ (next_loc h) = p)) as [<-|].
    + rewrite lookup_insert_eq. intros [= E]. lia.
    + rewrite lookup_insert_ne by done. apply Hno.
  - apply promise_dtor_Some in H' as (o & h1 & Hp & -> & Hcases).
    destruct Hl as [Hl Hno].
    assert (states h1 !! l = Some kFuture ∧ promises h1 = promises h) as [Hl1 Hp1].
    { destruct Hcases as [(-> & ->) | [(l' & s & -> & Hs & Ha & ->) | (l' & -> & Hs & ->)]];
        try done. cbn. split; [|done]. rewrite lookup_insert_ne; [done|].
      intros ->. by eapply Hno. }
    split; cbn; [done|]. intros q. unfold owns; cbn. rewrite Hp1.
    intros [_ E]%lookup_delete_Some. by eapply Hno.
  - unfold promise_move_ctor in H'. heap_inv. destruct Hl as [Hl Hno]. split; cbn; [done|].
    intros q. unfold owns; cbn. intros E.
    destruct (decide (next_loc h = q)) as [<-|]; simplify_map_eq; [by eapply Hno|].
    destruct (decide (p = q)) as [->|]; simplify_map_eq. by eapply Hno.
  - unfold promise_move_assign in H'. heap_inv; [done|]. destruct Hl as [Hl Hno].
    split; cbn; [done|]. intros q. unfold owns; cbn. intros E.
    destruct (decide (this = q)) as [->|]; simplify_map_eq; [by eapply Hno|].
    destruct (decide (other = q)) as [->|]; simplify_map_eq. by eapply Hno.
  - unfold get_future in H'. heap_inv. done.
  - unfold promise_set_value in H'. by eapply promise_set_orphan.
  - unfold promise_set_exception in H'. by eapply promise_set_orphan.
  - heap_inv. by eapply future_get_orphan.
  - unfold future_new in H'. by heap_inv.
  - unfold future_move_ctor in H'. by heap_inv.
  - unfold future_move_assign in H'. by heap_inv.
  - unfold future_dtor in H'. by heap_inv.
Qed.

Lemma exec_all_orphan os h h' l :
  heap_wf h → orphan h l → exec_all moved os h = Some (tt, h') → orphan h' l.
Proof.
  revert h; induction os as [|o os IH]; intros h Hwf Hl; cbn [exec_all]; intros H; heap_inv; [done|].
  match goal with E : exec _ o h = _ |- _ => rename E into Eo end.
  eapply IH; [by eapply exec_heap_wf_aux|by eapply exec_orphan|done].
Qed.

Lemma empty_heap_wf : heap_wf (empty_heap (T := T)).
Proof. split; unfold owns; cbn; intros; by simplify_map_eq. Qed.

Lemma exec_all_wf os h h' : heap_wf h → exec_all moved os h = Some (tt, h') → heap_wf h'.
Proof.
  revert h; induction os as [|o os IH]; intros h Hwf; cbn [exec_all]; intros H; heap_inv; [done|].
  eapply IH; [by eapply exec_heap_wf_aux|done].
Qed.

(** C37: In every heap a program can reach through promise and future operations, a
    shared state never has two promises that could deliver it, and references of promises and
    futures point to allocated states. *)
Theorem reachable_heap_wf os h' :
  exec_all moved os empty_heap = Some (tt, h') → heap_wf h'.
Proof. apply exec_all_wf, empty_heap_wf. Qed.

Lemma exec_all_app os1 os2 h :
  exec_all moved (os1 ++ os2) h = (exec_all moved os1;; exec_all moved os2) h.
Proof.
  revert h; induction os1 as [|o os1 IH]; intros h; [done|].
  cbn [exec_all app]. unfold mbind, prog_bind in *.
  destruct (exec moved o h) as [[[] h1]|]; [|done]. apply IH.
Qed.

Lemma future_get_Blocked f l h :
  futures h !! f = Some (Some l) → states h !! l = Some kFuture →
  future_get moved f h = Some (Blocked, h).
Proof.
  intros Hf Hs. unfold future_get, future_ref, on_state, deref, state_get, modify, get,
    mbind, prog_bind, mret, prog_ret, set_states.
  rewrite Hf, Hs. rewrite insert_id by done. by destruct h.
Qed.

(** A state whose only promise is overwritten by another one is an orphan. *)
Lemma move_assign_orphan this other l l' h :
  heap_wf h → owns h this l → states h !! l = Some kFuture → this ≠ other → owns h other l' →
  wp (exec moved (OMoveAssign this other)) h (λ _ h1, orphan h1 l ∧ futures h1 = futures h).
Proof.
  intros Hwf Ht Hs Hne Ho. destruct (wf_promise h Hwf other l' Ho) as [s' Es'].
  assert (l ≠ l') as Hll by (intros <-; by apply Hne, (wf_unique h Hwf this other l)).
  unfold owns in Ht, Ho. unfold exec, promise_move_assign. rewrite decide_False by done.
  eapply (wp_eval _ _ tt (set_promises <[this := Some l']> (set_promises <[other := None]> h))).
  { unfold promise_ref, deref, modify, get, put, mbind, prog_bind, mret, prog_ret. rewrite Ht, Ho. cbn.
    by rewrite Es'. }
  split; [|done]. split; [exact Hs|]. intros p. unfold owns. cbn. intros E.
  apply lookup_insert_Some in E as [[_ [=]]|[Hp E]]; [done|].
  apply lookup_insert_Some in E as [[_ [=]]|[_ E]].
  by apply Hp, (wf_unique h Hwf this p l).
Qed.

(** C38: Move-assigning over a promise that was not fulfilled does not break it, unlike
    destroying it. In whatever heap a program has reached, when a promise with an undelivered
    state is assigned another one that has a state, the assignment returns, leaves the futures
    as they are, and every future of the overwritten state, and any future it is moved to, stays
    blocked whatever the program does afterwards. *)
Theorem move_assign_orphans os0 h this other l l' :
  exec_all moved os0 empty_heap = Some (tt, h) →
  promises h !! this = Some (Some l) → states h !! l = Some kFuture →
  this ≠ other → promises h !! other = Some (Some l') →
  wp (exec moved (OMoveAssign this other)) h (λ _ h1,
    futures h1 = futures h ∧
    ∀ os, wlp (exec_all moved os) h1 (λ _ h2, ∀ f, futures h2 !! f = Some (Some l) →
      future_get moved f h2 = Some (Blocked, h2))).
Proof.
  intros H0 Ht Hs Hne Ho. assert (heap_wf h) as Hwf by (by eapply exec_all_wf, H0; apply empty_heap_wf).
  pose proof (move_assign_orphan _ _ _ _ _ Hwf Ht Hs Hne Ho) as Hw. apply wp_exists in Hw as ([] & h1 & E & Horph & Ef).
  eapply wp_eval; [exact E|]. split; [exact Ef|]. intros os.
  unfold wlp. destruct (exec_all moved os h1) as [[[] h2]|] eqn:H; [|done].
  intros f Hf. eapply future_get_Blocked; [exact Hf|].
  apply (exec_all_orphan os h1 h2 l); [by eapply exec_heap_wf_aux, E|done|done].
Qed.

(** A future made by [make_ready_future] delivers its value at once: the destructor
    of the local promise does not break it. *)
Theorem make_ready_future_get v h :
  wp (make_ready_future v ≫= future_get moved) h (λ r _, r = Value v).
Proof.
  unfold wp, make_ready_future, promise_new, promise_set_value, get_future, promise_dtor,
    future_get, promise_ref, future_ref, on_state, deref, alloc, set_value, state_get,
    boost_assert, modify, get, put, mbind, prog_bind, mret, prog_ret.
  repeat (progress (cbn; rewrite ?lookup_insert_eq)). done.
Qed.
End theorems.

(** ** Witnesses *)
Module Witness.
(** A promise is made, moved to another object, asked for its future, and fulfilled. *)
Definition ops0 : list (FutureOp (T := nat)) := [ONew; OMoveCtor 2; OGetFuture 3; OSetValue 3 7].
Definition heap0 : Heap (T := nat) :=
  mkHeap {[1%positive := kResult 7]} {[2%positive := None; 3%positive := Some 1%positive]}
    {[4%positive := Some 1%positive]} 5.

Lemma ops0_run : exec_all id ops0 empty_heap = Some (tt, heap0).
Proof. vm_compute. reflexivity. Qed.

Lemma reachable_heap_wf_witness : heap_wf heap0.
Proof.
  pose proof (reachable_heap_wf id ops0 heap0 ops0_run) as Hw. exact Hw.
Defined.

(** A promise whose future was taken, and a second promise. *)
Definition ops1 : list (FutureOp (T := nat)) := [ONew; OGetFuture 2; ONew].
Definition heap1 : Heap (T := nat) :=
  mkHeap {[1%positive := kFuture; 4%positive := kFuture]}
    {[2%positive := Some 1%positive; 5%positive := Some 4%positive]} {[3%positive := Some 1%positive]} 6.
Lemma ops1_run : exec_all id ops1 empty_heap = Some (tt, heap1).
Proof. vm_compute. reflexivity. Qed.

Lemma move_assign_orphans_witness :
  wp (exec id (OMoveAssign 2 5)) heap1 (λ _ h1, futures h1 = {[3%positive := Some 1%positive]} ∧
    ∀ os, wlp (exec_all id os) h1 (λ _ h2, ∀ f, futures h2 !! f = Some (Some 1%positive) →
      future_get id f h2 = Some (Blocked, h2))).
Proof.
  pose proof (move_assign_orphans id ops1 heap1 2 5 1 4 ops1_run eq_refl eq_refl ltac:(done) eq_refl) as Hw.
  exact Hw.
Defined.

Lemma new_run : exec id ONew (empty_heap (T := nat)) =
  Some (tt, mkHeap {[1%positive := kFuture]} {[2%positive := Some 1%positive]} ∅ 3).
Proof. vm_compute. reflexivity. Qed.

Lemma empty_no_orphan : no_orphan (empty_heap (T := nat)).
Proof. by intros l. Qed.

Lemma exec_no_orphan_witness :
  no_orphan (mkHeap {[1%positive := kFuture (T := nat)]} {[2%positive := Some 1%positive]} ∅ 3).
Proof.
  pose proof (exec_no_orphan id ONew empty_heap _ eq_refl empty_heap_wf empty_no_orphan new_run) as Hw.
  exact Hw.
Defined.
End Witness.
