(* ===== verification/FutureVoid.v ===== *)
(** * Promises and futures of [void] ([include/pain/base/future.h])

    The header specializes [FutureState], [Future], [Promise] and [make_ready_future] for
    [void], repeating the code of the primary templates without the value. The
    specializations are translated here on their own, and proved equivalent to the primary
    templates of [Future.v] at a type with one value: every operation does the same to
    corresponding heaps, fails in the same cases and returns the same results. *)
From S2P Require Import Prelude Future.
Set Default Goal Selector "!".

Module FutureVoid.

(** [FutureState<void>]. *)
Inductive VoidState := kFuture | kResult | kException (ex : exception).

Definition failed (s : VoidState) : bool := match s with kException _ => true | _ => false end.

Definition available (s : VoidState) : bool :=
  match s with kResult | kException _ => true | kFuture => false end.

Definition set_value : Prog VoidState unit :=
  s ← get; boost_assert (match s with kFuture => true | _ => false end);; put kResult.

Definition set_exception (ex : exception) : Prog VoidState unit := put (kException ex).

Definition state_get : Prog VoidState (GetResult unit) :=
  s ← get;
  mret (match s with kFuture => Blocked | kException ex => Throw ex | kResult => Value tt end).

(** [Promise<void>] and [Future<void>] objects. *)
Record Heap := mkHeap {
  states : gmap positive VoidState;
  promises : gmap positive (option positive);
  futures : gmap positive (option positive);
  next_loc : positive;
}.
Definition empty_heap : Heap := mkHeap ∅ ∅ ∅ 1.
Definition set_states f h := mkHeap (f (states h)) (promises h) (futures h) (next_loc h).
Definition set_promises f h := mkHeap (states h) (f (promises h)) (futures h) (next_loc h).
Definition set_futures f h := mkHeap (states h) (promises h) (f (futures h)) (next_loc h).

Definition alloc : Prog Heap positive :=
  h ← get;
  put (mkHeap (states h) (promises h) (futures h) (Pos.succ (next_loc h)));;
  mret (next_loc h).

Definition deref (o : option positive) : Prog Heap (positive * VoidState) :=
  h ← get;
  match o with
  | None => abort
  | Some l => match states h !! l with None => abort | Some s => mret (l, s) end
  end.

Definition on_state {A} (o : option positive) (p : Prog VoidState A) : Prog Heap A :=
  '(l, s) ← deref o;
  match p s with
  | None => abort
  | Some (a, s') => modify (set_states <[l := s']>);; mret a
  end.

Definition promise_ref (p : positive) : Prog Heap (option positive) :=
  h ← get; match promises h !! p with None => abort | Some o => mret o end.
Definition future_ref (f : positive) : Prog Heap (option positive) :=
  h ← get; match futures h !! f with None => abort | Some o => mret o end.

Definition promise_new : Prog Heap positive :=
  l ← alloc;
  modify (set_states <[l := kFuture]>);;
  p ← alloc;
  modify (set_promises <[p := Some l]>);;
  mret p.

Definition promise_dtor (p : positive) : Prog Heap unit :=
  o ← promise_ref p;
  (match o with
   | None => mret tt
   | Some _ =>
       '(_, s) ← deref o;
       if negb (available s) then on_state o (set_exception "Broken Promise") else mret tt
   end);;
  modify (set_promises (delete p)).

Definition promise_move_ctor (other : positive) : Prog Heap positive :=
  o ← promise_ref other;
  _ ← deref o;
  modify (set_promises <[other := None]>);;
  p ← alloc;
  modify (set_promises <[p := o]>);;
  mret p.

Definition promise_move_assign (this other : positive) : Prog Heap unit :=
  if decide (this = other) then mret tt else
  _ ← promise_ref this;
  o ← promise_ref other;
  modify (set_promises <[other := None]>);;
  modify (set_promises <[this := o]>);;
  _ ← deref o;
  mret tt.

Definition get_future (p : positive) : Prog Heap positive :=
  o ← promise_ref p;
  boost_assert (bool_decide (is_Some o));;
  f ← alloc;
  modify (set_futures <[f := o]>);;
  mret f.

Definition promise_set_value (p : positive) : Prog Heap unit :=
  o ← promise_ref p; on_state o set_value.

Definition promise_set_exception (p : positive) (ex : exception) : Prog Heap unit :=
  o ← promise_ref p; on_state o (set_exception ex).

Definition future_new : Prog Heap positive :=
  f ← alloc; modify (set_futures <[f := None]>);; mret f.

Definition future_move_ctor (rhs : positive) : Prog Heap positive :=
  o ← future_ref rhs;
  modify (set_futures <[rhs := None]>);;
  f ← alloc;
  modify (set_futures <[f := o]>);;
  mret f.

Definition future_move_assign (this rhs : positive) : Prog Heap unit :=
  if decide (this = rhs) then mret tt else
  _ ← future_ref this;
  o ← future_ref rhs;
  modify (set_futures <[rhs := None]>);;
  modify (set_futures <[this := o]>).

Definition future_dtor (f : positive) : Prog Heap unit := modify (set_futures (delete f)).

Definition future_get (f : positive) : Prog Heap (GetResult unit) :=
  o ← future_ref f; on_state o state_get.

(** [make_ready_future()]. *)
Definition make_ready_future : Prog Heap positive :=
  p ← promise_new;
  promise_set_value p;;
  f ← get_future p;
  promise_dtor p;;
  mret f.

(** The operations, named as those of the primary templates. *)
Definition exec (o : FutureOp (T := unit)) : Prog Heap unit :=
  match o with
  | ONew => _ ← promise_new; mret tt
  | ODtor p => promise_dtor p
  | OMoveCtor p => _ ← promise_move_ctor p; mret tt
  | OMoveAssign a b => promise_move_assign a b
  | OGetFuture p => _ ← get_future p; mret tt
  | OSetValue p _ => promise_set_value p
  | OSetException p ex => promise_set_exception p ex
  | OGet f => _ ← future_get f; mret tt
  | OFutureNew => _ ← future_new; mret tt
  | OFutureMoveCtor rhs => _ ← future_move_ctor rhs; mret tt
  | OFutureMoveAssign this rhs => future_move_assign this rhs
  | OFutureDtor f => future_dtor f
  end.

Fixpoint exec_all (os : list (FutureOp (T := unit))) : Prog Heap unit :=
  match os with
  | [] => mret tt
  | o :: rest => exec o;; exec_all rest
  end.

(** ** Correspondence *)
Definition generic_state (s : VoidState) : FutureState unit :=
  match s with
  | kFuture => Future.kFuture | kResult => Future.kResult tt | kException ex => Future.kException ex
  end.
Definition generic (h : Heap) : Future.Heap (T := unit) :=
  Future.mkHeap (generic_state <$> states h) (promises h) (futures h) (next_loc h).

(** The program [q] does to the image of a state what [p] does to the state. *)
Definition same {S T A B} (g : S → T) (r : A → B) (p : Prog S A) (q : Prog T B) : Prop :=
  ∀ s, q (g s) = (λ x, (r (fst x), g (snd x))) <$> p s.

Section same.
Context {S T : Type} (g : S → T).

Lemma same_ret {A B} (r : A → B) a : same g r (mret a) (mret (r a)).
Proof. by intros s. Qed.
Lemma same_abort {A B} (r : A → B) : same g r abort abort.
Proof. by intros s. Qed.
Lemma same_bind {A1 A2 B1 B2} (r1 : A1 → A2) (r2 : B1 → B2) p q f k :
  same g r1 p q → (∀ a, same g r2 (f a) (k (r1 a))) → same g r2 (p ≫= f) (q ≫= k).
Proof.
  intros Hp Hf s. unfold mbind, prog_bind. rewrite Hp.
  destruct (p s) as [[a s']|]; cbn; [apply Hf|done].
Qed.
Lemma same_get : same g g get get.
Proof. by intros s. Qed.
Lemma same_modify (f : S → S) (k : T → T) : (∀ s, k (g s) = g (f s)) → same g id (modify f) (modify k).
Proof. intros E s. unfold modify. cbn. by rewrite E. Qed.
Lemma same_put s : same g id (put s) (put (g s)).
Proof. by intros s'. Qed.
Lemma same_assert b : same g id (boost_assert b) (boost_assert b).
Proof. by destruct b. Qed.
End same.

Lemma same_alloc : same generic id alloc Future.alloc.
Proof. by intros h. Qed.
Lemma same_promise_ref p : same generic id (promise_ref p) (Future.promise_ref p).
Proof.
  eapply same_bind; [apply same_get|]. intros h. cbn.
  destruct (promises h !! p); [apply (same_ret generic id)|apply same_abort].
Qed.
Lemma same_future_ref f : same generic id (future_ref f) (Future.future_ref f).
Proof.
  eapply same_bind; [apply same_get|]. intros h. cbn.
  destruct (futures h !! f); [apply (same_ret generic id)|apply same_abort].
Qed.
Lemma same_deref o : same generic (prod_map id generic_state) (deref o) (Future.deref o).
Proof.
  eapply same_bind; [apply same_get|]. intros h. destruct o as [l|]; [|apply same_abort]. cbn.
  rewrite lookup_fmap. destruct (states h !! l) as [s|]; cbn; [|apply same_abort].
  apply (same_ret generic (prod_map id generic_state) (l, s)).
Qed.
Lemma same_promises f :
  same generic id (modify (set_promises f)) (modify (Future.set_promises f)).
Proof. by apply same_modify. Qed.
Lemma same_futures f : same generic id (modify (set_futures f)) (modify (Future.set_futures f)).
Proof. by apply same_modify. Qed.
Lemma same_states l s :
  same generic id (modify (set_states <[l := s]>))
    (modify (Future.set_states <[l := generic_state s]>)).
Proof.
  apply same_modify. intros h. unfold generic, Future.set_states. cbn. by rewrite fmap_insert.
Qed.

(** A state operation, applied through a reference. *)
Lemma same_on_state {A} o (p : Prog VoidState A) q :
  same generic_state id p q → same generic id (on_state o p) (Future.on_state o q).
Proof.
  intros Hp. eapply same_bind; [apply same_deref|]. intros [l s]. cbn. rewrite Hp.
  destruct (p s) as [[a s']|]; cbn; [|apply same_abort].
  eapply same_bind; [apply same_states|]. intros []. apply (same_ret generic id).
Qed.

Lemma same_set_value : same generic_state id set_value (Future.set_value tt).
Proof. intros [| |ex]; done. Qed.
Lemma same_set_exception ex : same generic_state id (set_exception ex) (Future.set_exception ex).
Proof. by intros s. Qed.
Lemma same_state_get : same generic_state id state_get (Future.state_get id).
Proof. intros [| |ex]; done. Qed.
Lemma same_available s : Future.available (generic_state s) = available s.
Proof. by destruct s. Qed.

(** One step along two programs of the same shape. *)
Ltac same_step :=
  match goal with
  | |- same _ _ (match ?x with _ => _ end) (match ?x with _ => _ end) => destruct x
  | |- same _ _ (if ?x then _ else _) (if ?x then _ else _) => destruct x
  | |- same _ _ (_ ≫= _) (_ ≫= _) => eapply same_bind; [|intros ?; cbn [id]]
  | |- same _ _ (mret _) (mret _) => apply (same_ret generic id)
  | |- same _ _ alloc _ => apply same_alloc
  | |- same _ _ (promise_ref _) _ => apply same_promise_ref
  | |- same _ _ (future_ref _) _ => apply same_future_ref
  | |- same _ _ (deref _) _ => apply same_deref
  | |- same _ _ (boost_assert _) _ => apply same_assert
  | |- same _ _ (modify (set_promises _)) _ => apply same_promises
  | |- same _ _ (modify (set_futures _)) _ => apply same_futures
  | |- same _ _ (modify (set_states _)) _ => apply same_states
  | |- same _ _ (on_state _ _) _ => apply same_on_state
  end.
Ltac same_tac := repeat same_step; auto using same_set_value, same_set_exception, same_state_get.

Lemma same_promise_new : same generic id promise_new Future.promise_new.
Proof. unfold promise_new, Future.promise_new. same_tac. Qed.
Lemma same_promise_dtor p : same generic id (promise_dtor p) (Future.promise_dtor p).
Proof.
  unfold promise_dtor, Future.promise_dtor. eapply same_bind; [apply same_promise_ref|].
  intros o. eapply (same_bind _ id id); [|intros []; apply same_promises].
  destruct o as [l|]; [|apply (same_ret generic id)].
  eapply same_bind; [apply same_deref|]. intros [l' s]. cbn [prod_map fst snd id].
  rewrite same_available. same_tac.
Qed.
Lemma same_get_future p : same generic id (get_future p) (Future.get_future p).
Proof. unfold get_future, Future.get_future. same_tac. Qed.
Lemma same_promise_set_value p :
  same generic id (promise_set_value p) (Future.promise_set_value p tt).
Proof. unfold promise_set_value, Future.promise_set_value. same_tac. Qed.

Lemma same_exec o : same generic id (exec o) (Future.exec id o).
Proof.
  destruct o; cbn [exec Future.exec].
  - eapply same_bind; [apply same_promise_new|]. intros p. apply (same_ret generic id).
  - apply same_promise_dtor.
  - unfold promise_move_ctor, Future.promise_move_ctor. same_tac.
  - unfold promise_move_assign, Future.promise_move_assign. same_tac.
  - eapply same_bind; [apply same_get_future|]. intros f. apply (same_ret generic id).
  - destruct v. apply same_promise_set_value.
  - unfold promise_set_exception, Future.promise_set_exception. same_tac.
  - unfold future_get, Future.future_get. same_tac.
  - unfold future_new, Future.future_new. same_tac.
  - unfold future_move_ctor, Future.future_move_ctor. same_tac.
  - unfold future_move_assign, Future.future_move_assign. same_tac.
  - unfold future_dtor, Future.future_dtor. same_tac.
Qed.

(** C32: The hand-written specializations for [void] do what the primary templates
    do at a type with a single value: for every sequence of operations they fail an assertion
    or dereference a null state in the same cases, and end in corresponding heaps; reading a
    future and [make_ready_future] give the same results. *)
Theorem void_equivalent os f h :
  Future.exec_all id os (generic h) = (λ x, (tt, generic (snd x))) <$> exec_all os h ∧
  Future.future_get id f (generic h) = (λ x, (fst x, generic (snd x))) <$> future_get f h ∧
  Future.make_ready_future tt (generic h) = (λ x, (fst x, generic (snd x))) <$> make_ready_future h.
Proof.
  split_and!.
  - assert (same generic id (exec_all os) (Future.exec_all id os)) as Hs.
    { induction os as [|o os IH]; cbn [exec_all Future.exec_all]; [apply (same_ret generic id)|].
      eapply same_bind; [apply same_exec|]. by intros []. }
    rewrite Hs. by destruct (exec_all os h) as [[[] h']|].
  - assert (same generic id (future_get f) (Future.future_get id f)) as Hs.
    { unfold future_get, Future.future_get. same_tac. }
    apply Hs.
  - assert (same generic id make_ready_future (Future.make_ready_future tt)) as Hs.
    { eapply same_bind; [apply same_promise_new|]. intros p.
      eapply same_bind; [apply same_promise_set_value|]. intros [].
      eapply same_bind; [apply same_get_future|]. intros f'.
      eapply same_bind; [apply same_promise_dtor|]. intros []. apply (same_ret generic id). }
    apply Hs.
Qed.
End FutureVoid.
