(* ===== verification/FutureStorage.v ===== *)
(** * The storage of a shared state ([include/pain/base/future.h])

    A [FutureState] keeps its tag and its contents apart: the contents are a union of the value and
    of an exception, built by placement [new] or by assignment and taken down by a destructor that
    switches on the tag. [Future] models the two together, as a value of an inductive type. Here
    they are apart: which operations the union supports, that the destructor takes down exactly
    what was built, and that [Future] describes it, but for an exception that is delivered over
    a value. [StorageVoid] is the specialization for [void]. *)
From S2P Require Import Prelude Future.
Set Default Goal Selector "!".

(** [FutureState::State]. *)
Inductive State := SFuture | SResult | SException.

(** The calls of a state that its promise and its futures make. *)
Inductive StateOp (T : Type) :=
| CSetValue (value : T)
| CSetException (ex : exception)
| CGet.
Arguments CSetValue {T} value.
Arguments CSetException {T} ex.
Arguments CGet {T}.

(** The same calls on the states of [Future]; those that return nothing answer [None]. *)
Definition abstract_call {T} (moved : T → T) (op : StateOp T) :
    Prog (FutureState T) (option (GetResult T)) :=
  match op with
  | CSetValue v => set_value v;; mret None
  | CSetException ex => set_exception ex;; mret None
  | CGet => r ← state_get moved; mret (Some r)
  end.

(** ** The primary template *)
Module Storage.
Section storage.
Context {T : Type} (moved : T → T).

(** The union: bytes that nothing was built in, which [make_shared] has zeroed, so that they
    read as a null [exception_ptr]; a value; an exception. *)
Inductive Any := Bytes | AValue (value : T) | AEx (ex : exception).

(** A state in memory, and how often its code built and destroyed a value or took and dropped a
    reference to an exception. *)
Record Cell := mkCell {
  state : State;
  u : Any;
  values_built : nat; values_destroyed : nat;
  exceptions_taken : nat; exceptions_dropped : nat;
}.

Definition new_cell : Cell := mkCell SFuture Bytes 0 0 0 0.

(** [new (&u.value) T(value)]. *)
Definition build (value : T) : Prog Cell unit :=
  modify (λ c, mkCell (state c) (AValue value) (S (values_built c)) (values_destroyed c)
                 (exceptions_taken c) (exceptions_dropped c)).

(** [u.ex = std::move(ex)]: drops what [u.ex] held. Over a value the bytes are no exception. *)
Definition assign_ex (ex : exception) : Prog Cell unit :=
  c ← get;
  match u c with
  | Bytes => put (mkCell (state c) (AEx ex) (values_built c) (values_destroyed c)
                    (S (exceptions_taken c)) (exceptions_dropped c))
  | AEx _ => put (mkCell (state c) (AEx ex) (values_built c) (values_destroyed c)
                    (S (exceptions_taken c)) (S (exceptions_dropped c)))
  | AValue _ => abort
  end.

Definition set_state (st : State) : Prog Cell unit :=
  modify (λ c, mkCell st (u c) (values_built c) (values_destroyed c)
                 (exceptions_taken c) (exceptions_dropped c)).

Definition set_value (value : T) : Prog Cell unit :=
  c ← get;
  boost_assert (match state c with SFuture => true | _ => false end);;
  set_state SResult;;
  build value.

Definition set_exception (ex : exception) : Prog Cell unit :=
  set_state SException;;
  assign_ex ex.

Definition get : Prog Cell (GetResult T) :=
  c ← get;
  match state c, u c with
  | SFuture, _ => mret Blocked
  | SException, AEx ex => mret (Throw ex)
  | SResult, AValue v =>
      put (mkCell (state c) (AValue (moved v)) (values_built c) (values_destroyed c)
             (exceptions_taken c) (exceptions_dropped c));;
      mret (Value v)
  | _, _ => abort
  end.

Definition failed (c : Cell) : bool := match state c with SException => true | _ => false end.
Definition available (c : Cell) : bool :=
  match state c with SResult | SException => true | SFuture => false end.

(** [~FutureState()]. *)
Definition state_dtor : Prog Cell unit :=
  c ← Prelude.get;
  match state c, u c with
  | SFuture, _ => mret tt
  | SResult, AValue _ =>
      put (mkCell (state c) Bytes (values_built c) (S (values_destroyed c))
             (exceptions_taken c) (exceptions_dropped c))
  | SException, AEx _ =>
      put (mkCell (state c) Bytes (values_built c) (values_destroyed c)
             (exceptions_taken c) (S (exceptions_dropped c)))
  | _, _ => abort
  end.

Definition call (op : StateOp T) : Prog Cell (option (GetResult T)) :=
  match op with
  | CSetValue v => set_value v;; mret None
  | CSetException ex => set_exception ex;; mret None
  | CGet => r ← get; mret (Some r)
  end.

Fixpoint calls (ops : list (StateOp T)) : Prog Cell unit :=
  match ops with
  | [] => mret tt
  | op :: ops => _ ← call op; calls ops
  end.

(** The state of [Future] that a cell stands for: the tag agrees with the union, and what was
    built and not destroyed is in the union. *)
Definition rep (c : Cell) (s : FutureState T) : Prop :=
  match s with
  | kFuture => state c = SFuture ∧ u c = Bytes
  | kResult v => state c = SResult ∧ u c = AValue v
  | kException ex => state c = SException ∧ u c = AEx ex
  end ∧
  values_built c = values_destroyed c + (match s with kResult _ => 1 | _ => 0 end) ∧
  exceptions_taken c = exceptions_dropped c + (match s with kException _ => 1 | _ => 0 end).

(** An exception delivered over a value. *)
Definition overwrites (op : StateOp T) (s : FutureState T) : bool :=
  match op, s with CSetException _, kResult _ => true | _, _ => false end.
End storage.
Arguments Any : clear implicits.
Arguments Cell : clear implicits.

Section theorems.
Context {T : Type} (moved : T → T).
Implicit Types (c : Cell T) (s : FutureState T) (op : StateOp T).

Lemma rep_new : rep new_cell (kFuture (T := T)).
Proof. done. Qed.

Lemma queries c s : rep c s → failed c = Future.failed s ∧ available c = Future.available s.
Proof. unfold failed, available. by destruct s; intros [[-> _] _]. Qed.

(** Call by call the storage does what [Future] says, answers included, unless an exception is
    delivered over a value: that one has no defined effect, where [Future] replaces the value. *)
Theorem call_refines op c s :
  rep c s →
  match abstract_call moved op s with
  | Some (r, s') =>
      if overwrites op s then call moved op c = None
      else ∃ c', call moved op c = Some (r, c') ∧ rep c' s'
  | None => call moved op c = None
  end.
Proof.
  destruct c as [st x b d t e]. unfold rep; cbn.
  destruct s as [|v|ex]; intros [[-> ->] [-> ->]]; destruct op as [v'|ex'|]; cbn; try done;
    (eexists; split; [reflexivity|]; cbn; split_and!; first [done|lia]).
Qed.

Lemma call_rep op c s r c' :
  rep c s → call moved op c = Some (r, c') → ∃ s', rep c' s'.
Proof.
  intros Hr E. pose proof (call_refines op c s Hr) as Hc.
  destruct (abstract_call moved op s) as [[r' s']|]; [|congruence].
  destruct (overwrites op s); [congruence|]. destruct Hc as (c1 & E1 & Hc).
  rewrite E in E1. injection E1 as <- <-. by eexists.
Qed.

Lemma calls_rep ops c s c' : rep c s → calls moved ops c = Some (tt, c') → ∃ s', rep c' s'.
Proof.
  revert c s; induction ops as [|op ops IH]; intros c s Hr; cbn [calls]; intros E; prog_inv; [by eexists|].
  match goal with E1 : call moved op c = Some _ |- _ => destruct (call_rep _ _ _ _ _ Hr E1) as [s1 Hr1] end.
  by eapply IH.
Qed.

Lemma dtor_balances c s :
  rep c s →
  wp state_dtor c (λ _ c', values_built c' = values_destroyed c' ∧ exceptions_taken c' = exceptions_dropped c').
Proof.
  destruct c as [st x b d t e]. unfold rep; cbn.
  destruct s as [|v|ex]; intros [[-> ->] [-> ->]]; (eapply wp_eval; [reflexivity|cbn; lia]).
Qed.

(** Whatever calls a state served, its destructor runs and leaves nothing behind: every value that
    was built was destroyed once, every reference to an exception dropped once. *)
Theorem state_balances ops c' :
  calls moved ops new_cell = Some (tt, c') →
  wp state_dtor c' (λ _ c2, values_built c2 = values_destroyed c2 ∧ exceptions_taken c2 = exceptions_dropped c2).
Proof. intros E. destruct (calls_rep _ _ _ _ rep_new E) as [s Hr]. by eapply dtor_balances. Qed.

(** A promise that fails after it was kept: [set_value] asserts that nothing was delivered,
    [set_exception] does not, and assigns an exception over the bytes of the value. *)
Theorem exception_over_value v ex :
  calls moved [CSetValue v; CSetException ex] new_cell = None.
Proof. reflexivity. Qed.
End theorems.
End Storage.

(** ** The specialization for [void] *)
Module StorageVoid.

(** The union of the specialization: zeroed bytes or an exception. *)
Inductive VoidAny := VoidBytes | VoidEx (ex : exception).

Record VoidCell := mkVoidCell { vstate : State; vu : VoidAny; void_taken : nat; void_dropped : nat }.
Definition new_void_cell : VoidCell := mkVoidCell SFuture VoidBytes 0 0.

Definition void_assign_ex (ex : exception) : Prog VoidCell unit :=
  modify (λ c, mkVoidCell (vstate c) (VoidEx ex) (S (void_taken c))
                 (match vu c with VoidBytes => 0 | VoidEx _ => 1 end + void_dropped c)).
Definition void_set_state (st : State) : Prog VoidCell unit :=
  modify (λ c, mkVoidCell st (vu c) (void_taken c) (void_dropped c)).

Definition void_set_value : Prog VoidCell unit :=
  c ← get;
  boost_assert (match vstate c with SFuture => true | _ => false end);;
  void_set_state SResult.
Definition void_set_exception (ex : exception) : Prog VoidCell unit :=
  void_set_state SException;;
  void_assign_ex ex.
Definition void_get : Prog VoidCell (GetResult unit) :=
  c ← get;
  match vstate c, vu c with
  | SFuture, _ => mret Blocked
  | SException, VoidEx ex => mret (Throw ex)
  | SException, VoidBytes => abort
  | SResult, _ => mret (Value tt)
  end.

(** [~FutureState()]: a kept promise leaves nothing to destroy. *)
Definition void_state_dtor : Prog VoidCell unit :=
  c ← get;
  match vstate c, vu c with
  | SFuture, _ | SResult, _ => mret tt
  | SException, VoidEx _ => put (mkVoidCell (vstate c) VoidBytes (void_taken c) (S (void_dropped c)))
  | SException, VoidBytes => abort
  end.

Definition void_call (op : StateOp unit) : Prog VoidCell (option (GetResult unit)) :=
  match op with
  | CSetValue _ => void_set_value;; mret None
  | CSetException ex => void_set_exception ex;; mret None
  | CGet => r ← void_get; mret (Some r)
  end.

Fixpoint void_calls (ops : list (StateOp unit)) : Prog VoidCell unit :=
  match ops with
  | [] => mret tt
  | op :: ops => _ ← void_call op; void_calls ops
  end.

Definition void_rep (c : VoidCell) (s : FutureState unit) : Prop :=
  match s with
  | kFuture => vstate c = SFuture ∧ vu c = VoidBytes
  | kResult _ => vstate c = SResult ∧ vu c = VoidBytes
  | kException ex => vstate c = SException ∧ vu c = VoidEx ex
  end ∧
  void_taken c = void_dropped c + (match s with kException _ => 1 | _ => 0 end).

(** For [void] the storage does what [Future] says on every call: there is no value
    that an exception could be assigned over. *)
Theorem void_call_refines op c s :
  void_rep c s →
  match abstract_call (λ v, v) op s with
  | Some (r, s') => ∃ c', void_call op c = Some (r, c') ∧ void_rep c' s'
  | None => void_call op c = None
  end.
Proof.
  destruct c as [st x t e]. unfold void_rep; cbn.
  destruct s as [|[]|ex]; intros [[-> ->] ->]; destruct op as [v'|ex'|]; cbn; try done;
    (eexists; split; [reflexivity|]; cbn; split_and!; first [done|lia]).
Qed.

Lemma void_calls_rep ops c s c' : void_rep c s → void_calls ops c = Some (tt, c') → ∃ s', void_rep c' s'.
Proof.
  revert c s; induction ops as [|op ops IH]; intros c s Hr; cbn [void_calls]; intros E; prog_inv; [by eexists|].
  pose proof (void_call_refines op c s Hr) as Hc.
  destruct (abstract_call _ op s) as [[r1 s1]|]; [|congruence]. destruct Hc as (c1 & E1 & Hc1).
  simplify_eq. by eapply IH.
Qed.

(** Whatever calls a state of [void] served, its destructor drops every exception it still holds. *)
Theorem void_state_balances ops c' :
  void_calls ops new_void_cell = Some (tt, c') →
  wp void_state_dtor c' (λ _ c2, void_taken c2 = void_dropped c2).
Proof.
  intros E. destruct (void_calls_rep ops new_void_cell kFuture c' ltac:(done) E) as [s Hr].
  destruct c' as [st x t e]. unfold void_rep in Hr; cbn in Hr.
  destruct s as [|[]|ex]; destruct Hr as [[-> ->] ->]; (eapply wp_eval; [reflexivity|cbn; lia]).
Qed.
End StorageVoid.

Module Witness.
Import Storage.

(** A value delivered and taken twice: the second reader gets what the move left. *)
Lemma state_balances_witness :
  ∃ c, calls (λ _, 0) [CSetValue 7; CGet; CGet] new_cell = Some (tt, c) ∧
    wp state_dtor c (λ _ c2, values_built c2 = values_destroyed c2 ∧ exceptions_taken c2 = exceptions_dropped c2).
Proof.
  eexists. split; [reflexivity|]. by apply (state_balances (λ _, 0) [CSetValue 7; CGet; CGet]).
Defined.

Lemma call_refines_witness :
  ∃ c, call (λ _, 0) (CSetValue 7) new_cell = Some (None, c) ∧ rep c (kResult 7).
Proof. exact (call_refines (λ _, 0) (CSetValue 7) new_cell kFuture rep_new). Defined.

Lemma void_state_balances_witness :
  ∃ c, StorageVoid.void_calls [CSetException "a"; CSetException "b"] StorageVoid.new_void_cell = Some (tt, c) ∧
    wp StorageVoid.void_state_dtor c (λ _ c2, StorageVoid.void_taken c2 = StorageVoid.void_dropped c2).
Proof.
  eexists. split; [reflexivity|].
  by apply (StorageVoid.void_state_balances [CSetException "a"; CSetException "b"]).
Defined.
End Witness.
