(* ===== verification/ErasureCode.v ===== *)
(** * The erasure coding demonstration ([src/examples/ec/ec_demo.c])

    The program cuts random data into [k] source fragments, computes [p] parity fragments with
    ISA-L, forgets up to [p] of the fragments and rebuilds them from [k] that are left. The code of
    the repository is the reading of options, and [gf_gen_decode_matrix_simple], which selects
    surviving rows of the coding matrix, has them inverted and assembles the rows that rebuild
    what was lost. The arithmetic of GF(2^8) and the coding itself are ISA-L's ([IsalOps]).

    A run is undefined when it indexes an array outside its bounds, divides by zero or overflows an
    [int]; otherwise it ends in a value or in the exit of the process ([Outcome]). The theorems
    show that the assembled rows rebuild every lost fragment, source or parity, and that a run
    ends well for all options but the absurd ones, for which it is undefined. *)
From Stdlib Require Import Strings.Byte Strings.Ascii.
From S2P Require Import Prelude Bytes.
Set Default Goal Selector "!".

(** ** ISA-L

    Matrices are arrays of bytes, row by row. [gf_invert_matrix] destroys the matrix it reads;
    what it answers is the inverse, or nothing for a singular matrix. [ec_encode_data len k rows
    tables data] computes [rows] buffers from the [k] buffers of [data]. *)
Class IsalOps := {
  gf_mul : byte → byte → byte;
  gf_gen_cauchy1_matrix : nat → nat → list byte;                (* rows, columns *)
  gf_invert_matrix : list byte → nat → option (list byte);
  Tables : Type;
  ec_init_tables : nat → nat → list byte → Tables;
  ec_encode_data : nat → nat → nat → Tables → list (list byte) → list (list byte);
}.

(** [rand] and [srand]. *)
Class RandOps := { Rng : Type; rand : Rng → Z * Rng; srand : Z → Rng }.
Class RandLaws `{RandOps} : Prop := { rand_nonneg g : (0 <= fst (rand g))%Z }.

(** [a ^ b] on bytes. *)
Definition xor (a b : byte) : byte := byte_of_Z (Z.lxor (byte_to_Z a) (byte_to_Z b)).
(** [s = 0; for (l = 0; l < n; l++) s ^= f(l);] *)
Fixpoint xsum (n : nat) (f : nat → byte) : byte :=
  match n with O => x00 | S n => xor (xsum n f) (f n) end.
(** Row [i], column [j] of a matrix with [n] columns. *)
Definition entry (a : list byte) (n i j : nat) : byte := default x00 (a !! (n * i + j)%nat).
(** Byte [x] of buffer [j]. *)
Definition symbol (data : list (list byte)) (j x : nat) : byte := default x00 (data !! j ≫= (.!! x)).
Definition delta (i j : nat) : byte := if (i =? j)%nat then x01 else x00.

Class IsalLaws `{IsalOps} : Prop := {
  gf_mul_xor a b c : gf_mul a (xor b c) = xor (gf_mul a b) (gf_mul a c);
  gf_mul_assoc a b c : gf_mul a (gf_mul b c) = gf_mul (gf_mul a b) c;
  gf_mul_comm a b : gf_mul a b = gf_mul b a;
  gf_mul_1 a : gf_mul x01 a = a;
  cauchy_length m k : length (gf_gen_cauchy1_matrix m k) = (m * k)%nat;
  cauchy_identity m k i j :
    (k <= m)%nat → (i < k)%nat → (j < k)%nat → entry (gf_gen_cauchy1_matrix m k) k i j = delta i j;
  invert_inverse b inv n :
    length b = (n * n)%nat → gf_invert_matrix b n = Some inv →
    length inv = (n * n)%nat ∧
    ∀ i j, (i < n)%nat → (j < n)%nat → xsum n (λ l, gf_mul (entry inv n i l) (entry b n l j)) = delta i j;
  encode_product len k rows a data :
    length a = (k * rows)%nat → length data = k → Forall (λ d, length d = len) data →
    ec_encode_data len k rows (ec_init_tables k rows a) data =
      (λ l, (λ x, xsum k (λ j, gf_mul (entry a k l j) (symbol data j x))) <$> seq 0 len) <$> seq 0 rows;
}.

Module ErasureCode.

(** ** Runs *)
Inductive Outcome :=
| usage                              (* [usage()]: exit(0) *)
| malloc_failed                      (* return -1 *)
| encoded                            (* nothing was erased: return 0 *)
| no_decode_matrix                   (* return -1 *)
| recovery_failed (i : nat)          (* return -1 *)
| passed.                            (* return 0 *)
Definition status (o : Outcome) : Z :=
  match o with
  | usage | encoded | passed => 0
  | malloc_failed | no_decode_matrix | recovery_failed _ => -1
  end.

Inductive Run (A : Type) := Undefined | Exit (o : Outcome) | Go (a : A).
#[global] Arguments Undefined {A}.
#[global] Arguments Exit {A} o.
#[global] Arguments Go {A} a.

#[export] Instance run_ret : MRet Run := λ A a, Go a.
#[export] Instance run_bind : MBind Run := λ A B f r,
  match r with Undefined => Undefined | Exit o => Exit o | Go a => f a end.

(** [for (i = first; i < first + n; i++) body] over the variables [a] that the body changes. *)
Fixpoint for_ {A} (i n : nat) (body : nat → A → Run A) (a : A) : Run A :=
  match n with
  | O => mret a
  | S n => a ← body i a; for_ (S i) n body a
  end.

(** Array accesses. *)
Definition load {A} (l : list A) (i : nat) : Run A :=
  match l !! i with Some x => mret x | None => Undefined end.
Definition store {A} (l : list A) (i : nat) (x : A) : Run (list A) :=
  if decide (i < length l)%nat then mret (<[i := x]> l) else Undefined.

(** A [u8] as an index, an [int] as a [u8], and sums of [int]s. *)
Definition ix (b : byte) : nat := N.to_nat (Byte.to_N b).
Definition u8 (n : nat) : byte := byte_of_Z (Z.of_nat n).
Definition is_int (z : Z) : bool := ((- 2 ^ 31 <=? z) && (z <? 2 ^ 31))%Z.
Definition int (z : Z) : Run Z := if is_int z then mret z else Undefined.

Definition MMAX : nat := 255.
Definition KMAX : nat := 255.

(** ** [gf_gen_decode_matrix_simple] *)
Section decode.
Context `{IsalOps}.

(** Mark the erased fragments in [frag_in_err]; the count of source errors is not used. *)
Definition mark_errors (frag_err_list : list byte) (nerrs k : nat) : Run (nat * list byte) :=
  for_ 0 nerrs (λ i '(nsrcerrs, frag_in_err),
    e ← load frag_err_list i;
    let nsrcerrs := if (ix e <? k)%nat then S nsrcerrs else nsrcerrs in
    frag_in_err ← store frag_in_err (ix e) x01;
    mret (nsrcerrs, frag_in_err)) (0%nat, replicate MMAX x00).

(** [while (frag_in_err[r]) r++;] *)
Fixpoint skip_errors (fuel : nat) (frag_in_err : list byte) (r : nat) : Run nat :=
  match fuel with
  | O => Undefined
  | S fuel =>
      f ← load frag_in_err r;
      if bool_decide (f = x00) then mret r else skip_errors fuel frag_in_err (S r)
  end.

(** Copy row [r] of [src] to row [i] of [dst]. *)
Definition copy_row (k : nat) (src : list byte) (r : nat) (dst : list byte) (i : nat) : Run (list byte) :=
  for_ 0 k (λ j dst, x ← load src (k * r + j); store dst (k * i + j) x) dst.

(** Collect the first [k] surviving rows in [b] and their numbers in [decode_index]. *)
Definition construct_b (encode_matrix frag_in_err b decode_index : list byte) (k : nat) :
    Run (list byte * list byte * nat) :=
  for_ 0 k (λ i '(b, decode_index, r),
    r ← skip_errors (S MMAX) frag_in_err r;
    b ← copy_row k encode_matrix r b i;
    decode_index ← store decode_index i (u8 r);
    mret (b, decode_index, S r)) (b, decode_index, 0%nat).

(** The rows of the inverse for lost source fragments. *)
Definition source_rows (invert_matrix frag_err_list decode_matrix : list byte) (nerrs k : nat) : Run (list byte) :=
  for_ 0 nerrs (λ i decode_matrix,
    e ← load frag_err_list i;
    if (ix e <? k)%nat then copy_row k invert_matrix (ix e) decode_matrix i else mret decode_matrix) decode_matrix.

(** The products of rows of the coding matrix with the inverse for lost parity fragments. *)
Definition parity_rows (encode_matrix invert_matrix frag_err_list decode_matrix : list byte) (nerrs k : nat) :
    Run (list byte) :=
  for_ 0 nerrs (λ p decode_matrix,
    e ← load frag_err_list p;
    if (k <=? ix e)%nat then
      for_ 0 k (λ i decode_matrix,
        s ← for_ 0 k (λ j s,
          x ← load invert_matrix (j * k + i);
          y ← load encode_matrix (k * ix e + j);
          mret (xor s (gf_mul x y))) x00;
        store decode_matrix (k * p + i) s) decode_matrix
    else mret decode_matrix) decode_matrix.

(** The return value, and [decode_matrix] and [decode_index] as they are by then. *)
Definition gf_gen_decode_matrix_simple (encode_matrix decode_matrix invert_matrix temp_matrix decode_index
    frag_err_list : list byte) (nerrs k m : nat) : Run (Z * list byte * list byte) :=
  '(_, frag_in_err) ← mark_errors frag_err_list nerrs k;
  '(b, decode_index, _) ← construct_b encode_matrix frag_in_err temp_matrix decode_index k;
  if decide (k * k <= length b ∧ k * k <= length invert_matrix)%nat then
    match gf_invert_matrix (take (k * k) b) k with
    | None => mret ((-1)%Z, decode_matrix, decode_index)
    | Some inv =>
        let invert_matrix := inv ++ drop (k * k) invert_matrix in
        decode_matrix ← source_rows invert_matrix frag_err_list decode_matrix nerrs k;
        decode_matrix ← parity_rows encode_matrix invert_matrix frag_err_list decode_matrix nerrs k;
        mret (0%Z, decode_matrix, decode_index)
    end
  else Undefined.
End decode.

(** ** [main] *)

(** [atoi]: a value that does not fit in an [int] is undefined behaviour. *)
Definition is_space (c : Ascii.ascii) : bool :=
  let n := Ascii.nat_of_ascii c in (n =? 32)%nat || ((9 <=? n) && (n <=? 13))%nat.
Fixpoint skip_space (s : string) : string :=
  match s with String c s' => if is_space c then skip_space s' else s | EmptyString => s end.
Fixpoint digits (acc : Z) (s : string) : Z :=
  match s with
  | String c s' =>
      let n := Z.of_nat (Ascii.nat_of_ascii c) in
      if ((48 <=? n) && (n <=? 57))%Z then digits (acc * 10 + (n - 48)) s' else acc
  | EmptyString => acc
  end.
Definition atoi (s : string) : Run Z :=
  match skip_space s with
  | String c s' =>
      if bool_decide (c = "-"%char) then int (- digits 0 s')
      else if bool_decide (c = "+"%char) then int (digits 0 s')
      else int (digits 0 (String c s'))
  | EmptyString => int 0
  end.

Section main.
Context `{IsalOps} `{RandOps}.

(** The variables that the options set. *)
Record Args := mkArgs { a_k : Z; a_p : Z; a_len : Z; nerrs : nat; frag_err_list : list byte; rng : Rng }.

(** [frag_err_list[nerrs++] = e;] *)
Definition add_error (e : Z) (a : Args) : Run Args :=
  l ← store (frag_err_list a) (nerrs a) (byte_of_Z e);
  mret (mkArgs (a_k a) (a_p a) (a_len a) (S (nerrs a)) l (rng a)).
Definition draw (a : Args) : Z * Args :=
  let '(x, g) := rand (rng a) in (x, mkArgs (a_k a) (a_p a) (a_len a) (nerrs a) (frag_err_list a) g).

(** [for (i = 0; i < k + p && nerrs < p; i++)] of [-r], [n] rounds before [i] reaches [k + p]. *)
Fixpoint pick_errors (n i : nat) (a : Args) : Run Args :=
  match n with
  | O => mret a
  | S n =>
      if (Z.of_nat (nerrs a) <? a_p a)%Z then
        let '(x, a) := draw a in
        a ← (if Z.odd x then add_error (Z.of_nat i) a else mret a);
        pick_errors n (S i) a
      else mret a
  end.

(** The options as [getopt] delivers them: the letter, [?] for unknown ones, and [optarg]. *)
Definition option_step (c : Ascii.ascii) (optarg : string) (a : Args) : Run Args :=
  match c with
  | "k"%char => v ← atoi optarg; mret (mkArgs v (a_p a) (a_len a) (nerrs a) (frag_err_list a) (rng a))
  | "p"%char => v ← atoi optarg; mret (mkArgs (a_k a) v (a_len a) (nerrs a) (frag_err_list a) (rng a))
  | "l"%char =>
      v ← atoi optarg;
      if (v <? 0)%Z then Exit usage
      else mret (mkArgs (a_k a) (a_p a) v (nerrs a) (frag_err_list a) (rng a))
  | "e"%char => v ← atoi optarg; add_error v a
  | "r"%char =>
      v ← atoi optarg;
      let a := mkArgs (a_k a) (a_p a) (a_len a) (nerrs a) (frag_err_list a) (srand (v mod 2 ^ 32)) in
      let '(x, a) := draw a in
      let k := (Z.rem x (Z.of_nat MMAX - 1) + 1)%Z in
      let '(y, a) := draw a in
      let p := (Z.rem y (Z.of_nat MMAX - k) + 1)%Z in
      pick_errors (Z.to_nat (k + p)) 0 (mkArgs k p (a_len a) (nerrs a) (frag_err_list a) (rng a))
  | _ => Exit usage
  end.
Fixpoint options (opts : list (Ascii.ascii * string)) (a : Args) : Run Args :=
  match opts with
  | [] => mret a
  | (c, optarg) :: opts => a ← option_step c optarg a; options opts a
  end.

(** The defaults, with [p] random errors when there are no arguments at all. *)
Definition defaults (argc : nat) (junk : list byte) (g : Rng) : Run Args :=
  let a := mkArgs 10 4 (8 * 1024) 0 junk g in
  if (argc =? 1)%nat then
    for_ 0 4 (λ _ a, let '(x, a) := draw a in add_error (Z.rem x (a_k a + a_p a)%Z) a) a
  else mret a.

(** The checks, all of which end in [usage()]. *)
Definition check_args (a : Args) : Run unit :=
  m ← int (a_k a + a_p a)%Z;
  if ((Z.of_nat MMAX <? m) || (Z.of_nat KMAX <? a_k a) || (m <? 0) || (a_p a <? 1) || (a_k a <? 1))%Z then Exit usage
  else if (a_p a <? Z.of_nat (nerrs a))%Z then Exit usage
  else for_ 0 (nerrs a) (λ i _,
    e ← load (frag_err_list a) i;
    if (m <=? Z.of_nat (ix e))%Z then Exit usage else mret tt) tt.

(** [malloc]: the number of the call and the size; the bytes found in the buffer, or [NULL]. *)
Context (malloc : nat → nat → option (list byte)).
Definition alloc (call size : nat) : Run (list byte) :=
  match malloc call size with Some b => mret b | None => Exit malloc_failed end.
Definition alloc_all (call n size : nat) : Run (list (list byte)) :=
  for_ 0 n (λ i bufs, b ← alloc (call + i) size; mret (bufs ++ [b])) [].

(** [ec_init_tables] and [ec_encode_data]: [rows] buffers of the products of a matrix with the
    buffers [srcs], through tables of 32 bytes for every coefficient in a buffer of [size]. *)
Definition code (len k rows : nat) (a : list byte) (size : nat) (srcs : list (list byte)) : Run (list (list byte)) :=
  if decide (k * rows <= length a ∧ 32 * k * rows <= size)%nat
  then mret (ec_encode_data len k rows (ec_init_tables k rows (take (k * rows) a)) srcs)
  else Undefined.

(** [for (j = 0; j < len; j++) frag_ptrs[i][j] = rand();] *)
Definition fill_random (len : nat) (d : list byte) (g : Rng) : Run (list byte * Rng) :=
  for_ 0 len (λ j '(d, g), let '(x, g) := rand g in d ← store d j (byte_of_Z x); mret (d, g)) (d, g).

(** The rest of [main]; [junk] is what [decode_index] holds at first. *)
Definition encode_recover (k p len nerrs : nat) (frag_err_list junk : list byte) (g : Rng) : Run unit :=
  let m := (k + p)%nat in
  _ ← alloc 0 (m * k);
  decode_matrix ← alloc 1 (m * k);
  invert_matrix ← alloc 2 (m * k);
  temp_matrix ← alloc 3 (m * k);
  _ ← alloc 4 (k * p * 32);
  frag_ptrs ← alloc_all 5 m len;
  _ ← alloc_all (5 + m) p len;
  '(frag_ptrs, _) ← for_ 0 k (λ i '(frag_ptrs, g),
    d ← load frag_ptrs i;
    '(d, g) ← fill_random len d g;
    frag_ptrs ← store frag_ptrs i d;
    mret (frag_ptrs, g)) (frag_ptrs, g);
  let encode_matrix := gf_gen_cauchy1_matrix m k in
  parity ← code len k p (drop (k * k) encode_matrix) (k * p * 32) (take k frag_ptrs);
  let frag_ptrs := take k frag_ptrs ++ parity in
  if (nerrs =? 0)%nat then Exit encoded else
  '(ret, decode_matrix, decode_index) ←
    gf_gen_decode_matrix_simple encode_matrix decode_matrix invert_matrix temp_matrix junk frag_err_list nerrs k m;
  if negb (ret =? 0)%Z then Exit no_decode_matrix else
  recover_srcs ← for_ 0 k (λ i srcs,
    r ← load decode_index i;
    f ← load frag_ptrs (ix r);
    mret (srcs ++ [f])) [];
  recover_outp ← code len k nerrs decode_matrix (k * p * 32) recover_srcs;
  _ ← for_ 0 nerrs (λ i _,
    e ← load frag_err_list i;
    out ← load recover_outp i;
    f ← load frag_ptrs (ix e);
    if bool_decide (out = f) then mret tt else Exit (recovery_failed i)) tt;
  Exit passed.

Definition parse_args (argc : nat) (opts : list (Ascii.ascii * string)) (junk : list byte) (g : Rng) : Run Args :=
  a ← defaults argc junk g; options opts a.
Definition main (argc : nat) (opts : list (Ascii.ascii * string)) (junk junk' : list byte) (g : Rng) : Run unit :=
  a ← parse_args argc opts junk g;
  _ ← check_args a;
  encode_recover (Z.to_nat (a_k a)) (Z.to_nat (a_p a)) (Z.to_nat (a_len a)) (nerrs a) (frag_err_list a) junk' (rng a).
End main.

(** ** Lemmas on runs, loops and arrays *)
Definition runs (E : Outcome → Prop) {A} (r : Run A) (Q : A → Prop) : Prop :=
  match r with Undefined => False | Exit o => E o | Go a => Q a end.
Abbreviation ends := (runs (λ _, False)).

Section runs_lemmas.
Context {E : Outcome → Prop}.
Lemma ends_bind {A B} (r : Run A) (f : A → Run B) Q : runs E r (λ a, runs E (f a) Q) → runs E (r ≫= f) Q.
Proof. by destruct r. Qed.
Lemma ends_mono {A} (r : Run A) (P Q : A → Prop) : runs E r P → (∀ a, P a → Q a) → runs E r Q.
Proof. destruct r; cbn; auto. Qed.
Lemma ends_runs {A} (r : Run A) (P Q : A → Prop) : ends r P → (∀ a, P a → Q a) → runs E r Q.
Proof. destruct r; cbn; auto; done. Qed.

Lemma ends_for {A} (Inv : nat → A → Prop) (n : nat) (body : nat → A → Run A) a :
  (∀ i a, (i < n)%nat → Inv i a → runs E (body i a) (Inv (S i))) → Inv 0%nat a → runs E (for_ 0 n body a) (Inv n).
Proof.
  intros Hbody. enough (∀ k i a, (i + k = n)%nat → Inv i a → runs E (for_ i k body a) (Inv n)) as Hk by (by apply Hk).
  induction k as [|k IH]; intros i a' Hi Ha; cbn.
  - by replace n with i by lia.
  - apply ends_bind. eapply ends_mono; [apply Hbody; [lia|done]|]. cbv beta. intros a1 Ha1. apply IH; [lia|done].
Qed.
End runs_lemmas.
Lemma ends_elim {A} (r : Run A) Q : ends r Q → ∃ a, r = Go a ∧ Q a.
Proof. destruct r; cbn; [done|done|eauto]. Qed.

Lemma ends_load {E A} (l : list A) i (Q : A → Prop) x : l !! i = Some x → Q x → runs E (load l i) Q.
Proof. unfold load. by intros ->. Qed.
Lemma ends_store {E A} (l : list A) i x (Q : list A → Prop) :
  (i < length l)%nat → Q (<[i := x]> l) → runs E (store l i x) Q.
Proof. intros Hi. unfold store. by rewrite decide_True. Qed.

(** Reading and writing entries of a matrix. *)
Lemma row_index (k i j m : nat) : (i < m)%nat → (j < k)%nat → (k * i + j < m * k)%nat.
Proof. nia. Qed.
Lemma row_index_inj (k i j i' j' : nat) :
  (j < k)%nat → (j' < k)%nat → (k * i + j = k * i' + j')%nat → i = i' ∧ j = j'.
Proof. intros Hj Hj' E. assert (i = i') by nia. subst. lia. Qed.

Lemma lookup_entry a n i j : (n * i + j < length a)%nat → a !! (n * i + j)%nat = Some (entry a n i j).
Proof. intros Hl. unfold entry. by destruct (lookup_lt_is_Some_2 a _ Hl) as [x ->]. Qed.
Lemma entry_insert a n i j x : (n * i + j < length a)%nat → entry (<[(n * i + j)%nat := x]> a) n i j = x.
Proof. intros Hl. unfold entry. by rewrite list_lookup_insert_eq. Qed.
Lemma entry_insert_ne a n i j i' j' x :
  (j < n)%nat → (j' < n)%nat → (i, j) ≠ (i', j') → entry (<[(n * i' + j')%nat := x]> a) n i j = entry a n i j.
Proof.
  intros Hj Hj' Hne. unfold entry. rewrite list_lookup_insert_ne; [done|].
  intros E. apply row_index_inj in E as [-> ->]; done.
Qed.

(** A program that fills row [i] of [dst] with [f]. *)
Definition fills (k : nat) (dst : list byte) (i : nat) (f : nat → byte) (dst' : list byte) : Prop :=
  length dst' = length dst ∧ (∀ j, (j < k)%nat → entry dst' k i j = f j) ∧
  (∀ i' j, (j < k)%nat → i' ≠ i → entry dst' k i' j = entry dst k i' j).

Lemma fill_row k dst i f (body : nat → list byte → Run (list byte)) :
  (k * i + k <= length dst)%nat →
  (∀ j d, (j < k)%nat → length d = length dst → body j d = Go (<[(k * i + j)%nat := f j]> d)) →
  ends (for_ 0 k body dst) (fills k dst i f).
Proof.
  intros Hi Hbody.
  eapply ends_mono.
  { apply (ends_for (λ n d, length d = length dst ∧ (∀ j, (j < n)%nat → (j < k)%nat → entry d k i j = f j) ∧
            (∀ i' j, (j < k)%nat → i' ≠ i → entry d k i' j = entry dst k i' j))).
    - intros j d Hj (Hl&Hf&Hother). rewrite Hbody by done. cbn. split_and!; [by rewrite length_insert| |].
      + intros j' Hj' Hk. destruct (decide (j' = j)) as [->|Hne]; [apply entry_insert; lia|].
        rewrite entry_insert_ne by (done || congruence). apply Hf; lia.
      + intros i' j' Hj' Hne. rewrite entry_insert_ne by (done || congruence). by apply Hother.
    - split_and!; [done|lia|done]. }
  cbv beta. intros d (Hl&Hf&Hother). split_and!; [done| |done]. intros j Hj. by apply Hf.
Qed.

Lemma store_Go {A} (l : list A) i x : (i < length l)%nat → store l i x = Go (<[i := x]> l).
Proof. intros Hi. unfold store. by rewrite decide_True. Qed.
Lemma load_entry a n i j : (n * i + j < length a)%nat → load a (n * i + j) = Go (entry a n i j).
Proof. intros Hl. unfold load. by rewrite lookup_entry. Qed.

Lemma copy_row_ends k src r dst i :
  (k * r + k <= length src)%nat → (k * i + k <= length dst)%nat →
  ends (copy_row k src r dst i) (fills k dst i (entry src k r)).
Proof.
  intros Hr Hi. apply fill_row; [done|]. intros j d Hj Hl.
  rewrite load_entry by lia. cbn. by rewrite store_Go by lia.
Qed.

(** A loop that sums. *)
Lemma sum_loop k f (body : nat → byte → Run byte) :
  (∀ j s, (j < k)%nat → body j s = Go (xor s (f j))) → for_ 0 k body x00 = Go (xsum k f).
Proof.
  intros Hbody. assert (Hs : ends (for_ 0 k body x00) (λ s, s = xsum k f)).
  { apply (ends_for (λ n s, s = xsum n f)); [|done]. intros j s Hj ->. by rewrite Hbody. }
  apply ends_elim in Hs as (s&->&->). done.
Qed.

(** ** The arithmetic of bytes *)
Lemma byte_eq a b : byte_to_Z a = byte_to_Z b → a = b.
Proof. intros E. by rewrite <- (byte_of_to_Z a), E, byte_of_to_Z. Qed.
Lemma byte_lxor a b : byte_to_Z (xor a b) = Z.lxor (byte_to_Z a) (byte_to_Z b).
Proof.
  unfold xor. rewrite byte_to_of_Z. change 256%Z with (2 ^ 8)%Z. rewrite <- Z.land_ones by lia.
  pose proof (byte_to_Z_range a). pose proof (byte_to_Z_range b).
  apply Z.bits_inj'. intros n Hn. rewrite Z.land_spec, Z.lxor_spec.
  destruct (decide (n < 8)%Z) as [Hs|Hs].
  - rewrite Z.ones_spec_low by lia. apply andb_true_r.
  - rewrite Z.ones_spec_high, andb_false_r by lia.
    rewrite !Z.bits_above_log2; [done|lia| |lia|];
      (destruct (decide (byte_to_Z a = 0)%Z), (decide (byte_to_Z b = 0)%Z);
       try (apply Z.log2_lt_pow2; [lia|]; assert (2 ^ 8 <= 2 ^ n)%Z by (apply Z.pow_le_mono_r; lia); lia);
       try (replace (byte_to_Z a) with 0%Z by done); try (replace (byte_to_Z b) with 0%Z by done); cbn; lia).
Qed.

Lemma xor_comm a b : xor a b = xor b a.
Proof. apply byte_eq. by rewrite !byte_lxor, Z.lxor_comm. Qed.
Lemma xor_assoc a b c : xor a (xor b c) = xor (xor a b) c.
Proof. apply byte_eq. by rewrite !byte_lxor, Z.lxor_assoc. Qed.
Lemma xor_nilpotent a : xor a a = x00.
Proof. apply byte_eq. by rewrite byte_lxor, Z.lxor_nilpotent. Qed.
Lemma xor_0_l a : xor x00 a = a.
Proof. apply byte_eq. by rewrite byte_lxor. Qed.
Lemma xor_0_r a : xor a x00 = a.
Proof. by rewrite xor_comm, xor_0_l. Qed.
Lemma xor_swap a b c d : xor (xor a b) (xor c d) = xor (xor a c) (xor b d).
Proof. by rewrite <- !xor_assoc, (xor_assoc b), (xor_comm b), !xor_assoc. Qed.

Lemma xsum_ext n f g : (∀ i, (i < n)%nat → f i = g i) → xsum n f = xsum n g.
Proof. intros E. induction n as [|n IH]; [done|]. cbn. rewrite IH, E; [done|lia|]. intros i Hi. apply E. lia. Qed.
Lemma xsum_0 n : xsum n (λ _, x00) = x00.
Proof. induction n as [|n IH]; [done|]. cbn. by rewrite IH, xor_0_l. Qed.
Lemma xsum_xor n f g : xsum n (λ i, xor (f i) (g i)) = xor (xsum n f) (xsum n g).
Proof. induction n as [|n IH]; cbn; [done|]. by rewrite IH, xor_swap. Qed.
Lemma xsum_swap n m f : xsum n (λ i, xsum m (λ j, f i j)) = xsum m (λ j, xsum n (λ i, f i j)).
Proof.
  induction n as [|n IH]; cbn; [by rewrite xsum_0|]. rewrite IH, <- xsum_xor. by apply xsum_ext.
Qed.

Section algebra.
Context `{IsalLaws}.

Lemma gf_mul_0 a : gf_mul a x00 = x00.
Proof. rewrite <- (xor_nilpotent x00) at 1. by rewrite gf_mul_xor, xor_nilpotent. Qed.
Lemma gf_mul_xsum a n f : gf_mul a (xsum n f) = xsum n (λ i, gf_mul a (f i)).
Proof. induction n as [|n IH]; cbn; [apply gf_mul_0|]. by rewrite gf_mul_xor, IH. Qed.
Lemma gf_xsum_mul a n f : gf_mul (xsum n f) a = xsum n (λ i, gf_mul (f i) a).
Proof. rewrite gf_mul_comm, gf_mul_xsum. apply xsum_ext. intros i _. apply gf_mul_comm. Qed.
Lemma gf_mul_0_l a : gf_mul x00 a = x00.
Proof. by rewrite gf_mul_comm, gf_mul_0. Qed.
Lemma xsum_delta n i d : (i < n)%nat → xsum n (λ j, gf_mul (delta i j) (d j)) = d i.
Proof.
  intros Hi. induction n as [|n IH]; [lia|]. cbn. unfold delta at 2. destruct (Nat.eqb_spec i n) as [->|Hne].
  - rewrite gf_mul_1. erewrite xsum_ext; [by rewrite xsum_0, xor_0_l|].
    intros j Hj. cbv beta. unfold delta. rewrite (proj2 (Nat.eqb_neq n j)) by lia. apply gf_mul_0_l.
  - by rewrite IH, gf_mul_0_l, xor_0_r by lia.
Qed.

(** Symbol [r] of the code word of the data [d]. *)
Definition codeword (a : list byte) (k : nat) (d : nat → byte) (r : nat) : byte :=
  xsum k (λ j, gf_mul (entry a k r j) (d j)).
(** Row [r] of a matrix times the symbols [s]. *)
Lemma product_assoc k f g (d : nat → byte) :
  xsum k (λ l, gf_mul (f l) (xsum k (λ j, gf_mul (g l j) (d j)))) =
  xsum k (λ j, gf_mul (xsum k (λ l, gf_mul (f l) (g l j))) (d j)).
Proof.
  erewrite xsum_ext; [|intros l _; rewrite gf_mul_xsum; erewrite xsum_ext; [|intros j _; apply gf_mul_assoc];
    reflexivity].
  rewrite xsum_swap. apply xsum_ext. intros j _. by rewrite gf_xsum_mul.
Qed.

(** An inverse of the rows that survived gives the data back. *)
Lemma inverse_recovers k inv b d i :
  (∀ i j, (i < k)%nat → (j < k)%nat → xsum k (λ l, gf_mul (entry inv k i l) (entry b k l j)) = delta i j) →
  (i < k)%nat → xsum k (λ l, gf_mul (entry inv k i l) (codeword b k d l)) = d i.
Proof.
  intros Hinv Hi. unfold codeword. rewrite product_assoc.
  erewrite xsum_ext; [by apply xsum_delta|]. intros j Hj. cbv beta. by rewrite Hinv.
Qed.

(** What the row for fragment [e] of a decode matrix is. *)
Definition decode_row (encode inv : list byte) (k e j : nat) : byte :=
  if (e <? k)%nat then entry inv k e j else xsum k (λ l, gf_mul (entry inv k l j) (entry encode k e l)).

Lemma decode_row_recovers encode inv b k d (rows : nat → nat) e :
  (∀ i j, (i < k)%nat → (j < k)%nat → xsum k (λ l, gf_mul (entry inv k i l) (entry b k l j)) = delta i j) →
  (∀ i j, (i < k)%nat → (j < k)%nat → entry encode k i j = delta i j) →
  (∀ i j, (i < k)%nat → (j < k)%nat → entry b k i j = entry encode k (rows i) j) →
  xsum k (λ i, gf_mul (decode_row encode inv k e i) (codeword encode k d (rows i))) = codeword encode k d e.
Proof.
  intros Hinv Hid Hb.
  assert (Hrec : ∀ i, (i < k)%nat → xsum k (λ l, gf_mul (entry inv k i l) (codeword encode k d (rows l))) = d i).
  { intros i Hi. rewrite <- (inverse_recovers k inv b d i Hinv Hi). apply xsum_ext. intros l Hl. f_equal.
    apply xsum_ext. intros j Hj. by rewrite Hb. }
  unfold decode_row. destruct (Nat.ltb_spec e k) as [He|He].
  - rewrite Hrec by done. unfold codeword. symmetry.
    erewrite xsum_ext; [by apply xsum_delta|]. intros j Hj. cbv beta. by rewrite Hid.
  - transitivity (xsum k (λ l, gf_mul (entry encode k e l)
      (xsum k (λ i, gf_mul (entry inv k l i) (codeword encode k d (rows i)))))).
    { rewrite (product_assoc k (λ l, entry encode k e l) (λ l i, entry inv k l i)). apply xsum_ext.
      intros i _. f_equal. apply xsum_ext. intros l _. apply gf_mul_comm. }
    unfold codeword at 2. apply xsum_ext. intros l Hl. by rewrite Hrec.
Qed.
End algebra.

(** ** The decode matrix *)
Definition erased (frag_err_list : list byte) (nerrs : nat) : list nat := ix <$> take nerrs frag_err_list.
Definition alive (E : list nat) (m : nat) : list nat := filter (λ r, r ∉ E) (seq 0 m).
(** The rows that are selected: the first [k] of the survivors. *)
Definition selected (frag_err_list : list byte) (nerrs k m : nat) : list nat :=
  take k (alive (erased frag_err_list nerrs) m).

Lemma ix_u8 r : (r < 256)%nat → ix (u8 r) = r.
Proof.
  intros Hr. unfold ix, u8. pose proof (byte_to_of_Z (Z.of_nat r)) as E. unfold byte_to_Z in E.
  rewrite Z.mod_small in E by lia. lia.
Qed.

Definition marks (E : list nat) (frag_in_err : list byte) : Prop :=
  length frag_in_err = MMAX ∧ ∀ r, (r < MMAX)%nat → frag_in_err !! r = Some (if decide (r ∈ E) then x01 else x00).

Lemma erased_S errs i e : errs !! i = Some e → erased errs (S i) = erased errs i ++ [ix e].
Proof. intros He. unfold erased. by rewrite (take_S_r _ _ _ He), fmap_app. Qed.

Lemma mark_errors_ends errs nerrs k :
  (nerrs <= length errs)%nat → Forall (λ e, (e < MMAX)%nat) (erased errs nerrs) →
  ends (mark_errors errs nerrs k) (λ r, marks (erased errs nerrs) r.2).
Proof.
  intros Hl HE. apply (ends_for (λ i a, marks (erased errs i) a.2)).
  - intros i [c fie] Hi [Hlen Hm]. destruct (lookup_lt_is_Some_2 errs i) as [e He]; [lia|].
    apply ends_bind. eapply ends_load; [exact He|]. cbv beta zeta.
    assert (Hie : (ix e < MMAX)%nat).
    { apply (Forall_lookup_1 (λ e, (e < MMAX)%nat) (erased errs nerrs) i _ HE). unfold erased. rewrite list_lookup_fmap, lookup_take_lt by done. by rewrite He. }
    apply ends_bind. cbn [snd] in *. apply ends_store; [lia|]. cbn. split; [by rewrite length_insert|].
    intros r Hr. rewrite (erased_S _ _ _ He). destruct (decide (r = ix e)) as [->|Hne].
    + rewrite list_lookup_insert_eq by lia. rewrite decide_True by set_solver. done.
    + rewrite list_lookup_insert_ne, Hm by done. f_equal. apply decide_ext. set_solver.
  - split; [apply length_replicate|]. intros r Hr. cbn [snd]. by rewrite lookup_replicate_2.
Qed.

(** Finding the next survivor. *)
Lemma filter_seq_cons (P : nat → Prop) `{!∀ x, Decision (P x)} r n x l :
  filter P (seq r n) = x :: l →
  (r <= x < r + n)%nat ∧ P x ∧ (∀ y, (r <= y < x)%nat → ¬ P y) ∧ filter P (seq (S x) (r + n - S x)) = l.
Proof.
  revert r. induction n as [|n IH]; intros r E; [done|]. change (seq r (S n)) with (r :: seq (S r) n) in E. rewrite filter_cons in E. case_decide as Hr.
  - injection E as <- E. split_and!; [lia|lia|done|intros; lia|]. by replace (r + S n - S r)%nat with n by lia.
  - apply IH in E as (?&?&Hnot&?). split_and!; [lia|lia|done| |by replace (r + S n - S x)%nat with (S r + n - S x)%nat by lia].
    intros y Hy. destruct (decide (y = r)) as [->|]; [done|]. apply Hnot. lia.
Qed.

Lemma skip_errors_ends E fie fuel r x :
  marks E fie → (x < MMAX)%nat → (r <= x)%nat → (x - r < fuel)%nat → x ∉ E → (∀ y, (r <= y < x)%nat → y ∈ E) →
  skip_errors fuel fie r = Go x.
Proof.
  intros [_ Hm] Hx. revert r. induction fuel as [|fuel IH]; intros r Hr Hf Hnot Hin; [lia|]. cbn. unfold load at 1.
  rewrite Hm by lia. cbn. destruct (decide (r = x)) as [->|Hne].
  - by rewrite decide_False.
  - rewrite decide_True by (apply Hin; lia). cbn. apply IH; [lia|lia|done|]. intros y Hy. apply Hin. lia.
Qed.

(** At most as many rows are lost as there are errors. *)
Lemma alive_enough E m : (m <= length (alive E m) + length E)%nat.
Proof.
  unfold alive. pose proof (length_seq m 0) as Hl.
  assert (Hsub : seq 0 m ⊆+ filter (λ r, r ∉ E) (seq 0 m) ++ E).
  { apply NoDup_submseteq; [apply NoDup_seq|]. intros x Hx. rewrite elem_of_app, list_elem_of_filter.
    destruct (decide (x ∈ E)); auto. }
  apply submseteq_length in Hsub. rewrite length_app in Hsub. lia.
Qed.

Lemma selected_props errs nerrs k m :
  (nerrs + k <= m)%nat → (nerrs <= length errs)%nat →
  length (selected errs nerrs k m) = k ∧ NoDup (selected errs nerrs k m) ∧
  Forall (λ r, (r < m)%nat) (selected errs nerrs k m) ∧
  Forall (λ r, r ∉ erased errs nerrs) (selected errs nerrs k m).
Proof.
  intros Hk Hl. pose proof (alive_enough (erased errs nerrs) m) as Ha. unfold erased at 2 in Ha.
  rewrite length_fmap, length_take in Ha. unfold selected. split_and!.
  - rewrite length_take. lia.
  - eapply sublist_NoDup; [|apply sublist_take]. apply NoDup_filter, NoDup_seq.
  - apply Forall_take, Forall_forall. intros x [_ Hx]%list_elem_of_filter. apply elem_of_seq in Hx. lia.
  - apply Forall_take, Forall_forall. by intros x [Hx _]%list_elem_of_filter.
Qed.

(** The matrix of [n] rows and [k] columns with entries [f]. *)
Definition matrix (n k : nat) (f : nat → nat → byte) : list byte :=
  (λ x, f (x / k)%nat (x mod k)) <$> seq 0 (n * k).
(** Rows [rows] of a matrix with [k] columns. *)
Definition rows_of (a : list byte) (k : nat) (rows : list nat) : list byte :=
  matrix (length rows) k (λ i, entry a k (rows !!! i)).

Lemma entry_matrix n k f i j : (i < n)%nat → (j < k)%nat → entry (matrix n k f) k i j = f i j.
Proof.
  intros Hi Hj. unfold entry, matrix. rewrite list_lookup_fmap, lookup_seq_lt by (apply row_index; lia).
  cbn [fmap option_fmap option_map default Nat.add].
  rewrite (Nat.mul_comm k i), Nat.div_add_l, Nat.div_small, Nat.add_0_r by lia.
  by rewrite Nat.add_comm, Nat.Div0.mod_add, Nat.mod_small by lia.
Qed.
Lemma length_matrix n k f : length (matrix n k f) = (n * k)%nat.
Proof. unfold matrix. by rewrite length_fmap, length_seq. Qed.
Lemma entry_rows_of a k rows i j :
  (i < length rows)%nat → (j < k)%nat → entry (rows_of a k rows) k i j = entry a k (rows !!! i) j.
Proof. apply (entry_matrix _ _ (λ i, entry a k (rows !!! i))). Qed.
Lemma length_rows_of a k rows : length (rows_of a k rows) = (length rows * k)%nat.
Proof. apply length_matrix. Qed.

Lemma rows_of_intro a k rows b :
  length b = (length rows * k)%nat →
  (∀ i j, (i < length rows)%nat → (j < k)%nat → entry b k i j = entry a k (rows !!! i) j) → b = rows_of a k rows.
Proof.
  intros Hl Hb. apply (list_eq_same_length _ _ (length rows * k)%nat); [apply length_rows_of|done|].
  intros n x y Hn Hx Hy. assert (Hk : k ≠ 0%nat) by lia. pose proof (Nat.div_mod n k Hk) as E.
  assert (Hi : (n / k < length rows)%nat) by (apply Nat.Div0.div_lt_upper_bound; lia).
  pose proof (Nat.mod_upper_bound n k Hk) as Hj.
  specialize (Hb _ _ Hi Hj). rewrite <- (entry_rows_of a) in Hb by done. unfold entry in Hb.
  rewrite <- E, Hx, Hy in Hb. done.
Qed.

Lemma entry_take a n c i j : (n * i + j < c)%nat → entry (take c a) n i j = entry a n i j.
Proof. intros Hl. unfold entry. by rewrite lookup_take_lt. Qed.

(** Where the scan for survivors stands after [i] of them. *)
Definition scanned (E : list nat) (m i r : nat) : Prop :=
  (r <= m)%nat ∧ drop i (alive E m) = filter (λ x, x ∉ E) (seq r (m - r)).

Lemma scan_next E m i r fie :
  marks E fie → (m <= MMAX)%nat → (i < length (alive E m))%nat → scanned E m i r →
  skip_errors (S MMAX) fie r = Go (alive E m !!! i) ∧ (alive E m !!! i < m)%nat ∧ scanned E m (S i) (S (alive E m !!! i)).
Proof.
  intros Hm HM Hi [Hr Hd]. destruct (lookup_lt_is_Some_2 _ _ Hi) as [x Hx].
  rewrite (list_lookup_total_correct _ _ _ Hx), (drop_S _ _ _ Hx) in *. symmetry in Hd.
  apply filter_seq_cons in Hd as (Hrx&Hnot&Hbefore&Hrest). replace (r + (m - r))%nat with m in * by lia.
  split_and!; [|lia|split; [lia|done]].
  eapply skip_errors_ends; [done|lia|lia|unfold MMAX in *; lia|done|]. intros y Hy.
  destruct (decide (y ∈ E)) as [|Hn]; [done|]. by destruct (Hbefore y Hy).
Qed.

Lemma construct_b_ends E fie encode b idx k m :
  marks E fie → (m <= MMAX)%nat → (k <= length (alive E m))%nat → (k <= length idx)%nat →
  (k * m <= length encode)%nat → (k * k <= length b)%nat →
  ends (construct_b encode fie b idx k) (λ '(b', idx', _),
    length b' = length b ∧
    ∀ i, (i < k)%nat → idx' !! i = Some (u8 (alive E m !!! i)) ∧
      ∀ j, (j < k)%nat → entry b' k i j = entry encode k (alive E m !!! i) j).
Proof.
  intros Hm HM Hk Hidx Henc Hb.
  eapply ends_mono.
  { apply (ends_for (λ n '(b', idx', r), length b' = length b ∧ length idx' = length idx ∧ scanned E m n r ∧
      ∀ i, (i < n)%nat → idx' !! i = Some (u8 (alive E m !!! i)) ∧
        ∀ j, (j < k)%nat → entry b' k i j = entry encode k (alive E m !!! i) j)).
    - intros i [[b1 idx1] r] Hi (Hlb&Hli&Hscan&Hdone).
      destruct (scan_next E m i r fie Hm HM ltac:(lia) Hscan) as (Hskip&Hlt&Hscan').
      rewrite Hskip. unfold mbind at 1, run_bind at 1.
      apply ends_bind. eapply ends_mono; [apply copy_row_ends; nia|]. cbv beta. intros b2 (Hl2&Hrow&Hother).
      apply ends_bind, ends_store; [lia|]. cbn. split_and!; [lia|by rewrite length_insert|done|].
      intros i' Hi'. destruct (decide (i' = i)) as [->|Hne].
      + rewrite list_lookup_insert_eq by lia. split; [done|]. exact Hrow.
      + destruct (Hdone i') as [Hx He]; [lia|]. rewrite list_lookup_insert_ne by done. split; [done|].
        intros j Hj. rewrite Hother by done. by apply He.
    - split_and!; [done|done| |intros; lia]. split; [lia|]. by rewrite Nat.sub_0_r. }
  intros [[b' idx'] r] (Hlb&_&_&Hdone). by split.
Qed.

(** A loop that fills the rows for which [c] holds. *)
Lemma fill_rows k nerrs (c : nat → bool) f (body : nat → list byte → Run (list byte)) D :
  (∀ p d, (p < nerrs)%nat → length d = length D →
     ends (body p d) (λ d', if c p then fills k d p (f p) d' else d' = d)) →
  ends (for_ 0 nerrs body D) (λ D', length D' = length D ∧
    ∀ p j, (p < nerrs)%nat → (j < k)%nat → entry D' k p j = if c p then f p j else entry D k p j).
Proof.
  intros Hbody. eapply ends_mono.
  { apply (ends_for (λ n d, length d = length D ∧
      ∀ p j, (j < k)%nat → entry d k p j = if (p <? n)%nat && c p then f p j else entry D k p j)).
    - intros p d Hp [Hl Hd]. eapply ends_mono; [by apply Hbody|]. cbv beta. intros d' Hd'. destruct (c p) eqn:Ec.
      + destruct Hd' as (Hl'&Hrow&Hother). split; [lia|]. intros q j Hj. destruct (decide (q = p)) as [->|Hne].
        * rewrite Hrow, (proj2 (Nat.ltb_lt p (S p))), Ec by lia. done.
        * rewrite Hother, Hd by done. f_equal. destruct (Nat.ltb_spec q p), (Nat.ltb_spec q (S p)); done || lia.
      + subst d'. split; [done|]. intros q j Hj. rewrite Hd by done. destruct (decide (q = p)) as [->|Hne].
        * by rewrite Ec, !andb_false_r.
        * destruct (Nat.ltb_spec q p), (Nat.ltb_spec q (S p)); done || lia.
    - split; [done|]. by intros. }
  cbv beta. intros D' [Hl HD]. split; [done|]. intros p j Hp Hj. rewrite HD by done.
  by rewrite (proj2 (Nat.ltb_lt p nerrs)).
Qed.

Section decode_lemmas.
Context `{IsalLaws}.

Lemma load_errs errs p e (B : Type) (body : byte → Run B) : errs !! p = Some e → (x ← load errs p; body x) = body e.
Proof. unfold load. by intros ->. Qed.

Definition error_at (errs : list byte) (p : nat) : nat := ix (default x00 (errs !! p)).
Lemma error_at_eq errs p e : errs !! p = Some e → error_at errs p = ix e.
Proof. unfold error_at. by intros ->. Qed.

Lemma source_rows_ends inv errs D nerrs k :
  (k * k <= length inv)%nat → (nerrs <= length errs)%nat → (k * nerrs <= length D)%nat →
  ends (source_rows inv errs D nerrs k) (λ D', length D' = length D ∧
    ∀ p j, (p < nerrs)%nat → (j < k)%nat →
      entry D' k p j = if (error_at errs p <? k)%nat then entry inv k (error_at errs p) j else entry D k p j).
Proof.
  intros Hi He HD. apply (fill_rows k nerrs (λ p, error_at errs p <? k)%nat (λ p, entry inv k (error_at errs p))).
  intros p d Hp Hl. cbv beta. destruct (lookup_lt_is_Some_2 errs p) as [e Hpe]; [lia|].
  rewrite (load_errs _ _ _ _ _ Hpe). rewrite (error_at_eq _ _ _ Hpe).
  destruct (Nat.ltb_spec (ix e) k); [|done]. apply copy_row_ends; nia.
Qed.

Lemma parity_rows_ends encode inv errs D nerrs k m :
  (k * k <= length inv)%nat → (nerrs <= length errs)%nat → (k * nerrs <= length D)%nat →
  (k * m <= length encode)%nat → (∀ p, (p < nerrs)%nat → (error_at errs p < m)%nat) →
  ends (parity_rows encode inv errs D nerrs k) (λ D', length D' = length D ∧
    ∀ p j, (p < nerrs)%nat → (j < k)%nat →
      entry D' k p j = if (k <=? error_at errs p)%nat
                       then xsum k (λ l, gf_mul (entry inv k l j) (entry encode k (error_at errs p) l))
                       else entry D k p j).
Proof.
  intros Hi He HD Henc Hm.
  apply (fill_rows k nerrs (λ p, k <=? error_at errs p)%nat
    (λ p j, xsum k (λ l, gf_mul (entry inv k l j) (entry encode k (error_at errs p) l)))).
  intros p d Hp Hl. specialize (Hm p Hp). cbv beta. destruct (lookup_lt_is_Some_2 errs p) as [e Hpe]; [lia|].
  rewrite (load_errs _ _ _ _ _ Hpe). rewrite (error_at_eq _ _ _ Hpe) in *.
  destruct (Nat.leb_spec k (ix e)); [|done]. apply fill_row; [nia|]. intros j d' Hj Hd'.
  erewrite (sum_loop k); [cbn; apply store_Go; nia|]. intros l s Hlk.
  rewrite (Nat.mul_comm l k), load_entry by nia. cbn. by rewrite load_entry by nia.
Qed.

(** That ISA-L can invert any [k] of the [m] rows of its Cauchy matrix. *)
Definition invertible (m k : nat) : Prop :=
  ∀ rows, length rows = k → NoDup rows → Forall (λ r, (r < m)%nat) rows →
    is_Some (gf_invert_matrix (rows_of (gf_gen_cauchy1_matrix m k) k rows) k).

(** What the function promises its caller. *)
Record decodes (encode errs : list byte) (nerrs k m : nat) (D idx : list byte) : Prop := {
  d_index i : (i < k)%nat → idx !! i = Some (u8 (selected errs nerrs k m !!! i));
  d_recovers d p : (p < nerrs)%nat →
    xsum k (λ i, gf_mul (entry D k p i) (codeword encode k d (selected errs nerrs k m !!! i))) =
    codeword encode k d (error_at errs p);
}.

Lemma decode_matrix_correct decode inv temp idx errs nerrs k m :
  (nerrs + k <= m)%nat → (m <= MMAX)%nat → invertible m k →
  length decode = (m * k)%nat → length inv = (m * k)%nat → length temp = (m * k)%nat →
  length idx = MMAX → length errs = MMAX → (∀ p, (p < nerrs)%nat → (error_at errs p < m)%nat) →
  let encode := gf_gen_cauchy1_matrix m k in
  ∃ D idx', gf_gen_decode_matrix_simple encode decode inv temp idx errs nerrs k m = Go (0%Z, D, idx') ∧
    length D = (m * k)%nat ∧ decodes encode errs nerrs k m D idx' ∧
    Forall (λ r, (r < m)%nat ∧ r ∉ erased errs nerrs) (selected errs nerrs k m).
Proof.
  intros Hk HM Hinvertible Hd Hi Ht Hx He Herr encode. set (E := erased errs nerrs).
  assert (HE : Forall (λ e, (e < MMAX)%nat) E).
  { apply Forall_forall. intros e (b&->&Hb)%list_elem_of_fmap.
    apply list_elem_of_lookup in Hb as [p Hp]. apply lookup_take_Some in Hp as [Hp Hlt].
    specialize (Herr p Hlt). rewrite (error_at_eq _ _ _ Hp) in Herr. lia. }
  destruct (selected_props errs nerrs k m Hk ltac:(unfold MMAX in *; lia)) as (Hls&Hnd&Hlt&Hne).
  assert (Hla : (k <= length (alive E m))%nat).
  { unfold selected in Hls. rewrite length_take in Hls. fold E in Hls. lia. }
  assert (Hsel : ∀ i, (i < k)%nat → alive E m !!! i = selected errs nerrs k m !!! i).
  { intros i Hik. unfold selected. fold E. by rewrite lookup_total_take_lt. }
  assert (Henc : length encode = (m * k)%nat) by apply cauchy_length.
  assert (Hends : ends (gf_gen_decode_matrix_simple encode decode inv temp idx errs nerrs k m) (λ r,
    r.1.1 = 0%Z ∧ length r.1.2 = (m * k)%nat ∧ decodes encode errs nerrs k m r.1.2 r.2)).
  2: { apply ends_elim in Hends as ([[z D] idx']&->&Hz&HlD&HD). cbn in *. subst z. exists D, idx'.
       split_and!; [done..|]. apply Forall_and. by split. }
  unfold gf_gen_decode_matrix_simple.
  apply ends_bind. eapply ends_mono; [apply mark_errors_ends; [unfold MMAX in *; lia|exact HE]|].
  intros [c fie] Hm. cbn [snd] in Hm. cbv beta.
  apply ends_bind. eapply ends_mono; [apply (construct_b_ends E _ _ _ _ _ m); [done|done|done|unfold MMAX in *; lia|nia|nia]|].
  intros [[b idx1] r] (Hlb&Hb). cbv beta. rewrite decide_True by nia.
  assert (Eb : take (k * k) b = rows_of encode k (selected errs nerrs k m)).
  { apply rows_of_intro; rewrite Hls; [rewrite length_take; nia|]. intros i j Hik Hjk.
    rewrite entry_take, <- Hsel by nia. by apply Hb. }
  destruct (Hinvertible (selected errs nerrs k m)) as [iv Hiv]; [done..|]. fold encode in Hiv.
  rewrite Eb, Hiv. apply invert_inverse in Hiv as [Hliv Hprod]; [|by rewrite length_rows_of, Hls].
  assert (Hent : ∀ i j, (i < k)%nat → (j < k)%nat → entry (iv ++ drop (k * k) inv) k i j = entry iv k i j).
  { intros i j Hik Hjk. unfold entry. rewrite lookup_app_l; [done|]. nia. }
  apply ends_bind. eapply ends_mono; [apply source_rows_ends; rewrite ?length_app; unfold MMAX in *; nia|].
  intros D1 [Hl1 HD1]. cbv beta.
  apply ends_bind. eapply ends_mono.
  { apply (parity_rows_ends _ _ _ _ _ _ m); rewrite ?length_app; [unfold MMAX in *; nia..|exact Herr]. }
  intros D2 [Hl2 HD2]. cbn. split_and!; [done|lia|]. split.
  - intros i Hik. rewrite <- Hsel by done. by apply Hb.
  - intros d p Hp. rewrite <- (decode_row_recovers encode iv (rows_of encode k (selected errs nerrs k m)) k d
      (λ i, selected errs nerrs k m !!! i) (error_at errs p)).
    + apply xsum_ext. intros j Hj. f_equal. rewrite HD2, HD1 by done. unfold decode_row.
      destruct (Nat.leb_spec k (error_at errs p)), (Nat.ltb_spec (error_at errs p) k); try lia; [|by apply Hent].
      apply xsum_ext. intros l Hlk. by rewrite Hent.
    + exact Hprod.
    + intros i j Hik Hjk. apply cauchy_identity; lia.
    + intros i j Hik Hjk. apply entry_rows_of; [by rewrite Hls|done].
Qed.
(** C19: For the Cauchy matrix of [m] rows, at most [m - k] errors below [m], repeated or not, and
    buffers of the sizes that [main] allocates with whatever is in them,
    [gf_gen_decode_matrix_simple] stays inside its arrays and returns 0; [decode_index] lists the
    first [k] surviving fragments, none of them erased, and row [p] of [decode_matrix] computes
    from their contents the content of erased fragment [p], source or parity. *)
Theorem decode_matrix_recovers decode inv temp idx errs nerrs k m :
  (nerrs + k <= m)%nat → (m <= MMAX)%nat → invertible m k →
  length decode = (m * k)%nat → length inv = (m * k)%nat → length temp = (m * k)%nat →
  length idx = MMAX → length errs = MMAX → (∀ p, (p < nerrs)%nat → (error_at errs p < m)%nat) →
  let encode := gf_gen_cauchy1_matrix m k in
  ∃ D idx', gf_gen_decode_matrix_simple encode decode inv temp idx errs nerrs k m = Go (0%Z, D, idx') ∧
    length D = (m * k)%nat ∧ decodes encode errs nerrs k m D idx' ∧
    Forall (λ r, (r < m)%nat ∧ r ∉ erased errs nerrs) (selected errs nerrs k m).
Proof. exact (decode_matrix_correct decode inv temp idx errs nerrs k m). Qed.
End decode_lemmas.

(** ** The demonstration *)
Section main_lemmas.
Context `{IsalLaws} `{RandLaws} (malloc : nat → nat → option (list byte)).
Context (malloc_size : ∀ call n b, malloc call n = Some b → length b = n).

(** How a run may end. *)
Definition fine (o : Outcome) : Prop :=
  match o with usage | malloc_failed | encoded | passed => True | no_decode_matrix | recovery_failed _ => False end.

Lemma alloc_runs call n Q : (∀ b, length b = n → Q b) → runs fine (alloc malloc call n) Q.
Proof. intros HQ. unfold alloc. destruct (malloc call n) as [b|] eqn:E; [|done]. by apply HQ, (malloc_size call). Qed.

Definition buffers (n len : nat) (bufs : list (list byte)) : Prop :=
  length bufs = n ∧ Forall (λ b, length b = len) bufs.

Lemma alloc_all_runs call n len : runs fine (alloc_all malloc call n len) (buffers n len).
Proof.
  apply (ends_for (λ i bufs, buffers i len bufs)); [|by split; constructor]. intros i bufs Hi [Hl Hf].
  apply ends_bind, alloc_runs. intros b Hb. cbn. split; [rewrite length_app; cbn; lia|].
  apply Forall_app. split; [done|]. by repeat constructor.
Qed.

Lemma fill_random_runs E len d g : length d = len → runs E (fill_random len d g) (λ r, length r.1 = len).
Proof.
  intros Hd. apply (ends_for (λ i r, length r.1 = len)); [|done]. intros i [d' g'] Hi Hl. cbn in Hl.
  destruct (rand g') as [x g1]. apply ends_bind, ends_store; [lia|]. cbn. by rewrite length_insert.
Qed.

Lemma symbol_lookup bufs j b x : bufs !! j = Some b → symbol bufs j x = default x00 (b !! x).
Proof. unfold symbol. by intros ->. Qed.
Lemma symbol_take n bufs j x : (j < n)%nat → symbol (take n bufs) j x = symbol bufs j x.
Proof. intros Hj. unfold symbol. by rewrite lookup_take_lt. Qed.
Lemma symbol_app_l a b j x : (j < length a)%nat → symbol (a ++ b) j x = symbol a j x.
Proof. intros Hj. unfold symbol. by rewrite lookup_app_l. Qed.
Lemma symbol_app_r a b j x : symbol (a ++ b) (length a + j) x = symbol b j x.
Proof. unfold symbol. rewrite lookup_app_r by lia. by replace (length a + j - length a)%nat with j by lia. Qed.

(** Buffers of one length with the same symbols are the same. *)
Lemma same_symbols len bufs bufs' i j b b' :
  bufs !! i = Some b → bufs' !! j = Some b' → length b = len → length b' = len →
  (∀ x, (x < len)%nat → symbol bufs i x = symbol bufs' j x) → b = b'.
Proof.
  intros Hb Hb' Hl Hl' Hs. apply (list_eq_same_length _ _ len); [done|done|]. intros x v v' Hx Hv Hv'.
  specialize (Hs x Hx). by rewrite (symbol_lookup _ _ _ _ Hb), (symbol_lookup _ _ _ _ Hb'), Hv, Hv' in Hs.
Qed.

Lemma code_runs E len k rows a size srcs :
  (k * rows <= length a)%nat → (32 * k * rows <= size)%nat → buffers k len srcs →
  runs E (code len k rows a size srcs) (λ out, buffers rows len out ∧
    ∀ l x, (l < rows)%nat → (x < len)%nat →
      symbol out l x = xsum k (λ j, gf_mul (entry a k l j) (symbol srcs j x))).
Proof.
  intros Ha Hs [Hl Hf]. unfold code. rewrite decide_True by done. cbn.
  rewrite encode_product; [|rewrite length_take; lia|done|done]. split; [split|].
  - by rewrite length_fmap, length_seq.
  - apply Forall_fmap, Forall_true. intros l. cbn. by rewrite length_fmap, length_seq.
  - intros l x Hlr Hx. unfold symbol at 1. rewrite list_lookup_fmap, lookup_seq_lt by done. cbn.
    rewrite list_lookup_fmap, lookup_seq_lt by done. cbn. apply xsum_ext. intros j Hj. by rewrite entry_take by nia.
Qed.

(** The fragments after encoding: every one is its symbol of the code words of the sources. *)
Definition coded (k m len : nat) (frags : list (list byte)) : Prop :=
  buffers m len frags ∧ ∀ r x, (r < m)%nat → (x < len)%nat →
    symbol frags r x = codeword (gf_gen_cauchy1_matrix m k) k (λ j, symbol frags j x) r.

Lemma encode_coded k p len srcs parity :
  buffers k len srcs → buffers p len parity →
  (∀ l x, (l < p)%nat → (x < len)%nat →
     symbol parity l x =
     xsum k (λ j, gf_mul (entry (drop (k * k) (gf_gen_cauchy1_matrix (k + p) k)) k l j) (symbol srcs j x))) →
  coded k (k + p) len (srcs ++ parity).
Proof.
  intros [Hl Hf] [Hl' Hf'] Hp. split; [split; [rewrite length_app; lia|by apply Forall_app]|].
  intros r x Hr Hx. unfold codeword.
  rewrite (xsum_ext k _ (λ j, gf_mul (entry (gf_gen_cauchy1_matrix (k + p) k) k r j) (symbol srcs j x)));
    [|intros j Hj; cbv beta; by rewrite symbol_app_l by lia].
  destruct (decide (r < k)%nat) as [Hrk|Hrk].
  - rewrite symbol_app_l by lia.
    rewrite (xsum_ext k _ (λ j, gf_mul (delta r j) (symbol srcs j x)));
      [|intros j Hj; cbv beta; by rewrite cauchy_identity by lia].
    symmetry. by apply (xsum_delta k r (λ j, symbol srcs j x)).
  - replace r with (length srcs + (r - k))%nat at 1 by lia. rewrite symbol_app_r, Hp by lia.
    apply xsum_ext. intros j Hj. f_equal. unfold entry. rewrite lookup_drop. do 2 f_equal. nia.
Qed.

Lemma fill_sources_runs E k m len frags g :
  (k <= m)%nat → buffers m len frags →
  runs E (for_ 0 k (λ i '(frag_ptrs, g),
    d ← load frag_ptrs i;
    '(d, g) ← fill_random len d g;
    frag_ptrs ← store frag_ptrs i d;
    mret (frag_ptrs, g)) (frags, g)) (λ r, buffers m len r.1).
Proof.
  intros Hk Hb. apply (ends_for (λ _ r, buffers m len r.1)); [|done]. intros i [fs g'] Hi [Hl Hf].
  cbn [fst] in *. destruct (lookup_lt_is_Some_2 fs i) as [d Hd]; [lia|].
  apply ends_bind. eapply ends_load; [exact Hd|]. cbv beta.
  apply ends_bind. eapply ends_mono; [apply fill_random_runs; exact (Forall_lookup_1 _ _ _ _ Hf Hd)|].
  intros [d' g''] Hd'. cbn [fst] in Hd'. cbv beta. apply ends_bind, ends_store; [lia|]. cbn. split; [by rewrite length_insert|].
  by apply Forall_insert.
Qed.

Lemma recover_srcs_runs E (frags : list (list byte)) idx (sel : list nat) k :
  length sel = k → Forall (λ r, (r < length frags)%nat ∧ (r < 256)%nat) sel →
  (∀ i, (i < k)%nat → idx !! i = Some (u8 (sel !!! i))) →
  runs E (for_ 0 k (λ i srcs, r ← load idx i; f ← load frags (ix r); mret (srcs ++ [f])) [])
    (λ srcs, srcs = (λ r, frags !!! r) <$> sel).
Proof.
  intros Hl Hsel Hidx. rewrite <- (firstn_all sel), Hl.
  apply (ends_for (λ i srcs, srcs = (λ r, frags !!! r) <$> take i sel)); [|done]. intros i srcs Hi ->.
  destruct (lookup_lt_is_Some_2 sel i) as [r Hr]; [lia|]. destruct (Forall_lookup_1 _ _ _ _ Hsel Hr) as [Hrl Hr256].
  apply ends_bind. eapply ends_load; [by apply Hidx|]. cbv beta. rewrite (list_lookup_total_correct _ _ _ Hr), ix_u8 by done.
  destruct (lookup_lt_is_Some_2 frags r Hrl) as [f Hf]. apply ends_bind. eapply ends_load; [exact Hf|].
  cbn. by rewrite (take_S_r _ _ _ Hr), fmap_app, <- (list_lookup_total_correct _ _ _ Hf).
Qed.

(** Decoding the survivors gives the lost fragments. *)
Lemma decode_frags k m len nerrs errs D idx frags out p e f f' :
  coded k m len frags → (nerrs + k <= m)%nat → (nerrs <= length errs)%nat →
  decodes (gf_gen_cauchy1_matrix m k) errs nerrs k m D idx →
  buffers nerrs len out →
  (∀ l x, (l < nerrs)%nat → (x < len)%nat → symbol out l x =
     xsum k (λ j, gf_mul (entry D k l j) (symbol ((λ r, frags !!! r) <$> selected errs nerrs k m) j x))) →
  errs !! p = Some e → (p < nerrs)%nat → out !! p = Some f → frags !! ix e = Some f' → f = f'.
Proof.
  intros [[Hl Hf] Hcode] Hk He HD [Hlo Hfo] Hout Hp Hpn Hop Hfe.
  destruct (selected_props errs nerrs k m Hk He) as (Hls&_&Hlt&_).
  apply (same_symbols len out frags p (ix e)); [done|done| | |].
  - exact (Forall_lookup_1 _ _ _ _ Hfo Hop).
  - exact (Forall_lookup_1 _ _ _ _ Hf Hfe).
  - intros x Hx. rewrite Hout by done. rewrite (Hcode (ix e)); [|apply lookup_lt_Some in Hfe; lia|done].
    rewrite <- (error_at_eq _ _ _ Hp), <- (d_recovers _ _ _ _ _ _ _ HD _ _ Hpn).
    apply xsum_ext. intros j Hj. f_equal. destruct (lookup_lt_is_Some_2 (selected errs nerrs k m) j) as [r Hr]; [lia|].
    pose proof (Forall_lookup_1 _ _ _ _ Hlt Hr) as Hrm. cbv beta in Hrm.
    rewrite (list_lookup_total_correct _ _ _ Hr), <- Hcode by done. unfold symbol at 1.
    rewrite list_lookup_fmap, Hr. cbn. unfold symbol.
    destruct (lookup_lt_is_Some_2 frags r) as [fr Hfr]; [lia|]. by rewrite (list_lookup_total_correct _ _ _ Hfr), Hfr.
Qed.

(** Parameters that pass the checks. *)
Record accepted (k p nerrs : nat) (errs : list byte) : Prop := {
  ac_k : (1 <= k)%nat; ac_p : (1 <= p)%nat; ac_m : (k + p <= MMAX)%nat; ac_n : (nerrs <= p)%nat;
  ac_len : length errs = MMAX;
  ac_errs i : (i < nerrs)%nat → (error_at errs i < k + p)%nat;
}.

Lemma compare_runs k m len nerrs D idx errs frags out :
  coded k m len frags → (nerrs + k <= m)%nat → (nerrs <= length errs)%nat →
  (∀ i, (i < nerrs)%nat → (error_at errs i < m)%nat) →
  decodes (gf_gen_cauchy1_matrix m k) errs nerrs k m D idx → buffers nerrs len out →
  (∀ l x, (l < nerrs)%nat → (x < len)%nat → symbol out l x =
     xsum k (λ j, gf_mul (entry D k l j) (symbol ((λ r, frags !!! r) <$> selected errs nerrs k m) j x))) →
  runs fine (for_ 0 nerrs (λ i _,
    e ← load errs i;
    out ← load out i;
    f ← load frags (ix e);
    if bool_decide (out = f) then mret tt else Exit (recovery_failed i)) tt) (λ _, True).
Proof.
  intros Hc Hk He Herr HD Hb Hout. pose proof Hc as [[Hlf _] _]. pose proof Hb as [Hlo _].
  apply (ends_for (λ _ _, True)); [|done]. intros p [] Hp _.
  destruct (lookup_lt_is_Some_2 errs p) as [e Hpe]; [lia|]. specialize (Herr p Hp). rewrite (error_at_eq _ _ _ Hpe) in Herr.
  destruct (lookup_lt_is_Some_2 out p) as [f Hpf]; [lia|].
  destruct (lookup_lt_is_Some_2 frags (ix e)) as [f' Hf']; [lia|].
  apply ends_bind. eapply ends_load; [exact Hpe|]. apply ends_bind. eapply ends_load; [exact Hpf|].
  apply ends_bind. eapply ends_load; [exact Hf'|].
  rewrite bool_decide_eq_true_2; [done|]. by eapply decode_frags.
Qed.

Lemma encode_recover_runs k p len nerrs errs junk g :
  accepted k p nerrs errs → invertible (k + p) k → length junk = MMAX →
  runs fine (encode_recover malloc k p len nerrs errs junk g) (λ _, False).
Proof.
  intros [Hk Hp Hm Hn Hle Herr] Hinv Hj. unfold encode_recover. cbv zeta.
  apply ends_bind, alloc_runs. intros _ _. apply ends_bind, alloc_runs. intros D0 HD0.
  apply ends_bind, alloc_runs. intros I0 HI0. apply ends_bind, alloc_runs. intros T0 HT0.
  apply ends_bind, alloc_runs. intros _ _.
  apply ends_bind. eapply ends_mono; [apply alloc_all_runs|]. intros frags0 Hf0. cbv beta.
  apply ends_bind. eapply ends_mono; [apply alloc_all_runs|]. intros _ _.
  apply ends_bind. eapply ends_mono; [apply fill_sources_runs; [|exact Hf0]; lia|]. intros [frags1 g1] [Hl1 Hf1].
  cbn [fst] in *. cbv beta. pose proof (cauchy_length (k + p) k) as Hlc.
  assert (Hsrcs : buffers k len (take k frags1)) by (split; [rewrite length_take; lia|by apply Forall_take]).
  apply ends_bind. eapply ends_mono; [apply code_runs; [rewrite length_drop; nia|lia|exact Hsrcs]|].
  intros parity [Hpar Hprod]. cbv beta.
  pose proof (encode_coded k p len _ _ Hsrcs Hpar Hprod) as Hcoded. set (frags := take k frags1 ++ parity) in *.
  destruct (Nat.eqb_spec nerrs 0) as [|Hn0]; [done|].
  destruct (decode_matrix_correct D0 I0 T0 junk errs nerrs k (k + p)) as (D&idx&Edec&HlD&Hdec&Hsel); [done || lia..|].
  rewrite Edec. unfold mbind at 1, run_bind at 1. cbn [Z.eqb negb].
  destruct (selected_props errs nerrs k (k + p)) as (Hls&_); [lia|unfold MMAX in *; lia|].
  pose proof Hcoded as [[Hlf Hff] _].
  assert (Hin : Forall (λ r, (r < length frags)%nat ∧ (r < 256)%nat) (selected errs nerrs k (k + p))).
  { eapply Forall_impl; [exact Hsel|]. cbv beta. unfold MMAX in *. intros r [Hr _]. lia. }
  apply ends_bind. eapply ends_mono; [apply recover_srcs_runs; [exact Hls|exact Hin|exact (d_index _ _ _ _ _ _ _ Hdec)]|].
  intros srcs ->. cbv beta.
  apply ends_bind. eapply ends_mono.
  { apply code_runs; [nia|nia|]. split; [by rewrite length_fmap|]. apply Forall_fmap. eapply Forall_impl; [exact Hin|].
    intros r [Hr _]. cbn. destruct (lookup_lt_is_Some_2 frags r Hr) as [f Hf].
    rewrite (list_lookup_total_correct _ _ _ Hf). exact (Forall_lookup_1 _ _ _ _ Hff Hf). }
  intros out [Hbo Hout]. cbv beta. apply ends_bind.
  eapply ends_mono; [by eapply compare_runs; [exact Hcoded|lia|unfold MMAX in *; lia|exact Herr|exact Hdec|exact Hbo|exact Hout]|].
  done.
Qed.

(** *** The options *)
Definition moderate (v : Z) : Prop := (- 2 ^ 30 < v < 2 ^ 30)%Z.
(** Numbers that are far from the bounds of [int]. *)
Definition tame (opts : list (Ascii.ascii * string)) : Prop :=
  Forall (λ co, ∃ v, atoi co.2 = Go v ∧ moderate v) opts.
Definition has_r (opts : list (Ascii.ascii * string)) : bool := existsb (λ co, bool_decide (co.1 = "r"%char)) opts.
Definition count_e (opts : list (Ascii.ascii * string)) : nat := length (filter (λ co, co.1 = "e"%char) opts).
(** As many errors as fit into [frag_err_list]; [-r] alone picks at most 254. *)
Definition room (opts : list (Ascii.ascii * string)) : Prop :=
  ((if has_r opts then 254 else 0) + count_e opts <= MMAX)%nat.

Record parsed (bound : nat) (a : Args) : Prop := {
  p_k : moderate (a_k a); p_p : moderate (a_p a);
  p_list : length (frag_err_list a) = MMAX; p_nerrs : (nerrs a <= bound)%nat;
}.

Lemma parsed_mono b b' a : (b <= b')%nat → parsed b a → parsed b' a.
Proof. intros Hb [????]. split; [done..|lia]. Qed.
Lemma parsed_draw b a : parsed b a → parsed b (draw a).2.
Proof. intros [????]. unfold draw. destruct (rand (rng a)). by split. Qed.
Lemma draw_nonneg a : (0 <= (draw a).1)%Z.
Proof. unfold draw. pose proof (rand_nonneg (rng a)). by destruct (rand (rng a)). Qed.
Lemma draw_same a : a_p (draw a).2 = a_p a ∧ nerrs (draw a).2 = nerrs a.
Proof. unfold draw. by destruct (rand (rng a)). Qed.

Lemma add_error_runs {E} e b a :
  parsed b a → (nerrs a < MMAX)%nat →
  runs E (add_error e a) (λ a', parsed (S (nerrs a)) a' ∧ a_p a' = a_p a).
Proof.
  intros [????] Hn. unfold add_error. apply ends_bind, ends_store; [lia|]. split; [|done].
  split; cbn; [done|done|by rewrite length_insert|done].
Qed.

Lemma pick_errors_runs {E} n i b a :
  parsed b a → (254 <= b)%nat → (a_p a <= 254)%Z → runs E (pick_errors n i a) (parsed b).
Proof.
  revert i a. induction n as [|n IH]; intros i a Ha Hb Hp; [done|]. cbn.
  destruct (Z.ltb_spec (Z.of_nat (nerrs a)) (a_p a)) as [Hn|]; [|done].
  pose proof (parsed_draw b a Ha) as Ha1. pose proof (draw_same a) as [Ep En]. destruct (draw a) as [x a1]. cbn [snd] in *.
  apply ends_bind. destruct (Z.odd x).
  - eapply ends_mono; [apply (add_error_runs _ b); [done|unfold MMAX; lia]|]. cbv beta. intros a2 [Ha2 Ep2].
    apply IH; [|done|lia]. eapply parsed_mono; [|exact Ha2]. lia.
  - apply IH; [done|done|lia].
Qed.

Lemma option_step_runs c optarg v a b b' :
  atoi optarg = Go v → moderate v → parsed b a → (b <= b')%nat →
  (c = "e"%char → (S b <= b' <= MMAX)%nat) → (c = "r"%char → (254 <= b)%nat) →
  runs fine (option_step c optarg a) (parsed b').
Proof.
  intros Hv Hm Ha Hb He Hr. pose proof (parsed_mono b b' a Hb Ha) as [????].
  assert (Hk : runs fine (option_step "k" optarg a) (parsed b')) by (cbn; rewrite Hv; by split).
  assert (Hp : runs fine (option_step "p" optarg a) (parsed b')) by (cbn; rewrite Hv; by split).
  assert (Hl : runs fine (option_step "l" optarg a) (parsed b')).
  { cbn. rewrite Hv. cbn. destruct (Z.ltb_spec v 0); [done|]. by split. }
  assert (Hne : (nerrs a <= b)%nat) by apply Ha.
  assert (HE : c = "e"%char → runs fine (option_step "e" optarg a) (parsed b')).
  { intros Ec. specialize (He Ec). cbn. rewrite Hv. eapply ends_mono; [apply (add_error_runs _ b); [done|lia]|].
    intros a' [Ha' _]. eapply parsed_mono; [|exact Ha']. lia. }
  assert (HR : c = "r"%char → runs fine (option_step "r" optarg a) (parsed b')).
  { intros Ec. specialize (Hr Ec). cbn. rewrite Hv. cbn.
    set (a0 := mkArgs (a_k a) (a_p a) (a_len a) (nerrs a) (frag_err_list a) (srand (v mod 2 ^ 32))).
    assert (P0 : parsed b' a0) by by split.
    pose proof (parsed_draw b' a0 P0) as P1. pose proof (draw_nonneg a0) as Hx. destruct (draw a0) as [x a1]. cbn [fst snd] in *.
    pose proof (parsed_draw b' a1 P1) as P2. pose proof (draw_nonneg a1) as Hy. destruct (draw a1) as [y a2]. cbn [fst snd] in *.
    pose proof (Z.rem_bound_pos x 254 Hx ltac:(lia)) as Hkb.
    pose proof (Z.rem_bound_pos y (255 - (Z.rem x 254 + 1)) Hy ltac:(lia)) as Hpb.
    change (Z.of_nat MMAX - 1)%Z with 254%Z. change (Z.of_nat MMAX) with 255%Z.
    apply pick_errors_runs; [|lia|cbn [a_p]; lia]. destruct P2. split; cbn [a_k a_p frag_err_list nerrs]; [unfold moderate; lia|unfold moderate; lia|done|done]. }
  destruct c as [[] [] [] [] [] [] [] []]; first [exact Hk|exact Hp|exact Hl|by apply HE|by apply HR|done].
Qed.

Lemma has_r_cons c optarg opts : has_r ((c, optarg) :: opts) = bool_decide (c = "r"%char) || has_r opts.
Proof. done. Qed.

Lemma options_runs opts a b :
  tame opts → parsed b a → (has_r opts = true → (254 <= b)%nat) → (b + count_e opts <= MMAX)%nat →
  runs fine (options opts a) (parsed (b + count_e opts)).
Proof.
  revert a b. induction opts as [|[c optarg] opts IH]; intros a b Ht Ha Hr Hb.
  { cbn. by rewrite Nat.add_0_r. }
  apply Forall_cons in Ht as [(v&Hv&Hm) Ht]. unfold count_e in *. rewrite filter_cons in *. rewrite has_r_cons in Hr. cbn [fst snd] in *.
  assert (Hr' : has_r opts = true → (254 <= b)%nat) by (intros E; apply Hr; by rewrite E, orb_true_r).
  cbn [options]. apply ends_bind. case_decide as Hc.
  - cbn [length] in *. eapply ends_mono; [apply (option_step_runs _ _ v _ b (S b)); try done; [lia|lia|]|].
    + intros ->. by apply Hr.
    + cbv beta. intros a' Ha'. rewrite Nat.add_succ_r. apply (IH a' (S b)); [done|done| |lia]. intros E. specialize (Hr' E). lia.
  - eapply ends_mono; [apply (option_step_runs _ _ v _ b b); try done|].
    + intros ->. by apply Hr.
    + cbv beta. intros a' Ha'. by apply IH.
Qed.

Lemma defaults_runs argc junk g :
  length junk = MMAX → runs fine (defaults argc junk g) (parsed (if (argc =? 1)%nat then 4 else 0)).
Proof.
  intros Hj. unfold defaults. cbv zeta. set (a0 := mkArgs 10 4 (8 * 1024) 0 junk g).
  assert (P0 : parsed 0 a0) by (by split). destruct (argc =? 1)%nat; [|done].
  apply (ends_for (λ i a, parsed i a)); [|done]. intros i a Hi Ha.
  pose proof (parsed_draw i a Ha) as P1. pose proof (draw_same a) as [_ En]. destruct (draw a) as [x a1]. cbn [snd] in *.
  pose proof (p_nerrs _ _ Ha) as Hn. eapply ends_mono; [apply (add_error_runs _ i); [done|unfold MMAX; lia]|].
  intros a2 [Ha2 _]. eapply parsed_mono; [|exact Ha2]. lia.
Qed.

Lemma parse_args_runs argc opts junk g :
  length junk = MMAX → tame opts → room opts → (argc = 1%nat → opts = []) →
  runs fine (parse_args argc opts junk g) (parsed MMAX).
Proof.
  intros Hj Ht Hroom Hargc. unfold parse_args. apply ends_bind.
  eapply ends_mono; [by apply defaults_runs|]. cbv beta. intros a Ha. unfold room in Hroom.
  destruct (Nat.eqb_spec argc 1) as [->|Hne].
  - rewrite Hargc by done. eapply parsed_mono; [|exact Ha]. unfold MMAX. lia.
  - eapply ends_mono.
    { apply (options_runs opts a (if has_r opts then 254 else 0)); [done| |by intros ->|done].
      eapply parsed_mono; [|exact Ha]. lia. }
    intros a' Ha'. by eapply parsed_mono.
Qed.

Lemma check_args_runs a :
  parsed MMAX a →
  runs fine (check_args a) (λ _, accepted (Z.to_nat (a_k a)) (Z.to_nat (a_p a)) (nerrs a) (frag_err_list a)).
Proof.
  intros [Hk Hp Hl Hn]. unfold moderate in *. unfold check_args, int, is_int.
  rewrite (proj2 (Z.leb_le _ _)), (proj2 (Z.ltb_lt (a_k a + a_p a) _)) by lia. cbn [andb]. unfold mbind at 1, run_bind at 1.
  cbn [mret run_ret]. destruct (_ || _) eqn:Ebad; [done|].
  change (Z.of_nat MMAX) with 255%Z in Ebad. change (Z.of_nat KMAX) with 255%Z in Ebad. bool_to_prop.
  destruct (Z.ltb_spec (a_p a) (Z.of_nat (nerrs a))) as [|Hnp]; [done|].
  eapply ends_mono.
  { apply (ends_for (λ n _, ∀ i, (i < n)%nat → (error_at (frag_err_list a) i < Z.to_nat (a_k a) + Z.to_nat (a_p a))%nat));
      [|intros; lia].
    intros i [] Hi Hall. destruct (lookup_lt_is_Some_2 (frag_err_list a) i) as [e He]; [lia|].
    apply ends_bind. eapply ends_load; [exact He|]. destruct (Z.leb_spec (a_k a + a_p a) (Z.of_nat (ix e))) as [|Hlt]; [done|].
    cbn. intros j Hj. destruct (decide (j = i)) as [->|]; [|apply Hall; lia]. rewrite (error_at_eq _ _ _ He). lia. }
  cbv beta. intros _ Hall. split; [lia|lia|unfold MMAX; lia|lia|done|exact Hall].
Qed.

(** A run of the demonstration whose numeric options stay away from the bounds of [int] and
    whose [-e] options fit into [frag_err_list] is defined, and ends in the usage message, for
    want of memory, without erasures or in "Pass", whatever it draws, allocates and finds in
    its buffers: recovery never fails. *)
Theorem demo_ends argc opts junk junk' g :
  length junk = MMAX → length junk' = MMAX → tame opts → room opts → (argc = 1%nat → opts = []) →
  (∀ a, parse_args argc opts junk g = Go a → check_args a = Go tt →
     invertible (Z.to_nat (a_k a) + Z.to_nat (a_p a)) (Z.to_nat (a_k a))) →
  ∃ o, main malloc argc opts junk junk' g = Exit o ∧ fine o.
Proof.
  intros Hj Hj' Ht Hroom Hargc Hinv.
  assert (H' : runs fine (main malloc argc opts junk junk' g) (λ _, False)).
  { unfold main. pose proof (parse_args_runs argc opts junk g Hj Ht Hroom Hargc) as Hp.
    destruct (parse_args argc opts junk g) as [|o|a]; [done|done|]. cbn in Hp. unfold mbind at 1, run_bind at 1.
    pose proof (check_args_runs a Hp) as Hc. specialize (Hinv a eq_refl).
    destruct (check_args a) as [|o|[]]; [done|done|]. cbn in Hc. unfold mbind, run_bind.
    by apply encode_recover_runs; [done|apply Hinv|]. }
  destruct (main malloc argc opts junk junk' g) as [|o|[]]; [done|by exists o|done].
Qed.

(** [-e] has no bound of its own: the 256th writes behind [frag_err_list]. *)
Theorem too_many_errors argc optarg v junk junk' g :
  argc ≠ 1%nat → length junk = MMAX → atoi optarg = Go v →
  main malloc argc (replicate 256 ("e"%char, optarg)) junk junk' g = Undefined.
Proof.
  intros Hargc Hj Hv. unfold main, parse_args, defaults. rewrite (proj2 (Nat.eqb_neq argc 1)) by done.
  assert (Hall : ∀ n a, length (frag_err_list a) = MMAX → (MMAX < nerrs a + n)%nat → (nerrs a <= MMAX)%nat →
    options (replicate n ("e"%char, optarg)) a = Undefined).
  { induction n as [|n IH]; intros a Hl Hn Hna; [lia|]. cbn. rewrite Hv. cbn. unfold add_error, store.
    destruct (decide _) as [Hlt|]; [|done]. cbn. apply IH; cbn; [by rewrite length_insert|lia|lia]. }
  specialize (Hall 256%nat (mkArgs 10 4 (8 * 1024) 0 junk g) Hj). unfold MMAX in Hall.
  unfold mbind, run_bind, mret, run_ret. rewrite Hall; [done|cbn [nerrs]; lia..].
Qed.
End main_lemmas.

(** ** Witnesses: GF(2^8) with the polynomial 0x11d of ISA-L, Cauchy matrices and Gauss-Jordan *)
Module Witness.
Definition bit (a : byte) (i : nat) : bool := Z.testbit (byte_to_Z a) (Z.of_nat i).
Definition xtime (b : byte) : byte :=
  let z := (2 * byte_to_Z b)%Z in byte_of_Z (if (256 <=? z)%Z then Z.lxor z 0x11d else z).
Fixpoint power (i : nat) (b : byte) : byte := match i with O => b | S i => xtime (power i b) end.
Definition mul (a b : byte) : byte := xsum 8 (λ i, if bit a i then power i b else x00).
Definition basis (i : nat) : byte := byte_of_Z (2 ^ Z.of_nat i).

Definition all_bytes : list byte := byte_of_Z <$> seqZ 0 256.
Lemma for_all_bytes (P : byte → bool) : forallb P all_bytes = true → ∀ b, P b = true.
Proof.
  intros Hall b. rewrite forallb_forall in Hall. apply Hall. unfold all_bytes. apply list_elem_of_In, list_elem_of_fmap.
  exists (byte_to_Z b). split; [by rewrite byte_of_to_Z|]. apply elem_of_seqZ. pose proof (byte_to_Z_range b). lia.
Qed.
Lemma byte_bits a : a = xsum 8 (λ i, if bit a i then basis i else x00).
Proof.
  apply byte_eq, Z.eqb_eq. revert a.
  apply (for_all_bytes (λ a, byte_to_Z a =? byte_to_Z (xsum 8 (λ i, if bit a i then basis i else x00)))%Z).
  vm_compute. reflexivity.
Qed.

(** Functions on bytes that respect [xor] agree when they do on the powers of two. *)
Definition linear (f : byte → byte) : Prop := ∀ a b, f (xor a b) = xor (f a) (f b).
Lemma linear_0 f : linear f → f x00 = x00.
Proof. intros Hf. rewrite <- (xor_nilpotent x00) at 1. by rewrite Hf, xor_nilpotent. Qed.
Lemma linear_xsum f n g : linear f → f (xsum n g) = xsum n (λ i, f (g i)).
Proof. intros Hf. induction n as [|n IH]; cbn; [by apply linear_0|]. by rewrite Hf, IH. Qed.
Lemma linear_ext f g : linear f → linear g → (∀ i, (i < 8)%nat → f (basis i) = g (basis i)) → ∀ a, f a = g a.
Proof.
  intros Hf Hg E a. rewrite (byte_bits a), !linear_xsum by done. apply xsum_ext. intros i Hi.
  destruct (bit a i); [by apply E|]. by rewrite !linear_0.
Qed.

Lemma linear_xtime : linear xtime.
Proof.
  intros a b. apply byte_eq, Z.eqb_eq. revert b. apply for_all_bytes. revert a.
  apply (for_all_bytes (λ a, forallb (λ b, byte_to_Z (xtime (xor a b)) =? byte_to_Z (xor (xtime a) (xtime b)))%Z all_bytes)).
  vm_compute. reflexivity.
Qed.
Lemma linear_mul_r a : linear (mul a).
Proof.
  assert (Hp : ∀ i, linear (power i)).
  { induction i as [|i IH]; intros b c; cbn; [done|]. by rewrite IH, linear_xtime. }
  intros b c. unfold mul. rewrite <- xsum_xor. apply xsum_ext. intros i _. destruct (bit a i); [apply Hp|].
  by rewrite xor_0_l.
Qed.
Lemma linear_mul_l b : linear (λ a, mul a b).
Proof.
  intros a c. unfold mul. rewrite <- xsum_xor. apply xsum_ext. intros i _. unfold bit at 1.
  rewrite byte_lxor, Z.lxor_spec. fold (bit a i) (bit c i).
  destruct (bit a i), (bit c i); cbn; by rewrite ?xor_0_l, ?xor_0_r, ?xor_nilpotent.
Qed.
Lemma mul_xor_r a b c : mul a (xor b c) = xor (mul a b) (mul a c).
Proof. apply linear_mul_r. Qed.
Lemma mul_xor_l a b c : mul (xor a b) c = xor (mul a c) (mul b c).
Proof. apply (linear_mul_l c). Qed.
Ltac linear_tac := intros ? ?; rewrite ?mul_xor_l, ?mul_xor_r, ?mul_xor_l; reflexivity.

Lemma below_8 (P : nat → bool) : forallb P (seq 0 8) = true → ∀ i, (i < 8)%nat → P i = true.
Proof. rewrite forallb_forall. intros HP i Hi. apply HP, in_seq. lia. Qed.

#[local] Arguments mul : simpl never.
Lemma mul_comm a b : mul a b = mul b a.
Proof.
  revert a. apply linear_ext; [linear_tac..|]. intros i Hi. revert b.
  apply linear_ext; [linear_tac..|]. intros j Hj.
  apply byte_eq, Z.eqb_eq. revert j Hj. apply below_8. revert i Hi.
  apply (below_8 (λ i, forallb (λ j, byte_to_Z (mul (basis i) (basis j)) =? byte_to_Z (mul (basis j) (basis i)))%Z (seq 0 8))).
  vm_compute. reflexivity.
Qed.
Lemma mul_assoc a b c : mul a (mul b c) = mul (mul a b) c.
Proof.
  revert a. apply linear_ext; [linear_tac..|].
  intros i Hi. revert b.
  apply linear_ext; [linear_tac..|].
  intros j Hj. revert c.
  apply linear_ext; [linear_tac..|].
  intros l Hl. apply byte_eq, Z.eqb_eq. revert l Hl. apply below_8. revert j Hj. apply below_8. revert i Hi.
  apply (below_8 (λ i, forallb (λ j, forallb (λ l, byte_to_Z (mul (basis i) (mul (basis j) (basis l))) =?
    byte_to_Z (mul (mul (basis i) (basis j)) (basis l)))%Z (seq 0 8)) (seq 0 8))).
  vm_compute. reflexivity.
Qed.

(** *** The matrices *)
Definition gf_inv (a : byte) : byte :=
  match filter (λ b, mul a b = x01) all_bytes with b :: _ => b | [] => x00 end.
Definition cauchy (m k : nat) : list byte :=
  matrix m k (λ i j, if (i <? k)%nat then delta i j else gf_inv (u8 (Nat.lxor i j))).

(** Gauss-Jordan on the rows of [(b | 1)]: the first row of [rest] with an entry in column
    [col] becomes the next of [solved]. *)
Definition at_col (row : list byte) (col : nat) : byte := default x00 (row !! col).
Definition scale (a : byte) (row : list byte) : list byte := mul a <$> row.
Definition eliminate (col : nat) (pivot row : list byte) : list byte :=
  zip_with xor row (scale (at_col row col) pivot).
Fixpoint gauss (n col : nat) (solved rest : list (list byte)) : list (list byte) :=
  match n with
  | O => solved
  | S n =>
      match list_find (λ row, at_col row col ≠ x00) rest with
      | None => solved
      | Some (i, row) =>
          let pivot := scale (gf_inv (at_col row col)) row in
          gauss n (S col) ((eliminate col pivot <$> solved) ++ [pivot])
            (eliminate col pivot <$> (take i rest ++ drop (S i) rest))
      end
  end.
Definition gauss_inverse (b : list byte) (n : nat) : list byte :=
  mjoin (drop n <$> gauss n 0 []
    ((λ i, ((λ j, entry b n i j) <$> seq 0 n) ++ ((λ j, delta i j) <$> seq 0 n)) <$> seq 0 n)).
Definition is_inverse (inv b : list byte) (n : nat) : bool :=
  (length inv =? n * n)%nat &&
  forallb (λ i, forallb (λ j, bool_decide (xsum n (λ l, mul (entry inv n i l) (entry b n l j)) = delta i j))
    (seq 0 n)) (seq 0 n).
Definition invert (b : list byte) (n : nat) : option (list byte) :=
  let inv := gauss_inverse b n in if is_inverse inv b n then Some inv else None.

#[local] Instance isal : IsalOps := {|
  gf_mul := mul;
  gf_gen_cauchy1_matrix := cauchy;
  gf_invert_matrix := invert;
  Tables := list byte;
  ec_init_tables _ _ a := a;
  ec_encode_data len k rows a data :=
    (λ l, (λ x, xsum k (λ j, mul (entry a k l j) (symbol data j x))) <$> seq 0 len) <$> seq 0 rows;
|}.

#[local] Instance isal_laws : IsalLaws.
Proof.
  split.
  - apply mul_xor_r.
  - apply mul_assoc.
  - apply mul_comm.
  - intros a. apply byte_eq, Z.eqb_eq. revert a. apply for_all_bytes. vm_compute. reflexivity.
  - intros m k. apply length_matrix.
  - intros m k i j Hm Hi Hj. cbn. unfold cauchy. rewrite entry_matrix by lia.
    by rewrite (proj2 (Nat.ltb_lt i k)).
  - cbn. intros b inv n Hb. unfold invert. destruct (is_inverse (gauss_inverse b n) b n) eqn:E; [|done]. intros [= <-].
    unfold is_inverse in E. apply andb_true_iff in E as [El Ei]. apply Nat.eqb_eq in El. split; [done|].
    intros i j Hi Hj. rewrite forallb_forall in Ei. specialize (Ei i ltac:(apply in_seq; lia)). cbv beta in Ei.
    rewrite forallb_forall in Ei. specialize (Ei j ltac:(apply in_seq; lia)). cbv beta in Ei.
    apply bool_decide_eq_true in Ei. exact Ei.
  - intros. reflexivity.
Qed.

(** A linear congruential generator, and a [malloc] that finds memory full of ones. *)
#[local] Instance lcg : RandOps := {|
  Rng := Z;
  rand g := let g := ((g * 1103515245 + 12345) mod 2 ^ 31)%Z in (g / 2 ^ 16, g)%Z;
  srand seed := seed;
|}.
#[local] Instance lcg_laws : RandLaws.
Proof. split. intros g. cbn. apply Z.div_pos; [apply Z.mod_pos_bound; lia|lia]. Qed.
Definition ones (call n : nat) : option (list byte) := Some (replicate n xff).

Lemma invertible_4_2 : invertible 4 2.
Proof.
  intros [|r0 [|r1 []]]; try done. intros _ Hnd Hlt. do 2 apply Forall_cons in Hlt as [? Hlt].
  apply NoDup_cons in Hnd as [Hne _].
  do 4 (destruct r0 as [|r0]; [do 4 (destruct r1 as [|r1]; [first [by (exfalso; apply Hne; left)|by eexists; vm_compute]|]); lia|]).
  lia.
Qed.

Definition errors_1_2 : list byte := [x01; x02] ++ replicate 253 xff.

Lemma decode_matrix_recovers_witness : ∃ D idx,
  gf_gen_decode_matrix_simple (cauchy 4 2) (replicate 8 xff) (replicate 8 xff) (replicate 8 xff) (replicate 255 xff)
    errors_1_2 2 2 4 = Go (0%Z, D, idx) ∧
  length D = 8%nat ∧ decodes (cauchy 4 2) errors_1_2 2 2 4 D idx ∧ selected errors_1_2 2 2 4 = [0; 3]%nat.
Proof.
  pose proof (decode_matrix_recovers (replicate 8 xff) (replicate 8 xff) (replicate 8 xff) (replicate 255 xff)
    errors_1_2 2 2 4 ltac:(lia) ltac:(unfold MMAX; lia) invertible_4_2 eq_refl eq_refl eq_refl eq_refl eq_refl) as Hd.
  destruct Hd as (D&idx&E&HD&Hdec&_).
  - intros [|[|p]] Hp; [vm_compute; lia|vm_compute; lia|lia].
  - exists D, idx. split_and!; [exact E|exact HD|exact Hdec|vm_compute; reflexivity].
Defined.

(** [ec_demo -k 2 -p 2 -l 3 -e 1 -e 2]. *)
Definition command : list (Ascii.ascii * string) :=
  [("k"%char, "2"); ("p"%char, "2"); ("l"%char, "3"); ("e"%char, "1"); ("e"%char, "2")].

Definition chosen (r : Run Args) : option (Z * Z) := match r with Go a => Some (a_k a, a_p a) | _ => None end.

Lemma demo_ends_witness :
  main ones 11 command (replicate 255 xff) (replicate 255 xff) 42%Z = Exit passed ∧
  ∃ o, main ones 11 command (replicate 255 xff) (replicate 255 xff) 42%Z = Exit o ∧ fine o.
Proof.
  split; [vm_compute; reflexivity|].
  apply (demo_ends ones); [intros call n b [= <-]; apply length_replicate|reflexivity|reflexivity| | |done|].
  - repeat constructor; eexists; (split; [vm_compute; reflexivity|unfold moderate; lia]).
  - vm_compute. lia.
  - intros a Ha _. assert (E : chosen (parse_args 11 command (replicate 255 xff) 42%Z) = Some (2, 2)%Z) by (vm_compute; reflexivity).
    rewrite Ha in E. injection E as -> ->. exact invertible_4_2.
Defined.

Lemma too_many_errors_witness :
  main ones 513 (replicate 256 ("e"%char, "0")) (replicate 255 xff) (replicate 255 xff) 42%Z = Undefined.
Proof. apply (too_many_errors ones 513 "0" 0); [done|reflexivity|vm_compute; reflexivity]. Defined.
End Witness.
End ErasureCode.
