(* ===== verification/NvmeDemo.v ===== *)
(** * The SPDK demonstration ([src/examples/spdk/main.c])

    The program attaches to the NVMe controllers that SPDK finds, writes a text to the first
    block of every active namespace, reads it back and prints it. A command is submitted with a
    callback, which runs when the program polls the queue pair, and may submit the next command:
    the callbacks are the states of a small machine that ends when [is_completed] is set.

    SPDK is a class of operations ([SpdkOps]) on a state of its own. The buffers that the program
    allocates and maps are here, so that a use of memory that is gone, or of a null pointer, is
    visible ([Undefined]); [exit] ends a run wherever it is called ([Exited]). The program polls as
    long as nothing completes: a number of rounds is given, and a run that exceeds it is a value of
    its own ([Spins]). [SpdkLaws] describes a driver that completes what is submitted within a
    bounded number of polls. *)
From Stdlib Require Import Strings.Ascii.
From S2P Require Import Prelude.
Set Default Goal Selector "!".

(** A command, with the buffer that is passed to it; of a write also what the buffer holds. *)
Inductive Command :=
| CReset
| CWrite (buf : positive) (data : string)
| CRead (buf : option positive).
(** A completion: the command, [spdk_nvme_cpl_is_error], and what a read has read. *)
Record Completion := mkCompletion { command : Command; is_error : bool; data : string }.

(** ** SPDK

    [probe] answers its return code and the calls of [probe_cb] and [attach_cb] in their order. The
    allocations answer whether they succeed. [map_cmb] answers the size of the controller's memory
    buffer, if it has one. *)
Class SpdkOps (Trid Ctrlr Ns Qpair D : Type) := {
  pcie_discovery : Trid;
  transport_id_parse : string → option Trid;
  spdk_strtol : string → Z;
  log_set_flag : string → Z;
  env_init : D → Z * D;
  env_fini : D → D;
  vmd_init : D → Z * D;
  vmd_fini : D → D;
  probe : Trid → D → (Z * list (string * option Ctrlr)) * D;
  model_and_serial : Ctrlr → string * string;
  get_first_active_ns : Ctrlr → Z;
  get_next_active_ns : Ctrlr → Z → Z;
  get_ns : Ctrlr → Z → option Ns;
  ns_is_active : Ns → bool;
  ns_get_id : Ns → Z;
  ns_get_size : Ns → Z;
  ns_is_zoned : Ns → bool;
  malloc : D → bool * D;
  zmalloc : D → bool * D;
  alloc_io_qpair : Ctrlr → D → option Qpair * D;
  free_io_qpair : Qpair → D → D;
  map_cmb : Ctrlr → D → option Z * D;
  unmap_cmb : Ctrlr → D → D;
  submit : Qpair → Ns → Command → D → Z * D;
  process_completions : Qpair → D → list Completion * D;
  get_status_string : Completion → string;
  detach_async : Ctrlr → D → bool * D;      (* whether [detach_ctx] is set then *)
  detach_poll : D → D;
}.

(** The namespace ids of a controller: the iteration from [nsid] gives the list and ends. *)
Fixpoint chain (next : Z → Z) (nsid : Z) (ids : list Z) : Prop :=
  match ids with
  | [] => nsid = 0%Z
  | i :: ids => nsid = i ∧ i ≠ 0%Z ∧ chain next (next nsid) ids
  end.

(** A driver that works: at rest ([idle]) its calls succeed, and a controller's memory buffer is
    large enough if there is one; a submitted command ([busy]) completes without error after at
    most [patience] polls that answer nothing. [holds d ns s]: the first block of [ns] reads as [s]. *)
Class SpdkLaws (Trid Ctrlr Ns Qpair D : Type) `{!SpdkOps Trid Ctrlr Ns Qpair D} := {
  idle : D → Prop;
  busy : D → Qpair → Ns → Command → nat → Prop;
  holds : D → Ns → string → Prop;
  patience : nat;
  active_ns : Ctrlr → list Z;
  active_chain c : chain (get_next_active_ns c) (get_first_active_ns c) (active_ns c);
  env_init_ok d : ∃ d', env_init d = (0%Z, d') ∧ idle d';
  vmd_init_ok d : idle d → ∃ rc d', vmd_init d = (rc, d') ∧ idle d';
  probe_ok t d : idle d → ∃ events d', probe t d = ((0%Z, events), d') ∧ idle d';
  malloc_ok d : idle d → ∃ d', malloc d = (true, d') ∧ idle d';
  zmalloc_ok d : idle d → ∃ d', zmalloc d = (true, d') ∧ idle d' ∧ (∀ ns s, holds d ns s → holds d' ns s);
  alloc_io_qpair_ok c d : idle d → ∃ q d', alloc_io_qpair c d = (Some q, d') ∧ idle d';
  free_io_qpair_ok q d : idle d → idle (free_io_qpair q d);
  map_cmb_ok c d : idle d →
    ∃ sz d', map_cmb c d = (sz, d') ∧ idle d' ∧ (∀ z, sz = Some z → (4096 <= z)%Z);
  unmap_cmb_ok c d : idle d →
    idle (unmap_cmb c d) ∧ (∀ ns s, holds d ns s → holds (unmap_cmb c d) ns s);
  submit_ok q ns c d : idle d → c ≠ CRead None →
    ∃ d' n, submit q ns c d = (0%Z, d') ∧ busy d' q ns c n ∧ n <= patience ∧
      (∀ s, holds d ns s → holds d' ns s);
  poll_ok q ns c n d : busy d q ns c n →
    (∃ d' n', process_completions q d = ([], d') ∧ n' < n ∧ busy d' q ns c n' ∧
       (∀ s, holds d ns s → holds d' ns s)) ∨
    (∃ x d', process_completions q d = ([mkCompletion c false x], d') ∧ idle d' ∧
       match c with
       | CReset => True
       | CWrite _ s => holds d' ns s
       | CRead _ => ∀ s, holds d ns s → x = s
       end);
}.

Module NvmeDemo.

Definition DATA_BUFFER_STRING : string := "Hello world!".
Definition BUFFER_SIZE : Z := 4096.

Section program.
Context {Trid Ctrlr Ns Qpair D : Type} `{!SpdkOps Trid Ctrlr Ns Qpair D}.

Record CtrlrEntry := mkCtrlrEntry { c_ctrlr : Ctrlr; c_name : string }.
Record NsEntry := mkNsEntry { e_ctrlr : Ctrlr; e_ns : Ns }.

(** [struct hello_world_sequence]; the queue pair of its namespace is with it. *)
Record Sequence := mkSequence {
  ns_entry : NsEntry;
  qpair : Qpair;
  buf : option positive;
  using_cmb_io : bool;
  is_completed : Z;
}.

(** A buffer: allocated by the program or mapped from a controller. *)
Inductive Buffer := Host (content : string) | Cmb (content : string).

Record App := mkApp {
  driver : D;
  g_controllers : list CtrlrEntry;
  g_namespaces : list NsEntry;
  memory : gmap positive Buffer;
  fresh : positive;
  sequence : option Sequence;
  open_qpairs : nat;
  printed : list string;
}.
Definition set_driver d a := mkApp d (g_controllers a) (g_namespaces a) (memory a) (fresh a) (sequence a) (open_qpairs a) (printed a).
Definition set_controllers l a := mkApp (driver a) l (g_namespaces a) (memory a) (fresh a) (sequence a) (open_qpairs a) (printed a).
Definition set_namespaces l a := mkApp (driver a) (g_controllers a) l (memory a) (fresh a) (sequence a) (open_qpairs a) (printed a).
Definition set_memory m n a := mkApp (driver a) (g_controllers a) (g_namespaces a) m n (sequence a) (open_qpairs a) (printed a).
Definition set_sequence s a := mkApp (driver a) (g_controllers a) (g_namespaces a) (memory a) (fresh a) s (open_qpairs a) (printed a).
Definition set_qpairs n a := mkApp (driver a) (g_controllers a) (g_namespaces a) (memory a) (fresh a) (sequence a) n (printed a).
Definition set_printed l a := mkApp (driver a) (g_controllers a) (g_namespaces a) (memory a) (fresh a) (sequence a) (open_qpairs a) l.

(** ** Runs *)
Inductive Outcome (A : Type) :=
| Undefined
| Spins
| Exited (code : Z) (a : App)
| Go (x : A) (a : App).
#[global] Arguments Undefined {A}.
#[global] Arguments Spins {A}.
#[global] Arguments Exited {A} code a.
#[global] Arguments Go {A} x a.

Definition IO (A : Type) : Type := App → Outcome A.
#[export] Instance io_ret : MRet IO := λ A x a, Go x a.
#[export] Instance io_bind : MBind IO := λ A B f p a,
  match p a with
  | Undefined => Undefined
  | Spins => Spins
  | Exited code a => Exited code a
  | Go x a => f x a
  end.

Definition undefined {A} : IO A := λ _, Undefined.
Definition spin {A} : IO A := λ _, Spins.
Definition exit_ {A} (code : Z) : IO A := λ a, Exited code a.
Definition read {A} (f : App → A) : IO A := λ a, Go (f a) a.
Definition update (f : App → App) : IO unit := λ a, Go tt (f a).
(** A call of SPDK. *)
Definition drive {A} (f : D → A * D) : IO A := λ a, let '(x, d) := f (driver a) in Go x (set_driver d a).
Definition drive_ (f : D → D) : IO unit := update (λ a, set_driver (f (driver a)) a).
(** [printf] and [fprintf(stderr)]. *)
Definition print (line : string) : IO unit := update (λ a, set_printed (printed a ++ [line]) a).

(** ** Memory *)
Definition new_buffer (b : Buffer) : IO positive :=
  l ← read fresh;
  update (λ a, set_memory (<[l := b]> (memory a)) (Pos.succ l) a);;
  mret l.

(** [spdk_zmalloc(0x1000, ...)]. *)
Definition spdk_zmalloc : IO (option positive) :=
  done ← drive zmalloc;
  if done : bool then l ← new_buffer (Host ""); mret (Some l) else mret None.

(** [spdk_free]: of a null pointer nothing, of a buffer that was not allocated undefined. *)
Definition spdk_free (b : option positive) : IO unit :=
  match b with
  | None => mret tt
  | Some l =>
      m ← read memory;
      match m !! l with
      | Some (Host _) => update (λ a, set_memory (delete l (memory a)) (fresh a) a)
      | _ => undefined
      end
  end.

(** [spdk_nvme_ctrlr_unmap_cmb]: the buffer [b] that was mapped is gone. *)
Definition spdk_unmap_cmb (c : Ctrlr) (b : option positive) : IO unit :=
  match b with
  | None => undefined
  | Some l =>
      m ← read memory;
      match m !! l with
      | Some (Cmb _) => drive_ (unmap_cmb c);; update (λ a, set_memory (delete l (memory a)) (fresh a) a)
      | _ => undefined
      end
  end.

(** The string at a pointer, and storing one. *)
Definition load_string (b : option positive) : IO string :=
  m ← read memory;
  match b ≫= (m !!.) with
  | Some (Host s) | Some (Cmb s) => mret s
  | None => undefined
  end.
Definition store_string (b : option positive) (s : string) : IO unit :=
  m ← read memory;
  match b, b ≫= (m !!.) with
  | Some l, Some (Host _) => update (λ a, set_memory (<[l := Host s]> (memory a)) (fresh a) a)
  | Some l, Some (Cmb _) => update (λ a, set_memory (<[l := Cmb s]> (memory a)) (fresh a) a)
  | _, _ => undefined
  end.

(** ** Callbacks *)
Definition the_sequence : IO Sequence :=
  s ← read sequence; match s with Some s => mret s | None => undefined end.
Definition set_completed (z : Z) : IO unit :=
  s ← the_sequence;
  update (set_sequence (Some (mkSequence (ns_entry s) (qpair s) (buf s) (using_cmb_io s) z))).
Definition set_buf (b : option positive) (cmb : bool) : IO unit :=
  s ← the_sequence;
  update (set_sequence (Some (mkSequence (ns_entry s) (qpair s) b cmb (is_completed s)))).

(** The common branch of the callbacks: the status is printed, and the program exits. *)
Definition failed_io (completion : Completion) (message : string) : IO unit :=
  print ("I/O error status: " +:+ get_status_string completion);;
  print message;;
  set_completed 2;;
  exit_ 1.

Definition read_complete (completion : Completion) : IO unit :=
  set_completed 1;;
  (if is_error completion then failed_io completion "Read I/O failed, aborting run" else mret tt);;
  s ← the_sequence;
  text ← load_string (buf s);
  if negb (bool_decide (text = DATA_BUFFER_STRING)) then
    print "Read data doesn't match write data";; exit_ 1
  else
    print text;;
    spdk_free (buf s).

Definition write_complete (completion : Completion) : IO unit :=
  (if is_error completion then failed_io completion "Write I/O failed, aborting run" else mret tt);;
  s ← the_sequence;
  (if using_cmb_io s then spdk_unmap_cmb (e_ctrlr (ns_entry s)) (buf s) else spdk_free (buf s));;
  b ← spdk_zmalloc;
  set_buf b (using_cmb_io s);;
  rc ← drive (submit (qpair s) (e_ns (ns_entry s)) (CRead b));
  if negb (rc =? 0)%Z then print "starting read I/O failed";; exit_ 1 else mret tt.

Definition reset_zone_complete (completion : Completion) : IO unit :=
  set_completed 1;;
  if is_error completion then failed_io completion "Reset zone I/O failed, aborting run" else mret tt.

(** The driver stores what it has read, and calls the callback of the command. *)
Definition complete (c : Completion) : IO unit :=
  match command c with
  | CReset => reset_zone_complete c
  | CWrite _ _ => write_complete c
  | CRead b =>
      (if is_error c then mret tt else store_string b (data c));;
      read_complete c
  end.
Fixpoint complete_all (cs : list Completion) : IO unit :=
  match cs with
  | [] => mret tt
  | c :: cs => complete c;; complete_all cs
  end.

(** [while (!is_completed) spdk_nvme_qpair_process_completions(qpair, 0);] *)
Fixpoint wait (rounds : nat) (q : Qpair) : IO unit :=
  s ← the_sequence;
  if negb (is_completed s =? 0)%Z then mret tt else
  match rounds with
  | O => spin
  | S rounds => cs ← drive (process_completions q); complete_all cs;; wait rounds q
  end.

(** ** [hello_world] *)
Context (rounds : nat).

Definition reset_zone_and_wait_for_completion : IO unit :=
  s ← the_sequence;
  rc ← drive (submit (qpair s) (e_ns (ns_entry s)) CReset);
  if negb (rc =? 0)%Z then print "starting reset zone I/O failed";; exit_ 1 else
  wait rounds (qpair s);;
  set_completed 0.

(** The buffer that is written: the controller's if it has one that is large enough; otherwise one
    of the host, and what was mapped is left as it is. *)
Definition write_buffer (c : Ctrlr) : IO (option positive * bool) :=
  sz ← drive (map_cmb c);
  cmb ← (match sz with None => mret None | Some _ => l ← new_buffer (Cmb ""); mret (Some l) end);
  if bool_decide (cmb = None) || (default 0%Z sz <? BUFFER_SIZE)%Z then b ← spdk_zmalloc; mret (b, false)
  else mret (cmb, true).

(** The body of the loop for one namespace; [false] for a [return]. *)
Definition greet (e : NsEntry) : IO bool :=
  q ← drive (alloc_io_qpair (e_ctrlr e));
  match q with
  | None => print "ERROR: spdk_nvme_ctrlr_alloc_io_qpair() failed";; mret false
  | Some q =>
      update (λ a, set_qpairs (S (open_qpairs a)) a);;
      '(b, cmb) ← write_buffer (e_ctrlr e);
      match b with
      | None => print "ERROR: write buffer allocation failed";; mret false
      | Some l =>
          print (if cmb : bool then "INFO: using controller memory buffer for IO"
                 else "INFO: using host memory buffer for IO");;
          update (set_sequence (Some (mkSequence e q b cmb 0)));;
          (if ns_is_zoned (e_ns e) then reset_zone_and_wait_for_completion else mret tt);;
          store_string b DATA_BUFFER_STRING;;
          rc ← drive (submit q (e_ns e) (CWrite l DATA_BUFFER_STRING));
          if negb (rc =? 0)%Z then print "starting write I/O failed";; exit_ 1 else
          wait rounds q;;
          drive_ (free_io_qpair q);;
          update (λ a, set_qpairs (pred (open_qpairs a)) a);;
          mret true
      end
  end.
Fixpoint greet_all (l : list NsEntry) : IO unit :=
  match l with
  | [] => mret tt
  | e :: l => go_on ← greet e; if go_on : bool then greet_all l else mret tt
  end.
Definition hello_world : IO unit := l ← read g_namespaces; greet_all l.

(** ** Attaching *)
Definition register_ns (c : Ctrlr) (ns : Ns) : IO unit :=
  if negb (ns_is_active ns) then mret tt else
  entry ← drive malloc;
  if negb entry then print "ns_entry malloc";; exit_ 1 else
  update (λ a, set_namespaces (g_namespaces a ++ [mkNsEntry c ns]) a);;
  print ("  Namespace ID: " +:+ pretty (ns_get_id ns) +:+ " size: " +:+
         fmt_u (ns_get_size ns / 1000000000) +:+ "GB").

(** [probe_cb] accepts every controller. *)
Definition probe_cb (traddr : string) : IO bool := print ("Attaching to " +:+ traddr);; mret true.

(** [%-20.20s]. *)
Fixpoint fit (n : nat) (s : string) : string :=
  match n, s with
  | O, _ => ""
  | S n, String c s => String c (fit n s)
  | S n, EmptyString => String (Ascii.ascii_of_nat 32) (fit n "")
  end.

Fixpoint register_all_ns (rounds : nat) (c : Ctrlr) (nsid : Z) : IO unit :=
  if (nsid =? 0)%Z then mret tt else
  match rounds with
  | O => spin
  | S rounds =>
      (match get_ns c nsid with None => mret tt | Some ns => register_ns c ns end);;
      register_all_ns rounds c (get_next_active_ns c nsid)
  end.

Definition attach_cb (traddr : string) (c : Ctrlr) : IO unit :=
  entry ← drive malloc;
  if negb entry then print "ctrlr_entry malloc";; exit_ 1 else
  print ("Attached to " +:+ traddr);;
  let '(mn, sn) := model_and_serial c in
  update (λ a, set_controllers
    (g_controllers a ++ [mkCtrlrEntry c (fit 20 mn +:+ " (" +:+ fit 20 sn +:+ ")")]) a);;
  register_all_ns rounds c (get_first_active_ns c).

(** The callbacks of [spdk_nvme_probe]. *)
Fixpoint probed (events : list (string * option Ctrlr)) : IO unit :=
  match events with
  | [] => mret tt
  | (traddr, None) :: events => _ ← probe_cb traddr; probed events
  | (traddr, Some c) :: events => attach_cb traddr c;; probed events
  end.

Fixpoint detach_all (l : list CtrlrEntry) (detach_ctx : bool) : IO bool :=
  match l with
  | [] => mret detach_ctx
  | e :: l =>
      update (λ a, set_controllers (tail (g_controllers a)) a);;
      ctx ← drive (detach_async (c_ctrlr e));
      detach_all l (detach_ctx || ctx)
  end.
Definition cleanup : IO unit :=
  update (set_namespaces []);;
  l ← read g_controllers;
  detach_ctx ← detach_all l false;
  if detach_ctx : bool then drive_ detach_poll else mret tt.

(** ** [main] *)
Record Options := mkOptions {
  g_trid : Trid; g_vmd : bool; shm_id : Z; mem_size : Z; hugepage_single_segments : bool;
}.

Context (program_name : string).
Definition usage : IO unit :=
  print (program_name +:+ " [options]");;
  print "options:";;
  print "[-d DPDK huge memory size in MB]";;
  print "[-g use single file descriptor for DPDK memory segments]";;
  print "[-i shared memory group ID]";;
  print "[-r remote NVMe over Fabrics target address]";;
  print "[-V enumerate VMD]";;
  print "[-L enable debug logging (flag disabled, must reconfigure with --enable-debug)]".
Definition parse_option (c : Ascii.ascii) (optarg : string) (o : Options) : IO (Z + Options) :=
  match c with
  | "V"%char => mret (inr (mkOptions (g_trid o) true (shm_id o) (mem_size o) (hugepage_single_segments o)))
  | "i"%char =>
      let v := spdk_strtol optarg in
      if (v <? 0)%Z then print "Invalid shared memory ID";; mret (inl v)
      else mret (inr (mkOptions (g_trid o) (g_vmd o) v (mem_size o) (hugepage_single_segments o)))
  | "g"%char => mret (inr (mkOptions (g_trid o) (g_vmd o) (shm_id o) (mem_size o) true))
  | "r"%char =>
      match transport_id_parse optarg with
      | None => print "Error parsing transport address";; mret (inl 1%Z)
      | Some t => mret (inr (mkOptions t (g_vmd o) (shm_id o) (mem_size o) (hugepage_single_segments o)))
      end
  | "d"%char =>
      let v := spdk_strtol optarg in
      if (v <? 0)%Z then print "Invalid DPDK memory size";; mret (inl v)
      else mret (inr (mkOptions (g_trid o) (g_vmd o) (shm_id o) v (hugepage_single_segments o)))
  | "L"%char =>
      if (log_set_flag optarg <? 0)%Z then print "unknown flag";; usage;; exit_ 1 else mret (inr o)
  | "h"%char => usage;; exit_ 0
  | _ => usage;; mret (inl 1%Z)
  end.
Fixpoint parse_args (opts : list (Ascii.ascii * string)) (o : Options) : IO (Z + Options) :=
  match opts with
  | [] => mret (inr o)
  | (c, optarg) :: opts =>
      r ← parse_option c optarg o;
      match r with inl rc => mret (inl rc) | inr o => parse_args opts o end
  end.

(** The part of [main] from the enumeration to the label [exit]. *)
Definition run (o : Options) : IO Z :=
  '(rc, events) ← drive (probe (g_trid o));
  probed events;;
  if negb (rc =? 0)%Z then print "spdk_nvme_probe() failed";; mret 1%Z else
  controllers ← read g_controllers;
  if bool_decide (controllers = []) then print "no NVMe controllers found";; mret 1%Z else
  print "Initialization complete.";;
  hello_world;;
  mret 0%Z.

(** [shm], [mem] and [single] are what [spdk_env_opts_init] puts in the options. *)
Definition main (opts : list (Ascii.ascii * string)) (shm mem : Z) (single : bool) : IO Z :=
  r ← parse_args opts (mkOptions pcie_discovery false shm mem single);
  match r with
  | inl rc => mret rc
  | inr o =>
      rc ← drive env_init;
      if (rc <? 0)%Z then print "Unable to initialize SPDK env";; mret 1%Z else
      print "Initializing NVMe Controllers";;
      (if g_vmd o then
         rc ← drive vmd_init;
         if negb (rc =? 0)%Z then print "Failed to initialize VMD. Some NVMe devices can be unavailable."
         else mret tt
       else mret tt);;
      rc ← run o;
      cleanup;;
      (if g_vmd o then drive_ vmd_fini else mret tt);;
      drive_ env_fini;;
      mret rc
  end.
(** [static] state, before [main]. *)
Definition app_of (d : D) : App := mkApp d [] [] ∅ 1 None 0 [].
End program.
#[global] Arguments App : clear implicits.
#[global] Arguments Sequence : clear implicits.
#[global] Arguments NsEntry : clear implicits.
#[global] Arguments CtrlrEntry : clear implicits.

(** ** Lemmas *)
Section lemmas.
Context {Trid Ctrlr Ns Qpair D : Type} `{!SpdkOps Trid Ctrlr Ns Qpair D}.
Abbreviation App := (App Ctrlr Ns Qpair D).
Abbreviation IO := (IO (Ctrlr := Ctrlr) (Ns := Ns) (Qpair := Qpair) (D := D)).

(** A run that returns. *)
Definition returns {A} (p : IO A) (a : App) (Q : A → App → Prop) : Prop :=
  match p a with Go x a' => Q x a' | _ => False end.

Lemma returns_ret {A} (x : A) a Q : Q x a → returns (mret x) a Q.
Proof. done. Qed.
Lemma returns_bind {A B} (p : IO A) (f : A → IO B) a Q :
  returns p a (λ x a', returns (f x) a' Q) → returns (p ≫= f) a Q.
Proof. unfold returns, mbind, io_bind. by destruct (p a). Qed.
Lemma returns_mono {A} (p : IO A) a (P Q : A → App → Prop) :
  returns p a P → (∀ x a', P x a' → Q x a') → returns p a Q.
Proof. unfold returns. destruct (p a); auto. Qed.
Lemma returns_step {A B} (p : IO A) (f : A → IO B) a x a' Q :
  p a = Go x a' → returns (f x) a' Q → returns (p ≫= f) a Q.
Proof. intros E Hf. apply returns_bind. unfold returns at 1. by rewrite E. Qed.
Lemma returns_elim {A} (p : IO A) a Q : returns p a Q → ∃ x a', p a = Go x a' ∧ Q x a'.
Proof. unfold returns. destruct (p a); by eauto. Qed.

Lemma io_step {A B} (p : IO A) (f : A → IO B) a x a' : p a = Go x a' → (p ≫= f) a = f x a'.
Proof. unfold mbind, io_bind. by intros ->. Qed.

(** Accesses to memory. *)
Definition content (b : Buffer) (s : string) : Buffer := match b with Host _ => Host s | Cmb _ => Cmb s end.
Definition text (b : Buffer) : string := match b with Host s | Cmb s => s end.
Lemma load_eq l b (a : App) : memory a !! l = Some b → load_string (Some l) a = Go (text b) a.
Proof. intros Hl. unfold load_string, mbind, io_bind, option_bind. cbn. rewrite Hl. by destruct b. Qed.
Lemma store_eq l b s (a : App) m :
  memory a = m → m !! l = Some b →
  store_string (Some l) s a = Go tt (set_memory (<[l := content b s]> m) (fresh a) a).
Proof. intros <- Hl. unfold store_string, mbind, io_bind, option_bind. cbn. rewrite Hl. by destruct b. Qed.
Lemma free_eq l s (a : App) :
  memory a !! l = Some (Host s) → spdk_free (Some l) a = Go tt (set_memory (delete l (memory a)) (fresh a) a).
Proof. intros Hl. unfold spdk_free, mbind, io_bind. cbn. by rewrite Hl. Qed.
Lemma unmap_eq c l s (a : App) :
  memory a !! l = Some (Cmb s) →
  spdk_unmap_cmb c (Some l) a =
  Go tt (set_memory (delete l (memory a)) (fresh a) (set_driver (unmap_cmb c (driver a)) a)).
Proof. intros Hl. unfold spdk_unmap_cmb, mbind, io_bind. cbn. by rewrite Hl. Qed.

Lemma drive_eq {A} (f : D → A * D) (a : App) x d :
  f (driver a) = (x, d) → drive f a = Go x (set_driver d a).
Proof. unfold drive. by intros ->. Qed.
End lemmas.

Section working.
Context {Trid Ctrlr Ns Qpair D : Type} `{!SpdkOps Trid Ctrlr Ns Qpair D} `{!SpdkLaws Trid Ctrlr Ns Qpair D}.
Abbreviation App := (App Ctrlr Ns Qpair D).
Abbreviation IO := (IO (Ctrlr := Ctrlr) (Ns := Ns) (Qpair := Qpair) (D := D)).
Implicit Types (a : App) (q : Qpair) (e : NsEntry Ctrlr Ns).

(** The state of a run between two calls of the driver, when the sequence is for [e] on [q]. *)
Definition at_ (d : D) gc gn m f e q b cmb z (n : nat) pr : App :=
  mkApp d gc gn m f (Some (mkSequence e q b cmb z)) n pr.

Lemma drive_at {A} (g : D → A * D) d gc gn m f e q b cmb z n pr x d' :
  g d = (x, d') → drive g (at_ d gc gn m f e q b cmb z n pr) = Go x (at_ d' gc gn m f e q b cmb z n pr).
Proof. apply (drive_eq g (at_ d gc gn m f e q b cmb z n pr)). Qed.
Lemma store_at l x s d gc gn m f e q b cmb z n pr :
  m !! l = Some x →
  store_string (Some l) s (at_ d gc gn m f e q b cmb z n pr) =
  Go tt (at_ d gc gn (<[l := content x s]> m) f e q b cmb z n pr).
Proof. by apply (store_eq l x s (at_ d gc gn m f e q b cmb z n pr)). Qed.

(** Polling: rounds without a completion do nothing, then the callback of the command runs. [K] is
    what is known of the first block while the command is under way. *)
Lemma wait_polls (K : string → Prop) rounds n d gc gn m f e q b cmb k pr c Q :
  busy d q (e_ns e) c k → k < rounds → (∀ s, K s → holds d (e_ns e) s) →
  (∀ rounds' d' x, rounds - k - 1 <= rounds' → idle d' →
     match c with
     | CReset => True
     | CWrite _ s => holds d' (e_ns e) s
     | CRead _ => ∀ s, K s → x = s
     end →
     returns (complete (mkCompletion c false x);; wait rounds' q) (at_ d' gc gn m f e q b cmb 0 n pr) Q) →
  returns (wait rounds q) (at_ d gc gn m f e q b cmb 0 n pr) Q.
Proof.
  intros Hb Hk HK Hc. revert d k Hb Hk HK Hc.
  induction rounds as [|rounds IH]; intros d k Hb Hk HK Hc; [lia|]. cbn [wait].
  eapply returns_step; [reflexivity|]. cbn [is_completed at_ negb Z.eqb].
  destruct (poll_ok _ _ _ _ _ Hb) as [(d' & k' & E & Hlt & Hb' & Hh)|(x & d' & E & Hi & Hx)].
  - eapply returns_step; [by apply drive_eq|]. cbn [complete_all]. eapply returns_step; [reflexivity|].
    apply (IH d' k'); [done|lia|auto|].
    intros rounds' d1 x Hr Hi Hx. apply Hc; [lia|done|done].
  - eapply returns_step; [by apply drive_eq|]. cbn [complete_all].
    assert (Hret : returns (complete (mkCompletion c false x);; wait rounds q)
                     (at_ d' gc gn m f e q b cmb 0 n pr) Q).
    { apply Hc; [lia|done|]. destruct c; [done|done|]. auto. }
    unfold returns, mbind, io_bind, mret, io_ret in *. cbn in *.
    destruct (complete _ _); done.
Qed.

Lemma wait_done rounds a d gc gn m f e q b cmb n pr Q :
  a = at_ d gc gn m f e q b cmb 1 n pr → Q tt a → returns (wait rounds q) a Q.
Proof. intros -> HQ. by destruct rounds. Qed.

Lemma wait_reset rounds n d gc gn m f e q b cmb k pr :
  busy d q (e_ns e) CReset k → k < rounds →
  returns (wait rounds q) (at_ d gc gn m f e q b cmb 0 n pr)
    (λ _ a', ∃ d', a' = at_ d' gc gn m f e q b cmb 1 n pr ∧ idle d').
Proof.
  intros Hb Hk. eapply (wait_polls (λ _, False)); [done|done|done|]. intros rounds' d' x _ Hi _.
  eapply returns_step; [reflexivity|]. eapply wait_done; [reflexivity|]. by eexists.
Qed.

Lemma complete_read b x :
  complete (Ns := Ns) (mkCompletion (CRead b) false x) = (store_string b x;; read_complete (mkCompletion (CRead b) false x)).
Proof. reflexivity. Qed.

Lemma read_complete_eq c d gc gn m f e q l cmb z n pr :
  is_error c = false → m !! l = Some (Host DATA_BUFFER_STRING) →
  read_complete c (at_ d gc gn m f e q (Some l) cmb z n pr) =
  Go tt (at_ d gc gn (delete l m) f e q (Some l) cmb 1 n (pr ++ [DATA_BUFFER_STRING])).
Proof.
  intros He Hl. unfold read_complete. rewrite He.
  rewrite (io_step _ _ _ tt (at_ d gc gn m f e q (Some l) cmb 1 n pr)) by reflexivity.
  rewrite (io_step _ _ _ tt (at_ d gc gn m f e q (Some l) cmb 1 n pr)) by reflexivity.
  rewrite (io_step _ _ _ (mkSequence e q (Some l) cmb 1) (at_ d gc gn m f e q (Some l) cmb 1 n pr)) by reflexivity.
  cbn [buf]. erewrite io_step by (by apply (load_eq l (Host DATA_BUFFER_STRING))). cbn [text].
  rewrite bool_decide_eq_true_2 by done. cbn [negb]. erewrite io_step by reflexivity.
  by erewrite free_eq.
Qed.

Lemma wait_read rounds n d gc gn m f e q l cmb k pr s :
  busy d q (e_ns e) (CRead (Some l)) k → k < rounds → holds d (e_ns e) DATA_BUFFER_STRING →
  m !! l = Some (Host s) →
  returns (wait rounds q) (at_ d gc gn m f e q (Some l) cmb 0 n pr)
    (λ _ a', ∃ d', a' = at_ d' gc gn (delete l m) f e q (Some l) cmb 1 n (pr ++ [DATA_BUFFER_STRING]) ∧ idle d').
Proof.
  intros Hb Hk Hd Hl. eapply (wait_polls (λ s, s = DATA_BUFFER_STRING)); [done|done|by intros ? ->|].
  intros rounds' d' x _ Hi Hx. rewrite (Hx DATA_BUFFER_STRING eq_refl).
  eapply returns_step.
  { rewrite complete_read. erewrite io_step by (by apply (store_eq l (Host s) _ _ m)).
    apply read_complete_eq; [done|apply lookup_insert_eq]. }
  eapply wait_done; [reflexivity|]. exists d'. split; [|done].
  unfold at_, set_memory, set_printed. cbn. by rewrite delete_insert_eq.
Qed.

(** The buffer of a write. *)
Definition wbuffer (cmb : bool) (s : string) : Buffer := if cmb then Cmb s else Host s.

Lemma release_write_eq d gc gn m f e q l (cmb : bool) n pr s :
  idle d → m !! l = Some (wbuffer cmb s) →
  ∃ d', (if cmb then spdk_unmap_cmb (e_ctrlr e) (Some l) else spdk_free (Some l))
          (at_ d gc gn m f e q (Some l) cmb 0 n pr) =
        Go tt (at_ d' gc gn (delete l m) f e q (Some l) cmb 0 n pr) ∧
        idle d' ∧ (∀ ns s, holds d ns s → holds d' ns s).
Proof.
  intros Hi Hl. destruct cmb.
  - exists (unmap_cmb (e_ctrlr e) d). split; [by erewrite unmap_eq|]. by apply unmap_cmb_ok.
  - exists d. split; [|done]. by erewrite free_eq.
Qed.

(** A write that completes: its buffer is gone and a read is under way. *)
Lemma write_complete_ok c d gc gn m f e q l cmb n pr s :
  is_error c = false → idle d → holds d (e_ns e) DATA_BUFFER_STRING → m !! l = Some (wbuffer cmb s) →
  ∃ d' k, write_complete c (at_ d gc gn m f e q (Some l) cmb 0 n pr) =
    Go tt (at_ d' gc gn (<[f := Host ""]> (delete l m)) (Pos.succ f) e q (Some f) cmb 0 n pr) ∧
    busy d' q (e_ns e) (CRead (Some f)) k ∧ k <= patience ∧ holds d' (e_ns e) DATA_BUFFER_STRING.
Proof.
  intros He Hi Hd Hl.
  destruct (release_write_eq d gc gn m f e q l cmb n pr s Hi Hl) as (d1 & E1 & Hi1 & Hh1).
  destruct (zmalloc_ok d1 Hi1) as (d2 & E2 & Hi2 & Hh2).
  destruct (submit_ok q (e_ns e) (CRead (Some f)) d2 Hi2 ltac:(done)) as (d3 & k & E3 & Hb & Hk & Hh3).
  exists d3, k. split_and!; [|done|done|by auto]. unfold write_complete. rewrite He.
  erewrite io_step by reflexivity. erewrite io_step by reflexivity. cbn [using_cmb_io ns_entry buf].
  erewrite io_step by exact E1. unfold spdk_zmalloc.
  erewrite io_step.
  2:{ erewrite io_step by (apply drive_eq; exact E2). cbn beta iota. erewrite io_step by reflexivity. reflexivity. }
  erewrite io_step by reflexivity. erewrite io_step by (apply drive_eq; exact E3). reflexivity.
Qed.

Lemma wait_write rounds n d gc gn m f e q l cmb k pr s :
  busy d q (e_ns e) (CWrite l DATA_BUFFER_STRING) k → k + patience + 2 <= rounds →
  m !! l = Some (wbuffer cmb s) → m !! f = None →
  returns (wait rounds q) (at_ d gc gn m f e q (Some l) cmb 0 n pr)
    (λ _ a', ∃ d', a' = at_ d' gc gn (delete l m) (Pos.succ f) e q (Some f) cmb 1 n
                          (pr ++ [DATA_BUFFER_STRING]) ∧ idle d').
Proof.
  intros Hb Hk Hl Hf. eapply (wait_polls (λ _, False)); [done|lia|done|].
  intros rounds' d1 x Hr Hi Hd.
  destruct (write_complete_ok (mkCompletion (CWrite l DATA_BUFFER_STRING) false x) d1 gc gn m f e q l cmb n pr s eq_refl Hi Hd Hl) as (d2 & k2 & E & Hb2 & Hk2 & Hd2).
  eapply returns_step; [exact E|].
  eapply returns_mono; [eapply wait_read; [done|lia|done|by apply lookup_insert_eq]|].
  intros _ a' (d' & -> & Hi'). exists d'. split; [|done]. f_equal.
  rewrite delete_insert_id; [done|]. rewrite lookup_delete_ne; [done|]. intros ->. congruence.
Qed.

Lemma write_buffer_ok c d gc gn m f sq n pr :
  idle d →
  ∃ d' cmb, write_buffer c (mkApp d gc gn m f sq n pr) =
    Go (Some f, cmb) (mkApp d' gc gn (<[f := wbuffer cmb ""]> m) (Pos.succ f) sq n pr) ∧ idle d'.
Proof.
  intros Hi. destruct (map_cmb_ok c d Hi) as ([z|] & d1 & E1 & Hi1 & Hz).
  - exists d1, true. split; [|done]. unfold write_buffer. erewrite io_step by (apply drive_eq; exact E1).
    erewrite io_step by reflexivity. specialize (Hz z eq_refl).
    destruct (Z.ltb_spec (default 0%Z (Some z)) BUFFER_SIZE) as [Hlt|_]; [|done].
    unfold BUFFER_SIZE in Hlt. cbn in Hlt. lia.
  - destruct (zmalloc_ok d1 Hi1) as (d2 & E2 & Hi2 & _). exists d2, false. split; [|done].
    unfold write_buffer. erewrite io_step by (apply drive_eq; exact E1). erewrite io_step by reflexivity.
    cbn. unfold spdk_zmalloc. erewrite io_step; [reflexivity|].
    erewrite io_step by (apply drive_eq; exact E2). reflexivity.
Qed.

Lemma reset_ok rounds d gc gn m f e q b cmb n pr :
  idle d → patience < rounds →
  returns (reset_zone_and_wait_for_completion rounds) (at_ d gc gn m f e q b cmb 0 n pr)
    (λ _ a', ∃ d', a' = at_ d' gc gn m f e q b cmb 0 n pr ∧ idle d').
Proof.
  intros Hi Hr. destruct (submit_ok q (e_ns e) CReset d Hi ltac:(done)) as (d1 & k & E1 & Hb & Hk & _).
  unfold reset_zone_and_wait_for_completion. eapply returns_step; [reflexivity|].
  eapply returns_step; [by apply drive_eq|]. apply returns_bind.
  eapply returns_mono; [eapply wait_reset; [exact Hb|lia]|].
  intros _ a' (d' & -> & Hi'). by eexists.
Qed.

(** What is printed for a namespace. *)
Definition greeting (cmb : bool) : list string :=
  [(if cmb then "INFO: using controller memory buffer for IO" else "INFO: using host memory buffer for IO");
   DATA_BUFFER_STRING].

Lemma greet_ok rounds e d gc gn f sq n pr :
  idle d → 2 * patience + 2 <= rounds →
  returns (greet rounds e) (mkApp d gc gn ∅ f sq n pr)
    (λ go_on a', go_on = true ∧ ∃ d' f' sq' cmb,
      a' = mkApp d' gc gn ∅ f' sq' n (pr ++ greeting cmb) ∧ idle d').
Proof.
  intros Hi Hr. destruct (alloc_io_qpair_ok (e_ctrlr e) d Hi) as (q & d1 & E1 & Hi1). unfold greet.
  eapply returns_step; [by apply drive_eq|]. cbn beta iota. eapply returns_step; [reflexivity|].
  destruct (write_buffer_ok (e_ctrlr e) d1 gc gn ∅ f sq (S n) pr Hi1) as (d2 & cmb & E2 & Hi2).
  eapply returns_step; [exact E2|]. cbn beta iota.
  eapply returns_step; [reflexivity|]. eapply returns_step; [reflexivity|]. apply returns_bind.
  apply (returns_mono _ _ (λ _ a', ∃ d3, a' = at_ d3 gc gn (<[f := wbuffer cmb ""]> ∅) (Pos.succ f) e q
    (Some f) cmb 0 (S n) (pr ++ [if cmb then "INFO: using controller memory buffer for IO"
                                   else "INFO: using host memory buffer for IO"]) ∧ idle d3)).
  { destruct (ns_is_zoned (e_ns e)); [by apply reset_ok; [|lia]|]. by eexists. }
  intros _ a' (d3 & -> & Hi3).
  eapply returns_step; [apply store_at, lookup_insert_eq|]. rewrite insert_insert_eq.
  replace (content (wbuffer cmb "") DATA_BUFFER_STRING) with (wbuffer cmb DATA_BUFFER_STRING) by (by destruct cmb).
  destruct (submit_ok q (e_ns e) (CWrite f DATA_BUFFER_STRING) d3 Hi3 ltac:(done)) as (d4 & k & E4 & Hb & Hk & _).
  eapply returns_step; [by apply drive_at|]. cbn [negb Z.eqb]. apply returns_bind.
  eapply returns_mono; [eapply wait_write; [exact Hb|lia|apply lookup_insert_eq|]|].
  { rewrite lookup_insert_ne by lia. apply lookup_empty. }
  intros _ a' (d5 & -> & Hi5). do 2 (eapply returns_step; [reflexivity|]).
  split; [done|]. eexists _, _, _, cmb. split; [|by apply free_io_qpair_ok].
  unfold at_, set_qpairs, set_driver. cbn. rewrite delete_insert_eq, delete_empty.
  by rewrite <- app_assoc.
Qed.

Lemma greet_all_ok rounds l d gc gn f sq n pr :
  idle d → 2 * patience + 2 <= rounds →
  returns (greet_all rounds l) (mkApp d gc gn ∅ f sq n pr)
    (λ _ a', ∃ d' f' sq' cmbs,
      a' = mkApp d' gc gn ∅ f' sq' n (pr ++ concat (greeting <$> cmbs)) ∧ idle d' ∧ length cmbs = length l).
Proof.
  intros Hi Hr. revert d f sq pr Hi. induction l as [|e l IH]; intros d f sq pr Hi; cbn [greet_all].
  { apply returns_ret. exists d, f, sq, []. by rewrite app_nil_r. }
  apply returns_bind. eapply returns_mono; [by apply greet_ok|].
  intros _ a' (-> & d1 & f1 & sq1 & cmb & -> & Hi1). cbn beta iota.
  eapply returns_mono; [by apply IH|]. intros _ a' (d2 & f2 & sq2 & cmbs & -> & Hi2 & Hl).
  exists d2, f2, sq2, (cmb :: cmbs). split_and!; [|done|cbn; by rewrite Hl]. cbn. by rewrite <- app_assoc.
Qed.

(** How often the text was printed. *)
Definition hellos (l : list string) : nat := length (filter (λ s, s = DATA_BUFFER_STRING) l).
Lemma hellos_app l l' : hellos (l ++ l') = hellos l + hellos l'.
Proof. unfold hellos. by rewrite filter_app, length_app. Qed.
Lemma hellos_greetings cmbs : hellos (concat (greeting <$> cmbs)) = length cmbs.
Proof. induction cmbs as [|[] cmbs IH]; [done|..]; cbn [fmap list_fmap concat]; by rewrite hellos_app, IH. Qed.

(** Printing something else. *)
Lemma hellos_other l x : x ≠ DATA_BUFFER_STRING → hellos (l ++ [x]) = hellos l.
Proof.
  intros Hx. rewrite hellos_app. unfold hellos at 2. rewrite filter_cons_False by done. cbn. lia.
Qed.

(** The namespaces of a controller that are used, and those of all controllers that were attached. *)
Definition namespaces_of (c : Ctrlr) : list (NsEntry Ctrlr Ns) :=
  mkNsEntry c <$> filter (λ ns, ns_is_active ns = true) (omap (get_ns c) (active_ns c)).
Definition attached (events : list (string * option Ctrlr)) : list Ctrlr := omap snd events.
Definition namespaces (events : list (string * option Ctrlr)) : list (NsEntry Ctrlr Ns) :=
  concat (namespaces_of <$> attached events).

(** While controllers are attached: the lists grow, nothing is greeted yet. *)
Definition attaching (d : D) gc gn pr : App := mkApp d gc gn ∅ 1 None 0 pr.

Lemma register_all_ok rounds c ids nsid d gc gn pr :
  chain (get_next_active_ns c) nsid ids → length ids <= rounds → idle d →
  returns (register_all_ns rounds c nsid) (attaching d gc gn pr)
    (λ _ a', ∃ d' pr', a' = attaching d' gc
       (gn ++ (mkNsEntry c <$> filter (λ ns, ns_is_active ns = true) (omap (get_ns c) ids))) pr' ∧
       idle d' ∧ hellos pr' = hellos pr).
Proof.
  revert rounds nsid d gn pr; induction ids as [|i ids IH]; intros rounds nsid d gn pr; cbn [chain].
  { intros -> _ Hi. destruct rounds; cbn; exists d, pr; by rewrite app_nil_r. }
  intros (-> & Hne & Hc) Hl Hi. cbn [length] in Hl. destruct rounds as [|rounds]; [lia|].
  cbn [register_all_ns]. rewrite (proj2 (Z.eqb_neq i 0) Hne). apply returns_bind. cbn [omap list_omap].
  apply (returns_mono _ _ (λ _ a', ∃ d' pr', a' = attaching d' gc
    (gn ++ (mkNsEntry c <$> filter (λ ns, ns_is_active ns = true) (from_option (λ ns, [ns]) [] (get_ns c i)))) pr' ∧
    idle d' ∧ hellos pr' = hellos pr)).
  - destruct (get_ns c i) as [ns|]; cbn [from_option].
    2:{ apply returns_ret. exists d, pr. by rewrite app_nil_r. }
    unfold register_ns. destruct (ns_is_active ns) eqn:Ea; cbn [negb].
    2:{ apply returns_ret. exists d, pr. rewrite filter_cons_False by (by rewrite Ea). by rewrite app_nil_r. }
    destruct (malloc_ok d Hi) as (d1 & E1 & Hi1).
    eapply returns_step; [by apply drive_eq|]. cbn [negb]. eapply returns_step; [reflexivity|].
    rewrite filter_cons_True by done. exists d1. eexists. split; [reflexivity|]. split; [done|]. by apply hellos_other.
  - intros _ a' (d1 & pr1 & -> & Hi1 & Hp1). eapply returns_mono; [by apply IH; [|lia|]|].
    intros _ a' (d2 & pr2 & -> & Hi2 & Hp2). exists d2, pr2. split_and!; [|done|congruence].
    rewrite <- app_assoc. do 2 f_equal. destruct (get_ns c i) as [ns|]; [|done]. cbn [from_option].
    rewrite <- fmap_app, <- filter_app. done.
Qed.

Lemma probed_ok rounds events d gc gn pr :
  (∀ c, length (active_ns c) <= rounds) → idle d →
  returns (probed rounds events) (attaching d gc gn pr)
    (λ _ a', ∃ d' gc' pr', a' = attaching d' gc' (gn ++ namespaces events) pr' ∧ idle d' ∧
       c_ctrlr <$> gc' = (c_ctrlr <$> gc) ++ attached events ∧ hellos pr' = hellos pr).
Proof.
  intros Hr. revert d gc gn pr; induction events as [|[traddr [c|]] events IH]; intros d gc gn pr Hi; cbn [probed].
  - apply returns_ret. exists d, gc, pr. split_and!; [|done| |done].
    + unfold namespaces. cbn. by rewrite app_nil_r.
    + cbn. by rewrite app_nil_r.
  - apply returns_bind. unfold attach_cb. destruct (malloc_ok d Hi) as (d1 & E1 & Hi1).
    eapply returns_step; [by apply drive_eq|]. cbn [negb]. eapply returns_step; [reflexivity|].
    destruct (model_and_serial c) as [mn sn]. eapply returns_step; [reflexivity|].
    eapply returns_mono; [apply register_all_ok; [apply active_chain|apply Hr|exact Hi1]|].
    cbv beta. intros _ a' (d2 & pr2 & -> & Hi2 & Hp2). cbn [printed set_printed] in Hp2. rewrite hellos_other in Hp2 by done.
    eapply returns_mono; [by apply IH|]. cbv beta. intros _ a' (d3 & gc3 & pr3 & -> & Hi3 & Hc3 & Hp3).
    exists d3, gc3, pr3. split_and!; [|done| |by rewrite Hp3].
    + f_equal. unfold namespaces. cbn. by rewrite <- app_assoc.
    + rewrite Hc3, fmap_app, <- app_assoc. done.
  - eapply returns_step; [reflexivity|].
    eapply returns_mono; [by apply IH|]. cbv beta. intros _ a' (d3 & gc3 & pr3 & -> & Hi3 & Hc3 & Hp3).
    exists d3, gc3, pr3. split_and!; [done|done|done|]. by rewrite Hp3, hellos_other.
Qed.

(** Detaching empties the list of controllers and touches nothing else of the program. *)
Lemma detach_all_ok l ctx a :
  g_controllers a = l →
  returns (detach_all l ctx) a (λ _ a', ∃ d', a' = set_driver d' (set_controllers [] a)).
Proof.
  revert ctx a; induction l as [|e l IH]; intros ctx a Hl; cbn [detach_all].
  { apply returns_ret. exists (driver a). destruct a; cbn in *. by subst. }
  eapply returns_step; [reflexivity|].
  destruct (detach_async (c_ctrlr e) (driver a)) as [x d1] eqn:E1.
  eapply returns_step; [by apply drive_eq|].
  eapply returns_mono; [apply IH; cbn; by rewrite Hl|]. intros _ a' [d2 ->]. by exists d2.
Qed.
Lemma cleanup_ok a :
  returns cleanup a (λ _ a', ∃ d', a' = set_driver d' (set_controllers [] (set_namespaces [] a))).
Proof.
  unfold cleanup. eapply returns_step; [reflexivity|]. eapply returns_step; [reflexivity|].
  apply returns_bind. eapply returns_mono; [by apply detach_all_ok|].
  intros [] a' [d1 ->]; [|by exists d1]. eexists. reflexivity.
Qed.

(** From the enumeration on: every active namespace is greeted once. *)
Lemma run_ok rounds o d pr :
  idle d → 2 * patience + 2 <= rounds → (∀ c, length (active_ns c) <= rounds) →
  ∃ events, fst (probe (g_trid o) d) = (0%Z, events) ∧
  returns (run rounds o) (attaching d [] [] pr)
    (λ rc a', rc = (if decide (attached events = []) then 1 else 0)%Z ∧
       hellos (printed a') = hellos pr + length (namespaces events) ∧ memory a' = ∅ ∧ open_qpairs a' = 0).
Proof.
  intros Hi Hr Hns. destruct (probe_ok (g_trid o) d Hi) as (events & d1 & E1 & Hi1).
  exists events. split; [by rewrite E1|]. unfold run. eapply returns_step; [by apply drive_eq|]. cbn beta iota.
  apply returns_bind. eapply returns_mono; [by apply (probed_ok rounds events d1 [] [] pr)|].
  cbv beta. intros _ a' (d2 & gc & pr2 & -> & Hi2 & Hc & Hp). cbn [negb Z.eqb app] in *.
  eapply returns_step; [reflexivity|]. cbn [fmap list_fmap app] in Hc. cbn [g_controllers attaching].
  destruct (decide (attached events = [])) as [Hn|Hn].
  - rewrite Hn in Hc. destruct gc; [|done]. eapply returns_step; [reflexivity|].
    apply returns_ret. split_and!; [done| |done|done].
    unfold namespaces. rewrite Hn. cbn [printed set_printed attaching]. rewrite hellos_other by done. cbn. lia.
  - rewrite bool_decide_eq_false_2 by (intros ->; cbn in Hc; congruence).
    eapply returns_step; [reflexivity|]. apply returns_bind. unfold hello_world.
    eapply returns_step; [reflexivity|]. cbn [g_namespaces set_printed attaching printed].
    eapply returns_mono; [by apply greet_all_ok|].
    intros _ a' (d3 & f3 & sq3 & cmbs & -> & Hi3 & Hl). apply returns_ret. split_and!; [done| |done|done].
    cbn [printed]. rewrite hellos_app, hellos_greetings, hellos_other, Hl by done. lia.
Qed.

(** Options that are accepted change nothing but the options. *)
Lemma parse_args_quiet name opts (o o' : Options) a a' :
  parse_args (Ns := Ns) name opts o a = Go (inr o') a' → a' = a.
Proof.
  revert o a; induction opts as [|[c optarg] opts IH]; intros o a; cbn [parse_args]; [by intros [= _ ->]|].
  unfold mbind, io_bind. destruct (parse_option name c optarg o a) as [| | |[rc|o1] a1] eqn:E; [done..| |].
  { unfold mret, io_ret. congruence. }
  intros ->%IH. clear IH. unfold parse_option, mret, io_ret, mbind, io_bind, usage, exit_ in E. cbn in E.
  repeat (case_match; try done); by simplify_eq.
Qed.

Lemma vmd_ok (vmd : bool) (d : D) gc gn pr :
  idle d →
  returns (if vmd then
      rc ← drive vmd_init;
      if negb (rc =? 0)%Z then print "Failed to initialize VMD. Some NVMe devices can be unavailable."
      else mret tt
    else mret tt) (attaching d gc gn pr)
    (λ _ a', ∃ d' pr', a' = attaching d' gc gn pr' ∧ idle d' ∧ hellos pr' = hellos pr).
Proof.
  intros Hi. destruct vmd; [|by eexists _, _].
  destruct (vmd_init_ok d Hi) as (rc & d1 & E1 & Hi1). eapply returns_step; [by apply drive_eq|].
  destruct (rc =? 0)%Z; cbn [negb]; [by eexists _, _|]. eexists d1, _. split; [reflexivity|]. split; [done|].
  by apply hellos_other.
Qed.

(** With a driver that works, and options that are accepted, the program ends: it greets every
    active namespace of every controller that was attached once, gives back every buffer, mapping
    and queue pair, forgets its controllers and returns 0, or 1 when there was no controller. *)
Theorem main_greets rounds name opts shm mem single d o a1 :
  parse_args name opts (mkOptions pcie_discovery false shm mem single) (app_of d) = Go (inr o) a1 →
  2 * patience + 2 <= rounds → (∀ c, length (active_ns c) <= rounds) →
  ∃ d1 events, fst (probe (g_trid o) d1) = (0%Z, events) ∧
  returns (main rounds name opts shm mem single) (app_of d)
    (λ rc a', rc = (if decide (attached events = []) then 1 else 0)%Z ∧
       hellos (printed a') = length (namespaces events) ∧
       memory a' = ∅ ∧ open_qpairs a' = 0 ∧ g_controllers a' = [] ∧ g_namespaces a' = []).
Proof.
  intros Hp Hr Hns. pose proof (parse_args_quiet _ _ _ _ _ _ Hp) as ->. unfold main.
  destruct (env_init_ok d) as (d1 & E1 & Hi1).
  set (pr := ["Initializing NVMe Controllers"]).
  destruct (returns_elim _ _ _ (vmd_ok (g_vmd o) d1 [] [] pr Hi1)) as ([] & a2 & E2 & d2 & pr2 & -> & Hi2 & Hh).
  destruct (run_ok rounds o d2 pr2 Hi2 Hr Hns) as (events & Hev & Hrun).
  exists d2, events. split; [done|].
  eapply returns_step; [exact Hp|]. cbn beta iota. eapply returns_step; [by apply drive_eq|]. cbn [Z.ltb Z.compare].
  eapply returns_step; [reflexivity|]. eapply returns_step; [exact E2|].
  apply returns_bind. eapply returns_mono; [exact Hrun|]. clear Hrun. cbv beta.
  intros rc a' (-> & Hprint & Hm & Hq). apply returns_bind. eapply returns_mono; [apply cleanup_ok|].
  intros _ a2 [d3 ->]. apply returns_bind.
  apply (returns_mono _ _ (λ _ a2, ∃ d4, a2 = set_driver d4 (set_controllers [] (set_namespaces [] a')))).
  { destruct (g_vmd o); [by eexists|]. by exists d3. }
  intros _ a2 [d4 ->]. eapply returns_step; [reflexivity|]. apply returns_ret.
  split_and!; try done. change (hellos (printed a') = length (namespaces events)). by rewrite Hprint, Hh.
Qed.
End working.

(** ** What goes wrong *)
Section errors.
Context {Trid Ctrlr Ns Qpair D : Type} `{!SpdkOps Trid Ctrlr Ns Qpair D}.
Implicit Types (a : App Ctrlr Ns Qpair D) (q : Qpair).

(** A command that completes with an error ends the process with 1 at once: the buffer, the queue
    pair and the controllers stay as they are, without [cleanup]. *)
Theorem io_error_exits c s a :
  sequence a = Some s → is_error c = true →
  ∃ a', complete c a = Exited 1 a' ∧ memory a' = memory a ∧ open_qpairs a' = open_qpairs a ∧
    g_controllers a' = g_controllers a.
Proof.
  intros Hs He. destruct c as [[|l x|b] e x']; cbn in He; subst e.
  all: unfold complete, reset_zone_complete, write_complete, read_complete, failed_io, set_completed, the_sequence,
    mbind, io_bind, mret, io_ret, read, update, print, exit_; cbn; rewrite Hs; cbn; by eexists.
Qed.

(** A queue pair that cannot be allocated stops [hello_world] at that namespace and at all that
    follow, and [main] returns 0 all the same. *)
Theorem qpair_failure_unreported rounds o a events d1 a2 d2 e l :
  probe (g_trid o) (driver a) = ((0%Z, events), d1) →
  probed rounds events (set_driver d1 a) = Go tt a2 →
  g_controllers a2 ≠ [] → g_namespaces a2 = e :: l →
  alloc_io_qpair (e_ctrlr e) (driver a2) = (None, d2) →
  ∃ a', run rounds o a = Go 0%Z a' ∧
    printed a' = printed a2 ++ ["Initialization complete."; "ERROR: spdk_nvme_ctrlr_alloc_io_qpair() failed"].
Proof.
  intros E1 E2 Hc Hn E3. eexists. split.
  - unfold run. erewrite io_step by (apply drive_eq; exact E1). cbn beta iota.
    erewrite io_step by exact E2. cbn [negb Z.eqb]. erewrite io_step by reflexivity.
    rewrite bool_decide_eq_false_2 by done. erewrite io_step by reflexivity. erewrite io_step; [reflexivity|].
    unfold hello_world. erewrite io_step by reflexivity. cbn [g_namespaces set_printed]. rewrite Hn. cbn [greet_all].
    erewrite io_step.
    2:{ unfold greet. erewrite io_step by (apply drive_eq; exact E3). reflexivity. }
    reflexivity.
  - cbn. by rewrite <- app_assoc.
Qed.

(** The buffer for the read is not checked: when it cannot be allocated the null pointer is passed
    to the driver, and a driver that completes the read runs the program into it. *)
Theorem null_read_buffer c d d1 d2 q e l (s : string) gc gn m f n pr (x : string) :
  is_error c = false → m !! l = Some (Host s) →
  zmalloc d = (false, d1) → submit q (e_ns e) (CRead None) d1 = (0%Z, d2) →
  ∃ a', write_complete c (mkApp d gc gn m f (Some (mkSequence e q (Some l) false 0)) n pr) = Go tt a' ∧
    complete (mkCompletion (CRead None) false x) a' = Undefined.
Proof.
  intros He Hl E1 E2. eexists. split.
  - unfold write_complete. rewrite He. erewrite io_step by reflexivity. erewrite io_step by reflexivity. cbn [using_cmb_io buf].
    erewrite io_step by (by apply (free_eq l s)). unfold spdk_zmalloc.
    erewrite io_step; [|erewrite io_step by (apply drive_eq; exact E1); reflexivity].
    erewrite io_step by reflexivity. erewrite io_step by (apply drive_eq; exact E2). reflexivity.
  - reflexivity.
Qed.
End errors.
End NvmeDemo.

(** ** A driver that works

    Two controllers: the first has a buffer of its own and the namespaces 1, which is zoned, and 2,
    which is not active; the second has the namespace 3. A command completes at the second poll. *)
Module Witness.
Import NvmeDemo.

Record Device := mkDevice { blocks : gmap Z string; pending : option (Z * Command * nat) }.

Definition done_ (ns : Z) (c : Command) (d : Device) : Completion * Device :=
  match c with
  | CReset => (mkCompletion c false "", mkDevice (<[ns := ""]> (blocks d)) None)
  | CWrite _ s => (mkCompletion c false "", mkDevice (<[ns := s]> (blocks d)) None)
  | CRead _ => (mkCompletion c false (default "" (blocks d !! ns)), mkDevice (blocks d) None)
  end.

#[export] Instance device : SpdkOps unit bool Z unit Device := {
  pcie_discovery := tt;
  transport_id_parse _ := Some tt;
  spdk_strtol s := if bool_decide (s = "64") then 64%Z else (-1)%Z;
  log_set_flag _ := 0%Z;
  env_init _ := (0%Z, mkDevice ∅ None);
  env_fini d := d;
  vmd_init d := (0%Z, d);
  vmd_fini d := d;
  probe _ d := ((0%Z, [("01:00.0", None); ("01:00.0", Some true); ("02:00.0", None); ("02:00.0", Some false)]), d);
  model_and_serial _ := ("model", "serial");
  get_first_active_ns c := if c : bool then 1%Z else 3%Z;
  get_next_active_ns c i := if c && (i =? 1)%Z then 2%Z else 0%Z;
  get_ns _ i := Some i;
  ns_is_active ns := negb (ns =? 2)%Z;
  ns_get_id ns := ns;
  ns_get_size _ := 4000000000%Z;
  ns_is_zoned ns := (ns =? 1)%Z;
  malloc d := (true, d);
  zmalloc d := (true, d);
  alloc_io_qpair _ d := (Some tt, d);
  free_io_qpair _ d := d;
  map_cmb c d := (if c : bool then Some 8192%Z else None, d);
  unmap_cmb _ d := d;
  submit _ ns c d := (0%Z, mkDevice (blocks d) (Some (ns, c, 1)));
  process_completions _ d :=
    match pending d with
    | None => ([], d)
    | Some (ns, c, S n) => ([], mkDevice (blocks d) (Some (ns, c, n)))
    | Some (ns, c, O) => let '(x, d) := done_ ns c d in ([x], d)
    end;
  get_status_string _ := "failed";
  detach_async _ d := (true, d);
  detach_poll d := d;
}.

#[export, refine] Instance device_laws : SpdkLaws unit bool Z unit Device := {
  idle d := pending d = None;
  busy d _ ns c n := pending d = Some (ns, c, n);
  holds d ns s := blocks d !! ns = Some s;
  patience := 1;
  active_ns c := if c : bool then [1; 2]%Z else [3]%Z;
}.
Proof.
  - intros []; by cbn.
  - intros d. by eexists.
  - intros d Hd. by eexists _, _.
  - intros [] d Hd. by eexists _, _.
  - intros d Hd. by eexists.
  - intros d Hd. by eexists.
  - intros c d Hd. by eexists _, _.
  - by intros [] d Hd.
  - intros [] d Hd; (eexists _, _; split; [reflexivity|]; split; [done|]); [by intros z [= <-]|done].
  - by intros c d Hd.
  - intros [] ns c d Hd Hc. eexists _, 1. split_and!; [reflexivity|reflexivity|done|done].
  - intros [] ns c n [b p] E; cbn in *. subst p. destruct n as [|n]; [right|left].
    + destruct c; (eexists _, _; split; [reflexivity|]; split; [reflexivity|]; cbn); [done|by rewrite lookup_insert_eq|].
      by intros s ->.
    + eexists _, n. split_and!; [reflexivity|lia|done|done].
Defined.

Definition opts0 : list (Ascii.ascii * string) := [("d"%char, "64"); ("V"%char, "")].

(** With two namespaces in use the text is printed twice. *)
Lemma main_greets_witness :
  ∃ d1 events, fst (probe tt d1) = (0%Z, events) ∧
  returns (main 4 "hello" opts0 0 0 false) (app_of (mkDevice ∅ None))
    (λ rc a', rc = (if decide (attached events = []) then 1 else 0)%Z ∧
       hellos (printed a') = length (namespaces events) ∧
       memory a' = ∅ ∧ open_qpairs a' = 0 ∧ g_controllers a' = [] ∧ g_namespaces a' = []).
Proof.
  refine (main_greets 4 "hello" opts0 0 0 false (mkDevice ∅ None) (mkOptions tt true 0 64 false) _ _ _ _).
  - reflexivity.
  - cbn. lia.
  - intros []; cbn; lia.
Defined.

Example greeted_twice :
  match main 4 "hello" opts0 0 0 false (app_of (mkDevice ∅ None)) with
  | Go rc a => rc = 0%Z ∧ hellos (printed a) = 2
  | _ => False
  end.
Proof. by vm_compute. Qed.

(** A driver in which a read fails. *)
Lemma io_error_exits_witness :
  ∃ a', complete (mkCompletion (CRead (Some 1%positive)) true "")
      (mkApp (mkDevice ∅ None) [mkCtrlrEntry true ""] [] {[1%positive := Host ""]} 2
         (Some (mkSequence (mkNsEntry true 1%Z) tt (Some 1%positive) false 0)) 1 []) = Exited 1 a' ∧
    memory a' = {[1%positive := Host ""]} ∧ open_qpairs a' = 1 ∧
    g_controllers a' = [mkCtrlrEntry true ""].
Proof. by eapply io_error_exits. Defined.

Lemma null_read_buffer_witness :
  ∃ (ops : SpdkOps unit bool Z unit Device) a',
    write_complete (SpdkOps0 := ops) (mkCompletion (CWrite 1 DATA_BUFFER_STRING) false "")
      (mkApp (mkDevice ∅ None) [] [] {[1%positive := Host DATA_BUFFER_STRING]} 2
         (Some (mkSequence (mkNsEntry true 1%Z) tt (Some 1%positive) false 0)) 1 []) = Go tt a' ∧
    complete (SpdkOps0 := ops) (mkCompletion (CRead None) false "") a' = Undefined.
Proof.
  exists (Build_SpdkOps _ _ _ _ _ tt (λ _, None) (λ _, 0%Z) (λ _, 0%Z) (λ d, (0%Z, d)) id (λ d, (0%Z, d)) id
    (λ _ d, ((0%Z, []), d)) (λ _, ("", "")) (λ _, 0%Z) (λ _ _, 0%Z) (λ _ _, None) (λ _, true) (λ _, 0%Z)
    (λ _, 0%Z) (λ _, false) (λ d, (true, d)) (λ d, (false, d)) (λ _ d, (Some tt, d)) (λ _ d, d)
    (λ _ d, (None, d)) (λ _ d, d) (λ _ _ _ d, (0%Z, d)) (λ _ d, ([], d)) (λ _, "") (λ _ d, (false, d)) id).
  refine (null_read_buffer _ _ _ _ tt (mkNsEntry true 1%Z) 1 DATA_BUFFER_STRING _ _ _ _ _ _ _ _ _ _ _); reflexivity.
Defined.
End Witness.
