(* ===== verification/StarterDemos.v ===== *)
(** * Two demonstrations that start a library ([src/examples/dpdk_hello_world/main.cc],
    [src/examples/nvmf_tgt/main.c])

    The first starts DPDK's environment and launches a function on every worker core and on its own;
    the cores run at the same time, so that the run of the program is a sequence of steps in which
    any core that was given the function may finish it. The second hands a callback to an SPDK
    application and waits for its end. What the libraries answer are arguments. *)
From S2P Require Import Prelude.
Set Default Goal Selector "!".

(** ** Hello from every core *)
Module DpdkHello.

(** The cores that were given [lcore_hello] and have not finished it, and the lines that were
    printed, by the core that printed them; where the main thread stands. *)
Inductive Stage := Launching (workers : list nat) | Calling | Waiting | Finished (code : Z) | Panicked.
Record Run := mkRun { busy : list nat; lines : list nat; stage : Stage }.

(** [lcore_hello]: prints the number of the core that runs it. *)
Definition lcore_hello (lcore_id : nat) (r : Run) : Run :=
  mkRun (busy r) (lines r ++ [lcore_id]) (stage r).

(** [main] up to the launches: [rte_eal_init] answers [ret], [workers] are the worker cores. *)
Definition start (ret : Z) (workers : list nat) : Run :=
  mkRun [] [] (if (ret <? 0)%Z then Panicked else Launching workers).

Section steps.
Context (main_lcore : nat).

(** A statement of the main thread. Waiting ends when no worker is busy. *)
Definition main_step (r : Run) : option Run :=
  match stage r with
  | Launching (w :: ws) => Some (mkRun (busy r ++ [w]) (lines r) (Launching ws))
  | Launching [] => Some (mkRun (busy r) (lines r) Calling)
  | Calling => let r := lcore_hello main_lcore r in Some (mkRun (busy r) (lines r) Waiting)
  | Waiting => match busy r with [] => Some (mkRun [] (lines r) (Finished 0)) | _ => None end
  | Finished _ | Panicked => None
  end.

(** Steps of the program: of the main thread, or of a worker that runs the function. *)
Inductive step : Run → Run → Prop :=
| step_main r r' : main_step r = Some r' → step r r'
| step_worker r b1 w b2 :
    busy r = b1 ++ w :: b2 → step r (lcore_hello w (mkRun (b1 ++ b2) (lines r) (stage r))).

(** Every core is still to be launched, busy or done. *)
Definition to_launch (s : Stage) : list nat :=
  match s with Launching ws => main_lcore :: ws | Calling => [main_lcore] | _ => [] end.
Definition accounted (cores : list nat) (r : Run) : Prop :=
  stage r ≠ Panicked ∧ lines r ++ busy r ++ to_launch (stage r) ≡ₚ cores ∧
  (∀ code, stage r = Finished code → busy r = [] ∧ code = 0%Z).

Lemma step_accounted cores r r' : step r r' → accounted cores r → accounted cores r'.
Proof.
  intros [r1 r2 E|r1 b1 w b2 Hb] (Hp & Hc & Hf); split_and!.
  - unfold main_step in E. repeat (case_match; simplify_eq/=; try done).
  - rewrite <-Hc. unfold main_step in E. destruct r1 as [b l s]; cbn in *.
    repeat (case_match; simplify_eq/=); solve_Permutation.
  - intros code. unfold main_step in E. repeat (case_match; simplify_eq/=; try done). by intros [= <-].
  - done.
  - rewrite <-Hc. destruct r1 as [b l s]; cbn in *. subst b. solve_Permutation.
  - intros code Hs. cbn in Hs. destruct (Hf code Hs) as [Hn _]. rewrite Hn in Hb. by destruct b1.
Qed.

(** In every interleaving the program that has ended returned 0 and has printed one line for every
    worker core and one for its own, when the environment could be started. *)
Theorem every_core_greets ret workers r code :
  (0 <= ret)%Z → rtc step (start ret workers) r → stage r = Finished code →
  code = 0%Z ∧ lines r ≡ₚ main_lcore :: workers.
Proof.
  intros Hr Hs Hf.
  assert (accounted (main_lcore :: workers) r) as (_ & Hc & Hend).
  { eapply rtc_preserves; [intros x y; apply step_accounted|exact Hs|]. unfold start.
    rewrite (proj2 (Z.ltb_ge ret 0) Hr). done. }
  destruct (Hend code Hf) as [Hb ->]. split; [done|]. rewrite Hf, Hb in Hc. cbn in Hc. by rewrite !app_nil_r in Hc.
Qed.

(** As long as it has not ended the program can make a step, and no run is longer than four steps
    and two for every core. *)
Definition rank (r : Run) : nat :=
  length (busy r) + match stage r with Launching ws => 3 + 2 * length ws | Calling => 2 | Waiting => 1 | _ => 0 end.
Theorem dpdk_progress r :
  (∀ code, stage r ≠ Finished code) → stage r ≠ Panicked → ∃ r', step r r' ∧ rank r' < rank r.
Proof.
  intros Hf Hp. destruct r as [[|w b] l s].
  - destruct s as [[|w ws]| | |code|]; [..|by destruct (Hf code)|done];
      (eexists; split; [by apply step_main|cbn; lia]).
  - eexists. split; [by apply (step_worker _ [] w b)|]. cbn. lia.
Qed.
Lemma rank_decreases r r' : step r r' → rank r' < rank r.
Proof.
  intros [r1 r2 E|r1 b1 w b2 Hb].
  - destruct r1 as [b l s]. unfold main_step in E. repeat (case_match; simplify_eq/=); unfold rank; cbn;
      rewrite ?length_app; cbn; lia.
  - unfold rank. cbn. rewrite Hb, !length_app. cbn. lia.
Qed.
End steps.
End DpdkHello.

(** ** An NVMe-oF target *)
Module NvmfTarget.

Inductive Event := DumpMemzones | Finalized.

(** [nvmf_tgt_started]: dumps the zones of memory when [MEMZONE_DUMP] is set. *)
Definition nvmf_tgt_started (memzone_dump : option string) : list Event :=
  match memzone_dump with Some _ => [DumpMemzones] | None => [] end.
Definition nvmf_parse_arg : Z := 0.

(** [main]: what [spdk_app_parse_args] answers, and what [spdk_app_start] does: whether it calls the
    callback, and what it returns at the end. *)
Definition main (SPDK_APP_PARSE_ARGS_SUCCESS parsed : Z) (memzone_dump : option string) (started : bool) (rc : Z) :
    Z * list Event :=
  if negb (parsed =? SPDK_APP_PARSE_ARGS_SUCCESS)%Z then (parsed, [])
  else (rc, (if started then nvmf_tgt_started memzone_dump else []) ++ [Finalized]).
End NvmfTarget.

Module Witness.
Import DpdkHello.

(** Two workers, of which the second is faster. *)
Lemma every_core_greets_witness :
  ∃ r, rtc (step 0) (start 0 [1; 2]) r ∧ stage r = Finished 0 ∧ 0%Z = 0%Z ∧ lines r ≡ₚ [0; 1; 2].
Proof.
  assert (rtc (step 0) (start 0 [1; 2]) (mkRun [] [2; 0; 1] (Finished 0))) as Hr.
  { do 2 (eapply rtc_l; [by apply step_main|]). eapply rtc_l; [by apply (step_worker _ _ [1] 2 [])|].
    do 2 (eapply rtc_l; [by apply step_main|]). eapply rtc_l; [by apply (step_worker _ _ [] 1 [])|].
    eapply rtc_l; [by apply step_main|]. apply rtc_refl. }
  exists (mkRun [] [2; 0; 1] (Finished 0)). split; [exact Hr|]. split; [reflexivity|].
  apply (every_core_greets 0 0 [1; 2] _ 0); [lia|exact Hr|reflexivity].
Defined.
End Witness.
