(* ===== verification/Store.v ===== *)
(** * Chunk stores: the interface ([src/manusya/store.h], [src/manusya/file_handle.h])

    [Store] is an abstract class of the sources: [StoreOps] lists its virtual functions,
    [StoreLaws] what its clients ([Chunk], [Bank]) rely on, stated on the file contents a
    store holds, and [StoreReliable] that operations which should succeed do. [MemStore.v]
    proves both for the in-memory store, [LocalStore.v] the laws for the store on a
    directory. [Future<Status>] results are always ready (every implementation returns
    [make_ready_future]), so [.get()] is the identity on them.

    Conventions: a pointer argument is an [option], [None] being [nullptr]; an out-parameter
    [T* out] is passed and returned as the [option T] it points to. *)
From S2P Require Import Prelude Bytes Iobuf.
Set Default Goal Selector "!".
Local Open Scope Z_scope.

(** Open flags of [fcntl.h] (Linux). *)
Definition O_RDONLY : Z := 0.
Definition O_WRONLY : Z := 1.
Definition O_RDWR : Z := 2.
Definition O_CREAT : Z := 64.
Definition O_EXCL : Z := 128.
Definition O_TRUNC : Z := 512.

(** [(flags & bit) != 0]. *)
Definition flag_set (flags bit : Z) : bool := negb (Z.land flags bit =? 0).

(** The virtual functions of [Store]. *)
Class StoreOps `{IOBufOps} (St FH : Type) := {
  store_open : option string → Z → option (option FH) → Prog St (Status * option (option FH));
  store_append : option FH → Z → IOBuf → Prog St Status;
  store_read : option FH → Z → Z → option IOBuf → Prog St (Status * option IOBuf);
  store_seal : option FH → Prog St Status;
  store_size : option FH → option Z → Prog St (Status * option Z);
  store_remove : option string → Prog St Status;
  store_set_attr : option FH → option string → option string → Prog St Status;
  store_get_attr : option FH → option string → option string → Prog St (Status * option string);
  store_list_attrs : option FH → option (gmap string string) →
                     Prog St (Status * option (gmap string string));
  (* the paths [for_each] passes to its callback, in order *)
  store_paths : St → list string;
}.

Section ops.
Context `{StoreOps St FH}.

(** [for_each(cb)] where [cb] acts on a larger state [W] that contains the store. The callback
    does not add or remove files. *)
Fixpoint visit {W} (cb : string → Prog W unit) (paths : list string) : Prog W unit :=
  match paths with
  | [] => mret tt
  | p :: rest => cb p;; visit cb rest
  end.

Definition store_for_each {W} (g : W → St) (cb : string → Prog W unit) : Prog W unit :=
  w ← get; visit cb (store_paths (g w)).

(** [FileHandle]: every member forwards to the store. Calling one through a null
    [FileHandlePtr] does not return. *)
Definition fh_append (fh : option FH) (offset : Z) (buf : IOBuf) : Prog St Status :=
  match fh with None => abort | Some _ => store_append fh offset buf end.
Definition fh_read (fh : option FH) (offset size : Z) (buf : option IOBuf) :
    Prog St (Status * option IOBuf) :=
  match fh with None => abort | Some _ => store_read fh offset size buf end.
Definition fh_seal (fh : option FH) : Prog St Status :=
  match fh with None => abort | Some _ => store_seal fh end.
Definition fh_size (fh : option FH) (size : option Z) : Prog St (Status * option Z) :=
  match fh with None => abort | Some _ => store_size fh size end.
Definition fh_set_attr (fh : option FH) (key value : option string) : Prog St Status :=
  match fh with None => abort | Some _ => store_set_attr fh key value end.
Definition fh_get_attr (fh : option FH) (key value : option string) :
    Prog St (Status * option string) :=
  match fh with None => abort | Some _ => store_get_attr fh key value end.
Definition fh_list_attrs (fh : option FH) (attrs : option (gmap string string)) :
    Prog St (Status * option (gmap string string)) :=
  match fh with None => abort | Some _ => store_list_attrs fh attrs end.
End ops.

(** Flags with which [Chunk] creates its file. *)
Definition CREATE_FLAGS : Z := Z.lor (Z.lor O_CREAT O_RDWR) O_EXCL.

(** The contract of a store. [files] is what it holds, path by path; [fh_target st h p]: writes
    through the handle [h] go to the end of the file at [p]; [fh_source st h p]: reads through it
    reach that file: a handle with a file position is a target while that position is at the
    end of the file. An operation on a live handle returns, possibly with an error status. *)
Class StoreLaws `{IOBufLaws} (St FH : Type) `{!StoreOps St FH} := {
  files : St → gmap string (list byte);
  fh_target : St → FH → string → Prop;
  fh_source : St → FH → string → Prop;
  keeps (st st' : St) : Prop := ∀ h p, fh_target st h p → fh_target st' h p;
  keeps_but (p : string) (st st' : St) : Prop :=
    ∀ h q, q ≠ p → fh_target st h q → fh_target st' h q;
  open_new st p fh :
    plain_name p = true → files st !! p = None →
    wp (store_open (Some p) CREATE_FLAGS (Some fh)) st (λ r st', keeps st st' ∧
      if ok (fst r) then
        ∃ h, snd r = Some (Some h) ∧ fh_target st' h p ∧ files st' = <[p := []]> (files st)
      else snd r = Some fh ∧ files st' = files st);
  open_exists st p bs fh :
    plain_name p = true → files st !! p = Some bs →
    wp (store_open (Some p) CREATE_FLAGS (Some fh)) st (λ r st', keeps st st' ∧
      ok (fst r) = false ∧ snd r = Some fh ∧ files st' = files st);
  open_rdonly st p fh :
    plain_name p = true →
    wp (store_open (Some p) O_RDONLY (Some fh)) st (λ r st',
      keeps st st' ∧ files st' = files st ∧
      if ok (fst r) then
        is_Some (files st !! p) ∧ ∃ h, snd r = Some (Some h) ∧ fh_source st' h p
      else snd r = Some fh);
  append_live st h p bs off b :
    fh_target st h p → files st !! p = Some bs →
    wp (store_append (Some h) off b) st (λ s st',
      keeps_but p st st' ∧ fh_target st' h p ∧
      files st' = if ok s then <[p := bs ++ iob_bytes b]> (files st) else files st);
  read_live st h p bs off sz buf :
    fh_source st h p → files st !! p = Some bs → 0 <= off < 2 ^ 64 →
    wp (store_read (Some h) off sz (Some buf)) st (λ r st',
      keeps st st' ∧ files st' = files st ∧
      (ok (fst r) = true → 0 <= sz → off + sz <= Z.of_nat (length bs) →
       iob_bytes buf = [] →
       ∃ b, snd r = Some b ∧ iob_bytes b = take (Z.to_nat sz) (drop (Z.to_nat off) bs)));
  seal_live st h p bs :
    fh_target st h p → files st !! p = Some bs →
    wp (store_seal (Some h)) st (λ s st', keeps st st' ∧ files st' = files st);
  size_live st h p bs v :
    fh_target st h p → files st !! p = Some bs →
    wp (store_size (Some h) (Some v)) st (λ r st', keeps st st' ∧ files st' = files st ∧
      (ok (fst r) = true → snd r = Some (Z.of_nat (length bs))));
  remove_any st p :
    plain_name p = true →
    wp (store_remove (Some p)) st (λ s st', keeps_but p st st' ∧
      files st' = if ok s then delete p (files st) else files st);
  paths_files st p : p ∈ store_paths st → is_Some (files st !! p);
}.

(** Operations that have no reason to fail succeed. *)
Class StoreReliable `{StoreLaws St FH} : Prop := {
  open_new_ok st p fh :
    files st !! p = None →
    wlp (store_open (Some p) CREATE_FLAGS (Some fh)) st (λ r _, ok (fst r) = true);
  open_rdonly_ok st p bs fh :
    files st !! p = Some bs →
    wlp (store_open (Some p) O_RDONLY (Some fh)) st (λ r _, ok (fst r) = true);
  append_ok st h p bs off b :
    fh_target st h p → files st !! p = Some bs →
    wlp (store_append (Some h) off b) st (λ s _, ok s = true);
  read_ok st h p bs off sz b :
    fh_source st h p → files st !! p = Some bs →
    0 <= off → 0 <= sz → off + sz <= Z.of_nat (length bs) →
    wlp (store_read (Some h) off sz (Some b)) st (λ r _, ok (fst r) = true);
  seal_ok st h p bs :
    fh_target st h p → files st !! p = Some bs →
    wlp (store_seal (Some h)) st (λ s _, ok s = true);
  size_ok st h p bs v :
    fh_target st h p → files st !! p = Some bs →
    wlp (store_size (Some h) (Some v)) st (λ r _, ok (fst r) = true);
  remove_ok st p bs :
    files st !! p = Some bs →
    wlp (store_remove (Some p)) st (λ s _, ok s = true);
}.

(** ** [Store::create] ([src/manusya/store.cc]) *)

Inductive StoreKind :=
| LocalStore (data_path : string)
| MemoryStore.

(** [strncmp(s, prefix, strlen(prefix)) == 0]; the rest of [s] after the prefix. *)
Fixpoint strip_prefix (prefix s : string) : option string :=
  match prefix, s with
  | EmptyString, _ => Some s
  | String c prefix', String d s' =>
      if Ascii.eqb c d then strip_prefix prefix' s' else None
  | String _ _, EmptyString => None
  end.

(** [Store::create]: [None] is the failed assertion on an unknown uri. *)
Definition create_store (uri : string) : option StoreKind :=
  match strip_prefix "local://" uri with
  | Some data_path => Some (LocalStore data_path)
  | None =>
      match strip_prefix "memory://" uri with
      | Some _ => Some MemoryStore
      | None => None
      end
  end.

(** ** Lemmas *)
Lemma strip_prefix_spec prefix s rest :
  strip_prefix prefix s = Some rest ↔ s = prefix +:+ rest.
Proof.
  revert s; induction prefix as [|c prefix IH]; intros s.
  { rewrite str_app_nil_l. cbn. naive_solver. }
  change (String c prefix +:+ rest) with (String c (prefix +:+ rest)).
  destruct s as [|d s]; cbn [strip_prefix]; [naive_solver|].
  destruct (Ascii.eqb_spec c d) as [->|]; [rewrite IH|]; naive_solver.
Qed.
