(* ===== verification/MemStore.v ===== *)
(** * The in-memory store ([src/manusya/mem_store.h], [src/manusya/mem_store.cc])

    [_files] and [_attrs] are maps from paths; a handle remembers its path. The accesses
    [_files[path]] and [_attrs[path]] of the code insert a default value when the key is
    missing, and so do the definitions. A path given as [const char*] is the string up to its
    terminator. *)
From S2P Require Import Prelude Bytes Iobuf Store.
Set Default Goal Selector "!".
Local Open Scope Z_scope.

Module MemStore.

(** [MemFileHandle]. *)
Record MemFileHandle := mkMemFileHandle { handle : string }.

Record MemStore `{IOBufOps} := mkMemStore {
  _files : gmap string IOBuf;
  _attrs : gmap string (gmap string string);
}.

Section mem_store.
Context `{IOBufOps}.

Definition empty_store : MemStore := mkMemStore _ ∅ ∅.
Definition set_files (f : gmap string IOBuf → gmap string IOBuf) (st : MemStore) : MemStore :=
  mkMemStore _ (f (_files st)) (_attrs st).
Definition set_attrs (f : gmap string (gmap string string) → gmap string (gmap string string))
    (st : MemStore) : MemStore :=
  mkMemStore _ (_files st) (f (_attrs st)).

(** [_files[path]] and [_attrs[path]]: the value, after inserting a default if needed. *)
Definition file_at (path : string) : Prog MemStore IOBuf :=
  st ← get;
  match _files st !! path with
  | Some b => mret b
  | None => modify (set_files <[path := iob_empty]>);; mret iob_empty
  end.

Definition attrs_at (path : string) : Prog MemStore (gmap string string) :=
  st ← get;
  match _attrs st !! path with
  | Some m => mret m
  | None => modify (set_attrs <[path := ∅]>);; mret ∅
  end.

(** [MemStore::open]. *)
Definition open (path : option string) (flags : Z) (fh : option (option MemFileHandle)) :
    Prog MemStore (Status * option (option MemFileHandle)) :=
  match path with
  | None => mret (mkStatus EINVAL "path is nullptr", fh)
  | Some path =>
    match fh with
    | None => mret (mkStatus EINVAL "fh is nullptr", fh)
    | Some _ =>
      st ← get;
      match _files st !! path with
      | Some _ =>
          if flag_set flags O_EXCL then mret (mkStatus EEXIST "file already exists", fh) else
          (if flag_set flags O_TRUNC
           then b ← file_at path; modify (set_files <[path := iob_clear b]>)
           else mret tt);;
          mret (OK, Some (Some (mkMemFileHandle path)))
      | None =>
          if flag_set flags O_CREAT
          then modify (set_files <[path := iob_empty]>);;
               mret (OK, Some (Some (mkMemFileHandle path)))
          else mret (mkStatus ENOENT "file not found", fh)
      end
    end
  end.

(** [MemStore::append]: the offset is not looked at. *)
Definition append (fh : option MemFileHandle) (offset : Z) (buf : IOBuf) :
    Prog MemStore Status :=
  match fh with
  | None => mret (mkStatus EINVAL "fh is nullptr")
  | Some fh =>
      iobuf ← file_at (handle fh);
      modify (set_files <[handle fh := iob_append iobuf buf]>);;
      mret OK
  end.

(** [MemStore::read]: appends at most [size] bytes from [offset] to [*buf]. *)
Definition read (fh : option MemFileHandle) (offset size : Z) (buf : option IOBuf) :
    Prog MemStore (Status * option IOBuf) :=
  match fh with
  | None => mret (mkStatus EINVAL "fh is nullptr", buf)
  | Some fh =>
      iobuf ← file_at (handle fh);
      match buf with
      | None => abort
      | Some dst => mret (OK, Some (iob_append_to iobuf dst size offset))
      end
  end.

(** [MemStore::seal]. *)
Definition seal (fh : option MemFileHandle) : Prog MemStore Status := mret OK.

(** [MemStore::size]. *)
Definition size (fh : option MemFileHandle) (size : option Z) : Prog MemStore (Status * option Z) :=
  match fh with
  | None => mret (mkStatus EINVAL "fh is nullptr", size)
  | Some fh =>
      iobuf ← file_at (handle fh);
      match size with
      | None => abort
      | Some _ => mret (OK, Some (iob_size iobuf))
      end
  end.

(** [MemStore::remove]. *)
Definition remove (path : option string) : Prog MemStore Status :=
  match path with
  | None => mret (mkStatus EINVAL "path is nullptr")
  | Some path => modify (set_files (delete path));; mret OK
  end.

(** [MemStore::set_attr]. *)
Definition set_attr (fh : option MemFileHandle) (key value : option string) :
    Prog MemStore Status :=
  match fh, key, value with
  | None, _, _ => mret (mkStatus EINVAL "fh is nullptr")
  | Some _, None, _ => mret (mkStatus EINVAL "key is nullptr")
  | Some _, Some _, None => mret (mkStatus EINVAL "value is nullptr")
  | Some fh, Some key, Some value =>
      attrs ← attrs_at (handle fh);
      modify (set_attrs <[handle fh := <[key := value]> attrs]>);;
      mret OK
  end.

(** [MemStore::get_attr]. *)
Definition get_attr (fh : option MemFileHandle) (key value : option string) :
    Prog MemStore (Status * option string) :=
  match fh, key, value with
  | None, _, _ => mret (mkStatus EINVAL "fh is nullptr", value)
  | Some _, None, _ => mret (mkStatus EINVAL "key is nullptr", value)
  | Some _, Some _, None => mret (mkStatus EINVAL "value is nullptr", value)
  | Some fh, Some key, Some _ =>
      attrs ← attrs_at (handle fh);
      match attrs !! key with
      | None => mret (mkStatus ENOENT "attribute not found", value)
      | Some v => mret (OK, Some v)
      end
  end.

(** [MemStore::list_attrs]. *)
Definition list_attrs (fh : option MemFileHandle) (attrs : option (gmap string string)) :
    Prog MemStore (Status * option (gmap string string)) :=
  match fh, attrs with
  | None, _ => mret (mkStatus EINVAL "fh is nullptr", attrs)
  | Some _, None => mret (mkStatus EINVAL "attrs is nullptr", attrs)
  | Some fh, Some _ => m ← attrs_at (handle fh); mret (OK, Some m)
  end.

(** The order in which [for_each] walks [_files], a [std::map] keyed by string. *)
Definition paths (st : MemStore) : list string :=
  merge_sort String.le (fst <$> map_to_list (_files st)).

#[global] Instance mem_store_ops : StoreOps MemStore MemFileHandle := {
  store_open := open;
  store_append := append;
  store_read := read;
  store_seal := seal;
  store_size := size;
  store_remove := remove;
  store_set_attr := set_attr;
  store_get_attr := get_attr;
  store_list_attrs := list_attrs;
  store_paths := paths;
}.
End mem_store.

(** ** Lemmas *)
Section lemmas.
Context `{IOBufLaws}.
Implicit Types (st : MemStore) (h : MemFileHandle).

(** The contents the store holds. *)
Definition contents st : gmap string (list byte) := iob_bytes <$> _files st.

Lemma contents_lookup st p : contents st !! p = iob_bytes <$> _files st !! p.
Proof. apply lookup_fmap. Qed.

Lemma file_at_Some st p b : _files st !! p = Some b → file_at p st = Some (b, st).
Proof. intros E. unfold file_at, get, mbind, prog_bind, mret, prog_ret. by rewrite E. Qed.

Lemma file_at_live st p bs :
  contents st !! p = Some bs → ∃ b, iob_bytes b = bs ∧ file_at p st = Some (b, st).
Proof.
  rewrite contents_lookup. destruct (_files st !! p) as [b|] eqn:E; [|done].
  intros [= <-]. exists b. split; [done|]. by apply file_at_Some.
Qed.

Lemma contents_insert st p b :
  contents (set_files <[p := b]> st) = <[p := iob_bytes b]> (contents st).
Proof. unfold contents; cbn. apply fmap_insert. Qed.

(** Opening, by flags and presence of the file. *)
Lemma open_Some st p flags fh :
  open (Some p) flags (Some fh) st =
  match _files st !! p with
  | Some b =>
      if flag_set flags O_EXCL
      then Some ((mkStatus EEXIST "file already exists", Some fh), st)
      else Some ((OK, Some (Some (mkMemFileHandle p))),
                 if flag_set flags O_TRUNC then set_files <[p := iob_clear b]> st else st)
  | None =>
      if flag_set flags O_CREAT
      then Some ((OK, Some (Some (mkMemFileHandle p))), set_files <[p := iob_empty]> st)
      else Some ((mkStatus ENOENT "file not found", Some fh), st)
  end.
Proof.
  unfold open, get, modify, mbind, prog_bind, mret, prog_ret.
  destruct (_files st !! p) as [b|] eqn:E.
  - destruct (flag_set flags O_EXCL); [done|].
    destruct (flag_set flags O_TRUNC); [|done]. by rewrite (file_at_Some _ _ _ E).
  - by destruct (flag_set flags O_CREAT).
Qed.

Lemma append_Some st h off b bs :
  contents st !! handle h = Some bs →
  ∃ st', append (Some h) off b st = Some (OK, st') ∧ _attrs st' = _attrs st ∧
         contents st' = <[handle h := bs ++ iob_bytes b]> (contents st).
Proof.
  intros (b0 & <- & E)%file_at_live.
  eexists; split_and!.
  - cbn [append]. erewrite bind_step by done. reflexivity.
  - done.
  - by rewrite contents_insert, iob_bytes_append.
Qed.

Lemma read_Some st h off sz buf bs :
  contents st !! handle h = Some bs →
  ∃ b, read (Some h) off sz (Some buf) st = Some ((OK, Some b), st) ∧
       iob_bytes b = iob_bytes buf ++ take (Z.to_nat sz) (drop (Z.to_nat off) bs).
Proof.
  intros (b0 & <- & E)%file_at_live. eexists; split.
  - cbn [read]. erewrite bind_step by done. reflexivity.
  - apply iob_bytes_append_to.
Qed.

Lemma size_Some st h v bs :
  contents st !! handle h = Some bs →
  size (Some h) (Some v) st = Some ((OK, Some (Z.of_nat (length bs))), st).
Proof.
  intros (b0 & <- & E)%file_at_live. cbn [size]. erewrite bind_step by done.
  by rewrite iob_size_spec.
Qed.

Lemma paths_spec st p : p ∈ paths st ↔ is_Some (contents st !! p).
Proof.
  unfold paths. rewrite merge_sort_Permutation, list_elem_of_fmap, contents_lookup, fmap_is_Some.
  split.
  - intros ([q b] & -> & E%elem_of_map_to_list). eauto.
  - intros [b E]. exists (p, b). split; [done|]. by apply elem_of_map_to_list.
Qed.

#[global, refine] Instance mem_store_laws : StoreLaws MemStore MemFileHandle := {
  files := contents;
  fh_target _ h p := p = handle h;
  fh_source _ h p := p = handle h;
}.
Proof.
  - intros st p fh _ E. rewrite contents_lookup in E. apply fmap_None in E. unfold wp.
    cbn [store_open mem_store_ops]. rewrite open_Some, E. cbn. split; [done|].
    eexists; split_and!; [done|done|]. by rewrite contents_insert, iob_bytes_empty.
  - intros st p bs fh _ E. rewrite contents_lookup in E. apply fmap_Some in E as (b & E & ->).
    unfold wp. cbn [store_open mem_store_ops]. rewrite open_Some, E. by cbn.
  - intros st p fh _. unfold wp. cbn [store_open mem_store_ops]. rewrite open_Some.
    rewrite contents_lookup.
    replace (flag_set O_RDONLY O_EXCL) with false by done.
    replace (flag_set O_RDONLY O_TRUNC) with false by done.
    replace (flag_set O_RDONLY O_CREAT) with false by done.
    destruct (_files st !! p); cbn; split_and!; eauto.
  - intros st h p bs off b -> E. unfold wp.
    destruct (append_Some _ _ off b _ E) as (st' & Ea & _ & Ec). cbn [store_append mem_store_ops].
    rewrite Ea. split_and!; [done|done|]. by rewrite Ec.
  - intros st h p bs off sz buf -> E _. unfold wp. cbn [store_read mem_store_ops].
    destruct (read_Some _ _ off sz buf _ E) as (b & Er & Hb). rewrite Er.
    split_and!; [done|done|]. intros _ _ _ Eb. rewrite Eb in Hb. eauto.
  - done.
  - intros st h p bs v -> E. unfold wp. cbn [store_size mem_store_ops].
    by rewrite (size_Some _ _ v _ E).
  - intros st p _. unfold wp. cbn [store_remove mem_store_ops remove]. split; [done|].
    cbn. unfold contents; cbn. apply fmap_delete.
  - intros st p. apply paths_spec.
Defined.

#[global] Instance mem_store_reliable : StoreReliable (St := MemStore) (FH := MemFileHandle).
Proof.
  split; unfold wlp; cbn [store_open store_append store_read store_seal store_size mem_store_ops].
  - intros st p fh E. cbn in E. rewrite contents_lookup in E. apply fmap_None in E.
    by rewrite open_Some, E.
  - intros st p bs fh E. cbn in E. rewrite contents_lookup in E. apply fmap_Some in E as (b & E & ->).
    by rewrite open_Some, E.
  - intros st h p bs off b -> E. destruct (append_Some _ _ off b _ E) as (st' & Ea & _).
    by rewrite Ea.
  - intros st h p bs off sz buf -> E _ _ _.
    destruct (read_Some _ _ off sz buf _ E) as (b & Er & Hb). by rewrite Er.
  - done.
  - intros st h p bs v -> E. by rewrite (size_Some _ _ v _ E).
  - done.
Qed.
End lemmas.
End MemStore.
