(* ===== verification/LocalStore.v ===== *)
(** * The store on a directory ([src/manusya/local_store.h], [src/manusya/local_store.cc])

    A chunk file is a file of the directory [_data_path], a handle a file descriptor. System
    calls, and the two [butil::IOBuf] members that work on a descriptor, are not code of the
    repository: [PosixOps] lists those the store uses and [PosixLaws] what their manual pages
    say, on the part of the file system the process can observe ([Fs]). [DirFs] is an instance
    of both, used by the witnesses.

    A local store meets the contract of [Store.v] as long as writes are not short
    ([PosixFullWrites]). The manual page of write allows fewer bytes than asked for; [append]
    asserts that this does not happen, so that it does not return then. The differences
    with the in-memory store are stated after the contract. *)
From S2P Require Import Prelude Bytes Iobuf Store.
Set Default Goal Selector "!".
Local Open Scope Z_scope.

(** [off_t]: conversion of an unsigned 64-bit offset. *)
Definition s64 (z : Z) : Z := (z + 2 ^ 63) mod 2 ^ 64 - 2 ^ 63.

(** The system calls; [inl errno] is a negative result. *)
Class PosixOps `{IOBufOps} (Os : Type) := {
  sys_mkdir : string → Z → Os → (Z + unit) * Os;
  sys_open : string → Z → Z → Os → (Z + Z) * Os;
  sys_close : Z → Os → (Z + unit) * Os;
  sys_lseek_set : Z → Z → Os → (Z + Z) * Os;
  sys_fchmod : Z → Z → Os → (Z + unit) * Os;
  (* fstat, [st_size] *)
  sys_fstat_size : Z → Os → (Z + Z) * Os;
  sys_unlink : string → Os → (Z + unit) * Os;
  (* fsetxattr(fd, key, value, strlen(value), 0) *)
  sys_fsetxattr : Z → string → string → Os → (Z + unit) * Os;
  (* fgetxattr, flistxattr: the bytes put in a buffer of the given size *)
  sys_fgetxattr : Z → string → Z → Os → (Z + string) * Os;
  sys_flistxattr : Z → Z → Os → (Z + string) * Os;
  (* opendir, readdir until null, closedir: entries and whether [d_type == DT_REG] *)
  sys_readdir : string → Os → option (list (string * bool));
  (* buf.cut_into_file_descriptor(fd, n): bytes written, what is left of [buf] *)
  iob_cut_into_fd : IOBuf → Z → Z → Os → ((Z + Z) * IOBuf) * Os;
  (* iop.append_from_file_descriptor(fd, n): bytes read, the new [iop] *)
  iop_append_from_fd : IOBuf → Z → Z → Os → ((Z + Z) * IOBuf) * Os;
  (* what an uninitialised [char[1024]] holds *)
  os_stack : Os → string;
}.

Module LocalStore.

(** A C string: up to the terminator; reading past the buffer is not defined. *)
Fixpoint c_str (s : string) : option string :=
  match s with
  | EmptyString => None
  | String c s' => if Ascii.eqb c Ascii.zero then Some EmptyString else String c <$> c_str s'
  end.

(** A [char[]] filled with [stack], after [value] was written at its start. *)
Definition overwritten (value stack : string) : string :=
  value +:+ str_drop (String.length value) stack.

Definition EINVAL_fh : Status := mkStatus EINVAL "fh is nullptr".

(** [LocalFileHandle]. *)
Record LocalFileHandle := mkLocalFileHandle { _fd : Z }.
Definition handle (fh : LocalFileHandle) : Z := _fd fh.
#[global] Arguments handle _ : simpl never.

Section local_store.
Context `{PosixOps Os}.
(** The only member of a [LocalStore]; the rest of its state is the operating system's. *)
Context (_data_path : string).

(** [~LocalFileHandle]. *)
Definition close_handle (fh : LocalFileHandle) : Prog Os unit :=
  boost_assert (0 <? _fd fh);;
  _ ← external (sys_close (_fd fh)); mret tt.

(** [LocalStore::LocalStore]: a failure is only logged. *)
Definition new_local_store : Prog Os unit :=
  _ ← external (sys_mkdir _data_path 508); mret tt.

(** [std::format("{}/{}", _data_path, path)]. *)
Definition data_path (path : string) : string := _data_path +:+ ("/" +:+ path).

(** [LocalStore::open]; the mode is 0666. *)
Definition open (path : option string) (flags : Z) (fh : option (option LocalFileHandle)) :
    Prog Os (Status * option (option LocalFileHandle)) :=
  match path, fh with
  | None, _ => mret (mkStatus EINVAL "path is nullptr", fh)
  | Some _, None => mret (mkStatus EINVAL "fh is nullptr", fh)
  | Some path, Some _ =>
      r ← external (sys_open (data_path path) flags 438);
      match r with
      | inl errno => mret (mkStatus errno "failed to open file", fh)
      | inr fd => mret (OK, Some (Some (mkLocalFileHandle fd)))
      end
  end.

(** [LocalStore::append]: the offset is ignored, the bytes go where the descriptor stands. *)
Definition append (fh : option LocalFileHandle) (offset : Z) (buf : IOBuf) : Prog Os Status :=
  match fh with
  | None => mret EINVAL_fh
  | Some fh =>
      let fd := handle fh in
      let buf_size := iob_size buf in
      '(r, _) ← external (iob_cut_into_fd buf fd buf_size);
      match r with
      | inl errno => mret (mkStatus errno "failed to write to file")
      | inr nw => boost_assert (nw =? buf_size);; mret OK
      end
  end.

(** [LocalStore::read]: the bytes replace those of [*buf]. *)
Definition read (fh : option LocalFileHandle) (offset size : Z) (buf : option IOBuf) :
    Prog Os (Status * option IOBuf) :=
  match fh, buf with
  | None, _ => mret (EINVAL_fh, buf)
  | Some _, None => mret (mkStatus EINVAL "buf is nullptr", buf)
  | Some fh, Some _ =>
      let fd := handle fh in
      r ← external (sys_lseek_set fd (s64 offset));
      match r with
      | inl errno => mret (mkStatus errno "failed to lseek", buf)
      | inr _ =>
          '(nr, iop) ← external (iop_append_from_fd iob_empty fd size);
          match nr with
          | inl errno => mret (mkStatus errno "failed to read from file", buf)
          | inr nr =>
              if negb (nr =? size) then mret (mkStatus EINVAL "invalid size", buf)
              else mret (OK, Some iop)
          end
      end
  end.

(** [LocalStore::seal]: mode 0444. *)
Definition seal (fh : option LocalFileHandle) : Prog Os Status :=
  match fh with
  | None => mret EINVAL_fh
  | Some fh =>
      r ← external (sys_fchmod (handle fh) 292);
      match r with
      | inl errno => mret (mkStatus errno "failed to fchmod")
      | inr _ => mret OK
      end
  end.

(** [LocalStore::size]. *)
Definition size (fh : option LocalFileHandle) (size : option Z) : Prog Os (Status * option Z) :=
  match fh, size with
  | None, _ => mret (EINVAL_fh, size)
  | Some _, None => mret (mkStatus EINVAL "size is nullptr", size)
  | Some fh, Some _ =>
      r ← external (sys_fstat_size (handle fh));
      match r with
      | inl errno => mret (mkStatus errno "failed to fstat", size)
      | inr st_size => mret (OK, Some st_size)
      end
  end.

(** [LocalStore::remove]. *)
Definition remove (path : option string) : Prog Os Status :=
  match path with
  | None => mret (mkStatus EINVAL "path is nullptr")
  | Some path =>
      r ← external (sys_unlink (data_path path));
      match r with
      | inl errno => mret (mkStatus errno "failed to unlink")
      | inr _ => mret OK
      end
  end.

(** [LocalStore::set_attr]. *)
Definition set_attr (fh : option LocalFileHandle) (key value : option string) :
    Prog Os Status :=
  match fh, key, value with
  | None, _, _ => mret EINVAL_fh
  | Some _, None, _ => mret (mkStatus EINVAL "key is nullptr")
  | Some _, Some _, None => mret (mkStatus EINVAL "value is nullptr")
  | Some fh, Some key, Some value =>
      r ← external (sys_fsetxattr (handle fh) key value);
      match r with
      | inl errno => mret (mkStatus errno "failed to fsetxattr")
      | inr _ => mret OK
      end
  end.

(** [LocalStore::get_attr]: a value of more than 1024 bytes is an error. *)
Definition get_attr (fh : option LocalFileHandle) (key value : option string) :
    Prog Os (Status * option string) :=
  match fh, key, value with
  | None, _, _ => mret (EINVAL_fh, value)
  | Some _, None, _ => mret (mkStatus EINVAL "key is nullptr", value)
  | Some _, Some _, None => mret (mkStatus EINVAL "value is nullptr", value)
  | Some fh, Some key, Some _ =>
      r ← external (sys_fgetxattr (handle fh) key 1024);
      match r with
      | inl errno => mret (mkStatus errno "failed to fgetxattr", value)
      | inr buf => mret (OK, Some buf)
      end
  end.

(** A [char*] whose terminator must be found. *)
Definition deref_str (s : string) : Prog Os string :=
  match c_str s with None => abort | Some s => mret s end.

(** The loop of [list_attrs] over the names in [buf], from [i]. What [fgetxattr] stores in [key]
    is the value of the attribute, without terminator; the rest of [key] is not initialised.
    Each iteration advances [i], so the length of [buf] is enough fuel. *)
Fixpoint list_attrs_loop (fuel : nat) (fh : LocalFileHandle) (buf : string) (i : nat)
    (attrs : gmap string string) : Prog Os (Status * gmap string string) :=
  if (i <? String.length buf)%nat then
    match fuel with
    | O => abort
    | S fuel =>
        name ← deref_str (str_drop i buf);
        n ← external (sys_fgetxattr (handle fh) name 1024);
        match n with
        | inl errno => mret (mkStatus errno "failed to fgetxattr", attrs)
        | inr stored =>
            stack ← gets os_stack;
            key ← deref_str (overwritten stored stack);
            '(status, value) ← get_attr (Some fh) (Some key) (Some "");
            if negb (ok status) then mret (status, attrs) else
            list_attrs_loop fuel fh buf (i + String.length name + 1)
              (<[key := default "" value]> attrs)
        end
    end
  else mret (OK, attrs).

(** [LocalStore::list_attrs]. *)
Definition list_attrs (fh : option LocalFileHandle) (attrs : option (gmap string string)) :
    Prog Os (Status * option (gmap string string)) :=
  match fh, attrs with
  | None, _ => mret (EINVAL_fh, attrs)
  | Some _, None => mret (mkStatus EINVAL "attrs is nullptr", attrs)
  | Some fh, Some m =>
      r ← external (sys_flistxattr (handle fh) 1024);
      match r with
      | inl errno => mret (mkStatus errno "failed to flistxattr", attrs)
      | inr buf =>
          '(status, m) ← list_attrs_loop (String.length buf) fh buf 0 m;
          mret (status, Some m)
      end
  end.

(** The names [LocalStore::for_each] passes to its callback: the regular files of the
    directory, none when it cannot be opened. *)
Definition paths (os : Os) : list string :=
  match sys_readdir _data_path os with
  | None => []
  | Some entries => fst <$> filter (λ e, snd e = true) entries
  end.

(** [class LocalStore : public Store]. *)
Definition local_store_ops : StoreOps Os LocalFileHandle := {|
  store_open := open;
  store_append := append;
  store_read := read;
  store_seal := seal;
  store_size := size;
  store_remove := remove;
  store_set_attr := set_attr;
  store_get_attr := get_attr;
  store_list_attrs := list_attrs;
  store_paths := paths;
|}.
End local_store.

(** ** What the system calls do *)

(** An open file description. *)
Record OpenFile := mkOpenFile { of_ino : positive; of_pos : Z; of_read : bool; of_write : bool }.
Definition set_pos (z : Z) (f : OpenFile) : OpenFile :=
  mkOpenFile (of_ino f) z (of_read f) (of_write f).
Definition opened (i : positive) (flags : Z) : OpenFile :=
  mkOpenFile i 0 (negb (Z.land flags 3 =? O_WRONLY)) (negb (Z.land flags 3 =? O_RDONLY)).

(** The directory of the store, the contents and extended attributes of inodes, the table of
    open descriptors. *)
Record Fs := mkFs {
  fs_names : gmap string positive;
  fs_data : gmap positive (list byte);
  fs_fds : gmap Z OpenFile;
  fs_attrs : gmap positive (gmap string string);
}.
Definition with_names f (v : Fs) := mkFs (f (fs_names v)) (fs_data v) (fs_fds v) (fs_attrs v).
Definition with_data f (v : Fs) := mkFs (fs_names v) (f (fs_data v)) (fs_fds v) (fs_attrs v).
Definition with_fds f (v : Fs) := mkFs (fs_names v) (fs_data v) (f (fs_fds v)) (fs_attrs v).
Definition with_attrs f (v : Fs) := mkFs (fs_names v) (fs_data v) (fs_fds v) (f (fs_attrs v)).

(** Writing [l] at [pos]: a gap is filled with zeros. *)
Definition write_at (pos : Z) (l bs : list byte) : list byte :=
  take (Z.to_nat pos) bs ++ replicate (Z.to_nat pos - length bs) Byte.x00 ++ l ++
  drop (Z.to_nat pos + length l) bs.

(** An inode nothing refers to. *)
Definition unused_ino (i : positive) (v : Fs) : Prop :=
  (∀ p, fs_names v !! p ≠ Some i) ∧ (∀ fd f, fs_fds v !! fd = Some f → of_ino f ≠ i).

(** The names of a [flistxattr] buffer. *)
Definition names_buf (names : list string) : string :=
  foldr (λ n acc, n +:+ String Ascii.zero acc) "" names.
Definition attrs_of (v : Fs) (i : positive) : gmap string string := default ∅ (fs_attrs v !! i).

(** A call fails with a non-zero [errno] and no effect, or succeeds as described. *)
Definition outcome {Os A} (view : Os → Fs) (os : Os) (r : (Z + A) * Os) (Q : A → Fs → Prop) : Prop :=
  match fst r with
  | inl errno => errno ≠ 0 ∧ view (snd r) = view os
  | inr a => Q a (view (snd r))
  end.

(** The manual pages, for a directory that holds regular files with one name each and that no
    other process changes. *)
Class PosixLaws `{PosixOps Os} (dir : string) := {
  view : Os → Fs;
  open_creat_excl os p mode :
    plain_name p = true →
    outcome view os (sys_open (data_path dir p) CREATE_FLAGS mode os) (λ fd v',
      let v := view os in
      fs_names v !! p = None ∧ fs_fds v !! fd = None ∧
      ∃ i, unused_ino i v ∧
           v' = mkFs (<[p := i]> (fs_names v)) (<[i := []]> (fs_data v))
                  (<[fd := opened i CREATE_FLAGS]> (fs_fds v)) (<[i := ∅]> (fs_attrs v)));
  open_read os p mode :
    plain_name p = true →
    outcome view os (sys_open (data_path dir p) O_RDONLY mode os) (λ fd v',
      let v := view os in
      fs_fds v !! fd = None ∧
      ∃ i, fs_names v !! p = Some i ∧ is_Some (fs_data v !! i) ∧
           v' = with_fds <[fd := opened i O_RDONLY]> v);
  unlink_name os p :
    plain_name p = true →
    outcome view os (sys_unlink (data_path dir p) os) (λ _ v', v' = with_names (delete p) (view os));
  write_fd os b fd n f bs :
    fs_fds (view os) !! fd = Some f → of_write f = true → fs_data (view os) !! of_ino f = Some bs →
    outcome view os (fst (fst (iob_cut_into_fd b fd n os)), snd (iob_cut_into_fd b fd n os))
      (λ nw v', 0 <= nw ∧
        v' = with_data <[of_ino f := write_at (of_pos f) (take (Z.to_nat nw) (iob_bytes b)) bs]>
               (with_fds <[fd := set_pos (of_pos f + nw) f]> (view os)));
  lseek_fd os fd off f :
    fs_fds (view os) !! fd = Some f →
    outcome view os (sys_lseek_set fd off os) (λ _ v',
      0 <= off ∧ v' = with_fds <[fd := set_pos off f]> (view os));
  read_fd os b fd n f bs :
    fs_fds (view os) !! fd = Some f → of_read f = true → fs_data (view os) !! of_ino f = Some bs →
    let r := iop_append_from_fd b fd n os in
    outcome view os (fst (fst r), snd r) (λ nr v',
      let got := take (Z.to_nat nr) (drop (Z.to_nat (of_pos f)) bs) in
      nr = Z.of_nat (length got) ∧ iob_bytes (snd (fst r)) = iob_bytes b ++ got ∧
      v' = with_fds <[fd := set_pos (of_pos f + nr) f]> (view os));
  fchmod_fd os fd mode f :
    fs_fds (view os) !! fd = Some f →
    outcome view os (sys_fchmod fd mode os) (λ _ v', v' = view os);
  fstat_fd os fd f bs :
    fs_fds (view os) !! fd = Some f → fs_data (view os) !! of_ino f = Some bs →
    outcome view os (sys_fstat_size fd os) (λ n v', n = Z.of_nat (length bs) ∧ v' = view os);
  fsetxattr_fd os fd key value f :
    fs_fds (view os) !! fd = Some f →
    outcome view os (sys_fsetxattr fd key value os) (λ _ v',
      v' = with_attrs <[of_ino f := <[key := value]> (attrs_of (view os) (of_ino f))]> (view os));
  fgetxattr_fd os fd key n f :
    fs_fds (view os) !! fd = Some f →
    outcome view os (sys_fgetxattr fd key n os) (λ value v',
      attrs_of (view os) (of_ino f) !! key = Some value ∧
      Z.of_nat (String.length value) <= n ∧ v' = view os);
  flistxattr_fd os fd n f :
    fs_fds (view os) !! fd = Some f →
    outcome view os (sys_flistxattr fd n os) (λ buf v',
      v' = view os ∧ Z.of_nat (String.length buf) <= n ∧
      ∃ names, buf = names_buf names ∧
               names ≡ₚ fst <$> map_to_list (attrs_of (view os) (of_ino f)));
  readdir_regular os entries p :
    sys_readdir dir os = Some entries → (p, true) ∈ entries →
    ∃ i, fs_names (view os) !! p = Some i ∧ is_Some (fs_data (view os) !! i);
}.

(** Writes to the files of the store are not short: what [BOOST_ASSERT(nw == buf_size)] checks. *)
Class PosixFullWrites `{PosixLaws Os dir} : Prop :=
  full_write os b fd nw :
    fst (fst (iob_cut_into_fd b fd (iob_size b) os)) = inr nw → nw = iob_size b.

(** What the store holds, and where handles read and write. *)
Definition files_of (v : Fs) : gmap string (list byte) :=
  omap (λ i, fs_data v !! i) (fs_names v).
Definition targets (v : Fs) (h : LocalFileHandle) (p : string) : Prop :=
  ∃ f bs, fs_fds v !! handle h = Some f ∧ of_write f = true ∧
    fs_names v !! p = Some (of_ino f) ∧ (∀ q, fs_names v !! q = Some (of_ino f) → q = p) ∧
    fs_data v !! of_ino f = Some bs ∧ of_pos f = Z.of_nat (length bs).
Definition sources (v : Fs) (h : LocalFileHandle) (p : string) : Prop :=
  ∃ f, fs_fds v !! handle h = Some f ∧ of_read f = true ∧ of_write f = false ∧
    fs_names v !! p = Some (of_ino f).

(** ** Lemmas *)
Lemma s64_id z : 0 <= z < 2 ^ 63 → s64 z = z.
Proof. intros Hz. unfold s64. rewrite Z.mod_small; lia. Qed.

Lemma s64_neg z : 2 ^ 63 <= z < 2 ^ 64 → s64 z < 0.
Proof.
  intros Hz. unfold s64. replace (z + 2 ^ 63) with (z - 2 ^ 63 + 1 * 2 ^ 64) by lia.
  rewrite Z.mod_add, Z.mod_small; lia.
Qed.

Lemma ok_errno e msg : e ≠ 0 → ok (mkStatus e msg) = false.
Proof. intros He. unfold ok. cbn. by apply Z.eqb_neq. Qed.

Lemma write_at_end l bs : write_at (Z.of_nat (length bs)) l bs = bs ++ l.
Proof.
  unfold write_at. rewrite Nat2Z.id, take_ge, drop_ge, Nat.sub_diag by lia. by rewrite app_nil_r.
Qed.

Lemma handle_eq h1 h2 : handle h1 = handle h2 → h1 = h2.
Proof. unfold handle. destruct h1, h2. cbn. by intros ->. Qed.

Lemma files_of_lookup v p : files_of v !! p = fs_names v !! p ≫= λ i, fs_data v !! i.
Proof. apply lookup_omap. Qed.

Lemma outcome_cases {Os A} (view : Os → Fs) os (r : (Z + A) * Os) Q :
  outcome view os r Q →
  (∃ e, fst r = inl e ∧ e ≠ 0 ∧ view (snd r) = view os) ∨ (∃ a, fst r = inr a ∧ Q a (view (snd r))).
Proof. unfold outcome. destruct (fst r); eauto. Qed.

(** A system call, by its two outcomes: see [outcome_cases]. *)
Ltac sys_cases H :=
  let Hs := fresh in
  pose proof H as Hs; apply wp_external;
  apply outcome_cases in Hs as [(? & Er & ? & Ev) | (? & Er & Ev)];
  cbn [fst snd] in Er, Ev; rewrite ?Er; cbv beta iota.

Lemma files_of_new v p i fs at_ :
  fs_names v !! p = None → unused_ino i v →
  files_of (mkFs (<[p := i]> (fs_names v)) (<[i := []]> (fs_data v)) fs at_) =
  <[p := []]> (files_of v).
Proof.
  intros Hp [Hi _]. apply map_eq. intros q. rewrite files_of_lookup. cbn.
  destruct (decide (q = p)) as [-> | Hne].
  - rewrite !lookup_insert_eq. cbn. by rewrite lookup_insert_eq.
  - rewrite !lookup_insert_ne by done. rewrite files_of_lookup.
    destruct (fs_names v !! q) as [j|] eqn:Ej; [|done]. cbn.
    rewrite lookup_insert_ne; [done|]. intros ->. by apply (Hi q).
Qed.

Lemma files_of_write v p i bs fs :
  fs_names v !! p = Some i → (∀ q, fs_names v !! q = Some i → q = p) →
  files_of (with_data <[i := bs]> (with_fds fs v)) = <[p := bs]> (files_of v).
Proof.
  intros Hp Hu. apply map_eq. intros q. rewrite files_of_lookup. cbn.
  destruct (decide (q = p)) as [-> | Hne].
  - rewrite Hp, lookup_insert_eq. cbn. by rewrite lookup_insert_eq.
  - rewrite lookup_insert_ne by done. rewrite files_of_lookup.
    destruct (fs_names v !! q) as [j|] eqn:Ej; [|done]. cbn.
    rewrite lookup_insert_ne; [done|]. intros ->. apply Hne. by apply Hu.
Qed.

Lemma files_of_fds v f : files_of (with_fds f v) = files_of v.
Proof. done. Qed.

Lemma files_of_unlink v p : files_of (with_names (delete p) v) = delete p (files_of v).
Proof. unfold files_of. cbn. apply omap_delete. Qed.

(** A target stays one when the descriptor table changes elsewhere. *)
Lemma targets_fds v h p fd f :
  handle h ≠ fd → targets v h p → targets (with_fds <[fd := f]> v) h p.
Proof.
  intros Hne (g & bs & Hf & Hrest). exists g, bs. split; [|done]. cbn. by rewrite lookup_insert_ne.
Qed.

Lemma targets_open v h p fd f :
  fs_fds v !! fd = None → targets v h p → targets (with_fds <[fd := f]> v) h p.
Proof.
  intros Hfd Ht. apply targets_fds; [|done]. intros <-. destruct Ht as (g & bs & Hf & _).
  by rewrite Hf in Hfd.
Qed.

Lemma targets_create v h q p fd i at_ :
  fs_names v !! p = None → fs_fds v !! fd = None → unused_ino i v → targets v h q →
  targets (mkFs (<[p := i]> (fs_names v)) (<[i := []]> (fs_data v))
             (<[fd := opened i CREATE_FLAGS]> (fs_fds v)) at_) h q.
Proof.
  intros Hp Hfd [Hi _] (f & bs & Hf & Hw & Hq & Hu & Hb & Hpos).
  assert (of_ino f ≠ i) as Hne by (intros <-; by apply (Hi q)).
  exists f, bs. cbn. split_and!; [|done| | | |done].
  - rewrite lookup_insert_ne; [done|]. intros ->. by rewrite Hf in Hfd.
  - rewrite lookup_insert_ne; [done|]. intros ->. by rewrite Hq in Hp.
  - intros q'. destruct (decide (p = q')) as [-> | Hne'].
    + rewrite lookup_insert_eq. by intros [= E].
    + rewrite lookup_insert_ne by done. apply Hu.
  - by rewrite lookup_insert_ne.
Qed.

Lemma targets_created v p fd i at_ :
  unused_ino i v →
  targets (mkFs (<[p := i]> (fs_names v)) (<[i := []]> (fs_data v))
             (<[fd := opened i CREATE_FLAGS]> (fs_fds v)) at_) (mkLocalFileHandle fd) p.
Proof.
  intros [Hi _]. exists (opened i CREATE_FLAGS), []. cbn. rewrite !lookup_insert_eq.
  split_and!; try done. intros q. destruct (decide (p = q)) as [-> | Hne]; [done|].
  rewrite lookup_insert_ne by done. intros E. by apply Hi in E.
Qed.

(** Appending at a target. *)
Lemma targets_write v h p f bs l :
  fs_fds v !! handle h = Some f → fs_names v !! p = Some (of_ino f) →
  (∀ q, fs_names v !! q = Some (of_ino f) → q = p) → of_pos f = Z.of_nat (length bs) →
  fs_data v !! of_ino f = Some bs → of_write f = true →
  let v' := with_data <[of_ino f := bs ++ l]>
              (with_fds <[handle h := set_pos (of_pos f + Z.of_nat (length l)) f]> v) in
  targets v' h p ∧ ∀ h' q, q ≠ p → targets v h' q → targets v' h' q.
Proof.
  intros Hf Hp Hu Hpos Hb Hw v'. split.
  - eexists _, (bs ++ l). cbn. rewrite lookup_insert_eq. split_and!; [done|done|done|done| |].
    + cbn. by rewrite lookup_insert_eq.
    + cbn. rewrite Hpos, length_app. lia.
  - intros h' q Hq (g & bs' & Hg & Hgw & Hgq & Hgu & Hgb & Hgp).
    assert (of_ino g ≠ of_ino f) as Hne by (intros E; rewrite E in Hgq; by apply Hq, Hu).
    exists g, bs'. cbn. split_and!; [|done|done|done| |done].
    + rewrite lookup_insert_ne; [done|]. intros E. rewrite E in Hf. congruence.
    + by rewrite lookup_insert_ne.
Qed.

Section laws.
Context `{IOBufLaws} `{!PosixOps Os} (dir : string) `{!PosixLaws dir}.
Implicit Types (os : Os) (h : LocalFileHandle).
#[local] Existing Instance local_store_ops.

(** [append] by what the write returns: it fails, writes everything, or writes less, after which
    the assertion fails. *)
Lemma append_by_write os h off b f bs :
  fs_fds (view os) !! handle h = Some f → of_write f = true →
  fs_data (view os) !! of_ino f = Some bs →
  let w := iob_cut_into_fd b (handle h) (iob_size b) os in
  let written nw := with_data <[of_ino f := write_at (of_pos f) (take (Z.to_nat nw) (iob_bytes b)) bs]>
    (with_fds <[handle h := set_pos (of_pos f + nw) f]> (view os)) in
  match fst (fst w) with
  | inl errno => view (snd w) = view os ∧ errno ≠ 0 ∧
      append (Some h) off b os = Some (mkStatus errno "failed to write to file", snd w)
  | inr nw => 0 <= nw ∧ view (snd w) = written nw ∧
      append (Some h) off b os = if nw =? iob_size b then Some (OK, snd w) else None
  end.
Proof.
  intros Hf Hw Hb. cbv zeta. unfold append, external, mbind, prog_bind.
  pose proof (write_fd os b (handle h) (iob_size b) f bs Hf Hw Hb) as Hs. unfold outcome in Hs.
  destruct (iob_cut_into_fd b (handle h) (iob_size b) os) as [[[e|nw] b'] os']; cbn [fst snd] in *.
  - by destruct Hs.
  - destruct Hs as [Hnw Ev]. split_and!; [done..|]. by destruct (nw =? iob_size b).
Qed.

Lemma local_append_wp `{!PosixFullWrites} os h off b f bs :
  fs_fds (view os) !! handle h = Some f → of_write f = true →
  fs_data (view os) !! of_ino f = Some bs →
  wp (append (Some h) off b) os (λ s os',
    if ok s then
      view os' = with_data <[of_ino f := write_at (of_pos f) (iob_bytes b) bs]>
        (with_fds <[handle h := set_pos (of_pos f + Z.of_nat (length (iob_bytes b))) f]> (view os))
    else view os' = view os).
Proof.
  intros Hf Hw Hb. pose proof (append_by_write os h off b f bs Hf Hw Hb) as Hs. cbv zeta in Hs.
  destruct (fst (fst (iob_cut_into_fd _ _ _ _))) as [e|nw] eqn:Er.
  - destruct Hs as (Ev & He & E). eapply wp_eval; [exact E|]. by rewrite ok_errno.
  - destruct Hs as (_ & Ev & E). rewrite (full_write _ _ _ _ Er), Z.eqb_refl in E.
    eapply wp_eval; [exact E|]. rewrite ok_OK, Ev, (full_write _ _ _ _ Er).
    by rewrite iob_size_spec, Nat2Z.id, take_ge by done.
Qed.

Lemma local_read_wp os h off sz buf f bs :
  fs_fds (view os) !! handle h = Some f → of_read f = true →
  fs_data (view os) !! of_ino f = Some bs → 0 <= off < 2 ^ 64 →
  wp (read (Some h) off sz (Some buf)) os (λ r os',
    (∃ pos, view os' = with_fds <[handle h := set_pos pos f]> (view os)) ∧
    if ok (fst r) then
      off < 2 ^ 63 ∧ view os' = with_fds <[handle h := set_pos (off + sz) f]> (view os) ∧
      ∃ b, snd r = Some b ∧ iob_bytes b = take (Z.to_nat sz) (drop (Z.to_nat off) bs) ∧
           sz = Z.of_nat (length (iob_bytes b))
    else snd r = Some buf).
Proof.
  intros Hf Hr Hb Hoff. cbn [read].
  assert (∃ pos, view os = with_fds <[handle h := set_pos pos f]> (view os)) as Hsame.
  { exists (of_pos f). unfold with_fds. rewrite insert_id; [by destruct (view os)|].
    rewrite Hf. by destruct f. }
  pose proof (lseek_fd os (handle h) (s64 off) f Hf) as Hs.
  apply wp_external. apply outcome_cases in Hs as [(e & Er & He & Ev) | (z & Er & Hz & Ev)]; rewrite Er.
  { eapply wp_eval; [done|]. cbn [fst snd]. by rewrite ok_errno, Ev. }
  assert (off < 2 ^ 63) as Hlt.
  { destruct (Z.lt_ge_cases off (2 ^ 63)); [done|]. pose proof (s64_neg off). lia. }
  rewrite s64_id in * by lia. set (os1 := snd (sys_lseek_set (handle h) off os)) in *.
  assert (fs_fds (view os1) !! handle h = Some (set_pos off f)) as Hf1.
  { rewrite Ev. cbn. by rewrite lookup_insert_eq. }
  assert (fs_data (view os1) !! of_ino (set_pos off f) = Some bs) as Hb1 by by rewrite Ev.
  pose proof (read_fd os1 iob_empty (handle h) sz _ bs Hf1 Hr Hb1) as Hs. cbv zeta in Hs.
  assert (∀ z, with_fds <[handle h := set_pos z (set_pos off f)]> (view os1) =
               with_fds <[handle h := set_pos z f]> (view os)) as Hpos.
  { intros y. rewrite Ev. unfold with_fds. cbn. by rewrite insert_insert_eq. }
  apply wp_external.
  apply outcome_cases in Hs as [(e & Er1 & He & Ev1) | (nr & Er1 & Hnr & Hgot & Ev1)]; cbn [fst snd] in *.
  - destruct (iop_append_from_fd _ _ _ _) as [[r b] os2]. cbn in *. subst r.
    eapply wp_eval; [done|]. cbn [fst snd]. rewrite ok_errno by done.
    split; [|done]. exists off. by rewrite Ev1.
  - destruct (iop_append_from_fd _ _ _ _) as [[r b] os2]. cbn in *. subst r.
    rewrite Hpos in Ev1. rewrite iob_bytes_empty in Hgot. cbn in Hgot.
    destruct (Z.eqb_spec nr sz) as [<-|Hne]; cbn [negb]; eapply wp_eval; try done; cbn [fst snd].
    + split; [by eexists|]. rewrite ok_OK. split_and!; [done|done|]. exists b. by rewrite Hgot.
    + split; [by eexists|]. done.
Qed.

(** A descriptor that only reads can move. *)
Lemma targets_reader v h h' p f pos :
  fs_fds v !! handle h = Some f → of_write f = false → targets v h' p →
  targets (with_fds <[handle h := set_pos pos f]> v) h' p.
Proof.
  intros Hf Hw Ht. apply targets_fds; [|done]. intros E. destruct Ht as (g & bs & Hg & Hgw & _).
  rewrite E, Hf in Hg. congruence.
Qed.

(** A file as the clients see it. *)
Lemma target_file os h p bs :
  targets (view os) h p → files_of (view os) !! p = Some bs →
  ∃ f, fs_fds (view os) !! handle h = Some f ∧ of_write f = true ∧
    fs_names (view os) !! p = Some (of_ino f) ∧
    (∀ q, fs_names (view os) !! q = Some (of_ino f) → q = p) ∧
    fs_data (view os) !! of_ino f = Some bs ∧ of_pos f = Z.of_nat (length bs).
Proof.
  intros (f & bs' & Hf & Hw & Hp & Hu & Hb & Hpos). rewrite files_of_lookup, Hp. cbn.
  rewrite Hb. intros [= ->]. by exists f.
Qed.

(** The contract of [Store.v]. *)
#[refine] Definition local_store_laws `{!PosixFullWrites} : @StoreLaws _ _ Os LocalFileHandle (local_store_ops dir) := {|
  files os := files_of (view os);
  fh_target os := targets (view os);
  fh_source os := sources (view os);
|}.
Proof.
  all: cbn [store_open store_append store_read store_seal store_size store_remove store_paths
            local_store_ops].
  - intros os p fh Hp Hnew. cbn [open]. sys_cases (open_creat_excl os p 438 Hp).
    + eapply wp_eval; [done|]. cbn [fst snd]. rewrite ok_errno, Ev by done. done.
    + destruct Ev as (Hn & Hfd & i & Hi & Ev). eapply wp_eval; [done|]. cbn [fst snd].
      rewrite ok_OK, Ev. split; [by intros ? ? ?; apply targets_create|].
      eexists. split_and!; [done|by apply targets_created|by apply files_of_new].
  - intros os p bs fh Hp Hb. cbn [open]. sys_cases (open_creat_excl os p 438 Hp).
    + eapply wp_eval; [done|]. cbn [fst snd]. by rewrite ok_errno, Ev.
    + destruct Ev as (Hn & _). by rewrite files_of_lookup, Hn in Hb.
  - intros os p fh Hp. cbn [open]. sys_cases (open_read os p 438 Hp).
    + eapply wp_eval; [done|]. cbn [fst snd]. by rewrite ok_errno, Ev.
    + destruct Ev as (Hfd & i & Hn & [bs Hb] & Ev). eapply wp_eval; [done|]. cbn [fst snd].
      rewrite ok_OK, Ev. split_and!; [by intros ? ? ?; apply targets_open|done| |].
      * rewrite files_of_lookup, Hn. cbn. by rewrite Hb.
      * eexists. split; [done|]. exists (opened i O_RDONLY). cbn. by rewrite lookup_insert_eq.
  - intros os h p bs off b Ht Hb. destruct (target_file _ _ _ _ Ht Hb) as (f & Hf & Hw & Hn & Hu & Hd & Hpos).
    eapply wp_mono; [by apply (local_append_wp _ _ _ _ f bs)|]. cbv beta. intros s os' Ev.
    destruct (ok s); rewrite Ev; [|done]. rewrite Hpos, write_at_end, <-Hpos.
    destruct (targets_write _ h p f bs (iob_bytes b) Hf Hn Hu Hpos Hd Hw) as [Ht' Hk].
    split_and!; [by intros ? ? ?; apply Hk|done|by apply files_of_write].
  - intros os h p bs off sz buf (f & Hf & Hr & Hw & Hn) Hb Hoff.
    rewrite files_of_lookup, Hn in Hb. cbn in Hb.
    eapply wp_mono; [by apply (local_read_wp _ _ _ _ _ f bs)|]. cbv beta. intros r os' [[pos Ev] Hr'].
    rewrite Ev. split_and!; [by intros ? ? ?; apply targets_reader|done|].
    intros Hok _ _ _. rewrite Hok in Hr'. destruct Hr' as (_ & _ & b & Eb & Hgot & _). by exists b.
  - intros os h p bs Ht Hb. destruct (target_file _ _ _ _ Ht Hb) as (f & Hf & _).
    cbn [seal]. sys_cases (fchmod_fd os (handle h) 292 f Hf); eapply wp_eval; try done; by rewrite Ev.
  - intros os h p bs v Ht Hb. destruct (target_file _ _ _ _ Ht Hb) as (f & Hf & _ & _ & _ & Hd & _).
    cbn [size]. sys_cases (fstat_fd os (handle h) f bs Hf Hd); eapply wp_eval; try done; cbn [fst snd].
    + rewrite Ev. split_and!; [done|done|]. by rewrite ok_errno.
    + destruct Ev as [-> ->]. done.
  - intros os p Hp. cbn [remove]. sys_cases (unlink_name os p Hp); eapply wp_eval; try done; cbn [fst snd].
    + by rewrite Ev, ok_errno.
    + rewrite Ev, ok_OK, files_of_unlink. split; [|done].
      intros h q Hq (f & bs & Hf & Hw & Hn & Hu & Hrest). exists f, bs. cbn.
      split_and!; [done|done| | |apply Hrest|apply Hrest].
      * by rewrite lookup_delete_ne.
      * intros q' [_ E]%lookup_delete_Some. by apply Hu.
  - intros os p. unfold paths. destruct (sys_readdir dir os) as [entries|] eqn:E; [|by intros ?%elem_of_nil].
    intros ([p' reg] & -> & [Hreg Hin]%list_elem_of_filter)%list_elem_of_fmap. cbn in Hreg. subst reg.
    destruct (readdir_regular os entries p' E Hin) as (i & Hn & [bs Hb]).
    cbn. rewrite files_of_lookup, Hn. cbn. by rewrite Hb.
Defined.

(** ** Where the two stores differ *)

(** A handle opened for reading and writing has one position: after a
    successful read through it, an append that succeeds goes where the read ended and overwrites
    what the file holds there. *)
Theorem append_overwrites `{!PosixFullWrites} os h p f bs off sz buf b :
  fs_fds (view os) !! handle h = Some f → of_read f = true → of_write f = true →
  fs_names (view os) !! p = Some (of_ino f) →
  (∀ q, fs_names (view os) !! q = Some (of_ino f) → q = p) →
  fs_data (view os) !! of_ino f = Some bs → 0 <= off < 2 ^ 64 →
  wp ('(s1, _) ← read (Some h) off sz (Some buf);
      s2 ← append (Some h) (Z.of_nat (length bs)) b;
      mret (ok s1, ok s2)) os (λ r os',
    r = (true, true) →
    files_of (view os') = <[p := write_at (off + sz) (iob_bytes b) bs]> (files_of (view os))).
Proof.
  intros Hf Hr Hw Hn Hu Hb Hoff. apply wp_bind. eapply wp_mono; [by apply (local_read_wp _ _ _ _ _ f bs)|].
  intros [s1 r1] os1 [[pos Ev] Hr1]. cbn [fst snd] in Hr1. cbv beta iota. apply wp_bind.
  eapply wp_mono.
  { apply (local_append_wp os1 h _ b (set_pos pos f) bs); [|done|]; rewrite Ev; cbn; [|done].
    by rewrite lookup_insert_eq. }
  cbv beta. intros s2 os2 Hs2. eapply wp_eval; [done|]. intros [= E1 E2]. rewrite E1 in Hr1.
  rewrite E2 in Hs2. destruct Hr1 as (_ & Ev' & _). rewrite Ev' in Ev.
  assert (pos = off + sz) as ->.
  { apply (f_equal (λ v, of_pos <$> fs_fds v !! handle h)) in Ev. cbn in Ev.
    rewrite !lookup_insert_eq in Ev. by injection Ev. }
  rewrite Hs2, Ev'. cbn [of_ino set_pos of_pos]. rewrite files_of_write with (p := p); done.
Qed.

(** The names in the buffer. *)
Lemma c_str_app n rest : c_str n = None → c_str (n +:+ String Ascii.zero rest) = Some n.
Proof.
  induction n as [|c n IH]; intros Hn; [done|].
  change (String c n +:+ String Ascii.zero rest) with (String c (n +:+ String Ascii.zero rest)).
  cbn [c_str] in *. destruct (Ascii.eqb c Ascii.zero); [done|].
  destruct (c_str n); [done|]. by rewrite IH.
Qed.

Lemma names_buf_app l1 l2 : names_buf (l1 ++ l2) = names_buf l1 +:+ names_buf l2.
Proof.
  induction l1 as [|n l1 IH]; [done|]. cbn [names_buf foldr app]. fold (names_buf (l1 ++ l2)).
  fold (names_buf l1). rewrite IH, str_app_assoc. done.
Qed.

Lemma names_buf_length_snoc l n :
  String.length (names_buf (l ++ [n])) = (String.length (names_buf l) + String.length n + 1)%nat.
Proof.
  rewrite names_buf_app, str_length_app. cbn [names_buf foldr].
  rewrite str_length_app. cbn. lia.
Qed.

(** Looking up an attribute that is not there. *)
Lemma get_attr_missing os h f key v :
  fs_fds (view os) !! handle h = Some f → attrs_of (view os) (of_ino f) !! key = None →
  wp (get_attr (Some h) (Some key) (Some v)) os (λ r os',
    ok (fst r) = false ∧ view os' = view os).
Proof.
  intros Hf Hno. cbn [get_attr]. sys_cases (fgetxattr_fd os (handle h) key 1024 f Hf).
  - eapply wp_eval; [done|]. cbn [fst]. by rewrite ok_errno.
  - destruct Ev as (E & _). by rewrite E in Hno.
Qed.

Lemma get_attr_view os h f key v :
  fs_fds (view os) !! handle h = Some f →
  wp (get_attr (Some h) (Some key) (Some v)) os (λ _ os', view os' = view os).
Proof.
  intros Hf. cbn [get_attr]. sys_cases (fgetxattr_fd os (handle h) key 1024 f Hf).
  - by eapply wp_eval.
  - destruct Ev as (_ & _ & Ev). by eapply wp_eval.
Qed.

Section list_attrs.
Context (h : LocalFileHandle) (f : OpenFile) (v0 : Fs) (key_of : string → string).
Context (h_open : fs_fds v0 !! handle h = Some f).
Abbreviation A := (attrs_of v0 (of_ino f)).
(** The value of every attribute, in the buffer it is read into, is a C string. *)
Context (readable : ∀ k v, A !! k = Some v →
  c_str k = None ∧ ∀ os : Os, c_str (overwritten v (os_stack os)) = Some (key_of v)).

Lemma list_attrs_loop_fails names seen fuel m os :
  view os = v0 → (∀ k, k ∈ names → is_Some (A !! k)) →
  (∃ k v, k ∈ names ∧ A !! k = Some v ∧ A !! key_of v = None) →
  (length names <= fuel)%nat →
  wp (list_attrs_loop fuel h (names_buf (seen ++ names)) (String.length (names_buf seen)) m) os
    (λ r os', ok (fst r) = false ∧ view os' = v0).
Proof.
  revert seen fuel m os. induction names as [|n names IH]; intros seen fuel m os Hv Hin Hbad Hfuel.
  { destruct Hbad as (k & v & Hk & _). by apply elem_of_nil in Hk. }
  destruct fuel as [|fuel]; [cbn in Hfuel; lia|]. cbn [list_attrs_loop].
  destruct (Hin n) as [w Hw]; [left|]. destruct (readable n w Hw) as [Hn Hkey].
  assert ((String.length (names_buf seen) <? String.length (names_buf (seen ++ n :: names)))%nat = true) as ->.
  { apply Nat.ltb_lt. rewrite names_buf_app, str_length_app. cbn [names_buf foldr].
    rewrite str_length_app. cbn. lia. }
  assert (deref_str (str_drop (String.length (names_buf seen)) (names_buf (seen ++ n :: names))) os =
          Some (n, os)) as Hd.
  { rewrite names_buf_app, str_drop_app. unfold deref_str. cbn [names_buf foldr].
    by rewrite c_str_app. }
  eapply wp_step; [exact Hd|].
  assert (fs_fds (view os) !! handle h = Some f) as Hf by by rewrite Hv.
  sys_cases (fgetxattr_fd os (handle h) n 1024 f Hf); rewrite Hv in Ev.
  { eapply wp_eval; [done|]. cbn [fst]. by rewrite ok_errno. }
  destruct Ev as (Ew & _ & Ev). rewrite Hw in Ew. injection Ew as <-.
  set (os1 := snd (sys_fgetxattr (handle h) n 1024 os)) in *.
  eapply wp_step; [done|]. cbv beta. unfold deref_str at 1. rewrite Hkey.
  eapply wp_step; [done|]. apply wp_bind. destruct (A !! key_of w) as [w'|] eqn:Ekey.
  - eapply wp_mono; [apply (get_attr_view os1 h f); by rewrite Ev|]. cbv beta.
    rewrite Ev. intros [s value] os2 Ev2. cbv iota. destruct (ok s) eqn:Es; cbn [negb].
    2: { by eapply wp_eval. }
    rewrite <-names_buf_length_snoc. rewrite (app_assoc seen [n] names : seen ++ n :: names = _).
    apply IH; [done|intros k Hk; apply Hin; by right| |cbn in Hfuel; lia].
    destruct Hbad as (k & v & Hk & Hkv & Hno). exists k, v. split_and!; [|done|done].
    apply elem_of_cons in Hk as [-> | Hk]; [|done]. rewrite Hw in Hkv. injection Hkv as <-. congruence.
  - eapply wp_mono; [apply (get_attr_missing os1 h f); by rewrite Ev|]. cbv beta.
    rewrite Ev. intros [s value] os2 [Es Ev2]. cbn [fst] in Es. cbv iota. rewrite Es. cbn [negb].
    by eapply wp_eval.
Qed.
End list_attrs.

(** [list_attrs] takes the value of each attribute for the name of one: as
    soon as a file has an attribute whose value does not name an attribute of the file,
    listing fails. *)
Theorem list_attrs_by_value os h f m (key_of : string → string) :
  let A := attrs_of (view os) (of_ino f) in
  fs_fds (view os) !! handle h = Some f →
  (∀ k v, A !! k = Some v →
     c_str k = None ∧ ∀ os' : Os, c_str (overwritten v (os_stack os')) = Some (key_of v)) →
  (∃ k v, A !! k = Some v ∧ A !! key_of v = None) →
  wp (list_attrs (Some h) (Some m)) os (λ r os', ok (fst r) = false ∧ view os' = view os).
Proof.
  intros A Hf Hread (k & v & Hk & Hno). cbn [list_attrs].
  sys_cases (flistxattr_fd os (handle h) 1024 f Hf).
  { eapply wp_eval; [done|]. cbn [fst]. by rewrite ok_errno. }
  destruct Ev as (Ev & _ & names & -> & Hnames). apply wp_bind.
  eapply wp_mono; [apply (list_attrs_loop_fails h f (view os) key_of Hf Hread names [])|].
  - done.
  - intros k' Hk'. rewrite Hnames in Hk'. apply list_elem_of_fmap in Hk' as ([k2 v2] & -> & E).
    apply elem_of_map_to_list in E. by exists v2.
  - exists k, v. split_and!; [|done|done]. rewrite Hnames. apply list_elem_of_fmap.
    exists (k, v). split; [done|]. by apply elem_of_map_to_list.
  - clear. induction names as [|n names IH]; [done|]. cbn [names_buf foldr length].
    rewrite str_length_app. fold (names_buf names). cbn. lia.
  - cbv beta. intros [s m'] os' Hs. by eapply wp_eval.
Qed.

(** C5: As long as no write is short, the store on a directory implements the contract of chunk
    stores, the files it holds being those of the directory, with the bytes of their inodes; a handle
    appends to a file when it is the write descriptor that stands at the end of it. A write may
    be short, though: whatever the write of an append through such a handle returns, the append
    adds the bytes and succeeds when all of them were written, and returns the error and adds
    nothing when the call failed; when only some were written these have been added to the
    file, and the assertion of the append fails. *)
Theorem local_store_contract :
  (PosixFullWrites →
   ∃ contract : StoreLaws Os LocalFileHandle (StoreOps0 := local_store_ops dir),
    (∀ os p, files (StoreLaws := contract) os !! p =
             fs_names (view os) !! p ≫= λ i, fs_data (view os) !! i) ∧
    (∀ os h p, fh_target (StoreLaws := contract) os h p ↔ targets (view os) h p) ∧
    (∀ os h p, fh_source (StoreLaws := contract) os h p ↔ sources (view os) h p)) ∧
  (∀ os h p bs off b,
    targets (view os) h p → files_of (view os) !! p = Some bs →
    let w := iob_cut_into_fd b (handle h) (iob_size b) os in
    match fst (fst w) with
    | inl errno => files_of (view (snd w)) = files_of (view os) ∧
        append (Some h) off b os = Some (mkStatus errno "failed to write to file", snd w)
    | inr nw =>
        files_of (view (snd w)) = <[p := bs ++ take (Z.to_nat nw) (iob_bytes b)]> (files_of (view os)) ∧
        append (Some h) off b os = if nw =? iob_size b then Some (OK, snd w) else None
    end).
Proof.
  split.
  - intros Hfull. exists local_store_laws. split_and!; [|done|done]. intros os p. cbn. apply files_of_lookup.
  - intros os h p bs off b Ht Hb. cbv zeta.
    destruct (target_file _ _ _ _ Ht Hb) as (f & Hf & Hw & Hn & Hu & Hd & Hpos).
    pose proof (append_by_write os h off b f bs Hf Hw Hd) as Hs. cbv zeta in Hs.
    destruct (fst (fst (iob_cut_into_fd _ _ _ _))) as [e|nw].
    + destruct Hs as (-> & _ & E). done.
    + destruct Hs as (_ & -> & E). split; [|done]. rewrite Hpos, write_at_end, <-Hpos.
      by apply files_of_write.
Qed.
End laws.

(** ** A file system with one directory *)
Module DirFs.
Section dir_fs.
Context `{IOBufLaws} (dir : string).

Definition inos (v : Fs) : gset positive :=
  list_to_set ((snd <$> map_to_list (fs_names v)) ++ (of_ino ∘ snd <$> map_to_list (fs_fds v))).
Definition new_ino (v : Fs) : positive := fresh (inos v).
Definition new_fd (v : Fs) : Z := fresh ({[0]} ∪ dom (fs_fds v)).

Definition open_name (p : string) (flags : Z) (v : Fs) : (Z + Z) * Fs :=
  let fd := new_fd v in
  match fs_names v !! p with
  | Some i =>
      if flag_set flags O_EXCL then (inl EEXIST, v) else
      match fs_data v !! i with
      | None => (inl EIO, v)
      | Some _ => (inr fd, with_fds <[fd := opened i flags]> v)
      end
  | None =>
      if negb (flag_set flags O_CREAT) then (inl ENOENT, v) else
      let i := new_ino v in
      (inr fd, mkFs (<[p := i]> (fs_names v)) (<[i := []]> (fs_data v))
                 (<[fd := opened i flags]> (fs_fds v)) (<[i := ∅]> (fs_attrs v)))
  end.

(** A call on an entry of the directory, and one on an open descriptor. *)
Definition on_name {A} (path : string) (c : string → Fs → (Z + A) * Fs) (v : Fs) : (Z + A) * Fs :=
  match strip_prefix (dir +:+ "/") path with None => (inl ENOENT, v) | Some p => c p v end.
Definition on_fd {A} (fd : Z) (c : OpenFile → Fs → (Z + A) * Fs) (v : Fs) : (Z + A) * Fs :=
  match fs_fds v !! fd with None => (inl EINVAL, v) | Some f => c f v end.
Definition on_data {A} (f : OpenFile) (c : list byte → Fs → (Z + A) * Fs) (v : Fs) : (Z + A) * Fs :=
  match fs_data v !! of_ino f with None => (inl EIO, v) | Some bs => c bs v end.

#[export] Instance ops : PosixOps Fs := {|
  sys_mkdir _ _ v := (inr tt, v);
  sys_open path flags _ := on_name path (λ p, open_name p flags);
  sys_close fd v := (inr tt, with_fds (delete fd) v);
  sys_lseek_set fd off := on_fd fd (λ f v,
    if off <? 0 then (inl EINVAL, v) else (inr off, with_fds <[fd := set_pos off f]> v));
  sys_fchmod fd _ := on_fd fd (λ _ v, (inr tt, v));
  sys_fstat_size fd := on_fd fd (λ f, on_data f (λ bs v, (inr (Z.of_nat (length bs)), v)));
  sys_unlink path := on_name path (λ p v,
    match fs_names v !! p with
    | None => (inl ENOENT, v) | Some _ => (inr tt, with_names (delete p) v) end);
  sys_fsetxattr fd key value := on_fd fd (λ f v,
    (inr tt, with_attrs <[of_ino f := <[key := value]> (attrs_of v (of_ino f))]> v));
  sys_fgetxattr fd key n := on_fd fd (λ f v,
    match attrs_of v (of_ino f) !! key with
    | Some value => if Z.of_nat (String.length value) <=? n then (inr value, v) else (inl EINVAL, v)
    | None => (inl ENOENT, v)
    end);
  sys_flistxattr fd n := on_fd fd (λ f v,
    let buf := names_buf (fst <$> map_to_list (attrs_of v (of_ino f))) in
    if Z.of_nat (String.length buf) <=? n then (inr buf, v) else (inl EINVAL, v));
  sys_readdir d v :=
    if bool_decide (d = dir)
    then Some ((λ e, (fst e, bool_decide (is_Some (fs_data v !! snd e)))) <$> map_to_list (fs_names v))
    else None;
  iob_cut_into_fd b fd n v :=
    let '(l, rest) := iob_cutn_raw b n in
    let '(r, v) := on_fd fd (λ f, on_data f (λ bs v,
      (inr (Z.of_nat (length l)),
       with_data <[of_ino f := write_at (of_pos f) l bs]>
         (with_fds <[fd := set_pos (of_pos f + Z.of_nat (length l)) f]> v)))) v in
    ((r, rest), v);
  iop_append_from_fd b fd n v :=
    let got := match fs_fds v !! fd with
               | None => []
               | Some f => take (Z.to_nat n) (drop (Z.to_nat (of_pos f))
                             (default [] (fs_data v !! of_ino f)))
               end in
    let '(r, v) := on_fd fd (λ f, on_data f (λ bs v,
      (inr (Z.of_nat (length got)),
       with_fds <[fd := set_pos (of_pos f + Z.of_nat (length got)) f]> v))) v in
    ((r, iob_append_raw b got), v);
  os_stack _ := Nat.iter 1024 (String Ascii.zero) "";
|}.

Lemma on_name_path {A} p (c : string → Fs → (Z + A) * Fs) v :
  on_name (data_path dir p) c v = c p v.
Proof.
  unfold on_name, data_path. destruct (strip_prefix (dir +:+ "/") (dir +:+ ("/" +:+ p))) as [q|] eqn:E.
  - apply strip_prefix_spec in E. rewrite str_app_assoc in E. by apply str_app_inj_l, str_app_inj_l in E as ->.
  - pose proof (proj2 (strip_prefix_spec (dir +:+ "/") (dir +:+ ("/" +:+ p)) p)) as Hs.
    rewrite E in Hs. discriminate Hs. by rewrite str_app_assoc.
Qed.

Lemma new_ino_unused v : unused_ino (new_ino v) v.
Proof.
  pose proof (is_fresh (inos v)) as Hf. unfold inos in Hf. fold (new_ino v) in Hf. unfold inos in Hf.
  rewrite elem_of_list_to_set, elem_of_app in Hf. split.
  - intros p E. apply Hf. left. apply list_elem_of_fmap. exists (p, new_ino v). split; [done|].
    by apply elem_of_map_to_list.
  - intros fd f E Ei. apply Hf. right. apply list_elem_of_fmap. exists (fd, f). cbn. split; [by rewrite Ei|].
    by apply elem_of_map_to_list.
Qed.

Lemma new_fd_free v : fs_fds v !! new_fd v = None.
Proof.
  pose proof (is_fresh ({[0]} ∪ dom (fs_fds v))) as Hf. fold (new_fd v) in Hf.
  apply not_elem_of_dom. set_solver.
Qed.

#[export, refine] Instance laws : PosixLaws dir := {| view v := v |}.
Proof.
  - intros v p mode _. unfold outcome. cbn [sys_open ops]. rewrite on_name_path. unfold open_name.
    replace (flag_set CREATE_FLAGS O_EXCL) with true by done.
    replace (flag_set CREATE_FLAGS O_CREAT) with true by done. cbn [negb].
    destruct (fs_names v !! p) as [i|] eqn:E; cbn [fst snd]; [done|].
    split_and!; [done|apply new_fd_free|]. exists (new_ino v). split; [apply new_ino_unused|done].
  - intros v p mode _. unfold outcome. cbn [sys_open ops]. rewrite on_name_path. unfold open_name.
    replace (flag_set O_RDONLY O_EXCL) with false by done.
    replace (flag_set O_RDONLY O_CREAT) with false by done. cbn [negb].
    destruct (fs_names v !! p) as [i|] eqn:E; cbn [fst snd]; [|done].
    destruct (fs_data v !! i) as [bs|] eqn:Eb; cbn [fst snd]; [|done].
    split; [apply new_fd_free|]. exists i. split_and!; [done|by rewrite Eb|done].
  - intros v p _. unfold outcome. cbn [sys_unlink ops]. rewrite on_name_path.
    by destruct (fs_names v !! p).
  - intros v b fd n f bs Hf Hw Hb. unfold outcome. cbn [iob_cut_into_fd ops].
    pose proof (iob_cutn_raw_fst b n) as Hl. destruct (iob_cutn_raw b n) as [l rest]. cbn [fst] in Hl.
    unfold on_fd, on_data. rewrite Hf, Hb. cbn [fst snd]. split; [lia|]. subst l.
    by rewrite Nat2Z.id, take_length_take.
  - intros v fd off f Hf. unfold outcome. cbn [sys_lseek_set ops]. unfold on_fd. rewrite Hf.
    destruct (Z.ltb_spec off 0); cbn [fst snd]; done.
  - intros v b fd n f bs Hf Hr Hb. unfold outcome. cbn [iop_append_from_fd ops]. cbv zeta.
    unfold on_fd, on_data. rewrite Hf, Hb. cbn [fst snd default].
    change (id bs) with bs. rewrite Nat2Z.id, take_length_take.
    split_and!; [done|apply iob_bytes_append_raw|done].
  - intros v fd mode f Hf. unfold outcome. cbn [sys_fchmod ops]. unfold on_fd. by rewrite Hf.
  - intros v fd f bs Hf Hb. unfold outcome. cbn [sys_fstat_size ops]. unfold on_fd, on_data.
    by rewrite Hf, Hb.
  - intros v fd key value f Hf. unfold outcome. cbn [sys_fsetxattr ops]. unfold on_fd. by rewrite Hf.
  - intros v fd key n f Hf. unfold outcome. cbn [sys_fgetxattr ops]. unfold on_fd. rewrite Hf.
    destruct (attrs_of v (of_ino f) !! key) as [value|]; [|done].
    by destruct (Z.leb_spec (Z.of_nat (String.length value)) n).
  - intros v fd n f Hf. unfold outcome. cbn [sys_flistxattr ops]. unfold on_fd. rewrite Hf. cbv zeta.
    destruct (Z.leb_spec (Z.of_nat (String.length (names_buf (fst <$> map_to_list (attrs_of v (of_ino f)))))) n);
      cbn [fst snd]; [|done]. split_and!; [done|done|]. by eexists.
  - intros v entries p. cbn [sys_readdir ops]. rewrite bool_decide_eq_true_2 by done.
    intros [= <-] ([q i] & E & Hin)%list_elem_of_fmap. cbn in E. injection E as -> Hd.
    symmetry in Hd. apply bool_decide_eq_true in Hd. apply elem_of_map_to_list in Hin.
    by exists i.
Defined.

#[export] Instance full : PosixFullWrites (dir := dir).
Proof.
  intros v b fd nw. cbn [iob_cut_into_fd ops]. pose proof (iob_cutn_raw_fst b (iob_size b)) as Hl.
  destruct (iob_cutn_raw b (iob_size b)) as [l rest]. cbn [fst] in Hl. unfold on_fd, on_data.
  destruct (fs_fds v !! fd) as [f|]; [|done]. destruct (fs_data v !! of_ino f); [|done].
  cbn. intros [= <-]. rewrite Hl, iob_size_spec, Nat2Z.id, take_ge; [done|lia].
Qed.
End dir_fs.
End DirFs.

(** *** Witnesses *)
Module Witness.
#[local] Existing Instances ListIOBuf.ops ListIOBuf.laws.
#[local] Instance dir_ops : PosixOps Fs := DirFs.ops "data".
#[local] Instance dir_laws : PosixLaws "data" := DirFs.laws "data".
#[local] Instance dir_full : PosixFullWrites := DirFs.full "data".

(** A directory with the file "c" that holds "ab" and has the attribute "k" with value "v",
    open for reading and writing on descriptor 3. *)
Definition fs0 : Fs := mkFs {["c" := 1%positive]} {[1%positive := [Byte.x61; Byte.x62]]}
  {[3 := mkOpenFile 1 2 true true]} {[1%positive := {["k" := "v"]}]}.
Definition fh0 : LocalFileHandle := mkLocalFileHandle 3.
Definition buf_c : @IOBuf ListIOBuf.ops := ([Byte.x63] : list byte).

Lemma fs0_only q : fs_names fs0 !! q = Some 1%positive → q = "c".
Proof. cbn. rewrite lookup_singleton_Some. by intros [-> _]. Qed.

(** The chunk "c" is among the files of the store. *)
Lemma local_store_contract_witness :
  ∃ contract : StoreLaws Fs LocalFileHandle (StoreOps0 := local_store_ops "data"),
    files (StoreLaws := contract) fs0 !! "c" = Some [Byte.x61; Byte.x62].
Proof.
  destruct (proj1 (local_store_contract (Os := Fs) "data") dir_full) as (contract & Hf & _).
  exists contract. rewrite Hf. reflexivity.
Defined.

(** Reading "a" and appending "c" leaves "ac". *)
Lemma append_overwrites_witness :
  wp ('(s1, _) ← read (Some fh0) 0 1 (Some iob_empty); s2 ← append (Some fh0) 2 buf_c;
      mret (ok s1, ok s2)) fs0 (λ r os',
    r = (true, true) → files_of os' !! "c" = Some [Byte.x61; Byte.x63]).
Proof.
  pose proof (append_overwrites "data" fs0 fh0 "c" (mkOpenFile 1 2 true true) [Byte.x61; Byte.x62]
                0 1 iob_empty buf_c) as Hw.
  cbv beta zeta in Hw.
  eapply wp_mono; [apply Hw; try done; [apply fs0_only]|].
  cbv beta. intros r os' Hr E. apply Hr, (f_equal (lookup "c")) in E. etransitivity; [exact E|]. reflexivity.
Defined.

Lemma fs0_attrs k v : attrs_of fs0 1 !! k = Some v → k = "k" ∧ v = "v".
Proof. change (attrs_of fs0 1) with ({["k" := "v"]} : gmap string string). by intros [-> ->]%lookup_singleton_Some. Qed.

(** Listing the attributes of "c" asks for an attribute "v", which it has not. *)
Lemma list_attrs_by_value_witness :
  wp (list_attrs (Some fh0) (Some ∅)) fs0 (λ r _, ok (fst r) = false).
Proof.
  pose proof (list_attrs_by_value "data" fs0 fh0 (mkOpenFile 1 2 true true) ∅ (λ _, "v")) as Hw.
  cbv beta zeta in Hw. eapply wp_mono; [apply Hw|].
  - done.
  - intros k v Hk. destruct (fs0_attrs k v Hk) as [-> ->]. by split.
  - by exists "k", "v".
  - by intros r os' [E _].
Defined.
End Witness.
End LocalStore.
