(* ===== verification/Chunk.v ===== *)
(** * Chunks ([src/manusya/chunk.h], [src/manusya/chunk.cc])

    A chunk is an append-only file. An append ahead of the end of the file parks its caller in
    a queue ordered by offset until the gap is filled or a timer fires. The model keeps with
    each chunk the [AppendRequest] objects it allocated, the timers registered for them and the
    bthreads blocked on their promises; every operation runs under the chunk's mutex, so the
    interleavings are the sequences of [Op]s below. *)
From S2P Require Import Prelude Bytes Iobuf Uuid Future Store.
Set Default Goal Selector "!".
Local Open Scope Z_scope.

Module Chunk.

Inductive ChunkState := kInit | kOpen | kSealed.
#[export] Instance ChunkState_eq_dec : EqDecision ChunkState.
Proof. solve_decision. Defined.

(** [struct ChunkOptions {}]. *)
Record ChunkOptions := mkChunkOptions { }.

(** A [StorePtr] argument: null, or the store of the state. *)
Definition StorePtr := option unit.

Section chunk.
Context `{IOBufOps} `{UuidOps} {St FH : Type} `{!StoreOps St FH}.
(** What moving out of a status leaves behind. *)
Context (moved : Status → Status).

Record AppendRequest := mkAppendRequest {
  rq_offset : Z;
  rq_buf : IOBuf;
  rq_promise : FutureState Status;
  use_count : Z;
}.

(** [_append_request_queue] lists the addresses of the linked requests. The last four fields
    are the heap of requests and the control state attached to them. *)
Record Chunk := mkChunk {
  _uuid : UUID;
  _size : Z;
  _state : ChunkState;
  _options : ChunkOptions;
  _fh : option FH;
  _append_request_queue : list positive;
  requests : gmap positive AppendRequest;
  next_rq : positive;
  timers : gset positive;        (* registered and not fired *)
  waiters : gset positive;       (* callers inside [promise.get_future().get()] *)
}.

Record World := mkWorld { store : St; chunk : Chunk }.

Definition set_store (st : St) (w : World) : World := mkWorld st (chunk w).
Definition on_chunk (f : Chunk → Chunk) (w : World) : World := mkWorld (store w) (f (chunk w)).

Definition set_size z c := mkChunk (_uuid c) z (_state c) (_options c) (_fh c)
  (_append_request_queue c) (requests c) (next_rq c) (timers c) (waiters c).
Definition set_state s c := mkChunk (_uuid c) (_size c) s (_options c) (_fh c)
  (_append_request_queue c) (requests c) (next_rq c) (timers c) (waiters c).
Definition set_fh h c := mkChunk (_uuid c) (_size c) (_state c) (_options c) h
  (_append_request_queue c) (requests c) (next_rq c) (timers c) (waiters c).
Definition set_queue q c := mkChunk (_uuid c) (_size c) (_state c) (_options c) (_fh c)
  q (requests c) (next_rq c) (timers c) (waiters c).
Definition set_requests r c := mkChunk (_uuid c) (_size c) (_state c) (_options c) (_fh c)
  (_append_request_queue c) r (next_rq c) (timers c) (waiters c).
Definition set_next_rq n c := mkChunk (_uuid c) (_size c) (_state c) (_options c) (_fh c)
  (_append_request_queue c) (requests c) n (timers c) (waiters c).
Definition set_timers t c := mkChunk (_uuid c) (_size c) (_state c) (_options c) (_fh c)
  (_append_request_queue c) (requests c) (next_rq c) t (waiters c).
Definition set_waiters t c := mkChunk (_uuid c) (_size c) (_state c) (_options c) (_fh c)
  (_append_request_queue c) (requests c) (next_rq c) (timers c) t.

Definition set_promise (p : FutureState Status) (r : AppendRequest) : AppendRequest :=
  mkAppendRequest (rq_offset r) (rq_buf r) p (use_count r).
Definition set_use_count (n : Z) (r : AppendRequest) : AppendRequest :=
  mkAppendRequest (rq_offset r) (rq_buf r) (rq_promise r) n.

(** A call on the store, on the part of the state that holds it. *)
Definition on_store {A} (p : Prog St A) : Prog World A := zoom store set_store p.

(** *** Requests *)

(** Dereferencing a request; a freed one does not return. *)
Definition rq_at (id : positive) : Prog World AppendRequest :=
  w ← get; match requests (chunk w) !! id with None => abort | Some r => mret r end.

Definition rq_update (f : AppendRequest → AppendRequest) (id : positive) : Prog World unit :=
  r ← rq_at id; modify (on_chunk (λ c, set_requests (<[id := f r]> (requests c)) c)).

(** [unlink()] of the auto-unlink hook: nothing when the request is not linked. *)
Definition rq_unlink (id : positive) : Prog World unit :=
  modify (on_chunk (λ c, set_queue (filter (λ x, x ≠ id) (_append_request_queue c)) c)).

Definition rq_add_ref (id : positive) : Prog World unit :=
  rq_update (λ r, set_use_count (use_count r + 1) r) id.

(** [intrusive_ptr_release]: the destructor of the hook unlinks. *)
Definition rq_release (id : positive) : Prog World unit :=
  rq_update (λ r, set_use_count (use_count r - 1) r) id;;
  r ← rq_at id;
  if use_count r =? 0
  then rq_unlink id;; modify (on_chunk (λ c, set_requests (delete id (requests c)) c))
  else mret tt.

Definition rq_is_ready (id : positive) : Prog World bool :=
  r ← rq_at id; mret (available (rq_promise r)).

(** [rq->promise.set_value(status)]. *)
Definition rq_set_value (status : Status) (id : positive) : Prog World unit :=
  r ← rq_at id;
  match set_value status (rq_promise r) with
  | None => abort
  | Some (_, p) => rq_update (set_promise p) id
  end.

(** [AppendRequestPtr rq(new AppendRequest())], with its fields. *)
Definition new_request (offset : Z) (buf : IOBuf) : Prog World positive :=
  c ← gets chunk;
  let id := next_rq c in
  modify (on_chunk (λ c, set_next_rq (Pos.succ id)
            (set_requests (<[id := mkAppendRequest offset buf kFuture 1]> (requests c)) c)));;
  mret id.

Definition offset_in (c : Chunk) (id : positive) : Z :=
  match requests c !! id with Some r => rq_offset r | None => 0 end.

(** [boost::intrusive::set::insert]: an equal key already present prevents the insertion. *)
Fixpoint queue_insert {A} (key : A → Z) (id : A) (q : list A) : list A :=
  match q with
  | [] => [id]
  | x :: q' =>
      if key id <? key x then id :: q
      else if key x <? key id then x :: queue_insert key id q'
      else q
  end.

Definition rq_insert (id : positive) : Prog World unit :=
  modify (on_chunk (λ c, set_queue (queue_insert (offset_in c) id (_append_request_queue c)) c)).

(** The two messages built with [std::format]. *)
Definition invalid_offset (offset length size : Z) : Status :=
  mkStatus EINVAL ("invalid offset at " +:+ fmt_u offset +:+ "@" +:+ fmt_u length +:+
                   ", current size:" +:+ fmt_u size).
Definition out_of_range (offset length size : Z) : Status :=
  mkStatus EINVAL ("read out of range, offset:" +:+ fmt_u offset +:+ ", size:" +:+ fmt_u length +:+
                   ", current size:" +:+ fmt_u size).

(** [_size += n]. *)
Definition add_size (n : Z) : Prog World unit :=
  modify (on_chunk (λ c, set_size (u64 (_size c + n)) c)).

(** *** Operations *)

(** [if (!rq->promise.is_ready()) { rq->promise.set_value(status); }]. *)
Definition rq_fulfil (status : Status) (id : positive) : Prog World unit :=
  ready ← rq_is_ready id;
  if negb ready then rq_set_value status id else mret tt.

(** The [while] loop of [append]. Every iteration but the last unlinks a request, so the
    length of the queue is enough fuel; running out of it would be a failure. *)
Fixpoint drain (fuel : nat) : Prog World unit :=
  c ← gets chunk;
  match _append_request_queue c with
  | [] => mret tt
  | id :: _ =>
    match fuel with
    | O => abort
    | S fuel =>
      rq ← rq_at id;
      if rq_offset rq <? _size c then
        rq_unlink id;;
        rq_fulfil (invalid_offset (rq_offset rq) (iob_size (rq_buf rq)) (_size c)) id;;
        drain fuel
      else if rq_offset rq =? _size c then
        status ← on_store (fh_append (_fh c) (rq_offset rq) (rq_buf rq));
        (if ok status then add_size (iob_size (rq_buf rq)) else mret tt);;
        rq_unlink id;;
        rq_fulfil status id;;
        drain fuel
      else mret tt
    end
  end.

(** An append returns a status or leaves its caller blocked on the promise of a request. *)
Inductive AppendResult :=
| Returned (status : Status)
| Parked (id : positive).

(** [Chunk::append] up to its return or to [promise.get_future().get()]. *)
Definition append (buf : IOBuf) (offset : Z) : Prog World AppendResult :=
  c ← gets chunk;
  if decide (_state c = kSealed) then mret (Returned (mkStatus EPERM "chunk is sealed")) else
  if offset <? _size c
  then mret (Returned (invalid_offset offset (iob_size buf) (_size c))) else
  if negb (offset =? _size c) then
    rq ← new_request offset buf;
    rq_add_ref rq;;
    modify (on_chunk (λ c, set_timers ({[rq]} ∪ timers c) c));;
    rq_insert rq;;
    modify (on_chunk (λ c, set_waiters ({[rq]} ∪ waiters c) c));;
    mret (Parked rq)
  else
    status ← on_store (fh_append (_fh c) offset buf);
    if negb (ok status) then mret (Returned status) else
    add_size (iob_size buf);;
    drain (length (_append_request_queue c));;
    mret (Returned OK).

(** The callback of [bthread_timer_add]; a timer fires once. *)
Definition on_timer (id : positive) : Prog World unit :=
  modify (on_chunk (λ c, set_timers (timers c ∖ {[id]}) c));;
  ready ← rq_is_ready id;
  if (ready : bool) then mret tt else
  rq_unlink id;;
  rq ← rq_at id;
  c ← gets chunk;
  rq_set_value (invalid_offset (rq_offset rq) (iob_size (rq_buf rq)) (_size c)) id;;
  rq_release id.

(** The rest of a parked [append]: the value of the future once it is available, then the
    destructor of the local [AppendRequestPtr]. *)
Definition wake (id : positive) : Prog World (GetResult Status) :=
  rq ← rq_at id;
  match state_get moved (rq_promise rq) with
  | None => abort
  | Some (Blocked, _) => mret Blocked
  | Some (r, p) =>
      rq_update (set_promise p) id;;
      modify (on_chunk (λ c, set_waiters (waiters c ∖ {[id]}) c));;
      rq_release id;;
      mret r
  end.

(** [Chunk::query_and_seal]. *)
Definition query_and_seal (length : option Z) : Prog World (Status * option Z) :=
  match length with
  | None => mret (mkStatus EINVAL "length is nullptr", length)
  | Some _ =>
      c ← gets chunk;
      status ← on_store (fh_seal (_fh c));
      if negb (ok status) then mret (status, length) else
      '(status, length) ← on_store (fh_size (_fh c) length);
      if negb (ok status) then mret (status, length) else
      modify (on_chunk (set_state kSealed));;
      mret (status, length)
  end.

(** [Chunk::read]: the sum of the two [uint64_t] arguments wraps around. *)
Definition read (offset size : Z) (buf : option IOBuf) : Prog World (Status * option IOBuf) :=
  match buf with
  | None => mret (mkStatus EINVAL "buf is nullptr", buf)
  | Some _ =>
      c ← gets chunk;
      if _size c <? u64 (offset + size) then mret (out_of_range offset size (_size c), buf) else
      '(status, fh) ← on_store (store_open (Some (uuid_str (_uuid c))) O_RDONLY (Some None));
      if negb (ok status) then mret (status, buf) else
      match fh with
      | None => abort
      | Some fh => on_store (fh_read fh offset size buf)
      end
  end.

(** [new Chunk()]. *)
Definition new_chunk (uuid : UUID) (options : ChunkOptions) : Chunk :=
  mkChunk uuid 0 kInit options None [] ∅ 1 ∅ ∅.

(** [Chunk::create(options, store, chunk)]; [generated] is the value of [UUID::generate()]. *)
Definition create (generated : UUID) (options : ChunkOptions) (store : StorePtr)
    (chunk : option (option Chunk)) : Prog St (Status * option (option Chunk)) :=
  match chunk, store with
  | None, _ => mret (mkStatus EINVAL "chunk is nullptr", chunk)
  | _, None => mret (mkStatus EINVAL "store is nullptr", chunk)
  | Some _, Some _ =>
      let c := new_chunk generated options in
      '(status, fh) ← store_open (Some (uuid_str (_uuid c))) CREATE_FLAGS (Some (_fh c));
      if negb (ok status) then mret (status, chunk) else
      let c := set_state kOpen (set_fh (default None fh) c) in
      mret (OK, Some (Some c))
  end.

(** [Chunk::create(options, store, uuid, chunk)]. *)
Definition create_with_uuid (options : ChunkOptions) (store : StorePtr) (uuid : UUID)
    (chunk : option (option Chunk)) : Prog St (Status * option (option Chunk)) :=
  match chunk, store with
  | None, _ => mret (mkStatus EINVAL "chunk is nullptr", chunk)
  | _, None => mret (mkStatus EINVAL "store is nullptr", chunk)
  | Some _, Some _ =>
      let c := new_chunk uuid options in
      '(status, fh) ← store_open (Some (uuid_str (_uuid c))) CREATE_FLAGS (Some (_fh c));
      if negb (ok status) then mret (status, chunk) else
      let c := set_state kOpen (set_fh (default None fh) c) in
      '(status, size) ← fh_size (_fh c) (Some (_size c));
      if negb (ok status) then mret (status, chunk) else
      let c := set_size (default 0 size) c in
      mret (OK, Some (Some c))
  end.

(** *** Interleavings: the operations the clients, the timer thread and the woken callers run. *)
Inductive Op :=
| OAppend (buf : IOBuf) (offset : Z)
| OTimer (id : positive)
| OWake (id : positive)
| OSeal (length : option Z)
| ORead (offset size : Z) (buf : option IOBuf).

(** A timer callback runs for a registered timer, a wake-up for a blocked caller; offsets and
    sizes are [uint64_t]. *)
Definition enabled (o : Op) (w : World) : Prop :=
  match o with
  | OAppend _ offset => 0 <= offset < 2 ^ 64
  | OTimer id => id ∈ timers (chunk w)
  | OWake id => id ∈ waiters (chunk w)
  | OSeal _ => True
  | ORead offset size _ => 0 <= offset < 2 ^ 64 ∧ 0 <= size < 2 ^ 64
  end.

Definition exec (o : Op) : Prog World unit :=
  match o with
  | OAppend buf offset => _ ← append buf offset; mret tt
  | OTimer id => on_timer id
  | OWake id => _ ← wake id; mret tt
  | OSeal length => _ ← query_and_seal length; mret tt
  | ORead offset size buf => _ ← read offset size buf; mret tt
  end.

Inductive step : relation World :=
| step_exec o w w' : enabled o w → exec o w = Some (tt, w') → step w w'.

(** Path of the chunk's file, and the contents the store has for it. *)
Definition path (c : Chunk) : string := uuid_str (_uuid c).

(** The request [id] is done: unlinked, its promise fulfilled with [status]. *)
Definition resolve (status : Status) (id : positive) (r : AppendRequest) (c : Chunk) : Chunk :=
  set_requests (<[id := set_promise (kResult status) r]> (requests c))
    (set_queue (filter (λ x, x ≠ id) (_append_request_queue c)) c).

(** References to a request from the timer thread and from a blocked caller. *)
Definition held (c : Chunk) (id : positive) : Z :=
  Z.b2z (bool_decide (id ∈ timers c)) + Z.b2z (bool_decide (id ∈ waiters c)).

(** The requests: whoever may still dereference one holds a reference, and an undelivered
    one still has its timer and its caller. *)
Record rqs_ok (c : Chunk) : Prop := {
  ok_refs id r : requests c !! id = Some r → held c id <= use_count r ∧ 0 < use_count r;
  ok_held id : id ∈ timers c ∨ id ∈ waiters c → is_Some (requests c !! id);
  ok_pending id r : requests c !! id = Some r → rq_promise r = kFuture →
                    id ∈ timers c ∧ id ∈ waiters c;
  ok_fresh id : (next_rq c <= id)%positive → requests c !! id = None;
}.

(** The queue: ordered by strictly increasing offset, made of undelivered requests. *)
Record queue_ok (c : Chunk) : Prop := {
  q_sorted : StronglySorted (λ a b, offset_in c a < offset_in c b) (_append_request_queue c);
  q_pending id : id ∈ _append_request_queue c →
                 ∃ r, requests c !! id = Some r ∧ rq_promise r = kFuture;
}.

(** The queue waits for offsets beyond the end. *)
Definition ahead (c : Chunk) : Prop :=
  ∀ id, id ∈ _append_request_queue c → _size c < offset_in c id.
End chunk.

(** The file: the chunk's handle writes to its path, whose contents are [bs]. *)
Definition file_ok `{StoreLaws St FH} `{UuidOps} (w : World (St := St) (FH := FH)) (bs : list byte) : Prop :=
  ∃ h, _fh (chunk w) = Some h ∧ fh_target (store w) h (path (chunk w)) ∧
       files (store w) !! path (chunk w) = Some bs ∧ _size (chunk w) = u64 (Z.of_nat (length bs)).

Record inv `{StoreLaws St FH} `{UuidOps} (w : World (St := St) (FH := FH)) (bs : list byte) : Prop := {
  inv_rqs : rqs_ok (chunk w);
  inv_queue : queue_ok (chunk w);
  inv_file : file_ok w bs;
  inv_ahead : ahead (chunk w);
}.

(** What one or more operations may do to the chunk with contents [bs] and to the rest of
    the store. *)
Record evolves `{StoreLaws St FH} `{UuidOps} (w w' : World (St := St) (FH := FH)) (bs bs' : list byte) :
    Prop := {
  ev_keeps : keeps_but (path (chunk w)) (store w) (store w');
  ev_files : files (store w') = <[path (chunk w) := bs']> (files (store w));
  ev_prefix : bs `prefix_of` bs';
  ev_uuid : _uuid (chunk w') = _uuid (chunk w);
  ev_sealed : _state (chunk w) = kSealed → _state (chunk w') = kSealed ∧ bs' = bs;
}.

(** ** Lemmas *)
Section lemmas.
Context `{StoreLaws St FH} `{UuidLaws}.
Implicit Types (c : Chunk (FH := FH)) (w : World (St := St) (FH := FH)) (bs : list byte).

Lemma rq_at_eq id r w : requests (chunk w) !! id = Some r → rq_at id w = Some (r, w).
Proof. intros E. unfold rq_at. erewrite bind_step by done. by rewrite E. Qed.

Lemma rq_update_eq f id r w :
  requests (chunk w) !! id = Some r →
  rq_update f id w =
  Some (tt, on_chunk (λ c, set_requests (<[id := f r]> (requests c)) c) w).
Proof. intros E. unfold rq_update. by erewrite bind_step by by apply rq_at_eq. Qed.

Lemma rq_set_value_eq status id r w :
  requests (chunk w) !! id = Some r → rq_promise r = kFuture →
  rq_set_value status id w =
  Some (tt, on_chunk (λ c, set_requests
              (<[id := set_promise (kResult status) r]> (requests c)) c) w).
Proof.
  intros E Ep. unfold rq_set_value. erewrite bind_step by by apply rq_at_eq.
  rewrite Ep. cbn. by apply rq_update_eq.
Qed.

Lemma rq_is_ready_eq id r w :
  requests (chunk w) !! id = Some r → rq_is_ready id w = Some (available (rq_promise r), w).
Proof. intros E. unfold rq_is_ready. by erewrite bind_step by by apply rq_at_eq. Qed.

(** [unlink] then fulfil is [resolve]. *)
Lemma unlink_fulfil_eq status id r w :
  requests (chunk w) !! id = Some r → rq_promise r = kFuture →
  (rq_unlink id;; rq_fulfil status id) w = Some (tt, on_chunk (resolve status id r) w).
Proof.
  intros E Ep. erewrite bind_step by done. unfold rq_fulfil.
  erewrite bind_step by by apply rq_is_ready_eq. rewrite Ep. cbn [available negb].
  by rewrite (rq_set_value_eq _ _ r).
Qed.

Lemma offset_in_Some c id r : requests c !! id = Some r → offset_in c id = rq_offset r.
Proof. intros E. unfold offset_in. by rewrite E. Qed.

Lemma offset_in_update c id r f :
  requests c !! id = Some r → rq_offset (f r) = rq_offset r →
  ∀ x, offset_in (set_requests (<[id := f r]> (requests c)) c) x = offset_in c x.
Proof.
  intros E Ef x. unfold offset_in. cbn. destruct (decide (id = x)) as [->|].
  - by rewrite lookup_insert_eq, E.
  - by rewrite lookup_insert_ne.
Qed.

Lemma offset_in_resolve status id r c :
  requests c !! id = Some r → ∀ x, offset_in (resolve status id r c) x = offset_in c x.
Proof. intros E x. by apply (offset_in_update c id r (set_promise (kResult status))). Qed.

Lemma rqs_ok_resolve status id r c :
  requests c !! id = Some r → rqs_ok c → rqs_ok (resolve status id r c).
Proof.
  intros E [Hr Hh Hp Hf]. split; cbn.
  - intros x r'. destruct (decide (id = x)) as [->|]; [|rewrite lookup_insert_ne by done; apply Hr].
    rewrite lookup_insert_eq. intros [= <-]. exact (Hr _ _ E).
  - intros x Hx. destruct (decide (id = x)) as [->|].
    + rewrite lookup_insert_eq. eauto.
    + rewrite lookup_insert_ne by done. auto.
  - intros x r'. destruct (decide (id = x)) as [->|].
    + rewrite lookup_insert_eq. by intros [= <-].
    + rewrite lookup_insert_ne by done. eauto.
  - intros x Hx. rewrite lookup_insert_ne; [auto|]. intros ->. by rewrite Hf in E.
Qed.

Lemma queue_ok_resolve status id r c :
  requests c !! id = Some r → queue_ok c → queue_ok (resolve status id r c).
Proof.
  intros E [Hs Hp]. split.
  - eapply StronglySorted_mono; [|by apply StronglySorted_filter, Hs].
    intros a b _ _. by rewrite !offset_in_resolve.
  - cbn. intros x [Hx (r' & Er & Epr)%Hp]%list_elem_of_filter. exists r'.
    by rewrite lookup_insert_ne by done.
Qed.

Lemma ahead_resolve status id r c :
  requests c !! id = Some r → ahead c → ahead (resolve status id r c).
Proof.
  intros E Ha x [_ Hx]%list_elem_of_filter. rewrite offset_in_resolve by done. by apply Ha.
Qed.

(** *** The file *)

(** A change of the chunk that leaves the file's fields alone. *)
Definition same_file c c' : Prop :=
  _uuid c' = _uuid c ∧ _size c' = _size c ∧ _fh c' = _fh c ∧ _state c' = _state c.

Lemma file_ok_same w c' bs :
  same_file (chunk w) c' → file_ok w bs → file_ok (mkWorld (store w) c') bs.
Proof.
  intros (Eu & Es & Ef & _) (h & Hh & Ht & Hb & Hs). exists h. unfold path in *. cbn.
  by rewrite Eu, Es, Ef.
Qed.

Lemma evolves_same w c' bs :
  same_file (chunk w) c' → file_ok w bs → evolves w (mkWorld (store w) c') bs bs.
Proof.
  intros (Eu & Es & Ef & Est) (h & Hh & Ht & Hb & Hs). split; cbn.
  - by intros ? ?.
  - by rewrite insert_id.
  - done.
  - done.
  - by rewrite Est.
Qed.

Lemma evolves_refl w bs : file_ok w bs → evolves w w bs bs.
Proof. intros Hf. destruct w as [st c]. by apply (evolves_same (mkWorld st c)). Qed.

Lemma evolves_trans w1 w2 w3 bs1 bs2 bs3 :
  evolves w1 w2 bs1 bs2 → evolves w2 w3 bs2 bs3 → evolves w1 w3 bs1 bs3.
Proof.
  intros [K1 F1 P1 U1 S1] [K2 F2 P2 U2 S2]. split.
  - intros h p Hp E. apply K2; [|by apply K1]. unfold path. by rewrite U1.
  - rewrite F2, F1. unfold path. rewrite U1. by rewrite insert_insert_eq.
  - by trans bs2.
  - by rewrite U2.
  - intros (E & ->)%S1. destruct (S2 E) as (E' & ->). done.
Qed.

(** The chunk's handle still writes to the end of its file. *)
Definition keeps_handle w (st' : St) : Prop :=
  keeps_but (path (chunk w)) (store w) st' ∧
  ∀ h, _fh (chunk w) = Some h → fh_target st' h (path (chunk w)).

Lemma keeps_keeps_handle w st' bs : file_ok w bs → keeps (store w) st' → keeps_handle w st'.
Proof.
  intros (h & Hh & Ht & _) Hk. split; [by intros ? ? _ ?%Hk|].
  intros h' Eh. rewrite Hh in Eh. injection Eh as <-. by apply Hk.
Qed.

(** A store call that does not touch the contents. *)
Lemma store_quiet w st' bs :
  file_ok w bs → keeps_handle w st' → files st' = files (store w) →
  file_ok (set_store st' w) bs ∧ evolves w (set_store st' w) bs bs.
Proof.
  intros (h & Hh & Ht & Hb & Hs) [Hk Ht'] Hf. split.
  - exists h. cbn. rewrite Hf. auto.
  - split; [done| |done|done|done]. cbn. by rewrite Hf, insert_id.
Qed.

(** A successful append through the chunk's handle, and the new size. *)
Lemma store_grow w st' bs buf :
  file_ok w bs → _state (chunk w) ≠ kSealed → keeps_handle w st' →
  files st' = <[path (chunk w) := bs ++ iob_bytes buf]> (files (store w)) →
  let w' := on_chunk (λ c, set_size (u64 (_size c + iob_size buf)) c) (set_store st' w) in
  file_ok w' (bs ++ iob_bytes buf) ∧ evolves w w' bs (bs ++ iob_bytes buf).
Proof.
  intros (h & Hh & Ht & Hb & Hs) Hst [Hk Ht'] Hf w'. split.
  - exists h. split_and!; [done|by apply Ht'| |].
    + unfold w'. cbn. rewrite Hf. apply lookup_insert_eq.
    + cbn. rewrite Hs, iob_size_spec, u64_add_idemp_l, length_app, Nat2Z.inj_add. done.
  - split; [done|done|by apply prefix_app_r|done|done].
Qed.

Lemma on_store_wp {A} (p : Prog St A) w (Q : A → World (St := St) (FH := FH) → Prop) :
  wp p (store w) (λ a st', Q a (set_store st' w)) → wp (on_store p) w Q.
Proof. apply wp_zoom. Qed.

Lemma append_file w bs off buf :
  file_ok w bs →
  wp (on_store (fh_append (_fh (chunk w)) off buf)) w (λ s w',
    w' = set_store (store w') w ∧ keeps_handle w (store w') ∧
    files (store w') = if ok s then <[path (chunk w) := bs ++ iob_bytes buf]> (files (store w))
                       else files (store w)).
Proof.
  intros (h & Hh & Ht & Hb & Hs). apply on_store_wp. rewrite Hh. cbn [fh_append].
  eapply wp_mono; [by apply append_live|]. cbn. intros s st' (Hk & Ht' & Hf).
  split_and!; [done|split; [done|congruence]|done].
Qed.

(** *** The loop of [append] *)

(** The head of the queue, after [unlink]. *)
Lemma queue_resolve_head status id r c q :
  queue_ok c → _append_request_queue c = id :: q →
  _append_request_queue (resolve status id r c) = q.
Proof.
  intros [Hs _] E. cbn. rewrite E in *. apply filter_ne_head.
  apply StronglySorted_inv in Hs as [_ Hs]. rewrite Forall_forall in Hs.
  intros Hin. apply Hs in Hin. lia.
Qed.

Lemma ahead_head c id q :
  queue_ok c → _append_request_queue c = id :: q → _size c < offset_in c id → ahead c.
Proof.
  intros [Hs _] E Hlt x Hx. rewrite E in *. apply elem_of_cons in Hx as [->|Hx]; [done|].
  apply StronglySorted_inv in Hs as [_ Hs]. rewrite Forall_forall in Hs.
  apply Hs in Hx. lia.
Qed.

(** One iteration that takes the head off, whatever the outcome. *)
Lemma drain_S n w id q r :
  _append_request_queue (chunk w) = id :: q → requests (chunk w) !! id = Some r →
  drain (S n) w =
  (if rq_offset r <? _size (chunk w) then
     (rq_unlink id;;
      rq_fulfil (invalid_offset (rq_offset r) (iob_size (rq_buf r)) (_size (chunk w))) id);;
     drain n
   else if rq_offset r =? _size (chunk w) then
     status ← on_store (fh_append (_fh (chunk w)) (rq_offset r) (rq_buf r));
     (if ok status then add_size (iob_size (rq_buf r)) else mret tt);;
     (rq_unlink id;; rq_fulfil status id);;
     drain n
   else mret tt) w.
Proof.
  intros Eq Er. cbn [drain]. erewrite bind_step by done. rewrite Eq.
  erewrite bind_step by by apply rq_at_eq.
  destruct (rq_offset r <? _size (chunk w)); [done|].
  destruct (rq_offset r =? _size (chunk w)); [|done].
  unfold mbind, prog_bind. destruct (on_store _ w) as [[s w']|]; [|done].
  by destruct ((if ok s then add_size _ else mret tt) w') as [[[] w'']|].
Qed.

Lemma drain_nil n w : _append_request_queue (chunk w) = [] → drain n w = Some (tt, w).
Proof. intros E. destruct n; cbn [drain]; erewrite bind_step by done; by rewrite E. Qed.

(** Taking the head off the queue keeps everything but [ahead]. *)
Lemma resolve_head_ok status id q r w bs :
  rqs_ok (chunk w) → queue_ok (chunk w) → file_ok w bs →
  _append_request_queue (chunk w) = id :: q → requests (chunk w) !! id = Some r →
  let w' := on_chunk (resolve status id r) w in
  rqs_ok (chunk w') ∧ queue_ok (chunk w') ∧ file_ok w' bs ∧
  _append_request_queue (chunk w') = q ∧ _state (chunk w') = _state (chunk w) ∧
  evolves w w' bs bs.
Proof.
  intros Hr Hq Hf Eq Er w'. split_and!.
  - by apply rqs_ok_resolve.
  - by apply queue_ok_resolve.
  - by apply (file_ok_same w (resolve status id r (chunk w))).
  - by apply queue_resolve_head.
  - done.
  - by apply (evolves_same w (resolve status id r (chunk w))).
Qed.

Lemma drain_inv n w bs :
  rqs_ok (chunk w) → queue_ok (chunk w) → file_ok w bs → _state (chunk w) ≠ kSealed →
  (length (_append_request_queue (chunk w)) <= n)%nat →
  wp (drain n) w (λ _ w', ∃ bs', inv w' bs' ∧ evolves w w' bs bs').
Proof.
  revert w bs; induction n as [|n IH]; intros w bs Hr Hq Hf Hst Hlen;
    destruct (_append_request_queue (chunk w)) as [|id q] eqn:Eq; cbn in Hlen; try lia.
  1, 2: eapply wp_eval; [by apply drain_nil|]; exists bs; split; [|by apply evolves_refl];
    split; [done|done|done|]; intros x; rewrite Eq; by intros ?%elem_of_nil.
  destruct (q_pending _ Hq id) as (r & Er & Ep); [rewrite Eq; left|].
  eapply wp_eq; [by apply (drain_S n w id q r)|].
  destruct (Z.ltb_spec (rq_offset r) (_size (chunk w))) as [Hlt|Hge];
    [|destruct (Z.eqb_spec (rq_offset r) (_size (chunk w))) as [He|Hne]].
  - eapply wp_step; [by apply unlink_fulfil_eq|]. cbv beta.
    match goal with |- wp _ (on_chunk (resolve ?s _ _) _) _ =>
      destruct (resolve_head_ok s id q r w bs) as (? & ? & ? & Eq' & Est & Hev); try done end.
    eapply wp_mono; [apply IH; [done|done|done|by rewrite Est|rewrite Eq'; lia]|].
    intros _ w2 (bs' & Hinv & Hev'). exists bs'. split; [done|]. by eapply evolves_trans.
  - apply wp_bind. eapply wp_mono; [by apply append_file|].
    intros s w1 (E1 & Hk & Hfs). cbv beta.
    assert (∃ w2 bs2, (if ok s then add_size (iob_size (rq_buf r)) else mret tt) w1 = Some (tt, w2) ∧
              file_ok w2 bs2 ∧ evolves w w2 bs bs2 ∧ rqs_ok (chunk w2) ∧ queue_ok (chunk w2) ∧
              requests (chunk w2) = requests (chunk w) ∧ _state (chunk w2) = _state (chunk w) ∧
              _append_request_queue (chunk w2) = id :: q)
      as (w2 & bs2 & E2 & Hf2 & Hev2 & Hr2 & Hq2 & Erq & Est2 & Eq2).
    { rewrite E1. destruct (ok s).
      - destruct (store_grow w (store w1) bs (rq_buf r)) as [Hf2 Hev2]; [done..|].
        eexists _, _. split; [done|]. split; [exact Hf2|]. split; [exact Hev2|].
        split_and!; try done; destruct Hr, Hq; by split.
      - destruct (store_quiet w (store w1) bs) as [Hf2 Hev2]; [done..|].
        eexists _, _. split; [done|]. split; [exact Hf2|]. by split. }
    eapply wp_step; [exact E2|]. cbv beta.
    eapply wp_step; [apply unlink_fulfil_eq; [by rewrite Erq|done]|]. cbv beta.
    destruct (resolve_head_ok s id q r w2 bs2) as (? & ? & ? & Eq' & Est & Hev); try done.
    { by rewrite Erq. }
    eapply wp_mono; [apply IH; [done|done|done|by rewrite Est, Est2|rewrite Eq'; lia]|].
    intros _ w3 (bs' & Hinv & Hev'). exists bs'. split; [done|].
    do 2 (eapply evolves_trans; [done|]). done.
  - eapply wp_eval; [done|]. exists bs. split; [|by apply evolves_refl]. split; [done|done|done|].
    eapply ahead_head; [done|done|]. rewrite (offset_in_Some _ _ r) by done. lia.
Qed.

(** Only sealing changes the state of a chunk. *)
Definition state_of w : ChunkState := _state (chunk w).

Lemma drain_state n : preserves state_of (drain n).
Proof.
  induction n as [|n IH]; cbn [drain]; unfold rq_at, rq_unlink, rq_fulfil, rq_is_ready,
    rq_set_value, rq_update, on_store, add_size, rq_at; preserves_tac.
Qed.

Lemma append_state buf offset : preserves state_of (append buf offset).
Proof.
  pose proof drain_state. unfold append, new_request, rq_add_ref, rq_update, rq_at, rq_insert,
    on_store, add_size; preserves_tac.
Qed.

(** *** Parking *)

(** The chunk after an append at [offset] ahead of the end was parked. *)
Definition park (offset : Z) (buf : IOBuf) c : Chunk (FH := FH) :=
  let id := next_rq c in
  let c' := set_requests (<[id := mkAppendRequest offset buf kFuture 2]> (requests c)) c in
  set_waiters ({[id]} ∪ waiters c) (set_timers ({[id]} ∪ timers c)
    (set_next_rq (Pos.succ id)
      (set_queue (queue_insert (offset_in c') id (_append_request_queue c)) c'))).

Lemma new_request_eq offset buf w :
  new_request offset buf w = Some (next_rq (chunk w), on_chunk (λ c,
    set_next_rq (Pos.succ (next_rq (chunk w)))
      (set_requests (<[next_rq (chunk w) := mkAppendRequest offset buf kFuture 1]> (requests c)) c)) w).
Proof. done. Qed.

Lemma append_parked_eq buf offset w :
  _state (chunk w) ≠ kSealed → _size (chunk w) < offset →
  append buf offset w = Some (Parked (next_rq (chunk w)), on_chunk (park offset buf) w).
Proof.
  intros Hst Hlt. unfold append. erewrite bind_step by done.
  rewrite decide_False by done.
  rewrite (proj2 (Z.ltb_ge _ _)) by lia. rewrite (proj2 (Z.eqb_neq _ _)) by lia. cbn [negb].
  erewrite bind_step by apply new_request_eq. unfold rq_add_ref.
  erewrite bind_step by (apply rq_update_eq; apply lookup_insert_eq).
  unfold rq_insert. do 3 (erewrite bind_step by done).
  unfold mret, prog_ret, on_chunk. cbn. by rewrite insert_insert_eq.
Qed.

Lemma elem_of_queue_insert {A} (key : A → Z) id q x :
  x ∈ queue_insert key id q → x = id ∨ x ∈ q.
Proof.
  induction q as [|y q IH]; cbn [queue_insert]; [by intros ->%list_elem_of_singleton; left|].
  repeat case_match; rewrite ?elem_of_cons; intuition.
Qed.

Lemma queue_insert_elem_of {A} (key : A → Z) id q x : x ∈ q → x ∈ queue_insert key id q.
Proof.
  induction q as [|y q IH]; cbn [queue_insert]; [by intros ?%elem_of_nil|].
  repeat case_match; rewrite ?elem_of_cons in *; intuition.
Qed.

Lemma queue_insert_sorted {A} (key : A → Z) id q :
  StronglySorted (λ a b, key a < key b) q →
  StronglySorted (λ a b, key a < key b) (queue_insert key id q).
Proof.
  induction 1 as [|y q Hq IH Hy]; cbn [queue_insert]; [by repeat constructor|].
  pose proof Hy as Hy'. rewrite Forall_forall in Hy'.
  destruct (Z.ltb_spec (key id) (key y)); [|destruct (Z.ltb_spec (key y) (key id))].
  - constructor; [by constructor|]. constructor; [done|].
    apply Forall_forall. intros x Hx%Hy'. lia.
  - constructor; [done|]. apply Forall_forall.
    by intros x [->|Hx%Hy']%elem_of_queue_insert.
  - by constructor.
Qed.

Lemma queue_insert_in {A} (key : A → Z) x q :
  (∀ y, y ∈ q → key y ≠ key x) → x ∈ queue_insert key x q.
Proof.
  induction q as [|y q IH]; cbn [queue_insert]; [by left|]. intros Hne.
  destruct (Z.ltb_spec (key x) (key y)); [by left|].
  destruct (Z.ltb_spec (key y) (key x)).
  - right. apply IH. intros z Hz. apply Hne. by right.
  - exfalso. apply (Hne y); [by left|lia].
Qed.

Lemma queue_insert_ext {A} (key key' : A → Z) x q :
  key x = key' x → (∀ y, y ∈ q → key y = key' y) → queue_insert key x q = queue_insert key' x q.
Proof.
  intros Ex. induction q as [|y q IH]; cbn [queue_insert]; [done|]. intros Hq.
  rewrite Ex, (Hq y) by left. rewrite IH; [done|]. intros z Hz. apply Hq. by right.
Qed.

Lemma fmap_queue_insert {A B} (key : B → Z) (f : A → B) x q :
  f <$> queue_insert (λ y, key (f y)) x q = queue_insert key (f x) (f <$> q).
Proof. induction q as [|y q IH]; cbn; [done|]. by repeat case_match; cbn; rewrite ?IH. Qed.

Lemma offset_in_park offset buf c x :
  rqs_ok c → offset_in (park offset buf c) x = if decide (x = next_rq c) then offset else offset_in c x.
Proof.
  intros Hr. unfold offset_in, park. cbn. case_decide as D.
  - subst. by rewrite lookup_insert_eq.
  - by rewrite lookup_insert_ne.
Qed.

Lemma held_park offset buf c x :
  rqs_ok c → held (park offset buf c) x = if decide (x = next_rq c) then 2 else held c x.
Proof.
  intros Hr. unfold held, park. cbn. case_decide as D.
  - subst. by rewrite !bool_decide_true by set_solver.
  - f_equal; f_equal; apply bool_decide_ext; set_solver.
Qed.

Lemma rqs_ok_park offset buf c : rqs_ok c → rqs_ok (park offset buf c).
Proof.
  intros Hr0. pose proof Hr0 as [Hr Hh Hp Hf].
  assert (requests c !! next_rq c = None) as Hnew by (apply Hf; lia).
  split.
  - intros x r'. rewrite held_park by done. cbn. case_decide as D.
    + subst. rewrite lookup_insert_eq. intros [= <-]. cbn. lia.
    + rewrite lookup_insert_ne by done. apply Hr.
  - cbn. intros x Hx. destruct (decide (x = next_rq c)) as [->|D].
    + rewrite lookup_insert_eq. eauto.
    + rewrite lookup_insert_ne by done. apply Hh. set_solver.
  - cbn. intros x r'. destruct (decide (x = next_rq c)) as [->|D].
    + set_solver.
    + rewrite lookup_insert_ne by done. intros E E'. destruct (Hp _ _ E E'). set_solver.
  - cbn. intros x Hx. rewrite lookup_insert_ne by lia. apply Hf. lia.
Qed.

Lemma queue_ok_park offset buf c : rqs_ok c → queue_ok c → queue_ok (park offset buf c).
Proof.
  intros Hr [Hs Hp]. pose proof (ok_fresh _ Hr (next_rq c)) as Hnew.
  assert (∀ x, x ∈ _append_request_queue c → x ≠ next_rq c) as Hne.
  { intros x (r & E & _)%Hp ->. rewrite Hnew in E by lia. done. }
  split.
  - apply queue_insert_sorted. eapply StronglySorted_mono; [|exact Hs].
    intros x y Hx%Hne Hy%Hne. unfold offset_in. cbn. by rewrite !lookup_insert_ne.
  - cbn. intros x [->|Hx]%elem_of_queue_insert.
    + rewrite lookup_insert_eq. eauto.
    + rewrite lookup_insert_ne by (symmetry; auto). auto.
Qed.

Lemma ahead_park offset buf c :
  rqs_ok c → ahead c → _size c < offset → ahead (park offset buf c).
Proof.
  intros Hr Ha Hlt x Hx. cbn in Hx. rewrite offset_in_park by done.
  case_decide as D; [done|]. apply elem_of_queue_insert in Hx as [?|?]; [done|]. by apply Ha.
Qed.

(** *** Every operation keeps the invariant and never fails an assertion *)

Lemma append_inv buf offset w bs :
  inv w bs → wp (append buf offset) w (λ _ w', ∃ bs', inv w' bs' ∧ evolves w w' bs bs').
Proof.
  intros [Hr Hq Hf Ha].
  destruct (decide (_state (chunk w) = kSealed)) as [Hst|Hst].
  { unfold append. eapply wp_step; [done|]. rewrite decide_True by done.
    eapply wp_eval; [done|]. exists bs. split; [done|by apply evolves_refl]. }
  destruct (Z.lt_ge_cases (_size (chunk w)) offset) as [Hlt|Hge].
  { eapply wp_eval; [by apply append_parked_eq|]. exists bs. split; [split|].
    - by apply rqs_ok_park.
    - by apply queue_ok_park.
    - by apply (file_ok_same w (park offset buf (chunk w))).
    - by apply ahead_park.
    - by apply (evolves_same w (park offset buf (chunk w))). }
  unfold append. eapply wp_step; [done|]. rewrite decide_False by done.
  destruct (Z.ltb_spec offset (_size (chunk w))).
  { eapply wp_eval; [done|]. exists bs. split; [done|by apply evolves_refl]. }
  rewrite (proj2 (Z.eqb_eq _ _)) by lia. cbn [negb].
  apply wp_bind. eapply wp_mono; [by apply append_file|]. intros s w1 (E1 & Hk & Hfs). cbv beta.
  rewrite E1. destruct (ok s); cbn [negb].
  - destruct (store_grow w (store w1) bs buf) as [Hf2 Hev2]; [done..|].
    eapply wp_step; [done|]. apply wp_bind.
    eapply wp_mono; [eapply drain_inv; [| |exact Hf2|done|done]|].
    + by destruct Hr; split.
    + by destruct Hq; split.
    + cbv beta. intros _ w3 (bs' & Hinv & Hev). eapply wp_eval; [done|]. exists bs'.
      split; [done|]. by eapply evolves_trans.
  - destruct (store_quiet w (store w1) bs) as [Hf2 Hev2]; [done..|].
    eapply wp_eval; [done|]. by exists bs.
Qed.

(** *** Timers and wake-ups *)

(** Dropping one reference to a delivered request. *)
Lemma rqs_ok_unhold c c' id r' :
  rqs_ok c → is_Some (requests c !! id) →
  requests c' = <[id := r']> (requests c) → next_rq c' = next_rq c →
  timers c' ⊆ timers c → waiters c' ⊆ waiters c →
  (∀ x, x ≠ id → (x ∈ timers c → x ∈ timers c') ∧ (x ∈ waiters c → x ∈ waiters c')) →
  rq_promise r' ≠ kFuture → held c' id <= use_count r' → 0 < use_count r' →
  rqs_ok c'.
Proof.
  intros [Hr Hh Hp Hf] [r E] Erq En Ht Hw Hx Hpr Hu Hpos. split; rewrite ?Erq, ?En.
  - intros x r0. destruct (decide (id = x)) as [->|].
    + rewrite lookup_insert_eq. by intros [= <-].
    + rewrite lookup_insert_ne by done. intros E'. destruct (Hr _ _ E') as [H1' H2']. split; [|done].
      replace (held c' x) with (held c x); [done|]. unfold held. destruct (Hx x) as [? ?]; [done|].
      f_equal; f_equal; apply bool_decide_ext; set_solver.
  - intros x Hx'. destruct (decide (id = x)) as [->|].
    + rewrite lookup_insert_eq. eauto.
    + rewrite lookup_insert_ne by done. apply Hh. set_solver.
  - intros x r0. destruct (decide (id = x)) as [->|].
    + rewrite lookup_insert_eq. by intros [= <-] ?.
    + rewrite lookup_insert_ne by done. intros E' Ep. destruct (Hp _ _ E' Ep) as [? ?].
      destruct (Hx x) as [? ?]; [done|]. auto.
  - intros x Hx'. rewrite lookup_insert_ne; [auto|]. intros ->. rewrite Hf in E; [done|lia].
Qed.

(** Freeing a request nobody refers to any more. *)
Lemma rqs_ok_free c c' id :
  rqs_ok c → requests c' = delete id (requests c) → next_rq c' = next_rq c →
  timers c' = timers c ∖ {[id]} → waiters c' = waiters c ∖ {[id]} → rqs_ok c'.
Proof.
  intros [Hr Hh Hp Hf] Erq En Ht Hw. split; rewrite ?Erq, ?En.
  - intros x r [Hne E]%lookup_delete_Some. destruct (Hr _ _ E) as [H1' H2']. split; [|done].
    replace (held c' x) with (held c x); [done|]. unfold held. rewrite Ht, Hw.
    f_equal; f_equal; apply bool_decide_ext; set_solver.
  - rewrite Ht, Hw. intros x Hx. rewrite lookup_delete_ne by set_solver. apply Hh. set_solver.
  - rewrite Ht, Hw. intros x r [Hne E]%lookup_delete_Some Ep. destruct (Hp _ _ E Ep). set_solver.
  - intros x Hx. apply lookup_delete_None. auto.
Qed.

(** Changing or freeing one request after unlinking it. *)
Lemma queue_frame c c' id :
  (∀ x, x ≠ id → requests c' !! x = requests c !! x) →
  _append_request_queue c' = filter (λ x, x ≠ id) (_append_request_queue c) →
  _size c' = _size c → queue_ok c → ahead c → queue_ok c' ∧ ahead c'.
Proof.
  intros Hrq Eq Es [Hs Hp] Ha.
  assert (∀ x, x ≠ id → offset_in c' x = offset_in c x) as Ho.
  { intros x Hx. unfold offset_in. by rewrite Hrq. }
  split; [split|].
  - rewrite Eq. eapply StronglySorted_mono; [|by apply StronglySorted_filter, Hs].
    intros x y [Hx _]%list_elem_of_filter [Hy _]%list_elem_of_filter. by rewrite !Ho.
  - rewrite Eq. intros x [Hx Hin]%list_elem_of_filter. rewrite Hrq by done. auto.
  - intros x. rewrite Eq. intros [Hx Hin]%list_elem_of_filter. rewrite Ho, Es by done. auto.
Qed.

Lemma delivered_not_queued c id r :
  queue_ok c → requests c !! id = Some r → rq_promise r ≠ kFuture →
  filter (λ x, x ≠ id) (_append_request_queue c) = _append_request_queue c.
Proof.
  intros Hq Er Hne. apply filter_all_id. intros x Hx ->. destruct (q_pending _ Hq _ Hx) as (r' & E & ?).
  by simplify_eq.
Qed.

(** The chunk after a timer fired for an undelivered request. *)
Definition expire id (r : AppendRequest) c : Chunk (FH := FH) :=
  set_timers (timers c ∖ {[id]})
    (set_requests (<[id := set_use_count (use_count r - 1) (set_promise (kResult
        (invalid_offset (rq_offset r) (iob_size (rq_buf r)) (_size c))) r)]> (requests c))
      (set_queue (filter (λ x, x ≠ id) (_append_request_queue c)) c)).

Lemma rq_release_eq id r w :
  requests (chunk w) !! id = Some r →
  rq_release id w = Some (tt, on_chunk (λ c,
    if use_count r - 1 =? 0
    then set_requests (delete id (requests c))
           (set_queue (filter (λ x, x ≠ id) (_append_request_queue c)) c)
    else set_requests (<[id := set_use_count (use_count r - 1) r]> (requests c)) c) w).
Proof.
  intros E. unfold rq_release. erewrite bind_step by by apply rq_update_eq.
  erewrite bind_step by (apply rq_at_eq; apply lookup_insert_eq). cbn [use_count set_use_count].
  destruct (Z.eqb_spec (use_count r - 1) 0); [|done].
  unfold rq_unlink, modify, mbind, prog_bind, on_chunk. cbn. by rewrite delete_insert_eq.
Qed.

Lemma on_timer_pending_eq id r w :
  rqs_ok (chunk w) → requests (chunk w) !! id = Some r → rq_promise r = kFuture →
  on_timer id w = Some (tt, on_chunk (expire id r) w).
Proof.
  intros Hr E Ep. destruct (ok_pending _ Hr _ _ E Ep) as [Ht Hw].
  destruct (ok_refs _ Hr _ _ E) as [Hh _]. unfold held in Hh. rewrite !bool_decide_true in Hh by done.
  unfold on_timer. do 2 (erewrite bind_step by (done || by apply rq_is_ready_eq)).
  rewrite Ep. cbn [available]. erewrite bind_step by done.
  erewrite bind_step by by apply (rq_at_eq id r). erewrite bind_step by done.
  erewrite bind_step by by apply rq_set_value_eq.
  erewrite rq_release_eq by apply lookup_insert_eq. cbn [use_count set_promise].
  cbn in Hh. rewrite (proj2 (Z.eqb_neq _ _)) by lia. unfold on_chunk, expire. cbn.
  by rewrite insert_insert_eq.
Qed.

Lemma on_timer_ready_eq id r w :
  requests (chunk w) !! id = Some r → rq_promise r ≠ kFuture →
  on_timer id w = Some (tt, on_chunk (λ c, set_timers (timers c ∖ {[id]}) c) w).
Proof.
  intros E Ep. unfold on_timer. do 2 (erewrite bind_step by (done || by apply rq_is_ready_eq)).
  by destruct (rq_promise r).
Qed.

Lemma inv_chunk_step w c' bs :
  inv w bs → same_file (chunk w) c' → rqs_ok c' → queue_ok c' → ahead c' →
  ∃ bs', inv (mkWorld (store w) c') bs' ∧ evolves w (mkWorld (store w) c') bs bs'.
Proof.
  intros [_ _ Hf _] Hs Hr Hq Ha. exists bs. split; [|by apply evolves_same].
  split; [done|done| |done]. by apply file_ok_same.
Qed.

Lemma pending_or_not {T} (p : FutureState T) : p = kFuture ∨ p ≠ kFuture.
Proof. destruct p; auto. Qed.

Lemma wake_release_inv w bs id r p :
  inv w bs → id ∈ waiters (chunk w) → requests (chunk w) !! id = Some r →
  rq_promise r ≠ kFuture → p ≠ kFuture →
  let w' := on_chunk (λ c,
    if use_count r - 1 =? 0
    then set_requests (delete id (requests c))
           (set_queue (filter (λ x, x ≠ id) (_append_request_queue c)) c)
    else set_requests (<[id := set_use_count (use_count r - 1) (set_promise p r)]> (requests c)) c)
    (on_chunk (λ c, set_waiters (waiters c ∖ {[id]}) c)
      (on_chunk (λ c, set_requests (<[id := set_promise p r]> (requests c)) c) w)) in
  ∃ bs', inv w' bs' ∧ evolves w w' bs bs'.
Proof.
  intros Hinv Hw E Ep Hp w'. pose proof Hinv as [Hr Hq Hf Ha].
  destruct (ok_refs _ Hr _ _ E) as [Hh Hpos]. unfold held in Hh.
  rewrite (bool_decide_true (id ∈ waiters _)) in Hh by done.
  pose proof (delivered_not_queued _ _ _ Hq E Ep) as Eq.
  assert (∃ c', w' = mkWorld (store w) c' ∧ same_file (chunk w) c' ∧ rqs_ok c' ∧
            _append_request_queue c' = filter (λ x, x ≠ id) (_append_request_queue (chunk w)) ∧
            ∀ x, x ≠ id → requests c' !! x = requests (chunk w) !! x)
    as (c' & -> & Hs & Hr' & Eq' & Hrq).
  { unfold w', on_chunk. cbn. destruct (Z.eqb_spec (use_count r - 1) 0); eexists; (split; [done|]).
    - assert (id ∉ timers (chunk w)) as Ht by (intros Ht; rewrite bool_decide_true in Hh by done; cbn in *; lia).
      split_and!; try done.
      + eapply (rqs_ok_free (chunk w) _ id); try done; cbn; [by rewrite delete_insert_eq|set_solver].
      + intros x Hx. cbn. by rewrite delete_insert_eq, lookup_delete_ne.
    - split_and!; try done.
      + eapply (rqs_ok_unhold (chunk w) _ id (set_use_count (use_count r - 1) (set_promise p r)));
          try done; cbn; [by rewrite insert_insert_eq|set_solver|set_solver| |lia].
        unfold held. cbn. rewrite (bool_decide_false (id ∈ _ ∖ _)) by set_solver. cbn in *. lia.
      + intros x Hx. cbn. by rewrite insert_insert_eq, lookup_insert_ne. }
  destruct (queue_frame (chunk w) c' id) as [? ?]; try done; [by destruct Hs as (_ & ? & _)|].
  by apply inv_chunk_step.
Qed.

Lemma on_timer_inv id w bs :
  inv w bs → id ∈ timers (chunk w) →
  wp (on_timer id) w (λ _ w', ∃ bs', inv w' bs' ∧ evolves w w' bs bs').
Proof.
  intros Hinv Ht. pose proof Hinv as [Hr Hq Hf Ha].
  destruct (ok_held _ Hr id) as [r E]; [by left|].
  destruct (ok_refs _ Hr _ _ E) as [Hh Hpos]. unfold held in Hh.
  rewrite (bool_decide_true (id ∈ timers _)) in Hh by done.
  destruct (pending_or_not (rq_promise r)) as [Ep|Ep].
  - eapply wp_eval; [by apply on_timer_pending_eq|].
    destruct (ok_pending _ Hr _ _ E Ep) as [_ Hw]. rewrite (bool_decide_true (id ∈ waiters _)) in Hh by done.
    destruct (queue_frame (chunk w) (expire id r (chunk w)) id) as [? ?]; try done.
    { intros x Hx. cbn. by rewrite lookup_insert_ne. }
    apply (inv_chunk_step w (expire id r (chunk w)) bs); try done.
    eapply (rqs_ok_unhold (chunk w) _ id (set_use_count (use_count r - 1) (set_promise (kResult _) r)));
      try done; cbn in *; [set_solver|set_solver| |lia].
    unfold held. cbn. rewrite bool_decide_false by set_solver. rewrite bool_decide_true by done. cbn. lia.
  - eapply wp_eval; [by apply (on_timer_ready_eq id r)|].
    set (c' := set_timers (timers (chunk w) ∖ {[id]}) (chunk w)).
    apply (inv_chunk_step w c' bs); try done; [|by destruct Hq].
    eapply (rqs_ok_unhold (chunk w) _ id r); try done; cbn; [by rewrite insert_id|set_solver|set_solver|].
    unfold held. cbn. rewrite (bool_decide_false (id ∈ _ ∖ _)) by set_solver. cbn in *. lia.
Qed.

Lemma wake_inv (moved : Status → Status) id w bs :
  inv w bs → id ∈ waiters (chunk w) →
  wp (wake moved id) w (λ _ w', ∃ bs', inv w' bs' ∧ evolves w w' bs bs').
Proof.
  intros Hinv Hw. pose proof Hinv as [Hr Hq Hf Ha].
  destruct (ok_held _ Hr id) as [r E]; [by right|].
  destruct (ok_refs _ Hr _ _ E) as [Hh Hpos]. unfold held in Hh.
  rewrite (bool_decide_true (id ∈ waiters _)) in Hh by done.
  unfold wake. eapply wp_step; [by apply rq_at_eq|]. cbv beta.
  assert (∃ x p, state_get moved (rq_promise r) = Some (x, p) ∧
            (x = Blocked ∨ x ≠ Blocked ∧ rq_promise r ≠ kFuture ∧ p ≠ kFuture))
    as (x & p & Eg & Hx).
  { unfold state_get. destruct (rq_promise r); eexists _, _; (split; [done|]); auto. }
  rewrite Eg. destruct Hx as [-> | (Hx & Ep & Hp)].
  { eapply wp_eval; [done|]. exists bs. split; [done|by apply evolves_refl]. }
  destruct x; [done| |].
  all: eapply wp_step; [by apply rq_update_eq|]; cbv beta; eapply wp_step; [done|]; cbv beta.
  all: eapply wp_step; [eapply rq_release_eq; apply lookup_insert_eq|]; cbv beta.
  all: eapply wp_eval; [done|]; cbn [use_count set_promise].
  all: apply (wake_release_inv w bs id r p); done.
Qed.

(** *** Sealing and reading *)

Lemma quiet_inv w st' bs :
  inv w bs → keeps (store w) st' → files st' = files (store w) →
  inv (set_store st' w) bs ∧ evolves w (set_store st' w) bs bs.
Proof.
  intros [Hr Hq Hf Ha] Hk Hfs.
  destruct (store_quiet w st' bs) as [? ?]; [done|by eapply keeps_keeps_handle|done|]. by split.
Qed.

Lemma query_and_seal_wp (v : Z) w bs :
  inv w bs →
  wp (query_and_seal (Some v)) w (λ r w',
    inv w' bs ∧ evolves w w' bs bs ∧
    if ok (fst r) then snd r = Some (Z.of_nat (length bs)) ∧ _state (chunk w') = kSealed
    else _state (chunk w') = _state (chunk w)).
Proof.
  intros Hinv. pose proof Hinv as [Hr Hq Hf Ha]. destruct Hf as (h & Hh & Ht & Hb & Hs).
  unfold query_and_seal. eapply wp_step; [done|]. cbv beta. apply wp_bind, on_store_wp.
  rewrite Hh. cbn [fh_seal fh_size]. eapply wp_mono; [by eapply seal_live|].
  intros s st1 (Hk1 & Hfs1). cbv beta. destruct (quiet_inv w st1 bs) as [Hi1 He1]; [done..|].
  destruct (ok s) eqn:Es; cbn [negb]; [|eapply wp_eval; [done|]; cbn; by rewrite Es].
  apply wp_bind, on_store_wp. cbn [store set_store].
  eapply wp_mono; [apply (size_live _ _ (path (chunk w)) bs); [by apply Hk1|by rewrite Hfs1]|].
  intros [s2 l] st2 (Hk2 & Hfs2 & Hl). cbv beta iota. cbn [fst snd] in Hl.
  destruct (quiet_inv w st2 bs) as [Hi2 He2]; [done|by intros ? ? ?%Hk1%Hk2|by rewrite Hfs2|].
  destruct (ok s2) eqn:Es2; cbn [negb]; [|eapply wp_eval; [done|]; cbn; by rewrite Es2].
  eapply wp_step; [done|]. eapply wp_eval; [done|]. cbn [fst snd]. rewrite Es2.
  split_and!; [|split|by apply Hl|done].
  - destruct Hi2 as [[] [] ? ?]. by split.
  - apply He2.
  - apply He2.
  - done.
  - done.
  - cbn. done.
Qed.

Lemma query_and_seal_inv length w bs :
  inv w bs → wp (query_and_seal length) w (λ _ w', ∃ bs', inv w' bs' ∧ evolves w w' bs bs').
Proof.
  intros Hinv. destruct length as [v|].
  - eapply wp_mono; [by apply query_and_seal_wp|]. intros r w' (? & ? & _). eauto.
  - eapply wp_eval; [done|]. exists bs. split; [done|]. by apply evolves_refl, Hinv.
Qed.

(** [read]: it changes nothing, and when it succeeds on a range inside the file the bytes are
    those of the file. *)
Lemma read_wp offset size buf w bs :
  inv w bs → 0 <= offset < 2 ^ 64 →
  wp (read offset size (Some buf)) w (λ r w',
    inv w' bs ∧ evolves w w' bs bs ∧
    (ok (fst r) = true → 0 <= size → offset + size <= Z.of_nat (length bs) →
     iob_bytes buf = [] →
     ∃ b, snd r = Some b ∧
       iob_bytes b = take (Z.to_nat size) (drop (Z.to_nat offset) bs))).
Proof.
  intros Hinv Hoff. pose proof Hinv as [Hr Hq Hf Ha]. destruct Hf as (h & Hh & Ht & Hb & Hs).
  assert (evolves w w bs bs) by apply evolves_refl, Hinv.
  unfold read. eapply wp_step; [done|]. cbv beta.
  destruct (Z.ltb_spec (_size (chunk w)) (u64 (offset + size))); [by eapply wp_eval|].
  apply wp_bind, on_store_wp. fold (path (chunk w)).
  eapply wp_mono; [apply open_rdonly, uuid_str_plain|]. intros [s fh] st1 (Hk1 & Hfs1 & Hr1). cbv beta iota.
  cbn [fst snd] in Hr1. destruct (quiet_inv w st1 bs) as [Hi1 He1]; [done..|].
  destruct (ok s) eqn:Es; cbn [negb]; [|eapply wp_eval; [done|]; cbn; by rewrite Es].
  destruct Hr1 as (_ & h1 & -> & Ht1). cbn [fh_read]. apply on_store_wp. cbn [store set_store].
  eapply wp_mono; [apply (read_live _ _ (path (chunk w)) bs); [done|by rewrite Hfs1|done]|].
  intros [s2 b] st2 (Hk2 & Hfs2 & Hrd). cbn [fst snd] in *.
  destruct (quiet_inv w st2 bs) as [Hi2 He2]; [done|by intros ? ? ?%Hk1%Hk2|by rewrite Hfs2|].
  done.
Qed.

Lemma read_inv offset size buf w bs :
  inv w bs → 0 <= offset < 2 ^ 64 →
  wp (read offset size buf) w (λ _ w', ∃ bs', inv w' bs' ∧ evolves w w' bs bs').
Proof.
  intros Hinv Hoff. destruct buf as [buf|].
  - eapply wp_mono; [by apply read_wp|]. intros r w' (? & ? & _). eauto.
  - eapply wp_eval; [done|]. exists bs. split; [done|]. by apply evolves_refl, Hinv.
Qed.

(** *** All operations, all interleavings *)
Lemma exec_inv (moved : Status → Status) o w bs :
  inv w bs → enabled o w →
  wp (exec moved o) w (λ _ w', ∃ bs', inv w' bs' ∧ evolves w w' bs bs').
Proof.
  intros Hinv Hen. destruct o; cbn [exec enabled] in *.
  2: by apply on_timer_inv.
  all: apply wp_void.
  - by apply append_inv.
  - by apply wake_inv.
  - by apply query_and_seal_inv.
  - by apply read_inv; [|apply Hen].
Qed.

Lemma steps_inv (moved : Status → Status) w w' bs :
  inv w bs → rtc (step moved) w w' → ∃ bs', inv w' bs' ∧ evolves w w' bs bs'.
Proof.
  intros Hinv Hst. revert bs Hinv. induction Hst as [w|w1 w2 w3 Hs Hst IH]; intros bs Hinv.
  { exists bs. split; [done|]. by apply evolves_refl, Hinv. }
  destruct Hs as [o w1 w2 Hen Ho].
  pose proof (exec_inv moved o w1 bs Hinv Hen) as Hwp. unfold wp in Hwp. rewrite Ho in Hwp.
  destruct Hwp as (bs2 & Hi2 & He2). destruct (IH bs2 Hi2) as (bs3 & Hi3 & He3).
  exists bs3. split; [done|]. by eapply evolves_trans.
Qed.

(** *** Creation *)
Lemma new_chunk_ok uuid options : let c := new_chunk uuid options in
  rqs_ok (FH := FH) c ∧ queue_ok (FH := FH) c ∧ ahead (FH := FH) c.
Proof.
  split_and!; [split|split|]; cbn; try set_solver.
  constructor.
Qed.

Lemma created_inv uuid options h st bs :
  fh_target st h (uuid_str uuid) → files st !! uuid_str uuid = Some bs →
  inv (mkWorld st (set_size (u64 (Z.of_nat (length bs)))
        (set_state kOpen (set_fh (Some h) (new_chunk uuid options))))) bs.
Proof.
  intros Ht Hb. destruct (new_chunk_ok uuid options) as (Hr & Hq & Ha). split; cbn.
  - by destruct Hr; split.
  - destruct Hq as [Hs Hp]. by split.
  - by exists h.
  - by intros x ?%elem_of_nil.
Qed.

Lemma create_wp uuid options old st :
  files st !! uuid_str uuid = None →
  wp (create uuid options (Some tt) (Some old)) st (λ r st', keeps st st' ∧
    if ok (fst r) then
      ∃ c, snd r = Some (Some c) ∧ _uuid c = uuid ∧ _state c = kOpen ∧ _size c = 0 ∧
           _append_request_queue c = [] ∧ requests c = ∅ ∧
           files st' = <[uuid_str uuid := []]> (files st) ∧ inv (mkWorld st' c) []
    else snd r = Some old ∧ files st' = files st).
Proof.
  intros Hnew. unfold create. apply wp_bind. eapply wp_mono; [by apply open_new; [apply uuid_str_plain|]|].
  intros [s fh] st' (Hk & Hr). cbv beta iota. cbn [fst snd] in Hr.
  destruct (ok s) eqn:Es; cbn [negb]; [|eapply wp_eval; [done|]; cbn [fst snd]; rewrite Es; by destruct Hr].
  destruct Hr as (h & -> & Ht & Hfs). eapply wp_eval; [done|]. cbn [default fst snd].
  rewrite ok_OK. split; [done|]. eexists. split; [done|]. split_and!; [done..|].
  apply (created_inv uuid options h st' []); [done|]. by rewrite Hfs, lookup_insert_eq.
Qed.
End lemmas.
End Chunk.
