(* ===== verification/Reassembly.v ===== *)
(** * What appending to a chunk does to its bytes

    An abstract reading of a chunk - the bytes of its file and the fragments that wait, ordered
    by offset - and the theorem that [Chunk.append] implements it on a store that does not
    fail. The consequence: the fragments of a byte stream may arrive in any order. *)
From S2P Require Import Prelude Bytes Iobuf Uuid Future Store Chunk.
Import Chunk.
Set Default Goal Selector "!".
Local Open Scope Z_scope.

Module Reassembly.

(** A waiting fragment: its request, its offset and its bytes. *)
Definition Waiting : Type := positive * (Z * list byte).
Definition at_offset (x : Waiting) : Z := fst (snd x).
Definition bytes_of (x : Waiting) : list byte := snd (snd x).
Definition len (bs : list byte) : Z := Z.of_nat (length bs).

(** Once the file holds [bs]: fragments that begin before its end are rejected ([false]), one
    that begins at its end is appended ([true]), the first one beyond stops. *)
Fixpoint absorb (bs : list byte) (q : list Waiting) :
    list byte * list Waiting * list (positive * bool) :=
  match q with
  | [] => (bs, [], [])
  | x :: q' =>
      if at_offset x <? len bs then
        let '(bs', rest, v) := absorb bs q' in (bs', rest, (fst x, false) :: v)
      else if at_offset x =? len bs then
        let '(bs', rest, v) := absorb (bs ++ bytes_of x) q' in (bs', rest, (fst x, true) :: v)
      else (bs, q, [])
  end.

(** No fragment ends beyond what an [uint64_t] can count. *)
Definition fits (q : list Waiting) : Prop :=
  ∀ x, x ∈ q → at_offset x + len (bytes_of x) < 2 ^ 64.

Section views.
Context `{IOBufOps} {FH : Type}.

Definition waiting_of (c : Chunk (FH := FH)) (id : positive) : Waiting :=
  match requests c !! id with
  | Some r => (id, (rq_offset r, iob_bytes (rq_buf r)))
  | None => (id, (0, []))
  end.

(** The waiting fragments of a chunk. *)
Definition pending (c : Chunk (FH := FH)) : list Waiting :=
  waiting_of c <$> _append_request_queue c.

(** A request was answered: success or not. *)
Definition answered (c : Chunk (FH := FH)) (v : positive * bool) : Prop :=
  ∃ r s, requests c !! fst v = Some r ∧ rq_promise r = kResult s ∧ ok s = snd v.
End views.

(** The fragments of a stream that is the concatenation of [bufs], from offset [o] on. *)
Fixpoint fragments `{IOBufOps} (o : Z) (bufs : list IOBuf) : list (Z * IOBuf) :=
  match bufs with
  | [] => []
  | b :: rest => (o, b) :: fragments (o + len (iob_bytes b)) rest
  end.

(** A client that sends its fragments one after the other. *)
Fixpoint append_all `{StoreOps St FH} (frs : list (Z * IOBuf)) :
    Prog (World (St := St) (FH := FH)) (list AppendResult) :=
  match frs with
  | [] => mret []
  | (o, b) :: rest => r ← append b o; rs ← append_all rest; mret (r :: rs)
  end.

(** ** Lemmas *)
Section lemmas.
Context `{StoreReliable St FH} `{!UuidOps} `{!UuidLaws}.
Implicit Types (c : Chunk (FH := FH)) (w : World (St := St) (FH := FH)) (bs : list byte).

Lemma waiting_of_update c id r f x :
  requests c !! id = Some r → rq_offset (f r) = rq_offset r → rq_buf (f r) = rq_buf r →
  ∀ q, waiting_of (set_requests (<[id := f r]> (requests c)) (set_queue q c)) x = waiting_of c x.
Proof.
  intros E Eo Eb q. unfold waiting_of. cbn. destruct (decide (id = x)) as [->|].
  - by rewrite lookup_insert_eq, E, Eo, Eb.
  - by rewrite lookup_insert_ne.
Qed.

Lemma waiting_of_Some c id r :
  requests c !! id = Some r → waiting_of c id = (id, (rq_offset r, iob_bytes (rq_buf r))).
Proof. intros E. unfold waiting_of. by rewrite E. Qed.

Lemma fst_waiting_of c id : fst (waiting_of c id) = id.
Proof. unfold waiting_of. by destruct (requests c !! id). Qed.

Lemma fst_pending c : (pending c).*1 = _append_request_queue c.
Proof.
  unfold pending. rewrite <-list_fmap_compose. rewrite <-(list_fmap_id (_append_request_queue c)) at 2.
  apply list_fmap_ext. intros ? x _. apply fst_waiting_of.
Qed.

(** Every fragment is answered or still waits, in order. *)
Lemma absorb_ids bs q bs' q' v : absorb bs q = (bs', q', v) → q.*1 = v.*1 ++ q'.*1.
Proof.
  revert bs bs' q' v; induction q as [|x q IH]; intros bs bs' q' v; cbn [absorb].
  { by intros [= <- <- <-]. }
  repeat case_match; intros [= <- <- <-]; cbn; [f_equal|f_equal|done]; eauto.
Qed.

Lemma len_app bs1 bs2 : len (bs1 ++ bs2) = len bs1 + len bs2.
Proof. unfold len. rewrite length_app. lia. Qed.

Lemma len_nonneg bs : 0 <= len bs.
Proof. unfold len. lia. Qed.

Lemma sorted_nodup c : queue_ok c → NoDup (_append_request_queue c).
Proof.
  intros [Hs _]. induction Hs as [|x q Hq IH Hx]; constructor; [|done].
  rewrite Forall_forall in Hx. intros Hin%Hx. lia.
Qed.

Lemma pending_resolve status id r w q :
  queue_ok (chunk w) → _append_request_queue (chunk w) = id :: q →
  requests (chunk w) !! id = Some r →
  pending (chunk (on_chunk (resolve status id r) w)) = waiting_of (chunk w) <$> q.
Proof.
  intros Hq Eq Er. unfold pending. cbn [chunk on_chunk]. rewrite (queue_resolve_head _ _ _ _ q) by done.
  apply list_fmap_ext. intros ? x _. by apply waiting_of_update.
Qed.

Lemma append_file_ok w bs off buf :
  file_ok w bs →
  wp (on_store (fh_append (_fh (chunk w)) off buf)) w (λ s w', ok s = true ∧
    w' = set_store (store w') w ∧ keeps_handle w (store w') ∧
    files (store w') = <[path (chunk w) := bs ++ iob_bytes buf]> (files (store w))).
Proof.
  intros Hf. eapply wp_mono; [eapply (wp_and _ _ _ (λ s _, ok s = true)); [by apply append_file|]|].
  - destruct Hf as (h & Hh & Ht & Hb & _). apply wlp_zoom. rewrite Hh. cbn [fh_append].
    by eapply (append_ok _ _ (path (chunk w))).
  - intros s w' ((E & Hk & Hfs) & Hok). cbn in Hok. by rewrite Hok in Hfs.
Qed.

Lemma size_len w bs : file_ok w bs → len bs < 2 ^ 64 → _size (chunk w) = len bs.
Proof. intros (_ & _ & _ & _ & ->) Hlt. apply u64_small. pose proof (len_nonneg bs). unfold len in *. lia. Qed.

(** The loop of [append] computes [absorb]. *)
Definition absorbed w w' bs (q : list Waiting) : Prop :=
  let '(bs', q', v) := absorb bs q in
  files (store w') !! path (chunk w) = Some bs' ∧ pending (chunk w') = q' ∧
  (∀ x, x ∈ v → answered (chunk w') x) ∧
  (∀ id, id ∉ v.*1 → requests (chunk w') !! id = requests (chunk w) !! id).

(** An answered head in front of an absorbed tail. *)
Lemma absorbed_cons w w1 w' bs1 id q b s r :
  requests (chunk w) !! id = Some r → ok s = b → id ∉ q.*1 →
  requests (chunk w1) = <[id := set_promise (kResult s) r]> (requests (chunk w)) →
  path (chunk w1) = path (chunk w) →
  absorbed w1 w' bs1 q →
  let '(bs', q', v) := absorb bs1 q in
  files (store w') !! path (chunk w) = Some bs' ∧ pending (chunk w') = q' ∧
  (∀ x, x ∈ (id, b) :: v → answered (chunk w') x) ∧
  (∀ id', id' ∉ ((id, b) :: v).*1 → requests (chunk w') !! id' = requests (chunk w) !! id').
Proof.
  intros Er Hs Hid Erq Ep. unfold absorbed. destruct (absorb bs1 q) as [[bs' q'] v] eqn:Ea.
  intros (Hfs & Hpd & Hv & Hrest). rewrite Ep in Hfs. apply absorb_ids in Ea.
  assert (id ∉ v.*1) as Hidv by (rewrite Ea in Hid; set_solver).
  split_and!; [done|done| |].
  - intros x [->|Hx]%elem_of_cons; [|by apply Hv].
    exists (set_promise (kResult s) r), s. cbn. rewrite Hrest, Erq by done. by rewrite lookup_insert_eq.
  - cbn. intros id' [Hne Hid']%not_elem_of_cons. rewrite Hrest, Erq by done.
    by rewrite lookup_insert_ne.
Qed.

Lemma drain_absorb n w bs :
  rqs_ok (chunk w) → queue_ok (chunk w) → file_ok w bs → _state (chunk w) ≠ kSealed →
  (length (_append_request_queue (chunk w)) <= n)%nat →
  len bs < 2 ^ 64 → fits (pending (chunk w)) →
  wp (drain n) w (λ _ w', absorbed w w' bs (pending (chunk w))).
Proof.
  revert w bs; induction n as [|n IH]; intros w bs Hr Hq Hf Hst Hlen Hbs Hfit;
    destruct (_append_request_queue (chunk w)) as [|id q] eqn:Eq; cbn in Hlen; try lia.
  1, 2: eapply wp_eval; [by apply drain_nil|]; unfold absorbed, pending; rewrite Eq; cbn;
    destruct Hf as (h & ? & ? & ? & ?); split_and!; try done;
    by intros x ?%elem_of_nil.
  destruct (q_pending _ Hq id) as (r & Er & Ep); [rewrite Eq; left|].
  eapply wp_eq; [by apply (drain_S n w id q r)|].
  assert (pending (chunk w) = (id, (rq_offset r, iob_bytes (rq_buf r))) :: (waiting_of (chunk w) <$> q)) as Epd.
  { unfold pending. rewrite Eq. cbn. by rewrite (waiting_of_Some _ id r). }
  assert (id ∉ (waiting_of (chunk w) <$> q).*1) as Hid.
  { pose proof (sorted_nodup _ Hq) as Hnd. rewrite <-fst_pending, Epd in Hnd.
    by apply NoDup_cons in Hnd as [? _]. }
  rewrite Epd in Hfit |- *. pose proof (size_len w bs Hf Hbs) as Hsz.
  unfold absorbed. cbn [absorb]. cbn [at_offset bytes_of fst snd]. rewrite <-Hsz.
  destruct (Z.ltb_spec (rq_offset r) (_size (chunk w))) as [Hlt|Hge];
    [|destruct (Z.eqb_spec (rq_offset r) (_size (chunk w))) as [He|Hne]].
  - eapply wp_step; [by apply unlink_fulfil_eq|]. cbv beta.
    match goal with |- wp _ (on_chunk (resolve ?s _ _) _) _ =>
      assert (ok s = false) as Es by done; revert Es; generalize s; intros s0 Es end.
    destruct (resolve_head_ok s0 id q r w bs) as (? & ? & ? & Eq' & Est & Hev); try done.
    pose proof (pending_resolve s0 id r w q Hq Eq Er) as Epd'.
    eapply wp_mono; [apply IH; try done; [by rewrite Eq'; lia|]|].
    { rewrite Epd'. intros x Hx. apply Hfit. by right. }
    intros [] w' Hw'. cbv beta in Hw'. rewrite Epd' in Hw'.
    pose proof (absorbed_cons w _ w' bs id _ false s0 r Er Es Hid
                  (eq_refl : requests (chunk (on_chunk (resolve s0 id r) w)) = _) eq_refl Hw') as Habs.
    by destruct (absorb bs _) as [[bs' q'] v].
  - apply wp_bind. eapply wp_mono; [by apply append_file_ok|].
    intros s w1 (Es & E1 & Hk & Hfs). cbv beta. rewrite Es.
    destruct (store_grow w (store w1) bs (rq_buf r)) as [Hf2 Hev2]; [done..|].
    set (w2 := on_chunk _ _) in *.
    assert (rqs_ok (chunk w2) ∧ queue_ok (chunk w2)) as [Hr2 Hq2].
    { destruct Hr, Hq. by split. }
    assert (add_size (iob_size (rq_buf r)) w1 = Some (tt, w2)) as Ea by (unfold w2; by rewrite E1).
    eapply wp_step; [exact Ea|]. cbv beta.
    eapply wp_step; [by apply (unlink_fulfil_eq s id r)|]. cbv beta.
    destruct (resolve_head_ok s id q r w2 (bs ++ iob_bytes (rq_buf r)))
      as (? & ? & ? & Eq' & Est & Hev); try done.
    pose proof (pending_resolve s id r w2 q Hq2 Eq Er) as Epd'.
    eapply wp_mono; [apply (IH _ (bs ++ iob_bytes (rq_buf r))); try done; [by rewrite Eq'; lia| |]|].
    { rewrite len_app, <-Hsz, <-He. apply (Hfit (id, (rq_offset r, iob_bytes (rq_buf r)))). left. }
    { rewrite Epd'. intros x Hx. apply Hfit. by right. }
    intros [] w' Hw'. cbv beta in Hw'. rewrite Epd' in Hw'.
    pose proof (absorbed_cons w _ w' _ id _ true s r Er Es Hid
                  (eq_refl : requests (chunk (on_chunk (resolve s id r) w2)) = _) eq_refl Hw') as Habs.
    by destruct (absorb (bs ++ _) _) as [[bs' q'] v].
  - eapply wp_eval; [done|]. destruct Hf as (h & ? & ? & ? & ?). split_and!; try done.
    by intros x ?%elem_of_nil.
Qed.

Lemma pending_park offset buf c :
  rqs_ok c → queue_ok c →
  pending (park offset buf c) =
  queue_insert at_offset (next_rq c, (offset, iob_bytes buf)) (pending c).
Proof.
  intros Hr Hq. pose proof (ok_fresh _ Hr (next_rq c)) as Hnew.
  assert (∀ x, x ∈ _append_request_queue c → x ≠ next_rq c) as Hne.
  { intros x (r & E & _)%(q_pending _ Hq) ->. rewrite Hnew in E by lia. done. }
  set (c' := park offset buf c).
  assert (waiting_of c' (next_rq c) = (next_rq c, (offset, iob_bytes buf))) as Eid.
  { unfold waiting_of, c', park. cbn. by rewrite lookup_insert_eq. }
  assert (∀ x, x ∈ _append_request_queue c → waiting_of c' x = waiting_of c x) as Ex.
  { intros x Hx%Hne. unfold waiting_of, c', park. cbn. by rewrite lookup_insert_ne. }
  assert (∀ x, offset_in c' x = at_offset (waiting_of c' x)) as Eo.
  { intros x. unfold offset_in, waiting_of. by destruct (requests c' !! x). }
  unfold pending at 1. cbn [_append_request_queue park set_waiters set_timers set_next_rq set_queue c'].
  fold c'. rewrite (queue_insert_ext _ (λ y, at_offset (waiting_of c' y))) by
    (intros; exact (Eo _) || exact (Eo _)).
  rewrite fmap_queue_insert, Eid. f_equal. unfold pending. apply list_fmap_ext.
  intros ? x Hx. apply Ex. by eapply list_elem_of_lookup_2.
Qed.

(** [append], read on the abstract chunk. *)
Lemma append_spec buf offset w bs :
  inv w bs → _state (chunk w) ≠ kSealed → len bs < 2 ^ 64 → fits (pending (chunk w)) →
  offset + len (iob_bytes buf) < 2 ^ 64 →
  wp (append buf offset) w (λ r w',
    if offset <? len bs then
      r = Returned (invalid_offset offset (iob_size buf) (len bs)) ∧ w' = w
    else if offset =? len bs then r = Returned OK ∧
      absorbed w w' (bs ++ iob_bytes buf) (pending (chunk w))
    else r = Parked (next_rq (chunk w)) ∧ w' = on_chunk (park offset buf) w).
Proof.
  intros Hinv Hst Hbs Hfit Hend. pose proof Hinv as [Hr Hq Hf Ha].
  pose proof (size_len w bs Hf Hbs) as Hsz. rewrite <-Hsz.
  destruct (Z.lt_ge_cases (_size (chunk w)) offset) as [Hlt|Hge].
  { eapply wp_eval; [by apply append_parked_eq|].
    rewrite (proj2 (Z.ltb_ge _ _)) by lia. by rewrite (proj2 (Z.eqb_neq _ _)) by lia. }
  unfold append. eapply wp_step; [done|]. rewrite decide_False by done.
  destruct (Z.ltb_spec offset (_size (chunk w))); [by eapply wp_eval|].
  assert (offset = _size (chunk w)) as Eo by lia.
  rewrite (proj2 (Z.eqb_eq _ _)) by done. cbn [negb].
  apply wp_bind. eapply wp_mono; [by apply append_file_ok|].
  intros s w1 (Es & E1 & Hk & Hfs). cbv beta. rewrite Es. cbn [negb].
  destruct (store_grow w (store w1) bs buf) as [Hf2 Hev2]; [done..|].
  set (w2 := on_chunk _ _) in *.
  assert (rqs_ok (chunk w2) ∧ queue_ok (chunk w2)) as [Hr2 Hq2].
  { destruct Hr, Hq. by split. }
  assert (add_size (iob_size buf) w1 = Some (tt, w2)) as Ea by (unfold w2; by rewrite E1).
  eapply wp_step; [exact Ea|]. apply wp_bind.
  eapply wp_mono; [apply (drain_absorb _ w2 (bs ++ iob_bytes buf)); try done|].
  - rewrite len_app. lia.
  - intros [] w3 Hw3. by eapply wp_eval.
Qed.
End lemmas.

(** ** Any arrival order *)
Section stream.
Context `{IOBufLaws} (bufs : list IOBuf).
Context (bufs_nonempty : ∀ b, b ∈ bufs → iob_bytes b ≠ []).

(** The first [k] fragments, and the offset they end at. *)
Definition pre (k : nat) : list byte := concat (iob_bytes <$> take k bufs).
Definition off (k : nat) : Z := len (pre k).
Definition nth_fragment (i : nat) : Z * IOBuf := (off i, default iob_empty (bufs !! i)).

(** [x] is the [i]-th fragment. *)
Definition is_fragment (x : Waiting) (i : nat) : Prop :=
  ∃ b, bufs !! i = Some b ∧ snd x = (off i, iob_bytes b).

Lemma pre_S i b : bufs !! i = Some b → pre (S i) = pre i ++ iob_bytes b.
Proof.
  intros E. unfold pre. rewrite (take_S_r _ _ b) by done.
  rewrite fmap_app, concat_app. cbn. by rewrite app_nil_r.
Qed.

Lemma off_le i j : (i <= j)%nat → off i <= off j.
Proof.
  intros Hij. unfold off, len, pre. apply inj_le.
  replace (take j bufs) with (take i bufs ++ take (j - i) (drop i bufs))
    by (rewrite take_take_drop; f_equal; lia).
  rewrite fmap_app, concat_app, length_app. lia.
Qed.

Lemma off_S i b : bufs !! i = Some b → off i < off (S i).
Proof.
  intros E. unfold off. rewrite (pre_S i b) by done. unfold len. rewrite length_app.
  assert (iob_bytes b ≠ []) as Hne by (by eapply bufs_nonempty, list_elem_of_lookup_2).
  destruct (iob_bytes b); [done|]. cbn. lia.
Qed.

Lemma off_lt i j : (i < j)%nat → (i < length bufs)%nat → off i < off j.
Proof.
  intros Hij [b E]%lookup_lt_is_Some_2. pose proof (off_S i b E).
  pose proof (off_le (S i) j). lia.
Qed.

Lemma off_ltb i j : (i < length bufs)%nat → (j < length bufs)%nat →
  (off i <? off j) = (Z.of_nat i <? Z.of_nat j).
Proof.
  intros Hi Hj. destruct (Z.ltb_spec (Z.of_nat i) (Z.of_nat j)).
  - apply Z.ltb_lt, off_lt; lia.
  - apply Z.ltb_ge, off_le. lia.
Qed.

Lemma is_fragment_lt x i : is_fragment x i → (i < length bufs)%nat ∧ at_offset x = off i.
Proof.
  intros (b & E & Ex). split; [by eapply lookup_lt_Some|]. unfold at_offset. by rewrite Ex.
Qed.

Abbreviation sorted Q := (StronglySorted (λ a b, Z.of_nat a < Z.of_nat b) Q).

(** Absorbing a queue of fragments of the stream goes up to the first gap. *)
Lemma absorb_fragments q : ∀ k Q,
  Forall2 is_fragment q Q → sorted Q → (∀ i, i ∈ Q → (k <= i)%nat) → (k <= length bufs)%nat →
  ∃ k' Q' q' v, absorb (pre k) q = (pre k', q', v) ∧ Forall2 is_fragment q' Q' ∧ sorted Q' ∧
    (∀ i, i ∈ Q' → (k' < i)%nat) ∧ (k' <= length bufs)%nat ∧
    (∀ i, ((i < k')%nat ∨ i ∈ Q') ↔ ((i < k)%nat ∨ i ∈ Q)) ∧ (∀ x, x ∈ v → snd x = true).
Proof.
  induction q as [|x q IH]; intros k Q HQ Hs Hk Hle.
  { apply Forall2_nil_inv_l in HQ as ->. exists k, [], [], []. cbn. split_and!; try done.
    - by intros i ?%elem_of_nil.
    - by intros i ?%elem_of_nil. }
  apply Forall2_cons_inv_l in HQ as (i & Q0 & Hx & HQ & ->).
  apply StronglySorted_inv in Hs as [Hs Hi]. rewrite Forall_forall in Hi.
  destruct (is_fragment_lt _ _ Hx) as [Hlt Eo]. destruct Hx as (b & Eb & Ex).
  assert (k <= i)%nat as Hki by (apply Hk; left).
  cbn [absorb]. rewrite Eo. fold (off k).
  rewrite (proj2 (Z.ltb_ge _ _)) by (by apply off_le).
  destruct (Z.eqb_spec (off i) (off k)) as [E|Hne].
  - assert (i = k) as ->.
    { destruct (decide (i = k)); [done|]. pose proof (off_lt k i). lia. }
    unfold bytes_of. rewrite Ex. cbn [snd]. rewrite <-(pre_S k b) by done.
    destruct (IH (S k) Q0) as (k' & Q' & q' & v & -> & HQ' & Hs' & Hk' & Hle' & Hset & Hv); try done.
    { intros j Hj%Hi. lia. }
    exists k', Q', q', ((fst x, true) :: v). split_and!; try done.
    + intros j. rewrite Hset, elem_of_cons. split; [intros [?|?]|intros [?|[->|?]]].
      * destruct (decide (j = k)); [by right; left|left; lia].
      * by right; right.
      * left; lia.
      * left; lia.
      * by right.
    + intros y [->|Hy]%elem_of_cons; auto.
  - exists k, (i :: Q0), (x :: q), []. split_and!; try done.
    + constructor; [by exists b|done].
    + constructor; [done|]. by apply Forall_forall.
    + intros j [->|Hj%Hi]%elem_of_cons; [|lia].
      destruct (decide (k = i)) as [->|]; [done|lia].
    + by intros y ?%elem_of_nil.
Qed.

Lemma insert_fragment x i q Q :
  is_fragment x i → Forall2 is_fragment q Q →
  Forall2 is_fragment (queue_insert at_offset x q) (queue_insert Z.of_nat i Q).
Proof.
  intros Hx HQ. destruct (is_fragment_lt _ _ Hx) as [Hi Ei].
  induction HQ as [|y j q Q Hy HQ IH]; cbn [queue_insert]; [by repeat constructor|].
  destruct (is_fragment_lt _ _ Hy) as [Hj Ej]. rewrite Ei, Ej, !off_ltb by done.
  repeat case_match; by repeat constructor.
Qed.

Lemma fragments_nth : fragments 0 bufs = nth_fragment <$> seq 0 (length bufs).
Proof.
  assert (∀ l k, drop k bufs = l → fragments (off k) l = nth_fragment <$> seq k (length l)) as Hgen.
  { induction l as [|b l IH]; intros k E; [done|]. cbn [fragments length seq fmap list_fmap].
    assert (bufs !! k = Some b) as Eb.
    { rewrite <-(Nat.add_0_r k), <-lookup_drop, E. done. }
    f_equal; [by unfold nth_fragment; rewrite Eb|].
    rewrite <-IH.
    - f_equal. unfold off. rewrite (pre_S k b) by done. unfold len. rewrite length_app. lia.
    - erewrite drop_S in E by done. by injection E. }
  apply (Hgen bufs 0%nat). done.
Qed.
End stream.

Section arrival.
Context `{StoreReliable St FH} `{!UuidOps} `{!UuidLaws} (bufs : list IOBuf).
Context (bufs_nonempty : ∀ b, b ∈ bufs → iob_bytes b ≠ []).
Context (bufs_fit : len (concat (iob_bytes <$> bufs)) < 2 ^ 64).
Implicit Types (w : World (St := St) (FH := FH)).

Lemma pre_all : pre bufs (length bufs) = concat (iob_bytes <$> bufs).
Proof. unfold pre. by rewrite firstn_all. Qed.

Lemma off_fits k : (k <= length bufs)%nat → off bufs k < 2 ^ 64.
Proof.
  intros Hk. pose proof (off_le bufs k (length bufs) Hk) as Hle. unfold off in *.
  rewrite pre_all in Hle. lia.
Qed.

Lemma fragment_fits i b :
  bufs !! i = Some b → off bufs i + len (iob_bytes b) < 2 ^ 64.
Proof.
  intros E. pose proof (off_fits (S i)) as Hf. unfold off in *.
  rewrite (pre_S bufs i b), len_app in Hf by done. apply Hf.
  apply lookup_lt_Some in E. lia.
Qed.

(** Fragments below [k] are in the file, those in [Q] wait; nothing was refused. *)
Record rep w (k : nat) (Q : list nat) : Prop := {
  rep_inv : inv w (pre bufs k);
  rep_open : _state (chunk w) ≠ kSealed;
  rep_pending : Forall2 (is_fragment bufs) (pending (chunk w)) Q;
  rep_sorted : StronglySorted (λ a b, Z.of_nat a < Z.of_nat b) Q;
  rep_ahead i : i ∈ Q → (k < i)%nat;
  rep_k : (k <= length bufs)%nat;
  rep_answered id r : requests (chunk w) !! id = Some r →
    id ∈ _append_request_queue (chunk w) ∨ answered (chunk w) (id, true);
}.

Lemma fragments_fit q Q : Forall2 (is_fragment bufs) q Q → fits q.
Proof.
  induction 1 as [|x i q Q Hx HQ IH]; intros y; [by intros ?%elem_of_nil|].
  intros [->|Hy]%elem_of_cons; [|by apply IH].
  destruct Hx as (b & E & Ex). unfold at_offset, bytes_of. rewrite Ex. by apply fragment_fits.
Qed.

Lemma off_inj i j :
  (i < length bufs)%nat → (j < length bufs)%nat → off bufs i = off bufs j → i = j.
Proof.
  intros Hi Hj E. destruct (Nat.lt_trichotomy i j) as [Hlt|[?|Hlt]]; [|done|].
  - pose proof (off_lt bufs bufs_nonempty i j Hlt Hi). lia.
  - pose proof (off_lt bufs bufs_nonempty j i Hlt Hj). lia.
Qed.

Lemma inv_functional w bs bs' :
  inv w bs → files (store w) !! path (chunk w) = Some bs' → bs' = bs.
Proof. intros [_ _ (h & _ & _ & Hb & _) _] E. by simplify_eq. Qed.

Lemma arrival_step w k Q i b :
  rep w k Q → bufs !! i = Some b → ¬ ((i < k)%nat ∨ i ∈ Q) →
  wp (append b (off bufs i)) w (λ r w', ∃ k' Q', rep w' k' Q' ∧
    (∀ j, ((j < k')%nat ∨ j ∈ Q') ↔ (j = i ∨ (j < k)%nat ∨ j ∈ Q)) ∧
    (r = Returned OK ∨ ∃ id, r = Parked id) ∧ _uuid (chunk w') = _uuid (chunk w)).
Proof.
  intros [Hinv Hst Hpd Hs Ha Hk Hans] Eb Hnew.
  assert (Z.of_nat k <= Z.of_nat i) as Hki by lia.
  pose proof (off_le bufs k i ltac:(lia)) as Hoff.
  pose proof (append_spec b (off bufs i) w (pre bufs k) Hinv Hst (off_fits k Hk)
    (fragments_fit _ _ Hpd) (fragment_fits i b Eb)) as Hsp.
  eapply wp_mono; [eapply wp_and; [eapply wp_and; [by apply append_inv|apply wp_wlp, Hsp]|
    apply append_state]|].
  cbn beta. intros r w' [[(bs' & Hinv' & Hev) Hspec] Hst']. unfold state_of in Hst'.
  fold (off bufs k) in Hspec. rewrite (proj2 (Z.ltb_ge _ _)) in Hspec by lia.
  destruct (Z.eqb_spec (off bufs i) (off bufs k)) as [E|Hne].
  - assert (i = k) as ->.
    { destruct (decide (i = k)); [done|]. pose proof (off_lt bufs bufs_nonempty k i).
      apply lookup_lt_Some in Eb. lia. }
    destruct Hspec as [-> Habs]. unfold absorbed in Habs.
    rewrite <-(pre_S bufs k b) in Habs by done.
    destruct (absorb_fragments bufs bufs_nonempty (pending (chunk w)) (S k) Q)
      as (k' & Q' & q' & v & Ea & HQ' & Hs' & Hk' & Hle' & Hset & Hv); try done.
    { apply lookup_lt_Some in Eb. lia. }
    rewrite Ea in Habs. destruct Habs as (Hfs & Hpd' & Hvs & Hrest).
    assert (path (chunk w') = path (chunk w)) as Epath by (unfold path; by rewrite (ev_uuid _ _ _ _ Hev)).
    rewrite <-Epath in Hfs.
    apply (inv_functional _ _ _ Hinv') in Hfs as <-.
    exists k', Q'. split; [split|split]; try done.
    + by rewrite Hst'.
    + by rewrite Hpd'.
    + intros id rq E'. destruct (decide (id ∈ v.*1)) as [Hin|Hin].
      * right. apply list_elem_of_fmap in Hin as ([id' ok'] & -> & Hin).
        rewrite (Hv _ Hin : ok' = true) in Hin. by apply Hvs.
      * rewrite Hrest in E' by done. destruct (Hans _ _ E') as [Hq|(r' & s & Er & Ep & Es)].
        -- left. rewrite <-fst_pending, Hpd'. apply absorb_ids in Ea.
           rewrite <-fst_pending, Ea in Hq. apply elem_of_app in Hq as [?|?]; done.
        -- right. exists r', s. cbn in *. by rewrite Hrest.
    + intros j. rewrite Hset. split; [intros [?|?]|intros [->|[?|?]]]; auto; [|by left; lia..].
      destruct (decide (j = k)); [by left|right; left; lia].
    + split; [by left|apply Hev].
  - destruct Hspec as [-> Ew]. exists k, (queue_insert Z.of_nat i Q).
    pose proof Hinv as [Hr Hq _ _].
    split; [split|split].
    + destruct Hinv' as [? ? Hf' ?]. rewrite Ew in *.
      assert (inv (on_chunk (park (off bufs i) b) w) (pre bufs k)); [|done].
      replace (pre bufs k) with bs'; [by split|]. eapply inv_functional; [exact Hinv|].
      by destruct Hf' as (? & _ & _ & ? & _).
    + by rewrite Hst'.
    + rewrite Ew. cbn [chunk on_chunk]. rewrite pending_park by done.
      apply insert_fragment; [done| |done]. by exists b.
    + by apply queue_insert_sorted.
    + intros j [->|Hj]%elem_of_queue_insert; [|by apply Ha].
      destruct (decide (i = k)) as [->|]; [done|lia].
    + done.
    + intros id rq. destruct (decide (next_rq (chunk w) = id)) as [<-|Hne'].
      { intros _. left. rewrite <-fst_pending, Ew. cbn [chunk on_chunk]. rewrite pending_park by done.
        apply list_elem_of_fmap. eexists; split; [|apply queue_insert_in]; [done|].
        intros y (j & Hj & Hy)%(Forall2_elem_of_l _ _ _ _ Hpd). cbn.
        destruct (is_fragment_lt _ _ _ Hy) as [Hlt ->]. intros Eo. destruct Hnew. right.
        rewrite (off_inj i j); [done|by eapply lookup_lt_Some|done|done]. }
      rewrite Ew. cbn.
      rewrite lookup_insert_ne by done. intros E'.
      destruct (Hans _ _ E') as [Hin|(r' & s & Er & Ep & Es)].
      * left. by apply queue_insert_elem_of.
      * right. exists r', s. cbn in *. by rewrite lookup_insert_ne.
    + intros j. split.
      * intros [?|[->|?]%elem_of_queue_insert]; auto.
      * intros [->|[?|?]]; [right|by left|right; by apply queue_insert_elem_of].
        apply queue_insert_in. intros y Hy ?. destruct Hnew. right. by replace i with y by lia.
    + split; [by right; eexists|apply Hev].
Qed.

Definition accepted (r : AppendResult) : Prop := r = Returned OK ∨ ∃ id, r = Parked id.

Lemma append_all_arrival idx : ∀ w k Q,
  rep w k Q → NoDup idx → (∀ i, i ∈ idx → (i < length bufs)%nat ∧ ¬ ((i < k)%nat ∨ i ∈ Q)) →
  wp (append_all (nth_fragment bufs <$> idx)) w (λ rs w', ∃ k' Q', rep w' k' Q' ∧
    (∀ j, ((j < k')%nat ∨ j ∈ Q') ↔ (j ∈ idx ∨ (j < k)%nat ∨ j ∈ Q)) ∧
    Forall accepted rs ∧ _uuid (chunk w') = _uuid (chunk w)).
Proof.
  induction idx as [|i idx IH]; intros w k Q Hrep Hnd His; cbn [append_all fmap list_fmap].
  { eapply wp_eval; [done|]. exists k, Q. split_and!; [done| |by constructor|done].
    intros j. rewrite elem_of_nil. tauto. }
  apply NoDup_cons in Hnd as [Hni Hnd].
  destruct (His i) as [[b Eb]%lookup_lt_is_Some_2 Hnew]; [left|].
  unfold nth_fragment at 1. rewrite Eb. cbn [default]. apply wp_bind.
  eapply wp_mono; [by apply (arrival_step w k Q i b)|].
  cbv beta. intros r w1 (k1 & Q1 & Hrep1 & Hset1 & Hr & Hu1).
  apply wp_bind. eapply wp_mono; [apply (IH w1 k1 Q1); [done|done|]|].
  { intros j Hj. destruct (His j) as [? Hj']; [by right|]. split; [done|].
    intros [->|?]%Hset1; [done|by destruct Hj']. }
  cbv beta. intros rs w2 (k2 & Q2 & Hrep2 & Hset2 & Hrs & Hu2). eapply wp_eval; [done|].
  exists k2, Q2. split_and!; [done| |by constructor|by rewrite Hu2].
  intros j. rewrite Hset2, Hset1, elem_of_cons. tauto.
Qed.

(** The whole stream, from an empty chunk. *)
Lemma arrival_complete frs w :
  frs ≡ₚ fragments 0 bufs → inv w [] → _state (chunk w) ≠ kSealed →
  _append_request_queue (chunk w) = [] → requests (chunk w) = ∅ →
  wp (append_all frs) w (λ rs w', Forall accepted rs ∧
    files (store w') !! path (chunk w) = Some (concat (iob_bytes <$> bufs)) ∧
    _append_request_queue (chunk w') = [] ∧
    (∀ id r, requests (chunk w') !! id = Some r → answered (chunk w') (id, true))).
Proof.
  intros Hperm Hinv Hst Hq Hrq. rewrite fragments_nth in Hperm.
  destruct (Permutation_map_inv _ _ Hperm) as (idx & -> & His).
  eapply wp_mono; [apply (append_all_arrival idx w 0 [])|].
  - split; try done; [unfold pending; by rewrite Hq|constructor|by intros i ?%elem_of_nil|lia|].
    intros id r. rewrite Hrq. by rewrite lookup_empty.
  - rewrite <-His. apply NoDup_seq.
  - intros i. rewrite <-His, elem_of_seq. rewrite elem_of_nil. lia.
  - cbv beta. intros rs w' (k & Q & [Hinv' Hst' Hpd Hs Ha Hk Hans] & Hset & Hrs & Hu).
    assert (∀ j, ((j < k)%nat ∨ j ∈ Q) ↔ (j < length bufs)%nat) as Hall.
    { intros j. rewrite Hset, <-His, elem_of_seq, elem_of_nil. lia. }
    assert (k = length bufs) as ->.
    { destruct (decide (k < length bufs)%nat) as [Hlt|]; [|lia].
      apply Hall in Hlt as [?|?%Ha]; lia. }
    assert (Q = []) as ->.
    { destruct Q as [|i Q]; [done|]. pose proof (Ha i ltac:(left)) as Hi.
      assert (i < length bufs)%nat by (apply Hall; right; left). lia. }
    apply Forall2_nil_inv_r in Hpd. apply fmap_nil_inv in Hpd.
    split_and!; [done| |done|].
    + destruct (inv_file _ _ Hinv') as (h & _ & _ & Hb & _). rewrite <-pre_all, <-Hb.
      unfold path. by rewrite Hu.
    + intros id r E. destruct (Hans id r E) as [Hin|?]; [|done].
      rewrite Hpd in Hin. by apply elem_of_nil in Hin.
Qed.
End arrival.
End Reassembly.
