(* ===== verification/ChunkSpec.v ===== *)
(** * Theorems about chunks

    Safety in every interleaving, the life of an appended request, sealing, reading and the
    reassembly of a stream, for [Chunk.v] over any store that obeys [StoreLaws]; each with a
    witness on the in-memory store. *)
From S2P Require Import Prelude Bytes Iobuf Uuid Future Store MemStore Chunk Reassembly.
Import Chunk Reassembly.
Set Default Goal Selector "!".
Local Open Scope Z_scope.

(** ** A concrete chunk, for the witnesses *)
Module Example.
#[local] Existing Instances ListIOBuf.ops ListIOBuf.laws HexUuid.ops HexUuid.laws.

Definition uuid : UUID := mkUUID (W64 1) (W64 2).
Definition file : string := uuid_str uuid.
Definition St : Type := MemStore.MemStore.
Definition FH : Type := MemStore.MemFileHandle.
Definition store0 : MemStore.MemStore := MemStore.empty_store.
Definition store1 : MemStore.MemStore := MemStore.set_files <[file := iob_empty]> store0.
Definition chunk0 : Chunk (FH := MemStore.MemFileHandle) :=
  set_size 0 (set_state kOpen (set_fh (Some (MemStore.mkMemFileHandle file))
    (new_chunk uuid (mkChunkOptions)))).
(** A chunk just created by [create] on an empty store. *)
Definition world0 : World (St := MemStore.MemStore) (FH := MemStore.MemFileHandle) :=
  mkWorld store1 chunk0.

Definition run {A} (p : Prog (World (St := MemStore.MemStore) (FH := MemStore.MemFileHandle)) A)
    (w : World (St := MemStore.MemStore) (FH := MemStore.MemFileHandle)) :
    World (St := MemStore.MemStore) (FH := MemStore.MemFileHandle) :=
  match p w with Some (_, w') => w' | None => w end.

Lemma world0_inv : inv world0 [].
Proof.
  refine (created_inv uuid (mkChunkOptions) (MemStore.mkMemFileHandle file) store1 [] _ _).
  - done.
  - vm_compute. done.
Qed.
End Example.

Section theorems.
Context `{StoreLaws St FH} `{!UuidOps} `{!UuidLaws} (moved : Status → Status).
Implicit Types (w : World (St := St) (FH := FH)).

(** C1: From its creation on a store that has no file of its name, a chunk keeps its
    invariant in every interleaving of appends, timer callbacks, wake-ups, seals and reads: the
    queue is ordered by strictly increasing offset beyond the end of the file, the size is the
    length of the file, every request that a timer or a blocked caller refers to is allocated.
    And no enabled operation fails an assertion or dereferences a freed request: in particular
    no promise is fulfilled twice and the loop of [append] terminates. *)
Theorem chunk_safe uuid options old st c st' w :
  files st !! uuid_str uuid = None →
  create uuid options (Some tt) (Some old) st = Some ((OK, Some (Some c)), st') →
  rtc (step moved) (mkWorld st' c) w →
  (∃ bs, inv w bs) ∧ ∀ o, enabled o w → is_Some (exec moved o w).
Proof.
  intros Hnew Hc Hst. pose proof (create_wp uuid options old st Hnew) as Hwp.
  unfold wp in Hwp. rewrite Hc in Hwp. cbn [fst snd] in Hwp. rewrite ok_OK in Hwp.
  destruct Hwp as (_ & c' & [= <-] & _ & _ & _ & _ & _ & _ & Hinv).
  destruct (steps_inv moved _ _ _ Hinv Hst) as (bs & Hw & _). split; [by exists bs|].
  intros o Ho. pose proof (exec_inv moved o w bs Hw Ho) as Hwp. unfold wp in Hwp.
  destruct (exec moved o w) as [[[] w']|]; [by eexists|done].
Qed.

(** C9: Whatever happens to a chunk, the bytes already in its file stay where they are and
    no other file changes; once it is sealed it stays sealed and its file does not change at all. *)
Theorem chunk_append_only w w' bs :
  inv w bs → rtc (step moved) w w' →
  ∃ bs', inv w' bs' ∧ bs `prefix_of` bs' ∧
    files (store w') = <[path (chunk w) := bs']> (files (store w)) ∧
    (_state (chunk w) = kSealed → _state (chunk w') = kSealed ∧ bs' = bs).
Proof.
  intros Hinv Hst. destruct (steps_inv moved _ _ _ Hinv Hst) as (bs' & Hw & []). by exists bs'.
Qed.

(** An append to a sealed chunk returns EPERM and an append before the end of
    the file returns EINVAL; neither changes anything. *)
Theorem append_rejects buf offset w :
  (_state (chunk w) = kSealed →
   append buf offset w = Some (Returned (mkStatus EPERM "chunk is sealed"), w)) ∧
  (_state (chunk w) ≠ kSealed → offset < _size (chunk w) →
   append buf offset w =
     Some (Returned (invalid_offset offset (iob_size buf) (_size (chunk w))), w)).
Proof.
  split; intros Hst; [|intros Hlt]; unfold append; erewrite bind_step by done.
  - by rewrite decide_True.
  - rewrite decide_False by done. by rewrite (proj2 (Z.ltb_lt _ _)).
Qed.

(** C15: Sealing returns the exact number of bytes in the file and closes the chunk: every later
    append, from any state reached afterwards, returns EPERM. *)
Theorem seal_spec v w bs w' l w'' buf offset :
  inv w bs → query_and_seal (Some v) w = Some ((OK, l), w') →
  rtc (step moved) w' w'' →
  l = Some (Z.of_nat (length bs)) ∧ files (store w'') !! path (chunk w) = Some bs ∧
  append buf offset w'' = Some (Returned (mkStatus EPERM "chunk is sealed"), w'').
Proof.
  intros Hinv Hq Hst. pose proof (query_and_seal_wp v w bs Hinv) as Hwp.
  unfold wp in Hwp. rewrite Hq in Hwp. cbn [fst snd] in Hwp. rewrite ok_OK in Hwp.
  destruct Hwp as (Hi & He & -> & Hs).
  destruct (steps_inv moved _ _ _ Hi Hst) as (bs' & Hw & Hev).
  destruct (ev_sealed _ _ _ _ Hev Hs) as [Hs' ->]. split_and!; [done| |].
  - rewrite (ev_files _ _ _ _ Hev). unfold path. rewrite (ev_uuid _ _ _ _ He).
    by rewrite lookup_insert_eq.
  - unfold append. erewrite bind_step by done. by rewrite decide_True.
Qed.

(** C6: A blocked append never waits for ever: its timer is registered, and when the timer
    fires the caller, woken up, gets EINVAL, unless another append has answered it before. *)
Theorem pending_answered id r w bs :
  inv w bs → requests (chunk w) !! id = Some r → rq_promise r = kFuture →
  id ∈ timers (chunk w) ∧ id ∈ waiters (chunk w) ∧
  wp (on_timer id;; wake moved id) w (λ res w', ∃ bs', inv w' bs' ∧
    res = Value (invalid_offset (rq_offset r) (iob_size (rq_buf r)) (_size (chunk w))) ∧
    id ∉ waiters (chunk w')).
Proof.
  intros Hinv E Ep. pose proof Hinv as [Hr _ _ _].
  destruct (ok_pending _ Hr _ _ E Ep) as [Ht Hw]. split_and!; [done|done|].
  apply wp_bind. pose proof (on_timer_inv id w bs Hinv Ht) as Ht1.
  eapply wp_exists in Ht1 as ([] & w1 & E1 & bs1 & Hinv1 & _).
  pose proof E1 as E1'. rewrite (on_timer_pending_eq id r) in E1' by done.
  injection E1' as <-. eapply wp_eval; [exact E1|].
  pose proof (wake_inv moved id _ bs1 Hinv1 Hw) as Hwk.
  eapply wp_exists in Hwk as (res & w2 & E2 & bs2 & Hinv2 & _).
  eapply wp_eval; [exact E2|]. exists bs2. split; [done|].
  unfold wake in E2. erewrite bind_step in E2 by (apply rq_at_eq, lookup_insert_eq).
  cbn [rq_promise set_promise set_use_count state_get] in E2.
  set (x := state_get _ _) in E2. vm_compute in x. subst x. cbv beta iota in E2.
  erewrite bind_step in E2 by (apply rq_update_eq, lookup_insert_eq).
  erewrite bind_step in E2 by done.
  erewrite bind_step in E2 by (eapply rq_release_eq, lookup_insert_eq).
  injection E2 as <- <-. split; [done|]. cbn. case_match; cbn; set_solver.
Qed.
End theorems.

Section reads.
Context `{StoreReliable St FH} `{!UuidOps} `{!UuidLaws}.
Implicit Types (w : World (St := St) (FH := FH)).

(** What [read] does once the range was checked. *)
Lemma read_body_ok offset size buf w bs :
  file_ok w bs → 0 <= offset → 0 <= size → offset + size <= len bs →
  wlp ('(status, fh) ← on_store (store_open (Some (path (chunk w))) O_RDONLY (Some None));
       if negb (ok status) then mret (status, Some buf) else
       match fh with
       | None => abort
       | Some fh => on_store (fh_read fh offset size (Some buf))
       end) w (λ r w', chunk w' = chunk w ∧ ok (fst r) = true).
Proof.
  intros (h & Hh & Ht & Hb & _) Ho Hs Hle. apply wlp_bind, wlp_zoom.
  eapply wlp_mono; [apply wlp_and; [apply wp_wlp, open_rdonly, uuid_str_plain|by eapply open_rdonly_ok]|].
  intros [s fh] st1 [(Hk & Hfs & Hr) Hok]. cbn [fst snd] in Hr, Hok. rewrite Hok in Hr |- *.
  destruct Hr as (_ & h1 & -> & Ht1). cbn [negb fh_read]. apply wlp_zoom. cbn [store set_store].
  eapply wlp_mono; [eapply (read_ok _ _ (path (chunk w)) bs); try done; by rewrite Hfs|].
  intros r st2 Hr. by cbn in *.
Qed.

(** C3: On a store that does not fail, [append] at the end of the file implements
    the abstract chunk: it returns OK, its bytes are appended, then the waiting fragments are
    absorbed in order of offset, each answered by success or refusal as [absorb] says, and the
    others keep waiting. An append beyond the end is parked in its place in the queue. *)
Theorem append_refines buf offset w bs :
  inv w bs → _state (chunk w) ≠ kSealed → len bs < 2 ^ 64 → fits (pending (chunk w)) →
  len bs <= offset → offset + len (iob_bytes buf) < 2 ^ 64 →
  wp (append buf offset) w (λ r w',
    if offset =? len bs then
      r = Returned OK ∧
      let '(bs', q', v) := absorb (bs ++ iob_bytes buf) (pending (chunk w)) in
      files (store w') !! path (chunk w) = Some bs' ∧ pending (chunk w') = q' ∧
      (∀ x, x ∈ v → answered (chunk w') x)
    else
      r = Parked (next_rq (chunk w)) ∧
      files (store w') = files (store w) ∧
      pending (chunk w') = queue_insert at_offset (next_rq (chunk w), (offset, iob_bytes buf))
                             (pending (chunk w))).
Proof.
  intros Hinv Hst Hbs Hfit Hge Hend. eapply wp_mono; [by apply (append_spec buf offset w bs)|].
  cbv beta. intros r w'. rewrite (proj2 (Z.ltb_ge _ _)) by done.
  destruct (offset =? len bs); intros [-> Hw']; split; try done.
  - unfold absorbed in Hw'. destruct (absorb _ _) as [[bs' q'] v]. naive_solver.
  - rewrite Hw'. split; [done|]. by apply pending_park; apply Hinv.
Qed.

(** C2: The fragments of a byte stream may arrive in any order: on a store whose operations do not
    fail ([StoreReliable]), when a client sends to a new chunk each fragment of a partition of a
    stream (of less than 2^64 bytes, no fragment empty) once, and the last one arrives before the
    timer of a waiting one expires (only appends run), every append is accepted, the file ends up
    holding the stream, nothing is left waiting and every parked append has been answered by
    success. *)
Theorem reassembly uuid options bufs frs st c st' :
  (∀ b, b ∈ bufs → iob_bytes b ≠ []) → len (concat (iob_bytes <$> bufs)) < 2 ^ 64 →
  frs ≡ₚ fragments 0 bufs →
  files st !! uuid_str uuid = None →
  create uuid options (Some tt) (Some None) st = Some ((OK, Some (Some c)), st') →
  wp (append_all frs) (mkWorld st' c) (λ rs w',
    Forall accepted rs ∧
    files (store w') !! uuid_str uuid = Some (concat (iob_bytes <$> bufs)) ∧
    _append_request_queue (chunk w') = [] ∧
    (∀ id r, requests (chunk w') !! id = Some r → answered (chunk w') (id, true))).
Proof.
  intros Hne Hfit Hperm Hnew Hc. pose proof (create_wp uuid options None st Hnew) as Hwp.
  unfold wp in Hwp. rewrite Hc in Hwp. cbn [fst snd] in Hwp. rewrite ok_OK in Hwp.
  destruct Hwp as (_ & c' & [= <-] & Hu & Hs & _ & Hq & Hrq & _ & Hinv).
  replace (uuid_str uuid) with (path (chunk (mkWorld st' c))) by (unfold path; cbn; by rewrite Hu).
  apply (arrival_complete bufs); try done. cbn. by rewrite Hs.
Qed.

Lemma read_range_wp offset size buf w bs :
  inv w bs → 0 <= offset → 0 <= size → offset + size < 2 ^ 64 → len bs < 2 ^ 64 →
  iob_bytes buf = [] →
  wp (read offset size (Some buf)) w (λ r w',
    files (store w') = files (store w) ∧ chunk w' = chunk w ∧
    if offset + size <=? len bs then
      ok (fst r) = true ∧
      ∃ b, snd r = Some b ∧ iob_bytes b = take (Z.to_nat size) (drop (Z.to_nat offset) bs)
    else r = (out_of_range offset size (_size (chunk w)), Some buf)).
Proof.
  intros Hinv Ho Hs Hsum Hlen Hbuf. pose proof (size_len w bs (inv_file _ _ Hinv) Hlen) as Hsz.
  assert (0 <= offset < 2 ^ 64) as Hoff by lia.
  pose proof (read_wp offset size buf w bs Hinv Hoff) as Hwp.
  apply wp_exists in Hwp as (r & w' & E & Hinv' & Hev & Hr). eapply wp_eval; [exact E|].
  assert (files (store w') = files (store w)) as Hfs.
  { rewrite (ev_files _ _ _ _ Hev). destruct (inv_file _ _ Hinv) as (h & _ & _ & Hb & _).
    by rewrite insert_id. }
  unfold read in E. erewrite bind_step in E by done. cbv beta in E.
  rewrite u64_small, Hsz in E by lia. fold (path (chunk w)) in E.
  destruct (Z.leb_spec (offset + size) (len bs)) as [Hle|Hgt].
  - rewrite (proj2 (Z.ltb_ge _ _)) in E by done.
    assert (chunk w' = chunk w ∧ ok (fst r) = true) as [Hck Hok].
    { exact (wlp_elim _ _ (λ r w', chunk w' = chunk w ∧ ok (fst r) = true) _ _
               (read_body_ok offset size buf w bs (inv_file _ _ Hinv) Ho Hs Hle) E). }
    split_and!; try done. by apply Hr.
  - rewrite (proj2 (Z.ltb_lt _ _)) in E by done. injection E as <- <-. by rewrite Hsz.
Qed.

(** C39: On a store whose operations do not fail ([StoreReliable]), provided the sum of offset and
    size does not wrap around: reading a range inside the file (of less than 2^64 bytes) into an
    empty buffer returns OK and exactly its bytes; a range that ends beyond the file returns EINVAL. Neither changes the chunk nor its file. *)
Theorem read_range offset size buf w bs :
  inv w bs → 0 <= offset → 0 <= size → offset + size < 2 ^ 64 → len bs < 2 ^ 64 →
  iob_bytes buf = [] →
  wp (read offset size (Some buf)) w (λ r w',
    files (store w') = files (store w) ∧ chunk w' = chunk w ∧
    if offset + size <=? len bs then
      ok (fst r) = true ∧
      ∃ b, snd r = Some b ∧ iob_bytes b = take (Z.to_nat size) (drop (Z.to_nat offset) bs)
    else r = (out_of_range offset size (_size (chunk w)), Some buf)).
Proof. apply read_range_wp. Qed.
End reads.

(** ** Behaviours worth knowing *)
Section duplicates.
Context `{StoreLaws St FH} `{!UuidOps} `{!UuidLaws}.
Implicit Types (w : World (St := St) (FH := FH)).

Lemma queue_insert_dup {A} (key : A → Z) x y q :
  StronglySorted (λ a b, key a < key b) q → y ∈ q → key y = key x → queue_insert key x q = q.
Proof.
  induction 1 as [|z q Hq IH Hz]; [by intros ?%elem_of_nil|]. cbn [queue_insert].
  rewrite Forall_forall in Hz. intros [->|Hy]%elem_of_cons Hk.
  - by rewrite !(proj2 (Z.ltb_ge _ _)) by lia.
  - pose proof (Hz _ Hy). rewrite (proj2 (Z.ltb_ge _ _)), (proj2 (Z.ltb_lt _ _)) by lia.
    f_equal. by apply IH.
Qed.

(** An append at an offset where another one already waits blocks its caller but
    does not enter the queue, so that only its timer will answer it. *)
Theorem duplicate_not_queued buf w bs id :
  inv w bs → _state (chunk w) ≠ kSealed → id ∈ _append_request_queue (chunk w) →
  ∃ id' w', append buf (offset_in (chunk w) id) w = Some (Parked id', w') ∧
    (id' ∉ _append_request_queue (chunk w')) ∧
    _append_request_queue (chunk w') = _append_request_queue (chunk w) ∧ id' ∈ timers (chunk w').
Proof.
  intros Hinv Hst Hid. pose proof Hinv as [Hr Hq _ Ha]. eexists _, _.
  split; [apply append_parked_eq; [done|by apply Ha]|].
  assert (next_rq (chunk w) ∉ _append_request_queue (chunk w)) as Hnew.
  { intros (r & E & _)%(q_pending _ Hq). rewrite (ok_fresh _ Hr) in E; [done|lia]. }
  assert (_append_request_queue (park (offset_in (chunk w) id) buf (chunk w)) =
          _append_request_queue (chunk w)) as Eq.
  { cbn. pose proof (q_sorted _ Hq) as Hs.
    rewrite (queue_insert_ext _ (λ x, if decide (x = next_rq (chunk w))
      then offset_in (chunk w) id else offset_in (chunk w) x)).
    - eapply queue_insert_dup; [|exact Hid|].
      + eapply StronglySorted_mono; [|exact Hs]. intros x y Hx Hy.
        rewrite !decide_False by (by intros ->). done.
      + rewrite decide_False by (by intros ->). by rewrite decide_True.
    - unfold offset_in at 1. cbn. rewrite lookup_insert_eq. by rewrite decide_True.
    - intros y Hy. rewrite decide_False by (by intros ->). unfold offset_in. cbn.
      rewrite lookup_insert_ne; [done|]. by intros <-. }
  cbn [chunk on_chunk]. rewrite Eq. split_and!; [done|done|]. cbn. set_solver.
Qed.
End duplicates.

Section overflow.
Context `{IOBufLaws} `{UuidOps}.
Implicit Types (w : World (St := MemStore.MemStore) (FH := MemStore.MemFileHandle)).

(** The range check of [read] adds two [uint64_t]: when the sum wraps around to at most the
    size of the chunk, a range far beyond the end is let through to the store, which in memory
    answers OK with the bytes it has there, not EINVAL. *)
Theorem read_wraps offset size buf w bs :
  inv w bs → 0 <= offset < 2 ^ 64 → 0 <= size < 2 ^ 64 → 2 ^ 64 <= offset + size →
  offset + size - 2 ^ 64 <= _size (chunk w) →
  wp (read offset size (Some buf)) w (λ r w', fst r = OK ∧ w' = w ∧ ∃ b, snd r = Some b ∧
    iob_bytes b = iob_bytes buf ++ take (Z.to_nat size) (drop (Z.to_nat offset) bs)).
Proof.
  intros Hinv Ho Hs Hsum Hsz. destruct (inv_file _ _ Hinv) as (h & _ & _ & Hb & _).
  unfold read. eapply wp_step; [done|]. cbv beta.
  replace (u64 (offset + size)) with (offset + size - 2 ^ 64).
  2: { unfold u64. replace (offset + size) with ((offset + size - 2 ^ 64) + 1 * 2 ^ 64) at 2 by lia.
       rewrite Z.mod_add by lia. rewrite Z.mod_small; lia. }
  rewrite (proj2 (Z.ltb_ge _ _)) by done. fold (path (chunk w)).
  assert (on_store (store_open (Some (path (chunk w))) O_RDONLY (Some None)) w =
    Some ((OK, Some (Some (MemStore.mkMemFileHandle (path (chunk w))))), w)) as Eo.
  { unfold on_store, zoom. cbn [store_open MemStore.mem_store_ops].
    rewrite MemStore.open_Some. cbn in Hb. rewrite MemStore.contents_lookup in Hb.
    destruct (MemStore._files (store w) !! path (chunk w)); [|done]. by destruct w. }
  eapply wp_step; [exact Eo|]. cbv beta iota. rewrite ok_OK. cbn [negb fh_read].
  destruct (MemStore.read_Some (store w) (MemStore.mkMemFileHandle (path (chunk w))) offset size
              buf bs Hb) as (b & Er & Eb).
  apply on_store_wp. eapply wp_eval; [exact Er|]. cbn.
  split_and!; [done|by destruct w|]. by exists b.
Qed.
End overflow.

(** ** Witnesses and concrete behaviours *)
Module Witness.
Import Example.
#[local] Existing Instances ListIOBuf.ops ListIOBuf.laws HexUuid.ops HexUuid.laws.

Definition moved (s : Status) : Status := s.
Definition b1 : @IOBuf ListIOBuf.ops := ([Byte.x61] : list byte).
Definition b2 : @IOBuf ListIOBuf.ops := ([Byte.x62; Byte.x63] : list byte).

(** "bc" at offset 1 is parked. *)
Definition world1 := run (append b2 1) world0.
(** Then "a" at offset 0: the file holds "abc". *)
Definition world2 := run (append b1 0) world1.

Lemma step01 : rtc (step moved) world0 world1.
Proof. apply rtc_once. apply (step_exec _ (OAppend b2 1)); [cbn; lia|by vm_compute]. Qed.

Lemma step12 : rtc (step moved) world1 world2.
Proof. apply rtc_once. apply (step_exec _ (OAppend b1 0)); [cbn; lia|by vm_compute]. Qed.

Lemma created0 :
  create uuid mkChunkOptions (Some tt) (Some None) store0 = Some ((OK, Some (Some chunk0)), store1).
Proof. by vm_compute. Qed.

Lemma chunk_safe_witness : (∃ bs, inv world1 bs) ∧ is_Some (exec moved (OTimer 1) world1).
Proof.
  destruct (chunk_safe moved uuid mkChunkOptions None store0 chunk0 store1 world1) as [Hi Ho].
  - vm_compute. reflexivity.
  - exact created0.
  - exact step01.
  - split; [exact Hi|]. apply Ho. cbn [enabled]. apply (bool_decide_unpack _). vm_compute. exact I.
Defined.

Lemma chunk_append_only_witness :
  ∃ bs', inv world1 bs' ∧ [] `prefix_of` bs' ∧
    files (store world1) = <[path (chunk world0) := bs']> (files (store world0)) ∧
    (_state (chunk world0) = kSealed → _state (chunk world1) = kSealed ∧ bs' = []).
Proof. pose proof (chunk_append_only moved world0 world1 [] world0_inv step01) as Hw. exact Hw. Defined.

(** Sealing the empty chunk. *)
Definition sealed0 := run (query_and_seal (Some 0)) world0.

Lemma sealed0_eq : query_and_seal (Some 0) world0 = Some ((OK, Some 0), sealed0).
Proof. by vm_compute. Qed.

Lemma seal_spec_witness :
  append b1 0 sealed0 = Some (Returned (mkStatus EPERM "chunk is sealed"), sealed0).
Proof.
  pose proof (seal_spec moved 0 world0 [] sealed0 (Some 0) sealed0 b1 0 world0_inv sealed0_eq
                (rtc_refl _ _)) as Hs.
  exact (proj2 (proj2 Hs)).
Defined.

(** "bc" at offset 0. *)
Definition written2 := run (append b2 0) world0.
Lemma sealed0_state : _state (chunk sealed0) = kSealed.
Proof. by vm_compute. Qed.
Lemma written2_state : _state (chunk written2) ≠ kSealed ∧ 1 < _size (chunk written2).
Proof. by vm_compute. Qed.

Lemma append_rejects_witness :
  append b1 0 sealed0 = Some (Returned (mkStatus EPERM "chunk is sealed"), sealed0) ∧
  append b1 1 written2 =
    Some (Returned (invalid_offset 1 (iob_size b1) (_size (chunk written2))), written2).
Proof.
  pose proof (proj1 (append_rejects b1 0 sealed0) sealed0_state) as H1.
  pose proof (proj2 (append_rejects b1 1 written2) (proj1 written2_state) (proj2 written2_state)) as H2.
  split; [exact H1|exact H2].
Defined.

Lemma world1_inv : inv world1 [].
Proof.
  destruct (steps_inv moved world0 world1 [] world0_inv step01) as (bs & Hi & _).
  destruct (inv_file _ _ Hi) as (h & _ & _ & Hb & _). vm_compute in Hb. by injection Hb as <-.
Qed.

Lemma pending_answered_witness :
  wp (on_timer 1;; wake moved 1) world1 (λ res w', ∃ bs', inv w' bs' ∧
    res = Value (invalid_offset 1 2 0) ∧ 1%positive ∉ waiters (chunk w')).
Proof.
  destruct (pending_answered moved 1 (mkAppendRequest 1 b2 kFuture 2) world1 [] world1_inv)
    as (_ & _ & Hw); [vm_compute; reflexivity|reflexivity|exact Hw].
Defined.

Lemma world1_state : _state (chunk world1) ≠ kSealed.
Proof. by vm_compute. Qed.
Lemma world1_fits : fits (pending (chunk world1)).
Proof. intros x Hx. vm_compute in Hx. apply list_elem_of_singleton in Hx as ->. by vm_compute. Qed.
Lemma world1_absorb :
  absorb ([] ++ iob_bytes b1) (pending (chunk world1)) =
  ([Byte.x61; Byte.x62; Byte.x63], [], [(1%positive, true)]).
Proof. by vm_compute. Qed.

Lemma append_refines_witness :
  wp (append b1 0) world1 (λ r w', r = Returned OK ∧
    files (store w') !! path (chunk world1) = Some [Byte.x61; Byte.x62; Byte.x63]).
Proof.
  pose proof (append_refines b1 0 world1 [] world1_inv world1_state
                ltac:(by vm_compute) world1_fits ltac:(by vm_compute) ltac:(by vm_compute)) as Hw.
  eapply wp_mono; [exact Hw|]. cbv beta. change (0 =? len []) with true. cbv iota.
  rewrite world1_absorb. intros r w' (-> & Hf & _). split; [reflexivity|exact Hf].
Defined.

Lemma stream_nonempty b : b ∈ [b1; b2] → iob_bytes b ≠ [].
Proof. by intros [->|[->|[]%elem_of_nil]%elem_of_cons]%elem_of_cons. Qed.
Lemma store0_new : files store0 !! uuid_str uuid = None.
Proof. by vm_compute. Qed.
Lemma stream_order : [(1, b2); (0, b1)] ≡ₚ fragments 0 [b1; b2].
Proof. apply perm_swap. Qed.

Lemma reassembly_witness :
  wp (append_all [(1, b2); (0, b1)]) world0 (λ rs w',
    files (store w') !! uuid_str uuid = Some (concat (iob_bytes <$> [b1; b2]))).
Proof.
  pose proof (reassembly uuid mkChunkOptions [b1; b2] [(1, b2); (0, b1)] store0 chunk0 store1
                stream_nonempty ltac:(by vm_compute) stream_order store0_new created0) as Hw.
  eapply wp_mono; [exact Hw|]. cbv beta. intros rs w' (_ & Hf & _). exact Hf.
Defined.

Lemma read_range_witness :
  wp (read 0 5 (Some [])) world0 (λ r _, r = (out_of_range 0 5 (_size (chunk world0)), Some [])).
Proof.
  pose proof (read_range 0 5 [] world0 [] world0_inv ltac:(by vm_compute) ltac:(by vm_compute)
                ltac:(by vm_compute) ltac:(by vm_compute) eq_refl) as Hw.
  eapply wp_mono; [exact Hw|]. cbv beta. change (0 + 5 <=? len []) with false.
  intros r w' (_ & _ & Hr). exact Hr.
Defined.

Lemma world1_queue : 1%positive ∈ _append_request_queue (chunk world1).
Proof. apply (bool_decide_unpack _). by vm_compute. Qed.

Lemma duplicate_not_queued_witness :
  ∃ id' w', append b1 (offset_in (chunk world1) 1) world1 = Some (Parked id', w') ∧
    (id' ∉ _append_request_queue (chunk w')) ∧
    _append_request_queue (chunk w') = _append_request_queue (chunk world1) ∧
    id' ∈ timers (chunk w').
Proof.
  pose proof (duplicate_not_queued b1 world1 [] 1 world1_inv world1_state world1_queue) as Hw.
  exact Hw.
Defined.

Lemma read_wraps_witness :
  wp (read (2 ^ 64 - 1) 1 (Some [])) world0 (λ r w', fst r = OK ∧ w' = world0).
Proof.
  pose proof (read_wraps (2 ^ 64 - 1) 1 [] world0 [] world0_inv ltac:(lia) ltac:(lia) ltac:(lia)
                ltac:(by vm_compute)) as Hw.
  eapply wp_mono; [exact Hw|]. cbv beta. intros r w' (E & Ew & _). split; [exact E|exact Ew].
Defined.

(** An append that waited and was answered by another append is never
    freed: its timer callback returns early without giving back its reference, so that after
    the callback and the caller's wake-up the request is still allocated although no timer and
    no caller refers to it. *)
Theorem answered_request_leaks :
  let w := run (wake moved 1) (run (on_timer 1) world2) in
  timers (chunk w) = ∅ ∧ waiters (chunk w) = ∅ ∧ _append_request_queue (chunk w) = [] ∧
  use_count <$> requests (chunk w) !! 1%positive = Some 1.
Proof. vm_compute. done. Qed.
End Witness.
