(* ===== verification/ChunkLifetime.v ===== *)
(** * The lifetime of a chunk and its waiting appends ([src/manusya/chunk.cc])

    [Chunk.v] runs the timer callback of a waiting append as one step under the chunk's mutex.
    This file looks inside it, at who keeps the objects alive. A waiting append has an
    [AppendRequest], held by the blocked caller ([rq]) and by the timer (a reference added by
    hand), which holds the chunk; the bank and every handler hold the chunk. The callback locks
    the mutex of [rq->chunk], answers the request, releases its reference and, at the end of
    its scope, unlocks; the steps of other bthreads fall in between. The objects are those of
    [RefCount.v]. Offsets and data are left out: which append absorbs which request is left open. *)
From S2P Require Import Prelude RefCount.
Import RefCount.RefCount.
Set Default Goal Selector "!".
Local Open Scope Z_scope.

Module ChunkLifetime.

(** The pointers to the objects around one chunk: the bank's store and its entry for the chunk,
    the handle while a chunk is made, the [ChunkPtr] of handler [i], its local [rq], and the
    reference that [intrusive_ptr_add_ref(rq.get())] makes for the timer. *)
Inductive Var :=
| VStore | VBank | VHandle
| VHandler (i : positive) | VLocal (i : positive) | VTimer (i : positive).
#[export] Instance Var_eq_dec : EqDecision Var.
Proof. solve_decision. Defined.
#[export] Instance Var_countable : Countable Var.
Proof.
  refine (inj_countable' (λ v, match v with
    | VStore => (0%nat, 1%positive) | VBank => (1%nat, 1%positive) | VHandle => (2%nat, 1%positive)
    | VHandler i => (3%nat, i) | VLocal i => (4%nat, i) | VTimer i => (5%nat, i) end)
    (λ p, match p with
    | (0%nat, _) => VStore | (1%nat, _) => VBank | (2%nat, _) => VHandle
    | (3%nat, i) => VHandler i | (4%nat, i) => VLocal i | (_, i) => VTimer i end) _).
  by intros [].
Defined.

Definition ty (x : Var) : Kind :=
  match x with
  | VStore => KStore | VHandle => KFileHandle | VBank | VHandler _ => KChunk
  | VLocal _ | VTimer _ => KAppendRequest
  end.

(** Where the timer callback of a request stands: not fired, holding the mutex, having called
    [set_value], about to leave its scope, done. *)
Inductive TimerPc := Armed | Locked | Answered | Returning | Finished.
#[export] Instance TimerPc_eq_dec : EqDecision TimerPc.
Proof. solve_decision. Defined.

(** A request: its address, whether its promise is fulfilled, its timer. *)
Record Request := mkRequest { addr : positive; ready : bool; timer : TimerPc }.

(** [mutex]: the callback that holds the chunk's mutex, and the address of the chunk. *)
Record State := mkState {
  heap : Heap Var;
  mutex : option (positive * positive);
  requests : gmap positive Request;
}.

Definition set_heap (h : Heap Var) (s : State) : State := mkState h (mutex s) (requests s).
Definition set_mutex m (s : State) : State := mkState (heap s) m (requests s).
Definition set_request i r (s : State) : State := mkState (heap s) (mutex s) (<[i := r]> (requests s)).

Definition on_heap {A} (p : Prog (Heap Var) A) : Prog State A := zoom heap set_heap p.
Definition pointer (o : PtrOp) : Prog State unit := on_heap (exec ty o).

Definition request (i : positive) : Prog State Request :=
  s ← get; match requests s !! i with Some r => mret r | None => abort end.

(** [Bank::create_chunk]: the chunk with its handle and store. *)
Definition create : Prog (Heap Var) unit :=
  exec ty (ONew VBank);;
  exec ty (OSet VBank 1 VStore);;
  exec ty (ONew VHandle);;
  exec ty (OSet VHandle 0 VStore);;
  exec ty (OSet VBank 0 VHandle);;
  exec ty (ODrop VHandle).

(** The branch of [Chunk::append] for an append ahead of the end: the request, its fields, the
    reference for the timer. *)
Definition park (i : positive) : Prog State unit :=
  pointer (ONew (VLocal i));;
  pointer (OSet (VLocal i) 0 (VHandler i));;
  pointer (OCopy (VTimer i) (VLocal i));;
  rq ← on_heap (read_var (VLocal i));
  match rq with
  | None => abort
  | Some p => modify (set_request i (mkRequest p false Armed))
  end.

(** The loop of [append] fulfils a waiting request that it finds in the queue, which holds no
    reference. *)
Definition absorb (i : positive) : Prog State unit :=
  r ← request i;
  _ ← on_heap (deref (addr r));
  modify (set_request i (mkRequest (addr r) true (timer r))).

(** [rq->chunk] in the callback, and an access to that chunk. *)
Definition chunk_of (r : Request) : Prog State positive :=
  o ← on_heap (deref (addr r));
  match field 0 o with
  | None => abort
  | Some c => _ ← on_heap (deref c); mret c
  end.

(** The callback, one statement at a time: [std::unique_lock lock(rq->chunk->_mutex)];
    the test of [is_ready()], and [set_value] if it fails; [intrusive_ptr_release(rq)]; the
    destructor of [lock], on the mutex it has the address of. *)
Definition on_timer (i : positive) : Prog State unit :=
  r ← request i;
  match timer r with
  | Armed =>
      c ← chunk_of r;
      modify (set_mutex (Some (i, c)));;
      modify (set_request i (mkRequest (addr r) (ready r) Locked))
  | Locked =>
      _ ← chunk_of r;
      if ready r then modify (set_request i (mkRequest (addr r) true Returning))
      else modify (set_request i (mkRequest (addr r) true Answered))
  | Answered =>
      pointer (ODrop (VTimer i));;
      modify (set_request i (mkRequest (addr r) (ready r) Returning))
  | Returning =>
      s ← get;
      match mutex s with
      | None => abort
      | Some (_, c) =>
          _ ← on_heap (deref c);
          modify (set_mutex None);;
          modify (set_request i (mkRequest (addr r) (ready r) Finished))
      end
  | Finished => mret tt
  end.

Inductive Action :=
| AGet (i : positive)         (* handler [i] gets the chunk from the bank *)
| APark (i : positive)        (* its append waits *)
| AAbsorb (j i : positive)    (* the append of handler [j] fulfils request [i] *)
| ATimer (i : positive)       (* the next statement of the callback *)
| AWake (i : positive)        (* the caller wakes up: [rq] goes out of scope *)
| AReturn (i : positive)      (* handler [i] returns *)
| ARemove.                    (* [Bank::remove_chunk] *)

Definition in_scope (x : Var) (s : State) : Prop := is_Some (vars (heap s) !! x).
Definition is_ready (i : positive) (s : State) : bool :=
  match requests s !! i with Some r => ready r | None => false end.

(** What the bthreads can do: [append] and the start of a callback need the mutex. *)
Definition enabled (a : Action) (s : State) : Prop :=
  match a with
  | AGet i => in_scope VBank s ∧ ¬ in_scope (VHandler i) s ∧ requests s !! i = None
  | APark i => in_scope (VHandler i) s ∧ mutex s = None ∧ requests s !! i = None
  | AAbsorb j i => in_scope (VHandler j) s ∧ ¬ in_scope (VLocal j) s ∧ mutex s = None ∧
                   is_Some (requests s !! i) ∧ is_ready i s = false
  | ATimer i => ∃ r, requests s !! i = Some r ∧ timer r ≠ Finished ∧ (timer r = Armed → mutex s = None)
  | AWake i => in_scope (VLocal i) s ∧ is_ready i s = true
  | AReturn i => in_scope (VHandler i) s ∧ ¬ in_scope (VLocal i) s
  | ARemove => in_scope VBank s
  end.

#[export] Instance enabled_dec a s : Decision (enabled a s).
Proof.
  destruct a as [i|i|j i|i|i|i|]; cbn; try apply _.
  destruct (requests s !! i) as [r|]; [|right; by intros (?&?&_)].
  refine (cast_if (decide (timer r ≠ Finished ∧ (timer r = Armed → mutex s = None)))).
  - exists r. naive_solver.
  - intros (?&[= <-]&?). naive_solver.
Defined.

Definition act (a : Action) : Prog State unit :=
  match a with
  | AGet i => pointer (OCopy (VHandler i) VBank)
  | APark i => park i
  | AAbsorb _ i => absorb i
  | ATimer i => on_timer i
  | AWake i => pointer (ODrop (VLocal i))
  | AReturn i => pointer (ODrop (VHandler i))
  | ARemove => pointer (ODrop VBank)
  end.

Definition step (s s' : State) : Prop := ∃ a, enabled a s ∧ act a s = Some (tt, s').

(** A schedule, if every action of it is enabled and succeeds. *)
Fixpoint run (l : list Action) (s : State) : option State :=
  match l with
  | [] => Some s
  | a :: l => if decide (enabled a s) then '(_, s') ← act a s; run l s' else None
  end.

(** A chunk server with one new chunk. *)
Definition start_heap : option (Heap Var) :=
  snd <$> (exec ty (ONew VStore);; create) empty_heap.
Definition start : State :=
  mkState (default empty_heap start_heap) None ∅.

(** The address of the chunk. *)
Definition the_chunk : positive := 2.

(** ** The invariant *)
Definition holding : list TimerPc := [Armed; Locked; Answered].
Definition locking : list TimerPc := [Locked; Answered; Returning].

Record inv (n : Z) (s : State) : Prop := {
  i_wf : wf ty (heap s);
  i_below : below n (heap s);
  i_chunk x p : ty x = KChunk → vars (heap s) !! x = Some p → p = Some the_chunk;
  i_refs i x p : x = VLocal i ∨ x = VTimer i → vars (heap s) !! x = Some p →
                 ∃ r, requests s !! i = Some r ∧ p = Some (addr r);
  i_held i r : requests s !! i = Some r → timer r ∈ holding → in_scope (VTimer i) s;
  i_pending i r : requests s !! i = Some r → ready r = false → timer r ∈ [Armed; Locked];
  i_target i r : requests s !! i = Some r → in_scope (VTimer i) s →
                 ∃ o, objects (heap s) !! addr r = Some o ∧ fields o = [Some the_chunk];
  i_owner i r : requests s !! i = Some r → timer r ∈ locking → mutex s = Some (i, the_chunk);
}.

Lemma chunk_live n s x : inv n s → ty x = KChunk → in_scope x s → is_Some (objects (heap s) !! the_chunk).
Proof.
  intros I Hx [p Hp]. pose proof (i_chunk _ _ I x p Hx Hp) as ->.
  destruct (wf_vars _ _ _ (i_wf _ _ I) x _ Hp the_chunk) as (o&?&_); [done|]. by exists o.
Qed.

(** A request that is still referenced by its timer keeps the chunk alive. *)
Lemma timer_keeps_chunk n s i r :
  inv n s → requests s !! i = Some r → in_scope (VTimer i) s →
  ∃ o, objects (heap s) !! addr r = Some o ∧ field 0 o = Some the_chunk ∧ is_Some (objects (heap s) !! the_chunk).
Proof.
  intros I Hr Hi. destruct (i_target _ _ I i r Hr Hi) as (o&Ho&Hf). exists o.
  split_and!; [done|unfold field; by rewrite Hf|].
  pose proof (wf_fields _ _ _ (i_wf _ _ I) _ o Ho) as HF. rewrite Hf in HF.
  inversion HF as [|k ? ? ? Hfit]; subst. destruct (Hfit the_chunk) as (oc&?&_); [done|]. by exists oc.
Qed.

Lemma chunk_of_eq n s i r :
  inv n s → requests s !! i = Some r → in_scope (VTimer i) s → chunk_of r s = Some (the_chunk, s).
Proof.
  intros I Hr Hi. destruct (timer_keeps_chunk _ _ _ _ I Hr Hi) as (o&Ho&Hf&[oc Hoc]). unfold chunk_of, on_heap.
  erewrite bind_step by (apply zoom_step; by apply deref_eq). cbn beta. rewrite Hf.
  erewrite bind_step by (apply zoom_step; by apply deref_eq). by destruct s.
Qed.

(** Changing a request whose timer reference stays. *)
Lemma inv_set_request n s i r r' m :
  inv n s → requests s !! i = Some r → addr r' = addr r →
  (timer r' ∈ holding → timer r ∈ holding) →
  (ready r' = false → timer r' ∈ [Armed; Locked]) →
  (timer r' ∈ locking → m = Some (i, the_chunk)) →
  (m = mutex s ∨ ∀ j, j ≠ i → mutex s ≠ Some (j, the_chunk)) →
  inv n (set_request i r' (set_mutex m s)).
Proof.
  intros [W B C R H P T O] Hr Ha Hh Hp Ho Hm. split; cbn; try done.
  - intros j x p Hx Hv. destruct (R j x p Hx Hv) as (r1&Hr1&->).
    destruct (decide (i = j)) as [<-|]; [|exists r1; by rewrite lookup_insert_ne].
    exists r'. rewrite lookup_insert_eq. split; [done|]. congruence.
  - intros j r1. rewrite lookup_insert_Some. intros [[<- <-]|[_ Hj]] Ht; [by eapply H, Hh|by eapply H].
  - intros j r1. rewrite lookup_insert_Some. intros [[<- <-]|[_ Hj]]; [done|by eapply P].
  - intros j r1. rewrite lookup_insert_Some. intros [[<- <-]|[_ Hj]] Hi; [rewrite Ha|]; by eapply T.
  - intros j r1. rewrite lookup_insert_Some. intros [[<- <-]|[Hne Hj]] Ht; [by apply Ho|].
    destruct Hm as [->|Hm]; [by eapply O|]. exfalso. eapply (Hm j); [done|by eapply O].
Qed.

(** Dropping a pointer that no callback still needs. *)
Lemma inv_drop n s x :
  inv n s → 0 <= n < int_max → in_scope x s →
  (∀ i r, x = VTimer i → requests s !! i = Some r → timer r ∉ holding) →
  wp (pointer (ODrop x)) s (λ _ s', inv (n + 1) s' ∧ mutex s' = mutex s ∧ requests s' = requests s ∧
    vars (heap s') = delete x (vars (heap s))).
Proof.
  intros [W B C R H P T O] Hn [p Hp] Hx. unfold pointer, on_heap. apply wp_zoom.
  eapply wp_mono; [by eapply (drop_wp ty n)|]. cbn. intros _ h' (W'&B'&V'&Sh).
  assert (Hsub : ∀ y q, vars h' !! y = Some q → vars (heap s) !! y = Some q).
  { intros y q. rewrite V'. rewrite lookup_delete_Some. by intros [_ ?]. }
  split_and!; [|done..|done]. split; cbn; try done.
  - intros y q Hy Hq. eapply C; [done|by apply Hsub].
  - intros i y q Hy Hq. eapply R; [done|by apply Hsub].
  - intros i r Hr Ht. destruct (H i r Hr Ht) as [q Hq]. exists q. cbn. rewrite V', lookup_delete_ne; [done|].
    intros ->. by eapply Hx.
  - intros i r Hr [q Hq]. cbn in Hq. destruct (T i r Hr) as (o&Ho&Hf); [exists q; by apply Hsub|].
    destruct (R i (VTimer i) q) as (r1&Hr1&->); [by right|by apply Hsub|]. simplify_eq.
    destruct (wf_vars _ _ _ W' _ _ Hq (addr r)) as (o'&Ho'&_); [done|].
    exists o'. split; [done|]. destruct (sh_objects _ _ Sh _ o' Ho') as (o2&Ho2&_&Hf2&_).
    cbn in Ho2. simplify_eq. congruence.
Qed.

Lemma inv_get n s i :
  inv n s → 0 <= n < int_max → in_scope VBank s → vars (heap s) !! VHandler i = None →
  wp (pointer (OCopy (VHandler i) VBank)) s (λ _ s', inv (n + 1) s' ∧ mutex s' = mutex s ∧
    requests s' = requests s ∧ ∃ r, vars (heap s') = <[VHandler i := r]> (vars (heap s))).
Proof.
  intros [W B C R H P T O] Hn [p Hp] Hx. unfold pointer, on_heap. apply wp_zoom.
  eapply wp_mono; [by eapply (copy_wp ty n)|]. cbn. intros _ h' (W'&B'&K'&V').
  split_and!; [|done..|by exists p]. split; cbn; try done.
  - intros y q Hy. rewrite V', lookup_insert_Some. intros [[<- <-]|[_ Hq]]; [by apply (C VBank)|by eapply C].
  - intros j y q Hy. rewrite V', lookup_insert_Some. intros [[<- _]|[_ Hq]]; [naive_solver|by eapply R].
  - intros j r Hr Ht. destruct (H j r Hr Ht) as [q Hq]. exists q. cbn. by rewrite V', lookup_insert_ne.
  - intros j r Hr [q Hq]. cbn in Hq. rewrite V', lookup_insert_ne in Hq by done.
    destruct (T j r Hr) as (o&Ho&Hf); [by exists q|].
    destruct (K' _ o Ho) as (o'&?&_&?). exists o'. split; [done|congruence].
Qed.

Lemma no_request n s i x :
  inv n s → requests s !! i = None → x = VLocal i ∨ x = VTimer i → vars (heap s) !! x = None.
Proof.
  intros I Hi Hx. destruct (vars (heap s) !! x) as [p|] eqn:E; [|done].
  destruct (i_refs _ _ I i x p Hx E) as (r&?&_). congruence.
Qed.

Lemma inv_park n s i :
  inv n s → 0 <= n → n + 3 < int_max → in_scope (VHandler i) s → requests s !! i = None →
  wp (park i) s (λ _ s', inv (n + 3) s' ∧ mutex s' = mutex s ∧
    (∃ r, requests s' = <[i := r]> (requests s)) ∧
    ∃ p, vars (heap s') = <[VTimer i := p]> (<[VLocal i := p]> (vars (heap s)))).
Proof.
  intros I Hn0 Hn3 [ph Hph] Hi. pose proof I as [W B C R H P T O].
  assert (Hl : vars (heap s) !! VLocal i = None) by (eapply no_request; [exact I|done|by left]).
  assert (Ht : vars (heap s) !! VTimer i = None) by (eapply no_request; [exact I|done|by right]).
  unfold park, pointer, on_heap. apply wp_bind, wp_zoom.
  eapply wp_mono; [apply (new_wp ty n); [lia|done..]|]. intros [] h1 (W1&B1&K1&V1&F1&O1).
  set (p := next (heap s)) in *.
  apply wp_bind, wp_zoom. cbn [set_heap heap].
  eapply wp_mono; [eapply (set_wp ty (n + 1)); [lia|done|done|by rewrite V1, lookup_insert_eq|
    by rewrite O1, lookup_insert_eq|rewrite V1, lookup_insert_ne by done; exact Hph|done]|].
  intros [] h2 (W2&B2&V2&S2). specialize (S2 eq_refl).
  apply wp_bind, wp_zoom. cbn [set_heap heap].
  eapply wp_mono; [eapply (copy_wp ty (n + 1 + 1)); [lia|done|done| | |done]|].
  { by rewrite V2, V1, lookup_insert_ne. }
  { by rewrite V2, V1, lookup_insert_eq. }
  intros [] h3 (W3&B3&K3&V3). cbn [set_heap heap].
  rewrite V2, V1 in V3.
  eapply wp_step. { apply zoom_step, read_var_eq. cbn. by rewrite V3, lookup_insert_ne, lookup_insert_eq by done. }
  cbn beta iota. unfold wp, modify. split_and!; [|done|by eexists|by exists (Some p)].
  pose proof (C (VHandler i) ph eq_refl Hph) as ->.
  assert (Hold : ∀ q o, objects (heap s) !! q = Some o →
    ∃ o', objects h3 !! q = Some o' ∧ kind o' = kind o ∧ fields o' = fields o).
  { intros q o Hq. destruct (K1 q o Hq) as (o1&Ho1&Hk1&Hf1). destruct (S2 q o1 Ho1) as (o2&Ho2&Hk2&Hf2).
    destruct (K3 q o2 Ho2) as (o3&Ho3&Hk3&Hf3). exists o3. split_and!; [done|congruence|].
    rewrite decide_False in Hf2 by (intros <-; congruence). congruence. }
  split; cbn; try done.
  - eapply below_mono; [|exact B3]. lia.
  - intros y q Hy. rewrite V3, !lookup_insert_Some. intros [[<- _]|[_ [[<- _]|[_ Hq]]]]; [done..|by eapply C].
  - intros j y q Hy. rewrite V3, !lookup_insert_Some. intros Hq.
    destruct (decide (i = j)) as [<-|Hne].
    + eexists. rewrite lookup_insert_eq. split; [done|]. cbn.
      destruct Hq as [[_ <-]|[? [[_ <-]|[? Hq]]]]; [done..|]. destruct Hy; congruence.
    + rewrite lookup_insert_ne by done.
      destruct Hq as [[<- _]|[_ [[<- _]|[_ Hq]]]]; [naive_solver..|by eapply R].
  - intros j r. rewrite lookup_insert_Some. unfold in_scope. cbn. rewrite V3. intros [[<- <-]|[Hne Hj]] Hh.
    + rewrite lookup_insert_eq. by eexists.
    + rewrite !lookup_insert_ne by congruence. by eapply H.
  - intros j r. rewrite lookup_insert_Some. intros [[<- <-]|[_ Hj]] Hh; [by left|by eapply P].
  - intros j r. rewrite lookup_insert_Some. unfold in_scope. cbn. rewrite V3. intros [[<- <-]|[Hne Hj]].
    + intros _. destruct (S2 p (mkObject KAppendRequest 1 [None])) as (o2&Ho2&_&Hf2); [by rewrite O1, lookup_insert_eq|].
      rewrite decide_True in Hf2 by done. destruct (K3 p o2 Ho2) as (o3&Ho3&_&Hf3).
      exists o3. split; [done|]. by rewrite Hf3, Hf2.
    + rewrite !lookup_insert_ne by congruence. intros Hs. destruct (T j r Hj Hs) as (o&Ho&Hf).
      destruct (Hold _ o Ho) as (o'&?&_&?). exists o'. split; [done|congruence].
  - intros j r. rewrite lookup_insert_Some. intros [[<- <-]|[_ Hj]] Hh; [|by eapply O].
    cbn in Hh. unfold locking in Hh. set_solver.
Qed.

(** The callback of request [i] is about to unlock a mutex that is gone with its chunk. *)
Definition dangling (i : positive) (s : State) : Prop :=
  (∃ r, requests s !! i = Some r ∧ timer r = Returning) ∧ objects (heap s) !! the_chunk = None.

Lemma request_eq i r s : requests s !! i = Some r → request i s = Some (r, s).
Proof. intros E. unfold request. erewrite bind_step by done. by rewrite E. Qed.

Lemma set_mutex_id s : set_mutex (mutex s) s = s.
Proof. by destruct s. Qed.

(** The request at [p] was answered by somebody else than its callback, whose reference is
    still there. *)
Definition kept (i p : positive) (s : State) : Prop :=
  ∃ r, requests s !! i = Some r ∧ addr r = p ∧ ready r = true ∧ timer r ≠ Answered ∧ in_scope (VTimer i) s.

(** One action: it succeeds unless it is the dangling unlock, keeps the invariant, and a kept
    request stays kept. *)
Definition act_post n s (_ : unit) s' : Prop := inv (n + 3) s' ∧ ∀ i p, kept i p s → kept i p s'.

Lemma inv_mono n n' s : n <= n' → inv n s → inv n' s.
Proof. intros Hn []. split; try done. by eapply below_mono. Qed.

Lemma kept_set_request i j p r r' m s :
  requests s !! i = Some r → addr r' = addr r →
  (ready r = true → timer r ≠ Answered → ready r' = true ∧ timer r' ≠ Answered) →
  kept j p s → kept j p (set_request i r' (set_mutex m s)).
Proof.
  intros Hr Ha Hf (r1&Hr1&?&?&?&?). unfold kept. cbn. destruct (decide (i = j)) as [<-|Hne].
  - exists r'. rewrite lookup_insert_eq. simplify_eq. destruct Hf; [done..|].
    split_and!; [done|by rewrite Ha|done..].
  - exists r1. by rewrite lookup_insert_ne.
Qed.

Lemma timer_wp n s i r :
  inv n s → 0 <= n → n + 3 < int_max → requests s !! i = Some r → timer r ≠ Finished →
  (timer r = Armed → mutex s = None) → ¬ dangling i s → wp (on_timer i) s (act_post n s).
Proof.
  intros I Hn0 Hn Hr Hnf Hfree Hd. unfold on_timer. eapply wp_step; [by apply request_eq|].
  destruct (timer r) eqn:Et; [| | | |done].
  - assert (Hs : in_scope (VTimer i) s) by (eapply i_held; [done|done|rewrite Et; by left]).
    eapply wp_step; [by eapply chunk_of_eq|]. eapply wp_step; [done|]. unfold wp, modify. split.
    + apply (inv_mono n); [lia|]. eapply inv_set_request; [done..| |intros _; right; by left|done|].
      * intros _. rewrite Et. by left.
      * right. intros j _. by rewrite Hfree.
    + intros j p. eapply kept_set_request; [done|done|]. by intros ? _.
  - assert (Hs : in_scope (VTimer i) s) by (eapply i_held; [done|done|rewrite Et; right; by left]).
    pose proof (i_owner _ _ I i r Hr) as Hm. rewrite Et in Hm. specialize (Hm ltac:(by left)).
    eapply wp_step; [by eapply chunk_of_eq|]. destruct (ready r) eqn:Er; unfold wp, modify;
      rewrite <- (set_mutex_id s) at 2; (split; [apply (inv_mono n); [lia|]; eapply inv_set_request; [done..| |done|done|by left]|]).
    + intros Hin. unfold holding in Hin. cbn in Hin. set_solver.
    + intros j p. eapply kept_set_request; [done|done|]. cbn. by intros ? _.
    + intros _. rewrite Et. right. by left.
    + intros j p. eapply kept_set_request; [done|done|]. rewrite Er. done.
  - pose proof (i_owner _ _ I i r Hr) as Hm. rewrite Et in Hm. specialize (Hm ltac:(right; by left)).
    assert (Hs : in_scope (VTimer i) s) by (eapply i_held; [done|done|rewrite Et; do 2 right; by left]).
    set (r' := mkRequest (addr r) (ready r) Returning).
    assert (Hready : ready r = true).
    { destruct (ready r) eqn:Er; [done|]. pose proof (i_pending _ _ I i r Hr Er) as Hp. rewrite Et in Hp. set_solver. }
    assert (I' : inv n (set_request i r' (set_mutex (mutex s) s))).
    { eapply inv_set_request; [done..| |cbn; by rewrite Hready|done|by left].
      cbn. unfold holding. intros Hin. set_solver. }
    rewrite set_mutex_id in I'.
    assert (D : wp (pointer (ODrop (VTimer i))) (set_request i r' s) (λ _ s', inv (n + 1) s' ∧
      mutex s' = mutex s ∧ requests s' = <[i := r']> (requests s) ∧ vars (heap s') = delete (VTimer i) (vars (heap s)))).
    { apply (inv_drop n); [done|lia|done|]. intros j r1 [= <-]. cbn. rewrite lookup_insert_eq.
      intros [= <-]. cbn. unfold holding. set_solver. }
    apply wp_exists in D as ([]&s1&E1&I1&M1&R1&V1).
    unfold pointer, on_heap, zoom in E1. destruct (exec ty (ODrop (VTimer i)) (heap (set_request i r' s))) as [[[] h']|] eqn:E; [|done].
    injection E1 as <-. eapply wp_step. { unfold pointer, on_heap. apply zoom_step. exact E. }
    unfold wp, modify. split; [eapply inv_mono; [|exact I1]; lia|].
    intros j p (r1&Hr1&Hr1a&Hr1r&Hr1t&Hj). assert (i ≠ j) by (intros <-; congruence).
    exists r1. cbn in *. rewrite lookup_insert_ne by done. split_and!; [done..|].
    destruct Hj as [q Hq]. exists q. cbn. rewrite V1, lookup_delete_ne by congruence. done.
  - pose proof (i_owner _ _ I i r Hr) as Hm. rewrite Et in Hm. specialize (Hm ltac:(do 2 right; by left)).
    eapply wp_step; [done|]. rewrite Hm.
    destruct (objects (heap s) !! the_chunk) as [oc|] eqn:Eoc.
    2:{ exfalso. apply Hd. split; [by exists r|done]. }
    eapply wp_step; [apply zoom_step; by apply deref_eq|]. eapply wp_step; [done|].
    replace (set_heap (heap s) s) with s by by destruct s. unfold wp, modify.
    assert (Hready : ready r = true).
    { destruct (ready r) eqn:Er; [done|]. pose proof (i_pending _ _ I i r Hr Er) as Hp. rewrite Et in Hp. set_solver. }
    split.
    + apply (inv_mono n); [lia|]. eapply inv_set_request; [done..| |cbn; by rewrite Hready| |].
      * cbn. unfold holding. intros Hin. set_solver.
      * cbn. unfold locking. intros Hin. set_solver.
      * right. intros j Hj. rewrite Hm. congruence.
    + intros j p. eapply kept_set_request; [done|done|]. cbn. by split.
Qed.

Lemma kept_vars i p s s' :
  requests s' = requests s → (in_scope (VTimer i) s → in_scope (VTimer i) s') → kept i p s → kept i p s'.
Proof. intros Hr Hv (r&?&?&?&?&?). exists r. rewrite Hr. split_and!; auto. Qed.

Lemma drop_act_wp n s x :
  inv n s → 0 <= n → n + 3 < int_max → in_scope x s → (∀ i, x ≠ VTimer i) →
  wp (pointer (ODrop x)) s (act_post n s).
Proof.
  intros I Hn0 Hn Hx Hne. eapply wp_mono; [apply (inv_drop n); [done|lia|done|]|].
  - intros i r ->. by destruct (Hne i).
  - intros [] s' (I'&_&R'&V'). split; [eapply inv_mono; [|done]; lia|].
    intros i p. apply kept_vars; [done|]. intros [q Hq]. exists q. by rewrite V', lookup_delete_ne.
Qed.

Lemma act_wp n s a :
  inv n s → 0 <= n → n + 3 < int_max → enabled a s → (∀ i, a = ATimer i → ¬ dangling i s) →
  wp (act a) s (act_post n s).
Proof.
  intros I Hn0 Hn Hen Hd. destruct a as [i|i|j i|i|i|i|]; cbn [act]; cbn [enabled] in Hen.
  - destruct Hen as (Hb&Hh&_). eapply wp_mono; [apply (inv_get n); [done|lia|done|]|].
    + by apply eq_None_not_Some.
    + intros [] s' (I'&_&R'&r&V'). split; [eapply inv_mono; [|done]; lia|].
      intros k p. apply kept_vars; [done|]. intros [q Hq]. exists q. by rewrite V', lookup_insert_ne.
  - destruct Hen as (Hh&_&Hi). eapply wp_mono; [by apply (inv_park n)|].
    intros [] s' (I'&_&[r R']&p&V'). split; [done|]. intros k pk (rk&Hk&?&?&?&[q Hq]). exists rk.
    assert (i ≠ k) by (intros <-; congruence). rewrite R', lookup_insert_ne by done. split_and!; [done..|].
    exists q. by rewrite V', !lookup_insert_ne by congruence.
  - destruct Hen as (_&_&_&[r Hr]&Hnr). unfold is_ready in Hnr. rewrite Hr in Hnr.
    assert (Hpc : timer r ∈ holding).
    { pose proof (i_pending _ _ I i r Hr Hnr). unfold holding. set_solver. }
    destruct (i_target _ _ I i r Hr) as (o&Ho&_); [by eapply i_held|].
    unfold absorb. eapply wp_step; [by apply request_eq|].
    eapply wp_step; [apply zoom_step; by apply deref_eq|].
    replace (set_heap (heap s) s) with s by by destruct s.
    unfold wp, modify. rewrite <- (set_mutex_id s) at 2. split.
    + apply (inv_mono n); [lia|]. eapply inv_set_request; [done|done|done|by cbn|by cbn| |by left]. exact (i_owner _ _ I i r Hr).
    + intros k p. eapply kept_set_request; [done|done|]. cbn. naive_solver.
  - destruct Hen as (r&Hr&Hnf&Hfree). eapply timer_wp; [done..|]. by apply Hd.
  - destruct Hen as [Hl _]. by apply drop_act_wp.
  - destruct Hen as [Hh _]. by apply drop_act_wp.
  - by apply drop_act_wp.
Qed.

Lemma dangling_fails i s : dangling i s → ∀ n, inv n s → act (ATimer i) s = None.
Proof.
  intros [(r&Hr&Et) Hc] n I. pose proof (i_owner _ _ I i r Hr) as Hm. rewrite Et in Hm.
  specialize (Hm ltac:(do 2 right; by left)). cbn [act]. unfold on_timer.
  erewrite bind_step by by apply request_eq. rewrite Et. erewrite bind_step by done. rewrite Hm.
  unfold mbind, prog_bind, on_heap, zoom, deref, mbind, prog_bind, get. by rewrite Hc.
Qed.

Lemma start_vars : vars (heap start) = <[VStore := Some 1%positive]> (<[VBank := Some the_chunk]> ∅).
Proof. vm_compute. reflexivity. Qed.

Ltac one_step op := eapply nsteps_l; [exists op; split; [|reflexivity]|].

Lemma start_reachable : nsteps (RefCount.step ty) 7 empty_heap (heap start).
Proof.
  one_step (ONew VStore). { reflexivity. }
  one_step (ONew VBank). { reflexivity. }
  one_step (OSet VBank 1 VStore). { split_and!; by eexists. }
  one_step (ONew VHandle). { reflexivity. }
  one_step (OSet VHandle 0 VStore). { split_and!; by eexists. }
  one_step (OSet VBank 0 VHandle). { split_and!; by eexists. }
  one_step (ODrop VHandle). { by eexists. }
  apply nsteps_O.
Qed.

Lemma start_inv : inv 7 start.
Proof.
  destruct (reachable_wf ty 7 (heap start) start_reachable) as [Hwf Hb]; [done|].
  split; try done.
  - intros x p Hx. rewrite start_vars, !lookup_insert_Some, lookup_empty.
    intros [[<- _]|[_ [[<- <-]|[_ ?]]]]; done.
  - intros i x p Hx. rewrite start_vars, !lookup_insert_Some, lookup_empty. naive_solver.
Qed.

(** ** Theorems *)
Lemma lifetime_steps (k : nat) : ∀ n s s', inv n s → 0 <= n → n + 3 * Z.of_nat k < int_max → nsteps step k s s' →
  inv (n + 3 * Z.of_nat k) s' ∧ ∀ i p, kept i p s → kept i p s'.
Proof.
  induction k as [|k IH]; intros n s s' I Hn Hk Hs.
  - inversion Hs; subst. split; [|done]. by rewrite Z.add_0_r.
  - inversion Hs as [|? ? s1 ? (a&Hen&E) Hrest]; subst.
    assert (Hd : ∀ i, a = ATimer i → ¬ dangling i s).
    { intros i -> Hd. rewrite (dangling_fails i s Hd n I) in E. done. }
    pose proof (act_wp n s a I Hn ltac:(lia) Hen Hd) as Ha. unfold wp in Ha. rewrite E in Ha. destruct Ha as [I1 K1].
    destruct (IH (n + 3) s1 s') as [I2 K2]; [done|lia|lia|done|].
    split; [|by auto]. by replace (n + 3 * Z.of_nat (S k)) with (n + 3 + 3 * Z.of_nat k) by lia.
Qed.

(** Steps for which no counter can overflow. *)
Definition steps_ok (k : nat) : Prop := Z.of_nat k < 2 ^ 29.

Lemma reachable_inv (k : nat) s : nsteps step k start s → steps_ok k → inv (7 + 3 * Z.of_nat k) s.
Proof.
  unfold steps_ok. intros Hs Hk. apply (lifetime_steps k 7 start); [apply start_inv|lia|unfold int_max; lia|done].
Qed.

(** C14: Whatever the handlers, timer callbacks, woken callers and the bank do, and in whatever
    order, the only access to freed memory is the last one of a callback, the unlocking of the
    chunk's mutex, and only when the chunk was deleted before; as long as the bank or a handler
    holds the chunk every step succeeds. *)
Theorem only_unlock_dangles (k : nat) s a :
  nsteps step k start s → steps_ok k → enabled a s →
  (act a s = None ↔ ∃ i, a = ATimer i ∧ dangling i s) ∧
  (∀ x, ty x = KChunk → in_scope x s → is_Some (act a s)).
Proof.
  intros Hs Hk Hen. pose proof (reachable_inv k s Hs Hk) as I. unfold steps_ok in Hk.
  assert (Hok : (∀ i, a = ATimer i → ¬ dangling i s) → is_Some (act a s)).
  { intros Hd. pose proof (act_wp _ s a I ltac:(lia) ltac:(unfold int_max; lia) Hen Hd) as Ha.
    apply wp_exists in Ha as (?&s'&->&_). by eexists. }
  split.
  - split; [|intros (i&->&Hd); by eapply dangling_fails].
    intros E. destruct a as [i|i|j i|i|i|i|];
      try (destruct Hok as [? E']; [by intros|rewrite E in E'; done]).
    exists i. split; [done|]. destruct (decide (objects (heap s) !! the_chunk = None)) as [Hc|Hc].
    + split; [|done]. destruct Hen as (r&Hr&Hnf&Hfree). exists r. split; [done|].
      destruct (decide (timer r ∈ holding)) as [Hin|Hin].
      * destruct (timer_keeps_chunk _ _ _ _ I Hr (i_held _ _ I i r Hr Hin)) as (_&_&_&[? ?]). congruence.
      * unfold holding in Hin. destruct (timer r); [set_solver..|done|done].
    + exfalso. destruct Hok as [? E']; [|rewrite E in E'; done]. intros j [= <-] [_ Hn]. done.
  - intros x Hx Hsc. apply Hok. intros i -> [_ Hn]. destruct (chunk_live _ _ x I Hx Hsc) as [? ?]. congruence.
Qed.

(** C34: An append that was ahead of the end and got absorbed before its timer fired is never
    freed, and neither is its chunk, whatever happens afterwards: its callback returns without
    giving its reference back. *)
Theorem absorbed_never_freed (k k' : nat) s i r s' :
  nsteps step k start s → requests s !! i = Some r → ready r = true → timer r = Armed →
  nsteps step k' s s' → steps_ok (k + k') →
  is_Some (objects (heap s') !! addr r) ∧ is_Some (objects (heap s') !! the_chunk).
Proof.
  unfold steps_ok. intros Hs Hr Hready Ht Hs' Hk.
  assert (I : inv (7 + 3 * Z.of_nat k) s) by (apply reachable_inv; [done|unfold steps_ok; lia]).
  destruct (lifetime_steps k' _ s s' I) as [I' K]; [lia|unfold int_max; lia|done|].
  destruct (K i (addr r)) as (r'&Hr'&Ha&_&_&Hsc).
  { exists r. split_and!; [done..|by rewrite Ht|]. eapply i_held; [done|done|]. rewrite Ht. by left. }
  destruct (timer_keeps_chunk _ _ _ _ I' Hr' Hsc) as (o&Ho&_&Hc). rewrite <- Ha. split; [by exists o|done].
Qed.

Lemma run_steps l : ∀ s s', run l s = Some s' → nsteps step (length l) s s'.
Proof.
  induction l as [|a l IH]; intros s s' E; cbn in E.
  - injection E as ->. apply nsteps_O.
  - case_decide as Hen; [|done]. destruct (act a s) as [[[] s1]|] eqn:Ea; [|done].
    eapply nsteps_l; [by exists a|by apply IH].
Qed.

Module Witness.
(** The timer of a waiting append fires; while the callback is between [set_value] and the
    release of its reference, the caller returns and the chunk is removed from the bank. *)
Definition removal : list Action :=
  [AGet 1; APark 1; ATimer 1; ATimer 1; AWake 1; AReturn 1; ARemove; ATimer 1].
Definition after (l : list Action) (s : State) : State := default s (run l s).
Definition removed : State := Eval vm_compute in after removal start.

Lemma removal_run : nsteps step 8 start removed.
Proof. apply (run_steps removal). vm_compute. reflexivity. Qed.

Lemma only_unlock_dangles_witness :
  enabled (ATimer 1) removed ∧ act (ATimer 1) removed = None ∧ map_to_list (objects (heap removed)) =
    [(1%positive, mkObject KStore 1 [])].
Proof.
  assert (E : enabled (ATimer 1) removed) by (eexists; split_and!; vm_compute; [reflexivity|done|done]).
  split_and!; [done| |vm_compute; reflexivity].
  apply (proj1 (only_unlock_dangles 8 removed (ATimer 1) removal_run ltac:(by vm_compute) E)).
  exists 1%positive. split; [done|]. split; [|vm_compute; reflexivity].
  eexists; split; vm_compute; reflexivity.
Defined.

(** An append that is absorbed by the append of another handler; then the timer fires, both
    handlers return and the chunk is removed. *)
Definition absorption : list Action := [AGet 1; APark 1; AGet 2; AAbsorb 2 1].
Definition aftermath : list Action := [AWake 1; AReturn 1; AReturn 2; ATimer 1; ATimer 1; ATimer 1; ARemove].
Definition absorbed : State := Eval vm_compute in after absorption start.
Definition leaked : State := Eval vm_compute in after aftermath absorbed.

Lemma absorbed_run : nsteps step 4 start absorbed.
Proof. apply (run_steps absorption). vm_compute. reflexivity. Qed.
Lemma leaked_run : nsteps step 7 absorbed leaked.
Proof. apply (run_steps aftermath). vm_compute. reflexivity. Qed.

Lemma absorbed_never_freed_witness :
  is_Some (objects (heap leaked) !! 4%positive) ∧ is_Some (objects (heap leaked) !! the_chunk).
Proof.
  apply (absorbed_never_freed 4 7 absorbed 1 (mkRequest 4 true Armed) leaked absorbed_run);
    [vm_compute; reflexivity|reflexivity|reflexivity|exact leaked_run|by vm_compute].
Defined.
End Witness.
End ChunkLifetime.
