(* ===== verification/Bank.v ===== *)
(** * The bank of chunks ([src/manusya/bank.h], [src/manusya/bank.cc])

    [Bank] owns the store and maps UUIDs to chunks. [ChunkPtr]s are references into a heap of
    chunks, so that the bank and the handlers of [ManusyaService.v] share them. *)
From S2P Require Import Prelude Bytes Iobuf Uuid Future Store MemStore Chunk ChunkSpec.
Import Chunk.
Set Default Goal Selector "!".
Local Open Scope Z_scope.

Module Bank.

(** A (possibly null) [ChunkPtr]. *)
Abbreviation ChunkPtr := (option positive).

Section bank.
Context `{IOBufOps} `{UuidOps} {St FH : Type} `{!StoreOps St FH}.

Record Bank := mkBank {
  _store : St;
  _chunks : gmap UUID positive;
  heap : gmap positive (Chunk (FH := FH));
  next_chunk : positive;
}.

Definition set_store (st : St) (b : Bank) : Bank := mkBank st (_chunks b) (heap b) (next_chunk b).
Definition set_chunks (m : gmap UUID positive) (b : Bank) : Bank :=
  mkBank (_store b) m (heap b) (next_chunk b).
Definition set_heap (m : gmap positive Chunk) (b : Bank) : Bank :=
  mkBank (_store b) (_chunks b) m (next_chunk b).

Definition on_bank_store {A} (p : Prog St A) : Prog Bank A := zoom _store set_store p.

(** [new Chunk()] as a reference. *)
Definition new_ref (c : Chunk) : Prog Bank positive :=
  b ← get;
  put (mkBank (_store b) (_chunks b) (<[next_chunk b := c]> (heap b)) (Pos.succ (next_chunk b)));;
  mret (next_chunk b).

(** A member function of the chunk a pointer refers to. *)
Definition on_chunk_ptr {A} (ptr : ChunkPtr) (p : Prog (World (St := St) (FH := FH)) A) :
    Prog Bank A := λ b,
  match ptr with
  | None => None
  | Some l =>
      match heap b !! l with
      | None => None
      | Some c =>
          match p (mkWorld (_store b) c) with
          | None => None
          | Some (a, w) => Some (a, set_heap (<[l := chunk w]> (heap b)) (set_store (store w) b))
          end
      end
  end.

(** [Bank::create_chunk]; [generated] is what [UUID::generate()] returns. *)
Definition create_chunk (generated : UUID) (options : ChunkOptions) (chunk : option ChunkPtr) :
    Prog Bank (Status * option ChunkPtr) :=
  match chunk with
  | None => mret (mkStatus EINVAL "chunk is nullptr", chunk)
  | Some _ =>
      '(status, c) ← on_bank_store (create generated options (Some tt) (Some None));
      if negb (ok status) then mret (status, chunk) else
      match c with
      | Some (Some c) =>
          l ← new_ref c;
          b ← get;
          put (set_chunks (<[_uuid c := l]> (_chunks b)) b);;
          mret (OK, Some (Some l))
      | _ => abort
      end
  end.

(** [Bank::get_chunk]. *)
Definition get_chunk (uuid : UUID) (chunk : option ChunkPtr) :
    Prog Bank (Status * option ChunkPtr) :=
  b ← get;
  match _chunks b !! uuid with
  | None => mret (mkStatus ENOENT "Chunk not found", chunk)
  | Some l => match chunk with None => abort | Some _ => mret (OK, Some (Some l)) end
  end.

(** [Bank::remove_chunk]: the status of the store is ignored. *)
Definition remove_chunk (uuid : UUID) : Prog Bank Status :=
  b ← get;
  match _chunks b !! uuid with
  | None => mret (mkStatus ENOENT "Chunk not found")
  | Some _ =>
      put (set_chunks (delete uuid (_chunks b)) b);;
      _ ← on_bank_store (store_remove (Some (uuid_str uuid)));
      mret OK
  end.

(** The keys of [_chunks], a [std::map], in order. *)
Definition keys (b : Bank) : list UUID :=
  merge_sort (λ u v, ¬ uuid_lt v u) (fst <$> map_to_list (_chunks b)).

(** [_chunks.lower_bound(start)]. *)
Fixpoint lower_bound (start : UUID) (ks : list UUID) : list UUID :=
  match ks with
  | [] => []
  | k :: rest => if decide (uuid_lt k start) then lower_bound start rest else ks
  end.

(** The loop of [list_chunk]: [i] counts up to [limit]. *)
Fixpoint list_loop (i limit : Z) (it : list UUID) : list UUID :=
  match it with
  | [] => []
  | u :: it' => if i <? limit then u :: list_loop (i + 1) limit it' else []
  end.

(** [Bank::list_chunk]: the UUIDs handed to the callback, in order. *)
Definition list_chunk (start : UUID) (limit : Z) : Prog Bank (list UUID) :=
  b ← get; mret (list_loop 0 limit (lower_bound start (keys b))).

(** The callback of [Bank::load]. *)
Definition load_one (path : string) : Prog Bank unit :=
  let uuid := from_str_or_die path in
  '(status, c) ← on_bank_store (create_with_uuid mkChunkOptions (Some tt) uuid (Some None));
  if negb (ok status) then mret tt else
  match c with
  | Some (Some c) =>
      l ← new_ref c;
      _ ← on_chunk_ptr (Some l) (query_and_seal (Some 0));
      b ← get;
      put (set_chunks (<[uuid := l]> (_chunks b)) b)
  | _ => abort
  end.

(** [Bank::load]. *)
Definition load : Prog Bank Status :=
  store_for_each _store load_one;;
  mret OK.

(** What may happen to a bank: its own operations, and operations on the chunks it lists. *)
Inductive BankOp :=
| OCreate (generated : UUID) (options : ChunkOptions)
| OGet (uuid : UUID)
| ORemove (uuid : UUID)
| OList (start : UUID) (limit : Z)
| OChunk (uuid : UUID) (o : Op).

Definition bank_enabled (o : BankOp) (b : Bank) : Prop :=
  match o with
  | OChunk uuid o => ∃ l c, _chunks b !! uuid = Some l ∧ heap b !! l = Some c ∧
                            enabled o (mkWorld (_store b) c)
  | _ => True
  end.

Definition bank_exec (moved : Status → Status) (o : BankOp) : Prog Bank unit :=
  match o with
  | OCreate generated options => _ ← create_chunk generated options (Some None); mret tt
  | OGet uuid => _ ← get_chunk uuid (Some None); mret tt
  | ORemove uuid => _ ← remove_chunk uuid; mret tt
  | OList start limit => _ ← list_chunk start limit; mret tt
  | OChunk uuid o =>
      '(status, c) ← get_chunk uuid (Some None);
      if negb (ok status) then mret tt else on_chunk_ptr (default None c) (exec moved o)
  end.

(** [Bank(store)]. *)
Definition new_bank (store : St) : Bank := mkBank store ∅ ∅ 1.
End bank.

(** [UUID::generate()] returns a UUID that neither the bank nor its store knows. *)
Definition fresh_uuid `{StoreLaws St FH} `{UuidOps} (o : BankOp) (b : Bank (St := St) (FH := FH)) : Prop :=
  match o with
  | OCreate uuid _ => files (_store b) !! uuid_str uuid = None ∧ _chunks b !! uuid = None
  | _ => True
  end.

Inductive bank_step `{StoreLaws St FH} `{UuidOps} (moved : Status → Status) :
    relation (Bank (St := St) (FH := FH)) :=
| bank_step_exec o b b' :
    bank_enabled o b → fresh_uuid o b → bank_exec moved o b = Some (tt, b') → bank_step moved b b'.

(** Every chunk the bank lists is a chunk of that UUID in a good state, references are not
    shared and fresh ones are unused. *)
Record bank_inv `{StoreLaws St FH} `{UuidOps} (b : Bank (St := St) (FH := FH)) : Prop := {
  bi_chunk uuid l : _chunks b !! uuid = Some l →
    ∃ c bs, heap b !! l = Some c ∧ _uuid c = uuid ∧ inv (mkWorld (_store b) c) bs;
  bi_fresh l : (next_chunk b <= l)%positive → heap b !! l = None;
}.

(** ** Lemmas *)
Section lemmas.
Context `{StoreLaws St FH} `{UuidLaws} (moved : Status → Status).
Implicit Types (b : Bank (St := St) (FH := FH)) (c : Chunk (FH := FH)).

(** A chunk does not notice changes of other files. *)
Lemma inv_frame st st' c bs :
  inv (mkWorld st c) bs → (∀ h, fh_target st h (path c) → fh_target st' h (path c)) →
  files st' !! path c = files st !! path c → inv (mkWorld st' c) bs.
Proof.
  intros [Hr Hq (h & Hh & Ht & Hb & Hs) Ha] Hk Hf. split; [done|done| |done].
  exists h. cbn in *. rewrite Hf. auto.
Qed.

Lemma path_inj c1 c2 : path c1 = path c2 → _uuid c1 = _uuid c2.
Proof. apply uuid_str_inj. Qed.

(** One chunk evolves, the bank stays well-formed. *)
Lemma bank_inv_chunk b uuid l c w bs bs' :
  bank_inv b → _chunks b !! uuid = Some l → heap b !! l = Some c → _uuid c = uuid →
  inv w bs' → evolves (mkWorld (_store b) c) w bs bs' →
  bank_inv (set_heap (<[l := chunk w]> (heap b)) (set_store (store w) b)).
Proof.
  intros [Hb Hf] El Ec Eu Hw [Hk Hfs _ Hu _]. split; cbn in *.
  - intros uuid2 l2 E2. destruct (decide (l = l2)) as [<-|Hne].
    + rewrite lookup_insert_eq. exists (chunk w), bs'.
      destruct (Hb _ _ E2) as (c2 & bs2 & Ec2 & <- & _). simplify_eq.
      split_and!; [done|done|]. by destruct w.
    + rewrite lookup_insert_ne by done. destruct (Hb _ _ E2) as (c2 & bs2 & Ec2 & Eu2 & Hi2).
      exists c2, bs2. split_and!; [done|done|].
      assert (path c2 ≠ path c) as Hp by (intros E%path_inj; subst; congruence).
      eapply inv_frame; [exact Hi2|intros h; by apply Hk|]. by rewrite Hfs, lookup_insert_ne.
  - intros l2 Hl2. rewrite lookup_insert_ne; [auto|]. intros <-. by rewrite Hf in Ec.
Qed.

Lemma on_chunk_ptr_wp {A} l c (p : Prog (World (St := St) (FH := FH)) A) b
    (Q : A → Bank (St := St) (FH := FH) → Prop) :
  heap b !! l = Some c →
  wp p (mkWorld (_store b) c) (λ a w,
    Q a (set_heap (<[l := chunk w]> (heap b)) (set_store (store w) b))) →
  wp (on_chunk_ptr (Some l) p) b Q.
Proof.
  intros E Hp. unfold wp in *. unfold on_chunk_ptr. rewrite E.
  by destruct (p _) as [[a w]|].
Qed.

Lemma get_chunk_eq b uuid ptr :
  get_chunk uuid (Some ptr) b = Some (match _chunks b !! uuid with
    | None => (mkStatus ENOENT "Chunk not found", Some ptr)
    | Some l => (OK, Some (Some l)) end, b).
Proof. unfold get_chunk. erewrite bind_step by done. by destruct (_chunks b !! uuid). Qed.

(** A store whose other files did not change. *)
Lemma bank_inv_store b st' p :
  bank_inv b → (∀ uuid, uuid_str uuid = p → _chunks b !! uuid = None) →
  keeps_but p (_store b) st' →
  (∀ q, q ≠ p → files st' !! q = files (_store b) !! q) →
  bank_inv (set_store st' b).
Proof.
  intros [Hb Hf] Hp Hk Hfs. split; [|done]. cbn. intros uuid l E.
  destruct (Hb _ _ E) as (c & bs & Ec & Eu & Hi). exists c, bs. split_and!; [done|done|].
  assert (path c ≠ p) as Hne.
  { intros Ep. unfold path in Ep. rewrite Eu in Ep. by rewrite Hp in E. }
  eapply inv_frame; [exact Hi|intros h; by apply Hk|by apply Hfs].
Qed.

(** Adding a chunk under a fresh reference. *)
Lemma bank_inv_add b c bs :
  bank_inv b → inv (mkWorld (_store b) c) bs →
  bank_inv (mkBank (_store b) (<[_uuid c := next_chunk b]> (_chunks b))
                   (<[next_chunk b := c]> (heap b)) (Pos.succ (next_chunk b))).
Proof.
  intros [Hb Hf] Hi. split; cbn.
  - intros uuid l. destruct (decide (_uuid c = uuid)) as [<-|Hne].
    + rewrite lookup_insert_eq. intros [= <-]. exists c, bs. by rewrite lookup_insert_eq.
    + rewrite lookup_insert_ne by done. intros E. destruct (Hb _ _ E) as (c2 & bs2 & Ec2 & ? & ?).
      exists c2, bs2. split; [|done]. rewrite lookup_insert_ne; [done|]. intros <-.
      by rewrite Hf in Ec2.
  - intros l Hl. rewrite lookup_insert_ne by lia. apply Hf. lia.
Qed.

Lemma create_chunk_wp uuid options ptr b :
  bank_inv b → files (_store b) !! uuid_str uuid = None → _chunks b !! uuid = None →
  wp (create_chunk uuid options (Some ptr)) b (λ r b', bank_inv b' ∧
    if ok (fst r) then
      ∃ l c, snd r = Some (Some l) ∧ _chunks b' = <[uuid := l]> (_chunks b) ∧
        heap b' !! l = Some c ∧ _uuid c = uuid ∧ _state c = kOpen ∧ _size c = 0 ∧
        _append_request_queue c = [] ∧ inv (mkWorld (_store b') c) [] ∧
        files (_store b') = <[uuid_str uuid := []]> (files (_store b))
    else snd r = Some ptr ∧ _chunks b' = _chunks b ∧ files (_store b') = files (_store b)).
Proof.
  intros Hb Hnew Hno. unfold create_chunk. apply wp_bind, wp_zoom.
  eapply wp_mono; [by apply create_wp|]. intros [s o] st' (Hk & Hr). cbn [fst snd] in Hr. cbv iota beta.
  assert (bank_inv (set_store st' b)) as Hb1.
  { eapply (bank_inv_store _ _ (uuid_str uuid)); [done|by intros ? ->%uuid_str_inj|by intros ? ? _ ?%Hk|].
    intros q Hq. destruct (ok s).
    - destruct Hr as (c & _ & _ & _ & _ & _ & _ & -> & _). by rewrite lookup_insert_ne.
    - by destruct Hr as [_ ->]. }
  destruct (ok s) eqn:Es; cbn [negb]; [|eapply wp_eval; [done|]; cbn [fst snd]; rewrite Es].
  2: { destruct Hr as [_ Hf]. done. }
  destruct Hr as (c & -> & Eu & Est & Esz & Eq & _ & Hfs & Hi).
  eapply wp_step; [done|]. eapply wp_step; [done|].
  eapply wp_step; [done|]. eapply wp_eval; [done|]. cbn [fst snd]. rewrite ok_OK. split.
  - by apply (bank_inv_add (set_store st' b) c []).
  - exists (next_chunk b), c. cbn. rewrite lookup_insert_eq, Eu. done.
Qed.

Lemma remove_chunk_wp uuid b :
  bank_inv b →
  wp (remove_chunk uuid) b (λ s b', bank_inv b' ∧
    match _chunks b !! uuid with
    | None => s = mkStatus ENOENT "Chunk not found" ∧ b' = b
    | Some _ => s = OK ∧ _chunks b' = delete uuid (_chunks b) ∧
                (files (_store b') = delete (uuid_str uuid) (files (_store b)) ∨
                 files (_store b') = files (_store b))
    end).
Proof.
  intros Hb. unfold remove_chunk. eapply wp_step; [done|]. cbv beta.
  destruct (_chunks b !! uuid) as [l|] eqn:El; [|by eapply wp_eval].
  eapply wp_step; [done|]. apply wp_bind, wp_zoom. cbn [_store set_chunks].
  eapply wp_mono; [apply remove_any, uuid_str_plain|]. cbv beta. intros s st' (Hk & Hfs).
  eapply wp_eval; [done|]. split_and!; [|done|done|cbn; rewrite Hfs; destruct (ok s); auto].
  assert (bank_inv (set_chunks (delete uuid (_chunks b)) b)) as Hb1.
  { destruct Hb as [Hc Hf]. split; [|done]. cbn. intros u l2 [_ E]%lookup_delete_Some. by apply Hc. }
  eapply (bank_inv_store _ _ (uuid_str uuid)); [done| |done|].
  - intros u ->%uuid_str_inj. cbn. apply lookup_delete_eq.
  - intros q Hq. cbn. rewrite Hfs. destruct (ok s); [|done]. by rewrite lookup_delete_ne.
Qed.

Lemma bank_exec_wp o b :
  bank_inv b → bank_enabled o b → fresh_uuid o b →
  wp (bank_exec moved o) b (λ _ b', bank_inv b').
Proof.
  intros Hb Hen Hfr. destruct o as [uuid options|uuid|uuid|start limit|uuid o]; cbn [bank_exec].
  - apply wp_void. destruct Hfr. eapply wp_mono; [by apply create_chunk_wp|]. by intros ? ? [? _].
  - apply wp_void. eapply wp_eval; [apply get_chunk_eq|]. done.
  - apply wp_void. eapply wp_mono; [by apply remove_chunk_wp|]. by intros ? ? [? _].
  - apply wp_void. by eapply wp_eval.
  - destruct Hen as (l & c & El & Ec & Hen). eapply wp_step; [apply get_chunk_eq|].
    rewrite El. cbn [negb default]. rewrite ok_OK. cbn [negb].
    destruct (bi_chunk _ Hb _ _ El) as (c' & bs & Ec' & Eu & Hi). simplify_eq.
    eapply on_chunk_ptr_wp; [done|]. eapply wp_mono; [by eapply exec_inv|].
    cbv beta. intros _ w (bs' & Hi' & Hev). by eapply bank_inv_chunk.
Qed.

(** *** Listing *)
Lemma list_loop_take i limit it : list_loop i limit it = take (Z.to_nat (limit - i)) it.
Proof.
  revert i; induction it as [|u it IH]; intros i; cbn [list_loop]; [by rewrite take_nil|].
  destruct (Z.ltb_spec i limit).
  - replace (Z.to_nat (limit - i)) with (S (Z.to_nat (limit - (i + 1)))) by lia.
    cbn [take]. by rewrite IH.
  - by replace (Z.to_nat (limit - i)) with O by lia.
Qed.

Lemma uuid_not_lt u v : ¬ uuid_lt v u ↔ uuid_lt u v ∨ u = v.
Proof.
  split.
  - intros Hn. destruct (trichotomy uuid_lt u v) as [?|[?|?]]; auto. done.
  - intros [Hlt| ->] Hn; [|by apply (irreflexivity uuid_lt v)].
    apply (irreflexivity uuid_lt u). by trans v.
Qed.

Lemma keys_sorted b : StronglySorted uuid_lt (keys b).
Proof.
  assert (StronglySorted (λ u v, ¬ uuid_lt v u) (keys b)) as Hs.
  { apply StronglySorted_merge_sort.
    - intros u v x. rewrite !uuid_not_lt. intros [H1'|E1] [H2'|E2]; subst; auto. left. by trans v.
    - intros u v. hnf. rewrite !uuid_not_lt. destruct (trichotomy uuid_lt u v) as [?|[?|?]]; auto. }
  assert (NoDup (keys b)) as Hnd.
  { unfold keys. rewrite merge_sort_Permutation. apply NoDup_fst_map_to_list. }
  induction Hs as [|u us Hs IH Hu]; [constructor|]. apply NoDup_cons in Hnd as [Hni Hnd].
  constructor; [auto|]. rewrite Forall_forall in *. intros v Hv.
  destruct (proj1 (uuid_not_lt u v) (Hu v Hv)) as [?| ->]; done.
Qed.

Lemma elem_of_keys b u : u ∈ keys b ↔ is_Some (_chunks b !! u).
Proof.
  unfold keys. rewrite merge_sort_Permutation, list_elem_of_fmap. split.
  - intros ([u' l] & -> & E%elem_of_map_to_list). eauto.
  - intros [l E]. exists (u, l). split; [done|]. by apply elem_of_map_to_list.
Qed.

Lemma lower_bound_spec start ks :
  StronglySorted uuid_lt ks →
  StronglySorted uuid_lt (lower_bound start ks) ∧
  ∀ u, u ∈ lower_bound start ks ↔ u ∈ ks ∧ ¬ uuid_lt u start.
Proof.
  induction 1 as [|k ks Hs [IHs IH] Hk]; cbn [lower_bound].
  { split; [constructor|]. intros u. rewrite elem_of_nil. tauto. }
  rewrite Forall_forall in Hk. case_decide as D.
  - split; [done|]. intros u. rewrite IH, elem_of_cons. naive_solver.
  - split; [constructor; [done|by apply Forall_forall]|]. intros u. rewrite elem_of_cons.
    split; [|tauto]. intros [->|Hu]; [by split; [left|]|]. split; [by right|].
    intros Hlt. apply D. by trans u; [apply Hk|].
Qed.

(** *** Loading *)
Lemma load_one_existing path b bs u :
  path = uuid_str u → files (_store b) !! path = Some bs →
  wp (load_one path) b (λ _ b', _chunks b' = _chunks b ∧ heap b' = heap b ∧
    files (_store b') = files (_store b)).
Proof.
  intros -> Hf. unfold load_one, from_str_or_die. rewrite from_str_factory_str.
  apply wp_bind, wp_zoom. unfold create_with_uuid. apply wp_bind.
  eapply wp_mono; [by apply (open_exists _ _ bs); [apply uuid_str_plain|]|].
  intros [s fh] st' (Hk & Hs & _ & Hfs). cbn [fst snd] in *. cbv iota beta. rewrite Hs. cbn [negb].
  eapply wp_eval; [done|]. cbv iota beta. rewrite Hs. cbn [negb]. by eapply wp_eval.
Qed.

Lemma new_bank_inv st : bank_inv (new_bank st).
Proof. by split. Qed.

(** *** Theorems *)

(** C21: Starting from an empty bank on any store, every sequence of creations (with UUIDs that
    are new), look-ups, removals, listings and operations on the registered chunks keeps every
    registered chunk a chunk of its UUID in a good state, unaffected by what happens to the
    others; and no enabled operation fails. *)
Theorem bank_safe st b :
  rtc (bank_step moved) (new_bank st) b →
  bank_inv b ∧ ∀ o, bank_enabled o b → fresh_uuid o b → is_Some (bank_exec moved o b).
Proof.
  intros Hst. assert (bank_inv b) as Hb.
  { pose proof (new_bank_inv st) as Hinit.
    induction Hst as [|b1 b2 b3 Hs Hst IH]; [done|]. apply IH.
    destruct Hs as [o b1 b2 Hen Hfr Ho]. pose proof (bank_exec_wp o b1 Hinit Hen Hfr) as Hwp.
    unfold wp in Hwp. by rewrite Ho in Hwp. }
  split; [done|]. intros o Hen Hfr. pose proof (bank_exec_wp o b Hb Hen Hfr) as Hwp.
  unfold wp in Hwp. destruct (bank_exec moved o b) as [[[] b']|]; [by eexists|done].
Qed.

(** A chunk just created is found under its UUID, open and empty; once removed it is
    not found any more (ENOENT); in between and afterwards every other UUID is looked up as
    before. *)
Theorem create_get_remove uuid options b l b1 :
  bank_inv b → files (_store b) !! uuid_str uuid = None → _chunks b !! uuid = None →
  create_chunk uuid options (Some None) b = Some ((OK, Some (Some l)), b1) →
  get_chunk uuid (Some None) b1 = Some ((OK, Some (Some l)), b1) ∧
  (∃ c, heap b1 !! l = Some c ∧ _uuid c = uuid ∧ _state c = kOpen ∧ _size c = 0) ∧
  (∀ u, u ≠ uuid → _chunks b1 !! u = _chunks b !! u) ∧
  wp (remove_chunk uuid) b1 (λ s b2, s = OK ∧
    get_chunk uuid (Some None) b2 = Some ((mkStatus ENOENT "Chunk not found", Some None), b2) ∧
    ∀ u, u ≠ uuid → _chunks b2 !! u = _chunks b !! u).
Proof.
  intros Hb Hnew Hno Hc. pose proof (create_chunk_wp uuid options None b Hb Hnew Hno) as Hwp.
  unfold wp in Hwp. rewrite Hc in Hwp. cbn [fst snd] in Hwp. rewrite ok_OK in Hwp.
  destruct Hwp as (Hb1 & l' & c & [= <-] & Ech & Ec & Eu & Est & Esz & _ & Hi & Hfs).
  split_and!.
  - rewrite get_chunk_eq, Ech. by rewrite lookup_insert_eq.
  - by exists c.
  - intros u Hu. by rewrite Ech, lookup_insert_ne.
  - eapply wp_mono; [by apply remove_chunk_wp|]. cbv beta. rewrite Ech, lookup_insert_eq.
    intros s b2 (_ & -> & Ech2 & _). split_and!; [done| |].
    + rewrite get_chunk_eq, Ech2, lookup_delete_eq. done.
    + intros u Hu. by rewrite Ech2, lookup_delete_ne, lookup_insert_ne.
Qed.

(** [list_chunk] enumerates, in increasing order and without repetition, registered UUIDs
    that are not below [start], at most [limit] of them; a UUID that is left out is above all
    those listed, and only when the limit was reached. *)
Theorem list_chunk_spec start limit b :
  wp (list_chunk start limit) b (λ us b', b' = b ∧ StronglySorted uuid_lt us ∧
    (length us <= Z.to_nat limit)%nat ∧
    (∀ u, u ∈ us → is_Some (_chunks b !! u) ∧ ¬ uuid_lt u start) ∧
    (∀ u, is_Some (_chunks b !! u) → ¬ uuid_lt u start → u ∉ us →
       length us = Z.to_nat limit ∧ ∀ v, v ∈ us → uuid_lt v u)).
Proof.
  unfold list_chunk. eapply wp_eval; [done|].
  destruct (lower_bound_spec start (keys b) (keys_sorted b)) as [Hs Hin].
  rewrite list_loop_take, Z.sub_0_r. set (lb := lower_bound start (keys b)) in *.
  rewrite <-(take_drop (Z.to_nat limit) lb) in Hs. split_and!.
  - done.
  - by eapply StronglySorted_app_1_l.
  - rewrite length_take. lia.
  - intros u Hu. apply elem_of_take in Hu as (i & Hi%list_elem_of_lookup_2 & _).
    by rewrite Hin, elem_of_keys in Hi.
  - intros u Hk%elem_of_keys Hst Hni.
    assert (u ∈ lb) as Hu by by apply Hin. rewrite <-(take_drop (Z.to_nat limit) lb) in Hu.
    apply elem_of_app in Hu as [Hu|Hu]; [done|]. split.
    + rewrite length_take. apply list_elem_of_lookup_1 in Hu as [i Hi].
      rewrite lookup_drop in Hi. apply lookup_lt_Some in Hi. lia.
    + intros v Hv. by eapply StronglySorted_app_1_elem_of.
Qed.

(** [load] registers no chunk at all when every file of the store is named by a
    UUID: it opens each of them with O_CREAT and O_EXCL, which fails on a file that exists. *)
Theorem load_loads_nothing b :
  (∀ p, p ∈ store_paths (_store b) → ∃ u, p = uuid_str u) →
  wp load b (λ s b', s = OK ∧ _chunks b' = _chunks b ∧ files (_store b') = files (_store b)).
Proof.
  intros Hpaths. unfold load, store_for_each. apply wp_bind. eapply wp_step; [done|].
  assert (∀ p, p ∈ store_paths (_store b) → ∃ u, p = uuid_str u ∧ is_Some (files (_store b) !! p)) as Hp.
  { intros p Hin. destruct (Hpaths p Hin) as [u ->]. exists u. split; [done|]. by apply paths_files. }
  clear Hpaths. revert Hp. generalize (store_paths (_store b)). intros ps Hp.
  assert (∀ b1, _chunks b1 = _chunks b → files (_store b1) = files (_store b) →
    wp (visit load_one ps) b1 (λ _ b', _chunks b' = _chunks b ∧ files (_store b') = files (_store b))) as Hv.
  { induction ps as [|p ps IH]; intros b1 Ec Ef; cbn [visit]; [by eapply wp_eval|].
    destruct (Hp p) as (u & Eu & [bs Hbs]); [left|]. apply wp_bind.
    eapply wp_mono; [apply (load_one_existing p b1 bs u); [done|by rewrite Ef]|].
    cbv beta. intros _ b2 (Ec2 & _ & Ef2). apply IH; [|by rewrite Ec2|by rewrite Ef2].
    intros q Hq. apply Hp. by right. }
  eapply wp_mono; [by apply Hv|]. cbv beta. intros _ b' [Ec Ef]. by eapply wp_eval.
Qed.
End lemmas.

(** *** Witnesses *)
Module Witness.
Import ChunkSpec.Example.
#[local] Existing Instances ListIOBuf.ops ListIOBuf.laws HexUuid.ops HexUuid.laws.

Definition moved (s : Status) : Status := s.
Definition bank0 : Bank (St := MemStore.MemStore) (FH := MemStore.MemFileHandle) := new_bank store0.
Definition bank1 : Bank (St := MemStore.MemStore) (FH := MemStore.MemFileHandle) :=
  mkBank store1 (<[_uuid chunk0 := 1%positive]> ∅) (<[1%positive := chunk0]> ∅) 2.

Lemma bank0_create : create_chunk uuid mkChunkOptions (Some None) bank0 =
  Some ((OK, Some (Some 1%positive)), bank1).
Proof.
  unfold create_chunk. erewrite bind_step.
  2: { unfold on_bank_store. apply zoom_step. exact ChunkSpec.Witness.created0. }
  reflexivity.
Qed.
Lemma bank0_files : files (_store bank0) !! uuid_str uuid = None.
Proof. by vm_compute. Qed.
Lemma bank0_chunks : _chunks bank0 !! uuid = None.
Proof. apply lookup_empty. Qed.
Lemma bank0_step : rtc (bank_step moved) bank0 bank1.
Proof.
  apply rtc_once. apply (bank_step_exec moved (OCreate uuid mkChunkOptions)).
  - done.
  - split; [exact bank0_files|exact bank0_chunks].
  - cbn [bank_exec]. by rewrite (bind_step _ _ _ _ _ bank0_create).
Qed.

Lemma bank_safe_witness :
  bank_inv bank1 ∧ is_Some (bank_exec moved (OGet uuid) bank1).
Proof.
  pose proof (bank_safe moved store0 bank1 bank0_step) as [Hb Ho].
  split; [exact Hb|]. exact (Ho (OGet uuid) I I).
Defined.

Lemma create_get_remove_witness :
  get_chunk uuid (Some None) bank1 = Some ((OK, Some (Some 1%positive)), bank1).
Proof.
  pose proof (create_get_remove uuid mkChunkOptions bank0 1%positive bank1 (new_bank_inv store0) bank0_files
                bank0_chunks bank0_create) as [Hg _].
  exact Hg.
Defined.

Lemma list_chunk_spec_witness :
  wp (list_chunk uuid 10) bank1 (λ us b', b' = bank1 ∧ (length us <= Z.to_nat 10)%nat).
Proof.
  pose proof (list_chunk_spec uuid 10 bank1) as Hw.
  eapply wp_mono; [exact Hw|]. cbv beta. intros us b' (E & _ & El & _). split; [exact E|exact El].
Defined.

Lemma bank1_paths p : p ∈ store_paths (_store bank1) → ∃ u, p = uuid_str u.
Proof.
  intros Hp. exists uuid. vm_compute in Hp. apply list_elem_of_singleton in Hp as ->. by vm_compute.
Qed.

(** The bank that a restart makes from the store of [bank1]. *)
Lemma load_loads_nothing_witness :
  wp load (new_bank (_store bank1)) (λ s b', s = OK ∧ _chunks b' = ∅).
Proof.
  pose proof (load_loads_nothing (new_bank (_store bank1)) bank1_paths) as Hw.
  eapply wp_mono; [exact Hw|]. cbv beta. intros s b' (E & Ec & _). split; [exact E|exact Ec].
Defined.
End Witness.
End Bank.
