(* ===== verification/Proto.v ===== *)
(** * Messages ([protocols/pain/proto/common.proto])

    Records with the fields of the proto3 messages that several services share; a default
    instance holds zeros, empty strings and empty lists. A [uint32] field set from an [int]
    keeps its low 32 bits. *)
From S2P Require Import Prelude Bytes Uuid.
Set Default Goal Selector "!".
Local Open Scope Z_scope.

Module Proto.

Record Header := mkHeader { status : Z; message : string }.
Definition default_header : Header := mkHeader 0 "".

(** [message UUID]. *)
Record UUIDMsg := mkUUIDMsg { msg_low : Z; msg_high : Z }.
Definition default_uuid : UUIDMsg := mkUUIDMsg 0 0.

(** [set_low(uuid.low()); set_high(uuid.high())]. *)
Definition uuid_msg (u : UUID) : UUIDMsg := mkUUIDMsg (low u) (high u).

(** [UUID uuid(m.high(), m.low())]. *)
Definition msg_uuid `{UuidOps} (m : UUIDMsg) : UUID := uuid_ctor (msg_high m) (msg_low m).

(** [header->set_status(status.error_code()); header->set_message(status.error_str())]. *)
Definition status_header (s : Status) : Header := mkHeader (u32 (error_code s)) (error_str s).

Inductive FileType := FILE_TYPE_NONE | FILE_TYPE_FILE | FILE_TYPE_DIRECTORY.
#[global] Instance FileType_eq_dec : EqDecision FileType.
Proof. solve_decision. Defined.

Lemma msg_uuid_msg `{UuidLaws} u : msg_uuid (uuid_msg u) = u.
Proof. apply ctor_high_low. Qed.
End Proto.
