(* ===== verification/ManusyaService.v ===== *)
(** * The chunk server's RPC handlers ([src/manusya/manusya_service_impl.cc])

    Each handler maps the bank, the request and the request attachment to the bank, the
    response, the response attachment and the failure set on the controller, if any. Tracing
    and logging are left out. [AppendChunk] may block in [Chunk::append]: it then returns the
    parked request, and [AppendChunk_resume] is the rest of the handler. *)
From S2P Require Import Prelude Bytes Iobuf Uuid Future Store MemStore Chunk Reassembly ChunkSpec Bank Proto.
Import Chunk Reassembly Bank Proto.
Set Default Goal Selector "!".
Local Open Scope Z_scope.

Module ManusyaService.

(** ** Messages ([protocols/pain/proto/manusya.proto]) *)
(** A message field of a message may be unset. *)
Record CreateChunkResponse := mkCreateChunkResponse { cc_header : Header; cc_chunk_id : option UUIDMsg }.
Record AppendChunkRequest := mkAppendChunkRequest { ac_chunk_id : UUIDMsg; ac_offset : Z }.
Record AppendChunkResponse := mkAppendChunkResponse { acr_header : Header; acr_offset : Z }.
Record ListChunkRequest := mkListChunkRequest { lc_start : UUIDMsg; lc_limit : Z }.
Record ListChunkResponse := mkListChunkResponse {
  lcr_header : Header; lcr_has_more : bool; lcr_chunk_ids : list UUIDMsg }.
Record ReadChunkRequest := mkReadChunkRequest {
  rc_chunk_id : UUIDMsg; rc_offset : Z; rc_length : Z }.
Record ReadChunkResponse := mkReadChunkResponse { rcr_header : Header }.
Record QueryAndSealChunkResponse := mkQueryAndSealChunkResponse { qs_header : Header; qs_size : Z }.
Record RemoveChunkResponse := mkRemoveChunkResponse { rm_header : Header }.
Record QueryChunkResponse := mkQueryChunkResponse {
  qc_header : Header; qc_size : Z; qc_sealed : bool }.

(** [cntl->SetFailed(code, message)]. *)
Definition Failure := option (Z * string).

Section service.
Context `{IOBufOps} `{UuidOps} {St FH : Type} `{!StoreOps St FH}.
Abbreviation Bank := (Bank (St := St) (FH := FH)).

Definition chunk_not_found : Header := mkHeader ENOENT "Chunk not found".

(** Reading a member of the chunk a pointer refers to. *)
Definition chunk_get {A} (ptr : ChunkPtr) (f : Chunk (FH := FH) → A) : Prog Bank A :=
  on_chunk_ptr ptr (gets (λ w, f (chunk w))).

(** [get_chunk(uuid, &chunk)] with a local [ChunkPtr chunk]. *)
Definition find_chunk (uuid : UUID) : Prog Bank (Status * ChunkPtr) :=
  '(status, chunk) ← get_chunk uuid (Some None);
  mret (status, default None chunk).

(** [CreateChunk]; [generated] is what [UUID::generate()] returns. *)
Definition CreateChunk (generated : UUID) : Prog Bank CreateChunkResponse :=
  '(status, chunk) ← create_chunk generated mkChunkOptions (Some None);
  if negb (ok status)
  then mret (mkCreateChunkResponse (status_header status) None)
  else
    uuid ← chunk_get (default None chunk) _uuid;
    mret (mkCreateChunkResponse default_header (Some (uuid_msg uuid))).

(** The rest of [AppendChunk] once [append] has returned [status]. *)
Definition AppendChunk_resume (chunk : ChunkPtr) (status : Status) : Prog Bank AppendChunkResponse :=
  if negb (ok status)
  then mret (mkAppendChunkResponse (status_header status) 0)
  else
    size ← chunk_get chunk _size;
    mret (mkAppendChunkResponse default_header size).

Inductive AppendReply :=
| Replied (response : AppendChunkResponse)
| Blocked (chunk : positive) (rq : positive).

Definition AppendChunk (request : AppendChunkRequest) (attachment : IOBuf) : Prog Bank AppendReply :=
  let uuid := msg_uuid (ac_chunk_id request) in
  '(status, chunk) ← find_chunk uuid;
  if negb (ok status) then mret (Replied (mkAppendChunkResponse chunk_not_found 0)) else
  match chunk with
  | None => abort
  | Some l =>
      r ← on_chunk_ptr chunk (append attachment (ac_offset request));
      match r with
      | Parked id => mret (Blocked l id)
      | Returned status => response ← AppendChunk_resume chunk status; mret (Replied response)
      end
  end.

(** [ListChunk]: [has_more] is not set. *)
Definition ListChunk (request : ListChunkRequest) : Prog Bank ListChunkResponse :=
  uuids ← list_chunk (msg_uuid (lc_start request)) (lc_limit request);
  mret (mkListChunkResponse default_header false (uuid_msg <$> uuids)).

(** [ReadChunk]: the bytes go to [attachment], the response attachment. *)
Definition ReadChunk (request : ReadChunkRequest) (attachment : IOBuf) :
    Prog Bank (ReadChunkResponse * IOBuf * Failure) :=
  let uuid := msg_uuid (rc_chunk_id request) in
  '(status, chunk) ← find_chunk uuid;
  if negb (ok status) then mret (mkReadChunkResponse chunk_not_found, attachment, None) else
  '(status, buf) ← on_chunk_ptr chunk (read (rc_offset request) (rc_length request) (Some attachment));
  let attachment := default attachment buf in
  if negb (ok status)
  then mret (mkReadChunkResponse default_header, attachment,
             Some (error_code status, error_str status))
  else mret (mkReadChunkResponse default_header, attachment, None).

Definition QueryAndSealChunk (chunk_id : UUIDMsg) :
    Prog Bank (QueryAndSealChunkResponse * Failure) :=
  let uuid := msg_uuid chunk_id in
  '(status, chunk) ← find_chunk uuid;
  if negb (ok status)
  then mret (mkQueryAndSealChunkResponse default_header 0, Some (ENOENT, "Chunk not found")) else
  '(status, size) ← on_chunk_ptr chunk (query_and_seal (Some 0));
  if negb (ok status)
  then mret (mkQueryAndSealChunkResponse (status_header status) 0, None)
  else mret (mkQueryAndSealChunkResponse default_header (default 0 size), None).

Definition RemoveChunk (chunk_id : UUIDMsg) : Prog Bank RemoveChunkResponse :=
  status ← remove_chunk (msg_uuid chunk_id);
  if negb (ok status)
  then mret (mkRemoveChunkResponse (status_header status))
  else mret (mkRemoveChunkResponse default_header).

Definition QueryChunk (chunk_id : UUIDMsg) : Prog Bank QueryChunkResponse :=
  let uuid := msg_uuid chunk_id in
  '(status, chunk) ← find_chunk uuid;
  if negb (ok status) then mret (mkQueryChunkResponse chunk_not_found 0 false) else
  size ← chunk_get chunk _size;
  state ← chunk_get chunk _state;
  mret (mkQueryChunkResponse default_header size (bool_decide (state = kSealed))).
End service.

(** ** Lemmas *)
Section lemmas.
Context `{StoreLaws St FH} `{UuidLaws}.
Implicit Types (b : Bank (St := St) (FH := FH)) (c : Chunk (FH := FH)).

Lemma find_chunk_eq b uuid :
  find_chunk uuid b = Some (match _chunks b !! uuid with
    | None => (mkStatus ENOENT "Chunk not found", None)
    | Some l => (OK, Some l) end, b).
Proof.
  unfold find_chunk. erewrite bind_step by apply get_chunk_eq. by destruct (_chunks b !! uuid).
Qed.

Lemma chunk_get_eq {A} b l c (f : Chunk (FH := FH) → A) :
  heap b !! l = Some c → chunk_get (Some l) f b = Some (f c, b).
Proof.
  intros E. unfold chunk_get, on_chunk_ptr, gets. rewrite E. unfold Bank.set_store, set_heap.
  cbn. rewrite insert_id by done. by destruct b.
Qed.

Lemma on_chunk_ptr_eq {A} b l c (p : Prog (World (St := St) (FH := FH)) A) a w :
  heap b !! l = Some c → p (mkWorld (_store b) c) = Some (a, w) →
  on_chunk_ptr (Some l) p b =
  Some (a, set_heap (<[l := chunk w]> (heap b)) (Bank.set_store (store w) b)).
Proof. intros E Ep. unfold on_chunk_ptr. by rewrite E, Ep. Qed.

(** [QueryChunk] of a registered chunk. *)
Lemma query_chunk_eq b m l c :
  _chunks b !! msg_uuid m = Some l → heap b !! l = Some c →
  QueryChunk m b =
  Some (mkQueryChunkResponse default_header (_size c) (bool_decide (_state c = kSealed)), b).
Proof.
  intros El Ec. unfold QueryChunk. erewrite bind_step by apply find_chunk_eq.
  rewrite El. cbv iota beta. rewrite ok_OK. cbn [negb].
  erewrite bind_step by by apply (chunk_get_eq _ _ c).
  by erewrite bind_step by by apply (chunk_get_eq _ _ c).
Qed.

(** Every handler that takes a chunk id answers ENOENT for a chunk the bank does not know and
    changes nothing; only [QueryAndSealChunk] reports it as a failed RPC, the others in the
    response header. *)
Theorem unknown_chunk id b :
  _chunks b !! msg_uuid id = None →
  let header := mkHeader ENOENT "Chunk not found" in
  (∀ offset data, AppendChunk (mkAppendChunkRequest id offset) data b =
     Some (Replied (mkAppendChunkResponse header 0), b)) ∧
  (∀ offset length buf, ReadChunk (mkReadChunkRequest id offset length) buf b =
     Some ((mkReadChunkResponse header, buf, None), b)) ∧
  QueryChunk id b = Some (mkQueryChunkResponse header 0 false, b) ∧
  QueryAndSealChunk id b =
    Some ((mkQueryAndSealChunkResponse default_header 0, Some (ENOENT, "Chunk not found")), b) ∧
  RemoveChunk id b = Some (mkRemoveChunkResponse header, b).
Proof.
  intros E. split_and!; [intros ? ?|intros ? ? ?|..].
  5: { unfold RemoveChunk, remove_chunk. erewrite bind_step; [|by erewrite bind_step by done; rewrite E].
       done. }
  all: unfold AppendChunk, ReadChunk, QueryChunk, QueryAndSealChunk; cbn [ac_chunk_id rc_chunk_id];
    erewrite bind_step by apply find_chunk_eq; by rewrite E.
Qed.

(** [ListChunk] lists the same UUIDs as the bank and always leaves [has_more] false, also
    when the limit cut the list short. *)
Theorem list_never_has_more request b :
  wp (ListChunk request) b (λ response b', b' = b ∧ lcr_has_more response = false ∧
    ∃ us, list_chunk (msg_uuid (lc_start request)) (lc_limit request) b = Some (us, b) ∧
          lcr_chunk_ids response = uuid_msg <$> us).
Proof.
  unfold ListChunk, list_chunk. eapply wp_step; [done|]. eapply wp_eval; [done|].
  split_and!; [done|done|]. by eexists.
Qed.
End lemmas.

Section reliable.
Context `{StoreReliable St FH} `{!UuidOps} `{!UuidLaws}.
Implicit Types (b : Bank (St := St) (FH := FH)).

(** What a client does: create a chunk, append to it, read back, query. *)
Definition write_read (generated : UUID) (data : IOBuf) (length : Z) :
    Prog (Bank (St := St) (FH := FH))
      (CreateChunkResponse * AppendReply * (ReadChunkResponse * IOBuf * Failure) * QueryChunkResponse) :=
  c ← CreateChunk generated;
  let id := default default_uuid (cc_chunk_id c) in
  a ← AppendChunk (mkAppendChunkRequest id 0) data;
  r ← ReadChunk (mkReadChunkRequest id 0 length) iob_empty;
  q ← QueryChunk id;
  mret (c, a, r, q).

Lemma create_chunk_ok uuid options b :
  files (_store b) !! uuid_str uuid = None →
  wlp (create_chunk uuid options (Some None)) b (λ r _, ok (fst r) = true).
Proof.
  intros Hnew. unfold create_chunk. apply wlp_bind, wlp_zoom. unfold create. apply wlp_bind.
  eapply wlp_mono; [by apply open_new_ok|]. cbv beta. intros [s fh] st' Hok. cbn [fst] in Hok.
  rewrite Hok. done.
Qed.

(** The first append to an empty chunk with nothing waiting. *)
Lemma append_first w data :
  inv w [] → _state (chunk w) = kOpen → _append_request_queue (chunk w) = [] →
  len (iob_bytes data) < 2 ^ 64 →
  ∃ w', append data 0 w = Some (Returned OK, w') ∧ inv w' (iob_bytes data) ∧
        _state (chunk w') = kOpen ∧ _size (chunk w') = len (iob_bytes data).
Proof.
  intros Hi Hs Hq Hlen. assert (_state (chunk w) ≠ kSealed) as Hns by (by rewrite Hs).
  assert (pending (chunk w) = []) as Hp by (unfold pending; by rewrite Hq).
  pose proof (append_spec data 0 w [] Hi Hns) as Hsp. rewrite Hp in Hsp.
  specialize (Hsp ltac:(done) ltac:(by intros x ?%elem_of_nil) ltac:(lia)).
  pose proof (append_inv data 0 w [] Hi) as Hai.
  apply wp_exists in Hai as (r & w' & E & bs' & Hi' & Hev).
  unfold wp in Hsp. rewrite E in Hsp. change (0 <? len []) with false in Hsp.
  change (0 =? len []) with true in Hsp. destruct Hsp as [-> Habs]. unfold absorbed in Habs.
  cbn [absorb app] in Habs. destruct Habs as (Hf & _).
  assert (path (chunk w) = path (chunk w')) as Ep by (unfold path; by rewrite (ev_uuid _ _ _ _ Hev)).
  rewrite Ep in Hf. apply (inv_functional _ _ _ Hi') in Hf as <-.
  exists w'. split_and!; [done|done| |by apply size_len, Hlen; apply Hi'].
  pose proof (append_state data 0 w) as Hst. unfold wlp in Hst. rewrite E in Hst.
  unfold state_of in Hst. by rewrite Hst.
Qed.

(** A chunk of the bank that holds [bs] and waits for nothing. *)
Definition holds b uuid (bs : list byte) : Prop :=
  ∃ l c, _chunks b !! uuid = Some l ∧ heap b !! l = Some c ∧ inv (mkWorld (_store b) c) bs ∧
    _state c = kOpen ∧ _append_request_queue c = [] ∧ _size c = len bs.

(** The handlers on a new chunk. *)
Lemma create_chunk_eq uuid b :
  bank_inv b → files (_store b) !! uuid_str uuid = None → _chunks b !! uuid = None →
  ∃ b', CreateChunk uuid b = Some (mkCreateChunkResponse default_header (Some (uuid_msg uuid)), b') ∧
        holds b' uuid [].
Proof.
  intros Hb Hnew Hno. pose proof (create_chunk_wp uuid mkChunkOptions None b Hb Hnew Hno) as Hwp.
  apply wp_exists in Hwp as ([s p] & b' & Ec & Hb1 & Hr). cbn [fst snd] in Hr.
  pose proof (create_chunk_ok uuid mkChunkOptions b Hnew) as Hok. unfold wlp in Hok.
  rewrite Ec in Hok. cbn [fst] in Hok. rewrite Hok in Hr.
  destruct Hr as (l & c & -> & Ech & Ecl & Eu & Est & Esz & Eq & Hi & Hfs).
  exists b'. split.
  - unfold CreateChunk. erewrite bind_step by exact Ec. cbv iota beta. rewrite Hok. cbn [negb default].
    erewrite bind_step by by apply (chunk_get_eq _ _ c). by rewrite Eu.
  - exists l, c. rewrite Ech. split_and!; try done. apply lookup_insert_eq.
Qed.

Lemma append_chunk_eq uuid data b :
  holds b uuid [] → len (iob_bytes data) < 2 ^ 32 →
  ∃ b', AppendChunk (mkAppendChunkRequest (uuid_msg uuid) 0) data b =
          Some (Replied (mkAppendChunkResponse default_header (len (iob_bytes data))), b') ∧
        ∃ l c, _chunks b' !! uuid = Some l ∧ heap b' !! l = Some c ∧
          inv (mkWorld (_store b') c) (iob_bytes data) ∧ _state c = kOpen ∧ _size c = len (iob_bytes data).
Proof.
  intros (l & c & El & Ecl & Hi & Est & Eq & Esz) Hlen.
  destruct (append_first (mkWorld (_store b) c) data) as (w1 & Ea & Hi1 & Hs1 & Hz1); try done; [lia|].
  set (b2 := set_heap (<[l := chunk w1]> (heap b)) (Bank.set_store (store w1) b)).
  assert (heap b2 !! l = Some (chunk w1)) as El2 by apply lookup_insert_eq.
  exists b2. split.
  - unfold AppendChunk. cbn [ac_chunk_id ac_offset]. rewrite msg_uuid_msg.
    erewrite bind_step by apply find_chunk_eq.
    rewrite El. cbv iota beta. rewrite ok_OK. cbn [negb].
    erewrite bind_step by by apply (on_chunk_ptr_eq _ _ c). fold b2.
    unfold AppendChunk_resume. rewrite ok_OK. cbn [negb]. rewrite <-Hz1.
    erewrite bind_step; [reflexivity|]. by erewrite bind_step by by apply (chunk_get_eq _ _ (chunk w1)).
  - exists l, (chunk w1). split_and!; try done. by destruct w1.
Qed.

(** Reading a whole chunk, and querying it. *)
Lemma read_chunk_eq uuid bs b l c :
  _chunks b !! uuid = Some l → heap b !! l = Some c → inv (mkWorld (_store b) c) bs →
  len bs < 2 ^ 32 →
  ∃ buf b', ReadChunk (mkReadChunkRequest (uuid_msg uuid) 0 (len bs)) iob_empty b =
              Some ((mkReadChunkResponse default_header, buf, None), b') ∧
            iob_bytes buf = bs ∧ _chunks b' = _chunks b ∧ heap b' !! l = Some c.
Proof.
  intros El Ecl Hi Hlen. pose proof (len_nonneg bs) as Hnn.
  pose proof (read_range_wp 0 (len bs) iob_empty (mkWorld (_store b) c) bs Hi) as Hrd.
  specialize (Hrd ltac:(lia) ltac:(lia) ltac:(lia) ltac:(lia) iob_bytes_empty).
  apply wp_exists in Hrd as ([s2 buf] & w2 & Er & Hf2 & Hc2 & Hok). cbn [fst snd] in Hok.
  rewrite (proj2 (Z.leb_le _ _)) in Hok by lia. destruct Hok as (Hok & bb & -> & Hbb).
  exists bb. eexists. split_and!.
  - unfold ReadChunk. cbn [rc_chunk_id rc_offset rc_length]. rewrite msg_uuid_msg.
    erewrite bind_step by apply find_chunk_eq. rewrite El. cbv iota beta. rewrite ok_OK. cbn [negb].
    erewrite bind_step by (by apply (on_chunk_ptr_eq _ _ c)).
    cbv iota beta. rewrite Hok. reflexivity.
  - rewrite Hbb. unfold len. rewrite Nat2Z.id. cbn [Z.to_nat drop]. by rewrite firstn_all.
  - done.
  - cbn. rewrite Hc2. apply lookup_insert_eq.
Qed.

(** Reading more than a chunk holds fails the call. *)
Lemma read_chunk_beyond uuid bs n b l c :
  _chunks b !! uuid = Some l → heap b !! l = Some c → inv (mkWorld (_store b) c) bs →
  len bs < n < 2 ^ 32 →
  ∃ e buf b', ReadChunk (mkReadChunkRequest (uuid_msg uuid) 0 n) iob_empty b =
    Some ((mkReadChunkResponse default_header, buf, Some (EINVAL, e)), b').
Proof.
  intros El Ecl Hi Hlen. pose proof (len_nonneg bs) as Hnn.
  pose proof (read_range_wp 0 n iob_empty (mkWorld (_store b) c) bs Hi) as Hrd.
  specialize (Hrd ltac:(lia) ltac:(lia) ltac:(lia) ltac:(lia) iob_bytes_empty).
  apply wp_exists in Hrd as ([s2 buf] & w2 & Er & Hf2 & Hc2 & Hr). cbn [fst snd] in Hr.
  rewrite (proj2 (Z.leb_gt _ _)) in Hr by lia. injection Hr as -> ->.
  eexists _, _, _. unfold ReadChunk. cbn [rc_chunk_id rc_offset rc_length]. rewrite msg_uuid_msg.
  erewrite bind_step by apply find_chunk_eq. rewrite El. cbv iota beta. rewrite ok_OK. cbn [negb].
  erewrite bind_step by (by apply (on_chunk_ptr_eq _ _ c)). reflexivity.
Qed.

(** Through the RPC interface, on a store that does not fail: creating a
    chunk answers its id; appending data to that id at offset 0 answers the new end of the
    chunk, reading it back answers exactly the data, and the query its size, not sealed. *)
Theorem write_read_roundtrip uuid data b :
  bank_inv b → files (_store b) !! uuid_str uuid = None → _chunks b !! uuid = None →
  len (iob_bytes data) < 2 ^ 32 →
  wp (write_read uuid data (len (iob_bytes data))) b (λ '(c, a, r, q) _,
    c = mkCreateChunkResponse default_header (Some (uuid_msg uuid)) ∧
    a = Replied (mkAppendChunkResponse default_header (len (iob_bytes data))) ∧
    fst (fst r) = mkReadChunkResponse default_header ∧ snd r = None ∧
    iob_bytes (snd (fst r)) = iob_bytes data ∧
    q = mkQueryChunkResponse default_header (len (iob_bytes data)) false).
Proof.
  intros Hb Hnew Hno Hlen. destruct (create_chunk_eq uuid b Hb Hnew Hno) as (b1 & Ec & Hh).
  destruct (append_chunk_eq uuid data b1 Hh Hlen) as (b2 & Ea & l & c & El & Ecl & Hi & Est & Esz).
  destruct (read_chunk_eq uuid (iob_bytes data) b2 l c El Ecl Hi Hlen) as (buf & b3 & Er & Hbuf & Ech & Eh).
  unfold write_read. eapply wp_step; [exact Ec|]. cbv zeta beta. cbn [cc_chunk_id default].
  eapply wp_step; [exact Ea|]. eapply wp_step; [exact Er|].
  eapply wp_step; [apply (query_chunk_eq _ (uuid_msg uuid) l c); [by rewrite msg_uuid_msg, Ech|exact Eh]|].
  eapply wp_eval; [done|]. by rewrite Esz, Est.
Qed.
End reliable.

(** ** Witnesses *)
Module Witness.
Import ChunkSpec.Example Bank.Witness.
#[local] Existing Instances ListIOBuf.ops ListIOBuf.laws HexUuid.ops HexUuid.laws.

Lemma unknown_chunk_witness :
  QueryChunk (mkUUIDMsg 7 8) bank0 =
  Some (mkQueryChunkResponse (mkHeader ENOENT "Chunk not found") 0 false, bank0).
Proof.
  pose proof (unknown_chunk (mkUUIDMsg 7 8) bank0 (lookup_empty _)) as (_ & _ & Hq & _).
  exact Hq.
Defined.

Definition data : @IOBuf ListIOBuf.ops := ([Byte.x68; Byte.x69] : list byte).

Lemma write_read_roundtrip_witness :
  wp (write_read uuid data (len (iob_bytes data))) bank0 (λ '(c, a, r, q) _,
    iob_bytes (snd (fst r)) = iob_bytes data).
Proof.
  pose proof (write_read_roundtrip uuid data bank0 (new_bank_inv store0) bank0_files bank0_chunks
                ltac:(by vm_compute)) as Hw.
  eapply wp_mono; [exact Hw|]. intros [[[c a] r] q] b' (_ & _ & _ & _ & E & _). exact E.
Defined.
End Witness.
End ManusyaService.
