(* ===== verification/Namespace.v ===== *)
(** * The namespace of a metadata server ([src/deva/namespace.h], [src/deva/namespace.cc])

    [_entries] maps the inode of a directory to its entries, in order of creation. Paths are C
    strings: [parse_path] walks one with two pointers up to the terminator, and so does the
    definition, with indices. Each member runs under the namespace's mutex. *)
From S2P Require Import Prelude Bytes Uuid.
From Stdlib Require Import Strings.Ascii.
Set Default Goal Selector "!".

Module Namespace.

Inductive FileType := kFile | kDirectory.
#[global] Instance FileType_eq_dec : EqDecision FileType.
Proof. solve_decision. Defined.

Record DirEntry := mkDirEntry { inode : UUID; name : string; type : FileType }.

(** ** Parsing *)

(** The character at an index, the terminator at the end. *)
Definition deref (s : string) (i : nat) : ascii :=
  match String.get i s with Some c => c | None => zero end.

Definition NUL : ascii := zero.
Definition SLASH : ascii := "/".

(** The inner loop: [q] moves to the next slash or terminator, over at most [fuel] characters. *)
Fixpoint scan (fuel : nat) (path : string) (q : nat) : nat :=
  match fuel with
  | O => q
  | S fuel =>
      if negb (Ascii.eqb (deref path q) NUL) && negb (Ascii.eqb (deref path q) SLASH)
      then scan fuel path (S q) else q
  end.

(** The outer loop; [None] when the fuel runs out. *)
Fixpoint parse_loop (fuel : nat) (path : string) (p : nat) (components : list string) :
    option (list string) :=
  match fuel with
  | O => None
  | S fuel =>
      if Ascii.eqb (deref path p) NUL then Some components else
      if Ascii.eqb (deref path p) SLASH then parse_loop fuel path (S p) components else
      let q := scan (String.length path) path p in
      parse_loop fuel path q (components ++ [String.substring p (q - p) path])
  end.

(** [Namespace::parse_path]: appends to [components]. Each round moves on by at least one
    character, so that one round per character and one for the terminator are enough. *)
Definition parse_path (path : string) (components : list string) : option (Status * list string) :=
  if negb (Ascii.eqb (deref path 0) SLASH)
  then Some (mkStatus EINVAL "Invalid path", components)
  else
    match parse_loop (S (String.length path)) path 0 components with
    | None => None
    | Some components => Some (OK, components)
    end.

(** ** The namespace *)
Record Namespace := mkNamespace {
  _root : UUID;
  _entries : gmap UUID (list DirEntry);
}.

Definition set_entries (m : gmap UUID (list DirEntry)) (ns : Namespace) : Namespace :=
  mkNamespace (_root ns) m.

Definition no_such_file : Status := mkStatus ENOENT "No such file or directory".

(** [Namespace()]. *)
Definition new_namespace `{UuidOps} : Namespace :=
  let root := from_str_or_die "00000000-0000-0000-0000-000000000000" in
  mkNamespace root {[root := []]}.

(** [Namespace::load]. *)
Definition load : Prog Namespace Status := mret OK.

(** [Namespace::create]. *)
Definition create (parent : UUID) (name : string) (type : FileType) (inode : UUID) :
    Prog Namespace Status :=
  ns ← get;
  match _entries ns !! parent with
  | None => mret no_such_file
  | Some entries =>
      modify (λ ns, set_entries (<[parent := entries ++ [mkDirEntry inode name type]]> (_entries ns)) ns);;
      (if decide (type = kDirectory)
       then modify (λ ns, set_entries (<[inode := []]> (_entries ns)) ns)
       else mret tt);;
      mret OK
  end.

(** [Namespace::remove]: every entry of that name, and only the entries. *)
Definition remove (parent : UUID) (nm : string) : Prog Namespace Status :=
  ns ← get;
  match _entries ns !! parent with
  | None => mret no_such_file
  | Some entries =>
      modify (λ ns, set_entries (<[parent := filter (λ e, name e ≠ nm) entries]> (_entries ns)) ns);;
      mret OK
  end.

(** [Namespace::list]: [*entries] is left alone when the directory does not exist. *)
Definition list_entries (parent : UUID) (entries : option (list DirEntry)) :
    Prog Namespace (option (list DirEntry)) :=
  ns ← get;
  match _entries ns !! parent with
  | None => mret entries
  | Some es => match entries with None => abort | Some _ => mret (Some es) end
  end.

(** [std::find_if] by name: the first entry of that name. *)
Fixpoint find_entry (component : string) (entries : list DirEntry) : option DirEntry :=
  match entries with
  | [] => None
  | e :: rest => if decide (name e = component) then Some e else find_entry component rest
  end.

(** The loop of [lookup]: status, [parent] and [*file_type] when it ends. *)
Fixpoint lookup_loop (m : gmap UUID (list DirEntry)) (components : list string)
    (parent : UUID) (file_type : FileType) : Status * UUID * FileType :=
  match components with
  | [] => (OK, parent, file_type)
  | component :: rest =>
      match m !! parent with
      | None => (no_such_file, parent, file_type)
      | Some entries =>
          match find_entry component entries with
          | None => (no_such_file, parent, file_type)
          | Some entry =>
              if bool_decide (type entry = kFile) && negb (match rest with [] => true | _ => false end)
              then (mkStatus ENOENT "Not a directory", parent, file_type)
              else lookup_loop m rest (inode entry) (type entry)
          end
      end
  end.

(** [Namespace::lookup]: [*file_type] is written before the walk, [*inode] only at the end. *)
Definition lookup (path : string) (ino : option UUID) (file_type : option FileType) :
    Prog Namespace (Status * option UUID * option FileType) :=
  ns ← get;
  match parse_path path [] with
  | None => abort
  | Some (status, components) =>
      if negb (ok status) then mret (status, ino, file_type) else
      match file_type with
      | None => abort
      | Some _ =>
          let '(status, parent, file_type) := lookup_loop (_entries ns) components (_root ns) kDirectory in
          if negb (ok status) then mret (status, ino, Some file_type) else
          match ino with None => abort | Some _ => mret (status, Some parent, Some file_type) end
      end
  end.

(** ** Specifications *)

(** The path components of a C string: its maximal non-empty pieces between slashes. *)
Definition flush (w : string) : list string := match w with EmptyString => [] | _ => [w] end.
Fixpoint words (w : string) (s : string) : list string :=
  match s with
  | EmptyString => flush w
  | String c s' =>
      if Ascii.eqb c NUL then flush w else
      if Ascii.eqb c SLASH then flush w ++ words "" s' else words (w +:+ String c "") s'
  end.

(** The path made of some components. *)
Fixpoint join (components : list string) : string :=
  match components with
  | [] => ""
  | c :: rest => "/" +:+ c +:+ join rest
  end.

(** A usable name: not empty, neither slash nor terminator inside. *)
Fixpoint clean (s : string) : Prop :=
  match s with
  | EmptyString => True
  | String c s' => c ≠ NUL ∧ c ≠ SLASH ∧ clean s'
  end.
Definition is_name (s : string) : Prop := s ≠ "" ∧ clean s.

(** Walking from a directory along components. *)
Inductive resolves (m : gmap UUID (list DirEntry)) : UUID → list string → UUID → FileType → Prop :=
| resolves_nil p : resolves m p [] p kDirectory
| resolves_last p c es e :
    m !! p = Some es → find_entry c es = Some e → resolves m p [c] (inode e) (type e)
| resolves_step p c c' cs es e i t :
    m !! p = Some es → find_entry c es = Some e → type e = kDirectory →
    resolves m (inode e) (c' :: cs) i t → resolves m p (c :: c' :: cs) i t.

Lemma resolves_head m p c cs i t :
  resolves m p (c :: cs) i t → ∃ es e, m !! p = Some es ∧ find_entry c es = Some e.
Proof. inversion 1; subst; eauto. Qed.

(** ** Parsing lemmas *)

(** The first component of [t], when [t] starts inside one, and what follows. *)
Fixpoint piece (t : string) : string * string :=
  match t with
  | EmptyString => ("", t)
  | String c t' =>
      if Ascii.eqb c NUL || Ascii.eqb c SLASH then ("", t)
      else (String c (fst (piece t')), snd (piece t'))
  end.

Lemma deref_drop p s : deref s p = deref (str_drop p s) 0.
Proof.
  revert s; induction p as [|p IH]; intros s; [done|]. destruct s as [|c s]; [done|].
  cbn [str_drop]. rewrite <-IH. done.
Qed.

Lemma deref_0 c t : deref (String c t) 0 = c.
Proof. done. Qed.

Lemma substring_drop p n s : String.substring p n s = String.substring 0 n (str_drop p s).
Proof.
  revert s; induction p as [|p IH]; intros s; [done|]. destruct s as [|c s]; cbn [str_drop].
  - by destruct n.
  - cbn [String.substring]. apply IH.
Qed.

Lemma str_drop_S p s c t : str_drop p s = String c t → str_drop (S p) s = t.
Proof.
  intros E. replace (S p) with (p + 1) by lia. by rewrite <-str_drop_add, E.
Qed.

Lemma scan_piece fuel path p :
  String.length (str_drop p path) <= fuel →
  scan fuel path p = p + String.length (fst (piece (str_drop p path))).
Proof.
  revert p; induction fuel as [|fuel IH]; intros p Hf.
  - cbn [scan]. destruct (str_drop p path); cbn in *; lia.
  - cbn [scan]. rewrite deref_drop. destruct (str_drop p path) as [|c t] eqn:Et; [cbn; lia|].
    rewrite deref_0. cbn [piece].
    destruct (Ascii.eqb c NUL), (Ascii.eqb c SLASH); cbn; try lia.
    rewrite IH; rewrite (str_drop_S p path c t) by done; [lia|cbn in Hf; lia].
Qed.

Lemma piece_app t : t = fst (piece t) +:+ snd (piece t).
Proof.
  induction t as [|c t IH]; [done|]. cbn [piece].
  destruct (Ascii.eqb c NUL || Ascii.eqb c SLASH); [done|]. cbn [fst snd].
  change (String c t = String c (fst (piece t) +:+ snd (piece t))). by f_equal.
Qed.

Lemma substring_app s t : String.substring 0 (String.length s) (s +:+ t) = s.
Proof.
  induction s as [|c s IH]; [by destruct t|].
  change (String c (String.substring 0 (String.length s) (s +:+ t)) = String c s). by rewrite IH.
Qed.

Lemma words_piece w t : words w t = words (w +:+ fst (piece t)) (snd (piece t)).
Proof.
  revert w; induction t as [|c t IH]; intros w; [cbn; by rewrite str_app_nil_r|].
  cbn [piece]. destruct (Ascii.eqb c NUL) eqn:E1; [cbn [orb fst snd]; by rewrite str_app_nil_r|].
  destruct (Ascii.eqb c SLASH) eqn:E2; [cbn [orb fst snd]; by rewrite str_app_nil_r|].
  cbn [orb fst snd words]. rewrite E1, E2, IH, str_app_assoc. done.
Qed.

(** Where a piece ends, so does the component that was being read. *)
Lemma words_after_piece w t : words w (snd (piece t)) = flush w ++ words "" (snd (piece t)).
Proof.
  induction t as [|c t IH]; [cbn; by rewrite app_nil_r|]. cbn [piece].
  destruct (Ascii.eqb c NUL) eqn:E1; cbn [orb snd]; [cbn [words]; rewrite E1; cbn; by rewrite app_nil_r|].
  destruct (Ascii.eqb c SLASH) eqn:E2; cbn [orb snd]; [cbn [words]; by rewrite E1, E2|]. apply IH.
Qed.

Lemma parse_loop_words fuel path p cs :
  String.length (str_drop p path) < fuel →
  parse_loop fuel path p cs = Some (cs ++ words "" (str_drop p path)).
Proof.
  revert p cs; induction fuel as [|fuel IH]; intros p cs Hf; [lia|]. cbn [parse_loop].
  rewrite deref_drop. destruct (str_drop p path) as [|c t] eqn:Et.
  { cbn. by rewrite app_nil_r. }
  rewrite deref_0. cbn [words]. destruct (Ascii.eqb c NUL) eqn:E1; [cbn; by rewrite app_nil_r|].
  destruct (Ascii.eqb c SLASH) eqn:E2.
  { rewrite IH; rewrite (str_drop_S p path c t) by done; [done|cbn in Hf; lia]. }
  rewrite scan_piece by (rewrite length_str_drop; lia). rewrite Et.
  set (pc := piece (String c t)) in *.
  assert (fst pc = String c (fst (piece t)) ∧ snd pc = snd (piece t)) as [E3 E4].
  { unfold pc. cbn [piece]. by rewrite E1, E2. }
  assert (String c t = fst pc +:+ snd pc) as Epc by apply piece_app.
  replace (p + String.length (fst pc) - p) with (String.length (fst pc)) by lia.
  assert (str_drop (p + String.length (fst pc)) path = snd pc) as Ed.
  { by rewrite <-str_drop_add, Et, Epc, str_drop_app. }
  rewrite IH; rewrite Ed.
  - rewrite substring_drop, Et, Epc, substring_app, <-app_assoc. do 2 f_equal.
    rewrite str_app_nil_l, (words_piece (String c "") t).
    change (String c "" +:+ fst (piece t)) with (String c (fst (piece t))).
    rewrite <-E3, words_after_piece, <-E4. by rewrite E3.
  - assert (String.length (snd pc) <= String.length t).
    { rewrite E4. rewrite (piece_app t) at 2. apply str_length_app_r. }
    cbn in Hf. lia.
Qed.

(** ** Theorems on paths *)

(** C26: [parse_path] terminates on every string. A path that does not start with a slash is
    refused with EINVAL; any other is split into exactly its maximal non-empty pieces between
    slashes, so that repeated and trailing slashes do not matter. *)
Theorem parse_path_spec path components :
  parse_path path components =
  if Ascii.eqb (deref path 0) SLASH
  then Some (OK, components ++ words "" path)
  else Some (mkStatus EINVAL "Invalid path", components).
Proof.
  unfold parse_path. destruct (Ascii.eqb (deref path 0) SLASH); [|done]. cbn [negb].
  by rewrite (parse_loop_words _ path 0) by (cbn [str_drop]; lia).
Qed.

Lemma words_clean w s t : clean s → words w (s +:+ t) = words (w +:+ s) t.
Proof.
  revert w; induction s as [|c s IH]; intros w; [by rewrite str_app_nil_r|].
  intros (Hn & Hs & Hc). change (String c s +:+ t) with (String c (s +:+ t)). cbn [words].
  rewrite (proj2 (Ascii.eqb_neq _ _) Hn), (proj2 (Ascii.eqb_neq _ _) Hs), IH by done.
  by rewrite str_app_assoc.
Qed.

Lemma words_join w cs t : (∀ c, c ∈ cs → is_name c) →
  words w (join cs +:+ "/" +:+ t) = flush w ++ cs ++ words "" t.
Proof.
  revert w; induction cs as [|c cs IH]; intros w Hcs; [done|].
  destruct (Hcs c) as [Hne Hc]; [left|].
  assert (join (c :: cs) +:+ "/" +:+ t = "/" +:+ c +:+ (join cs +:+ "/" +:+ t)) as ->.
  { cbn [join]. by rewrite !str_app_assoc. }
  cbn [words]. change ("/" +:+ ?x) with (String "/" x). cbn [words].
  replace (Ascii.eqb "/" NUL) with false by done. replace (Ascii.eqb "/" SLASH) with true by done.
  f_equal. rewrite words_clean, str_app_nil_l, IH by (done || (intros; apply Hcs; by right)).
  by destruct c.
Qed.

Lemma words_join_end w cs : (∀ c, c ∈ cs → is_name c) → words w (join cs) = flush w ++ cs.
Proof.
  intros Hcs. destruct cs as [|c cs] using rev_ind; [cbn; by rewrite app_nil_r|].
  assert (join (cs ++ [c]) = join cs +:+ "/" +:+ c) as ->.
  { clear. induction cs as [|d cs IH]; [cbn [app join]; by rewrite str_app_nil_r|].
    cbn [app join]. by rewrite IH, !str_app_assoc. }
  rewrite words_join by (intros; apply Hcs, elem_of_app; by left). do 2 f_equal.
  destruct (Hcs c) as [Hne Hc]; [apply elem_of_app; right; left|].
  rewrite <-(str_app_nil_r c), words_clean by done. cbn. rewrite str_app_nil_r. by destruct c.
Qed.

(** Parsing the path made of some names gives back those names, with or without a trailing
    slash. *)
Theorem parse_path_join cs :
  cs ≠ [] → (∀ c, c ∈ cs → is_name c) →
  parse_path (join cs) [] = Some (OK, cs) ∧ parse_path (join cs +:+ "/") [] = Some (OK, cs).
Proof.
  intros Hne Hcs. assert (∀ s, parse_path (join cs +:+ s) [] = Some (OK, words "" (join cs +:+ s))) as Hp.
  { intros s. unfold parse_path. destruct cs as [|c cs]; [done|].
    change (deref (join (c :: cs) +:+ s) 0) with SLASH. cbn [Ascii.eqb negb].
    by rewrite (parse_loop_words _ _ 0) by (cbn [str_drop]; lia). }
  split.
  - rewrite <-(str_app_nil_r (join cs)), Hp, str_app_nil_r. by rewrite words_join_end.
  - rewrite Hp. change "/" with ("/" +:+ ""). rewrite words_join by done. cbn. by rewrite app_nil_r.
Qed.

(** ** Walking *)

Lemma lookup_loop_fails m cs : ∀ p ft st i t,
  lookup_loop m cs p ft = (st, i, t) → st = OK ∨ error_code st = ENOENT.
Proof.
  induction cs as [|c cs IH]; intros p ft st i t; cbn [lookup_loop];
    [intros E; injection E as <- ? ?; by left|].
  repeat case_match; try (intros E; injection E as <- ? ?; by right).
  all: apply IH.
Qed.

Lemma lookup_loop_resolves m cs : ∀ p ft i t,
  lookup_loop m cs p ft = (OK, i, t) ↔
  (cs = [] ∧ i = p ∧ t = ft) ∨ (cs ≠ [] ∧ resolves m p cs i t).
Proof.
  induction cs as [|c cs IH]; intros p ft i t; cbn [lookup_loop].
  { split; [intros [= <- <-]; by left|]. by intros [(_ & -> & ->)|[? _]]. }
  split.
  - destruct (m !! p) as [es|] eqn:Em; [|done]. destruct (find_entry c es) as [e|] eqn:Ee; [|done].
    destruct (bool_decide (type e = kFile)) eqn:Et, cs as [|c' cs]; cbn [andb negb]; try done.
    1,2: intros [= <- <-]; right; split; [done|]; by eapply resolves_last.
    intros [(? & _)|[_ Hr]]%IH; [done|]. right. split; [done|].
    eapply resolves_step; [done|done| |done]. apply bool_decide_eq_false in Et. by destruct (type e).
  - intros [(? & _)|[_ Hr]]; [done|]. inversion Hr; subst.
    + match goal with H : m !! _ = _ |- _ => rewrite H end.
      match goal with H : find_entry _ _ = _ |- _ => rewrite H end.
      rewrite andb_false_r. cbn [lookup_loop]. done.
    + match goal with H : m !! _ = _ |- _ => rewrite H end.
      match goal with H : find_entry _ _ = _ |- _ => rewrite H end.
      rewrite bool_decide_false by congruence. cbn [andb]. apply IH. by right.
Qed.

(** The error codes of the walk. *)
Lemma lookup_loop_code m cs p t :
  let st := fst (fst (lookup_loop m cs p t)) in st = OK ∨ error_code st = ENOENT.
Proof.
  revert p t; induction cs as [|c cs IH]; intros p t; cbn [lookup_loop]; [by left|].
  destruct (m !! p) as [es|]; [|by right]. destruct (find_entry c es) as [e|]; [|by right].
  case_match; [by right|apply IH].
Qed.

(** [lookup] always returns; the codes it can return. *)
Lemma lookup_returns path i t ns : ∃ st i' t',
  lookup path (Some i) (Some t) ns = Some ((st, i', t'), ns) ∧
  (ok st = true → is_Some i') ∧ (st = OK ∨ error_code st = ENOENT ∨ error_code st = EINVAL).
Proof.
  unfold lookup, parse_path. erewrite bind_step by done.
  destruct (Ascii.eqb (deref path 0) SLASH); cbn [negb]; [|by eexists _, _, _; split_and!; [done| |right; right]].
  rewrite (parse_loop_words _ path 0) by (cbn [str_drop]; lia). rewrite ok_OK. cbn [negb].
  pose proof (lookup_loop_code (_entries ns) ([] ++ words "" (str_drop 0 path)) (_root ns) kDirectory) as Hc.
  destruct (lookup_loop _ _ _ _) as [[st i'] t']. cbn [fst snd] in Hc.
  destruct (ok st) eqn:E; cbn [negb]; eexists _, _, _; (split_and!; [done|by eauto|tauto]).
Qed.

(** C27: [lookup] returns OK exactly on absolute paths whose components can be walked from the
    root, always along the first entry of each name and through directories only, and then gives
    the inode and the type found there; otherwise it returns EINVAL for a path that is not
    absolute, and ENOENT. It changes nothing. *)
Theorem lookup_spec path ino ft ns :
  wp (lookup path (Some ino) (Some ft)) ns (λ '(st, i, t) ns', ns' = ns ∧
    (ok st = true ↔ Ascii.eqb (deref path 0) SLASH = true ∧
                    ∃ i' t', resolves (_entries ns) (_root ns) (words "" path) i' t') ∧
    (ok st = true → ∃ i' t', i = Some i' ∧ t = Some t' ∧
                    resolves (_entries ns) (_root ns) (words "" path) i' t') ∧
    (ok st = false → i = Some ino ∧
       error_code st = if Ascii.eqb (deref path 0) SLASH then ENOENT else EINVAL)).
Proof.
  unfold lookup. eapply wp_step; [done|]. unfold parse_path.
  destruct (Ascii.eqb (deref path 0) SLASH); cbn [negb].
  2: { eapply wp_eval; [done|]. cbn. naive_solver. }
  rewrite (parse_loop_words _ path 0) by (cbn [str_drop]; lia). cbn [str_drop app].
  rewrite ok_OK. cbn [negb].
  destruct (lookup_loop _ _ _ _) as [[st i] t] eqn:El.
  destruct (lookup_loop_fails _ _ _ _ _ _ _ El) as [->|Hc].
  - rewrite ok_OK. cbn [negb]. eapply wp_eval; [done|].
    assert (resolves (_entries ns) (_root ns) (words "" path) i t) as Hr.
    { apply lookup_loop_resolves in El as [(E & -> & ->)|[_ ?]]; [|done]. rewrite E. constructor. }
    split_and!; [done| | |done]; naive_solver.
  - assert (ok st = false) as Hok by (unfold ok; by rewrite Hc). rewrite Hok. cbn [negb].
    eapply wp_eval; [done|]. split_and!; [done| |by rewrite Hok|done]. rewrite Hok. split; [done|].
    intros (_ & i' & t' & Hr). exfalso.
    destruct (words "" path) as [|c cs] eqn:Ew; [by injection El as <- ? ?|].
    assert (lookup_loop (_entries ns) (c :: cs) (_root ns) kDirectory = (OK, i', t')) as El'.
    { apply lookup_loop_resolves. by right. }
    rewrite El in El'. by injection El' as -> ? ?.
Qed.

(** ** Changing the tree *)

Lemma find_entry_app c es1 es2 :
  find_entry c (es1 ++ es2) =
  match find_entry c es1 with Some e => Some e | None => find_entry c es2 end.
Proof. induction es1 as [|e es1 IH]; cbn; [done|]. by case_decide. Qed.

Lemma find_entry_filter c nm es :
  find_entry c (filter (λ e, name e ≠ nm) es) =
  if decide (c = nm) then None else find_entry c es.
Proof.
  induction es as [|e es IH]; [cbn; by case_decide|]. rewrite filter_cons.
  destruct (decide (name e ≠ nm)) as [Hne|Heq]; cbn [find_entry]; rewrite IH;
    repeat case_decide; subst; done.
Qed.

(** What [create] and [remove] do to the map. *)
Definition created (m : gmap UUID (list DirEntry)) parent es nm (t : FileType) ino :=
  let m' := <[parent := es ++ [mkDirEntry ino nm t]]> m in
  if decide (t = kDirectory) then <[ino := []]> m' else m'.

Lemma create_eq parent nm t ino ns es :
  _entries ns !! parent = Some es →
  create parent nm t ino ns = Some (OK, set_entries (created (_entries ns) parent es nm t ino) ns).
Proof.
  intros E. unfold create, created. erewrite bind_step by done. rewrite E.
  erewrite bind_step by done. by case_decide.
Qed.

Lemma remove_eq parent nm ns es :
  _entries ns !! parent = Some es →
  remove parent nm ns =
  Some (OK, set_entries (<[parent := filter (λ e, name e ≠ nm) es]> (_entries ns)) ns).
Proof. intros E. unfold remove. erewrite bind_step by done. by rewrite E. Qed.

(** Directories keep their entries and may get more behind: what resolved still does. *)
Lemma resolves_mono m m' p cs i t :
  (∀ q es, m !! q = Some es → ∃ es', m' !! q = Some (es ++ es')) →
  resolves m p cs i t → resolves m' p cs i t.
Proof.
  intros Hm. assert (∀ q es c e, m !! q = Some es → find_entry c es = Some e →
    ∃ es', m' !! q = Some es' ∧ find_entry c es' = Some e) as Hf.
  { intros q es c e Eq Ee. destruct (Hm q es Eq) as [es' Eq']. eexists. split; [done|].
    by rewrite find_entry_app, Ee. }
  induction 1 as [p|p c es e E Ee|p c c' cs es e i t E Ee Et Hr IH].
  - constructor.
  - destruct (Hf _ _ _ _ E Ee) as (es' & E' & Ee'). by eapply resolves_last.
  - destruct (Hf _ _ _ _ E Ee) as (es' & E' & Ee'). by eapply resolves_step.
Qed.

Lemma resolves_snoc m p cs q c es e :
  resolves m p cs q kDirectory → m !! q = Some es → find_entry c es = Some e →
  resolves m p (cs ++ [c]) (inode e) (type e).
Proof.
  intros Hr E Ee. remember kDirectory as d eqn:Ed.
  induction Hr as [p|p c1 es1 e1 E1 Ee1|p c1 c2 cs es1 e1 i t E1 Ee1 Et Hr IH]; cbn [app].
  - by eapply resolves_last.
  - eapply resolves_step; [done|done|done|]. by eapply resolves_last.
  - eapply resolves_step; [done|done|done|]. by apply IH.
Qed.

Lemma resolves_snoc_inv m p cs c i t :
  resolves m p (cs ++ [c]) i t →
  ∃ q es e, resolves m p cs q kDirectory ∧ m !! q = Some es ∧ find_entry c es = Some e ∧
            i = inode e ∧ t = type e.
Proof.
  revert p; induction cs as [|c1 cs IH]; intros p Hr; cbn [app] in Hr.
  - inversion Hr; subst. eexists _, _, _. split_and!; try done. constructor.
  - remember (c1 :: cs ++ [c]) as l eqn:El. destruct Hr as [|p c0 es e E Ee|p c0 c' cs' es e i t E Ee Et Hr];
      [done|by destruct cs|]. injection El as -> El. rewrite El in Hr.
    destruct (IH _ Hr) as (q & es' & e' & Hq & E' & Ee' & -> & ->).
    exists q, es', e'. split_and!; try done. destruct cs as [|c2 cs].
    + inversion Hq; subst. rewrite <-Et. by eapply resolves_last.
    + by eapply resolves_step.
Qed.

Lemma resolves_det m p cs i t i' t' :
  resolves m p cs i t → resolves m p cs i' t' → i = i' ∧ t = t'.
Proof.
  intros Hr. revert i' t'; induction Hr as [p|p c es e E Ee|p c c' cs es e i t E Ee Et Hr IH];
    intros i' t' Hr'; inversion Hr'; simplify_eq; [done|done|by apply IH].
Qed.

(** A successful look-up, as a fact about the tree. *)
Lemma lookup_OK path ino ft ns i t :
  lookup path (Some ino) (Some ft) ns = Some ((OK, Some i, Some t), ns) ↔
  Ascii.eqb (deref path 0) SLASH = true ∧ resolves (_entries ns) (_root ns) (words "" path) i t.
Proof.
  unfold lookup. erewrite bind_step by done. unfold parse_path.
  destruct (Ascii.eqb (deref path 0) SLASH); cbn [negb]; [|split; [done|by intros [? _]]].
  rewrite (parse_loop_words _ path 0) by (cbn [str_drop]; lia). cbn [str_drop app].
  rewrite ok_OK. cbn [negb]. destruct (lookup_loop _ _ _ _) as [[st i'] t'] eqn:El. split.
  - destruct (lookup_loop_fails _ _ _ _ _ _ _ El) as [->|Hc].
    + rewrite ok_OK. intros [= <- <-]. split; [done|].
      apply lookup_loop_resolves in El as [(E & -> & ->)|[_ ?]]; [|done]. rewrite E. constructor.
    + unfold ok. rewrite Hc. cbn. intros E. injection E as -> ? ?. done.
  - intros [_ Hr]. assert (lookup_loop (_entries ns) (words "" path) (_root ns) kDirectory = (OK, i, t)) as El'.
    { apply lookup_loop_resolves. destruct (words "" path); [left|by right]. by inversion Hr. }
    rewrite El in El'. injection El' as -> -> ->. done.
Qed.

Lemma lookup_ENOENT path ino ft ns :
  Ascii.eqb (deref path 0) SLASH = true →
  (∀ i t, ¬ resolves (_entries ns) (_root ns) (words "" path) i t) →
  wp (lookup path (Some ino) (Some ft)) ns (λ r _, error_code (fst (fst r)) = ENOENT).
Proof.
  intros Hs Hr. unfold lookup. eapply wp_step; [done|]. unfold parse_path. rewrite Hs. cbn [negb].
  rewrite (parse_loop_words _ path 0) by (cbn [str_drop]; lia). cbn [str_drop app].
  rewrite ok_OK. cbn [negb]. destruct (lookup_loop _ _ _ _) as [[st i'] t'] eqn:El.
  destruct (lookup_loop_fails _ _ _ _ _ _ _ El) as [->|Hc].
  - exfalso. apply lookup_loop_resolves in El as [(E & -> & ->)|[_ Hr']]; [|by eapply Hr].
    eapply Hr. rewrite E. constructor.
  - unfold ok. rewrite Hc. cbn. done.
Qed.

Lemma words_dir cs : (∀ c, c ∈ cs → is_name c) → words "" (join cs +:+ "/") = cs.
Proof.
  intros Hcs. change "/" with ("/" +:+ ""). rewrite words_join by done. cbn. by rewrite app_nil_r.
Qed.

Lemma words_file cs nm :
  (∀ c, c ∈ cs → is_name c) → is_name nm → words "" (join cs +:+ "/" +:+ nm) = cs ++ [nm].
Proof.
  intros Hcs [Hne Hc]. rewrite words_join by done. cbn [flush app]. f_equal.
  rewrite <-(str_app_nil_r nm), words_clean by done. cbn [words]. rewrite str_app_nil_l.
  rewrite str_app_nil_r. by destruct nm.
Qed.

Lemma words_nonempty w t c : c ∈ words w t → c ≠ "".
Proof.
  assert (∀ v, c ∈ flush v → c ≠ "") as Hflush.
  { intros [|a v]; cbn; [by intros ?%elem_of_nil|]. by intros ->%list_elem_of_singleton. }
  revert w; induction t as [|a t IH]; intros w; cbn [words]; [apply Hflush|].
  destruct (Ascii.eqb a NUL); [apply Hflush|]. destruct (Ascii.eqb a SLASH); [|apply IH].
  intros [?|?]%elem_of_app; [by eapply Hflush|by eapply IH].
Qed.

Lemma join_slash cs s : Ascii.eqb (deref (join cs +:+ "/" +:+ s) 0) SLASH = true.
Proof. by destruct cs. Qed.

Lemma created_extends m parent es nm t ino :
  m !! parent = Some es → (t = kDirectory → m !! ino = None) →
  ∀ q es0, m !! q = Some es0 → ∃ es', created m parent es nm t ino !! q = Some (es0 ++ es').
Proof.
  intros E Hfresh q es0 Eq. unfold created. assert (t = kDirectory → ino ≠ q) as Hne.
  { intros Ht ->. rewrite Hfresh in Eq; done. }
  assert (∃ es', <[parent := es ++ [mkDirEntry ino nm t]]> m !! q = Some (es0 ++ es')) as Hp.
  { destruct (decide (parent = q)) as [->|].
    - rewrite lookup_insert_eq. simplify_eq. by eexists.
    - rewrite lookup_insert_ne by done. exists []. by rewrite app_nil_r. }
  case_decide as D; [|done]. rewrite lookup_insert_ne by auto. done.
Qed.

Lemma created_parent m parent es nm t ino :
  m !! parent = Some es → (t = kDirectory → m !! ino = None) →
  created m parent es nm t ino !! parent = Some (es ++ [mkDirEntry ino nm t]).
Proof.
  intros E Hfresh. unfold created. case_decide as D; [|by rewrite lookup_insert_eq].
  rewrite lookup_insert_ne; [by rewrite lookup_insert_eq|]. intros ->. by rewrite Hfresh in E.
Qed.

Lemma created_resolves m root cs nm t parent ino es :
  resolves m root cs parent kDirectory → m !! parent = Some es → find_entry nm es = None →
  m !! ino = None →
  resolves (created m parent es nm t ino) root (cs ++ [nm]) ino t.
Proof.
  intros Hdir E Hnew Hfresh.
  apply (resolves_snoc _ _ cs parent nm (es ++ [mkDirEntry ino nm t]) (mkDirEntry ino nm t)).
  - eapply resolves_mono; [|exact Hdir]. by apply created_extends.
  - by apply created_parent.
  - rewrite find_entry_app, Hnew. cbn. by rewrite decide_True.
Qed.

(** Creating [nm] in the directory found at [join cs +:+ "/"]. *)
Definition create_and_lookup (cs : list string) (nm : string) (t : FileType) (parent ino : UUID) :
    Prog Namespace (Status * (Status * option UUID * option FileType)) :=
  st ← create parent nm t ino;
  r ← lookup (join cs +:+ "/" +:+ nm) (Some ino) (Some kFile);
  mret (st, r).

(** Creating a name that its directory does not have yet, with an inode that is not a
    directory yet, makes the path of that name resolve to the new inode and type, and every path
    that resolved before resolves to the same inode and type as before. *)
Theorem create_lookup cs nm t parent ino ns u f es :
  (∀ c, c ∈ cs → is_name c) → is_name nm →
  lookup (join cs +:+ "/") (Some u) (Some f) ns = Some ((OK, Some parent, Some kDirectory), ns) →
  _entries ns !! parent = Some es → find_entry nm es = None → _entries ns !! ino = None →
  wp (create_and_lookup cs nm t parent ino) ns (λ '(st, r) ns',
    st = OK ∧ r = (OK, Some ino, Some t) ∧
    ∀ path i' t', lookup path (Some u) (Some f) ns = Some ((OK, Some i', Some t'), ns) →
      lookup path (Some u) (Some f) ns' = Some ((OK, Some i', Some t'), ns')).
Proof.
  intros Hcs Hnm [_ Hdir]%lookup_OK E Hnew Hfresh. rewrite words_dir in Hdir by done.
  unfold create_and_lookup. eapply wp_step; [by apply create_eq|].
  eapply wp_step.
  { apply lookup_OK. split; [apply join_slash|]. cbn [_entries _root set_entries].
    rewrite words_file by done. by apply created_resolves. }
  eapply wp_eval; [done|]. split_and!; [done|done|].
  intros path i' t' [Hs Hp]%lookup_OK. apply lookup_OK. split; [done|].
  eapply resolves_mono; [|exact Hp]. by apply created_extends.
Qed.

(** Creating a name that its directory already has succeeds as well: the path keeps
    resolving to the old inode, so that the new one cannot be reached by that name. *)
Theorem create_duplicate cs nm t parent ino ns u f es e :
  (∀ c, c ∈ cs → is_name c) → is_name nm →
  lookup (join cs +:+ "/") (Some u) (Some f) ns = Some ((OK, Some parent, Some kDirectory), ns) →
  _entries ns !! parent = Some es → find_entry nm es = Some e → _entries ns !! ino = None →
  wp (create_and_lookup cs nm t parent ino) ns (λ '(st, r) _,
    st = OK ∧ r = (OK, Some (inode e), Some (type e))).
Proof.
  intros Hcs Hnm [_ Hdir]%lookup_OK E Hold Hfresh. rewrite words_dir in Hdir by done.
  unfold create_and_lookup. eapply wp_step; [by apply create_eq|].
  set (m' := created (_entries ns) parent es nm t ino).
  eapply wp_step.
  { apply lookup_OK. split; [apply join_slash|]. cbn [_entries _root set_entries].
    rewrite words_file by done. fold m'.
    apply (resolves_snoc m' _ cs parent nm (es ++ [mkDirEntry ino nm t]) e).
    - eapply resolves_mono; [|exact Hdir]. by apply created_extends.
    - by apply created_parent.
    - by rewrite find_entry_app, Hold. }
  by eapply wp_eval.
Qed.

(** After [remove] of a name from a directory, its path does not resolve any more: ENOENT. *)
Theorem remove_lookup cs nm parent ns u f es :
  (∀ c, c ∈ cs → is_name c) → is_name nm →
  lookup (join cs +:+ "/") (Some u) (Some f) ns = Some ((OK, Some parent, Some kDirectory), ns) →
  _entries ns !! parent = Some es →
  wp (_ ← remove parent nm; lookup (join cs +:+ "/" +:+ nm) (Some u) (Some f)) ns
    (λ r _, error_code (fst (fst r)) = ENOENT).
Proof.
  intros Hcs Hnm [_ Hdir]%lookup_OK E. rewrite words_dir in Hdir by done.
  eapply wp_step; [by apply remove_eq|]. apply lookup_ENOENT; [apply join_slash|].
  cbn [_entries _root set_entries]. rewrite words_file by done. intros i t Hr.
  set (m' := <[parent := _]> _) in Hr.
  assert (∀ q c es' e, m' !! q = Some es' → find_entry c es' = Some e →
    ∃ es0, _entries ns !! q = Some es0 ∧ find_entry c es0 = Some e) as Hback.
  { unfold m'. intros q c es' e. destruct (decide (parent = q)) as [->|].
    - rewrite lookup_insert_eq. intros [= <-]. rewrite find_entry_filter. case_decide; [done|]. eauto.
    - rewrite lookup_insert_ne by done. eauto. }
  assert (∀ p ds j v, resolves m' p ds j v → resolves (_entries ns) p ds j v) as Hsub.
  { induction 1 as [p|p c es1 e E1 Ee1|p c c' ds es1 e j v E1 Ee1 Et Hr1 IH].
    - constructor.
    - destruct (Hback _ _ _ _ E1 Ee1) as (es0 & ? & ?). by eapply resolves_last.
    - destruct (Hback _ _ _ _ E1 Ee1) as (es0 & ? & ?). by eapply resolves_step. }
  apply resolves_snoc_inv in Hr as (q & es' & e & Hq & Eq & Ee & _).
  apply Hsub in Hq. destruct (resolves_det _ _ _ _ _ _ _ Hdir Hq) as [-> _].
  unfold m' in Eq. rewrite lookup_insert_eq in Eq. injection Eq as <-.
  rewrite find_entry_filter in Ee. by rewrite decide_True in Ee.
Qed.

(** ** Well-formedness *)

(** The root is a directory, and so is every inode that an entry calls one. *)
Record ns_wf (ns : Namespace) : Prop := {
  wf_root : is_Some (_entries ns !! _root ns);
  wf_closed p es e : _entries ns !! p = Some es → e ∈ es → type e = kDirectory →
                     is_Some (_entries ns !! inode e);
}.

Lemma create_wf parent nm t ino ns st ns' :
  ns_wf ns → create parent nm t ino ns = Some (st, ns') → ns_wf ns'.
Proof.
  intros [Hr Hc] H. destruct (_entries ns !! parent) as [es|] eqn:E.
  2: { unfold create in H. erewrite bind_step in H by done. rewrite E in H. by injection H as <- <-. }
  rewrite (create_eq _ _ _ _ _ _ E) in H. injection H as <- <-.
  set (m' := created (_entries ns) parent es nm t ino).
  assert (∀ q, is_Some (_entries ns !! q) → is_Some (m' !! q)) as Hdom.
  { intros q Hq. unfold m', created. case_decide; rewrite ?lookup_insert_is_Some; auto.
    all: destruct (decide (ino = q)), (decide (parent = q)); auto. }
  assert (t = kDirectory → is_Some (m' !! ino)) as Hino.
  { intros Ht. unfold m', created. rewrite decide_True by done. by rewrite lookup_insert_eq. }
  split; cbn [_entries _root set_entries]; fold m'; [by apply Hdom|].
  intros p es' e Ep He Ht.
  assert (e ∈ es' → (∃ es0, _entries ns !! p = Some es0 ∧ e ∈ es0) ∨ e = mkDirEntry ino nm t) as Hwhere.
  { intros _. unfold m', created in Ep.
    assert (<[parent := es ++ [mkDirEntry ino nm t]]> (_entries ns) !! p = Some es' ∨ es' = []) as [Ep'| ->].
    { case_decide; [|by left]. destruct (decide (ino = p)) as [->|].
      - rewrite lookup_insert_eq in Ep. injection Ep as <-. by right.
      - rewrite lookup_insert_ne in Ep by done. by left. }
    - destruct (decide (parent = p)) as [->|].
      + rewrite lookup_insert_eq in Ep'. injection Ep' as <-.
        apply elem_of_app in He as [He| ->%list_elem_of_singleton]; [left; eauto|by right].
      + rewrite lookup_insert_ne in Ep' by done. left. eauto.
    - by apply elem_of_nil in He. }
  destruct (Hwhere He) as [(es0 & Ep0 & He0)| ->]; [|by apply Hino].
  apply Hdom. by eapply Hc.
Qed.

Lemma remove_wf parent nm ns st ns' :
  ns_wf ns → remove parent nm ns = Some (st, ns') → ns_wf ns'.
Proof.
  intros [Hr Hc] H. destruct (_entries ns !! parent) as [es|] eqn:E.
  2: { unfold remove in H. erewrite bind_step in H by done. rewrite E in H. by injection H as <- <-. }
  rewrite (remove_eq _ _ _ _ E) in H. injection H as <- <-.
  assert (∀ q, is_Some (_entries ns !! q) →
    is_Some (<[parent := filter (λ e, name e ≠ nm) es]> (_entries ns) !! q)) as Hdom.
  { intros q Hq. destruct (decide (parent = q)) as [->|].
    - by rewrite lookup_insert_eq.
    - by rewrite lookup_insert_ne. }
  split; cbn [_entries _root set_entries]; [by apply Hdom|].
  intros p es' e Ep He Ht. apply Hdom. destruct (decide (parent = p)) as [->|].
  - rewrite lookup_insert_eq in Ep. injection Ep as <-. apply list_elem_of_filter in He as [_ He]. eauto.
  - rewrite lookup_insert_ne in Ep by done. eauto.
Qed.

Lemma find_entry_elem c es e : find_entry c es = Some e → e ∈ es.
Proof.
  induction es as [|e' es IH]; cbn; [done|]. case_decide; [intros [= ->]; left|].
  intros ?%IH. by right.
Qed.

Lemma resolves_listed ns p cs i t :
  ns_wf ns → is_Some (_entries ns !! p) → resolves (_entries ns) p cs i t → t = kDirectory →
  is_Some (_entries ns !! i).
Proof.
  intros [_ Hc] Hp Hr. induction Hr as [p|p c es e E Ee|p c c' cs es e i t E Ee Et Hr IH]; intros Ht.
  - done.
  - eapply Hc; [exact E|by eapply find_entry_elem|done].
  - apply IH; [|done]. eapply Hc; [exact E|by eapply find_entry_elem|done].
Qed.

(** The operations that change a namespace. *)
Inductive ns_op :=
| NsCreate (parent : UUID) (nm : string) (t : FileType) (ino : UUID)
| NsRemove (parent : UUID) (nm : string).

Definition ns_exec (o : ns_op) : Prog Namespace Status :=
  match o with
  | NsCreate parent nm t ino => create parent nm t ino
  | NsRemove parent nm => remove parent nm
  end.

Inductive ns_step : relation Namespace :=
| ns_step_exec o ns st ns' : ns_exec o ns = Some (st, ns') → ns_step ns ns'.

(** C28: In every namespace built from the initial one by creations and removals, whatever
    their arguments, a path that resolves to a directory names a directory that can be listed and
    that accepts new entries. *)
Theorem directories_usable `{UuidOps} ns path u f i nm t ino :
  rtc ns_step new_namespace ns →
  lookup path (Some u) (Some f) ns = Some ((OK, Some i, Some kDirectory), ns) →
  (∃ es, list_entries i (Some []) ns = Some (Some es, ns)) ∧
  wp (create i nm t ino) ns (λ st _, st = OK).
Proof.
  intros Hst [_ Hr]%lookup_OK. assert (ns_wf ns) as Hwf.
  { assert (ns_wf new_namespace) as Hinit.
    { split; unfold new_namespace; cbn; [by rewrite lookup_singleton_eq|].
      intros p es e [<- <-]%lookup_singleton_Some He. by apply elem_of_nil in He. }
    induction Hst as [|ns1 ns2 ns3 Hs Hst IH]; [done|]. apply IH; [done|].
    destruct Hs as [[parent nm' t' ino'|parent nm'] ns1 st ns2 Ho]; [by eapply create_wf|by eapply remove_wf]. }
  destruct (resolves_listed ns _ _ _ _ Hwf (wf_root _ Hwf) Hr eq_refl) as [es E].
  split.
  - exists es. unfold list_entries. erewrite bind_step by done. by rewrite E.
  - eapply wp_eval; [by apply create_eq|done].
Qed.

(** ** Witnesses *)
Module Witness.
#[local] Existing Instances HexUuid.ops HexUuid.laws.

Definition ns0 : Namespace := new_namespace.
Definition ino1 : UUID := mkUUID (W64 0) (W64 1).
Definition ino2 : UUID := mkUUID (W64 0) (W64 2).
(** The root with one file "a". *)
Definition ns1 : Namespace :=
  set_entries (created (_entries ns0) (_root ns0) [] "a" kFile ino1) ns0.

Lemma no_components c : c ∈ @nil string → is_name c.
Proof. by intros ?%elem_of_nil. Qed.
Lemma name_a : is_name "a".
Proof. by repeat split. Qed.
Lemma names_a c : c ∈ ["a"] → is_name c.
Proof. intros ->%list_elem_of_singleton. apply name_a. Qed.
Lemma root_dir ns u f :
  lookup (join [] +:+ "/") (Some u) (Some f) ns = Some ((OK, Some (_root ns), Some kDirectory), ns).
Proof. apply lookup_OK. split; [done|]. constructor. Qed.
Lemma ns0_root : _entries ns0 !! _root ns0 = Some [].
Proof. apply lookup_singleton_eq. Qed.
Lemma ns0_fresh u : low u ≠ 0%Z ∨ high u ≠ 0%Z → _entries ns0 !! u = None.
Proof. intros Hu. apply lookup_singleton_ne. intros <-. vm_compute in Hu. by destruct Hu. Qed.
Lemma ino1_fresh : _entries ns0 !! ino1 = None.
Proof. apply ns0_fresh. right. by vm_compute. Qed.
Lemma ns1_root : _entries ns1 !! _root ns1 = Some [mkDirEntry ino1 "a" kFile].
Proof. apply (created_parent _ _ _ _ _ _ ns0_root). done. Qed.
Lemma ns1_fresh : _entries ns1 !! ino2 = None.
Proof.
  unfold ns1, created. rewrite decide_False by done. cbn [_entries set_entries].
  rewrite lookup_insert_ne; [by apply ns0_fresh; right; vm_compute|]. intros E.
  apply (f_equal high) in E. vm_compute in E. done.
Qed.

Lemma parse_path_join_witness :
  parse_path (join ["a"]) [] = Some (OK, ["a"]) ∧ parse_path (join ["a"] +:+ "/") [] = Some (OK, ["a"]).
Proof. exact (parse_path_join ["a"] ltac:(done) names_a). Defined.

Lemma create_lookup_witness :
  wp (create_and_lookup [] "a" kFile (_root ns0) ino1) ns0 (λ '(st, r) _,
    st = OK ∧ r = (OK, Some ino1, Some kFile)).
Proof.
  pose proof (create_lookup [] "a" kFile (_root ns0) ino1 ns0 ino2 kFile [] no_components name_a
    (root_dir ns0 ino2 kFile) ns0_root eq_refl ino1_fresh) as Hw.
  eapply wp_mono; [exact Hw|]. intros [st r] ns' (E1 & E2 & _). split; [exact E1|exact E2].
Defined.

Lemma create_duplicate_witness :
  wp (create_and_lookup [] "a" kFile (_root ns1) ino2) ns1 (λ '(st, r) _,
    st = OK ∧ r = (OK, Some ino1, Some kFile)).
Proof.
  pose proof (create_duplicate [] "a" kFile (_root ns1) ino2 ns1 ino2 kFile _
    (mkDirEntry ino1 "a" kFile) no_components name_a (root_dir ns1 ino2 kFile) ns1_root
    eq_refl ns1_fresh) as Hw.
  exact Hw.
Defined.

Lemma remove_lookup_witness :
  wp (_ ← remove (_root ns1) "a"; lookup (join [] +:+ "/" +:+ "a") (Some ino2) (Some kFile)) ns1
    (λ r _, error_code (fst (fst r)) = ENOENT).
Proof.
  pose proof (remove_lookup [] "a" (_root ns1) ns1 ino2 kFile _ no_components name_a
    (root_dir ns1 ino2 kFile) ns1_root) as Hw.
  exact Hw.
Defined.

Lemma ns01 : rtc ns_step ns0 ns1.
Proof.
  apply rtc_once. apply (ns_step_exec (NsCreate (_root ns0) "a" kFile ino1) ns0 OK).
  apply create_eq, ns0_root.
Qed.

Lemma directories_usable_witness :
  (∃ es, list_entries (_root ns1) (Some []) ns1 = Some (Some es, ns1)) ∧
  wp (create (_root ns1) "b" kFile ino2) ns1 (λ st _, st = OK).
Proof.
  pose proof (directories_usable ns1 _ ino2 kFile (_root ns1) "b" kFile ino2 ns01
    (root_dir ns1 ino2 kFile)) as Hw.
  exact Hw.
Defined.
End Witness.
End Namespace.
