(* ===== verification/Deva.v ===== *)
(** * The metadata container ([src/deva/deva.h], [src/deva/deva.cc])

    [Deva] holds a namespace and the [FileInfo] of every inode it created. Its methods are the
    commands of the replicated log. [std::filesystem::path] is modelled by its decomposition
    of POSIX paths into parent path and file name. *)
From S2P Require Import Prelude Bytes Uuid Proto Namespace.
From Stdlib Require Import Strings.Ascii.
Import Proto.
Set Default Goal Selector "!".

(** ** [std::filesystem::path] *)
Module Path.

(** The part of a path up to and including the last slash, and the part behind it. *)
Fixpoint split_last (s : string) : string * string :=
  match s with
  | EmptyString => ("", "")
  | String c s' =>
      let '(stem, file) := split_last s' in
      match stem with
      | EmptyString => if Ascii.eqb c "/" then (String c "", file) else ("", String c file)
      | _ => (String c stem, file)
      end
  end.

(** [filename()]: empty when the path ends with a slash. *)
Definition filename (path : string) : string := snd (split_last path).

(** Without its trailing slashes. *)
Fixpoint strip_slashes (s : string) : string :=
  match s with
  | EmptyString => ""
  | String c s' =>
      match strip_slashes s' with
      | EmptyString => if Ascii.eqb c "/" then "" else String c ""
      | t => String c t
      end
  end.

(** [has_relative_path()]: something other than slashes. *)
Definition has_relative_path (path : string) : bool :=
  match strip_slashes path with EmptyString => false | _ => true end.

(** [parent_path()]: the path itself when it has no relative part; otherwise up to the end of
    the previous component, the root directory being one slash. *)
Definition parent_path (path : string) : string :=
  if negb (has_relative_path path) then path else
  match fst (split_last path), strip_slashes (fst (split_last path)) with
  | EmptyString, _ => ""
  | _, EmptyString => "/"
  | _, parent => parent
  end.

(** *** Lemmas *)
Lemma split_last_clean nm : Namespace.clean nm → split_last nm = ("", nm).
Proof.
  induction nm as [|c nm IH]; [done|]. intros (_ & Hs & Hc). cbn [split_last]. rewrite IH by done.
  by destruct (Ascii.eqb_spec c "/").
Qed.

Lemma split_last_app s t :
  fst (split_last t) ≠ "" → split_last (s +:+ t) = (s +:+ fst (split_last t), snd (split_last t)).
Proof.
  intros Ht. induction s as [|c s IH].
  - rewrite !str_app_nil_l. by destruct (split_last t).
  - change (String c s +:+ t) with (String c (s +:+ t)). cbn [split_last]. rewrite IH.
    change (String c s +:+ fst (split_last t)) with (String c (s +:+ fst (split_last t))).
    destruct (s +:+ fst (split_last t)) as [|d r] eqn:E; [|done].
    destruct s; [by rewrite str_app_nil_l in E|done].
Qed.

Lemma split_last_file s nm :
  Namespace.clean nm → split_last (s +:+ "/" +:+ nm) = (s +:+ "/", nm).
Proof.
  intros Hc. assert (split_last ("/" +:+ nm) = ("/", nm)) as E.
  { change ("/" +:+ nm) with (String "/" nm). cbn [split_last]. by rewrite split_last_clean. }
  rewrite split_last_app; by rewrite E.
Qed.

Lemma strip_slashes_end s : strip_slashes (s +:+ "/") = strip_slashes s.
Proof.
  induction s as [|c s IH]; [done|].
  change (String c s +:+ "/") with (String c (s +:+ "/")). cbn [strip_slashes]. by rewrite IH.
Qed.

Lemma strip_slashes_app s t :
  strip_slashes t ≠ "" → strip_slashes (s +:+ t) = s +:+ strip_slashes t.
Proof.
  intros Ht. induction s as [|c s IH]; [by rewrite !str_app_nil_l|].
  change (String c s +:+ t) with (String c (s +:+ t)). cbn [strip_slashes]. rewrite IH.
  change (String c s +:+ strip_slashes t) with (String c (s +:+ strip_slashes t)).
  destruct (s +:+ strip_slashes t) eqn:E; [|done]. destruct s; [|done]. by rewrite str_app_nil_l in E.
Qed.

Lemma strip_slashes_name nm : Namespace.is_name nm → strip_slashes nm = nm.
Proof.
  intros [Hne Hc]. induction nm as [|c nm IH]; [done|]. destruct Hc as (_ & Hs & Hc).
  cbn [strip_slashes]. destruct nm as [|d nm].
  - cbn [strip_slashes]. by destruct (Ascii.eqb_spec c "/").
  - by rewrite IH.
Qed.

Lemma join_nonempty c cs : Namespace.join (c :: cs) ≠ "".
Proof. done. Qed.

Lemma strip_slashes_join cs :
  (∀ c, c ∈ cs → Namespace.is_name c) → strip_slashes (Namespace.join cs) = Namespace.join cs.
Proof.
  induction cs as [|c cs IH]; [done|]. intros Hcs. cbn [Namespace.join].
  assert (Namespace.is_name c) as Hc by (apply Hcs; left).
  destruct cs as [|d cs].
  - cbn [Namespace.join]. rewrite str_app_nil_r.
    rewrite strip_slashes_app; rewrite strip_slashes_name; try done. by destruct Hc.
  - assert (strip_slashes (Namespace.join (d :: cs)) = Namespace.join (d :: cs)) as E.
    { apply IH. intros. apply Hcs. by right. }
    rewrite <-!str_app_assoc, strip_slashes_app; rewrite E; [done|apply join_nonempty].
Qed.

(** The directory of a file path, as the components [lookup] walks. *)
Lemma parent_path_file cs nm :
  (∀ c, c ∈ cs → Namespace.is_name c) → Namespace.clean nm →
  let path := Namespace.join cs +:+ "/" +:+ nm in
  filename path = nm ∧ Namespace.words "" (parent_path path) = cs ∧
  Ascii.eqb (Namespace.deref (parent_path path) 0) Namespace.SLASH = true.
Proof.
  intros Hcs Hnm path. destruct (decide (nm = "" ∧ cs = [])) as [[-> ->]|Hne]; [done|].
  unfold filename, parent_path, has_relative_path, path.
  rewrite split_last_file by done. cbn [fst snd]. rewrite strip_slashes_end, strip_slashes_join by done.
  split; [done|].
  assert (strip_slashes (Namespace.join cs +:+ "/" +:+ nm) ≠ "") as Hrel.
  { destruct (decide (nm = "")) as [->|Hn].
    - rewrite str_app_nil_r, strip_slashes_end, strip_slashes_join by done.
      destruct cs; [by destruct Hne|done].
    - rewrite <-str_app_assoc, strip_slashes_app; rewrite strip_slashes_name; try done.
      destruct cs; done. }
  destruct (strip_slashes (Namespace.join cs +:+ "/" +:+ nm)); [done|]. cbn [negb].
  destruct (Namespace.join cs +:+ "/") eqn:E; [by destruct cs|].
  destruct cs as [|c cs]; [done|].
  rewrite <-(Namespace.words_join_end "" (c :: cs) Hcs) at 2. done.
Qed.
End Path.

Module Deva.
Import Path.

(** ** Messages ([protocols/pain/proto/deva_store.proto])

    [CreateDirRequest] has the fields of [CreateFileRequest], its inode under another name. The
    fields [xattrs] and [chunk_infos] of [FileInfo] are never written and left out. *)
Record FileInfo := mkFileInfo {
  file_id : UUIDMsg; fi_type : Proto.FileType; size : Z;
  atime : Z; mtime : Z; ctime : Z; mode : Z; uid : Z; gid : Z }.
Definition default_file_info : FileInfo :=
  mkFileInfo default_uuid FILE_TYPE_NONE 0 0 0 0 0 0 0.

Record CreateRequest := mkCreateRequest {
  cr_path : string; cr_id : UUIDMsg;
  cr_atime : Z; cr_mtime : Z; cr_ctime : Z; cr_mode : Z; cr_uid : Z; cr_gid : Z }.

(** The requests of the eight commands; the last six messages are empty. *)
Inductive Request :=
| CreateFileRequest (r : CreateRequest)
| CreateDirRequest (r : CreateRequest)
| RemoveFileRequest
| SealFileRequest
| CreateChunkRequest
| CheckInChunkRequest
| SealChunkRequest
| SealAndNewChunkRequest.

(** [CreateFileResponse] and [CreateDirResponse] hold a [FileInfo], the others nothing. *)
Record Response := mkResponse { file_info : FileInfo }.
Definition default_response : Response := mkResponse default_file_info.

Record Deva := mkDeva {
  _namespace : Namespace.Namespace;
  _file_infos : gmap UUID FileInfo;
}.

Section deva.
Context `{UuidOps}.

Definition new_deva : Deva := mkDeva Namespace.new_namespace ∅.
Definition set_namespace (ns : Namespace.Namespace) (d : Deva) : Deva := mkDeva ns (_file_infos d).
Definition on_namespace {A} (p : Prog Namespace.Namespace A) : Prog Deva A :=
  zoom _namespace set_namespace p.

(** [Deva::create]. The UUID [parent_dir_uuid] is not initialised before [lookup]; it is only
    read when [lookup] has set it. *)
Definition create (path : string) (id : UUID) (type : Namespace.FileType) : Prog Deva Status :=
  let dir := parent_path path in
  let file := filename path in
  '(status, parent_dir_uuid, file_type) ←
    on_namespace (Namespace.lookup dir (Some id) (Some Namespace.kFile));
  if negb (ok status) then mret status else
  if decide (file_type ≠ Some Namespace.kDirectory)
  then mret (mkStatus EINVAL (dir +:+ " is not a directory")) else
  match parent_dir_uuid with
  | None => abort
  | Some parent =>
      let file_uuid := uuid_ctor (high id) (low id) in
      status ← on_namespace (Namespace.create parent file type file_uuid);
      if negb (ok status) then mret status else mret OK
  end.

(** The [FileInfo] that a creation answers. *)
Definition new_file_info (uuid : UUID) (type : Proto.FileType) (r : CreateRequest) : FileInfo :=
  mkFileInfo (uuid_msg uuid) type 0 (cr_atime r) (cr_mtime r) (cr_ctime r) (cr_mode r)
    (cr_uid r) (cr_gid r).

(** [Deva::CreateFile]. *)
Definition CreateFile (request : CreateRequest) (response : Response) (index : Z) :
    Prog Deva (Status * Response) :=
  let file_uuid := msg_uuid (cr_id request) in
  status ← create (cr_path request) file_uuid Namespace.kFile;
  if negb (ok status) then mret (status, response) else
  let file_info := new_file_info file_uuid FILE_TYPE_FILE request in
  modify (λ d, mkDeva (_namespace d) (<[file_uuid := file_info]> (_file_infos d)));;
  mret (OK, mkResponse file_info).

(** [Deva::CreateDir]. *)
Definition CreateDir (request : CreateRequest) (response : Response) (index : Z) :
    Prog Deva (Status * Response) :=
  let dir_uuid := msg_uuid (cr_id request) in
  status ← create (cr_path request) dir_uuid Namespace.kDirectory;
  if negb (ok status) then mret (status, response) else
  let file_info := new_file_info dir_uuid FILE_TYPE_DIRECTORY request in
  modify (λ d, mkDeva (_namespace d) (<[dir_uuid := file_info]> (_file_infos d)));;
  mret (OK, mkResponse file_info).

(** The commands that are not implemented yet. *)
Definition RemoveFile (response : Response) (index : Z) : Prog Deva (Status * Response) :=
  mret (OK, response).
Definition SealFile (response : Response) (index : Z) : Prog Deva (Status * Response) :=
  mret (OK, response).
Definition CreateChunk (response : Response) (index : Z) : Prog Deva (Status * Response) :=
  mret (OK, response).
Definition CheckInChunk (response : Response) (index : Z) : Prog Deva (Status * Response) :=
  mret (OK, response).
Definition SealChunk (response : Response) (index : Z) : Prog Deva (Status * Response) :=
  mret (OK, response).
Definition SealAndNewChunk (response : Response) (index : Z) : Prog Deva (Status * Response) :=
  mret (OK, response).

(** The overloads of [process] made by [DEVA_ENTRY]. *)
Definition process (request : Request) (response : Response) (index : Z) :
    Prog Deva (Status * Response) :=
  match request with
  | CreateFileRequest r => CreateFile r response index
  | CreateDirRequest r => CreateDir r response index
  | RemoveFileRequest => RemoveFile response index
  | SealFileRequest => SealFile response index
  | CreateChunkRequest => CreateChunk response index
  | CheckInChunkRequest => CheckInChunk response index
  | SealChunkRequest => SealChunk response index
  | SealAndNewChunkRequest => SealAndNewChunk response index
  end.

(** [save_snapshot] and [load_snapshot] ignore their arguments. *)
Definition save_snapshot (path : string) : Prog Deva Status := mret OK.
Definition load_snapshot (path : string) : Prog Deva Status := mret OK.
End deva.

(** ** Lemmas *)
Section lemmas.
Context `{UuidLaws}.
Implicit Types (d : Deva).

(** [join cs +:+ "/" +:+ nm]: the file [nm] of the directory with components [cs]. *)
Definition file_path (cs : list string) (nm : string) : string := Namespace.join cs +:+ "/" +:+ nm.

(** A path resolves to an inode. *)
Definition finds (d : Deva) (path : string) (i : UUID) (t : Namespace.FileType) : Prop :=
  Ascii.eqb (Namespace.deref path 0) Namespace.SLASH = true ∧
  Namespace.resolves (Namespace._entries (_namespace d)) (Namespace._root (_namespace d))
    (Namespace.words "" path) i t.

Lemma finds_lookup d path i t u f :
  finds d path i t ↔
  Namespace.lookup path (Some u) (Some f) (_namespace d) = Some ((OK, Some i, Some t), _namespace d).
Proof. symmetry. apply Namespace.lookup_OK. Qed.

(** [create] once the parent directory is found. *)
Lemma create_found cs nm id t d parent es :
  (∀ c, c ∈ cs → Namespace.is_name c) → Namespace.clean nm →
  finds d (Namespace.join cs +:+ "/") parent Namespace.kDirectory →
  Namespace._entries (_namespace d) !! parent = Some es →
  create (file_path cs nm) id t d =
  Some (OK, set_namespace (Namespace.set_entries
    (Namespace.created (Namespace._entries (_namespace d)) parent es nm t id) (_namespace d)) d).
Proof.
  intros Hcs Hnm [_ Hp] E. rewrite Namespace.words_dir in Hp by done.
  destruct (parent_path_file cs nm Hcs Hnm) as (Ef & Ew & Es). unfold create, file_path.
  erewrite bind_step.
  2: { unfold on_namespace. apply zoom_step. apply Namespace.lookup_OK. split; [done|]. by rewrite Ew. }
  cbv iota beta. rewrite ok_OK. cbn [negb]. rewrite decide_False by (by intros Hc; apply Hc).
  erewrite bind_step.
  2: { unfold on_namespace. apply zoom_step. cbn [_namespace set_namespace]. by apply Namespace.create_eq. }
  rewrite ok_OK, Ef, ctor_high_low. done.
Qed.

(** Every failure of [create] leaves everything as it was; the codes of its failures. *)
Lemma create_fails path id t d :
  wp (create path id t) d (λ st d', ok st = false →
    d' = d ∧ (error_code st = ENOENT ∨ error_code st = EINVAL)).
Proof.
  unfold create. destruct (Namespace.lookup_returns (parent_path path) id Namespace.kFile (_namespace d))
    as (st & i & ft & El & Hi & Hc).
  eapply wp_step; [unfold on_namespace; apply zoom_step, El|]. cbv beta iota.
  assert (set_namespace (_namespace d) d = d) as -> by (by destruct d).
  destruct (ok st) eqn:Es; cbn [negb].
  2: { eapply wp_eval; [done|]. intros _. split; [done|]. destruct Hc as [-> | ?]; done. }
  case_decide; [eapply wp_eval; [done|]; intros _; split; [done|by right]|]. destruct (Hi eq_refl) as [parent ->].
  unfold Namespace.create. apply wp_bind, wp_zoom. eapply wp_step; [done|].
  destruct (Namespace._entries (_namespace d) !! parent).
  - eapply wp_step; [done|]. case_decide; (eapply wp_step; [done|]); (eapply wp_eval; [done|]);
      rewrite ok_OK; by eapply wp_eval.
  - eapply wp_eval; [done|]. cbn. intros _. split; [by destruct d|by left].
Qed.

(** A creation when the parent directory is not found. *)
Lemma create_no_parent path id t d :
  (∀ i, ¬ finds d (parent_path path) i Namespace.kDirectory) →
  wp (create path id t) d (λ st d', ok st = false ∧ d' = d).
Proof.
  intros Hno. unfold create.
  destruct (Namespace.lookup_returns (parent_path path) id Namespace.kFile (_namespace d))
    as (st & i & ft & El & Hi & Hc).
  eapply wp_step; [unfold on_namespace; apply zoom_step, El|]. cbv beta iota.
  assert (set_namespace (_namespace d) d = d) as -> by (by destruct d).
  destruct (ok st) eqn:Es; cbn [negb]; [|by eapply wp_eval].
  destruct Hc as [-> | [Hc|Hc]]; [|unfold ok in Es; by rewrite Hc in Es..].
  case_decide as Hft; [by eapply wp_eval|]. exfalso. destruct (Hi eq_refl) as [parent ->].
  subst ft. apply (Hno parent). by eapply finds_lookup.
Qed.

(** [CreateFile] or [CreateDir]. *)
Definition create_request (t : Namespace.FileType) (r : CreateRequest) : Request :=
  match t with
  | Namespace.kFile => CreateFileRequest r
  | Namespace.kDirectory => CreateDirRequest r
  end.
Definition proto_type (t : Namespace.FileType) : Proto.FileType :=
  match t with
  | Namespace.kFile => FILE_TYPE_FILE
  | Namespace.kDirectory => FILE_TYPE_DIRECTORY
  end.

(** A creation whose parent directory is found. *)
Lemma process_create cs nm t r response index d parent es :
  (∀ c, c ∈ cs → Namespace.is_name c) → Namespace.clean nm → cr_path r = file_path cs nm →
  finds d (Namespace.join cs +:+ "/") parent Namespace.kDirectory →
  Namespace._entries (_namespace d) !! parent = Some es →
  let id := msg_uuid (cr_id r) in
  let info := new_file_info id (proto_type t) r in
  process (create_request t r) response index d =
  Some ((OK, mkResponse info),
    mkDeva (Namespace.set_entries
      (Namespace.created (Namespace._entries (_namespace d)) parent es nm t id) (_namespace d))
      (<[id := info]> (_file_infos d))).
Proof.
  intros Hcs Hnm Hp Hdir E id info. pose proof (create_found cs nm id t d parent es Hcs Hnm Hdir E) as Hc.
  destruct t; cbn [create_request process]; unfold CreateFile, CreateDir; rewrite Hp;
    (erewrite bind_step by exact Hc); rewrite ok_OK; done.
Qed.

(** C22: Creating a file or a directory at an absolute path whose parent is a directory without
    that name, with a new inode, answers the requested id and attributes; afterwards the path resolves
    to that inode, its [FileInfo] is recorded, and all paths that resolved before still do, to
    the same inodes. *)
Theorem deva_create cs nm t r response index d parent es :
  (∀ c, c ∈ cs → Namespace.is_name c) → Namespace.is_name nm → cr_path r = file_path cs nm →
  finds d (Namespace.join cs +:+ "/") parent Namespace.kDirectory →
  Namespace._entries (_namespace d) !! parent = Some es → Namespace.find_entry nm es = None →
  Namespace._entries (_namespace d) !! msg_uuid (cr_id r) = None →
  wp (process (create_request t r) response index) d (λ '(st, response') d',
    let info := new_file_info (msg_uuid (cr_id r)) (proto_type t) r in
    st = OK ∧ response' = mkResponse info ∧
    finds d' (cr_path r) (msg_uuid (cr_id r)) t ∧
    _file_infos d' !! msg_uuid (cr_id r) = Some info ∧
    ∀ path i t', finds d path i t' → finds d' path i t').
Proof.
  intros Hcs Hnm Hp Hdir E Hnew Hfresh.
  eapply wp_eval; [by apply (process_create cs nm t r response index d parent es); [|apply Hnm|..]|].
  cbv beta iota zeta. destruct Hdir as [_ Hdir]. rewrite Namespace.words_dir in Hdir by done.
  split_and!; [done|done| |by apply lookup_insert_eq|].
  - rewrite Hp. split; [apply Namespace.join_slash|]. unfold file_path.
    rewrite Namespace.words_file by done. by apply Namespace.created_resolves.
  - intros path i t' [Hs Hr]. split; [done|]. eapply Namespace.resolves_mono; [|exact Hr].
    by apply Namespace.created_extends.
Qed.

(** A command that does not succeed changes neither the namespace nor the recorded
    [FileInfo]s nor its response, and its code is [ENOENT] or [EINVAL]. *)
Theorem deva_fails request response index d :
  wp (process request response index) d (λ '(st, response') d',
    ok st = false →
    d' = d ∧ response' = response ∧ (error_code st = ENOENT ∨ error_code st = EINVAL)).
Proof.
  destruct request as [r|r| | | | | |]; cbn [process]; try by eapply wp_eval.
  all: unfold CreateFile, CreateDir; apply wp_bind; eapply wp_mono; [apply create_fails|];
    cbv beta; intros st d' Hd'; destruct (ok st) eqn:Es; cbn [negb].
  1, 3: eapply wp_step; [done|]; eapply wp_eval; [done|]; cbv beta iota; by rewrite ok_OK.
  all: eapply wp_eval; [done|]; intros _; destruct (Hd' eq_refl); by split_and!.
Qed.

(** Creating at a path that ends with a slash, the root included, when the path
    before that slash is a directory, succeeds and answers a file id - but the entry it makes has
    an empty name: no path resolves that did not resolve before, and none reaches the new inode. *)
Theorem deva_nameless cs t r response index d parent es :
  (∀ c, c ∈ cs → Namespace.is_name c) → cr_path r = file_path cs "" →
  finds d (Namespace.join cs +:+ "/") parent Namespace.kDirectory →
  Namespace._entries (_namespace d) !! parent = Some es →
  Namespace._entries (_namespace d) !! msg_uuid (cr_id r) = None →
  wp (process (create_request t r) response index) d (λ '(st, response') d',
    st = OK ∧ file_id (file_info response') = uuid_msg (msg_uuid (cr_id r)) ∧
    ∀ path i t', finds d' path i t' → finds d path i t').
Proof.
  intros Hcs Hp Hdir E Hfresh.
  eapply wp_eval; [by apply (process_create cs "" t r response index d parent es)|].
  cbv beta iota zeta. split_and!; [done|done|]. intros path i t' [Hs Hr]. split; [done|].
  cbn [_namespace Namespace._entries Namespace._root Namespace.set_entries] in Hr.
  assert (∀ c, c ∈ Namespace.words "" path → c ≠ "") as Hne by apply Namespace.words_nonempty.
  revert Hne Hr. generalize (Namespace.words "" path) as ds, (Namespace._root (_namespace d)) as p.
  set (m := Namespace._entries (_namespace d)) in *.
  assert (∀ q c es' e, c ≠ "" → Namespace.created m parent es "" t (msg_uuid (cr_id r)) !! q = Some es' →
    Namespace.find_entry c es' = Some e → ∃ es0, m !! q = Some es0 ∧ Namespace.find_entry c es0 = Some e)
    as Hback.
  { intros q c es' e Hc Eq Ee. unfold Namespace.created in Eq.
    assert (<[parent := es ++ [Namespace.mkDirEntry (msg_uuid (cr_id r)) "" t]]> m !! q = Some es' ∨ es' = [])
      as [Eq'| ->].
    { case_decide; [|by left]. destruct (decide (msg_uuid (cr_id r) = q)) as [<-|].
      - rewrite lookup_insert_eq in Eq. injection Eq as <-. by right.
      - rewrite lookup_insert_ne in Eq by done. by left. }
    - destruct (decide (parent = q)) as [->|].
      + rewrite lookup_insert_eq in Eq'. injection Eq' as <-. exists es. split; [done|].
        rewrite Namespace.find_entry_app in Ee. destruct (Namespace.find_entry c es); [done|].
        cbn in Ee. rewrite decide_False in Ee by auto. done.
      + rewrite lookup_insert_ne in Eq' by done. eauto.
    - done. }
  intros ds p Hne Hr. induction Hr as [p|p c es1 e E1 Ee1|p c c' ds es1 e j v E1 Ee1 Et Hr1 IH].
  - constructor.
  - destruct (Hback _ _ _ _ (Hne c ltac:(left)) E1 Ee1) as (es0 & ? & ?). by eapply Namespace.resolves_last.
  - destruct (Hback _ _ _ _ (Hne c ltac:(left)) E1 Ee1) as (es0 & ? & ?).
    eapply Namespace.resolves_step; [done|done|done|]. apply IH. intros x Hx. apply Hne. by right.
Qed.
End lemmas.

(** ** Witnesses *)
Module Witness.
Import Namespace.Witness.
#[local] Existing Instances HexUuid.ops HexUuid.laws.

Definition deva0 : Deva := new_deva.
Definition request_a : CreateRequest := mkCreateRequest "/a" (uuid_msg ino1) 1 2 3 438 0 0.
Definition request_root : CreateRequest := mkCreateRequest "/" (uuid_msg ino1) 1 2 3 438 0 0.

Lemma root_found : finds deva0 (Namespace.join [] +:+ "/") (Namespace._root ns0) Namespace.kDirectory.
Proof. split; [done|]. constructor. Qed.
Lemma request_fresh : Namespace._entries (_namespace deva0) !! msg_uuid (cr_id request_a) = None.
Proof. unfold request_a. cbn [cr_id]. rewrite msg_uuid_msg. apply ino1_fresh. Qed.

Lemma deva_create_witness :
  wp (process (create_request Namespace.kFile request_a) default_response 1) deva0 (λ '(st, response') d',
    st = OK ∧ finds d' "/a" (msg_uuid (cr_id request_a)) Namespace.kFile).
Proof.
  pose proof (deva_create [] "a" Namespace.kFile request_a default_response 1%Z deva0 _ []
    no_components name_a eq_refl root_found ns0_root eq_refl request_fresh) as Hw.
  eapply wp_mono; [exact Hw|]. intros [st r] d' (E & _ & Hf & _). split; [exact E|exact Hf].
Defined.

Lemma deva_nameless_witness :
  wp (process (create_request Namespace.kDirectory request_root) default_response 1) deva0
    (λ '(st, _) d', st = OK ∧ ∀ path i t', finds d' path i t' → finds deva0 path i t').
Proof.
  pose proof (deva_nameless [] Namespace.kDirectory request_root default_response 1%Z deva0 _ []
    no_components eq_refl root_found ns0_root request_fresh) as Hw.
  eapply wp_mono; [exact Hw|]. intros [st r] d' (E & _ & Hf). split; [exact E|exact Hf].
Defined.
End Witness.
End Deva.
