(* ===== verification/Op.v ===== *)
(** * Operations of the replicated log ([src/deva/op.h], [src/deva/op.cc],
    [src/deva/container_op.h], [src/deva/container_op.cc])

    An operation travels through the log as a 64-byte [OpMeta] header followed by its request,
    serialized by protobuf. Serialization is third-party code: [ProtoOps] lists what the
    sources call, [ProtoLaws] that parsing gives back what was serialized. A serialized request
    is parsed as the message of its operation type. *)
From S2P Require Import Prelude Bytes Iobuf Uuid Proto Namespace Deva.
From Stdlib Require Import Strings.Byte.
Import Proto.Proto Deva.Deva.
Set Default Goal Selector "!".
Local Open Scope Z_scope.

Module Op.

Inductive OpType :=
| kInvalid | kCreateFile | kCreateDir | kRemoveFile | kSealFile | kCreateChunk | kCheckInChunk
| kSealChunk | kSealAndNewChunk.

(** The underlying value of the enumerator, an [int]. *)
Definition op_value (t : OpType) : Z :=
  match t with
  | kInvalid => 0 | kCreateFile => 1 | kCreateDir => 2 | kRemoveFile => 3 | kSealFile => 4
  | kCreateChunk => 5 | kCheckInChunk => 6 | kSealChunk => 7 | kSealAndNewChunk => 8
  end.

(** Protobuf: [SerializeToZeroCopyStream], and [ParseFromZeroCopyStream] for the request message
    of an operation type ([None] when it returns false). *)
Class ProtoOps := {
  serialize : Request → list byte;
  parse : OpType → list byte → option Request;
}.

(** The operation type under which the sources submit a request. *)
Definition request_type (r : Request) : OpType :=
  match r with
  | CreateFileRequest _ => kCreateFile
  | CreateDirRequest _ => kCreateDir
  | RemoveFileRequest => kRemoveFile
  | SealFileRequest => kSealFile
  | CreateChunkRequest => kCreateChunk
  | CheckInChunkRequest => kCheckInChunk
  | SealChunkRequest => kSealChunk
  | SealAndNewChunkRequest => kSealAndNewChunk
  end.

Class ProtoLaws `{ProtoOps} : Prop := {
  parse_serialize r : parse (request_type r) (serialize r) = Some r;
}.

(** *** [OpMeta] *)
Record OpMeta := mkOpMeta {
  version : Z;       (* int32_t, at 0 *)
  type : Z;          (* OpType, at 4 *)
  timestamp : Z;     (* uint64_t, at 8 *)
  meta_size : Z;     (* uint32_t, at 16 *)
  reserved : list byte;  (* 40 bytes, at 20; then 4 bytes of padding *)
}.

Definition zeros (n : nat) : list byte := replicate n Byte.x00.

(** The object representation of an [OpMeta] and back. *)
Definition meta_bytes (m : OpMeta) (padding : list byte) : list byte :=
  le_bytes 4 (version m) ++ le_bytes 4 (type m) ++ le_bytes 8 (timestamp m) ++
  le_bytes 4 (meta_size m) ++ reserved m ++ padding.

Definition meta_of_bytes (bs : list byte) : OpMeta :=
  mkOpMeta (i32_of_u32 (le_val (take 4 bs))) (i32_of_u32 (le_val (take 4 (drop 4 bs))))
    (le_val (take 8 (drop 8 bs))) (le_val (take 4 (drop 16 bs))) (take 40 (drop 20 bs)).

Section op.
Context `{IOBufOps} `{ProtoOps}.
(** The value of the four bytes behind the last member. *)
Context (padding : list byte).

(** A [ContainerOp]: its type and its request. *)
Record Op := mkOp { op_type : OpType; op_request : Request }.

(** [new ContainerOp<Deva, Request, Response>(OpType, ...)], as [bridge] makes it. *)
Definition op_of (r : Request) : Op := mkOp (request_type r) r.

(** [ContainerOp::encode]. *)
Definition encode_request (op : Op) (buf : IOBuf) : IOBuf :=
  iob_append_raw buf (serialize (op_request op)).

(** [encode(op, buf)]; [now] is [butil::gettimeofday_us()]. *)
Definition encode (op : Op) (now : Z) (buf : IOBuf) : IOBuf :=
  let meta := encode_request op iob_empty in
  let op_meta := mkOpMeta 1 (op_value (op_type op)) (u64 now) (u32 (iob_size meta)) (zeros 40) in
  iob_append (iob_append_raw buf (meta_bytes op_meta padding)) meta.

(** The [switch] of [decode(op_type, buf, rsm)] in container_op.cc: there is no branch for
    [kCreateDir]; [None] is the failed assertion. *)
Definition new_op (op_type : Z) : option OpType :=
  match op_type with
  | 1 => Some kCreateFile
  | 3 => Some kRemoveFile
  | 4 => Some kSealFile
  | 5 => Some kCreateChunk
  | 6 => Some kCheckInChunk
  | 7 => Some kSealChunk
  | 8 => Some kSealAndNewChunk
  | _ => None
  end.

(** [ContainerOp::decode]: the request is parsed, and parsing is asserted to succeed. *)
Definition op_decode (t : OpType) (buf : IOBuf) : option Op :=
  match parse t (iob_bytes buf) with
  | None => None
  | Some r => Some (mkOp t r)
  end.
(** The rest of it: [op->decode(buf)]. *)
Definition decode_container_op (op_type : Z) (buf : IOBuf) : option Op :=
  match new_op op_type with
  | None => None
  | Some t => op_decode t buf
  end.

(** [decode(buf, decode)]: [cutn] leaves the rest of the zeroed [OpMeta] alone when the buffer
    is too short. The operation and what is left of the buffer. *)
Definition decode (buf : IOBuf) (decode : Z → IOBuf → option Op) : option (Op * IOBuf) :=
  let '(raw, buf) := iob_cutn_raw buf 64 in
  let op_meta := meta_of_bytes (raw ++ zeros (64 - length raw)) in
  let '(meta, buf) := iob_cutn buf iob_empty (meta_size op_meta) in
  match decode (type op_meta) meta with
  | None => None
  | Some op => Some (op, buf)
  end.
End op.

(** ** Lemmas *)
(** A request that a [uint32_t] can size. *)
Definition len_ok `{ProtoOps} (op : Op) : Prop := Z.of_nat (length (serialize (op_request op))) < 2 ^ 32.

Section lemmas.
Context `{IOBufLaws} `{ProtoLaws} (padding : list byte) (padding_4 : length padding = 4%nat).

Lemma op_value_range t : 0 <= op_value t < 9.
Proof. destruct t; cbn; lia. Qed.

Lemma new_op_value t : t ≠ kInvalid → t ≠ kCreateDir → new_op (op_value t) = Some t.
Proof. by destruct t. Qed.

Lemma length_meta_bytes m :
  length (reserved m) = 40%nat → length (meta_bytes m padding) = 64%nat.
Proof.
  intros Hr. unfold meta_bytes. rewrite !length_app, !length_le_bytes, Hr, padding_4. done.
Qed.

(** The header survives the trip through memory. *)
Lemma meta_of_meta_bytes m :
  0 <= version m < 2 ^ 31 → 0 <= type m < 2 ^ 31 → 0 <= timestamp m < 2 ^ 64 →
  0 <= meta_size m < 2 ^ 32 → length (reserved m) = 40%nat →
  meta_of_bytes (meta_bytes m padding) = m.
Proof.
  intros Hv Ht Hts Hs Hr. unfold meta_of_bytes, meta_bytes.
  assert (∀ (l1 l2 : list byte) n, n = length l1 → take n (l1 ++ l2) = l1) as Htake.
  { intros l1 l2 n ->. by rewrite take_app_length. }
  assert (∀ (l1 l2 : list byte) n k, n = (length l1 + k)%nat → drop n (l1 ++ l2) = drop k l2) as Hdrop.
  { intros l1 l2 n k ->. by rewrite drop_app_add. }
  rewrite (Htake (le_bytes 4 (version m))) by done.
  rewrite (Hdrop (le_bytes 4 (version m)) _ 4%nat 0%nat), (Hdrop _ _ 8%nat 4%nat),
    (Hdrop _ _ 16%nat 12%nat), (Hdrop _ _ 20%nat 16%nat) by (by rewrite length_le_bytes).
  rewrite (Hdrop (le_bytes 4 (type m)) _ 4%nat 0%nat), (Hdrop (le_bytes 4 (type m)) _ 12%nat 8%nat),
    (Hdrop (le_bytes 4 (type m)) _ 16%nat 12%nat) by (by rewrite length_le_bytes).
  rewrite (Hdrop (le_bytes 8 (timestamp m)) _ 8%nat 0%nat),
    (Hdrop (le_bytes 8 (timestamp m)) _ 12%nat 4%nat) by (by rewrite length_le_bytes).
  rewrite (Hdrop (le_bytes 4 (meta_size m)) _ 4%nat 0%nat) by (by rewrite length_le_bytes).
  rewrite !drop_0, !Htake by (by rewrite ?length_le_bytes).
  rewrite !le_val_le_bytes. cbn [Z.of_nat Pos.of_succ_nat Pos.succ].
  rewrite !Z.mod_small by lia. rewrite !i32_of_u32_small by lia. by destruct m.
Qed.

(** The container's decoder, as [decode] takes it. *)
Definition decode_op (buf : IOBuf) : option (Op * IOBuf) := decode buf decode_container_op.

(** The bytes of a log entry. *)
Lemma encode_bytes op now :
  len_ok op →
  iob_bytes (encode padding op now iob_empty) =
  meta_bytes (mkOpMeta 1 (op_value (op_type op)) (u64 now)
    (Z.of_nat (length (serialize (op_request op)))) (zeros 40)) padding ++ serialize (op_request op).
Proof.
  intros Hlen. unfold encode, encode_request. rewrite !iob_bytes_append, !iob_bytes_append_raw,
    iob_size_spec, iob_bytes_append_raw, !iob_bytes_empty. cbn [app].
  do 2 f_equal. unfold u32, len_ok in *. rewrite Z.mod_small; [done|lia].
Qed.

(** Reading back what [encode] wrote: the header's type decides. *)
Lemma decode_encode_eq op now b rest :
  len_ok op → iob_bytes b = iob_bytes (encode padding op now iob_empty) ++ rest →
  ∃ buf meta, iob_bytes buf = rest ∧ iob_bytes meta = serialize (op_request op) ∧
  decode_op b =
  match decode_container_op (op_value (op_type op)) meta with
  | None => None
  | Some op' => Some (op', buf)
  end.
Proof.
  intros Hlen Eb. rewrite encode_bytes, <-app_assoc in Eb by done. unfold decode_op, decode.
  set (m := mkOpMeta _ _ _ _ _) in Eb.
  assert (length (meta_bytes m padding) = 64%nat) as Hl by (by apply length_meta_bytes).
  pose proof (iob_cutn_raw_fst b 64) as E1. pose proof (iob_cutn_raw_snd b 64) as E2.
  destruct (iob_cutn_raw b 64) as [raw b1]. cbn [fst snd] in E1, E2. rewrite Eb in E1, E2.
  destruct (take_drop_app_mid (meta_bytes m padding) (serialize (op_request op) ++ rest)
              (Z.to_nat 64)) as [T D]; [by rewrite Hl|]. rewrite T in E1. rewrite D in E2.
  rewrite E1, Hl. change (zeros (64 - 64)) with (@nil byte). rewrite app_nil_r.
  assert (meta_of_bytes (meta_bytes m padding) = m) as ->.
  { pose proof (op_value_range (op_type op)). pose proof (u64_range now).
    apply meta_of_meta_bytes; cbn; unfold len_ok in Hlen; (lia || done). }
  cbn [meta_size type m].
  pose proof (iob_cutn_fst b1 iob_empty (Z.of_nat (length (serialize (op_request op))))) as E3.
  pose proof (iob_cutn_snd b1 iob_empty (Z.of_nat (length (serialize (op_request op))))) as E4.
  destruct (iob_cutn b1 iob_empty _) as [meta b2]. cbn [fst snd] in E3, E4.
  rewrite E2, Nat2Z.id in E3, E4. rewrite iob_bytes_empty, take_app_length in E3.
  rewrite drop_app_length in E4. exists b2, meta. done.
Qed.

Lemma decode_container_op_of r buf :
  request_type r ≠ kCreateDir → iob_bytes buf = serialize r →
  decode_container_op (op_value (request_type r)) buf = Some (op_of r).
Proof.
  intros Hdir E. unfold decode_container_op.
  rewrite new_op_value by (done || by destruct r). unfold op_decode. by rewrite E, parse_serialize.
Qed.

Lemma decode_encode_whole r now :
  request_type r ≠ kCreateDir → len_ok (op_of r) →
  ∃ buf, decode_op (encode padding (op_of r) now iob_empty) = Some (op_of r, buf).
Proof.
  intros Hdir Hlen.
  destruct (decode_encode_eq (op_of r) now (encode padding (op_of r) now iob_empty) [] Hlen)
    as (buf & meta & _ & Em & ->); [by rewrite app_nil_r|].
  exists buf. by rewrite (decode_container_op_of r).
Qed.

Lemma decode_create_dir r now :
  len_ok (op_of (CreateDirRequest r)) →
  decode_op (encode padding (op_of (CreateDirRequest r)) now iob_empty) = None.
Proof.
  intros Hlen.
  by destruct (decode_encode_eq _ now (encode padding (op_of (CreateDirRequest r)) now iob_empty) [] Hlen)
    as (buf & meta & _ & _ & ->); [by rewrite app_nil_r|].
Qed.

(** C29: Decoding what [encode] wrote gives back the operation with its type and its
    request, and leaves what follows in the buffer, for every operation but the creation of a
    directory. *)
Theorem op_roundtrip r now rest :
  request_type r ≠ kCreateDir → len_ok (op_of r) →
  ∃ buf, iob_bytes buf = iob_bytes rest ∧
    decode_op (iob_append (encode padding (op_of r) now iob_empty) rest) = Some (op_of r, buf).
Proof.
  intros Hdir Hlen.
  destruct (decode_encode_eq (op_of r) now (iob_append (encode padding (op_of r) now iob_empty) rest)
    (iob_bytes rest) Hlen) as (buf & meta & Eb & Em & ->); [by rewrite iob_bytes_append|].
  exists buf. split; [done|]. by rewrite (decode_container_op_of r).
Qed.

(** The log entry of a directory creation cannot be decoded: the decoder has no branch
    for its type and fails its assertion. *)
Theorem create_dir_undecodable r now rest :
  len_ok (op_of (CreateDirRequest r)) →
  decode_op (iob_append (encode padding (op_of (CreateDirRequest r)) now iob_empty) rest) = None.
Proof.
  intros Hlen.
  by destruct (decode_encode_eq _ now
    (iob_append (encode padding (op_of (CreateDirRequest r)) now iob_empty) rest)
    (iob_bytes rest) Hlen) as (buf & meta & _ & _ & ->); [by rewrite iob_bytes_append|].
Qed.
End lemmas.

(** ** A concrete serialization, for witnesses: a number that stands for the request. *)
Module CountProto.
#[local] Instance uuid_msg_eq_dec : EqDecision UUIDMsg.
Proof. solve_decision. Defined.
#[local] Program Instance uuid_msg_countable : Countable UUIDMsg :=
  inj_countable' (λ m, (msg_low m, msg_high m)) (λ p, mkUUIDMsg (fst p) (snd p)) _.
Next Obligation. by intros []. Qed.
#[local] Instance create_request_eq_dec : EqDecision CreateRequest.
Proof. solve_decision. Defined.
#[local] Program Instance create_request_countable : Countable CreateRequest :=
  inj_countable' (λ r, (cr_path r, cr_id r, (cr_atime r, cr_mtime r, cr_ctime r, cr_mode r, cr_uid r, cr_gid r)))
    (λ '(p, i, (a, m, c, o, u, g)), mkCreateRequest p i a m c o u g) _.
Next Obligation. by intros []. Qed.

Definition body (r : Request) : option CreateRequest :=
  match r with CreateFileRequest r | CreateDirRequest r => Some r | _ => None end.
Definition rebuild (t : OpType) (b : option CreateRequest) : option Request :=
  match t, b with
  | kCreateFile, Some r => Some (CreateFileRequest r)
  | kCreateDir, Some r => Some (CreateDirRequest r)
  | kRemoveFile, _ => Some RemoveFileRequest
  | kSealFile, _ => Some SealFileRequest
  | kCreateChunk, _ => Some CreateChunkRequest
  | kCheckInChunk, _ => Some CheckInChunkRequest
  | kSealChunk, _ => Some SealChunkRequest
  | kSealAndNewChunk, _ => Some SealAndNewChunkRequest
  | _, _ => None
  end.

#[export] Instance ops : ProtoOps := {
  serialize r := let p := stdpp.countable.encode (body r) in le_bytes (Pos.size_nat p) (Zpos p);
  parse t bs := stdpp.countable.decode (Z.to_pos (le_val bs)) ≫= rebuild t;
}.

Lemma pos_fits p : Zpos p < 256 ^ Z.of_nat (Pos.size_nat p).
Proof.
  induction p as [p IH|p IH|]; cbn [Pos.size_nat]; rewrite ?Nat2Z.inj_succ, ?Z.pow_succ_r by lia; lia.
Qed.

#[export] Instance laws : @ProtoLaws ops.
Proof.
  constructor. intros r. unfold parse, serialize, ops. rewrite le_val_le_bytes.
  rewrite Z.mod_small by (split; [lia|apply pos_fits]). rewrite Pos2Z.id, stdpp.countable.decode_encode.
  by destruct r.
Qed.
End CountProto.

Module Witness.
#[local] Existing Instances ListIOBuf.ops ListIOBuf.laws CountProto.ops CountProto.laws.

Definition padding0 : list byte := zeros 4.
Definition request0 : CreateRequest := mkCreateRequest "/a" (mkUUIDMsg 1 2) 0 0 0 438 0 0.

Lemma request0_fits : len_ok (op_of (CreateFileRequest request0)).
Proof. by vm_compute. Qed.

Lemma op_roundtrip_witness :
  ∃ buf, decode_op (iob_append (encode padding0 (op_of (CreateFileRequest request0)) 5 iob_empty) iob_empty) =
         Some (op_of (CreateFileRequest request0), buf).
Proof.
  pose proof (op_roundtrip padding0 eq_refl (CreateFileRequest request0) 5 iob_empty ltac:(done)
                request0_fits) as (buf & _ & E).
  exists buf. exact E.
Defined.

Lemma create_dir_undecodable_witness :
  decode_op (iob_append (encode padding0 (op_of (CreateDirRequest request0)) 5 iob_empty) iob_empty) = None.
Proof.
  pose proof (create_dir_undecodable padding0 eq_refl request0 5 iob_empty request0_fits) as E.
  exact E.
Defined.
End Witness.
End Op.
