(* ===== verification/Rsm.v ===== *)
(** * The replicated state machine ([src/deva/rsm.h], [src/deva/rsm.cc], and the closures of
    [src/deva/container_op.h])

    braft replicates a log and calls [on_apply] with consecutive committed entries. An entry
    comes with a closure on the node that proposed it and without one elsewhere, or after a
    restart. Without a closure the entry is decoded and applied on the spot; with one, an
    [AsyncClosureGuard] hands the closure to another bthread, which applies the operation when it runs.
    The model keeps the closures handed over and not run yet, and lets them run in any order. A
    task that raft refuses has its closure run with an error status. [default_rsm] configures the
    one state machine of a process. *)
From S2P Require Import Prelude Bytes Iobuf Uuid Proto Namespace Deva Op.
Import Proto.Proto Deva.Deva Op.Op.
Set Default Goal Selector "!".
Local Open Scope Z_scope.

Module Rsm.

Section rsm.
Context `{IOBufOps} `{UuidOps} `{ProtoOps}.

(** An [OpClosure]: the operation it applies and the index [set_index] gave it. *)
Record OpClosure := mkOpClosure { cl_op : Op; cl_index : Z }.

(** An answer delivered to the caller of [bridge]: status and response. *)
Definition Reply : Type := Z * Status * Response.

Record Rsm := mkRsm {
  _node : bool;                  (* _node != nullptr *)
  _leader_term : Z;
  _container : Deva;
  closures : list OpClosure;     (* handed to bthreads, not run yet *)
  replies : list Reply;
}.

Definition set_container (d : Deva) (r : Rsm) : Rsm :=
  mkRsm (_node r) (_leader_term r) d (closures r) (replies r).
Definition set_closures (cs : list OpClosure) (r : Rsm) : Rsm :=
  mkRsm (_node r) (_leader_term r) (_container r) cs (replies r).

(** [Rsm(...)]. *)
Definition new_rsm : Rsm := mkRsm false (-1) new_deva [] [].

(** [Rsm::start]; [init] is what [node->init(_node_options)] returns. *)
Definition start (init : Z) : Prog Rsm Z :=
  if negb (init =? 0) then mret (-1) else
  modify (λ r, mkRsm true (_leader_term r) (_container r) (closures r) (replies r));;
  mret 0.

(** [Rsm::is_leader]; the argument is what [_node->is_leader()] returns. *)
Definition is_leader (node_is_leader : bool) : Prog Rsm bool :=
  r ← get; mret (if negb (_node r) then false else node_is_leader).

(** [Rsm::apply]: the task reaches the node, or is dropped when there is none. *)
Definition apply {Task} (task : Task) : Prog Rsm (option Task) :=
  r ← get; mret (if _node r then Some task else None).

(** [ContainerOp::apply]: the log data of the task made for an operation. *)
Definition container_op_apply (padding : list byte) (op : Op) (now : Z) : Prog Rsm (option IOBuf) :=
  apply (encode padding op now iob_empty).

(** [ContainerOp::on_finish]: the answer goes to the caller of [bridge]; an operation that was
    decoded from the log has no [OnFinish]. *)
Definition on_finish (finish : bool) (index : Z) (status : Status) (response : Response) : Prog Rsm unit :=
  if finish
  then modify (λ r, mkRsm (_node r) (_leader_term r) (_container r) (closures r)
                      (replies r ++ [(index, status, response)]))
  else mret tt.

(** [ContainerOp::on_apply]: process on the container, then [on_finish]. *)
Definition op_on_apply (finish : bool) (op : Op) (index : Z) : Prog Rsm unit :=
  '(status, response) ← zoom _container set_container (process (op_request op) default_response index);
  on_finish finish index status response.

(** [OpClosure::Run], with the status that raft put on the closure: of an entry that was not
    committed, the status is the answer and the response stays as [bridge] made it. *)
Definition closure_run (status : Status) (c : OpClosure) : Prog Rsm unit :=
  if ok status then op_on_apply true (cl_op c) (cl_index c)
  else on_finish true (cl_index c) status default_response.

(** A task that raft refuses, on a node that does not lead for example: the closure runs with
    the reason, its index not set. *)
Definition refuse (status : Status) (op : Op) : Prog Rsm unit := closure_run status (mkOpClosure op 0).

(** An entry as [on_apply]'s iterator shows it: index, data, and the closure if there is one. *)
Record Entry := mkEntry { e_index : Z; e_data : IOBuf; e_done : option Op }.

(** One round of the loop of [Rsm::on_apply]. *)
Definition on_apply_one (e : Entry) : Prog Rsm unit :=
  match e_done e with
  | Some op =>
      modify (λ r, set_closures (closures r ++ [mkOpClosure op (e_index e)]) r)
  | None =>
      match decode_op (e_data e) with
      | None => abort
      | Some (op, _) => op_on_apply false op (e_index e)
      end
  end.

(** [Rsm::on_apply]. *)
Fixpoint on_apply (iter : list Entry) : Prog Rsm unit :=
  match iter with
  | [] => mret tt
  | e :: rest => on_apply_one e;; on_apply rest
  end.

(** A bthread runs the [n]-th waiting closure. *)
Definition run_closure (n : nat) : Prog Rsm unit :=
  r ← get;
  match closures r !! n with
  | None => abort
  | Some c => modify (set_closures (delete n (closures r)));; closure_run OK c
  end.

(** [shutdown] and [join], which forward to the node if there is one, and [~Rsm], which deletes
    it; the result says whether the node was called. *)
Definition shutdown : Prog Rsm bool := gets _node.
Definition join : Prog Rsm bool := gets _node.
Definition rsm_dtor : Prog Rsm bool :=
  node ← gets _node;
  modify (λ r, mkRsm false (_leader_term r) (_container r) (closures r) (replies r));;
  mret node.

(** [on_leader_start], [on_leader_stop]. *)
Definition on_leader_start (term : Z) : Prog Rsm unit :=
  modify (λ r, mkRsm (_node r) term (_container r) (closures r) (replies r)).
Definition on_leader_stop : Prog Rsm unit :=
  modify (λ r, mkRsm (_node r) (-1) (_container r) (closures r) (replies r)).

(** Notifications of raft that are only logged. *)
Definition on_shutdown : Prog Rsm unit := mret tt.
Definition on_error {E} (e : E) : Prog Rsm unit := mret tt.
Definition on_configuration_committed {C} (conf : C) : Prog Rsm unit := mret tt.
Definition on_stop_following {C} (ctx : C) : Prog Rsm unit := mret tt.
Definition on_start_following {C} (ctx : C) : Prog Rsm unit := mret tt.

(** [SnapshotArg]: the path of the writer, and what its closure goes by. *)
Record SnapshotArg := mkSnapshotArg { writer_path : string; done : nat }.
(** [save_snapshot]: the files added to the snapshot, and the closure that is run at its end. The path
    of the data is computed for nothing. *)
Definition save_snapshot (arg : SnapshotArg) : Prog Rsm (list string * nat) :=
  let snapshot_path := writer_path arg +:+ "/data" in
  mret ([], done arg).
(** [on_snapshot_save]: a bthread is started on [save_snapshot], and [bthread_start_urgent] answers
    [started]. What it answers is ignored: if it is not 0 nobody runs the closure. *)
Definition on_snapshot_save (started : Z) (writer : string) (done : nat) : Prog Rsm (option (list string * nat)) :=
  let arg := mkSnapshotArg writer done in
  if (started =? 0)%Z then r ← save_snapshot arg; mret (Some r) else mret None.

(** [on_snapshot_load]: the assertion that this node does not lead, then nothing. *)
Definition on_snapshot_load (node_is_leader : bool) : Prog Rsm Z :=
  l ← is_leader node_is_leader;
  boost_assert (negb l);;
  mret 0.

(** ** Specification *)

(** Proposed requests with their log indices, and the container after all of them, in order. *)
Fixpoint replay (log : list (Z * Request)) (d : Deva) : option Deva :=
  match log with
  | [] => Some d
  | (i, r) :: rest =>
      match process r default_response i d with
      | None => None
      | Some (_, d') => replay rest d'
      end
  end.

(** The entries of such a log on a node that did not propose them ... *)
Definition follower_entries (padding : list byte) (now : Z → Z) (log : list (Z * Request)) : list Entry :=
  (λ '(i, r), mkEntry i (encode padding (op_of r) (now i) iob_empty) None) <$> log.

(** ... and on the node that proposed all of them. *)
Definition leader_entries (padding : list byte) (now : Z → Z) (log : list (Z * Request)) : list Entry :=
  (λ '(i, r), mkEntry i (encode padding (op_of r) (now i) iob_empty) (Some (op_of r))) <$> log.

(** braft hands over the log in batches. *)
Fixpoint on_apply_batches (batches : list (list Entry)) : Prog Rsm unit :=
  match batches with
  | [] => mret tt
  | b :: rest => on_apply b;; on_apply_batches rest
  end.

(** A log that a follower can decode. *)
Definition decodable (log : list (Z * Request)) : Prop :=
  ∀ i req, (i, req) ∈ log → request_type req ≠ kCreateDir ∧ len_ok (op_of req).

(** Running all waiting closures, oldest first. *)
Fixpoint run_all (fuel : nat) : Prog Rsm unit :=
  match fuel with
  | O => mret tt
  | S fuel => run_closure 0;; run_all fuel
  end.
End rsm.

(** ** [default_rsm] *)

(** Parsing of addresses and configurations by butil and braft; [None] is a non-zero result. *)
Class RaftOps := {
  EndPoint : Type;
  Configuration : Type;
  str2endpoint : string → option EndPoint;
  parse_conf : string → option Configuration;
}.

Section config.
Context `{RaftOps}.

Record Flags := mkFlags {
  rsm_data_path : string;
  rsm_listen_address : string;
  rsm_conf : string;
  rsm_election_timeout_ms : Z;
  rsm_snapshot_interval : Z;
  rsm_disable_cli : bool;
}.
(** The values the flags are defined with. *)
Definition default_flags : Flags := mkFlags "./data" "127.0.0.1:8001" "" 5000 30 false.

(** The fields of [braft::NodeOptions] that are set. *)
Record NodeOptions := mkNodeOptions {
  initial_conf : Configuration;
  election_timeout_ms : Z;
  node_owns_fsm : bool;
  snapshot_interval_s : Z;
  log_uri : string;
  raft_meta_uri : string;
  snapshot_uri : string;
  disable_cli : bool;
}.
(** What [default_rsm] constructs an [Rsm] from, with a new [Deva]. *)
Record RsmConfig := mkRsmConfig { address : EndPoint; group : string; node_options : NodeOptions }.

Definition rsm_config (flags : Flags) (addr : EndPoint) (conf : Configuration) : RsmConfig :=
  let group := "default" in
  let prefix := "local://" +:+ rsm_data_path flags in
  mkRsmConfig addr group
    (mkNodeOptions conf (rsm_election_timeout_ms flags) false (rsm_snapshot_interval flags)
       (prefix +:+ "/" +:+ group +:+ "/log") (prefix +:+ "/" +:+ group +:+ "/raft_meta")
       (prefix +:+ "/" +:+ group +:+ "/snapshot") (rsm_disable_cli flags)).

(** [default_rsm]; the state is the function's static variable. The flags are parsed, and must
    be well formed, in every call, but only those of the first call are used. *)
Definition default_rsm (flags : Flags) : Prog (option RsmConfig) RsmConfig :=
  match str2endpoint (rsm_listen_address flags), parse_conf (rsm_conf flags) with
  | Some addr, Some conf =>
      s_rsm ← get;
      match s_rsm with
      | Some rsm => mret rsm
      | None => let rsm := rsm_config flags addr conf in put (Some rsm);; mret rsm
      end
  | _, _ => abort
  end.

(** All callers share one state machine, whatever becomes of the flags. *)
Lemma default_rsm_shared flags1 flags2 s rsm1 s1 rsm2 s2 :
  default_rsm flags1 s = Some (rsm1, s1) → default_rsm flags2 s1 = Some (rsm2, s2) →
  rsm2 = rsm1 ∧ s2 = s1.
Proof. unfold default_rsm. intros E1 E2. prog_inv; repeat case_match; by prog_inv. Qed.
End config.

(** ** Lemmas *)
Section lemmas.
Context `{IOBufLaws} `{UuidLaws} `{ProtoLaws} (padding : list byte) (padding_4 : length padding = 4%nat).
Implicit Types (r : Rsm) (log : list (Z * Request)).

(** Commands always return: [process] fails no assertion. *)
Lemma process_total req resp i d : is_Some (process req resp i d).
Proof.
  assert (∀ path id t, wp (create path id t) d (λ _ _, True)) as Hc.
  { intros path id t. eapply wp_mono; [apply create_fails|done]. }
  destruct req as [q|q| | | | | |]; cbn [process]; try by eexists.
  all: unfold CreateFile, CreateDir.
  all: match goal with |- context [create ?p ?i ?t] => specialize (Hc p i t) end.
  all: apply wp_exists in Hc as (st & d' & E & _); erewrite bind_step by exact E.
  all: destruct (negb (ok st)); by eexists.
Qed.

Lemma replay_app log1 log2 d :
  replay (log1 ++ log2) d = match replay log1 d with Some d' => replay log2 d' | None => None end.
Proof.
  revert d; induction log1 as [|[i req] log1 IH]; intros d; [done|]. cbn [replay app].
  by destruct (process req default_response i d) as [[_ d']|].
Qed.

Lemma replay_total log d : is_Some (replay log d).
Proof.
  revert d; induction log as [|[i req] log IH]; intros d; [by eexists|]. cbn [replay].
  destruct (process_total req default_response i d) as [[a d'] ->]. apply IH.
Qed.

Lemma on_apply_app es1 es2 r : on_apply (es1 ++ es2) r = (on_apply es1;; on_apply es2) r.
Proof.
  revert r; induction es1 as [|e es1 IH]; intros r; [done|]. cbn [on_apply app].
  unfold mbind, prog_bind in *. destruct (on_apply_one e r) as [[[] r1]|]; [|done]. apply IH.
Qed.

(** One entry without closure: the decoded request is processed. *)
Lemma on_apply_one_follower i req now r :
  request_type req ≠ kCreateDir → len_ok (op_of req) →
  ∃ a d, process req default_response i (_container r) = Some (a, d) ∧
    on_apply_one (mkEntry i (encode padding (op_of req) now iob_empty) None) r =
    Some (tt, set_container d r).
Proof.
  intros Hdir Hlen. destruct (process_total req default_response i (_container r)) as [[a d] E].
  exists a, d. split; [done|]. unfold on_apply_one. cbn [e_done e_data e_index].
  destruct (decode_encode_whole padding padding_4 req now Hdir Hlen) as [buf ->].
  unfold op_on_apply. cbn [op_of op_request]. by destruct a; erewrite bind_step by by apply zoom_step.
Qed.

Lemma on_apply_follower now log r :
  decodable log →
  wp (on_apply (follower_entries padding now log)) r (λ _ r',
    ∃ d, replay log (_container r) = Some d ∧ r' = set_container d r).
Proof.
  revert r; induction log as [|[i req] log IH]; intros r Hdec.
  { eapply wp_eval; [done|]. exists (_container r). split; [done|]. by destruct r. }
  destruct (Hdec i req) as [Hdir Hlen]; [left|].
  destruct (on_apply_one_follower i req (now i) r Hdir Hlen) as (a & d & Ep & E).
  cbn [follower_entries fmap list_fmap on_apply]. eapply wp_step; [exact E|].
  eapply wp_mono; [apply IH; intros j q Hq; apply (Hdec j q); by right|].
  cbv beta. intros _ r' (d' & Er & ->). exists d'. cbn [replay]. rewrite Ep. done.
Qed.

Lemma on_apply_concat bs r : on_apply_batches bs r = on_apply (concat bs) r.
Proof.
  revert r; induction bs as [|b bs IH]; intros r; [done|]. cbn [on_apply_batches concat].
  rewrite on_apply_app. unfold mbind, prog_bind. by destruct (on_apply b r) as [[[] r1]|].
Qed.

(** A node that did not propose the entries ends, however braft batches the log, in the
    state obtained by processing the proposed requests one after the other in log order. So two
    such nodes agree whenever they have applied the same entries. *)
Theorem follower_replays now batches r :
  decodable (concat batches) →
  wp (on_apply_batches (follower_entries padding now <$> batches)) r (λ _ r',
    replay (concat batches) (_container r) = Some (_container r') ∧
    closures r' = closures r ∧ replies r' = replies r).
Proof.
  intros Hdec. eapply wp_eq; [apply on_apply_concat|].
  assert (concat (follower_entries padding now <$> batches) = follower_entries padding now (concat batches)) as ->.
  { unfold follower_entries. by rewrite concat_map. }
  eapply wp_mono; [by apply on_apply_follower|]. cbv beta. intros _ r' (d & E & ->). done.
Qed.

(** Once the creation of a directory is in the log, no node that has to decode it gets past
    it: [on_apply] fails an assertion, whatever comes before and after. *)
Theorem mkdir_stops_followers now log1 i q log2 r :
  decodable log1 → len_ok (op_of (CreateDirRequest q)) →
  on_apply (follower_entries padding now (log1 ++ (i, CreateDirRequest q) :: log2)) r = None.
Proof.
  intros Hdec Hlen. unfold follower_entries. rewrite fmap_app. fold (follower_entries padding now log1).
  rewrite on_apply_app. unfold mbind, prog_bind. pose proof (on_apply_follower now log1 r Hdec) as Hw.
  unfold wp in Hw. destruct (on_apply (follower_entries padding now log1) r) as [[[] r1]|]; [|done].
  cbn [fmap list_fmap on_apply]. unfold mbind, prog_bind, on_apply_one at 1. cbn [e_done e_data e_index].
  by rewrite decode_create_dir.
Qed.

(** *** The proposing node *)

Lemma on_apply_leader now log r :
  on_apply (leader_entries padding now log) r =
  Some (tt, set_closures (closures r ++ ((λ '(i, q), mkOpClosure (op_of q) i) <$> log)) r).
Proof.
  revert r; induction log as [|[i q] log IH]; intros r.
  { cbn. rewrite app_nil_r. by destruct r. }
  cbn [leader_entries fmap list_fmap on_apply]. erewrite bind_step by done.
  fold (leader_entries padding now log). rewrite IH. cbn [closures set_closures].
  rewrite <-app_assoc. by destruct r.
Qed.

(** Running the closure in front. *)
Lemma run_closure_at n i q r st resp d :
  closures r !! n = Some (mkOpClosure (op_of q) i) →
  process q default_response i (_container r) = Some ((st, resp), d) →
  run_closure n r = Some (tt, mkRsm (_node r) (_leader_term r) d (delete n (closures r))
                                (replies r ++ [(i, st, resp)])).
Proof.
  intros Ec Ep. unfold run_closure. erewrite bind_step by done. rewrite Ec.
  erewrite bind_step by done. unfold closure_run. rewrite ok_OK. unfold op_on_apply.
  erewrite bind_step by (apply zoom_step; exact Ep). done.
Qed.

Lemma run_all_in_order log r :
  closures r = (λ '(i, q), mkOpClosure (op_of q) i) <$> log →
  wp (run_all (length log)) r (λ _ r',
    replay log (_container r) = Some (_container r') ∧ closures r' = [] ∧
    (fst ∘ fst) <$> replies r' = ((fst ∘ fst) <$> replies r) ++ log.*1).
Proof.
  revert r; induction log as [|[i q] log IH]; intros r Ec; cbn [run_all length].
  { eapply wp_eval; [done|]. cbn. rewrite app_nil_r. done. }
  destruct (process_total q default_response i (_container r)) as [[[st resp] d] Ep].
  eapply wp_step; [by apply (run_closure_at 0 i q r st resp d); [by rewrite Ec|]|].
  rewrite Ec. cbn [fmap list_fmap delete list_delete].
  eapply wp_mono; [by apply IH|]. cbv beta. cbn [_container closures replies].
  intros _ r' (Er & Ec' & Erep). cbn [replay]. rewrite Ep. split_and!; [done|done|].
  rewrite Erep, fmap_app, <-app_assoc. done.
Qed.

(** A follower holds what the replay of the log gives. *)
Lemma follower_holds now batches d f :
  decodable (concat batches) → replay (concat batches) (_container f) = Some d →
  wp (on_apply_batches (follower_entries padding now <$> batches)) f (λ _ f', _container f' = d).
Proof.
  intros Hdec Ed. eapply wp_mono; [by apply follower_replays|]. cbv beta. intros _ f' (Er & _).
  rewrite Ed in Er. by injection Er.
Qed.

(** C30: On the node that proposed the entries, if the closures run in the order in which they
    were handed over, every proposal is answered once, in log order, and the container is what the
    requests make, one after the other; when the log creates no directory (and its messages are
    short enough to be encoded) this is what every node that started from the same container and
    did not propose the entries ends with, however braft batches the log for it. *)
Theorem leader_in_order now log r :
  closures r = [] →
  wp (_ ← on_apply (leader_entries padding now log); run_all (length log)) r (λ _ r',
    replay log (_container r) = Some (_container r') ∧ closures r' = [] ∧
    (fst ∘ fst) <$> replies r' = ((fst ∘ fst) <$> replies r) ++ log.*1 ∧
    (decodable log → ∀ batches f, concat batches = log → _container f = _container r →
      wp (on_apply_batches (follower_entries padding now <$> batches)) f (λ _ f',
        _container f' = _container r'))).
Proof.
  intros Ec. eapply wp_step; [apply on_apply_leader|]. rewrite Ec. cbn [app].
  eapply wp_mono; [exact (run_all_in_order log (set_closures _ r) eq_refl)|]. cbv beta.
  intros _ r' (Er & Ec' & Erep). split_and!; [done..|]. intros Hdec batches f Eb Ef.
  apply follower_holds; rewrite Eb; [done|]. rewrite Ef. exact Er.
Qed.

(** Two creations of the same new file, one after the other: both succeed, and the name keeps
    leading to the first inode. *)
Lemma two_creations cs nm q1 q2 i1 i2 d parent es :
  (∀ c, c ∈ cs → Namespace.is_name c) → Namespace.is_name nm →
  cr_path q1 = file_path cs nm → cr_path q2 = file_path cs nm →
  finds d (Namespace.join cs +:+ "/") parent Namespace.kDirectory →
  Namespace._entries (Deva._namespace d) !! parent = Some es → Namespace.find_entry nm es = None →
  ∃ resp1 d1 resp2 d2,
    process (CreateFileRequest q1) default_response i1 d = Some ((OK, resp1), d1) ∧
    process (CreateFileRequest q2) default_response i2 d1 = Some ((OK, resp2), d2) ∧
    finds d2 (file_path cs nm) (msg_uuid (cr_id q1)) Namespace.kFile.
Proof.
  intros Hcs Hnm Hp1 Hp2 Hdir E Hnew. assert (Namespace.clean nm) as Hc by apply Hnm.
  pose proof (process_create cs nm Namespace.kFile q1 default_response i1 d parent es Hcs Hc Hp1 Hdir E)
    as Ep1. cbv zeta in Ep1. set (d1 := mkDeva _ _) in Ep1.
  set (e1 := Namespace.mkDirEntry (msg_uuid (cr_id q1)) nm Namespace.kFile).
  assert (Namespace._entries (Deva._namespace d1) !! parent = Some (es ++ [e1])) as E1.
  { by apply Namespace.created_parent. }
  assert (finds d1 (Namespace.join cs +:+ "/") parent Namespace.kDirectory) as Hdir1.
  { destruct Hdir as [Hs Hr]. split; [done|]. eapply Namespace.resolves_mono; [|exact Hr].
    by apply Namespace.created_extends. }
  pose proof (process_create cs nm Namespace.kFile q2 default_response i2 d1 parent _ Hcs Hc Hp2 Hdir1 E1)
    as Ep2. cbv zeta in Ep2. set (d2 := mkDeva (Namespace.set_entries _ _) _) in Ep2.
  do 4 eexists. split_and!; [exact Ep1|exact Ep2|]. split; [apply Namespace.join_slash|].
  unfold file_path. rewrite Namespace.words_file by done. destruct Hdir1 as [_ Hr].
  rewrite Namespace.words_dir in Hr by done.
  eapply (Namespace.resolves_snoc _ _ cs parent nm _ e1).
  - eapply Namespace.resolves_mono; [|exact Hr]. by apply Namespace.created_extends.
  - by apply Namespace.created_parent.
  - rewrite !Namespace.find_entry_app, Hnew. cbn. by rewrite decide_True.
Qed.

Lemma finds_det d path i t i' t' : finds d path i t → finds d path i' t' → i = i' ∧ t = t'.
Proof. intros [_ Hr] [_ Hr']. by eapply Namespace.resolves_det. Qed.

(** C31: But nothing orders the closures. When two proposals create the same new name in a
    directory, with different ids, and the closure of the second runs first on the proposing node, both are answered
    by success, and after the two closures the name leads to the second inode there, and to the first
    one on every node that started from the same container and did not propose the entries (messages
    short enough to be encoded), once it has applied them. *)
Theorem leader_can_diverge now cs nm q1 q2 r parent es :
  (∀ c, c ∈ cs → Namespace.is_name c) → Namespace.is_name nm →
  cr_path q1 = file_path cs nm → cr_path q2 = file_path cs nm →
  msg_uuid (cr_id q1) ≠ msg_uuid (cr_id q2) →
  finds (_container r) (Namespace.join cs +:+ "/") parent Namespace.kDirectory →
  Namespace._entries (Deva._namespace (_container r)) !! parent = Some es →
  Namespace.find_entry nm es = None → closures r = [] →
  let log := [(1, CreateFileRequest q1); (2, CreateFileRequest q2)] in
  wp (_ ← on_apply (leader_entries padding now log); _ ← run_closure 1; run_closure 0) r (λ _ leader,
    (∃ d, replay log (_container r) = Some d ∧ d ≠ _container leader ∧
          finds d (file_path cs nm) (msg_uuid (cr_id q1)) Namespace.kFile) ∧
    finds (_container leader) (file_path cs nm) (msg_uuid (cr_id q2)) Namespace.kFile ∧
    (λ x, snd (fst x)) <$> replies leader = ((λ x, snd (fst x)) <$> replies r) ++ [OK; OK] ∧
    (decodable log → ∀ batches f, concat batches = log → _container f = _container r →
      wp (on_apply_batches (follower_entries padding now <$> batches)) f (λ _ f',
        finds (_container f') (file_path cs nm) (msg_uuid (cr_id q1)) Namespace.kFile ∧
        _container f' ≠ _container leader))).
Proof.
  intros Hcs Hnm Hp1 Hp2 Hid Hdir E Hnew Ec log.
  destruct (two_creations cs nm q1 q2 1 2 _ parent es Hcs Hnm Hp1 Hp2 Hdir E Hnew)
    as (ra & da & rb & db & Ea & Eb & Hab).
  destruct (two_creations cs nm q2 q1 2 1 _ parent es Hcs Hnm Hp2 Hp1 Hdir E Hnew)
    as (rc & dc & rd & dd & Ecc & Ed & Hcd).
  eapply wp_step; [apply on_apply_leader|]. rewrite Ec. cbn [app fmap list_fmap log].
  eapply wp_step; [by apply (run_closure_at 1 2 (CreateFileRequest q2) _ OK rc dc)|].
  eapply wp_eval; [by apply (run_closure_at 0 1 (CreateFileRequest q1) _ OK rd dd)|].
  cbn [_container replies set_closures].
  assert (replay log (_container r) = Some db) as Hlog by (cbn [replay log]; by rewrite Ea, Eb).
  assert (db ≠ dd) as Hne by (intros ->; by destruct (finds_det _ _ _ _ _ _ Hab Hcd)).
  split_and!; [by exists db|exact Hcd|by rewrite !fmap_app, <-app_assoc|].
  intros Hdec batches f Eb' Ef. eapply wp_mono; [apply (follower_holds now batches db f)|]; rewrite ?Eb', ?Ef;
    [done..|]. cbv beta. by intros _ f' ->.
Qed.
End lemmas.

(** ** Witnesses *)
Module Witness.
Import Namespace.Witness Deva.Witness Op.Witness.
#[local] Existing Instances ListIOBuf.ops ListIOBuf.laws HexUuid.ops HexUuid.laws CountProto.ops CountProto.laws.

Definition log0 : list (Z * Request) := [(1, CreateFileRequest request0)].
Definition request_b : CreateRequest := mkCreateRequest "/a" (uuid_msg ino2) 4 5 6 438 0 0.

Lemma log0_decodable : decodable (concat [log0; []]).
Proof.
  intros i q Hq. cbn in Hq. apply list_elem_of_singleton in Hq as [= -> ->]. split; [done|].
  apply request0_fits.
Qed.
Lemma log_decodable : decodable log0.
Proof. intros i q Hq. by apply (log0_decodable i q). Qed.
Lemma two_decodable :
  decodable [(1, CreateFileRequest request_a); (2, CreateFileRequest request_b)].
Proof.
  intros i q Hq. apply elem_of_cons in Hq as [[= -> ->]|[= -> ->]%list_elem_of_singleton];
    (split; [done|by vm_compute]).
Qed.
Lemma mkdir_fits : len_ok (op_of (CreateDirRequest request0)).
Proof. by vm_compute. Qed.
Lemma ids_differ : msg_uuid (cr_id request_a) ≠ msg_uuid (cr_id request_b).
Proof. unfold request_a, request_b. cbn [cr_id]. rewrite !msg_uuid_msg. intros E. by injection E. Qed.

Lemma follower_replays_witness :
  wp (on_apply_batches (follower_entries padding0 (λ _, 5) <$> [log0; []])) new_rsm (λ _ r',
    replay log0 new_deva = Some (_container r')).
Proof.
  pose proof (follower_replays padding0 eq_refl (λ _, 5) [log0; []] new_rsm log0_decodable) as Hw.
  eapply wp_mono; [exact Hw|]. intros u r' (E & _). exact E.
Defined.

Lemma mkdir_stops_followers_witness :
  on_apply (follower_entries padding0 (λ _, 5) (log0 ++ (2, CreateDirRequest request0) :: [])) new_rsm = None.
Proof.
  pose proof (mkdir_stops_followers padding0 eq_refl (λ _, 5) log0 2 request0 [] new_rsm
    log_decodable mkdir_fits) as Hw.
  exact Hw.
Defined.

Lemma leader_in_order_witness :
  wp (_ ← on_apply (leader_entries padding0 (λ _, 5) log0); run_all (length log0)) new_rsm (λ _ r',
    replay log0 new_deva = Some (_container r') ∧
    wp (on_apply_batches (follower_entries padding0 (λ _, 5) <$> [[]; log0])) new_rsm (λ _ f',
      _container f' = _container r')).
Proof.
  pose proof (leader_in_order padding0 eq_refl (λ _, 5) log0 new_rsm eq_refl) as Hw.
  eapply wp_mono; [exact Hw|]. intros u r' (E & _ & _ & Hf). split; [exact E|].
  exact (Hf log_decodable [[]; log0] new_rsm eq_refl eq_refl).
Defined.

Lemma leader_can_diverge_witness :
  let log := [(1, CreateFileRequest request_a); (2, CreateFileRequest request_b)] in
  wp (_ ← on_apply (leader_entries padding0 (λ _, 5) log); _ ← run_closure 1; run_closure 0) new_rsm
    (λ _ leader, wp (on_apply_batches (follower_entries padding0 (λ _, 5) <$> [log])) new_rsm (λ _ f',
      _container f' ≠ _container leader)).
Proof.
  pose proof (leader_can_diverge padding0 eq_refl (λ _, 5) [] "a" request_a request_b new_rsm _ []
    no_components name_a eq_refl eq_refl ids_differ root_found ns0_root eq_refl eq_refl) as Hw.
  cbv zeta in Hw |- *. eapply wp_mono; [exact Hw|]. intros u leader (_ & _ & _ & Hf).
  eapply wp_mono; [exact (Hf two_decodable [[_; _]] new_rsm eq_refl eq_refl)|].
  intros v f' (_ & Hd). exact Hd.
Defined.
End Witness.
End Rsm.
