(* ===== verification/RaftGroup.v ===== *)
(** * A group of metadata servers

    The composition of the replicated state machines of [Rsm.v], one per server, over what braft
    gives them: one committed log, a copy of which every node applies from where it stands, with
    the closures of the entries that the node itself proposed since it was started; snapshots
    that stand for a prefix of the log; restarts, after which a node loads its last snapshot
    and applies the entries after it; and the installation of a snapshot of another node on a running
    node that is behind it, which loads it and goes on after it. Elections and replication are
    braft's and not part of the model: any node may propose, and the log only grows.

    Since [on_snapshot_load] does nothing, a node holds the effects of the entries that it has applied
    itself since it was started ([seen], their places in the log), which may have a gap wherever a
    snapshot was loaded. *)
From S2P Require Import Prelude Bytes Iobuf Uuid Proto Namespace Deva Op Rsm.
Import Proto.Proto Deva.Deva Op.Op Rsm.Rsm.
Set Default Goal Selector "!".
Local Open Scope Z_scope.

Module RaftGroup.

Section group.
Context `{IOBufOps} `{UuidOps} `{ProtoOps}.
(** The bytes behind an [OpMeta], and the time at which the entry of an index was made. *)
Context (padding : list byte) (now : Z → Z).

Record Node := mkNode {
  rsm : Rsm;
  seen : list nat;     (* places of the entries that it has applied since it started *)
  base : nat;          (* entries that the last snapshot it loaded since then stands for *)
  applied : nat;       (* entries that it has applied or that the snapshot stands for *)
  saved : nat;         (* entries that its last snapshot stands for *)
  mine : gset Z;       (* indices of the entries it has proposed since it started *)
}.
Definition set_rsm (r : Rsm) (n : Node) : Node := mkNode r (seen n) (base n) (applied n) (saved n) (mine n).

Record Group := mkGroup { log : list Request; nodes : gmap nat Node }.
Definition set_node (i : nat) (n : Node) (g : Group) : Group := mkGroup (log g) (<[i := n]> (nodes g)).

(** The log with the indices that raft gives its entries, from 1. *)
Definition indexed (l : list Request) : list (Z * Request) := imap (λ i q, (Z.of_nat (S i), q)) l.

(** The next [k] entries as [on_apply] of a node sees them. *)
Definition next_entries (l : list Request) (n : Node) (k : nat) : list Entry :=
  (λ '(i, q), mkEntry i (encode padding (op_of q) (now i) iob_empty)
     (if decide (i ∈ mine n) then Some (op_of q) else None)) <$>
  take k (drop (applied n) (indexed l)).

(** A node that was just started, on an empty container. *)
Definition started : Rsm := mkRsm true (-1) new_deva [] [].
Definition new_node : Node := mkNode started [] 0 0 0 ∅.

Inductive step (g : Group) : Group → Prop :=
| step_propose i n q :
    nodes g !! i = Some n → len_ok (op_of q) →
    step g (mkGroup (log g ++ [q])
              (<[i := mkNode (rsm n) (seen n) (base n) (applied n) (saved n)
                        ({[Z.of_nat (S (length (log g)))]} ∪ mine n)]> (nodes g)))
| step_apply i n k r :
    nodes g !! i = Some n → (applied n + k <= length (log g))%nat →
    on_apply (next_entries (log g) n k) (rsm n) = Some (tt, r) →
    step g (set_node i (mkNode r (seen n ++ seq (applied n) k) (base n) (applied n + k) (saved n) (mine n)) g)
| step_closure i n c r :
    nodes g !! i = Some n → run_closure c (rsm n) = Some (tt, r) →
    step g (set_node i (set_rsm r n) g)
| step_snapshot i n path done files r :
    nodes g !! i = Some n → on_snapshot_save 0 path done (rsm n) = Some (Some (files, done), r) →
    step g (set_node i (mkNode r (seen n) (base n) (applied n) (applied n) (mine n)) g)
| step_install i n j m r :
    nodes g !! i = Some n → nodes g !! j = Some m → (applied n <= saved m)%nat →
    on_snapshot_load false (rsm n) = Some (0, r) →
    step g (set_node i (mkNode r (seen n) (saved m) (saved m) (saved m) (mine n)) g)
| step_restart i n r :
    nodes g !! i = Some n → on_snapshot_load false started = Some (0, r) →
    step g (set_node i (mkNode r [] (saved n) (saved n) (saved n) ∅) g).

(** A group in which nothing has happened. *)
Definition fresh_group (g : Group) : Prop :=
  log g = [] ∧ ∀ i n, nodes g !! i = Some n → n = new_node.

(** The entries at some places of the log, and what a node that proposes nothing has to hold: what
    the entries that it has seen make. *)
Definition entries_at (l : list Request) (places : list nat) : list (Z * Request) :=
  omap (indexed l !!.) places.
Definition replays (l : list Request) (n : Node) : Prop :=
  replay (entries_at l (seen n)) new_deva = Some (_container (rsm n)).
End group.

(** ** Lemmas *)
Section lemmas.
Context `{IOBufLaws} `{UuidLaws} `{ProtoLaws} (padding : list byte) (padding_4 : length padding = 4%nat).
Context (now : Z → Z).
Implicit Types (g : Group) (n : Node) (l : list Request) (r : Rsm).

Lemma length_indexed l : length (indexed l) = length l.
Proof. apply length_imap. Qed.

Lemma indexed_app l1 l2 : ∃ l3 : list (Z * Request), indexed (l1 ++ l2) = indexed l1 ++ l3.
Proof. unfold indexed. rewrite imap_app. by eexists. Qed.

Lemma entries_at_grow l1 l2 places :
  Forall (λ j, (j < length l1)%nat) places → entries_at (l1 ++ l2) places = entries_at l1 places.
Proof.
  intros Hp. destruct (indexed_app l1 l2) as [l3 E]. unfold entries_at. rewrite E.
  induction Hp as [|j places Hj _ IH]; [done|]. cbn.
  by rewrite lookup_app_l, IH by (by rewrite length_indexed).
Qed.
Lemma entries_at_app l places1 places2 :
  entries_at l (places1 ++ places2) = entries_at l places1 ++ entries_at l places2.
Proof. apply omap_app. Qed.
Lemma entries_at_seq l a k :
  (a + k <= length l)%nat → entries_at l (seq a k) = take k (drop a (indexed l)).
Proof.
  intros Hk. unfold entries_at. rewrite <-(length_indexed l) in Hk. revert a Hk.
  induction k as [|k IH]; intros a Hk; [done|]. cbn [seq omap list_omap].
  destruct (lookup_lt_is_Some_2 (indexed l) a) as [x Hx]; [lia|]. rewrite Hx, IH by lia.
  by rewrite (drop_S _ _ _ Hx).
Qed.

Lemma elem_of_indexed i q l : (i, q) ∈ indexed l → q ∈ l.
Proof.
  unfold indexed. intros [k Hk]%list_elem_of_lookup_1. rewrite list_lookup_imap in Hk.
  destruct (l !! k) as [q'|] eqn:E; [|done]. injection Hk as _ <-. by eapply list_elem_of_lookup_2.
Qed.

(** If [on_apply] gets through entries without closures, it replayed them. *)
Lemma on_apply_replays log r r' :
  (∀ i q, (i, q) ∈ log → len_ok (op_of q)) →
  on_apply (follower_entries padding now log) r = Some (tt, r') →
  replay log (_container r) = Some (_container r') ∧ closures r' = closures r.
Proof.
  revert r; induction log as [|[i q] log IH]; intros r Hlen E.
  { by injection E as <-. }
  cbn [follower_entries fmap list_fmap on_apply] in E. apply bind_Some in E as ([] & r1 & E1 & E2).
  fold (follower_entries padding now log) in E2.
  assert (len_ok (op_of q)) as Hq by (apply (Hlen i); left).
  assert (request_type q ≠ kCreateDir) as Hdir.
  { intros Ht. destruct q; try done. unfold on_apply_one in E1. cbn [e_done e_data e_index] in E1.
    by rewrite decode_create_dir in E1. }
  destruct (on_apply_one_follower padding padding_4 i q (now i) r Hdir Hq) as (a & d & Ep & Eo).
  rewrite Eo in E1. injection E1 as <-.
  destruct (IH _ (λ j q' Hj, Hlen j q' (list_elem_of_further _ _ _ Hj)) E2) as [Er Ec].
  cbn [replay]. rewrite Ep. done.
Qed.

Lemma next_entries_follower l n k :
  mine n = ∅ → next_entries padding now l n k = follower_entries padding now (take k (drop (applied n) (indexed l))).
Proof. intros Hm. unfold next_entries, follower_entries. apply list_fmap_ext. intros j [i q] _. by rewrite Hm. Qed.

(** Increasing places followed by consecutive ones after them. *)
Lemma sorted_then_seq (early : list nat) a k :
  Forall (λ j, j < a)%nat early → StronglySorted lt early → StronglySorted lt (early ++ seq a k).
Proof.
  intros He Hso. induction Hso as [|j early Hso IH Hj]; cbn.
  - clear He. revert a. induction k as [|k IH]; intros a; cbn; constructor; [apply IH|].
    apply Forall_forall. intros j Hj%elem_of_seq. lia.
  - apply Forall_cons in He as [Hja He]. constructor; [by apply IH|]. apply Forall_app. split; [done|].
    apply Forall_forall. intros i Hi%elem_of_seq. lia.
Qed.

Record node_ok l n : Prop := {
  ok_base : (base n <= applied n)%nat;
  ok_saved : (saved n <= applied n)%nat;
  ok_applied : (applied n <= length l)%nat;
  ok_seen : ∃ early, seen n = early ++ seq (base n) (applied n - base n) ∧
    Forall (λ j, j < base n)%nat early ∧ StronglySorted lt early;
  ok_replays : mine n = ∅ → closures (rsm n) = [] ∧ replays l n;
}.

Lemma seen_below l n : node_ok l n → Forall (λ j, j < applied n)%nat (seen n).
Proof.
  intros [Hb _ _ (early & -> & He & _) _]. apply Forall_app. split.
  - eapply Forall_impl; [exact He|]. cbn. lia.
  - apply Forall_forall. intros j Hj%elem_of_seq. lia.
Qed.

Definition group_ok g : Prop :=
  (∀ q, q ∈ log g → len_ok (op_of q)) ∧ ∀ i n, nodes g !! i = Some n → node_ok (log g) n.

Lemma node_ok_grow l n q : node_ok l n → node_ok (l ++ [q]) n.
Proof.
  intros Hn. pose proof (seen_below l n Hn) as Hlt. destruct Hn as [Hb Hs Ha Hsn Hr].
  split; [done|done|rewrite length_app; cbn; lia|done|]. intros Hm.
  destruct (Hr Hm) as [Hc Hre]. split; [done|]. unfold replays in *. rewrite entries_at_grow; [done|].
  eapply Forall_impl; [exact Hlt|]. cbn. lia.
Qed.

Lemma group_ok_set i n g : group_ok g → node_ok (log g) n → group_ok (set_node i n g).
Proof.
  intros [Hl Hn] Hok. split; [exact Hl|]. intros j m Hj. cbn in Hj.
  apply lookup_insert_Some in Hj as [[<- <-]|[_ Hj]]; [done|by eapply Hn].
Qed.

(** Entries are applied at the end of what a node has seen. *)
Lemma apply_ok l n k r :
  (∀ q, q ∈ l → len_ok (op_of q)) → node_ok l n → (applied n + k <= length l)%nat →
  on_apply (next_entries padding now l n k) (rsm n) = Some (tt, r) →
  node_ok l (mkNode r (seen n ++ seq (applied n) k) (base n) (applied n + k) (saved n) (mine n)).
Proof.
  intros Hl [Hb Hs Ha (early & Hse & He & Hso) Hr] Hk E. split; cbn; [lia|lia|done| |].
  - exists early. split; [|done]. rewrite Hse, <-app_assoc. f_equal.
    replace (applied n + k - base n)%nat with ((applied n - base n) + k)%nat by lia.
    rewrite seq_app. do 2 f_equal. lia.
  - intros Hm. destruct (Hr Hm) as [Hc Hre]. rewrite next_entries_follower in E by done.
    apply on_apply_replays in E as [Er Ec].
    + rewrite Ec. split; [done|]. unfold replays in *. change (seen (mkNode _ ?s _ _ _ _)) with s. change (rsm (mkNode ?x _ _ _ _ _)) with x.
      by rewrite entries_at_app, entries_at_seq, replay_app, Hre.
    + intros j q Hj. apply Hl, (elem_of_indexed j).
      by apply subseteq_take, subseteq_drop in Hj.
Qed.

(** Loading a snapshot changes nothing. *)
Lemma load_changes_nothing r x r' : on_snapshot_load false r = Some (x, r') → r' = r.
Proof.
  unfold on_snapshot_load, is_leader. intros E. apply bind_Some in E as (l & r1 & E1 & E2).
  apply bind_Some in E1 as (? & ? & [= <- <-] & [= <- <-]). destruct (_node r); by injection E2 as _ <-.
Qed.

(** A snapshot is loaded after everything that the node has seen. *)
Lemma install_ok l n a r :
  node_ok l n → (applied n <= a <= length l)%nat → on_snapshot_load false (rsm n) = Some (0, r) →
  node_ok l (mkNode r (seen n) a a a (mine n)).
Proof.
  intros Hn [Hle Hal] E. pose proof (seen_below l n Hn) as Hlt. apply load_changes_nothing in E as ->.
  destruct Hn as [Hb Hs Ha (early & Hse & He & Hso) Hr].
  split; cbn; [done|done|done| |done]. exists (seen n). rewrite Nat.sub_diag, app_nil_r.
  split; [done|]. split.
  - eapply Forall_impl; [exact Hlt|]. cbn. lia.
  - rewrite Hse. by apply sorted_then_seq.
Qed.

Lemma step_ok g g' : group_ok g → step padding now g g' → group_ok g'.
Proof.
  intros Hg Hstep. pose proof Hg as [Hl Hn].
  destruct Hstep as [i n q En Hq|i n k r En Hk E|i n c r En E|i n path c files r En E
    |i n j m r En Em Hle E|i n r En E]; pose proof (Hn _ _ En) as Hok.
  - split.
    + intros q' [Hq'|Hq'%list_elem_of_singleton]%elem_of_app; [by apply Hl|by subst].
    + intros j m Hj. cbn in Hj. apply lookup_insert_Some in Hj as [[<- <-]|[_ Hj]];
        [|by eapply node_ok_grow, Hn].
      destruct (node_ok_grow _ _ q Hok). split; cbn; [done..|]. intros Hm. set_solver.
  - apply group_ok_set; [done|]. by apply apply_ok.
  - apply group_ok_set; [done|]. destruct Hok as [Hb Hs Ha Hse Hr].
    split; cbn; [done..|]. intros Hm. destruct (Hr Hm) as [Hc _].
    unfold run_closure in E. erewrite bind_step in E by done. by rewrite Hc in E.
  - apply group_ok_set; [done|]. injection E as _ <-. by destruct Hok.
  - apply group_ok_set; [done|]. apply install_ok; [done| |done].
    destruct (Hn _ _ Em). lia.
  - apply group_ok_set; [done|]. injection E as <-. destruct Hok as [Hb Hs Ha _ _].
    split; cbn; [done|done|lia| |done]. exists []. rewrite Nat.sub_diag. repeat constructor.
Qed.

Lemma fresh_ok g : fresh_group g → group_ok g.
Proof.
  intros [El Hn]. split.
  - rewrite El. by intros q ?%elem_of_nil.
  - intros i n Hi. rewrite (Hn _ _ Hi). split; cbn; [lia..| |done]. exists []. repeat constructor.
Qed.

Lemma reachable_ok g g' : group_ok g → rtc (step padding now) g g' → group_ok g'.
Proof. intros Hg Hr. induction Hr; eauto using step_ok. Qed.

(** A node that loaded no snapshot has seen everything up to where it stands. *)
Lemma seen_all l n : node_ok l n → base n = 0%nat → seen n = seq 0 (applied n).
Proof.
  intros [_ _ _ (early & -> & He & _) _] Hb. rewrite Hb, Nat.sub_0_r in *.
  destruct early as [|j early]; [done|]. apply Forall_cons in He as [? _]. lia.
Qed.

(** A node past a place of the log, with nothing from before it: no step takes it back. *)
Record node_past (a : nat) n : Prop := {
  past_base : (a <= base n)%nat;
  past_saved : (a <= saved n)%nat;
  past_applied : (a <= applied n)%nat;
  past_seen : Forall (λ j, a <= j)%nat (seen n);
}.
Lemma past_step a i g g' :
  step padding now g g' → (∀ m, nodes g !! i = Some m → node_past a m) →
  ∀ m, nodes g' !! i = Some m → node_past a m.
Proof.
  intros Hs Hp m Hm.
  destruct Hs as [j k q Ek _|j k c r Ek _ _|j k c r Ek _|j k path c files r Ek _|j k j' m' r Ek Em Hle _
    |j k r Ek _]; cbn in Hm; apply lookup_insert_Some in Hm as [[-> <-]|[_ Hm]]; try (by apply Hp);
    destruct (Hp _ Ek); split; cbn; try done; try lia.
  apply Forall_app. split; [done|]. apply Forall_forall. intros x Hx%elem_of_seq. lia.
Qed.
Lemma past_kept a i g g' :
  rtc (step padding now) g g' → (∀ m, nodes g !! i = Some m → node_past a m) →
  ∀ m, nodes g' !! i = Some m → node_past a m.
Proof. induction 1; eauto using past_step. Qed.

(** C4: In every state of the group, however its nodes propose, apply the log in batches, run
    closures, take snapshots, restart and, when they are behind, get the snapshot of another node
    installed while they run: a node that has proposed nothing since it started holds exactly the
    effects, one after the other, of the entries it has seen, in the order of the log; they are all
    the entries between the last snapshot it loaded and where it stands and, since loading a
    snapshot neither clears nor fills the container, those seen before that. Two such nodes that
    have seen the same entries agree, in particular two that loaded no snapshot and stand at the
    same entry. *)
Theorem group_agreement g0 g i1 n1 i2 n2 :
  fresh_group g0 → rtc (step padding now) g0 g →
  nodes g !! i1 = Some n1 → mine n1 = ∅ → nodes g !! i2 = Some n2 → mine n2 = ∅ →
  replays (log g) n1 ∧
  (∃ early, seen n1 = early ++ seq (base n1) (applied n1 - base n1) ∧
    Forall (λ j, j < base n1)%nat early ∧ StronglySorted lt early) ∧
  (seen n1 = seen n2 → _container (rsm n1) = _container (rsm n2)) ∧
  (base n1 = 0%nat → base n2 = 0%nat → applied n1 = applied n2 →
    _container (rsm n1) = _container (rsm n2)).
Proof.
  intros Hfresh Hr E1 M1 E2 M2. destruct (reachable_ok _ _ (fresh_ok _ Hfresh) Hr) as [_ Hn].
  pose proof (Hn _ _ E1) as Hn1. pose proof (Hn _ _ E2) as Hn2.
  destruct (ok_replays _ _ Hn1 M1) as [_ R1]. destruct (ok_replays _ _ Hn2 M2) as [_ R2].
  assert (seen n1 = seen n2 → _container (rsm n1) = _container (rsm n2)) as Hsame.
  { intros Es. unfold replays in R1, R2. rewrite Es, R2 in R1. by injection R1. }
  split_and!; [exact R1|exact (ok_seen _ _ Hn1)|exact Hsame|].
  intros B1 B2 Ea. apply Hsame. by rewrite (seen_all _ _ Hn1), (seen_all _ _ Hn2), Ea.
Qed.

(** C33: Snapshots hold nothing. Any node can take a snapshot and restart, and then stands where
    it stood with an empty container; whatever the group does afterwards (an installation of the
    snapshot of another node included), as long as the node proposes nothing it holds the effects
    of later entries only: the files made before are gone. *)
Theorem snapshot_forgets g0 g i n :
  fresh_group g0 → rtc (step padding now) g0 g → nodes g !! i = Some n →
  let n' := mkNode started [] (applied n) (applied n) (applied n) ∅ in
  rtc (step padding now) g (set_node i n' g) ∧
  ∀ g'' n'', rtc (step padding now) (set_node i n' g) g'' →
    nodes g'' !! i = Some n'' → mine n'' = ∅ →
    (applied n <= base n'')%nat ∧ Forall (λ j, applied n <= j)%nat (seen n'') ∧ replays (log g'') n''.
Proof.
  intros Hfresh Hr En n'. pose proof (reachable_ok _ _ (fresh_ok _ Hfresh) Hr) as Hg.
  assert (rtc (step padding now) g (set_node i n' g)) as Hr'.
  { eapply rtc_l; [by eapply (step_snapshot _ _ g i n "" 0 [] (rsm n))|].
    set (g1 := set_node i _ g). set (n1 := mkNode (rsm n) (seen n) (base n) (applied n) (applied n) (mine n)).
    assert (nodes g1 !! i = Some n1) as E1 by apply lookup_insert_eq.
    eapply rtc_l; [by eapply (step_restart _ _ g1 i n1 started)|].
    unfold g1, set_node. cbn. rewrite insert_insert_eq. apply rtc_refl. }
  split; [exact Hr'|]. intros g'' n'' Hr'' En'' Hm.
  pose proof (reachable_ok _ _ (reachable_ok _ _ Hg Hr') Hr'') as [_ Hn].
  assert (node_past (applied n) n'') as [Hb _ _ Hse].
  { eapply past_kept; [exact Hr''| |exact En'']. intros m. cbn. rewrite lookup_insert_eq.
    intros [= <-]. by split. }
  split_and!; [exact Hb|exact Hse|by apply (ok_replays _ _ (Hn _ _ En'') Hm)].
Qed.
End lemmas.

(** ** Witnesses: two nodes, one of which makes a file that the other one applies *)
Module Witness.
Import Namespace.Witness Deva.Witness Op.Witness.
#[local] Existing Instances ListIOBuf.ops ListIOBuf.laws HexUuid.ops HexUuid.laws CountProto.ops CountProto.laws.

Definition now0 (i : Z) : Z := 5.
Definition group0 : Group := mkGroup [] {[0%nat := new_node; 1%nat := new_node]}.
Definition proposer : Node := mkNode started [] 0 0 0 {[1]}.
Definition group1 : Group := mkGroup [CreateFileRequest request0] {[0%nat := proposer; 1%nat := new_node]}.
Definition follower_rsm : Rsm :=
  match on_apply (next_entries padding0 now0 (log group1) new_node 1) started with
  | Some (_, r) => r
  | None => started
  end.
Definition follower : Node := mkNode follower_rsm [0%nat] 0 1 0 ∅.
Definition group2 : Group := set_node 1 follower group1.

Lemma group0_fresh : fresh_group group0.
Proof.
  split; [done|]. intros i n. cbn.
  intros [[_ <-]|[_ [_ <-]%lookup_singleton_Some]]%lookup_insert_Some; done.
Qed.

Lemma group02 : rtc (step padding0 now0) group0 group2.
Proof.
  eapply rtc_l; [apply (step_propose _ _ group0 0 new_node (CreateFileRequest request0)); [done|]|].
  { apply request0_fits. }
  apply rtc_once. apply (step_apply padding0 now0 group1 1 new_node 1 follower_rsm).
  - done.
  - cbn. lia.
  - unfold follower_rsm. change (rsm new_node) with started.
    rewrite next_entries_follower by reflexivity.
    change (take 1 _) with Rsm.Witness.log0.
    pose proof (on_apply_follower padding0 eq_refl now0 _ started Rsm.Witness.log_decodable) as Hw.
    unfold wp in Hw. destruct (on_apply _ started) as [[[] r]|]; [reflexivity|destruct Hw].
Qed.
Lemma group2_follower : nodes group2 !! 1%nat = Some follower.
Proof. apply lookup_insert_eq. Qed.

Lemma group_agreement_witness : replays (log group2) follower.
Proof.
  exact (proj1 (group_agreement padding0 eq_refl now0 group0 group2 1 follower 1 follower group0_fresh group02
    group2_follower eq_refl group2_follower eq_refl)).
Defined.

Lemma snapshot_forgets_witness :
  rtc (step padding0 now0) group2 (set_node 1 (mkNode started [] 1 1 1 ∅) group2).
Proof.
  exact (proj1 (snapshot_forgets padding0 eq_refl now0 group0 group2 1 follower group0_fresh group02
    group2_follower)).
Defined.
End Witness.
End RaftGroup.
