(* ===== verification/DevaService.v ===== *)
(** * The metadata server's RPC handlers ([src/deva/deva_service_impl.cc], [src/deva/bridge.h])

    [OpenFile] and [Mkdir] turn a request into an operation, submit it to the replicated state
    machine with [bridge] and wait for the future that the operation's [OnFinish] fulfils. The
    model cuts each handler at that [get()]: the first part is a program on [Rsm] and says
    whether the handler waits; the second part is a function of the status and of the response
    that the operation delivers. The UUID and the three clock readings of a handler are
    arguments, and so is what raft makes of the operation ([Outcome]). The other handlers of the service are empty. *)
From S2P Require Import Prelude Bytes Iobuf Uuid Proto Namespace Deva Op Rsm.
Import Proto.Proto Deva.Deva Op.Op Rsm.Rsm.
Set Default Goal Selector "!".
Local Open Scope Z_scope.

Module DevaService.

(** ** Messages ([protocols/pain/proto/deva.proto]) *)
Record OpenFileRequest := mkOpenFileRequest { of_path : string; of_flags : Z }.
Record OpenFileResponse := mkOpenFileResponse { of_header : Header; of_file_info : FileInfo }.
Record MkdirRequest := mkMkdirRequest { md_path : string }.
Record MkdirResponse := mkMkdirResponse { md_header : Header; md_file_info : FileInfo }.

Definition OPEN_CREATE : Z := 4.
Definition ok_header : Header := mkHeader 0 "ok".

(** A handler that has answered, or that waits for the operation it submitted. *)
Inductive Handler (A : Type) := Done (response : A) | Waiting (op : Op).
Arguments Done {A} response.
Arguments Waiting {A} op.

Record Clock := mkClock { clock_a : Z; clock_m : Z; clock_c : Z }.

Section service.
Context `{IOBufOps} `{UuidOps} `{ProtoOps}.

(** The request that [OpenFile] ([mode] 0666) or [Mkdir] ([mode] 0777) submits. *)
Definition store_request (path : string) (id : UUID) (clock : Clock) (mode : Z) : CreateRequest :=
  mkCreateRequest path (uuid_msg id) (clock_a clock) (clock_m clock) (clock_c clock) mode 0 0.

(** [bridge(request, response)]: the log data handed to raft, if there is a node; the future
    waits in either case. *)
Definition bridge (padding : list byte) (request : Request) (now : Z) : Prog Rsm (option IOBuf) :=
  container_op_apply padding (op_of request) now.

(** [OpenFile] up to its end or to [get()]. *)
Definition OpenFile (padding : list byte) (now : Z) (file_id : UUID) (clock : Clock)
    (request : OpenFileRequest) (response : OpenFileResponse) :
    Prog Rsm (Handler OpenFileResponse * option IOBuf) :=
  if negb (Z.land (of_flags request) OPEN_CREATE =? 0) then
    let create_request := CreateFileRequest (store_request (of_path request) file_id clock 438) in
    data ← bridge padding create_request now;
    mret (Waiting (op_of create_request), data)
  else mret (Done (mkOpenFileResponse ok_header (of_file_info response)), None).

(** [OpenFile] from the delivered status and response on. *)
Definition OpenFile_resume (status : Status) (create_response : Response)
    (response : OpenFileResponse) : OpenFileResponse :=
  if negb (ok status)
  then mkOpenFileResponse (status_header status) (of_file_info response)
  else mkOpenFileResponse ok_header (file_info create_response).

(** [Mkdir] up to [get()]. *)
Definition Mkdir (padding : list byte) (now : Z) (dir_id : UUID) (clock : Clock)
    (request : MkdirRequest) : Prog Rsm (Handler MkdirResponse * option IOBuf) :=
  let create_request := CreateDirRequest (store_request (md_path request) dir_id clock 511) in
  data ← bridge padding create_request now;
  mret (Waiting (op_of create_request), data).

(** [Mkdir] from the delivered status on: the delivered response is not used. *)
Definition Mkdir_resume (status : Status) (response : MkdirResponse) : MkdirResponse :=
  if negb (ok status)
  then mkMkdirResponse (status_header status) (md_file_info response)
  else response.

(** The empty handlers leave the response as it is. *)
Definition CloseFile {A} (response : A) : Prog Rsm A := mret response.
Definition RemoveFile {A} (response : A) : Prog Rsm A := mret response.
Definition SealFile {A} (response : A) : Prog Rsm A := mret response.
Definition NewChunk {A} (response : A) : Prog Rsm A := mret response.
Definition CheckInChunk {A} (response : A) : Prog Rsm A := mret response.
Definition SealChunk {A} (response : A) : Prog Rsm A := mret response.
Definition SealAndNewChunk {A} (response : A) : Prog Rsm A := mret response.

Definition default_open_response : OpenFileResponse := mkOpenFileResponse default_header default_file_info.
Definition default_mkdir_response : MkdirResponse := mkMkdirResponse default_header default_file_info.

(** What raft makes of a submitted operation: it commits it at an index of the log, or it
    refuses it, on a node that does not lead for example. *)
Inductive Outcome := Committed (index : Z) | Refused (status : Status).

(** What happens to a submitted operation on the node that submitted it: once raft has
    committed it, [on_apply] sees it with its closure, and the closure runs; when raft refuses it,
    the closure runs with the reason. The delivered status and response, if any. *)
Definition commit (op : Op) (outcome : Outcome) (data : IOBuf) : Prog Rsm (option (Status * Response)) :=
  match outcome with
  | Committed index => on_apply [mkEntry index data (Some op)];; run_closure 0
  | Refused status => refuse status op
  end;;
  r ← get;
  mret ((λ x, (snd (fst x), snd x)) <$> last (replies r)).

(** An [OpenFile] from its request to its answer; [None] when it waits for ever. *)
Definition open_file (padding : list byte) (now : Z) (file_id : UUID) (clock : Clock)
    (outcome : Outcome) (request : OpenFileRequest) : Prog Rsm (option OpenFileResponse) :=
  '(handler, data) ← OpenFile padding now file_id clock request default_open_response;
  match handler, data with
  | Done response, _ => mret (Some response)
  | Waiting op, None => mret None
  | Waiting op, Some data =>
      r ← commit op outcome data;
      mret ((λ '(st, resp), OpenFile_resume st resp default_open_response) <$> r)
  end.

(** The same for [Mkdir]. *)
Definition mkdir (padding : list byte) (now : Z) (dir_id : UUID) (clock : Clock)
    (outcome : Outcome) (request : MkdirRequest) : Prog Rsm (option MkdirResponse) :=
  '(handler, data) ← Mkdir padding now dir_id clock request;
  match handler, data with
  | Done response, _ => mret (Some response)
  | Waiting op, None => mret None
  | Waiting op, Some data =>
      r ← commit op outcome data;
      mret ((λ '(st, resp), Mkdir_resume st default_mkdir_response) <$> r)
  end.
End service.

(** ** Lemmas *)
Section lemmas.
Context `{IOBufLaws} `{UuidLaws} `{ProtoLaws} (padding : list byte) (padding_4 : length padding = 4%nat).
Implicit Types (r : Rsm).

Lemma bridge_eq q now r :
  bridge padding q now r =
  Some (if _node r then Some (encode padding (op_of q) now iob_empty) else None, r).
Proof. unfold bridge, container_op_apply, apply. by erewrite bind_step by done. Qed.

Lemma commit_eq q index data r st resp d :
  closures r = [] → process q default_response index (_container r) = Some ((st, resp), d) →
  ∃ r', commit (op_of q) (Committed index) data r = Some (Some (st, resp), r') ∧ _container r' = d ∧
    _node r' = _node r ∧ closures r' = [].
Proof.
  intros Ec Ep. set (r1 := set_closures [mkOpClosure (op_of q) index] r).
  assert (on_apply [mkEntry index data (Some (op_of q))] r = Some (tt, r1)) as E1.
  { cbn [on_apply]. erewrite bind_step by done. cbn. by rewrite Ec. }
  unfold commit. erewrite bind_step.
  2: { rewrite (bind_step _ _ _ _ _ E1).
       exact (run_closure_at 0 index q r1 st resp d eq_refl Ep). }
  erewrite bind_step by done. cbn [replies r1 set_closures]. rewrite last_snoc. cbn.
  eexists. split; [reflexivity|]. done.
Qed.

(** Raft refuses: its status is delivered, with an empty response, and nothing is applied. *)
Lemma commit_refused op st data r :
  ok st = false →
  ∃ r', commit op (Refused st) data r = Some (Some (st, default_response), r') ∧
    _container r' = _container r ∧ _node r' = _node r ∧ closures r' = closures r.
Proof.
  intros Hst. unfold commit, refuse, closure_run. rewrite Hst. cbn [on_finish].
  erewrite bind_step by done. erewrite bind_step by done. cbn [replies]. rewrite last_snoc.
  eexists. split; [reflexivity|]. done.
Qed.

(** A node that refuses, because another one leads: [OpenFile] with [OPEN_CREATE] and [Mkdir]
    answer with raft's status and change nothing. *)
Lemma refused_eq id clock now st path flags r :
  _node r = true → ok st = false →
  (Z.land flags OPEN_CREATE ≠ 0 →
   ∃ r', open_file padding now id clock (Refused st) (mkOpenFileRequest path flags) r =
           Some (Some (mkOpenFileResponse (status_header st) default_file_info), r') ∧
         _container r' = _container r) ∧
  ∃ r', mkdir padding now id clock (Refused st) (mkMkdirRequest path) r =
          Some (Some (mkMkdirResponse (status_header st) default_file_info), r') ∧
        _container r' = _container r.
Proof.
  intros Hnode Hst. split; [intros Hfl|].
  - set (q := CreateFileRequest (store_request path id clock 438)).
    destruct (commit_refused (op_of q) st (encode padding (op_of q) now iob_empty) r Hst) as (r' & Ec & Ed & _).
    exists r'. split; [|done]. unfold open_file. erewrite bind_step.
    2: { unfold OpenFile. cbn [of_flags of_path]. rewrite (proj2 (Z.eqb_neq _ _)) by done. cbn [negb].
         erewrite bind_step by apply bridge_eq. by rewrite Hnode. }
    cbv beta iota. erewrite bind_step by exact Ec. unfold OpenFile_resume. cbn. by rewrite Hst.
  - set (q := CreateDirRequest (store_request path id clock 511)).
    destruct (commit_refused (op_of q) st (encode padding (op_of q) now iob_empty) r Hst) as (r' & Ec & Ed & _).
    exists r'. split; [|done]. unfold mkdir. erewrite bind_step.
    2: { unfold Mkdir. erewrite bind_step by apply bridge_eq. by rewrite Hnode. }
    cbv beta iota. erewrite bind_step by exact Ec. unfold Mkdir_resume. cbn. by rewrite Hst.
Qed.

(** [OpenFile] with [OPEN_CREATE] and [Mkdir] on a node that leads, by what the command does. *)
Lemma open_file_eq id clock now index path flags r st resp d :
  _node r = true → closures r = [] → Z.land flags OPEN_CREATE ≠ 0 →
  process (create_request Namespace.kFile (store_request path id clock 438)) default_response index
    (_container r) = Some ((st, resp), d) →
  ∃ r', open_file padding now id clock (Committed index) (mkOpenFileRequest path flags) r =
          Some (Some (OpenFile_resume st resp default_open_response), r') ∧
        _container r' = d ∧ _node r' = true ∧ closures r' = [].
Proof.
  intros Hnode Hcl Hfl Ep. set (q := create_request Namespace.kFile _) in *.
  destruct (commit_eq q index (encode padding (op_of q) now iob_empty) r st resp d Hcl Ep)
    as (r' & Ec & Ed & En & Ecl).
  exists r'. split_and!; [|done|by rewrite En|done]. unfold open_file. erewrite bind_step.
  2: { unfold OpenFile. cbn [of_flags of_path]. rewrite (proj2 (Z.eqb_neq _ _)) by done. cbn [negb].
       erewrite bind_step by apply bridge_eq. by rewrite Hnode. }
  cbv beta iota. erewrite bind_step by exact Ec. done.
Qed.

Lemma mkdir_eq id clock now index path r st resp d :
  _node r = true → closures r = [] →
  process (create_request Namespace.kDirectory (store_request path id clock 511)) default_response
    index (_container r) = Some ((st, resp), d) →
  ∃ r', mkdir padding now id clock (Committed index) (mkMkdirRequest path) r =
          Some (Some (Mkdir_resume st default_mkdir_response), r') ∧
        _container r' = d ∧ _node r' = true ∧ closures r' = [].
Proof.
  intros Hnode Hcl Ep. set (q := create_request Namespace.kDirectory _) in *.
  destruct (commit_eq q index (encode padding (op_of q) now iob_empty) r st resp d Hcl Ep)
    as (r' & Ec & Ed & En & Ecl).
  exists r'. split_and!; [|done|by rewrite En|done]. unfold mkdir. erewrite bind_step.
  2: { unfold Mkdir. erewrite bind_step by apply bridge_eq. by rewrite Hnode. }
  cbv beta iota. erewrite bind_step by exact Ec. done.
Qed.

(** The command of a creation in an existing directory. *)
Lemma process_creates cs nm t id clock mode index d parent es :
  (∀ c, c ∈ cs → Namespace.is_name c) → Namespace.is_name nm →
  finds d (Namespace.join cs +:+ "/") parent Namespace.kDirectory →
  Namespace._entries (Deva._namespace d) !! parent = Some es →
  Namespace.find_entry nm es = None → Namespace._entries (Deva._namespace d) !! id = None →
  let q := store_request (file_path cs nm) id clock mode in
  ∃ d', process (create_request t q) default_response index d =
          Some ((OK, mkResponse (new_file_info id (proto_type t) q)), d') ∧
        finds d' (file_path cs nm) id t.
Proof.
  intros Hcs Hnm Hdir E Hnew Hfresh q. assert (msg_uuid (cr_id q) = id) as Eid by apply msg_uuid_msg.
  assert (Namespace.clean nm) as Hc by apply Hnm.
  pose proof (process_create cs nm t q default_response index _ parent es Hcs Hc eq_refl Hdir E) as Ep.
  cbv zeta in Ep. rewrite Eid in Ep. eexists. split; [exact Ep|]. split; [apply Namespace.join_slash|].
  unfold file_path. rewrite Namespace.words_file by done. destruct Hdir as [_ Hr].
  rewrite Namespace.words_dir in Hr by done. by apply Namespace.created_resolves.
Qed.

(** [OpenFile] with [OPEN_CREATE] on a node that leads, for an absolute path whose parent is
    a directory without that name, answers OK with the information of a new file of mode 0666,
    owned by root; its path then resolves to the new file's id. [Mkdir] at such a path makes a directory
    that resolves as well, but answers nothing about it: its response stays empty. *)
Theorem open_file_creates cs nm id clock now index flags r parent es :
  (∀ c, c ∈ cs → Namespace.is_name c) → Namespace.is_name nm →
  finds (_container r) (Namespace.join cs +:+ "/") parent Namespace.kDirectory →
  Namespace._entries (Deva._namespace (_container r)) !! parent = Some es →
  Namespace.find_entry nm es = None →
  Namespace._entries (Deva._namespace (_container r)) !! id = None →
  _node r = true → closures r = [] → Z.land flags OPEN_CREATE ≠ 0 →
  let path := file_path cs nm in
  wp (open_file padding now id clock (Committed index) (mkOpenFileRequest path flags)) r (λ response r',
    response = Some (mkOpenFileResponse ok_header
      (mkFileInfo (uuid_msg id) FILE_TYPE_FILE 0 (clock_a clock) (clock_m clock) (clock_c clock) 438 0 0)) ∧
    finds (_container r') path id Namespace.kFile) ∧
  wp (mkdir padding now id clock (Committed index) (mkMkdirRequest path)) r (λ response r',
    response = Some default_mkdir_response ∧ finds (_container r') path id Namespace.kDirectory).
Proof.
  intros Hcs Hnm Hdir E Hnew Hfresh Hnode Hcl Hfl path. split.
  - destruct (process_creates cs nm Namespace.kFile id clock 438 index _ parent es
      Hcs Hnm Hdir E Hnew Hfresh) as (d & Ep & Hf).
    destruct (open_file_eq id clock now index path flags r _ _ d Hnode Hcl Hfl Ep) as (r' & Eo & <- & _).
    by eapply wp_eval.
  - destruct (process_creates cs nm Namespace.kDirectory id clock 511 index _ parent es
      Hcs Hnm Hdir E Hnew Hfresh) as (d & Ep & Hf).
    destruct (mkdir_eq id clock now index path r _ _ d Hnode Hcl Ep) as (r' & Eo & <- & _).
    by eapply wp_eval.
Qed.

(** Without a node the request is dropped and the handler waits for ever. *)
Lemma open_file_hangs id clock now index path flags r :
  _node r = false → Z.land flags OPEN_CREATE ≠ 0 →
  open_file padding now id clock (Committed index) (mkOpenFileRequest path flags) r = Some (None, r).
Proof.
  intros Hnode Hfl. unfold open_file. erewrite bind_step.
  2: { unfold OpenFile. cbn [of_flags of_path]. rewrite (proj2 (Z.eqb_neq _ _)) by done. cbn [negb].
       erewrite bind_step by apply bridge_eq. by rewrite Hnode. }
  done.
Qed.

(** Without [OPEN_CREATE] the answer is OK and empty, whether the path exists or not. *)
Lemma open_file_blind id clock now index path flags r :
  Z.land flags OPEN_CREATE = 0 →
  open_file padding now id clock (Committed index) (mkOpenFileRequest path flags) r =
  Some (Some (mkOpenFileResponse ok_header default_file_info), r).
Proof.
  intros Hfl. unfold open_file. erewrite bind_step.
  2: { unfold OpenFile. cbn [of_flags]. by rewrite Hfl. }
  done.
Qed.
End lemmas.

Module Witness.
Import Namespace.Witness Deva.Witness Op.Witness.
#[local] Existing Instances ListIOBuf.ops ListIOBuf.laws HexUuid.ops HexUuid.laws CountProto.ops CountProto.laws.

Definition leader0 : Rsm := mkRsm true 1 new_deva [] [].

Lemma create_flag : Z.land 4 OPEN_CREATE ≠ 0.
Proof. vm_compute. discriminate. Qed.

Lemma open_file_creates_witness :
  wp (open_file padding0 5 ino1 (mkClock 1 2 3) (Committed 1) (mkOpenFileRequest "/a" 4)) leader0 (λ response r',
    (∃ info, response = Some (mkOpenFileResponse ok_header info)) ∧
    finds (_container r') "/a" ino1 Namespace.kFile).
Proof.
  pose proof (open_file_creates padding0 [] "a" ino1 (mkClock 1 2 3) 5 1 4 leader0 _ []
    no_components name_a root_found ns0_root eq_refl ino1_fresh eq_refl eq_refl create_flag) as Hw.
  cbv zeta in Hw. eapply wp_mono; [exact (proj1 Hw)|]. intros response r' [E Hf].
  split; [eexists; exact E|exact Hf].
Defined.
End Witness.
End DevaService.
