(* ===== verification/KvStore.v ===== *)
(** * The key-value store of the registry: the interface ([src/common/store.h])

    [Store] is an abstract class "like redis": [KvOps] lists its virtual functions, [KvLaws]
    what its client ([AsuraServiceImpl]) relies on: the store holds a map from pairs of a key
    and a field to values. [RocksdbStore.v] proves the laws for keys none of which is a prefix
    of another one's entries ([Separated]).

    A loop over an iterator gets the number of rounds it may take as an argument [fuel];
    running out of it is [None]. *)
From S2P Require Import Prelude.
Set Default Goal Selector "!".

(** [Store::Iterator]. *)
Class IteratorOps (It : Type) := {
  it_valid : It → bool;
  it_key : It → string;
  it_value : It → string;
  it_next : It → It;
}.

(** The virtual functions of [Store]. *)
Class KvOps (St It : Type) `{IteratorOps It} := {
  hset : string → string → string → Prog St Status;
  hget : string → string → option string → Prog St (Status * option string);
  hdel : string → string → Prog St Status;
  hlen : nat → string → option Z → Prog St (Status * option Z);
  hgetall : string → Prog St It;
  hexists : string → string → Prog St bool;
}.

Section iteration.
Context `{IteratorOps It}.

(** [while (it->valid()) { body; it->next(); }], where [body] acts on a local variable. *)
Fixpoint iterate {A} (fuel : nat) (body : It → A → A) (it : It) (a : A) : option A :=
  match fuel with
  | O => None
  | S fuel => if it_valid it then iterate fuel body (it_next it) (body it a) else Some a
  end.

(** What an iterator yields: the entries it is going through, in order. *)
Inductive yields : It → list (string * string) → Prop :=
| yields_end it : it_valid it = false → yields it []
| yields_next it es : it_valid it = true → yields (it_next it) es →
    yields it ((it_key it, it_value it) :: es).
End iteration.

(** The map a store holds: hashes by key. *)
Abbreviation Hashes := (gmap (string * string) string).

(** The values of the hash of a key. *)
Definition hash (h : Hashes) (k : string) : Hashes := filter (λ x, fst (fst x) = k) h.
Definition hash_values (h : Hashes) (k : string) : list string := snd <$> map_to_list (hash h k).

(** The promise of a store to clients that only use keys in [K]. Writes may fail. *)
Class KvLaws `{KvOps St It} (K : string → Prop) := {
  kv_rep : St → Hashes → Prop;
  hset_law k f v s h : K k → kv_rep s h →
    wp (hset k f v) s (λ st s', kv_rep s' (if ok st then <[(k, f) := v]> h else h));
  hdel_law k f s h : K k → kv_rep s h →
    wp (hdel k f) s (λ st s', kv_rep s' (if ok st then delete (k, f) h else h));
  hget_law k f v s h : K k → kv_rep s h →
    wp (hget k f (Some v)) s (λ '(st, out) s', s' = s ∧
      match h !! (k, f) with
      | Some w => ok st = true ∧ out = Some w
      | None => ok st = false
      end);
  hexists_law k f s h : K k → kv_rep s h →
    wp (hexists k f) s (λ b s', s' = s ∧ b = bool_decide (is_Some (h !! (k, f))));
  hlen_law k fuel n s h : K k → kv_rep s h → (size h < fuel)%nat →
    wp (hlen fuel k (Some n)) s (λ '(st, out) s', s' = s ∧ ok st = true ∧
      out = Some (u64 (Z.of_nat (size (hash h k)))));
  hgetall_law k s h : K k → kv_rep s h →
    wp (hgetall k) s (λ it s', s' = s ∧
      ∃ es, yields it es ∧ snd <$> es ≡ₚ hash_values h k);
}.

(** ** Lemmas *)
Section lemmas.
Context `{IteratorOps It}.

Lemma iterate_yields {A} (body : It → A → A) (f : string → string → A → A) it es fuel a :
  (∀ it a, body it a = f (it_key it) (it_value it) a) →
  yields it es → length es < fuel →
  iterate fuel body it a = Some (foldl (λ a e, f (fst e) (snd e) a) a es).
Proof.
  intros Hb Hy. revert fuel a; induction Hy as [it E|it es E Hy IH]; intros [|fuel] a Hf;
    cbn [length] in Hf; try lia; cbn [iterate foldl]; rewrite E; [done|].
  rewrite IH, Hb by lia. done.
Qed.

Lemma foldl_snoc {A B} (g : A → B) es l : foldl (λ l e, l ++ [g e]) l es = l ++ (g <$> es).
Proof.
  revert l; induction es as [|e es IH]; intros l; cbn; [by rewrite app_nil_r|].
  by rewrite IH, <-app_assoc.
Qed.

Lemma foldl_count {A} (es : list A) (n : Z) :
  foldl (λ n _, u64 (n + 1)) (u64 n) es = u64 (n + Z.of_nat (length es)).
Proof.
  revert n; induction es as [|e es IH]; intros n; cbn [foldl length]; [by rewrite Z.add_0_r|].
  rewrite u64_add_idemp_l, IH. f_equal. lia.
Qed.

Lemma length_hash_values h k : length (hash_values h k) <= size h.
Proof.
  unfold hash_values, hash. rewrite length_fmap, length_map_to_list.
  apply map_subseteq_size, map_filter_subseteq.
Qed.

Lemma elem_of_hash_values h k v : v ∈ hash_values h k ↔ ∃ f, h !! (k, f) = Some v.
Proof.
  unfold hash_values, hash. rewrite list_elem_of_fmap. split.
  - intros ([[k' f] v'] & -> & Hin%elem_of_map_to_list). apply map_lookup_filter_Some in Hin as [E Hk].
    cbn in *. subst k'. by exists f.
  - intros [f E]. exists ((k, f), v). split; [done|]. apply elem_of_map_to_list.
    by apply map_lookup_filter_Some.
Qed.
End lemmas.

(** ** Sequences of commands *)
Inductive KvCmd :=
| CSet (k f v : string) | CDel (k f : string) | CGet (k f : string) | CExists (k f : string)
| CLen (k : string) | CGetAll (k : string).

Inductive KvAnswer :=
| AStatus (ok : bool) | AValue (v : option string) | ABool (b : bool) | ALen (n : Z)
| AValues (vs : list string).

Definition cmd_key (c : KvCmd) : string :=
  match c with
  | CSet k _ _ | CDel k _ | CGet k _ | CExists k _ | CLen k | CGetAll k => k
  end.

(** One command on a store; [CGetAll] reads the values from the iterator. *)
Definition exec_cmd `{KvOps St It} (fuel : nat) (c : KvCmd) : Prog St KvAnswer :=
  match c with
  | CSet k f v => st ← hset k f v; mret (AStatus (ok st))
  | CDel k f => st ← hdel k f; mret (AStatus (ok st))
  | CGet k f => '(st, v) ← hget k f (Some ""); mret (AValue (if ok st then v else None))
  | CExists k f => b ← hexists k f; mret (ABool b)
  | CLen k => '(_, n) ← hlen fuel k (Some 0%Z); match n with None => abort | Some n => mret (ALen n) end
  | CGetAll k =>
      it ← hgetall k;
      match iterate fuel (λ it vs, vs ++ [it_value it]) it [] with
      | None => abort
      | Some vs => mret (AValues vs)
      end
  end.

Fixpoint exec_cmds `{KvOps St It} (fuel : nat) (cs : list KvCmd) : Prog St (list KvAnswer) :=
  match cs with
  | [] => mret []
  | c :: rest => a ← exec_cmd fuel c; l ← exec_cmds fuel rest; mret (a :: l)
  end.

(** The same on hashes. A write is applied exactly when it is answered by success. *)
Inductive spec_cmd (h : Hashes) : KvCmd → KvAnswer → Hashes → Prop :=
| spec_set k f v b : spec_cmd h (CSet k f v) (AStatus b) (if b then <[(k, f) := v]> h else h)
| spec_del k f b : spec_cmd h (CDel k f) (AStatus b) (if b then delete (k, f) h else h)
| spec_get k f : spec_cmd h (CGet k f) (AValue (h !! (k, f))) h
| spec_exists k f : spec_cmd h (CExists k f) (ABool (bool_decide (is_Some (h !! (k, f))))) h
| spec_len k : spec_cmd h (CLen k) (ALen (u64 (Z.of_nat (size (hash h k))))) h
| spec_get_all k vs : vs ≡ₚ hash_values h k → spec_cmd h (CGetAll k) (AValues vs) h.

Inductive spec_cmds : Hashes → list KvCmd → list KvAnswer → Hashes → Prop :=
| spec_nil h : spec_cmds h [] [] h
| spec_cons h c a h' cs l h'' :
    spec_cmd h c a h' → spec_cmds h' cs l h'' → spec_cmds h (c :: cs) (a :: l) h''.

Section refinement.
Context `{KvLaws St It K}.

Lemma exec_cmd_refines fuel c s h :
  K (cmd_key c) → kv_rep s h → size h < fuel →
  wp (exec_cmd fuel c) s (λ a s', ∃ h', spec_cmd h c a h' ∧ kv_rep s' h' ∧ size h' <= S (size h)).
Proof.
  intros Hk Hr Hf. assert (∀ k f v, size (<[(k, f) := v]> h) <= S (size h)) as Hins.
  { intros k f v. destruct (h !! (k, f)) eqn:E.
    - rewrite map_size_insert_Some; [lia|by eexists].
    - rewrite map_size_insert_None; [lia|done]. }
  assert (∀ k f, size (delete (k, f) h) <= S (size h)) as Hdel.
  { intros k f. pose proof (map_subseteq_size _ _ (delete_subseteq h (k, f))). lia. }
  destruct c as [k f v|k f|k f|k f|k|k]; cbn [exec_cmd cmd_key] in *; apply wp_bind.
  - eapply wp_mono; [by apply hset_law|]. cbv beta. intros st s' Hr'. eapply wp_eval; [done|].
    eexists. split_and!; [constructor|exact Hr'|]. destruct (ok st); [apply Hins|lia].
  - eapply wp_mono; [by apply hdel_law|]. cbv beta. intros st s' Hr'. eapply wp_eval; [done|].
    eexists. split_and!; [constructor|exact Hr'|]. destruct (ok st); [apply Hdel|lia].
  - eapply wp_mono; [by apply hget_law|]. intros [st out] s' [-> Ho]. eapply wp_eval; [done|].
    exists h. split_and!; [|done|lia]. destruct (h !! (k, f)) as [w|] eqn:E.
    + destruct Ho as [-> ->]. rewrite <-E. constructor.
    + rewrite Ho, <-E. constructor.
  - eapply wp_mono; [by apply hexists_law|]. intros b s' [-> ->]. eapply wp_eval; [done|].
    exists h. split_and!; [constructor|done|lia].
  - eapply wp_mono; [by apply hlen_law|]. intros [st out] s' (-> & _ & ->). eapply wp_eval; [done|].
    exists h. split_and!; [constructor|done|lia].
  - eapply wp_mono; [by apply hgetall_law|]. intros it s' (-> & es & Hy & Hp).
    assert (length es < fuel).
    { pose proof (length_hash_values h k). rewrite <-Hp, length_fmap in *. lia. }
    rewrite (iterate_yields _ (λ _ v vs, vs ++ [v]) it es) by done. eapply wp_eval; [done|].
    exists h. split_and!; [|done|lia]. constructor. by rewrite (foldl_snoc snd).
Qed.

Lemma exec_cmds_refines fuel cs s h :
  (∀ c, c ∈ cs → K (cmd_key c)) → kv_rep s h → size h + length cs < fuel →
  wp (exec_cmds fuel cs) s (λ l s', ∃ h', spec_cmds h cs l h' ∧ kv_rep s' h').
Proof.
  revert s h; induction cs as [|c cs IH]; intros s h Hk Hr Hf; cbn [exec_cmds length] in *.
  { eapply wp_eval; [done|]. exists h. split; [constructor|done]. }
  apply wp_bind. eapply wp_mono; [apply exec_cmd_refines; [apply Hk; left|done|lia]|].
  cbv beta. intros a s1 (h1 & Hc & Hr1 & Hs). apply wp_bind.
  eapply wp_mono; [apply (IH s1 h1); [|done|lia]|].
  { intros c' Hc'. apply Hk. by right. }
  cbv beta. intros l s2 (h2 & Hcs & Hr2). eapply wp_eval; [done|]. exists h2.
  split; [by econstructor|done].
Qed.
End refinement.
