(* ===== verification/RocksdbStore.v ===== *)
(** * The key-value store on RocksDB ([src/common/rocksdb_store.h], [src/common/rocksdb_store.cc])

    RocksDB and braft's file system adaptor are third-party code. [RocksdbOps] and [DiskOps]
    list what the sources call, [RocksdbLaws] and [DiskLaws] the documented behaviour on the
    sorted key space of a database and on the databases in the directories of a disk;
    [DiskReliable] says that calls which can succeed do. A [rocksdb::Status] is [None] when it
    is ok and the text of [ToString()] otherwise. Log output is left out.

    The members of a [RocksdbStore] are separate from the disk: a database that is open may
    keep writes in memory (the sources disable the write-ahead log) until it is closed. *)
From S2P Require Import Prelude KvStore.
From Stdlib Require Import Strings.Ascii.
Set Default Goal Selector "!".

Definition RStatus : Type := option string.

(** ** Keys *)

(** The order of the default comparator: bytes, as unsigned numbers. *)
Fixpoint str_ltb (a b : string) : bool :=
  match a, b with
  | _, EmptyString => false
  | EmptyString, String _ _ => true
  | String c a, String d b =>
      (N_of_ascii c <? N_of_ascii d)%N || (Ascii.eqb c d && str_ltb a b)
  end.

(** [Slice::starts_with]. *)
Fixpoint starts_with (p s : string) : bool :=
  match p, s with
  | EmptyString, _ => true
  | String _ _, EmptyString => false
  | String c p, String d s => Ascii.eqb c d && starts_with p s
  end.

(** [RocksdbStore::make_key]. *)
Definition make_key (key field : string) : string := key +:+ "_" +:+ field.

Fixpoint drop_while {A} (p : A → bool) (l : list A) : list A :=
  match l with
  | [] => []
  | x :: l' => if p x then drop_while p l' else l
  end.
Fixpoint take_while {A} (p : A → bool) (l : list A) : list A :=
  match l with
  | [] => []
  | x :: l' => if p x then x :: take_while p l' else []
  end.

(** ** The database *)
Class RocksdbOps (DB RIt : Type) := {
  db_put : string → string → DB → RStatus * DB;
  db_get : string → string → DB → RStatus * string;      (* and what [*value] is afterwards *)
  db_delete : string → DB → RStatus * DB;
  db_new_iterator : DB → RIt;
  rit_seek : string → RIt → RIt;
  rit_valid : RIt → bool;
  rit_key : RIt → string;
  rit_value : RIt → string;
  rit_next : RIt → RIt;
}.

Class RocksdbLaws `{RocksdbOps DB RIt} := {
  db_content : DB → gmap string string;
  rit_all : RIt → list (string * string);       (* the snapshot of an iterator *)
  rit_rest : RIt → list (string * string);      (* the current entry and those behind it *)
  db_put_law k v db st db' : db_put k v db = (st, db') →
    db_content db' = if decide (st = None) then <[k := v]> (db_content db) else db_content db;
  db_delete_law k db st db' : db_delete k db = (st, db') →
    db_content db' = if decide (st = None) then delete k (db_content db) else db_content db;
  db_get_found k v w db : db_content db !! k = Some w → db_get k v db = (None, w);
  db_get_missing k v db : db_content db !! k = None → fst (db_get k v db) ≠ None;
  rit_new_all db k v : (k, v) ∈ rit_all (db_new_iterator db) ↔ db_content db !! k = Some v;
  rit_new_sorted db :
    StronglySorted (λ e1 e2, str_ltb (fst e1) (fst e2) = true) (rit_all (db_new_iterator db));
  rit_seek_law k it : rit_rest (rit_seek k it) = drop_while (λ e, str_ltb (fst e) k) (rit_all it);
  rit_valid_law it : rit_valid it = match rit_rest it with [] => false | _ => true end;
  rit_current_law it e es : rit_rest it = e :: es → (rit_key it, rit_value it) = e;
  rit_next_law it e es : rit_rest it = e :: es → rit_rest (rit_next it) = es;
}.

(** ** The disk *)
Class DiskOps (DB Disk : Type) := {
  (* [DB::Open] with [create_if_missing], [DB::OpenForReadOnly] *)
  db_open : bool → string → Disk → RStatus * DB * Disk;
  db_open_read_only : string → Disk → RStatus * DB;
  db_close : DB → Disk → RStatus * Disk;
  db_flush : DB → Disk → RStatus * Disk;
  checkpoint_create : DB → RStatus;
  create_checkpoint : DB → string → Disk → RStatus * Disk;
  fs_directory_exists : string → Disk → bool;
  fs_create_directory : string → Disk → bool * Disk;
  fs_path_exists : string → Disk → bool;
  fs_delete_file : string → Disk → bool * Disk;     (* recursively *)
  fs_rename : string → string → Disk → bool * Disk;
  (* the names a valid [DirReader] shows; [None] when there is none or it is not valid *)
  fs_directory_reader : string → Disk → option (list string);
}.

(** What the member [_db] points to: nothing, a database, or a database whose [Close] has failed.
    Of the last one RocksDB's documentation says that it must not be used any more, and that another
    [Close] does nothing and returns the same status. Before it is set the pointer is not
    initialized. *)
Inductive DbPtr (DB : Type) := Null | Opened (db : DB) | CloseFailed (e : string) | Uninitialized.
#[global] Arguments Null {DB}.
#[global] Arguments Opened {DB} db.
#[global] Arguments CloseFailed {DB} e.
#[global] Arguments Uninitialized {DB}.
Record RocksdbStore {DB : Type} := mkRocksdbStore { _data_path : string; _db : DbPtr DB }.
Arguments RocksdbStore DB : clear implicits.
Arguments mkRocksdbStore {DB}.

Section store.
Context {DB RIt : Type} `{!RocksdbOps DB RIt}.

Definition set_db (db : DbPtr DB) (s : RocksdbStore DB) : RocksdbStore DB :=
  mkRocksdbStore (_data_path s) db.

(** [*_db]; a pointer to no database that may be used does not return. *)
Definition the_db : Prog (RocksdbStore DB) DB :=
  s ← get; match _db s with Opened db => mret db | _ => abort end.

Definition io_status (st : RStatus) : Status :=
  match st with None => OK | Some e => mkStatus EIO e end.

(** [RocksdbStore::hset]. *)
Definition rocks_hset (key field value : string) : Prog (RocksdbStore DB) Status :=
  db ← the_db;
  let '(st, db') := db_put (make_key key field) value db in
  modify (set_db (Opened db'));;
  mret (io_status st).

(** [RocksdbStore::hget]. *)
Definition rocks_hget (key field : string) (value : option string) :
    Prog (RocksdbStore DB) (Status * option string) :=
  db ← the_db;
  match value with
  | None => abort
  | Some v => let '(st, v') := db_get (make_key key field) v db in mret (io_status st, Some v')
  end.

(** [RocksdbStore::hdel]. *)
Definition rocks_hdel (key field : string) : Prog (RocksdbStore DB) Status :=
  db ← the_db;
  let '(st, db') := db_delete (make_key key field) db in
  modify (set_db (Opened db'));;
  mret (io_status st).

(** [RocksdbStoreIterator]: the database iterator and the prefix. *)
Record RocksdbStoreIterator := mkIterator { _iter : RIt; _prefix : string }.

Definition rocks_valid (it : RocksdbStoreIterator) : bool :=
  rit_valid (_iter it) && starts_with (_prefix it) (rit_key (_iter it)).
Definition rocks_key (it : RocksdbStoreIterator) : string := rit_key (_iter it).
Definition rocks_value (it : RocksdbStoreIterator) : string := rit_value (_iter it).
Definition rocks_next (it : RocksdbStoreIterator) : RocksdbStoreIterator :=
  mkIterator (rit_next (_iter it)) (_prefix it).

(** [RocksdbStore::hgetall]. *)
Definition rocks_hgetall (key : string) : Prog (RocksdbStore DB) RocksdbStoreIterator :=
  db ← the_db; mret (mkIterator (rit_seek key (db_new_iterator db)) key).

#[global] Instance rocksdb_iterator : IteratorOps RocksdbStoreIterator := {
  it_valid := rocks_valid; it_key := rocks_key; it_value := rocks_value; it_next := rocks_next;
}.

(** [RocksdbStore::hlen]. *)
Definition rocks_hlen (fuel : nat) (key : string) (len : option Z) :
    Prog (RocksdbStore DB) (Status * option Z) :=
  it ← rocks_hgetall key;
  match iterate fuel (λ _ size, u64 (size + 1)) it 0%Z, len with
  | Some size, Some _ => mret (OK, Some size)
  | _, _ => abort
  end.

(** [RocksdbStore::hexists]. *)
Definition rocks_hexists (key field : string) : Prog (RocksdbStore DB) bool :=
  '(status, _) ← rocks_hget key field (Some ""); mret (ok status).

#[global] Instance rocksdb_kv : KvOps (RocksdbStore DB) RocksdbStoreIterator := {
  hset := rocks_hset; hget := rocks_hget; hdel := rocks_hdel; hlen := rocks_hlen;
  hgetall := rocks_hgetall; hexists := rocks_hexists;
}.
End store.
Arguments RocksdbStoreIterator RIt : clear implicits.
Arguments mkIterator {RIt}.

(** ** Opening, checkpoints, recovery *)
Section disk.
Context {DB Disk : Type} `{!DiskOps DB Disk}.

Definition World : Type := Disk * RocksdbStore DB.
Definition on_disk {A} (f : Disk → A * Disk) : Prog World A := λ w,
  let '(a, d) := f (fst w) in Some (a, (d, snd w)).
Definition on_store {A} (p : Prog (RocksdbStore DB) A) : Prog World A :=
  zoom snd (λ s w, (fst w, s)) p.

(** The constructor leaves [_db] as it is; [open], the only one to call it, sets it at once. *)
Definition new_rocks : RocksdbStore DB := mkRocksdbStore "" Uninitialized.

(** [RocksdbStore::open]. *)
Definition rocks_open (data_path : option string) (store : option (option (RocksdbStore DB))) :
    Prog Disk (Status * option (option (RocksdbStore DB))) :=
  match data_path, store with
  | Some data_path, Some _ =>
      d ← get;
      created ←
        (if negb (fs_directory_exists data_path d)
         then let '(created, d') := fs_create_directory data_path d in put d';; mret created
         else mret true);
      if negb created
      then mret (mkStatus EIO ("create dir " +:+ data_path +:+ " failed"), store)
      else
        d ← get;
        let '(status, db, d') := db_open true data_path d in
        put d';;
        match status with
        | Some e => mret (mkStatus EIO e, store)
        | None =>
            let rocksdb_store := new_rocks in
            let rocksdb_store := mkRocksdbStore data_path (_db rocksdb_store) in
            let rocksdb_store := set_db (Opened db) rocksdb_store in
            mret (OK, Some (Some rocksdb_store))
        end
  | _, _ => abort
  end.

(** [RocksdbStore::open_or_die]. *)
Definition open_or_die : Prog World unit :=
  '(d, s) ← get;
  let '(status, db, d') := db_open false (_data_path s) d in
  boost_assert (bool_decide (status = None));;
  put (d', set_db (Opened db) s).

(** [RocksdbStore::close]. When [Close] fails, the pointer stays. *)
Definition close : Prog World Status :=
  '(d, s) ← get;
  match _db s with
  | Null => mret OK
  | Opened db =>
      let '(status, d') := db_close db d in
      match status with
      | Some e => put (d', set_db (CloseFailed e) s);; mret (mkStatus EIO e)
      | None => put (d', set_db Null s);; mret OK
      end
  | CloseFailed e => mret (mkStatus EIO e)
  | Uninitialized => abort
  end.

(** The destructor closes, and logs when that fails: the database is not deleted then. *)
Definition rocks_dtor : Prog World (list string) :=
  status ← close;
  mret (if negb (ok status) then ["close rocksdb failed"; error_str status] else []).

(** [RocksdbStore::check_point]. *)
Definition check_point (to : option string) (files : option (list string)) :
    Prog World (Status * option (list string)) :=
  match to, files with
  | Some to, Some _ =>
      db ← on_store the_db;
      st ← on_disk (db_flush db);
      match st with
      | Some e => mret (mkStatus EIO e, files)
      | None =>
          match checkpoint_create db with
          | Some e => mret (mkStatus EIO e, files)
          | None =>
              status ← on_disk (create_checkpoint db to);
              match status with
              | Some e => mret (mkStatus EIO e, files)
              | None =>
                  '(d, _) ← get;
                  match fs_directory_reader to d with
                  | None => abort
                  | Some names => mret (OK, Some ((λ n, "cpt/" +:+ n) <$> names))
                  end
              end
          end
      end
  | _, _ => abort
  end.

(** [make_scope_exit]: [body] ends with the value of the guard's [run], which [release] has
    set to false; the destructor runs [func] when it is true. *)
Definition scope_exit {S A} (func : Prog S unit) (body : Prog S (A * bool)) : Prog S A :=
  '(a, run) ← body;
  (if (run : bool) then func else mret tt);;
  mret a.

(** The body of [rollback_dir]. *)
Definition rollback_dir (bak_path : string) : Prog World unit :=
  '(d, s) ← get;
  renamed ← on_disk (fs_rename bak_path (_data_path s));
  boost_assert renamed.

(** [recover] from [rollback_dir] on: the status, and the [run] of both guards. *)
Definition recover_from (from bak_path : string) : Prog World (Status * bool * bool) :=
  '(d, s) ← get;
  let '(st, db) := db_open_read_only from d in
  match st with
  | Some e => mret (mkStatus EIO e, true, true)
  | None =>
      match checkpoint_create db with
      | Some e => mret (mkStatus EIO e, true, true)
      | None =>
          st ← on_disk (create_checkpoint db (_data_path s));
          match st with
          | Some e => mret (mkStatus EIO e, true, true)
          | None =>
              _ ← on_disk (fs_delete_file bak_path);
              open_or_die;;
              mret (OK, false, false)
          end
      end
  end.

(** [recover] from [rollback_open] on. *)
Definition recover_closed (from : string) : Prog World (Status * bool) :=
  '(d, s) ← get;
  let bak_path := _data_path s +:+ ".bak" in
  deleted ← (if fs_path_exists bak_path d then on_disk (fs_delete_file bak_path) else mret true);
  if negb deleted then mret (mkStatus EIO "remove bak dir failed", true) else
  renamed ← on_disk (fs_rename (_data_path s) bak_path);
  if negb renamed then mret (mkStatus EIO "rename failed", true) else
  scope_exit (rollback_dir bak_path) (recover_from from bak_path).

(** [RocksdbStore::recover]. *)
Definition recover (from : option string) : Prog World Status :=
  match from with
  | None => abort
  | Some from =>
      status ← close;
      if negb (ok status) then mret status else
      scope_exit open_or_die (recover_closed from)
  end.
End disk.
Arguments World : clear implicits.

(** ** What the sources rely on *)
Class DiskLaws `{RocksdbLaws DB RIt} `{!DiskOps DB Disk} := {
  db_path : DB → string;
  (* the database in a directory, as opening it would find it *)
  dir_content : Disk → string → option (gmap string string);
  dir_content_exists d p : is_Some (dir_content d p) → fs_directory_exists p d = true;
  (* two paths that name directories neither of which is part of the other *)
  apart : relation string;
  apart_sym :: Symmetric apart;
  db_put_path k v db : db_path (snd (db_put k v db)) = db_path db;
  db_delete_path k db : db_path (snd (db_delete k db)) = db_path db;
  db_open_law c p d db d' : db_open c p d = (None, db, d') →
    db_path db = p ∧ (dir_content d p = Some (db_content db) ∨
                      c = true ∧ dir_content d p = None ∧ db_content db = ∅);
  db_open_read_only_law p d db : db_open_read_only p d = (None, db) →
    db_path db = p ∧ dir_content d p = Some (db_content db);
  db_close_law db d st d' : db_close db d = (st, d') →
    (st = None → dir_content d' (db_path db) = Some (db_content db)) ∧
    ∀ q, apart q (db_path db) → dir_content d' q = dir_content d q;
  db_flush_law db d st d' q : db_flush db d = (st, d') → apart q (db_path db) →
    dir_content d' q = dir_content d q;
  create_checkpoint_law db to d st d' : create_checkpoint db to d = (st, d') →
    apart to (db_path db) →
    (dir_content d' to = if decide (st = None) then Some (db_content db) else dir_content d to) ∧
    ∀ q, apart q to → apart q (db_path db) → dir_content d' q = dir_content d q;
  fs_delete_file_law p d r d' q : fs_delete_file p d = (r, d') → apart q p →
    dir_content d' q = dir_content d q;
  fs_rename_law a b d r d' : fs_rename a b d = (r, d') → apart a b →
    (r = true → dir_content d' b = dir_content d a) ∧
    (r = false → dir_content d' a = dir_content d a) ∧
    ∀ q, apart q a → apart q b → dir_content d' q = dir_content d q;
}.

(** Calls that succeed when their precondition holds. *)
Class DiskReliable `{DiskLaws DB RIt Disk} : Prop := {
  db_close_ok db d : fst (db_close db d) = None;
  db_flush_ok db d : fst (db_flush db d) = None;
  db_flush_exists q db d : apart q (db_path db) →
    fs_path_exists q (snd (db_flush db d)) = fs_path_exists q d;
  checkpoint_create_ok db : checkpoint_create db = None;
  create_checkpoint_ok db to d : fs_path_exists to d = false → fst (create_checkpoint db to d) = None;
  db_open_ok c p d : is_Some (dir_content d p) → fst (fst (db_open c p d)) = None;
  db_open_read_only_ok p d : is_Some (dir_content d p) → fst (db_open_read_only p d) = None;
  fs_delete_file_ok p d : fst (fs_delete_file p d) = true ∧
    fs_path_exists p (snd (fs_delete_file p d)) = false;
  fs_rename_ok a b d : is_Some (dir_content d a) → fs_path_exists b d = false →
    fst (fs_rename a b d) = true ∧ fs_path_exists a (snd (fs_rename a b d)) = false;
  fs_directory_reader_ok p d : is_Some (dir_content d p) → is_Some (fs_directory_reader p d);
}.

(** ** Key lemmas *)
Lemma starts_with_not_ltb p s : starts_with p s = true → str_ltb s p = false.
Proof.
  revert s; induction p as [|c p IH]; intros [|d s]; cbn; try done.
  intros [->%Ascii.eqb_eq Hs]%andb_true_iff. by rewrite N.ltb_irrefl, Ascii.eqb_refl, IH.
Qed.

(** The keys with a prefix are contiguous, and the first keys that are not below it. *)
Lemma starts_with_sandwich p s1 s2 :
  str_ltb s1 p = false → str_ltb s1 s2 = true → starts_with p s2 = true → starts_with p s1 = true.
Proof.
  revert s1 s2; induction p as [|c p IH]; intros [|a s1] [|b s2]; cbn; try done.
  intros H1 H2 [->%Ascii.eqb_eq H3]%andb_true_iff. bool_to_prop.
  destruct (N.ltb_spec (N_of_ascii a) (N_of_ascii b)); [done|]. cbn in H2.
  apply andb_true_iff in H2 as [->%Ascii.eqb_eq H2]. rewrite Ascii.eqb_refl in *. cbn in *. eauto.
Qed.

Lemma str_ltb_trans a b c : str_ltb a b = true → str_ltb b c = true → str_ltb a c = true.
Proof.
  revert b c; induction a as [|x a IH]; intros [|y b] [|z c]; cbn; try done.
  rewrite !orb_true_iff, !andb_true_iff, !N.ltb_lt.
  intros [H1|[->%Ascii.eqb_eq H1]] [H2|[->%Ascii.eqb_eq H2]];
    [left; lia|by left|by left|right; split; [apply Ascii.eqb_refl|by eapply IH]].
Qed.

Lemma starts_with_app p s : starts_with p (p +:+ s) = true.
Proof.
  induction p as [|c p IH]; [done|]. change (String c p +:+ s) with (String c (p +:+ s)).
  cbn. by rewrite Ascii.eqb_refl.
Qed.

Lemma take_while_prefix p (l : list (string * string)) :
  StronglySorted (λ e1 e2, str_ltb (fst e1) (fst e2) = true) l →
  (∀ e, e ∈ l → str_ltb (fst e) p = false) →
  take_while (λ e, starts_with p (fst e)) l = filter (λ e, starts_with p (fst e) = true) l.
Proof.
  intros Hs Hl. induction Hs as [|e l Hs IH He]; [done|]. cbn [take_while].
  rewrite filter_cons. destruct (starts_with p (fst e)) eqn:E.
  - rewrite decide_True by done. f_equal. apply IH. intros. apply Hl. by right.
  - rewrite decide_False by done. symmetry. apply filter_none. intros e' He' Hp. rewrite Forall_forall in He. specialize (He e' He').
    rewrite (starts_with_sandwich p (fst e) (fst e')) in E; try done. apply Hl. left.
Qed.

Lemma scan_prefix p (l : list (string * string)) :
  StronglySorted (λ e1 e2, str_ltb (fst e1) (fst e2) = true) l →
  take_while (λ e, starts_with p (fst e)) (drop_while (λ e, str_ltb (fst e) p) l) =
  filter (λ e, starts_with p (fst e) = true) l.
Proof.
  induction 1 as [|e l Hs IH He]; [done|]. cbn [drop_while].
  destruct (str_ltb (fst e) p) eqn:E.
  - rewrite IH, filter_cons, decide_False; [done|]. intros Hp%starts_with_not_ltb. congruence.
  - apply take_while_prefix; [by constructor|]. intros e' [->|He']%elem_of_cons; [done|].
    rewrite Forall_forall in He. specialize (He e' He').
    destruct (str_ltb (fst e') p) eqn:E'; [|done]. by rewrite (str_ltb_trans _ _ _ He E') in E.
Qed.

(** ** The store as a map of hashes *)
Section hashes.
Context `{RocksdbLaws DB RIt}.
Implicit Types (s : RocksdbStore DB) (db : DB) (h : Hashes).

(** The entries of a database in key order. *)
Definition entries db : list (string * string) := rit_all (db_new_iterator db).

(** The entries whose key starts with a prefix. *)
Definition entries_under (p : string) db : list (string * string) :=
  filter (λ e, starts_with p (fst e) = true) (entries db).

Lemma the_db_eq s db : _db s = Opened db → the_db s = Some (db, s).
Proof. intros E. unfold the_db. erewrite bind_step by done. by rewrite E. Qed.

Lemma set_db_id s db : _db s = Opened db → set_db (Opened db) s = s.
Proof. destruct s as [p o]. cbn. by intros ->. Qed.

Lemma hset_eq k f v s db st db' :
  _db s = Opened db → db_put (make_key k f) v db = (st, db') →
  hset k f v s = Some (io_status st, set_db (Opened db') s).
Proof. intros E Ep. cbn. unfold rocks_hset. rewrite (bind_step _ _ _ _ _ (the_db_eq _ _ E)). by rewrite Ep. Qed.

Lemma hdel_eq k f s db st db' :
  _db s = Opened db → db_delete (make_key k f) db = (st, db') →
  hdel k f s = Some (io_status st, set_db (Opened db') s).
Proof. intros E Ep. cbn. unfold rocks_hdel. rewrite (bind_step _ _ _ _ _ (the_db_eq _ _ E)). by rewrite Ep. Qed.

Lemma hget_eq k f v s db :
  _db s = Opened db →
  hget k f (Some v) s =
  Some ((io_status (fst (db_get (make_key k f) v db)), Some (snd (db_get (make_key k f) v db))), s).
Proof.
  intros E. cbn. unfold rocks_hget. rewrite (bind_step _ _ _ _ _ (the_db_eq _ _ E)).
  by destruct (db_get (make_key k f) v db).
Qed.

Lemma hgetall_eq k s db :
  _db s = Opened db →
  hgetall k s = Some (mkIterator (rit_seek k (db_new_iterator db)) k, s).
Proof. intros E. cbn. unfold rocks_hgetall. by rewrite (bind_step _ _ _ _ _ (the_db_eq _ _ E)). Qed.

Lemma io_status_ok st : ok (io_status st) = bool_decide (st = None).
Proof. by destruct st. Qed.

(** What an iterator goes through. *)
Lemma iterator_yields it p :
  yields (mkIterator it p) (take_while (λ e, starts_with p (fst e)) (rit_rest it)).
Proof.
  remember (rit_rest it) as es eqn:E. revert it E; induction es as [|e es IH]; intros it E.
  - apply yields_end. cbn. unfold rocks_valid. cbn. by rewrite rit_valid_law, <-E.
  - pose proof (rit_current_law it e es (eq_sym E)) as Ec. cbn [take_while].
    assert (rocks_valid (mkIterator it p) = starts_with p (fst e)) as Ev.
    { unfold rocks_valid. cbn. by rewrite rit_valid_law, <-E, <-Ec. }
    destruct (starts_with p (fst e)).
    + rewrite <-Ec. refine (yields_next (mkIterator it p) _ Ev _). cbn. unfold rocks_next. cbn.
      apply IH. symmetry. by eapply rit_next_law.
    + by apply yields_end.
Qed.

Lemma hgetall_yields k db :
  yields (mkIterator (rit_seek k (db_new_iterator db)) k) (entries_under k db).
Proof.
  unfold entries_under, entries. rewrite <-scan_prefix by apply rit_new_sorted.
  rewrite <-rit_seek_law. apply iterator_yields.
Qed.

Lemma hlen_eq k n s db fuel :
  _db s = Opened db → length (entries_under k db) < fuel →
  hlen fuel k (Some n) s = Some ((OK, Some (u64 (Z.of_nat (length (entries_under k db))))), s).
Proof.
  intros E Hf. change (hlen fuel k (Some n)) with (rocks_hlen fuel k (Some n)). unfold rocks_hlen.
  rewrite (bind_step _ _ _ _ _ (hgetall_eq k s db E)).
  rewrite (iterate_yields _ (λ _ _ size, u64 (size + 1)%Z) _ (entries_under k db)) by (done || apply hgetall_yields).
  change 0%Z with (u64 0). rewrite foldl_count. done.
Qed.

(** [hgetall] of a key goes through exactly the database entries whose full key
    starts with that key, once each and in key order, and [hlen] counts them - so both also see the hashes of
    other keys that have the key as a prefix. *)
Theorem hgetall_scan k s db n fuel :
  _db s = Opened db → length (entries db) < fuel →
  wp (it ← hgetall k; r ← hlen fuel k (Some n); mret (it, r)) s (λ '(it, (st, len)) s', s' = s ∧
    ∃ es, yields it es ∧ st = OK ∧ len = Some (u64 (Z.of_nat (length es))) ∧
      StronglySorted (λ e1 e2, str_ltb (fst e1) (fst e2) = true) es ∧
      ∀ rk v, (rk, v) ∈ es ↔ db_content db !! rk = Some v ∧ starts_with k rk = true).
Proof.
  intros E Hf. eapply wp_step; [by apply hgetall_eq|].
  assert (length (entries_under k db) < fuel) as Hf'.
  { unfold entries_under. pose proof (length_filter (λ e, starts_with k (fst e) = true) (entries db)). lia. }
  eapply wp_step; [by eapply hlen_eq|]. eapply wp_eval; [done|]. split; [done|].
  exists (entries_under k db). split_and!; [apply hgetall_yields|done|done| |].
  - apply StronglySorted_filter, rit_new_sorted.
  - intros rk v. unfold entries_under, entries. rewrite list_elem_of_filter, rit_new_all. naive_solver.
Qed.
End hashes.

(** A set of keys none of which is a prefix of an entry of another one. *)
Class Separated (K : string → Prop) : Prop :=
  separated k1 k2 f : K k1 → K k2 → starts_with k1 (make_key k2 f) = true → k1 = k2.

Section refinement.
Context `{RocksdbLaws DB RIt} (K : string → Prop) `{!Separated K}.
Implicit Types (s : RocksdbStore DB) (db : DB) (h : Hashes).

(** The database holds the hashes: one entry per field. *)
Record db_rep db h : Prop := {
  rep_entry k f v : h !! (k, f) = Some v → K k ∧ db_content db !! make_key k f = Some v;
  rep_field rk v : db_content db !! rk = Some v → ∃ k f, rk = make_key k f ∧ h !! (k, f) = Some v;
}.

Definition rep s h : Prop := ∃ db, _db s = Opened db ∧ db_rep db h.

Lemma make_key_inj k1 f1 k2 f2 : K k1 → K k2 → make_key k1 f1 = make_key k2 f2 → k1 = k2 ∧ f1 = f2.
Proof.
  intros H1 H2 E. assert (k1 = k2) as ->.
  { apply (separated k1 k2 f2); [done|done|]. rewrite <-E. apply starts_with_app. }
  split; [done|]. by apply str_app_inj_l, str_app_inj_l in E.
Qed.

Lemma rep_lookup db h k f : K k → db_rep db h → db_content db !! make_key k f = h !! (k, f).
Proof.
  intros Hk [He Hf]. destruct (h !! (k, f)) as [v|] eqn:E; [by apply He|].
  destruct (db_content db !! make_key k f) as [v|] eqn:E'; [|done].
  destruct (Hf _ _ E') as (k' & f' & Ek & Eh). destruct (He _ _ _ Eh) as [Hk' _].
  destruct (make_key_inj k f k' f' Hk Hk' Ek) as [-> ->]. congruence.
Qed.

Lemma rep_insert db db' h k f v :
  K k → db_rep db h → db_content db' = <[make_key k f := v]> (db_content db) →
  db_rep db' (<[(k, f) := v]> h).
Proof.
  intros Hk [He Hf] E. split.
  - intros k' f' v' [[[= <- <-] <-]|[Hne Eh]]%lookup_insert_Some; rewrite E.
    + split; [done|]. by rewrite lookup_insert_eq.
    + destruct (He _ _ _ Eh) as [Hk' Ec]. split; [done|]. rewrite lookup_insert_ne; [done|].
      intros Ek. destruct (make_key_inj k f k' f' Hk Hk' Ek) as [-> ->]. done.
  - intros rk v'. rewrite E. intros [[<- <-]|[Hne Ec]]%lookup_insert_Some.
    + exists k, f. by rewrite lookup_insert_eq.
    + destruct (Hf _ _ Ec) as (k' & f' & -> & Eh). exists k', f'. split; [done|].
      rewrite lookup_insert_ne; [done|]. by intros [= -> ->].
Qed.

Lemma rep_delete db db' h k f :
  K k → db_rep db h → db_content db' = delete (make_key k f) (db_content db) →
  db_rep db' (delete (k, f) h).
Proof.
  intros Hk [He Hf] E. split.
  - intros k' f' v' [Hne Eh]%lookup_delete_Some. rewrite E.
    destruct (He _ _ _ Eh) as [Hk' Ec]. split; [done|]. rewrite lookup_delete_ne; [done|].
    intros Ek. destruct (make_key_inj k f k' f' Hk Hk' Ek) as [-> ->]. done.
  - intros rk v'. rewrite E. intros [Hne Ec]%lookup_delete_Some.
    destruct (Hf _ _ Ec) as (k' & f' & -> & Eh). exists k', f'. split; [done|].
    rewrite lookup_delete_ne; [done|]. by intros [= -> ->].
Qed.

(** The entries under a key are the fields of its hash. *)
Lemma entries_under_perm db h k :
  K k → db_rep db h →
  entries_under k db ≡ₚ (λ x, (make_key (fst (fst x)) (snd (fst x)), snd x)) <$> map_to_list (hash h k).
Proof.
  intros Hk [He Hf]. apply NoDup_Permutation.
  - apply NoDup_filter. eapply (NoDup_fmap_1 fst). unfold entries.
    pose proof (rit_new_sorted db) as Hs. induction Hs as [|e l Hs IH Hall]; [constructor|].
    cbn. constructor; [|done]. intros (e' & Ee & He')%list_elem_of_fmap.
    rewrite Forall_forall in Hall. specialize (Hall e' He'). rewrite Ee in Hall.
    assert (∀ a, str_ltb a a = false) as Hirr.
    { intros a. apply starts_with_not_ltb. rewrite <-(str_app_nil_r a) at 2. apply starts_with_app. }
    by rewrite Hirr in Hall.
  - apply NoDup_fmap_2_strong; [|apply NoDup_map_to_list].
    intros [[k1 f1] v1] [[k2 f2] v2] E1%elem_of_map_to_list E2%elem_of_map_to_list. cbn.
    apply map_lookup_filter_Some in E1 as [E1 Ek1], E2 as [E2 Ek2]. cbn in *. subst.
    intros [= E ->]. by destruct (make_key_inj k f1 k f2 Hk Hk E) as [_ ->].
  - intros [rk v]. unfold entries_under, entries. rewrite list_elem_of_filter, rit_new_all. cbn. split.
    + intros [Hp Ec]. destruct (Hf _ _ Ec) as (k' & f & -> & Eh). destruct (He _ _ _ Eh) as [Hk' _].
      rewrite (separated k k' f Hk Hk' Hp). apply list_elem_of_fmap. exists ((k', f), v).
      split; [done|]. apply elem_of_map_to_list, map_lookup_filter_Some. by split.
    + intros ([[k' f] v'] & E & Hin)%list_elem_of_fmap. cbn in E. injection E as -> ->.
      apply elem_of_map_to_list, map_lookup_filter_Some in Hin as [Eh Ek]. cbn in Ek. subst k'.
      split; [apply starts_with_app|]. by apply He.
Qed.

Lemma length_entries_under db h k :
  K k → db_rep db h → length (entries_under k db) = size (hash h k).
Proof.
  intros Hk Hr. rewrite (entries_under_perm db h k Hk Hr), length_fmap. apply length_map_to_list.
Qed.

#[global] Program Instance rocksdb_kv_laws : KvLaws (St := RocksdbStore DB) K := { kv_rep := rep }.
Next Obligation.
  intros k f v s h Hk (db & E & Hr). destruct (db_put (make_key k f) v db) as [st db'] eqn:Ep.
  eapply wp_eval; [by eapply hset_eq|]. pose proof (db_put_law _ _ _ _ _ Ep) as Ec.
  exists db'. split; [done|]. rewrite io_status_ok. case_bool_decide; rewrite ?decide_True in Ec by done.
  - by eapply rep_insert.
  - rewrite decide_False in Ec by done. destruct Hr as [He Hf]. split; rewrite Ec; auto.
Qed.
Next Obligation.
  intros k f s h Hk (db & E & Hr). destruct (db_delete (make_key k f) db) as [st db'] eqn:Ep.
  eapply wp_eval; [by eapply hdel_eq|]. pose proof (db_delete_law _ _ _ _ Ep) as Ec.
  exists db'. split; [done|]. rewrite io_status_ok. case_bool_decide; rewrite ?decide_True in Ec by done.
  - by eapply rep_delete.
  - rewrite decide_False in Ec by done. destruct Hr as [He Hf]. split; rewrite Ec; auto.
Qed.
Next Obligation.
  intros k f v s h Hk (db & E & Hr). eapply wp_eval; [by apply hget_eq|]. split; [done|].
  rewrite <-(rep_lookup db h k f Hk Hr). destruct (db_content db !! make_key k f) as [w|] eqn:Ec.
  - by rewrite (db_get_found _ v w _ Ec).
  - rewrite io_status_ok. apply bool_decide_false. by apply db_get_missing.
Qed.
Next Obligation.
  intros k f s h Hk (db & E & Hr).
  change (hexists k f) with (rocks_hexists (DB := DB) (RIt := RIt) k f). unfold rocks_hexists.
  eapply wp_step; [by apply (hget_eq k f "" s db)|]. eapply wp_eval; [done|]. split; [done|].
  rewrite <-(rep_lookup db h k f Hk Hr), io_status_ok. apply bool_decide_ext.
  destruct (db_content db !! make_key k f) as [w|] eqn:Ec.
  - by rewrite (db_get_found _ "" w _ Ec).
  - split; [|by intros [? ?]]. intros En. by apply db_get_missing with (v := "") in Ec.
Qed.
Next Obligation.
  intros k fuel n s h Hk (db & E & Hr) Hf. pose proof (length_entries_under db h k Hk Hr) as El.
  assert (size (hash h k) <= size h) by apply map_subseteq_size, map_filter_subseteq.
  eapply wp_eval; [apply (hlen_eq k n s db); [done|lia]|]. by rewrite El.
Qed.
Next Obligation.
  intros k s h Hk (db & E & Hr). eapply wp_eval; [by apply hgetall_eq|]. split; [done|].
  exists (entries_under k db). split; [apply hgetall_yields|].
  rewrite (entries_under_perm db h k Hk Hr). unfold hash_values. by rewrite <-list_fmap_compose.
Qed.
End refinement.

(** C8: With keys none of which is a prefix of another one's entries, an open store that
    starts empty answers every sequence of commands as a map of hashes does: reads see exactly
    the writes that were answered by success, [hlen] the number of fields of the key's hash, and
    [hgetall] its values. *)
Theorem rocksdb_refines `{RocksdbLaws DB RIt} (K : string → Prop) `{!Separated K} fuel cs path db :
  (∀ c, c ∈ cs → K (cmd_key c)) → db_content db = ∅ → length cs < fuel →
  wp (exec_cmds fuel cs) (mkRocksdbStore path (Opened db)) (λ answers _,
    ∃ h, spec_cmds ∅ cs answers h).
Proof.
  intros Hk Hdb Hf. eapply wp_mono.
  - apply (exec_cmds_refines (K := K) fuel cs _ ∅); [done| |by rewrite map_size_empty].
    exists db. split; [done|]. split; [by intros k f v ?%lookup_empty_Some|].
    intros rk v. by rewrite Hdb, lookup_empty.
  - cbv beta. intros l s' (h & Hs & _). by exists h.
Qed.

(** ** Recovery *)
Section recovery.
Context `{DiskLaws DB RIt Disk}.
Implicit Types (s : RocksdbStore DB) (d : Disk) (db : DB) (m : gmap string string).

Definition bak (path : string) : string := path +:+ ".bak".

(** The store is open on the given entries. *)
Definition open_on (m : gmap string string) (path : string) (w : World DB Disk) : Prop :=
  _data_path (snd w) = path ∧ ∃ db, _db (snd w) = Opened db ∧ db_content db = m ∧ db_path db = path.

Lemma open_or_die_wlp w m :
  dir_content (fst w) (_data_path (snd w)) = Some m →
  wlp open_or_die w (λ _ w', open_on m (_data_path (snd w)) w').
Proof.
  destruct w as [d s]; cbn. intros E. unfold open_or_die. apply wlp_bind; cbn.
  destruct (db_open false (_data_path s) d) as [[st db] d'] eqn:Eo.
  destruct st as [e|]; [done|]. cbn. destruct (db_open_law _ _ _ _ _ Eo) as [Hp [Ec|(? & _)]]; [|done].
  split; [done|]. exists db. split_and!; [done|congruence|done].
Qed.

Lemma wlp_on_disk {A} (f : Disk → A * Disk) d s Q :
  (∀ a d', f d = (a, d') → Q a (d', s)) → wlp (on_disk f) (d, s) Q.
Proof. intros HQ. unfold wlp, on_disk; cbn. destruct (f d) as [a d'] eqn:E. by apply HQ. Qed.

(** What a body under [rollback_dir] leaves when it is told to roll back. *)
Lemma rollback_dir_wlp path w m :
  apart path (bak path) → _data_path (snd w) = path → dir_content (fst w) (bak path) = Some m →
  wlp (rollback_dir (bak path)) w (λ _ w', _data_path (snd w') = path ∧
    dir_content (fst w') path = Some m).
Proof.
  destruct w as [d s]; cbn. intros Ha Hp E. unfold rollback_dir. do 2 apply wlp_bind; cbn.
  rewrite Hp. apply wlp_on_disk. intros r d' Er. destruct (fs_rename_law _ _ _ _ _ Er) as [Ht _]; [by symmetry|].
  destruct r; [|done]. cbn. split; [done|]. by rewrite Ht.
Qed.

(** From the guard [rollback_dir] on, with the database renamed away. *)
Lemma recover_from_wlp path from w m snap :
  apart path (bak path) → apart from path → apart from (bak path) →
  _data_path (snd w) = path → dir_content (fst w) (bak path) = Some m →
  dir_content (fst w) from = Some snap →
  wlp (recover_from from (bak path)) w (λ '(st, run_dir, run_open) w',
    run_dir = run_open ∧ _data_path (snd w') = path ∧
    if run_open then ok st = false ∧ dir_content (fst w') (bak path) = Some m
    else st = OK ∧ open_on snap path w').
Proof.
  destruct w as [d s]; cbn. intros Hab Hfp Hfb Hp Em Esnap. unfold recover_from. apply wlp_bind; cbn.
  destruct (db_open_read_only from d) as [[e|] db] eqn:Eo; [done|].
  destruct (checkpoint_create db) as [e|]; [done|]. apply wlp_bind. rewrite Hp.
  destruct (db_open_read_only_law _ _ _ Eo) as [Hdb Ec]. rewrite Esnap in Ec. injection Ec as Ec.
  apply wlp_on_disk. intros st d1 Ecc.
  destruct (create_checkpoint_law _ _ _ _ _ Ecc) as [Hto Hframe]; [rewrite Hdb; by symmetry|].
  destruct st as [e|]; cbn.
  - split_and!; [done|done|done|]. rewrite Hframe; [done| |]; [by symmetry|].
    rewrite Hdb. by symmetry.
  - apply wlp_bind, wlp_on_disk. intros r d2 Ed. apply wlp_bind.
    eapply wlp_mono; [apply (open_or_die_wlp (d2, s) snap)|]; cbn; rewrite Hp.
    + rewrite (fs_delete_file_law _ _ _ _ _ Ed) by done. rewrite Hto, decide_True by done. by rewrite Ec.
    + intros [] w' Ho. split_and!; [done|apply Ho|done|done].
Qed.

Lemma recover_closed_wlp path from w m snap :
  apart path (bak path) → apart from path → apart from (bak path) →
  _data_path (snd w) = path → dir_content (fst w) path = Some m →
  dir_content (fst w) from = Some snap →
  wlp (recover_closed from) w (λ '(st, run) w', _data_path (snd w') = path ∧
    if run then ok st = false ∧ dir_content (fst w') path = Some m
    else st = OK ∧ open_on snap path w').
Proof.
  destruct w as [d s]; cbn. intros Hab Hfp Hfb Hp Em Esnap. unfold recover_closed.
  apply wlp_bind; cbn. rewrite Hp. fold (bak path). apply wlp_bind.
  assert (∃ r d1, (if fs_path_exists (bak path) d then on_disk (fs_delete_file (bak path)) else mret true)
                    (d, s) = Some (r, (d1, s)) ∧
          ∀ q, apart q (bak path) → dir_content d1 q = dir_content d q) as (r & d1 & E1 & Hf1).
  { destruct (fs_path_exists (bak path) d); [|by exists true, d].
    destruct (fs_delete_file (bak path) d) as [r d1] eqn:Ed. exists r, d1.
    split; [unfold on_disk; cbn; by rewrite Ed|]. intros q. by eapply fs_delete_file_law. }
  unfold wlp at 1. rewrite E1. destruct r; cbn [negb].
  2: { cbn. by rewrite Hf1. }
  apply wlp_bind, wlp_on_disk. intros r d2 Er.
  destruct (fs_rename_law _ _ _ _ _ Er Hab) as (Ht & Hfalse & Hf2). destruct r; cbn [negb].
  2: { cbn. split_and!; [done|done|]. by rewrite Hfalse, Hf1. }
  unfold scope_exit. apply wlp_bind.
  eapply wlp_mono; [apply (recover_from_wlp path from (d2, s) m snap); try done|].
  - cbn. by rewrite Ht, Hf1.
  - cbn. by rewrite Hf2, Hf1.
  - intros [[st run_dir] run_open] w' (-> & Hp' & Hrun). apply wlp_bind. destruct run_open.
    + destruct Hrun as [Hst Em']. eapply wlp_mono; [by apply rollback_dir_wlp|].
      cbn. intros _ w'' [? ?]. done.
    + done.
Qed.

(** C7: Whatever calls to the file system and to RocksDB fail on the way, for a snapshot that exists
    in a directory apart from those of the store and of its backup: when the database could be
    closed, a [recover] that returns leaves the store open, on the entries of the snapshot when it
    returns OK and on the entries it had before when it returns an error. When closing fails,
    [recover] returns that error and has called nothing else; the store is left with the database
    that failed to close, which cannot be used any more. *)
Theorem recover_atomic path from d db snap :
  apart path (bak path) → apart from path → apart from (bak path) →
  db_path db = path → dir_content d from = Some snap →
  wlp (recover (Some from)) (d, mkRocksdbStore path (Opened db)) (λ st w',
    match db_close db d with
    | (None, _) => open_on (if ok st then snap else db_content db) path w'
    | (Some e, d1) => st = mkStatus EIO e ∧ w' = (d1, mkRocksdbStore path (CloseFailed e))
    end).
Proof.
  intros Hab Hfp Hfb Hp Esnap. unfold recover. apply wlp_bind. unfold close. apply wlp_bind; cbn.
  destruct (db_close db d) as [[e|] d1] eqn:Ecl; [done|]. cbn.
  destruct (db_close_law _ _ _ _ Ecl) as [Hm Hframe].
  apply wlp_bind; cbn.
  unfold scope_exit. apply wlp_bind.
  eapply wlp_mono; [apply (recover_closed_wlp path from _ (db_content db) snap); try done|].
  - cbn. rewrite <-Hp at 1. by apply Hm.
  - cbn. rewrite Hframe by (by rewrite Hp). done.
  - intros [st run] w' [Hp' Hrun]. apply wlp_bind. destruct run.
    + destruct Hrun as [Hst Em]. eapply wlp_mono; [apply open_or_die_wlp; by rewrite Hp'|].
      rewrite Hp'. intros [] w'' Ho. cbn. by rewrite Hst.
    + by destruct Hrun as [-> Ho].
Qed.

(** *** Without failures *)
Context `{!DiskReliable}.

Lemma wp_on_disk {A} (f : Disk → A * Disk) d s Q :
  (∀ a d', f d = (a, d') → Q a (d', s)) → wp (on_disk f) (d, s) Q.
Proof. intros HQ. unfold wp, on_disk; cbn. destruct (f d) as [a d'] eqn:E. by apply HQ. Qed.

Lemma open_or_die_wp w m :
  dir_content (fst w) (_data_path (snd w)) = Some m →
  wp open_or_die w (λ _ w', open_on m (_data_path (snd w)) w').
Proof.
  intros E. assert (is_Some (open_or_die w)) as [[[] w'] Eo].
  { destruct w as [d s]; cbn in E. unfold open_or_die. erewrite bind_step by done. cbv beta iota.
    assert (fst (fst (db_open false (_data_path s) d)) = None) as Eok by (apply db_open_ok; by rewrite E).
    destruct (db_open false (_data_path s) d) as [[st db] d']. cbn in Eok. subst st. by eexists. }
  eapply wp_eval; [done|]. pose proof (open_or_die_wlp w m E) as Hw. unfold wlp in Hw.
  by rewrite Eo in Hw.
Qed.

Lemma recover_from_wp path from w m snap :
  apart path (bak path) → apart from path → apart from (bak path) →
  _data_path (snd w) = path → dir_content (fst w) (bak path) = Some m →
  dir_content (fst w) from = Some snap → fs_path_exists path (fst w) = false →
  wp (recover_from from (bak path)) w (λ r _, r = (OK, false, false)).
Proof.
  destruct w as [d s]; cbn. intros Hab Hfp Hfb Hp Em Esnap Hex. unfold recover_from.
  eapply wp_step; [done|]. cbv beta iota.
  assert (fst (db_open_read_only from d) = None) as Eok by (apply db_open_read_only_ok; by rewrite Esnap).
  destruct (db_open_read_only from d) as [st db] eqn:Eo. cbn in Eok. subst st.
  destruct (db_open_read_only_law _ _ _ Eo) as [Hdb Ec]. rewrite checkpoint_create_ok.
  apply wp_bind. rewrite Hp. apply wp_on_disk. intros st d1 Ecc.
  pose proof (create_checkpoint_ok db path d Hex) as Eok. rewrite Ecc in Eok. cbn in Eok. subst st.
  destruct (create_checkpoint_law _ _ _ _ _ Ecc) as [Hto _]; [rewrite Hdb; by symmetry|].
  rewrite decide_True in Hto by done. apply wp_bind, wp_on_disk. intros r d2 Ed. apply wp_bind.
  eapply wp_mono; [apply (open_or_die_wp (d2, s) (db_content db))|]; cbn; rewrite ?Hp.
  - by rewrite (fs_delete_file_law _ _ _ _ _ Ed).
  - by intros [] w' _.
Qed.

Lemma recover_closed_wp path from w m snap :
  apart path (bak path) → apart from path → apart from (bak path) →
  _data_path (snd w) = path → dir_content (fst w) path = Some m →
  dir_content (fst w) from = Some snap →
  wp (recover_closed from) w (λ r _, r = (OK, false)).
Proof.
  destruct w as [d s]; cbn. intros Hab Hfp Hfb Hp Em Esnap. unfold recover_closed.
  eapply wp_step; [done|]. cbv beta iota. rewrite Hp. fold (bak path). apply wp_bind.
  assert (∃ d1, (if fs_path_exists (bak path) d then on_disk (fs_delete_file (bak path)) else mret true)
                    (d, s) = Some (true, (d1, s)) ∧ fs_path_exists (bak path) d1 = false ∧
          ∀ q, apart q (bak path) → dir_content d1 q = dir_content d q) as (d1 & E1 & Hex & Hf1).
  { destruct (fs_path_exists (bak path) d) eqn:Ex; [|by exists d].
    destruct (fs_delete_file_ok (bak path) d) as [Er Ex'].
    destruct (fs_delete_file (bak path) d) as [r d1] eqn:Ed. cbn in Er, Ex'. subst r. exists d1.
    split_and!; [unfold on_disk; cbn; by rewrite Ed|done|]. intros q. by eapply fs_delete_file_law. }
  unfold wp at 1. rewrite E1. cbn [negb]. apply wp_bind, wp_on_disk. intros r d2 Er.
  destruct (fs_rename_law _ _ _ _ _ Er Hab) as (Ht & _ & Hf2).
  destruct (fs_rename_ok path (bak path) d1) as [Er' Hex']; [rewrite Hf1, Em by done; done|done|].
  rewrite Er in Er', Hex'. cbn in Er', Hex'. subst r. cbn [negb]. unfold scope_exit. apply wp_bind.
  eapply wp_mono; [apply (recover_from_wp path from (d2, s) m snap); cbn; try done|].
  - by rewrite Ht, Hf1.
  - by rewrite Hf2, Hf1.
  - by intros r w' ->.
Qed.

Lemma recover_wp path from d db snap :
  apart path (bak path) → apart from path → apart from (bak path) →
  db_path db = path → dir_content d from = Some snap →
  wp (recover (Some from)) (d, mkRocksdbStore path (Opened db)) (λ st w',
    st = OK ∧ open_on snap path w').
Proof.
  intros Hab Hfp Hfb Hp Esnap. pose proof (db_close_ok db d) as Ecl.
  destruct (db_close db d) as [st d1] eqn:Ed. cbn in Ecl. subst st.
  destruct (db_close_law _ _ _ _ Ed) as [Hm Hframe]. specialize (Hm eq_refl). rewrite Hp in Hm, Hframe.
  set (w1 := (d1, mkRocksdbStore path Null) : World DB Disk).
  assert (close (d, mkRocksdbStore path (Opened db)) = Some (OK, w1)) as Ec.
  { unfold close. erewrite bind_step by done. cbn. by rewrite Ed. }
  unfold recover. eapply wp_step; [exact Ec|]. rewrite ok_OK. cbn [negb]. unfold scope_exit. apply wp_bind.
  pose proof (recover_closed_wp path from w1 (db_content db) snap Hab Hfp Hfb eq_refl Hm) as Hwp.
  pose proof (recover_closed_wlp path from w1 (db_content db) snap Hab Hfp Hfb eq_refl Hm) as Hwlp.
  eapply wp_mono; [apply wp_and; [apply Hwp|apply Hwlp]; cbn; by rewrite Hframe|].
  intros [st run] w' [[= -> ->] (_ & _ & Ho)]. by eapply wp_eval.
Qed.

Lemma check_point_wp path to files d db :
  apart to path → db_path db = path → fs_path_exists to d = false →
  wp (check_point (Some to) (Some files)) (d, mkRocksdbStore path (Opened db)) (λ r w',
    fst r = OK ∧ snd w' = mkRocksdbStore path (Opened db) ∧ dir_content (fst w') to = Some (db_content db)).
Proof.
  intros Ha Hp Hex. unfold check_point. eapply wp_step.
  { unfold on_store. apply zoom_step. by apply the_db_eq. }
  cbn [fst snd]. apply wp_bind, wp_on_disk. intros st d1 Ef. pose proof (db_flush_ok db d) as Eok.
  pose proof (db_flush_exists to db d) as Hex1. rewrite Ef in Eok, Hex1. cbn in Eok, Hex1. subst st.
  rewrite checkpoint_create_ok. apply wp_bind, wp_on_disk. intros st d2 Ecc.
  pose proof (create_checkpoint_ok db to d1) as Eok. rewrite Ecc in Eok. cbn in Eok.
  rewrite Eok in * by (rewrite Hex1 by (by rewrite Hp); done).
  destruct (create_checkpoint_law _ _ _ _ _ Ecc) as [Hto _]; [by rewrite Hp|].
  rewrite decide_True in Hto by done. eapply wp_step; [done|]. cbv beta iota.
  destruct (fs_directory_reader_ok to d2) as [names ->]; [by rewrite Hto|].
  by eapply wp_eval.
Qed.

(** Writes: a value to set, or none to delete the field. *)
Fixpoint apply_writes (ws : list (string * string * option string)) : Prog (RocksdbStore DB) unit :=
  match ws with
  | [] => mret tt
  | (k, f, Some v) :: rest => _ ← hset k f v; apply_writes rest
  | (k, f, None) :: rest => _ ← hdel k f; apply_writes rest
  end.

Lemma apply_writes_eq ws path db :
  ∃ db', apply_writes ws (mkRocksdbStore path (Opened db)) = Some (tt, mkRocksdbStore path (Opened db')) ∧
    db_path db' = db_path db.
Proof.
  revert db; induction ws as [|[[k f] [v|]] ws IH]; intros db; [by exists db|..]; cbn [apply_writes].
  - pose proof (db_put_path (make_key k f) v db) as Hp.
    destruct (db_put (make_key k f) v db) as [st db1] eqn:E. destruct (IH db1) as (db' & E' & Hp').
    exists db'. split; [|by rewrite Hp'].
    by rewrite (bind_step _ _ _ _ _ (hset_eq k f v (mkRocksdbStore path (Opened db)) db st db1 eq_refl E)).
  - pose proof (db_delete_path (make_key k f) db) as Hp.
    destruct (db_delete (make_key k f) db) as [st db1] eqn:E. destruct (IH db1) as (db' & E' & Hp').
    exists db'. split; [|by rewrite Hp'].
    by rewrite (bind_step _ _ _ _ _ (hdel_eq k f (mkRocksdbStore path (Opened db)) db st db1 eq_refl E)).
Qed.

(** C23: Taking a checkpoint, writing, and recovering from the checkpoint brings back the
    entries the store had at the checkpoint, if no call to the disk fails on the way. *)
Theorem checkpoint_recover path to files ws d db :
  apart path (bak path) → apart to path → apart to (bak path) →
  db_path db = path → fs_path_exists to d = false →
  wp ('(st1, _) ← check_point (Some to) (Some files); _ ← on_store (apply_writes ws);
      st2 ← recover (Some to); mret (st1, st2))
    (d, mkRocksdbStore path (Opened db)) (λ '(st1, st2) w',
      st1 = OK ∧ st2 = OK ∧ open_on (db_content db) path w').
Proof.
  intros Hab Hfp Hfb Hp Hex. apply wp_bind. eapply wp_mono; [by apply check_point_wp|].
  intros [st1 fs] [d1 s1]. cbn. intros (-> & -> & Ec).
  destruct (apply_writes_eq ws path db) as (db' & Ew & Hp').
  eapply wp_step; [unfold on_store; by apply zoom_step|]. apply wp_bind.
  eapply wp_mono; [apply (recover_wp path to d1 db' (db_content db)); [done..|congruence|done]|].
  cbv beta. intros st2 w' [-> Ho]. by eapply wp_eval.
Qed.
End recovery.

(** ** A concrete database and disk, for witnesses *)
Module MapRocksdb.
Record DB := mkDB { path : string; content : gmap string string }.
Abbreviation Disk := (gmap string (gmap string string)).
Record RIt := mkRIt { all : list (string * string); rest : list (string * string) }.

Definition key_le (e1 e2 : string * string) : Prop := str_ltb (fst e2) (fst e1) = false.
#[local] Instance key_le_dec e1 e2 : Decision (key_le e1 e2).
Proof. unfold key_le. apply _. Defined.

Lemma str_ltb_tri a b : str_ltb a b = true ∨ a = b ∨ str_ltb b a = true.
Proof.
  revert b; induction a as [|c a IH]; intros [|d b]; cbn; auto.
  rewrite !orb_true_iff, !andb_true_iff, !N.ltb_lt.
  destruct (N.lt_trichotomy (N_of_ascii c) (N_of_ascii d)) as [?|[E|?]]; [auto| |auto].
  apply (f_equal ascii_of_N) in E. rewrite !ascii_N_embedding in E. subst d.
  rewrite Ascii.eqb_refl. destruct (IH b) as [?|[->|?]]; auto.
Qed.

#[local] Instance key_le_total : Total key_le.
Proof.
  intros e1 e2. unfold key_le. destruct (str_ltb (fst e2) (fst e1)) eqn:E; [right|by left].
  destruct (str_ltb (fst e1) (fst e2)) eqn:E'; [|done].
  pose proof (str_ltb_trans _ _ _ E E') as Ec. by rewrite (starts_with_not_ltb (fst e2)) in Ec;
    [|rewrite <-(str_app_nil_r (fst e2)) at 2; apply starts_with_app].
Qed.

#[local] Instance key_le_trans : Transitive key_le.
Proof.
  intros e1 e2 e3. unfold key_le. intros H1 H2. destruct (str_ltb (fst e3) (fst e1)) eqn:E; [|done].
  destruct (str_ltb_tri (fst e1) (fst e2)) as [E'|[E'|E']]; [|congruence..].
  by rewrite (str_ltb_trans _ _ _ E E') in H2.
Qed.

Definition sorted (m : gmap string string) : list (string * string) := merge_sort key_le (map_to_list m).

#[global] Instance ops : RocksdbOps DB RIt := {
  db_put k v db := (None, mkDB (path db) (<[k := v]> (content db)));
  db_get k v db := match content db !! k with Some w => (None, w) | None => (Some "NotFound: ", v) end;
  db_delete k db := (None, mkDB (path db) (delete k (content db)));
  db_new_iterator db := mkRIt (sorted (content db)) [];
  rit_seek k it := mkRIt (all it) (drop_while (λ e, str_ltb (fst e) k) (all it));
  rit_valid it := match rest it with [] => false | _ => true end;
  rit_key it := match rest it with [] => "" | e :: _ => fst e end;
  rit_value it := match rest it with [] => "" | e :: _ => snd e end;
  rit_next it := mkRIt (all it) (tail (rest it));
}.

Lemma elem_of_sorted m k v : (k, v) ∈ sorted m ↔ m !! k = Some v.
Proof. unfold sorted. rewrite merge_sort_Permutation. apply elem_of_map_to_list. Qed.

Lemma sorted_strict m : StronglySorted (λ e1 e2, str_ltb (fst e1) (fst e2) = true) (sorted m).
Proof.
  assert (NoDup (fst <$> sorted m)) as Hnd.
  { unfold sorted. rewrite merge_sort_Permutation. apply NoDup_fst_map_to_list. }
  pose proof (StronglySorted_merge_sort key_le (map_to_list m)) as Hs. fold (sorted m) in Hs.
  induction Hs as [|e l Hs IH Hall]; [constructor|]. apply NoDup_cons in Hnd as [He Hnd].
  constructor; [by apply IH|]. rewrite Forall_forall in *. intros e' He'. specialize (Hall e' He').
  unfold key_le in Hall. destruct (str_ltb_tri (fst e) (fst e')) as [?|[E|?]]; [done| |congruence].
  exfalso. apply He. rewrite E. by apply list_elem_of_fmap_2.
Qed.

#[global] Program Instance laws : @RocksdbLaws DB RIt ops :=
  {| db_content := content; rit_all := all; rit_rest := rest |}.
Next Obligation. intros k v db st db' [= <- <-]. done. Qed.
Next Obligation. intros k db st db' [= <- <-]. done. Qed.
Next Obligation. intros k v w db E. cbn in *. by rewrite E. Qed.
Next Obligation. intros k v db E. cbn in *. by rewrite E. Qed.
Next Obligation. intros db k v. apply elem_of_sorted. Qed.
Next Obligation. intros db. apply sorted_strict. Qed.
Next Obligation. done. Qed.
Next Obligation. done. Qed.
Next Obligation. intros it [k v] es E. cbn in *. by rewrite E. Qed.
Next Obligation. intros it e es E. cbn in *. by rewrite E. Qed.

#[global] Instance disk_ops : DiskOps DB Disk := {
  db_open c p d :=
    match d !! p with
    | Some m => (None, mkDB p m, d)
    | None => if c then (None, mkDB p ∅, <[p := ∅]> d) else (Some "missing", mkDB p ∅, d)
    end;
  db_open_read_only p d :=
    match d !! p with Some m => (None, mkDB p m) | None => (Some "missing", mkDB p ∅) end;
  db_close db d := (None, <[path db := content db]> d);
  db_flush db d := (None, <[path db := content db]> d);
  checkpoint_create db := None;
  create_checkpoint db to d :=
    if decide (is_Some (d !! to)) then (Some "exists", d) else (None, <[to := content db]> d);
  fs_directory_exists p d := bool_decide (is_Some (d !! p));
  fs_create_directory p d := (true, d);
  fs_path_exists p d := bool_decide (is_Some (d !! p));
  fs_delete_file p d := (true, delete p d);
  fs_rename a b d :=
    match d !! a with
    | Some m => if decide (is_Some (d !! b)) then (false, d) else (true, <[b := m]> (delete a d))
    | None => (false, d)
    end;
  fs_directory_reader p d := (λ _, ["CURRENT"]) <$> d !! p;
}.

#[global] Program Instance disk_laws : @DiskLaws DB RIt ops laws Disk disk_ops :=
  {| db_path := path; dir_content (d : Disk) p := d !! p; apart := (≠) |}.
Next Obligation. intros d p. apply bool_decide_eq_true_2. Qed.
Next Obligation. done. Qed.
Next Obligation. done. Qed.
Next Obligation.
  intros c p d db d' E. cbn in E. destruct (d !! p) as [m|] eqn:Ep.
  - injection E as <- <-. split; [done|by left].
  - destruct c; [|done]. injection E as <- <-. split; [done|]. by right.
Qed.
Next Obligation. intros p d db E. cbn in E. destruct (d !! p) as [m|] eqn:Ep; [|done]. by injection E as <-. Qed.
Next Obligation.
  intros db d st d' [= <- <-]. cbn. split; [intros _; by rewrite lookup_insert_eq|].
  intros q Hq. by rewrite lookup_insert_ne.
Qed.
Next Obligation. intros db d st d' q [= <- <-] Hq. cbn in *. by rewrite lookup_insert_ne. Qed.
Next Obligation.
  intros db to d st d' E Ha. cbn in E. case_decide; injection E as <- <-; [done|].
  cbn. rewrite lookup_insert_eq. split; [done|]. intros q Hq _. by rewrite lookup_insert_ne.
Qed.
Next Obligation. intros p d r d' q [= <- <-] Hq. cbn in *. by rewrite lookup_delete_ne. Qed.
Next Obligation.
  intros a b d r d' E Ha. cbn in E. destruct (d !! a) as [m|] eqn:Ea; [case_decide|];
    injection E as <- <-; [done| |done].
  cbn. rewrite lookup_insert_eq. split_and!; [done|done|].
  intros q Hqa Hqb. by rewrite lookup_insert_ne, lookup_delete_ne.
Qed.

#[global] Instance disk_reliable : DiskReliable (Disk := Disk).
Proof.
  split; cbn; try done.
  - intros q db d Hq. by rewrite lookup_insert_ne.
  - intros db to d E%bool_decide_eq_false. by rewrite decide_False.
  - intros c p d [m ->]. done.
  - intros p d [m ->]. done.
  - intros p d. by rewrite lookup_delete_eq.
  - intros a b d [m E] Eb%bool_decide_eq_false. rewrite E, decide_False by done. cbn. split; [done|].
    rewrite lookup_insert_ne, lookup_delete_eq; [done|]. intros <-. by apply Eb.
  - intros p d [m ->]. by eexists.
Qed.
End MapRocksdb.

(** ** Witnesses *)
Module Witness.
Import MapRocksdb.

(** The keys of the sources: the two tables of the registry. *)
Definition K0 (k : string) : Prop := k = "deva" ∨ k = "pain".
#[local] Instance K0_separated : Separated K0.
Proof. intros k1 k2 f [-> | ->] [-> | ->]; cbn; done. Qed.

Definition db0 : DB := mkDB "/data" ∅.
Definition db1 : DB := mkDB "/data" {["deva_a" := "1"]}.
Definition store1 : RocksdbStore DB := mkRocksdbStore "/data" (Opened db1).
Definition disk1 : Disk := {["/snap" := {["pain_b" := "2"]}]}.
Definition cmds0 : list KvCmd := [CSet "deva" "a" "1"; CGet "deva" "a"; CLen "pain"].

Lemma entries1 : length (entries db1) < 2.
Proof.
  unfold entries. cbn [rit_all laws db_new_iterator ops all db1 content].
  unfold sorted. rewrite merge_sort_Permutation, length_map_to_list, map_size_singleton. lia.
Qed.

Lemma cmds0_keys c : c ∈ cmds0 → K0 (cmd_key c).
Proof. unfold cmds0, K0. intros H. repeat (apply elem_of_cons in H as [->|H]; [cbn; auto|]). by apply elem_of_nil in H. Qed.

Lemma hgetall_scan_witness :
  wp (it ← hgetall "dev"; r ← hlen 2 "dev" (Some 0%Z); mret (it, r)) store1 (λ '(it, (st, _)) _,
    st = OK ∧ ∃ es, yields it es).
Proof.
  pose proof (hgetall_scan "dev" store1 db1 0%Z 2 eq_refl entries1) as Hw.
  eapply wp_mono; [exact Hw|]. intros [it [st len]] s' (_ & es & Hy & E & _).
  split; [exact E|]. exists es. exact Hy.
Defined.

Lemma rocksdb_refines_witness :
  wp (exec_cmds 4 cmds0) (mkRocksdbStore "/data" (Opened db0)) (λ answers _,
    ∃ h, spec_cmds ∅ cmds0 answers h).
Proof.
  pose proof (rocksdb_refines K0 4 cmds0 "/data" db0 cmds0_keys eq_refl ltac:(cbn; lia)) as Hw.
  exact Hw.
Defined.

Lemma snap_content : dir_content (RIt := RIt) disk1 "/snap" = Some {["pain_b" := "2"]}.
Proof. apply lookup_singleton_eq. Qed.

Lemma data_bak : apart "/data" (bak "/data").
Proof. cbn. discriminate. Qed.
Lemma other_path p : (p =? "/data")%string = false → (p =? "/data.bak")%string = false →
  apart p "/data" ∧ apart p (bak "/data").
Proof. intros E1 E2. cbn. split; intros ->; discriminate. Qed.
Lemma snap_apart : apart "/snap" "/data" ∧ apart "/snap" (bak "/data").
Proof. by apply other_path. Qed.
Lemma new_apart : apart "/new" "/data" ∧ apart "/new" (bak "/data").
Proof. by apply other_path. Qed.

Lemma recover_atomic_witness :
  wlp (recover (Some "/snap")) (disk1, store1) (λ st w',
    open_on (if ok st then {["pain_b" := "2"]} else {["deva_a" := "1"]}) "/data" w').
Proof.
  pose proof (recover_atomic "/data" "/snap" disk1 db1 _
    data_bak (proj1 snap_apart) (proj2 snap_apart) eq_refl snap_content) as Hw.
  exact Hw.
Defined.

Lemma new_checkpoint : fs_path_exists "/new" disk1 = false.
Proof. cbn. apply bool_decide_false. unfold disk1. rewrite lookup_singleton_ne by done. by intros [? ?]. Qed.

Lemma checkpoint_recover_witness :
  wp ('(st1, _) ← check_point (Some "/new") (Some []);
      _ ← on_store (apply_writes [("deva", "a", Some "7"); ("deva", "b", None)]);
      st2 ← recover (Some "/new"); mret (st1, st2)) (disk1, store1)
    (λ '(st1, st2) w', st1 = OK ∧ st2 = OK ∧ open_on {["deva_a" := "1"]} "/data" w').
Proof.
  pose proof (checkpoint_recover "/data" "/new" [] [("deva", "a", Some "7"); ("deva", "b", None)]
    disk1 db1 data_bak (proj1 new_apart) (proj2 new_apart) eq_refl new_checkpoint) as Hw.
  exact Hw.
Defined.
End Witness.
