(* ===== verification/AsuraService.v ===== *)
(** * The registry service ([src/asura/asura_service_impl.h], [src/asura/asura_service_impl.cc])

    [AsuraServiceImpl] keeps two tables in a key-value store: metadata servers and chunk
    servers by the printed UUID of the server. Its handlers are programs on the store; they are
    verified against the interface of [KvStore.v], and instantiated with the RocksDB store for
    the witnesses. Serialization of messages is third-party code ([ServerProto]). A handler
    appends to the response it is given, which is empty for a fresh RPC. *)
From S2P Require Import Prelude Bytes Uuid Proto KvStore RocksdbStore.
From Stdlib Require Import Strings.Ascii.
Import Proto.Proto.
Set Default Goal Selector "!".
Local Open Scope Z_scope.

Module Asura.

Definition ASURA_DEVA : string := "asura_deva".
Definition ASURA_MANUSYA : string := "asura_manusya".

(** ** Messages ([protocols/pain/proto/asura.proto]) *)
Record DevaServer := mkDevaServer { deva_id : UUIDMsg; deva_ip : string; deva_port : Z }.
Record ManusyaServer := mkManusyaServer {
  manusya_id : UUIDMsg; manusya_ip : string; manusya_port : Z; manusya_pool_id : UUIDMsg }.
(** [RegisterDevaResponse::Result], [RegisterManusyaResponse::Result]. *)
Record Result := mkResult { result_id : UUIDMsg; code : Z; message : string }.

(** [SerializeAsString], and the message after [ParseFromArray], whose result is ignored. *)
Class ServerProto := {
  serialize_deva : DevaServer → string;
  parse_deva : string → DevaServer;
  serialize_manusya : ManusyaServer → string;
  parse_manusya : string → ManusyaServer;
}.

Class ServerProtoLaws `{ServerProto} : Prop := {
  parse_serialize_deva m : parse_deva (serialize_deva m) = m;
}.

Section service.
Context `{KvOps St It} `{UuidOps} `{ServerProto}.

(** The body of the loop of [RegisterDeva]: the result for one server. *)
Definition register_deva (deva_server : DevaServer) : Prog St Result :=
  let uuid := msg_uuid (deva_id deva_server) in
  exists_ ← hexists ASURA_DEVA (uuid_str uuid);
  if (exists_ : bool)
  then mret (mkResult (deva_id deva_server) EEXIST
         (uuid_str uuid +:+ " existed. ip:" +:+ deva_ip deva_server +:+ ", port:" +:+
          fmt_u (deva_port deva_server)))
  else
    status ← hset ASURA_DEVA (uuid_str uuid) (serialize_deva deva_server);
    mret (if negb (ok status)
          then mkResult (deva_id deva_server) (error_code status) (error_str status)
          else mkResult (deva_id deva_server) 0 "ok").

(** [AsuraServiceImpl::RegisterDeva]. *)
Fixpoint RegisterDeva (deva_servers : list DevaServer) (results : list Result) : Prog St (list Result) :=
  match deva_servers with
  | [] => mret results
  | deva_server :: rest =>
      result ← register_deva deva_server; RegisterDeva rest (results ++ [result])
  end.

(** The body of the loop of [RegisterManusya]: [EEXIST] when the server is not there yet. *)
Definition register_manusya (manusya_server : ManusyaServer) : Prog St Result :=
  let uuid := msg_uuid (manusya_id manusya_server) in
  exists_ ← hexists ASURA_MANUSYA (uuid_str uuid);
  if negb exists_
  then mret (mkResult (manusya_id manusya_server) EEXIST
         (uuid_str uuid +:+ " existed. ip:" +:+ manusya_ip manusya_server +:+ ", port:" +:+
          fmt_u (manusya_port manusya_server)))
  else
    status ← hset ASURA_MANUSYA (uuid_str uuid) (serialize_manusya manusya_server);
    mret (if negb (ok status)
          then mkResult (manusya_id manusya_server) (error_code status) (error_str status)
          else mkResult (manusya_id manusya_server) 0 "ok").

(** [AsuraServiceImpl::RegisterManusya]. *)
Fixpoint RegisterManusya (manusya_servers : list ManusyaServer) (results : list Result) :
    Prog St (list Result) :=
  match manusya_servers with
  | [] => mret results
  | manusya_server :: rest =>
      result ← register_manusya manusya_server; RegisterManusya rest (results ++ [result])
  end.

(** [AsuraServiceImpl::ListDeva], with the fuel of its loop. *)
Definition ListDeva (fuel : nat) (deva_servers : list DevaServer) : Prog St (list DevaServer) :=
  it ← hgetall ASURA_DEVA;
  match iterate fuel (λ it l, l ++ [parse_deva (it_value it)]) it deva_servers with
  | None => abort
  | Some l => mret l
  end.

(** [AsuraServiceImpl::ListManusya]. *)
Definition ListManusya (fuel : nat) (manusya_servers : list ManusyaServer) :
    Prog St (list ManusyaServer) :=
  it ← hgetall ASURA_MANUSYA;
  match iterate fuel (λ it l, l ++ [parse_manusya (it_value it)]) it manusya_servers with
  | None => abort
  | Some l => mret l
  end.

(** The requests that change the registry. *)
Inductive asura_step : relation St :=
| step_register_deva servers s rs s' : RegisterDeva servers [] s = Some (rs, s') → asura_step s s'
| step_register_manusya servers s rs s' : RegisterManusya servers [] s = Some (rs, s') → asura_step s s'.
End service.

(** The keys the service uses. *)
Definition table (k : string) : Prop := k = ASURA_DEVA ∨ k = ASURA_MANUSYA.

#[export] Instance table_separated : Separated table.
Proof. intros k1 k2 f [-> | ->] [-> | ->]; cbn; done. Qed.

(** The field of a server. *)
Definition deva_field `{UuidOps} (srv : DevaServer) : string := uuid_str (msg_uuid (deva_id srv)).

(** The servers whose registration was answered by 0. *)
Fixpoint accepted (servers : list DevaServer) (results : list Result) : list DevaServer :=
  match servers, results with
  | srv :: servers, r :: results =>
      if decide (code r = 0) then srv :: accepted servers results else accepted servers results
  | _, _ => []
  end.

(** ** Lemmas *)
Section lemmas.
Context `{KvLaws St It table} `{UuidOps} `{ServerProtoLaws}.
Implicit Types (s : St) (h : Hashes).

Lemma table_deva : table ASURA_DEVA.
Proof. by left. Qed.
Lemma table_manusya : table ASURA_MANUSYA.
Proof. by right. Qed.

Lemma ok_code st : ok st = true ↔ error_code st = 0.
Proof. unfold ok. apply Z.eqb_eq. Qed.

(** One registration: refused when the field exists, otherwise stored if the store says so. *)
Lemma register_deva_wp srv s h :
  kv_rep s h →
  wp (register_deva srv) s (λ r s',
    if decide (code r = 0)
    then h !! (ASURA_DEVA, deva_field srv) = None ∧
         kv_rep s' (<[(ASURA_DEVA, deva_field srv) := serialize_deva srv]> h)
    else kv_rep s' h ∧ (is_Some (h !! (ASURA_DEVA, deva_field srv)) → code r = EEXIST)).
Proof.
  intros Hr. unfold register_deva. apply wp_bind.
  eapply wp_mono; [by apply hexists_law, Hr; apply table_deva|]. cbv beta. intros b s' [-> ->].
  fold (deva_field srv). destruct (h !! (ASURA_DEVA, deva_field srv)) as [v|] eqn:E.
  - rewrite bool_decide_true by done. eapply wp_eval; [done|]. cbn. by rewrite decide_False.
  - rewrite bool_decide_false by (by intros [? ?]). apply wp_bind.
    eapply wp_mono; [by apply hset_law, Hr; apply table_deva|]. cbv beta. intros st s' Hr'.
    eapply wp_eval; [done|]. destruct (ok st) eqn:Eo; cbn.
    + done.
    + rewrite decide_False; [split; [done|by intros [? ?]]|]. intros Ec%ok_code. congruence.
Qed.

Lemma hash_values_insert h k f v :
  h !! (k, f) = None → hash_values (<[(k, f) := v]> h) k ≡ₚ v :: hash_values h k.
Proof.
  intros E. unfold hash_values, hash. rewrite map_filter_insert_True by done.
  rewrite map_to_list_insert; [done|]. apply map_lookup_filter_None. by left.
Qed.

Lemma hash_values_other h k k' f v :
  k ≠ k' → hash_values (<[(k, f) := v]> h) k' = hash_values h k'.
Proof.
  intros Hk. unfold hash_values, hash. rewrite map_filter_insert_not'; [done| |]; [by intros ?|].
  intros w _. by cbn.
Qed.

(** What a request leaves behind, given the results it adds. *)
Record deva_registered (servers : list DevaServer) (news : list Result) h h' : Prop := {
  reg_length : length news = length servers;
  reg_values : hash_values h' ASURA_DEVA ≡ₚ
               hash_values h ASURA_DEVA ++ (serialize_deva <$> accepted servers news);
  reg_new srv : srv ∈ accepted servers news → h !! (ASURA_DEVA, deva_field srv) = None;
  reg_nodup : NoDup (deva_field <$> accepted servers news);
  reg_exists i srv : servers !! i = Some srv → is_Some (h !! (ASURA_DEVA, deva_field srv)) →
                     code <$> news !! i = Some EEXIST;
  reg_size : (size h' <= size h + length servers)%nat;
  reg_manusya f : h' !! (ASURA_MANUSYA, f) = h !! (ASURA_MANUSYA, f);
}.

Lemma registered_cons srv servers r news h h1 h' :
  (if decide (code r = 0)
   then h !! (ASURA_DEVA, deva_field srv) = None ∧
        h1 = <[(ASURA_DEVA, deva_field srv) := serialize_deva srv]> h
   else h1 = h ∧ (is_Some (h !! (ASURA_DEVA, deva_field srv)) → code r = EEXIST)) →
  deva_registered servers news h1 h' → deva_registered (srv :: servers) (r :: news) h h'.
Proof.
  intros Hreg1 [Hl Hv Hnew Hnd Hex Hs Hm]. destruct (decide (code r = 0)) as [Hc|Hc].
  - destruct Hreg1 as [E ->]. assert (∀ x, x ∈ accepted servers news →
      deva_field srv ≠ deva_field x ∧ h !! (ASURA_DEVA, deva_field x) = None) as Hother.
    { intros x Hx%Hnew. apply lookup_insert_None in Hx as [Hn Hne]. split; [|done]. congruence. }
    split; cbn [accepted length]; rewrite ?decide_True by done.
    + by rewrite Hl.
    + rewrite Hv, (hash_values_insert _ _ _ _ E). cbn. by rewrite Permutation_middle.
    + intros x [-> | Hx]%elem_of_cons; [done|]. by apply Hother.
    + cbn. constructor; [|done]. intros (x & Ex & Hx)%list_elem_of_fmap. by apply (Hother x Hx).
    + intros [|i] x; cbn; [intros [= ->]; rewrite E; by intros [? ?]|].
      intros Ei [v Ex]. apply (Hex i x Ei). destruct (decide (deva_field srv = deva_field x)) as [Ef|].
      * by rewrite <-Ef, E in Ex.
      * rewrite lookup_insert_ne by congruence. by eexists.
    + rewrite map_size_insert_None in Hs by done. lia.
    + intros f. rewrite Hm. rewrite lookup_insert_ne; [done|]. by intros [= ?].
  - destruct Hreg1 as [-> Hr]. split; cbn [accepted length]; rewrite ?decide_False by done; try done.
    + by rewrite Hl.
    + intros [|i] x; cbn; [intros [= ->] Hi; by rewrite Hr|]. apply Hex.
    + lia.
Qed.

Lemma RegisterDeva_wp servers results s h :
  kv_rep s h →
  wp (RegisterDeva servers results) s (λ rs s', ∃ news h',
    rs = results ++ news ∧ kv_rep s' h' ∧ deva_registered servers news h h').
Proof.
  revert results s h; induction servers as [|srv servers IH]; intros results s h Hr; cbn [RegisterDeva].
  { eapply wp_eval; [done|]. exists [], h. rewrite app_nil_r. split_and!; [done..|].
    split; cbn; try done; [by rewrite app_nil_r|by intros ? ?%elem_of_nil|constructor|lia]. }
  apply wp_bind. eapply wp_mono; [by apply register_deva_wp|]. cbv beta. intros r s1 Hreg1.
  assert (∃ h1, kv_rep s1 h1 ∧ if decide (code r = 0)
     then h !! (ASURA_DEVA, deva_field srv) = None ∧
          h1 = <[(ASURA_DEVA, deva_field srv) := serialize_deva srv]> h
     else h1 = h ∧ (is_Some (h !! (ASURA_DEVA, deva_field srv)) → code r = EEXIST)) as (h1 & Hr1 & Hc).
  { destruct (decide (code r = 0)); [destruct Hreg1|destruct Hreg1]; by eexists. }
  eapply wp_mono; [by apply IH|]. cbv beta. intros rs s' (news & h' & -> & Hr' & Hreg).
  exists (r :: news), h'. split_and!; [by rewrite <-app_assoc|done|]. by eapply registered_cons.
Qed.

Lemma ListDeva_wp fuel l s h :
  kv_rep s h → (size h < fuel)%nat →
  wp (ListDeva fuel l) s (λ l' s', s' = s ∧ ∃ l1, l' = l ++ l1 ∧
    l1 ≡ₚ parse_deva <$> hash_values h ASURA_DEVA).
Proof.
  intros Hr Hf. unfold ListDeva. apply wp_bind.
  eapply wp_mono; [by apply hgetall_law, Hr; apply table_deva|]. cbv beta.
  intros it s' (-> & es & Hy & Hp). assert (length es < fuel)%nat.
  { pose proof (length_hash_values h ASURA_DEVA). rewrite <-Hp, length_fmap in *. lia. }
  rewrite (iterate_yields _ (λ _ v l, l ++ [parse_deva v]) it es) by done. eapply wp_eval; [done|].
  split; [done|]. rewrite (foldl_snoc (λ e, parse_deva (snd e))). eexists. split; [done|].
  rewrite <-Hp, <-list_fmap_compose. done.
Qed.

(** [ListDeva] after [RegisterDeva] lists the metadata servers that were registered
    before, and, unchanged, those of the request whose result has code 0. There is one result
    per server, in order; servers that were registered before get EEXIST, and of several servers
    with one id at most one is accepted. *)
Theorem register_list_deva servers s h fuel :
  kv_rep s h → (size h + length servers < fuel)%nat →
  wp (results ← RegisterDeva servers []; listed ← ListDeva fuel []; mret (results, listed)) s
    (λ '(results, listed) _,
      length results = length servers ∧
      listed ≡ₚ (parse_deva <$> hash_values h ASURA_DEVA) ++ accepted servers results ∧
      NoDup (deva_field <$> accepted servers results) ∧
      ∀ i srv, servers !! i = Some srv → is_Some (h !! (ASURA_DEVA, deva_field srv)) →
        code <$> results !! i = Some EEXIST).
Proof.
  intros Hr Hf. apply wp_bind. eapply wp_mono; [by apply RegisterDeva_wp|]. cbv beta.
  intros rs s' (news & h' & -> & Hr' & Hreg). cbn [app]. apply wp_bind.
  pose proof (reg_size _ _ _ _ Hreg). eapply wp_mono; [apply ListDeva_wp; [exact Hr'|lia]|].
  cbv beta. intros l s2 (-> & l1 & -> & Hl). eapply wp_eval; [done|]. cbn [app].
  split_and!; [apply Hreg| |apply Hreg|apply Hreg].
  rewrite Hl, (reg_values _ _ _ _ Hreg), fmap_app, <-list_fmap_compose.
  apply Permutation_app_head. rewrite <-(list_fmap_id (accepted servers news)) at 2.
  erewrite list_fmap_ext; [done|]. intros i x _. cbn. apply parse_serialize_deva.
Qed.

(** No chunk server is registered. *)
Definition no_manusya s : Prop := ∃ h, kv_rep s h ∧ ∀ f, h !! (ASURA_MANUSYA, f) = None.

Lemma RegisterManusya_wp servers results s :
  no_manusya s →
  wp (RegisterManusya servers results) s (λ rs s', s' = s ∧ ∃ news, rs = results ++ news ∧
    code <$> news = replicate (length servers) EEXIST).
Proof.
  intros (h & Hr & Hm). revert results; induction servers as [|srv servers IH]; intros results;
    cbn [RegisterManusya].
  { eapply wp_eval; [done|]. split; [done|]. exists []. by rewrite app_nil_r. }
  apply wp_bind. unfold register_manusya. apply wp_bind.
  eapply wp_mono; [by apply hexists_law, Hr; apply table_manusya|]. cbv beta. intros b s' [-> ->].
  rewrite Hm, bool_decide_false by (by intros [? ?]). cbn [negb]. eapply wp_eval; [done|].
  eapply wp_mono; [apply IH|]. cbv beta. intros rs s' (-> & news & -> & E). split; [done|].
  eexists (_ :: news). split; [by rewrite <-app_assoc|]. cbn. by rewrite <-E.
Qed.

Lemma asura_step_no_manusya s s' : asura_step s s' → no_manusya s → no_manusya s'.
Proof.
  intros [servers s1 rs s2 E|servers s1 rs s2 E] Hm.
  - destruct Hm as (h & Hr & Hm). pose proof (RegisterDeva_wp servers [] s1 h Hr) as Hw.
    unfold wp in Hw. rewrite E in Hw. destruct Hw as (news & h' & _ & Hr' & Hreg). exists h'.
    split; [done|]. intros f. by rewrite (reg_manusya _ _ _ _ Hreg).
  - pose proof (RegisterManusya_wp servers [] s1 Hm) as Hw. unfold wp in Hw. rewrite E in Hw.
    by destruct Hw as [-> _].
Qed.

(** C36: Starting from an empty store no sequence of registrations ever registers a chunk
    server: [RegisterManusya] answers EEXIST for every server and stores nothing, and
    [ListManusya] lists nothing. *)
Theorem manusya_never_registers s0 s servers fuel :
  kv_rep s0 ∅ → rtc asura_step s0 s →
  wp (RegisterManusya servers []) s (λ results s', s' = s ∧
    code <$> results = replicate (length servers) EEXIST) ∧
  wp (ListManusya (S fuel) []) s (λ listed _, listed = []).
Proof.
  intros Hr Hst. assert (no_manusya s) as Hm.
  { assert (no_manusya s0) as Hm by (exists ∅; split; [done|intros; apply lookup_empty]). clear Hr.
    induction Hst as [|s1 s2 s3 Hs Hst IH]; [done|]. apply IH. by eapply asura_step_no_manusya. }
  split.
  - eapply wp_mono; [by apply RegisterManusya_wp|]. by intros rs s' (-> & news & -> & E).
  - destruct Hm as (h & Hr' & Hm). unfold ListManusya. apply wp_bind.
    eapply wp_mono; [by apply hgetall_law, Hr'; apply table_manusya|]. cbv beta.
    intros it s' (-> & es & Hy & Hp). assert (hash_values h ASURA_MANUSYA = []) as E.
    { destruct (hash_values h ASURA_MANUSYA) as [|v vs] eqn:E; [done|].
      assert (v ∈ hash_values h ASURA_MANUSYA) as [f Ef]%elem_of_hash_values by (rewrite E; left).
      by rewrite Hm in Ef. }
    rewrite E in Hp. apply Permutation_nil_r, fmap_nil_inv in Hp. subst es.
    rewrite (iterate_yields _ (λ _ v l, l ++ [parse_manusya v]) it []) by (done || cbn; lia).
    by eapply wp_eval.
Qed.
End lemmas.

(** ** A concrete serialization, for witnesses: a number in binary digits *)
Module CountServer.
Fixpoint digits (p : positive) : string :=
  match p with
  | xH => "" | xO p => String "0" (digits p) | xI p => String "1" (digits p)
  end.
Fixpoint undigits (s : string) : positive :=
  match s with
  | EmptyString => xH
  | String c s => if Ascii.eqb c "0" then xO (undigits s) else xI (undigits s)
  end.
Lemma undigits_digits p : undigits (digits p) = p.
Proof. induction p as [p IH|p IH|]; cbn; by rewrite ?IH. Qed.

Definition fields (m : DevaServer) := (msg_low (deva_id m), msg_high (deva_id m), deva_ip m, deva_port m).
Definition of_fields (x : Z * Z * string * Z) : DevaServer :=
  let '(l, h, ip, port) := x in mkDevaServer (mkUUIDMsg l h) ip port.

#[export] Instance ops : ServerProto := {
  serialize_deva m := digits (encode (fields m));
  parse_deva s := of_fields (default (0, 0, "", 0) (decode (undigits s)));
  serialize_manusya m := manusya_ip m;
  parse_manusya s := mkManusyaServer default_uuid s 0 default_uuid;
}.
#[export] Instance laws : ServerProtoLaws.
Proof.
  constructor. intros [[l h] ip port]. cbn -[encode decode digits undigits].
  by rewrite undigits_digits, decode_encode.
Qed.
End CountServer.

Module Witness.
Import MapRocksdb.
#[local] Existing Instances HexUuid.ops HexUuid.laws CountServer.ops CountServer.laws.

Definition store0 : RocksdbStore DB := mkRocksdbStore "/data" (Opened (mkDB "/data" ∅)).
Definition server0 : DevaServer := mkDevaServer (mkUUIDMsg 1 2) "10.0.0.1" 8000.
Definition chunk_server0 : ManusyaServer := mkManusyaServer (mkUUIDMsg 3 4) "10.0.0.2" 8003 default_uuid.

Lemma store0_rep : kv_rep (KvLaws := rocksdb_kv_laws table) store0 ∅.
Proof.
  eexists. split; [reflexivity|]. split; [by intros k f v ?%lookup_empty_Some|].
  intros rk v. cbn. by intros ?%lookup_empty_Some.
Qed.

Lemma two_servers_fit : (size (∅ : Hashes) + length [server0; server0] < 3)%nat.
Proof. rewrite map_size_empty. cbn. lia. Qed.

Lemma register_list_deva_witness :
  wp (results ← RegisterDeva [server0; server0] []; listed ← ListDeva 3 []; mret (results, listed)) store0
    (λ '(results, listed) _, length results = 2%nat ∧ listed ≡ₚ accepted [server0; server0] results).
Proof.
  pose proof (register_list_deva [server0; server0] store0 ∅ 3 store0_rep two_servers_fit) as Hw.
  eapply wp_mono; [exact Hw|]. intros [rs l] s' (El & Hl & _). split; [exact El|exact Hl].
Defined.

Lemma manusya_never_registers_witness :
  wp (RegisterManusya [chunk_server0] []) store0 (λ results s', s' = store0 ∧
    code <$> results = [EEXIST]).
Proof.
  pose proof (manusya_never_registers store0 store0 [chunk_server0] 0 store0_rep (rtc_refl _ _)) as Hw.
  exact (proj1 Hw).
Defined.
End Witness.
End Asura.
