(* ===== verification/Client.v ===== *)
(** * The client SDK ([src/deva/sdk/rpc_client.h], [src/deva/sdk/rpc_client.cc],
    [src/pain/file_system.cc])

    [call_rpc] sends a request to the leader of a raft group: it looks the leader up in braft's
    route table, refreshes the table when there is none, and follows redirections. [FileSystem]
    is the interface of applications; its members make one [call_rpc] each ([Stream.v] has the
    streams that it opens). The route table,
    channels and the remote servers are not code of this part: [NetOps] lists what the client
    calls, [NetLaws] what it relies on. The state [W] of the programs is the rest of the world. *)
From S2P Require Import Prelude Bytes Iobuf Uuid Store Proto Namespace Deva Op Rsm DevaService KvStore AsuraService.
Import Proto.Proto Deva.Deva Op.Op Rsm.Rsm DevaService.DevaService.
Set Default Goal Selector "!".
Local Open Scope Z_scope.

Definition ECONNREFUSED : Z := 111.
Definition EREMCHG : Z := 78.

Class NetOps (W : Type) := {
  PeerId : Type;
  no_peer : PeerId;                                 (* braft::PeerId() *)
  parse_peer : string → PeerId;                     (* braft::PeerId(const std::string&) *)
  peer_to_string : PeerId → string;
  (* braft::rtb; [None] is a non-zero result of [select_leader] *)
  select_leader : string → W → option PeerId;
  refresh_leader : string → Z → W → Status * W;
  update_leader : string → PeerId → W → W;
  update_configuration : string → string → W → W;
  (* whether [brpc::Channel::Init] returns 0: for a server, for an address, for a name
     service and a load balancer *)
  init_peer : PeerId → W → bool;
  init_address : string → W → bool;
  init_naming : string → string → W → bool;
}.

(** A synchronous call of a stub: the error code and text of a failed controller, or the
    response. *)
Definition Rpc `{NetOps W} (Req Resp : Type) : Type := PeerId → Req → W → ((Z * string) + Resp) * W.

Class NetLaws `{NetOps W} : Prop := {
  select_update g p w : p ≠ no_peer → select_leader g (update_leader g p w) = Some p;
  select_update_none g w : select_leader g (update_leader g no_peer w) = None;
  select_update_other g g' p w : g ≠ g' → select_leader g (update_leader g' p w) = select_leader g w;
  refresh_known g t w :
    ok (fst (refresh_leader g t w)) = true → is_Some (select_leader g (snd (refresh_leader g t w)));
}.

Module Client.

(** ** [deva::call_rpc] *)
Section rpc_client.
Context `{NetOps W}.

(** [init_channel]; a null channel is [None]. *)
Definition init_channel (group : string) (leader : PeerId) (channel : option unit) : Prog W Status :=
  match channel with
  | None => mret (mkStatus EINVAL "Channel is nullptr")
  | Some _ =>
      initialised ← gets (init_peer leader);
      if negb initialised then
        modify (update_leader group no_peer);;
        mret (mkStatus ECONNREFUSED ("Fail to init channel to " +:+ peer_to_string leader))
      else mret OK
  end.

Context {Req Resp : Type} (header : Resp → Header) (cleared : Resp).

(** The [while (true)] loop of [call_rpc], with a bound on its iterations: [None] says it is
    still running. The redirection updates the leader of the group "deva". *)
Fixpoint call_loop (fuel : nat) (group : string) (call_func : Rpc Req Resp) (request : Req)
    (response : Resp) (connect_timeout_ms : Z) : Prog W (option (Status * Resp)) :=
  match fuel with
  | O => mret None
  | S fuel =>
      selected ← gets (select_leader group);
      match selected with
      | None =>
          st ← external (refresh_leader group connect_timeout_ms);
          if negb (ok st) then mret (Some (st, response))
          else call_loop fuel group call_func request response connect_timeout_ms
      | Some leader =>
          status ← init_channel group leader (Some tt);
          if negb (ok status) then mret (Some (status, response)) else
          answer ← external (call_func leader request);
          match answer with
          | inl (code, text) =>
              modify (update_leader "deva" no_peer);;
              mret (Some (mkStatus code text, cleared))
          | inr response =>
              if negb (Proto.status (header response) =? EREMCHG) then mret (Some (OK, response)) else
              if bool_decide (Proto.message (header response) = "") then
                modify (update_leader "deva" no_peer);;
                call_loop fuel group call_func request response connect_timeout_ms
              else
                modify (update_leader "deva" (parse_peer (Proto.message (header response))));;
                call_loop fuel group call_func request response connect_timeout_ms
          end
      end
  end.

Definition DEFAULT_CONNECT_TIMEOUT_MS : Z := 2000.

(** [call_rpc]: the response pointer must not be null. *)
Definition call_rpc (fuel : nat) (group : string) (call_func : Rpc Req Resp) (request : Req)
    (response : option Resp) : Prog W (option (Status * Resp)) :=
  match response with
  | None => abort
  | Some response => call_loop fuel group call_func request response DEFAULT_CONNECT_TIMEOUT_MS
  end.
End rpc_client.

(** ** [FileSystem] and [FileStream] *)

Record RemoveFileRequest := mkRemoveFileRequest { rm_path : string }.
Record RemoveFileResponse := mkRemoveFileResponse { rm_header : Header }.
Record ListDevaResponse := mkListDevaResponse {
  ld_header : Header; ld_deva_servers : list Asura.DevaServer }.

(** The stubs of the remote services. *)
Class StubOps `{NetOps W} := {
  stub_OpenFile : Rpc OpenFileRequest OpenFileResponse;
  stub_Mkdir : Rpc MkdirRequest MkdirResponse;
  stub_RemoveFile : Rpc RemoveFileRequest RemoveFileResponse;
  (* [AsuraService::ListDeva] at the address given to [Init] *)
  stub_ListDeva : string → W → ((Z * string) + ListDevaResponse) * W;
}.

Record FileSystemImpl := mkFileSystemImpl {
  _cluster : string; _deva_list : list Asura.DevaServer }.
Record FileStreamImpl := mkFileStreamImpl { _file_info : FileInfo; _file_id : string }.
(** A null [_impl] is a closed stream. *)
Record FileStream := mkFileStream { _impl : option FileStreamImpl }.

(** [strstr(s, sub) != nullptr]. *)
Fixpoint contains (sub s : string) : bool :=
  match strip_prefix sub s with
  | Some _ => true
  | None => match s with EmptyString => false | String _ s' => contains sub s' end
  end.

Definition deva_conf (servers : list Asura.DevaServer) : string :=
  foldl (λ conf d, conf +:+ (Asura.deva_ip d +:+ ":" +:+ fmt_u (Asura.deva_port d) +:+ ",")) ""
    servers.

(** The flags of the request, from those of [open(2)]. *)
Definition OPEN_READ : Z := 1.
Definition OPEN_APPEND : Z := 2.
Definition deva_flags (flags : Z) : Z :=
  let f := 0 in
  let f := if flag_set flags O_CREAT then Z.lor f OPEN_CREATE else f in
  let f := if flag_set flags O_RDONLY then Z.lor f OPEN_READ else f in
  if flag_set flags O_WRONLY then Z.lor f OPEN_APPEND else f.

Section file_system.
Context `{StubOps W} `{UuidOps}.

(** [FileSystem::create]. *)
Definition create (uri : string) (fs : option (option FileSystemImpl)) :
    Prog W (Status * option (option FileSystemImpl)) :=
  match fs with
  | None => mret (mkStatus EINVAL "fs is nullptr", fs)
  | Some _ =>
      initialised ← gets (if contains "://" uri then init_naming uri "rr" else init_address uri);
      if negb initialised then mret (mkStatus EINVAL "connect to file system failed", fs) else
      answer ← external (stub_ListDeva uri);
      match answer with
      | inl (code, text) => mret (mkStatus code text, fs)
      | inr response =>
          if negb (Proto.status (ld_header response) =? 0)
          then mret (mkStatus (Proto.status (ld_header response)) (Proto.message (ld_header response)), fs)
          else
            modify (update_configuration "default" (deva_conf (ld_deva_servers response)));;
            mret (OK, Some (Some (mkFileSystemImpl uri (ld_deva_servers response))))
      end
  end.

(** [FileSystem::open]. *)
Definition open (fuel : nat) (path : string) (flags : Z) (file_stream : option FileStream) :
    Prog W (option (Status * option FileStream)) :=
  let request := mkOpenFileRequest path (deva_flags flags) in
  r ← call_rpc of_header default_open_response fuel "default" stub_OpenFile request
        (Some default_open_response);
  mret (match r with
  | None => None
  | Some (status, response) =>
      if negb (ok status)
      then Some (mkStatus (error_code status) (error_str status), file_stream)
      else
        let info := of_file_info response in
        let uuid := uuid_ctor (msg_high (file_id info)) (msg_low (file_id info)) in
        Some (OK, Some (mkFileStream (Some (mkFileStreamImpl info (uuid_str uuid)))))
  end).

Definition reported {A} (r : option (Status * A)) : option Status :=
  match r with
  | None => None
  | Some (status, _) =>
      Some (if negb (ok status) then mkStatus (error_code status) (error_str status) else OK)
  end.

(** [FileSystem::remove]. *)
Definition remove (fuel : nat) (path : string) : Prog W (option Status) :=
  r ← call_rpc rm_header (mkRemoveFileResponse default_header) fuel "default" stub_RemoveFile
        (mkRemoveFileRequest path) (Some (mkRemoveFileResponse default_header));
  mret (reported r).

(** [FileSystem::mkdir]. *)
Definition mkdir (fuel : nat) (path : string) : Prog W (option Status) :=
  r ← call_rpc md_header default_mkdir_response fuel "default" stub_Mkdir
        (mkMkdirRequest path) (Some default_mkdir_response);
  mret (reported r).
End file_system.

(** [FileStream::close], also the destructor, and [~FileSystem]: the implementation is deleted
    and the pointer cleared. *)
Definition close (fs : FileStream) : FileStream := mkFileStream None.
Definition file_system_dtor (fs : option FileSystemImpl) : option FileSystemImpl := None.

(** ** Lemmas *)
Section calls.
Context `{NetLaws W} {Req Resp : Type} (header : Resp → Header) (cleared : Resp).
Context (group : string) (call_func : Rpc Req Resp).
Implicit Types (w : W).
Abbreviation loop fuel := (call_loop header cleared fuel group call_func).

(** One iteration when the leader is known and its channel can be made. *)
Lemma call_loop_leader fuel q resp0 t w p :
  select_leader group w = Some p → init_peer p w = true →
  loop (S fuel) q resp0 t w =
  match call_func p q w with
  | (inl (code, text), w') => Some (Some (mkStatus code text, cleared), update_leader "deva" no_peer w')
  | (inr resp, w') =>
      if negb (status (header resp) =? EREMCHG) then Some (Some (OK, resp), w') else
      if bool_decide (message (header resp) = "")
      then loop fuel q resp t (update_leader "deva" no_peer w')
      else loop fuel q resp t (update_leader "deva" (parse_peer (message (header resp))) w')
  end.
Proof.
  intros Hs Hi. cbn [call_loop]. erewrite bind_step by done. rewrite Hs. unfold init_channel.
  erewrite bind_step by (erewrite bind_step by done; rewrite Hi; done). rewrite ok_OK. cbn [negb].
  unfold external. unfold mbind at 1, prog_bind at 1.
  destruct (call_func p q w) as [[[code text]|resp] w']; [done|].
  destruct (status (header resp) =? EREMCHG); cbn [negb]; [|done].
  by case_bool_decide.
Qed.

(** An iteration with a leader, for any [init_peer]: it returns unless it is redirected. *)
Lemma call_loop_returns q resp0 t w p :
  (∀ p' q' w' resp, fst (call_func p' q' w') = inr resp → status (header resp) ≠ EREMCHG) →
  select_leader group w = Some p →
  ∃ r w', ∀ fuel, loop (S fuel) q resp0 t w = Some (Some r, w').
Proof.
  intros Hno Hs. destruct (init_peer p w) eqn:Hi.
  - destruct (call_func p q w) as [[[code text]|resp] w'] eqn:Ec; eexists _, _; intros fuel;
      rewrite (call_loop_leader fuel q resp0 t w p Hs Hi), Ec; [done|].
    rewrite (proj2 (Z.eqb_neq _ _)); [done|]. apply (Hno p q w). by rewrite Ec.
  - eexists _, _. intros fuel. cbn [call_loop]. erewrite bind_step by done. rewrite Hs.
    unfold init_channel. erewrite bind_step by (erewrite bind_step by done; rewrite Hi; done). done.
Qed.
End calls.

(** C16: As long as no server redirects, a call returns after at most two
    iterations, whatever the route table holds, and more iterations are never made. *)
Theorem call_rpc_returns `{NetLaws W} {Req Resp} (header : Resp → Header) (cleared resp0 : Resp)
    group (call_func : Rpc Req Resp) q w :
  (∀ p' q' w' resp, fst (call_func p' q' w') = inr resp → status (header resp) ≠ EREMCHG) →
  ∃ r w', ∀ fuel,
    call_rpc header cleared (S (S fuel)) group call_func q (Some resp0) w = Some (Some r, w').
Proof.
  intros Hno. unfold call_rpc. destruct (select_leader group w) as [p|] eqn:Hs.
  - destruct (call_loop_returns header cleared group call_func q resp0
                DEFAULT_CONNECT_TIMEOUT_MS w p Hno Hs) as (r & w' & E).
    exists r, w'. intros fuel. apply E.
  - set (t := DEFAULT_CONNECT_TIMEOUT_MS).
    assert (∀ fuel, call_loop header cleared (S fuel) group call_func q resp0 t w =
      let '(st, w1) := refresh_leader group t w in
      if negb (ok st) then Some (Some (st, resp0), w1)
      else call_loop header cleared fuel group call_func q resp0 t w1) as E.
    { intros fuel. cbn [call_loop]. erewrite bind_step by done. rewrite Hs.
      unfold external, mbind, prog_bind. destruct (refresh_leader group t w) as [st w1]. by case_match. }
    pose proof (refresh_known group t w) as Hk. destruct (refresh_leader group t w) as [st w1].
    cbn [fst snd] in Hk. destruct (ok st) eqn:Est.
    + destruct (Hk eq_refl) as [p Hp].
      destruct (call_loop_returns header cleared group call_func q resp0 t w1 p Hno Hp) as (r & w' & E').
      exists r, w'. intros fuel. by rewrite E, E'.
    + exists (st, resp0), w1. intros fuel. by rewrite E.
Qed.

Section groups.
Context `{NetLaws W} {Req Resp : Type} (header : Resp → Header) (cleared : Resp).
Context (group : string) (not_deva : group ≠ "deva") (p : PeerId).
Context (call_func : Rpc Req Resp).
(** The process reaches [p], and calls leave the route table alone. *)
Context (reachable : ∀ w, init_peer p w = true).
Context (quiet : ∀ q w, select_leader group (snd (call_func p q w)) = select_leader group w).

(** A redirection is recorded under the group "deva", whatever the group of
    the call: when the leader the table has for another group redirects, the call asks the same
    server again, and goes on like that for as long as the server redirects. *)
Theorem redirect_ignored q resp0 fuel w :
  select_leader group w = Some p →
  (∀ w', ∃ resp, fst (call_func p q w') = inr resp ∧ status (header resp) = EREMCHG) →
  wp (call_rpc header cleared fuel group call_func q (Some resp0)) w (λ r w',
    r = None ∧ select_leader group w' = Some p).
Proof.
  intros Hs Hredir. unfold call_rpc. revert resp0 w Hs.
  induction fuel as [|fuel IH]; intros resp0 w Hs; [by eapply wp_eval|].
  destruct (Hredir w) as (resp & Er & Est). pose proof (quiet q w) as Hq.
  pose proof (call_loop_leader header cleared group call_func fuel q resp0
                DEFAULT_CONNECT_TIMEOUT_MS w p Hs (reachable w)) as E.
  destruct (call_func p q w) as [answer w1]. cbn [fst snd] in *. subst answer.
  rewrite Est, Z.eqb_refl in E. cbn [negb] in E.
  case_bool_decide; (eapply wp_reduce; [exact E|]); apply IH; by rewrite select_update_other, Hq.
Qed.

(** Several calls, one after the other. *)
Fixpoint calls (fuel : nat) (qs : list Req) (resp0 : Resp) : Prog W (list (option (Status * Resp))) :=
  match qs with
  | [] => mret []
  | q :: qs =>
      r ← call_rpc header cleared fuel group call_func q (Some resp0);
      rs ← calls fuel qs resp0;
      mret (r :: rs)
  end.

(** A failed call forgets the leader of the group "deva", not that of its own
    group: once the leader of another group does not answer any more, every further call of the
    group fails on the same server, even when the group has another leader by then. *)
Theorem dead_leader_kept fuel qs resp0 w :
  select_leader group w = Some p →
  (∀ q w', ∃ e, fst (call_func p q w') = inl e ∧ fst e ≠ 0) →
  wp (calls (S fuel) qs resp0) w (λ rs w',
    length rs = length qs ∧ select_leader group w' = Some p ∧
    Forall (λ r, ∃ st, r = Some (st, cleared) ∧ ok st = false) rs).
Proof.
  intros Hs Hdead. revert w Hs. induction qs as [|q qs IH]; intros w Hs; cbn [calls].
  { eapply wp_eval; [done|]. by split_and!. }
  destruct (Hdead q w) as ([code text] & Er & Hc). pose proof (quiet q w) as Hq.
  unfold call_rpc at 1.
  assert (∃ w1, select_leader group w1 = Some p ∧
    call_loop header cleared (S fuel) group call_func q resp0 DEFAULT_CONNECT_TIMEOUT_MS w =
    Some (Some (mkStatus code text, cleared), w1)) as (w1 & Hs1 & E).
  { rewrite (call_loop_leader header cleared group call_func fuel q resp0 _ w p Hs (reachable w)).
    destruct (call_func p q w) as [answer w1]. cbn [fst snd] in *. subst answer.
    eexists. split; [|done]. by rewrite select_update_other, Hq. }
  eapply wp_step; [exact E|]. apply wp_bind. eapply wp_mono; [by apply IH|].
  cbv beta. intros rs w2 (Hl & Hs2 & HF). eapply wp_eval; [done|].
  split_and!; [by cbn; rewrite Hl|done|]. constructor; [|done].
  eexists. split; [done|]. by apply Z.eqb_neq.
Qed.
End groups.

(** The flags: none asks for reading, and [O_RDWR] asks for nothing. *)
Lemma flag_set_RDONLY flags : flag_set flags O_RDONLY = false.
Proof. unfold flag_set, O_RDONLY. by rewrite Z.land_0_r. Qed.

(** [FileSystem::open] never sets [OPEN_READ], because [O_RDONLY] is 0; and with
    [O_RDWR] it asks for neither reading nor appending. *)
Theorem open_never_reads flags :
  Z.land (deva_flags flags) OPEN_READ = 0 ∧
  (Z.land flags 3 = O_RDWR → Z.land (deva_flags flags) (Z.lor OPEN_READ OPEN_APPEND) = 0).
Proof.
  unfold deva_flags. rewrite flag_set_RDONLY. split.
  - by destruct (flag_set flags O_CREAT), (flag_set flags O_WRONLY).
  - intros Hrw. assert (flag_set flags O_WRONLY = false) as ->.
    { unfold flag_set, O_WRONLY. change 1 with (Z.land 3 1). by rewrite Z.land_assoc, Hrw. }
    by destruct (flag_set flags O_CREAT).
Qed.

Section file_system_lemmas.
Context `{NetLaws W} `{!StubOps} `{!UuidOps}.
Implicit Types (w : W).

(** A call whose server answers, with any status but a redirection. *)
Lemma call_rpc_answered {Req Resp} (header : Resp → Header) cleared (call_func : Rpc Req Resp)
    group q fuel resp0 resp w w' p :
  select_leader group w = Some p → init_peer p w = true →
  call_func p q w = (inr resp, w') → status (header resp) ≠ EREMCHG →
  call_rpc header cleared (S fuel) group call_func q (Some resp0) w = Some (Some (OK, resp), w').
Proof.
  intros Hs Hi Hc Hst. cbn [call_rpc].
  rewrite (call_loop_leader header cleared group call_func fuel q resp0 _ w p Hs Hi), Hc.
  by rewrite (proj2 (Z.eqb_neq _ _)).
Qed.

Lemma mkdir_answered fuel path resp w w' p :
  select_leader "default" w = Some p → init_peer p w = true →
  stub_Mkdir p (mkMkdirRequest path) w = (inr resp, w') → status (md_header resp) ≠ EREMCHG →
  mkdir (S fuel) path w = Some (Some OK, w').
Proof.
  intros Hs Hi Hc Hst. unfold mkdir. by erewrite bind_step by by eapply call_rpc_answered.
Qed.

Lemma open_answered fuel path flags fs resp w w' p :
  select_leader "default" w = Some p → init_peer p w = true →
  stub_OpenFile p (mkOpenFileRequest path (deva_flags flags)) w = (inr resp, w') →
  status (of_header resp) ≠ EREMCHG →
  open (S fuel) path flags fs w =
  Some (Some (OK, Some (mkFileStream (Some (mkFileStreamImpl (of_file_info resp)
          (uuid_str (uuid_ctor (msg_high (file_id (of_file_info resp)))
                       (msg_low (file_id (of_file_info resp))))))))), w').
Proof.
  intros Hs Hi Hc Hst. unfold open. by erewrite bind_step by by eapply call_rpc_answered.
Qed.

(** The status that a metadata server puts in its answer does not reach the
    application: [mkdir], [remove] and [open] return OK for every answer that is not a
    redirection, an error included, and [open] makes a stream of whatever the answer holds. *)
Theorem header_errors_lost fuel path flags fs w p :
  select_leader "default" w = Some p → init_peer p w = true →
  (∀ resp w', stub_Mkdir p (mkMkdirRequest path) w = (inr resp, w') →
     status (md_header resp) ≠ EREMCHG → mkdir (S fuel) path w = Some (Some OK, w')) ∧
  (∀ resp w', stub_RemoveFile p (mkRemoveFileRequest path) w = (inr resp, w') →
     status (rm_header resp) ≠ EREMCHG → remove (S fuel) path w = Some (Some OK, w')) ∧
  (∀ resp w', stub_OpenFile p (mkOpenFileRequest path (deva_flags flags)) w = (inr resp, w') →
     status (of_header resp) ≠ EREMCHG →
     wp (open (S fuel) path flags fs) w (λ r w'', w'' = w' ∧ ∃ stream,
       r = Some (OK, Some (mkFileStream (Some stream))) ∧ _file_info stream = of_file_info resp)).
Proof.
  intros Hs Hi. split_and!; intros resp w' Hc Hst.
  - by eapply mkdir_answered.
  - unfold remove. by erewrite bind_step by by eapply call_rpc_answered.
  - eapply wp_eval; [by eapply open_answered|]. cbv beta. split; [done|]. by eexists.
Qed.
End file_system_lemmas.

(** ** Witnesses: a world that is the route table, and servers that always answer the same *)
Module Witness.
#[local] Existing Instances HexUuid.ops HexUuid.laws.
Abbreviation Routes := (gmap string string).

#[local] Instance net : NetOps Routes := {|
  PeerId := string; no_peer := ""; parse_peer s := s; peer_to_string s := s;
  select_leader g w :=
    match w !! g with Some p => if decide (p = "") then None else Some p | None => None end;
  refresh_leader g _ w := (OK, <[g := "10.0.0.1:8001"]> w);
  update_leader g p w := <[g := p]> w;
  update_configuration _ _ w := w;
  init_peer _ _ := true; init_address _ _ := true; init_naming _ _ _ := true;
|}.
#[local] Instance net_laws : NetLaws (W := Routes).
Proof.
  split; cbn.
  - intros g p w Hp. by rewrite lookup_insert_eq, decide_False.
  - intros g w. by rewrite lookup_insert_eq, decide_True.
  - intros g g' p w Hg. by rewrite lookup_insert_ne.
  - intros g t w _. rewrite lookup_insert_eq, decide_False by done. by eexists.
Qed.

Definition refused : Header := mkHeader 2 "No such file or directory".
Definition moved_away : Header := mkHeader EREMCHG "10.0.0.2:8001".
Definition mkdir_answer (h : Header) : Rpc MkdirRequest MkdirResponse :=
  λ _ _ w, (inr (mkMkdirResponse h default_file_info), w).
Definition dead : Rpc MkdirRequest MkdirResponse := λ _ _ w, (inl (112, "Host is down"), w).

#[local] Instance stubs : StubOps := {|
  stub_OpenFile _ _ w := (inr (mkOpenFileResponse refused default_file_info), w);
  stub_Mkdir := mkdir_answer refused;
  stub_RemoveFile _ _ w := (inr (mkRemoveFileResponse refused), w);
  stub_ListDeva _ w := (inr (mkListDevaResponse default_header []), w);
|}.

Definition peer0 : PeerId (W := Routes) := "10.0.0.1:8001".
Definition known : Routes := {["default" := "10.0.0.1:8001"]}.
Lemma known_leader : select_leader "default" known = Some peer0.
Proof. by vm_compute. Qed.
Lemma default_not_deva : "default" ≠ "deva".
Proof. done. Qed.

Lemma no_redirection p' q' w' resp :
  fst (mkdir_answer refused p' q' w') = inr resp → status (md_header resp) ≠ EREMCHG.
Proof. intros [= <-]. vm_compute. discriminate. Qed.

(** From an empty route table. *)
Lemma call_rpc_returns_witness : ∃ r w',
  call_rpc md_header default_mkdir_response 2 "default" (mkdir_answer refused) (mkMkdirRequest "/a")
    (Some default_mkdir_response) (∅ : Routes) = Some (Some r, w').
Proof.
  destruct (call_rpc_returns md_header default_mkdir_response default_mkdir_response "default"
              (mkdir_answer refused) (mkMkdirRequest "/a") (∅ : Routes) no_redirection) as (r & w' & E).
  exists r, w'. exact (E 0%nat).
Defined.

Lemma always_redirected (w' : Routes) : ∃ resp,
  fst (mkdir_answer moved_away peer0 (mkMkdirRequest "/a") w') = inr resp ∧
  status (md_header resp) = EREMCHG.
Proof. by eexists. Qed.

Lemma redirect_ignored_witness :
  wp (call_rpc md_header default_mkdir_response 1000 "default" (mkdir_answer moved_away)
        (mkMkdirRequest "/a") (Some default_mkdir_response)) known (λ r _, r = None).
Proof.
  pose proof (redirect_ignored md_header default_mkdir_response "default" default_not_deva peer0
    (mkdir_answer moved_away) (λ _, eq_refl) (λ _ _, eq_refl) (mkMkdirRequest "/a") default_mkdir_response
    1000 known known_leader always_redirected) as Hw.
  eapply wp_mono; [exact Hw|]. cbv beta. intros r w' [E _]. exact E.
Defined.

Lemma dead_fails q (w' : Routes) : ∃ e, fst (dead peer0 q w') = inl e ∧ fst e ≠ 0.
Proof. by eexists. Qed.

Lemma dead_leader_kept_witness :
  wp (calls md_header default_mkdir_response "default" dead 3 [mkMkdirRequest "/a"; mkMkdirRequest "/b"]
        default_mkdir_response) known (λ rs w', length rs = 2%nat ∧
    select_leader "default" w' = Some peer0).
Proof.
  pose proof (dead_leader_kept md_header default_mkdir_response "default" default_not_deva peer0
    dead (λ _, eq_refl) (λ _ _, eq_refl) 2 [mkMkdirRequest "/a"; mkMkdirRequest "/b"]
    default_mkdir_response known known_leader dead_fails) as Hw.
  eapply wp_mono; [exact Hw|]. cbv beta. intros rs w' (El & Hs & _). split; [exact El|exact Hs].
Defined.

Lemma header_errors_lost_witness :
  mkdir 1 "/no/such/parent" known = Some (Some OK, known).
Proof.
  destruct (header_errors_lost 0 "/no/such/parent" 0 None known peer0 known_leader eq_refl)
    as (Hm & _ & _).
  apply (Hm (mkMkdirResponse refused default_file_info) known); [reflexivity|].
  vm_compute. discriminate.
Defined.

(** The flags of O_RDWR | O_CREAT. *)
Lemma open_never_reads_witness : Z.land (deva_flags 66) (Z.lor OPEN_READ OPEN_APPEND) = 0.
Proof. apply (proj2 (open_never_reads 66)). reflexivity. Defined.
End Witness.
End Client.
