(* ===== verification/Stream.v ===== *)
(** * Streams of the client SDK ([src/pain/file_stream.cc], [src/pain/file_stream_impl.cc],
    [src/pain/controller.cc], [src/pain/controller_impl.h], [src/examples/pain_demo/demo.cc])

    [FileSystem::open] ([Client.v]) makes a [FileStream], a channel on which an application calls
    [Append] and [Read] with a [Controller]. The two methods are stubs in the sources, and the
    members of [Controller] that report errors are constants. [demo] is the application that the
    repository shows. The dispatch of [FileStreamImpl::CallMethod] is generated by protobuf: it
    calls the member function of the method. *)
From S2P Require Import Prelude Bytes Iobuf Uuid Store Proto DevaService Client.
From Stdlib Require Import Strings.String.
Import Proto.Proto Client.Client.
Set Default Goal Selector "!".
Local Open Scope Z_scope.

Module Stream.

(** ** Messages ([protocols/pain/proto/pain.proto]) *)
Record AppendRequest := mkAppendRequest {}.
Record AppendResponse := mkAppendResponse { ap_header : Header; ap_offset : Z }.
Record ReadRequest := mkReadRequest { rd_offset : Z; rd_length : Z }.
Record ReadResponse := mkReadResponse { rd_header : Header }.
Definition default_append_response : AppendResponse := mkAppendResponse default_header 0.

(** ** [Controller] *)
Section controller.
Context `{IOBufOps}.

(** [ControllerImpl], with its initial values. A [Controller] owns one from its construction
    to its destruction and forwards to it. *)
Record ControllerImpl := mkControllerImpl {
  _error_code : Z;
  _timeout_us : Z;
  _direct_io : bool;
  _request_attachment : IOBuf;
  _response_attachment : IOBuf;
}.
Definition new_controller : ControllerImpl := mkControllerImpl 0 0 true iob_empty iob_empty.

Definition error_code (c : ControllerImpl) : Z := _error_code c.
Definition set_error_code (e : Z) (c : ControllerImpl) : ControllerImpl :=
  mkControllerImpl (u32 e) (_timeout_us c) (_direct_io c) (_request_attachment c) (_response_attachment c).
Definition timeout_us (c : ControllerImpl) : Z := _timeout_us c.
Definition set_timeout_us (t : Z) (c : ControllerImpl) : ControllerImpl :=
  mkControllerImpl (_error_code c) t (_direct_io c) (_request_attachment c) (_response_attachment c).
Definition direct_io (c : ControllerImpl) : bool := _direct_io c.
Definition set_direct_io (d : bool) (c : ControllerImpl) : ControllerImpl :=
  mkControllerImpl (_error_code c) (_timeout_us c) d (_request_attachment c) (_response_attachment c).
(** The attachments are returned by reference: read, and updated in place. *)
Definition request_attachment (c : ControllerImpl) : IOBuf := _request_attachment c.
Definition with_request_attachment (f : IOBuf → IOBuf) (c : ControllerImpl) : ControllerImpl :=
  mkControllerImpl (_error_code c) (_timeout_us c) (_direct_io c) (f (_request_attachment c))
    (_response_attachment c).
Definition response_attachment (c : ControllerImpl) : IOBuf := _response_attachment c.

(** The members that a controller should report failures with. *)
Definition Reset (c : ControllerImpl) : ControllerImpl := c.
Definition Failed (c : ControllerImpl) : bool := false.
Definition ErrorText (c : ControllerImpl) : string := "".
Definition StartCancel (c : ControllerImpl) : ControllerImpl := c.
Definition SetFailed (reason : string) (c : ControllerImpl) : ControllerImpl := c.
Definition IsCanceled (c : ControllerImpl) : bool := false.
Definition NotifyOnCancel {Closure} (callback : Closure) (c : ControllerImpl) : ControllerImpl := c.

(** ** [FileStreamImpl] and [FileStream] *)

(** [Append] and [Read] trace, and run [done] if there is one: the response, and whether [done]
    has run. *)
Definition Append (self : FileStreamImpl) (cntl : ControllerImpl) (request : AppendRequest)
    (response : AppendResponse) (done : bool) : AppendResponse * bool := (response, done).
Definition Read (self : FileStreamImpl) (cntl : ControllerImpl) (request : ReadRequest)
    (response : ReadResponse) (done : bool) : ReadResponse * bool := (response, done).

(** A call through a stub: the method, with its request and response. *)
Inductive Call :=
| CallAppend (request : AppendRequest) (response : AppendResponse)
| CallRead (request : ReadRequest) (response : ReadResponse).

(** [FileStream::CallMethod]: there is no check for a closed stream. *)
Definition CallMethod (call : Call) (cntl : ControllerImpl) (done : bool) :
    Prog FileStream (Call * bool) :=
  impl ← gets _impl;
  match impl with
  | None => abort
  | Some self =>
      mret (match call with
      | CallAppend q r => let '(r, ran) := Append self cntl q r done in (CallAppend q r, ran)
      | CallRead q r => let '(r, ran) := Read self cntl q r done in (CallRead q r, ran)
      end)
  end.
End controller.

(** ** [demo.cc] *)
Inductive Output := Stdout (line : string) | Stderr (line : string).

Section demo.
Context `{StubOps W} `{UuidOps} `{IOBufOps}.

(** The call of [Append] on an open stream and what the program makes of it, to the end of
    [main]: exit code and output. The guards delete the stream and the file system. *)
Definition demo_append (file : option FileStream) : Prog W (Z * list Output) :=
  let cntl := with_request_attachment (λ b, iob_append_raw b (list_byte_of_string "hello world"))
                new_controller in
  match file ≫= λ f, CallMethod (CallAppend mkAppendRequest default_append_response) cntl false f with
  | Some ((CallAppend _ response, _), _) =>
      if Failed cntl then mret (1, [Stderr ("append failed: " +:+ ErrorText cntl)])
      else mret (0, [Stdout ("append success, offset: " +:+ fmt_u (ap_offset response))])
  | _ => abort
  end.

(** [main], with the value of [--filesystem]; [None] while a call does not return. *)
Definition demo (fuel : nat) (filesystem : string) : Prog W (option (Z * list Output)) :=
  '(status, fs) ← create filesystem (Some None);
  if negb (ok status)
  then mret (Some (1, [Stderr ("create filesystem failed: " +:+ error_str status)])) else
  r ← open fuel "/hello.txt" (Z.lor O_CREAT O_WRONLY) None;
  match r with
  | None => mret None
  | Some (status, file) =>
      if negb (ok status)
      then mret (Some (1, [Stderr ("open file failed: " +:+ error_str status)]))
      else result ← demo_append file; mret (Some result)
  end.
End demo.

(** ** Lemmas *)
Section lemmas.
Context `{IOBufOps}.

(** A call on a stream that was closed dereferences a null pointer; on an open one, [Append]
    leaves its response and the stream alone, and no controller ever reports a failure. *)
Theorem calls_of_streams call cntl done s :
  CallMethod call cntl done (close s) = None ∧
  (∀ self q r, CallMethod (CallAppend q r) cntl done (mkFileStream (Some self)) =
     Some ((CallAppend q r, done), mkFileStream (Some self))) ∧
  ∀ reason, Failed (SetFailed reason cntl) = false.
Proof. done. Qed.

Lemma demo_append_eq `{NetOps W} self w :
  demo_append (W := W) (Some (mkFileStream (Some self))) w =
  Some ((0, [Stdout "append success, offset: 0"]), w).
Proof. done. Qed.
End lemmas.
End Stream.
