(* ===== verification/Deployment.v ===== *)
(** * A deployment: the client SDK against the services it calls

    The composition of [Client.v] with [DevaService.v] (one metadata server, whose raft node
    commits what is submitted to it and applies it, or refuses it when another node leads)
    and with [AsuraService.v] (the registry, on any key-value store of [KvStore.v]). The RPC
    layer hands a request to the handler and its response back; a handler that never answers
    is a time-out of the controller. What handlers draw from outside, UUIDs, clock readings
    and the time stamps of operations, is given by the number of the call. *)
From S2P Require Import Prelude Bytes Iobuf Uuid Store Proto Namespace Deva Op Rsm DevaService KvStore AsuraService Client Stream.
Import Proto.Proto Deva.Deva Op.Op Rsm.Rsm DevaService.DevaService Client.Client.
Set Default Goal Selector "!".
Local Open Scope Z_scope.

Module Deployment.

Definition ERPCTIMEDOUT : Z := 1008.

Record Cluster {St : Type} := mkCluster {
  routes : gmap string string;           (* the client's route table, groups to leaders *)
  configuration : gmap string string;
  metadata : Rsm;
  registry : St;
  served : nat;                          (* calls the metadata server has seen *)
}.
Arguments Cluster : clear implicits.
Arguments mkCluster {St} _ _ _ _ _.

Section cluster.
Context `{IOBufOps} `{UuidOps} `{ProtoOps} `{KvOps St It} `{Asura.ServerProto}.
Context (padding : list byte) (node : string) (list_fuel : nat).
Context (ids : nat → UUID) (clocks : nat → Clock) (times : nat → Z).
Context (refusals : nat → option Status).
Implicit Types (w : Cluster St).

Definition set_routes (f : gmap string string → gmap string string) w : Cluster St :=
  mkCluster (f (routes w)) (configuration w) (metadata w) (registry w) (served w).
Definition set_configuration (f : gmap string string → gmap string string) w : Cluster St :=
  mkCluster (routes w) (f (configuration w)) (metadata w) (registry w) (served w).
Definition set_metadata (r : Rsm) w : Cluster St :=
  mkCluster (routes w) (configuration w) r (registry w) (S (served w)).
Definition set_registry (s : St) w : Cluster St :=
  mkCluster (routes w) (configuration w) (metadata w) s (served w).

(** Addresses are strings, the empty one is no peer; refreshing finds the node. *)
#[export] Instance net : NetOps (Cluster St) := {|
  PeerId := string;
  no_peer := "";
  parse_peer s := s;
  peer_to_string s := s;
  select_leader g w :=
    match routes w !! g with
    | Some p => if decide (p = "") then None else Some p
    | None => None
    end;
  refresh_leader g _ w := (OK, set_routes <[g := node]> w);
  update_leader g p := set_routes <[g := p]>;
  update_configuration g c := set_configuration <[g := c]>;
  init_peer _ _ := true;
  init_address _ _ := true;
  init_naming _ _ _ := true;
|}.

(** A handler of the metadata server, behind the RPC layer. *)
Definition serve {A} (handler : Prog Rsm (option A)) w : ((Z * string) + A) * Cluster St :=
  match handler (metadata w) with
  | Some (Some response, r) => (inr response, set_metadata r w)
  | _ => (inl (ERPCTIMEDOUT, "Reached timeout"), set_metadata (metadata w) w)
  end.

Definition log_index w : Z := Z.of_nat (served w) + 1.
Definition outcome w : Outcome :=
  match refusals (served w) with Some st => Refused st | None => Committed (log_index w) end.

#[export] Instance stubs : StubOps := {|
  stub_OpenFile _ q w :=
    serve (open_file padding (times (served w)) (ids (served w)) (clocks (served w)) (outcome w) q) w;
  stub_Mkdir _ q w :=
    serve (DevaService.mkdir padding (times (served w)) (ids (served w)) (clocks (served w))
             (outcome w) q) w;
  stub_RemoveFile _ _ w := serve (r ← RemoveFile (mkRemoveFileResponse default_header); mret (Some r)) w;
  stub_ListDeva _ w :=
    match Asura.ListDeva list_fuel [] (registry w) with
    | Some (servers, s) => (inr (mkListDevaResponse default_header servers), set_registry s w)
    | None => (inl (ERPCTIMEDOUT, "Reached timeout"), w)
    end;
|}.
End cluster.

(** ** The client's calls, end to end *)
Section theorems.
Context `{IOBufLaws} `{UuidLaws} `{ProtoLaws} `{KvLaws St It Asura.table} `{!Asura.ServerProto}.
Context (padding : list byte).
Context (node : string) (node_named : node ≠ "") (list_fuel : nat).
Context (ids : nat → UUID) (clocks : nat → Clock) (times : nat → Z).
Context (refusals : nat → option Status).
Implicit Types (w : Cluster St).
#[local] Instance the_net : NetOps (Cluster St) := net node.
#[local] Instance the_stubs : StubOps := stubs padding node list_fuel ids clocks times refusals.

#[local] Instance net_laws : NetLaws (W := Cluster St).
Proof.
  split; cbn.
  - intros g p w Hp. by rewrite lookup_insert_eq, decide_False.
  - intros g w. by rewrite lookup_insert_eq, decide_True.
  - intros g g' p w Hg. by rewrite lookup_insert_ne.
  - intros g t w _. rewrite lookup_insert_eq, decide_False by done. by eexists.
Qed.

(** The metadata server leads and has nothing left to run. *)
Definition ready w : Prop := _node (metadata w) = true ∧ closures (metadata w) = [].

(** The header of an answer is not a redirection. *)
Lemma header_code st :
  error_code st = ENOENT ∨ error_code st = EINVAL → status (status_header st) ≠ EREMCHG.
Proof. intros [E|E]; cbn; by rewrite E. Qed.

Lemma create_flag_sent flags :
  flag_set flags O_CREAT = true → Z.land (deva_flags flags) OPEN_CREATE ≠ 0.
Proof.
  intros Hfl. unfold deva_flags. rewrite Hfl. by destruct (flag_set flags O_RDONLY), (flag_set flags O_WRONLY).
Qed.

(** Against a metadata server that leads, [FileSystem::mkdir] returns OK for
    every path - also when the server refused, because the parent of the path is not a
    directory, and made nothing. *)
Theorem deployed_mkdir fuel path w p :
  select_leader "default" w = Some p → ready w → refusals (served w) = None →
  wp (mkdir (S fuel) path) w (λ st w', st = Some OK ∧ ready w' ∧
    ((∀ i, ¬ finds (_container (metadata w)) (Path.parent_path path) i Namespace.kDirectory) →
     _container (metadata w') = _container (metadata w))).
Proof.
  intros Hs [Hnode Hcl] Hok. set (n := served w). set (d := _container (metadata w)).
  set (q := store_request path (ids n) (clocks n) 511).
  destruct (process_total (create_request Namespace.kDirectory q) default_response (log_index w) d)
    as [[[st resp] d'] Ep].
  destruct (mkdir_eq padding (ids n) (clocks n) (times n) (log_index w) path (metadata w) st resp d'
    Hnode Hcl Ep) as (r' & Em & Ed & Hn' & Hcl').
  pose proof (deva_fails (create_request Namespace.kDirectory q) default_response (log_index w) d) as Hf.
  unfold wp in Hf. rewrite Ep in Hf.
  eapply wp_eval.
  { apply (mkdir_answered fuel path (Mkdir_resume st default_mkdir_response) w (set_metadata r' w) p Hs).
    - done.
    - cbn [stub_Mkdir the_stubs stubs]. unfold serve, outcome. rewrite Hok. fold n. by rewrite Em.
    - unfold Mkdir_resume. destruct (ok st); cbn [negb md_header]; [done|]. by apply header_code, Hf. }
  split; [done|]. split; [by split|]. intros Hno. cbn. rewrite Ed.
  cbn [create_request process] in Ep. unfold CreateDir in Ep.
  pose proof (create_no_parent path (msg_uuid (cr_id q)) Namespace.kDirectory d Hno) as Hc.
  apply wp_exists in Hc as (st1 & d1 & Ec & Est & ->).
  erewrite bind_step in Ep by exact Ec. rewrite Est in Ep. by injection Ep as _ _ <-.
Qed.

(** C10: When the client finds the leader of its group, that server's raft node is started and no
    closures wait, and raft accepts the proposal and commits it: opening a path with [O_CREAT] through
    the client, whose parent exists as a directory without that name on the metadata server, and
    for which a UUID is drawn that has no entries there, returns OK and a stream whose file id is the
    printed UUID that the path resolves to on the server right after the call. *)
Theorem deployed_open fuel cs nm flags fs w p parent es :
  let d := _container (metadata w) in
  let path := file_path cs nm in
  let id := ids (served w) in
  select_leader "default" w = Some p → ready w → refusals (served w) = None → flag_set flags O_CREAT = true →
  (∀ c, c ∈ cs → Namespace.is_name c) → Namespace.is_name nm →
  finds d (Namespace.join cs +:+ "/") parent Namespace.kDirectory →
  Namespace._entries (_namespace d) !! parent = Some es →
  Namespace.find_entry nm es = None → Namespace._entries (_namespace d) !! id = None →
  wp (open (S fuel) path flags fs) w (λ r w', ready w' ∧
    finds (_container (metadata w')) path id Namespace.kFile ∧
    ∃ stream, r = Some (OK, Some (mkFileStream (Some stream))) ∧ _file_id stream = uuid_str id ∧
              msg_uuid (file_id (_file_info stream)) = id).
Proof.
  intros d path id Hs [Hnode Hcl] Hok Hfl Hcs Hnm Hdir E Hnew Hfresh. set (n := served w).
  pose proof (create_flag_sent flags Hfl) as Hcreate.
  destruct (process_creates cs nm Namespace.kFile id (clocks n) 438 (log_index w) d parent es
    Hcs Hnm Hdir E Hnew Hfresh) as (d' & Ep & Hf).
  destruct (open_file_eq padding id (clocks n) (times n) (log_index w) path (deva_flags flags) (metadata w)
    _ _ d' Hnode Hcl Hcreate Ep) as (r' & Eo & Ed & Hn' & Hcl').
  eapply wp_eval.
  { eapply (open_answered fuel path flags fs _ w (set_metadata r' w) p Hs); [done| |].
    - cbn [stub_OpenFile the_stubs stubs]. unfold serve, outcome. rewrite Hok. fold id. fold n. by rewrite Eo.
    - done. }
  cbv beta. split; [by split|]. split; [cbn; by rewrite Ed|].
  eexists. split; [done|]. cbn [_file_id _file_info of_file_info OpenFile_resume negb].
  split; [f_equal|]; apply msg_uuid_msg.
Qed.

(** C17: A metadata server whose raft node refuses a submission - because another server leads -
    answers with raft's status and not with a redirection, so the client takes it for success: [mkdir]
    returns OK, [open] with [O_CREAT] returns OK and a stream with the zero file id, and the server
    has made nothing. *)
Theorem follower_loses_writes fuel path flags fs w p st :
  select_leader "default" w = Some p → _node (metadata w) = true → flag_set flags O_CREAT = true →
  refusals (served w) = Some st → ok st = false → status (status_header st) ≠ EREMCHG →
  wp (mkdir (S fuel) path) w (λ r w',
    r = Some OK ∧ _container (metadata w') = _container (metadata w)) ∧
  wp (open (S fuel) path flags fs) w (λ r w',
    _container (metadata w') = _container (metadata w) ∧
    ∃ stream, r = Some (OK, Some (mkFileStream (Some stream))) ∧ _file_info stream = default_file_info).
Proof.
  intros Hs Hnode Hfl Href Hst Hne. set (n := served w).
  destruct (refused_eq padding (ids n) (clocks n) (times n) st path (deva_flags flags) (metadata w) Hnode Hst)
    as [Hopen (r2 & Em & Ed2)].
  destruct (Hopen (create_flag_sent flags Hfl)) as (r1 & Eo & Ed1). split.
  - eapply wp_eval.
    { eapply (mkdir_answered fuel path (mkMkdirResponse (status_header st) default_file_info) w
               (set_metadata r2 w) p Hs); [done| |exact Hne].
      cbn [stub_Mkdir the_stubs stubs]. unfold serve, outcome. rewrite Href. fold n. by rewrite Em. }
    cbv beta. by split; [|exact Ed2].
  - eapply wp_eval.
    { eapply (open_answered fuel path flags fs (mkOpenFileResponse (status_header st) default_file_info) w
                (set_metadata r1 w) p Hs); [done| |exact Hne].
      cbn [stub_OpenFile the_stubs stubs]. unfold serve, outcome. rewrite Href. fold n. by rewrite Eo. }
    cbv beta. split; [exact Ed1|]. by eexists.
Qed.

(** What [FileSystem::create] does to the world. *)
Lemma connect_eq uri w h :
  kv_rep (registry w) h → (base.size h < list_fuel)%nat →
  ∃ servers,
    create uri (Some None) w =
      Some ((OK, Some (Some (mkFileSystemImpl uri servers))),
            set_configuration <["default" := deva_conf servers]> (set_registry (registry w) w)) ∧
    servers ≡ₚ Asura.parse_deva <$> hash_values h Asura.ASURA_DEVA.
Proof.
  intros Hr Hfuel. pose proof (Asura.ListDeva_wp list_fuel [] (registry w) h Hr Hfuel) as Hl.
  apply wp_exists in Hl as (servers & s & El & -> & l1 & -> & Hp). exists l1. split; [|done].
  unfold create. erewrite bind_step by done.
  replace ((if contains "://" uri then _ else _) w) with true by by destruct (contains "://" uri).
  cbn [negb]. unfold external, mbind, prog_bind. cbn [stub_ListDeva the_stubs stubs]. by rewrite El.
Qed.

(** [FileSystem::create] learns the metadata servers of the registry, and makes them
    the configuration of the group "default". *)
Theorem deployed_create uri w h :
  kv_rep (registry w) h → (base.size h < list_fuel)%nat →
  wp (create uri (Some None)) w (λ '(st, fs) w', st = OK ∧ ∃ impl, fs = Some (Some impl) ∧
    _cluster impl = uri ∧
    _deva_list impl ≡ₚ Asura.parse_deva <$> hash_values h Asura.ASURA_DEVA ∧
    configuration w' !! "default" = Some (deva_conf (_deva_list impl))).
Proof.
  intros Hr Hfuel. destruct (connect_eq uri w h Hr Hfuel) as (servers & E & Hp).
  eapply wp_eval; [exact E|]. split; [done|]. eexists. split; [done|].
  split_and!; [done|exact Hp|]. cbn. by rewrite lookup_insert_eq.
Qed.

(** A submission that raft refuses is refused with an error that is no redirection. *)
Definition refusals_plain w : Prop :=
  ∀ st, refusals (served w) = Some st → ok st = false ∧ status (status_header st) ≠ EREMCHG.

(** Whatever the metadata server makes of it, opening with [O_CREAT] gives a stream. *)
Lemma open_create_returns fuel path flags fs w p :
  select_leader "default" w = Some p → ready w → refusals_plain w → flag_set flags O_CREAT = true →
  ∃ stream r, open (S fuel) path flags fs w =
    Some (Some (OK, Some (mkFileStream (Some stream))), set_metadata r w) ∧
    (refusals (served w) ≠ None → _container r = _container (metadata w)).
Proof.
  intros Hs [Hnode Hcl] Href Hfl. set (n := served w).
  pose proof (create_flag_sent flags Hfl) as Hcreate.
  assert (∃ r resp,
    stub_OpenFile p (mkOpenFileRequest path (deva_flags flags)) w = (inr resp, set_metadata r w) ∧
    status (of_header resp) ≠ EREMCHG ∧
    (refusals n ≠ None → _container r = _container (metadata w))) as (r & resp & Ec & Hne & Hd).
  { cbn [stub_OpenFile the_stubs stubs]. unfold serve, outcome. fold n.
    destruct (refusals n) as [st|] eqn:Er.
    - destruct (Href st Er) as [Hst Hne].
      destruct (refused_eq padding (ids n) (clocks n) (times n) st path (deva_flags flags) (metadata w)
        Hnode Hst) as [Hopen _].
      destruct (Hopen Hcreate) as (r & Eo & Ed). exists r. eexists. rewrite Eo. by split_and!.
    - set (q := store_request path (ids n) (clocks n) 438).
      destruct (process_total (create_request Namespace.kFile q) default_response (log_index w)
        (_container (metadata w))) as [[[st resp] d'] Ep].
      destruct (open_file_eq padding (ids n) (clocks n) (times n) (log_index w) path (deva_flags flags)
        (metadata w) st resp d' Hnode Hcl Hcreate Ep) as (r & Eo & _).
      pose proof (deva_fails (create_request Namespace.kFile q) default_response (log_index w)
        (_container (metadata w))) as Hf. unfold wp in Hf. rewrite Ep in Hf.
      exists r. eexists. rewrite Eo. split_and!; [done| |done].
      unfold OpenFile_resume. destruct (ok st); cbn [negb of_header]; [done|]. by apply header_code, Hf. }
  eexists _, r. split; [|exact Hd].
  by eapply (open_answered fuel path flags fs resp w (set_metadata r w) p Hs).
Qed.

(** The demonstration program reports success against every cluster that answers it: the
    server that is asked may refuse the file, because it does not lead its group, and no byte of
    the data goes anywhere, but the program prints that it appended at offset 0 and exits with 0. *)
Theorem deployed_demo fuel uri w h p :
  kv_rep (registry w) h → (base.size h < list_fuel)%nat →
  select_leader "default" w = Some p → ready w → refusals_plain w →
  wp (Stream.demo (S fuel) uri) w (λ r w',
    r = Some (0, [Stream.Stdout "append success, offset: 0"]) ∧
    (refusals (served w) ≠ None → _container (metadata w') = _container (metadata w))).
Proof.
  intros Hr Hfuel Hs Hready Href. destruct (connect_eq uri w h Hr Hfuel) as (servers & Ec & _).
  unfold Stream.demo. eapply wp_step; [exact Ec|]. cbv beta iota. rewrite ok_OK. cbn [negb].
  set (w1 := set_configuration _ _).
  destruct (open_create_returns fuel "/hello.txt" (Z.lor O_CREAT O_WRONLY) None w1 p)
    as (stream & r & Eo & Hd); [done..|].
  eapply wp_step; [exact Eo|]. cbv beta iota. rewrite ok_OK. cbn [negb].
  eapply wp_step; [by apply Stream.demo_append_eq|]. eapply wp_eval; [done|]. split; [done|exact Hd].
Qed.
End theorems.

(** ** Witnesses: an empty metadata server, and a registry in RocksDB *)
Module Witness.
Import Namespace.Witness Deva.Witness Op.Witness DevaService.Witness Asura.Witness RocksdbStore.MapRocksdb.
#[local] Existing Instances ListIOBuf.ops ListIOBuf.laws HexUuid.ops HexUuid.laws CountProto.ops CountProto.laws
  Asura.CountServer.ops Asura.CountServer.laws Asura.table_separated.
#[local] Instance kv_laws : KvLaws Asura.table := RocksdbStore.rocksdb_kv_laws Asura.table.

Definition node0 : string := "10.0.0.1:8001".
Definition ids0 (n : nat) : UUID := ino1.
Definition clocks0 (n : nat) : Clock := mkClock 1 2 3.
Definition times0 (n : nat) : Z := 5.
Definition cluster0 : Cluster (RocksdbStore.RocksdbStore DB) :=
  mkCluster {["default" := node0]} ∅ leader0 store0 0.

Lemma node0_named : node0 ≠ "".
Proof. done. Qed.
Lemma cluster0_ready : ready cluster0.
Proof. by split. Qed.
#[local] Instance net0 : NetOps (Cluster (RocksdbStore.RocksdbStore DB)) := net node0.
#[local] Instance stubs0 : StubOps := stubs padding0 node0 3 ids0 clocks0 times0 (λ _, None).
Lemma cluster0_leader : select_leader "default" cluster0 = Some node0.
Proof. by vm_compute. Qed.

Lemma no_parent i :
  ¬ finds (_container (metadata cluster0)) (Path.parent_path "/a/b") i Namespace.kDirectory.
Proof.
  intros [_ Hr]. change (Namespace.words "" (Path.parent_path "/a/b")) with ["a"] in Hr.
  apply Namespace.resolves_head in Hr as (es & e & E & Ef).
  change (Namespace._entries ns0 !! Namespace._root ns0 = Some es) in E.
  rewrite ns0_root in E. by injection E as <-.
Qed.

(** "/a/b" without "/a". *)
Lemma deployed_mkdir_witness :
  wp (mkdir 1 "/a/b") cluster0 (λ st w', st = Some OK ∧ _container (metadata w') = new_deva).
Proof.
  pose proof (deployed_mkdir padding0 node0 3 ids0 clocks0 times0 (λ _, None) 0 "/a/b" cluster0
                node0 cluster0_leader cluster0_ready eq_refl) as Hw.
  eapply wp_mono; [exact Hw|]. cbv beta. intros st w' (E & _ & Hno).
  split; [exact E|]. exact (Hno no_parent).
Defined.

Lemma deployed_open_witness :
  wp (open 1 "/a" 65 None) cluster0 (λ r w', finds (_container (metadata w')) "/a" ino1 Namespace.kFile ∧
    ∃ stream, r = Some (OK, Some (mkFileStream (Some stream)))).
Proof.
  pose proof (deployed_open padding0 node0 3 ids0 clocks0 times0 (λ _, None) 0 [] "a" 65 None cluster0 node0 _ []
    cluster0_leader cluster0_ready eq_refl eq_refl no_components name_a root_found ns0_root eq_refl ino1_fresh) as Hw.
  cbv zeta in Hw. eapply wp_mono; [exact Hw|]. cbv beta. intros r w' (_ & Hf & stream & E & _).
  split; [exact Hf|]. exists stream. exact E.
Defined.

Lemma deployed_create_witness :
  wp (create "10.0.0.9:8201" (Some None)) cluster0 (λ '(st, _) w', st = OK ∧
    configuration w' !! "default" = Some "").
Proof.
  assert (base.size (∅ : Hashes) < 3)%nat as Hfuel by (rewrite map_size_empty; lia).
  pose proof (deployed_create padding0 node0 3 ids0 clocks0 times0 (λ _, None) "10.0.0.9:8201" cluster0 ∅
                store0_rep Hfuel) as Hw.
  eapply wp_mono; [exact Hw|]. intros [st fs] w' (E & impl & _ & _ & Hl & Hc). split; [exact E|].
  rewrite Hc. apply Permutation_nil_r in Hl. rewrite Hl. reflexivity.
Defined.

(** What braft answers on a node that does not lead. *)
Definition not_leader : Status := mkStatus EPERM "Not leader".

Lemma follower_loses_writes_witness :
  wp (mkdir (H0 := stubs padding0 node0 3 ids0 clocks0 times0 (λ _, Some not_leader)) 1 "/a") cluster0
    (λ r w', r = Some OK ∧ _container (metadata w') = new_deva).
Proof.
  assert (status (status_header not_leader) ≠ EREMCHG) as Hne by (vm_compute; discriminate).
  pose proof (follower_loses_writes padding0 node0 3 ids0 clocks0 times0 (λ _, Some not_leader) 0 "/a" 65
                None cluster0 node0 not_leader cluster0_leader eq_refl eq_refl eq_refl eq_refl Hne) as Hw.
  eapply wp_mono; [exact (proj1 Hw)|]. cbv beta. intros r w' H. exact H.
Defined.

Lemma deployed_demo_witness :
  wp (Stream.demo (H0 := stubs padding0 node0 3 ids0 clocks0 times0 (λ _, Some not_leader)) 1 "10.0.0.9:8201")
    cluster0 (λ r w', r = Some (0, [Stream.Stdout "append success, offset: 0"]) ∧
                      _container (metadata w') = new_deva).
Proof.
  assert (base.size (∅ : Hashes) < 3)%nat as Hfuel by (rewrite map_size_empty; lia).
  assert (refusals_plain (λ _, Some not_leader) cluster0) as Hplain.
  { intros st [= <-]. split; [reflexivity|]. vm_compute. discriminate. }
  assert (Some not_leader ≠ None) as Hsome by discriminate.
  pose proof (deployed_demo padding0 node0 3 ids0 clocks0 times0 (λ _, Some not_leader) 0 "10.0.0.9:8201"
                cluster0 ∅ node0 store0_rep Hfuel cluster0_leader cluster0_ready Hplain) as Hw.
  eapply wp_mono; [exact Hw|]. cbv beta. intros r w' [E Hc]. split; [exact E|exact (Hc Hsome)].
Defined.
End Witness.
End Deployment.
