(* ===== verification/Sad.v ===== *)
(** * The command line tool ([src/sad/manusya.cc], [src/sad/asura.cc], [src/sad/deva.cc],
    [src/sad/execute.cc], [src/sad/common.cc], [src/sad/macro.h], [src/sad/main.cc])

    [sad] sends one request to one server and prints the answer. A command is a function of the
    parsed arguments ([Args]: argparse is third-party) to a program that returns a status; a table
    per server maps names to commands. Channels and stubs are those of brpc ([SadOps]). What a
    command prints is kept as the message that goes into the JSON text and the texts that replace
    UUIDs in it; the objects are those of [SadPrint], and the parsers those of [CommandLine]. *)
From S2P Require Import Prelude Bytes Iobuf Uuid Proto Future Store Chunk Bank ManusyaService Namespace Deva Op Rsm DevaService KvStore RocksdbStore AsuraService Client.
From Stdlib Require Import Strings.String Strings.Ascii.
Import Proto.Proto ManusyaService.ManusyaService.
Set Default Goal Selector "!".
Local Open Scope Z_scope.

Module Sad.

Definition EAGAIN : Z := 11.

Record CreateChunkRequest := mkCreateChunkRequest {}.

(** The responses that commands print. *)
Inductive Message :=
| MCreateChunk (r : CreateChunkResponse)
| MAppendChunk (r : AppendChunkResponse)
| MListChunk (r : ListChunkResponse)
| MReadChunk (r : ReadChunkResponse)
| MQueryAndSealChunk (r : QueryAndSealChunkResponse)
| MRemoveChunk (r : RemoveChunkResponse)
| MQueryChunk (r : QueryChunkResponse)
| MRegisterDeva (rs : list Asura.Result)
| MListDeva (servers : list Asura.DevaServer)
| MRegisterManusya (rs : list Asura.Result)
| MListManusya (servers : list Asura.ManusyaServer)
| MOpenFile (r : DevaService.OpenFileResponse).

Inductive Output :=
| PrintedStatus (status : Status)
| Printed (message : Message) (uuids : list string)
| PrintedText (text : list byte)
| Saved (file : string) (text : list byte)         (* given to an [ofstream] *)
| Usage.

(** The arguments of a command, by name: [args.get<T>(name)]. *)
Record Args := mkArgs {
  get_string : string → string;
  get_uint : string → Z;
  get_bool : string → bool;
}.

(** A synchronous call on a channel to a host. *)
Definition HostCall (W Req Resp : Type) : Type := string → Req → W → ((Z * string) + Resp) * W.

Class SadOps `{IOBufOps} (W : Type) := {
  channel_init : string → W → bool;                 (* [channel.Init] returns 0 *)
  sad_CreateChunk : HostCall W CreateChunkRequest CreateChunkResponse;
  (* with the request attachment *)
  sad_AppendChunk : HostCall W (AppendChunkRequest * IOBuf) AppendChunkResponse;
  sad_ListChunk : HostCall W ListChunkRequest ListChunkResponse;
  (* with the response attachment *)
  sad_ReadChunk : HostCall W ReadChunkRequest (ReadChunkResponse * IOBuf);
  sad_QueryAndSealChunk : HostCall W UUIDMsg QueryAndSealChunkResponse;
  sad_RemoveChunk : HostCall W UUIDMsg RemoveChunkResponse;
  sad_QueryChunk : HostCall W UUIDMsg QueryChunkResponse;
  sad_RegisterDeva : HostCall W (list Asura.DevaServer) (list Asura.Result);
  sad_ListDeva : HostCall W unit (list Asura.DevaServer);
  sad_RegisterManusya : HostCall W (list Asura.ManusyaServer) (list Asura.Result);
  sad_ListManusya : HostCall W unit (list Asura.ManusyaServer);
  sad_OpenFile : HostCall W DevaService.OpenFileRequest DevaService.OpenFileResponse;
}.

(** The rest of the world, and what the process has printed. *)
Record Tool {W : Type} := mkTool { world : W; outputs : list Output }.
Arguments Tool : clear implicits.
Arguments mkTool {W} _ _.

Section commands.
Context `{SadOps W} `{UuidOps}.

Definition emit (o : Output) : Prog (Tool W) unit :=
  modify (λ t, mkTool (world t) (outputs t ++ [o])).

(** [print(const Status&)] and [print(cntl, message, f)] of [common.cc]; [uuids] is what [f]
    puts in the place of UUIDs, nothing when it throws. *)
Definition print_status (status : Status) : Prog (Tool W) unit := emit (PrintedStatus status).
Definition print (message : Message) (uuids : list string) : Prog (Tool W) unit :=
  emit (Printed message uuids).

(** What all commands do: make a channel to the host, call, report the failure of the call as a
    status, or go on with the response. *)
Definition send {Req Resp} (call : HostCall W Req Resp) (host : string) (request : Req)
    (on_response : Resp → Prog (Tool W) unit) : Prog (Tool W) Status :=
  initialised ← gets (λ t, channel_init host (world t));
  if negb initialised then mret (mkStatus EAGAIN "Fail to initialize channel") else
  answer ← external (λ t, let '(a, w) := call host request (world t) in (a, mkTool w (outputs t)));
  match answer with
  | inl (code, text) => mret (mkStatus code text)
  | inr response => on_response response;; mret OK
  end.

(** *** Commands for a chunk server *)
Definition create_chunk (args : Args) : Prog (Tool W) Status :=
  send sad_CreateChunk (get_string args "--host") mkCreateChunkRequest (λ response,
    print (MCreateChunk response)
      (match cc_chunk_id response with Some m => [uuid_str (msg_uuid m)] | None => [] end)).

Definition append_chunk (args : Args) : Prog (Tool W) Status :=
  let chunk_id := get_string args "--chunk-id" in
  let data := get_string args "--data" in
  let offset := get_uint args "--offset" in
  if negb (valid chunk_id) then mret (mkStatus EINVAL "Invalid chunk id") else
  let uuid := from_str_or_die chunk_id in
  let attachment := iob_append_raw iob_empty (list_byte_of_string data) in
  send sad_AppendChunk (get_string args "--host")
    (mkAppendChunkRequest (uuid_msg uuid) offset, attachment) (λ response,
    print (MAppendChunk response) []).

Definition list_chunk (args : Args) : Prog (Tool W) Status :=
  let start := get_string args "--start" in
  let limit := get_uint args "--limit" in
  if negb (valid start) then mret (mkStatus EINVAL "Invalid start id") else
  let uuid := from_str_or_die start in
  send sad_ListChunk (get_string args "--host") (mkListChunkRequest (uuid_msg uuid) limit) (λ response,
    print (MListChunk response) ((λ m, uuid_str (msg_uuid m)) <$> lcr_chunk_ids response)).

Definition read_chunk (args : Args) : Prog (Tool W) Status :=
  let chunk_id := get_string args "--chunk-id" in
  let offset := get_uint args "--offset" in
  let length := get_uint args "--length" in
  let output := get_string args "--output" in
  if negb (valid chunk_id) then mret (mkStatus EINVAL "Invalid chunk id") else
  let uuid := from_str_or_die chunk_id in
  send sad_ReadChunk (get_string args "--host") (mkReadChunkRequest (uuid_msg uuid) offset length)
    (λ '(response, attachment),
      print (MReadChunk response) [];;
      if bool_decide (output = "-") then emit (PrintedText (iob_bytes attachment))
      else emit (Saved output (iob_bytes attachment))).

Definition seal_chunk (args : Args) : Prog (Tool W) Status :=
  let chunk_id := get_string args "--chunk-id" in
  if negb (valid chunk_id) then mret (mkStatus EINVAL "Invalid chunk id") else
  send sad_QueryAndSealChunk (get_string args "--host") (uuid_msg (from_str_or_die chunk_id))
    (λ response, print (MQueryAndSealChunk response) []).

Definition remove_chunk (args : Args) : Prog (Tool W) Status :=
  let chunk_id := get_string args "--chunk-id" in
  if negb (valid chunk_id) then mret (mkStatus EINVAL "Invalid chunk id") else
  send sad_RemoveChunk (get_string args "--host") (uuid_msg (from_str_or_die chunk_id))
    (λ response, print (MRemoveChunk response) []).

Definition query_chunk (args : Args) : Prog (Tool W) Status :=
  let chunk_id := get_string args "--chunk-id" in
  if negb (valid chunk_id) then mret (mkStatus EINVAL "Invalid chunk id") else
  send sad_QueryChunk (get_string args "--host") (uuid_msg (from_str_or_die chunk_id))
    (λ response, print (MQueryChunk response) []).

(** *** Commands for the registry; [id] is what [UUID::generate()] returns *)
Definition register_deva (id : UUID) (args : Args) : Prog (Tool W) Status :=
  let deva_server :=
    Asura.mkDevaServer (uuid_msg id) (get_string args "--ip") (get_uint args "--port") in
  send sad_RegisterDeva (get_string args "--host") [deva_server] (λ response,
    print (MRegisterDeva response) []).

Definition list_deva (args : Args) : Prog (Tool W) Status :=
  send sad_ListDeva (get_string args "--host") tt (λ response, print (MListDeva response) []).

Definition register_manusya (id : UUID) (args : Args) : Prog (Tool W) Status :=
  let pool := get_string args "--pool" in
  if negb (valid pool) then mret (mkStatus EINVAL "Invalid pool id") else
  let pool_id := from_str_or_die pool in
  let manusya_server :=
    Asura.mkManusyaServer (uuid_msg id) (get_string args "--ip") (get_uint args "--port")
      (uuid_msg pool_id) in
  send sad_RegisterManusya (get_string args "--host") [manusya_server] (λ response,
    print (MRegisterManusya response) []).

Definition list_manusya (args : Args) : Prog (Tool W) Status :=
  send sad_ListManusya (get_string args "--host") tt (λ response, print (MListManusya response) []).

(** *** The command for a metadata server *)
Definition open (args : Args) : Prog (Tool W) Status :=
  let flags := if get_bool args "--create" then Z.lor DevaService.OPEN_CREATE Client.Client.OPEN_APPEND else 0 in
  send sad_OpenFile (get_string args "--host")
    (DevaService.mkOpenFileRequest (get_string args "--path") flags) (λ response,
    print (MOpenFile response) []).
End commands.

(** ** Names and tables *)

(** The name of a parser: [format_command]. *)
Fixpoint format_command (name : string) : string :=
  match name with
  | EmptyString => EmptyString
  | String c name => String (if Ascii.eqb c "_" then "-" else c)%char (format_command name)
  end.

Section tables.
Context {F : Type}.

(** [subcommands]: a [std::map], in the order of its keys. *)
Definition Subcommands : Type := list (string * F).

(** The loop of [add] that normalizes a name, the same in each of the three files. *)
Fixpoint normalize (normalized_name name : string) : string :=
  match name with
  | EmptyString => normalized_name
  | String c name =>
      normalize (normalized_name +:+ String (if Ascii.eqb c "_" then "-" else c)%char "") name
  end.

(** [subcommands[name] = func]. *)
Fixpoint assign (name : string) (func : F) (subcommands : Subcommands) : Subcommands :=
  match subcommands with
  | [] => [(name, func)]
  | (n, f) :: rest =>
      if bool_decide (n = name) then (name, func) :: rest
      else if str_ltb name n then (name, func) :: (n, f) :: rest
      else (n, f) :: assign name func rest
  end.
Definition add (name : string) (func : F) (subcommands : Subcommands) : Subcommands :=
  assign (normalize "" name) func subcommands.
Definition asura_add (name : string) (func : F) (subcommands : Subcommands) : Subcommands :=
  assign (normalize "" name) func subcommands.
Definition deva_add (name : string) (func : F) (subcommands : Subcommands) : Subcommands :=
  assign (normalize "" name) func subcommands.

(** [execute]: the first command whose parser was used; [None] prints the usage and exits.
    Each of the three files has an [execute] of its own, for its own table. *)
Fixpoint execute (is_subcommand_used : string → bool) (subcommands : Subcommands) : option F :=
  match subcommands with
  | [] => None
  | (name, func) :: rest =>
      if is_subcommand_used name then Some func else execute is_subcommand_used rest
  end.
Fixpoint asura_execute (is_subcommand_used : string → bool) (subcommands : Subcommands) : option F :=
  match subcommands with
  | [] => None
  | (name, func) :: rest =>
      if is_subcommand_used name then Some func else asura_execute is_subcommand_used rest
  end.
Fixpoint deva_execute (is_subcommand_used : string → bool) (subcommands : Subcommands) : option F :=
  match subcommands with
  | [] => None
  | (name, func) :: rest =>
      if is_subcommand_used name then Some func else deva_execute is_subcommand_used rest
  end.

(** The static objects that [COMMAND] defines: each enters its function in the table of the
    namespace that it is in, by the [add] that the name finds there. *)
Definition register_all (add : string → F → Subcommands → Subcommands)
    (commands : list (string * F)) : Subcommands :=
  foldl (λ m '(name, func), add name func m) [] commands.
End tables.
Arguments Subcommands : clear implicits.

Section main.
Context `{SadOps W} `{UuidOps} (id : UUID).
Definition Command : Type := Args → Prog (Tool W) Status.

Definition manusya_commands : list (string * Command) :=
  [("create_chunk", create_chunk); ("append_chunk", append_chunk); ("list_chunk", list_chunk);
   ("read_chunk", read_chunk); ("seal_chunk", seal_chunk); ("remove_chunk", remove_chunk);
   ("query_chunk", query_chunk)].
Definition asura_commands : list (string * Command) :=
  [("register_deva", register_deva id); ("list_deva", list_deva);
   ("register_manusya", register_manusya id); ("list_manusya", list_manusya)].
Definition deva_commands : list (string * Command) := [("open", open)].

(** [execute] of [execute.cc]. *)
Definition sad_execute (used : string → bool) (subcommand_used : string → bool) : option Command :=
  if used "manusya" then execute subcommand_used (register_all add manusya_commands) else
  if used "deva" then deva_execute subcommand_used (register_all deva_add deva_commands) else
  if used "asura" then asura_execute subcommand_used (register_all asura_add asura_commands) else None.

(** [main], from the parsed arguments on: the exit code. *)
Definition main (used subcommand_used : string → bool) (args : Args) : Prog (Tool W) Z :=
  match sad_execute used subcommand_used with
  | None => emit Usage;; mret 1
  | Some func =>
      status ← func args;
      if negb (ok status) then print_status status;; mret 1 else mret 0
  end.

(** What a user types: [sad <server> <command> <args>]. *)
Definition sad (server command : string) (args : Args) : Prog (Tool W) Z :=
  main (λ s, bool_decide (s = server)) (λ c, bool_decide (c = command)) args.
End main.

(** ** Arguments

    What the parser of a command gives for options: the text or number on the command line, or
    else the default of the option. *)
Fixpoint option_value {A} (n : string) (d : A) (given : list (string * A)) : A :=
  match given with
  | [] => d
  | (n', v) :: given => if bool_decide (n' = n) then v else option_value n d given
  end.
Definition args_of (strings : list (string * string)) (uints : list (string * Z)) : Args :=
  mkArgs (λ n, option_value n "" strings) (λ n, option_value n 0 uints) (λ _, false).

Definition manusya_host : string * string := ("--host", "127.0.0.1:8003").
Definition asura_host : string * string := ("--host", "127.0.0.1:8201").
Definition deva_host : string * string := ("--host", "127.0.0.1:8001").
Definition create_chunk_args : Args := args_of [manusya_host] [].
Definition append_chunk_args (chunk_id data : string) (offset : option Z) : Args :=
  args_of [("--chunk-id", chunk_id); ("--data", data); manusya_host] [("--offset", default 0 offset)].
Definition list_chunk_args (start : option string) (limit : option Z) : Args :=
  args_of [("--start", default "00000000-0000-0000-0000-000000000000" start); manusya_host]
    [("--limit", default 10 limit)].
Definition read_chunk_args (chunk_id : string) (offset length : option Z) (output : option string) : Args :=
  args_of [("--chunk-id", chunk_id); ("--output", default "-" output); manusya_host]
    [("--offset", default 0 offset); ("--length", default 1024 length)].
(** [seal-chunk], [remove-chunk] and [query-chunk]. *)
Definition chunk_args (chunk_id : string) : Args := args_of [("--chunk-id", chunk_id); manusya_host] [].
Definition register_deva_args (ip : string) (port : Z) : Args :=
  args_of [("--ip", ip); asura_host] [("--port", port)].
Definition list_args : Args := args_of [asura_host] [].
Definition register_manusya_args (ip : string) (port : option Z) (pool : string) : Args :=
  args_of [("--ip", ip); ("--pool", pool); asura_host] [("--port", default 0 port)].
Definition open_args (path : string) (create : bool) : Args :=
  mkArgs (λ n, option_value n "" [("--path", path); deva_host]) (λ _, 0)
    (λ n, bool_decide (n = "--create") && create).

(** ** Lemmas: tables *)
Lemma normalize_format acc name : normalize acc name = acc +:+ format_command name.
Proof.
  revert acc; induction name as [|c name IH]; intros acc; [symmetry; apply str_app_nil_r|].
  cbn [normalize format_command]. by rewrite IH, str_app_assoc.
Qed.

Section table_lemmas.
Context {F : Type}.
Implicit Types (m : Subcommands F) (n : string) (f : F).

Definition used_only n : string → bool := λ n', bool_decide (n' = n).

Lemma execute_assign n f m : execute (used_only n) (assign n f m) = Some f.
Proof.
  induction m as [|[n' f'] m IH]; cbn [assign execute].
  - unfold used_only. by rewrite bool_decide_eq_true_2.
  - case_bool_decide as E; cbn [execute].
    + unfold used_only. by rewrite bool_decide_eq_true_2.
    + destruct (str_ltb n n'); cbn [execute]; unfold used_only at 1.
      * by rewrite bool_decide_eq_true_2.
      * by rewrite bool_decide_eq_false_2.
Qed.

Lemma execute_assign_ne n n' f m :
  n ≠ n' → execute (used_only n) (assign n' f m) = execute (used_only n) m.
Proof.
  intros Hne. induction m as [|[n1 f1] m IH]; cbn [assign execute].
  - unfold used_only. by rewrite bool_decide_eq_false_2 by congruence.
  - case_bool_decide as E; cbn [execute].
    + subst n1. unfold used_only at 1 3. by rewrite !bool_decide_eq_false_2 by congruence.
    + destruct (str_ltb n' n1); cbn [execute].
      * unfold used_only at 1. by rewrite bool_decide_eq_false_2 by congruence.
      * by rewrite IH.
Qed.

Lemma execute_add_others n commands m :
  n ∉ (format_command ∘ fst) <$> commands →
  execute (used_only n) (foldl (λ m '(name, func), add name func m) m commands) =
  execute (used_only n) m.
Proof.
  revert m; induction commands as [|[n' f'] commands IH]; intros m Hn; [done|].
  cbn [foldl]. cbn in Hn. rewrite not_elem_of_cons in Hn. destruct Hn as [Hne Hn].
  rewrite IH by done. unfold add. rewrite normalize_format, str_app_nil_l. by apply execute_assign_ne.
Qed.

Lemma execute_registered (commands : list (string * F)) name f :
  NoDup ((format_command ∘ fst) <$> commands) → (name, f) ∈ commands →
  execute (used_only (format_command name)) (register_all add commands) = Some f.
Proof.
  unfold register_all. generalize (@nil (string * F)). induction commands as [|[n' f'] commands IH].
  { intros m _ Hin. by apply elem_of_nil in Hin. }
  cbn. intros m [Hn Hnd]%NoDup_cons [[= <- <-]|Hin]%elem_of_cons; [|by apply IH].
  rewrite execute_add_others by done. unfold add.
  rewrite normalize_format, str_app_nil_l. apply execute_assign.
Qed.

(** The three files agree. *)
Lemma executes_agree used m : asura_execute used m = execute used m ∧ deva_execute used m = execute used m.
Proof. by induction m as [|[n f] m [IH1 IH2]]; cbn; [|rewrite IH1, IH2]. Qed.

(** The tool finds the command of every parser, in each of its three tables: the name that a
    parser has, by [format_command], and the name under which [add] enters the function in the
    table are the same, and in a table of distinct names using a parser runs the function of its
    own command. *)
Theorem execute_finds (commands : list (string * F)) name f :
  NoDup ((format_command ∘ fst) <$> commands) → (name, f) ∈ commands →
  let used := used_only (format_command name) in
  execute used (register_all add commands) = Some f ∧
  asura_execute used (register_all asura_add commands) = Some f ∧
  deva_execute used (register_all deva_add commands) = Some f.
Proof.
  intros Hd Hin used.
  destruct (executes_agree used (register_all asura_add commands)) as [-> _].
  destruct (executes_agree used (register_all deva_add commands)) as [_ ->].
  pose proof (execute_registered commands name f Hd Hin). by split_and!.
Qed.
End table_lemmas.

(** ** Lemmas: commands *)
Section command_lemmas.
Context `{SadOps W} `{UuidLaws}.
Implicit Types (t : Tool W) (args : Args).

Lemma send_eq {Req Resp} (call : HostCall W Req Resp) host q f t a w :
  channel_init host (world t) = true → call host q (world t) = (a, w) →
  send call host q f t =
  match a with
  | inl e => Some (mkStatus (fst e) (snd e), mkTool w (outputs t))
  | inr resp => (f resp;; mret OK : Prog (Tool W) Status) (mkTool w (outputs t))
  end.
Proof.
  intros Hi Hc. unfold send. erewrite bind_step by done. rewrite Hi. cbn [negb].
  unfold external. unfold mbind at 1, prog_bind at 1. rewrite Hc. by destruct a as [[]|].
Qed.

(** Commands with the printed id of a chunk. *)
Lemma valid_id {A} u (k : UUID → A) (e : A) :
  (if negb (valid (uuid_str u)) then e else k (from_str_or_die (uuid_str u))) = k u.
Proof. unfold from_str_or_die. by rewrite valid_str, from_str_factory_str. Qed.

Lemma append_chunk_valid u data offset :
  append_chunk (append_chunk_args (uuid_str u) data offset) =
  send (W := W) sad_AppendChunk (snd manusya_host)
    (mkAppendChunkRequest (uuid_msg u) (default 0 offset),
     iob_append_raw iob_empty (list_byte_of_string data)) (λ r, print (MAppendChunk r) []).
Proof. apply (valid_id u (λ id, send _ _ (mkAppendChunkRequest (uuid_msg id) _, _) _)). Qed.

Lemma read_chunk_valid u offset length output :
  read_chunk (read_chunk_args (uuid_str u) offset length output) =
  send (W := W) sad_ReadChunk (snd manusya_host)
    (mkReadChunkRequest (uuid_msg u) (default 0 offset) (default 1024 length))
    (λ '(r, attachment), print (MReadChunk r) [];;
      if bool_decide (default "-" output = "-") then emit (PrintedText (iob_bytes attachment))
      else emit (Saved (default "-" output) (iob_bytes attachment))).
Proof. apply (valid_id u (λ id, send _ _ (mkReadChunkRequest (uuid_msg id) _ _) _)). Qed.

Lemma seal_chunk_valid u :
  seal_chunk (chunk_args (uuid_str u)) =
  send (W := W) sad_QueryAndSealChunk (snd manusya_host) (uuid_msg u)
    (λ r, print (MQueryAndSealChunk r) []).
Proof. apply (valid_id u (λ id, send _ _ (uuid_msg id) _)). Qed.

Lemma remove_chunk_valid u :
  remove_chunk (chunk_args (uuid_str u)) =
  send (W := W) sad_RemoveChunk (snd manusya_host) (uuid_msg u) (λ r, print (MRemoveChunk r) []).
Proof. apply (valid_id u (λ id, send _ _ (uuid_msg id) _)). Qed.

Lemma query_chunk_valid u :
  query_chunk (chunk_args (uuid_str u)) =
  send (W := W) sad_QueryChunk (snd manusya_host) (uuid_msg u) (λ r, print (MQueryChunk r) []).
Proof. apply (valid_id u (λ id, send _ _ (uuid_msg id) _)). Qed.

(** The commands that [sad] runs. *)
Lemma sad_command id server command args f t :
  sad_execute id (used_only server) (used_only command) = Some f →
  sad id server command args t =
  (status ← f args; if negb (ok status) then print_status status;; mret 1 else mret 0) t.
Proof. intros E. unfold sad, main. fold (used_only server) (used_only command). by rewrite E. Qed.

Lemma sad_status id server command args f t st t' :
  sad_execute id (used_only server) (used_only command) = Some f → f args t = Some (st, t') →
  sad id server command args t =
  Some (if ok st then (0, t') else (1, mkTool (world t') (outputs t' ++ [PrintedStatus st]))).
Proof.
  intros Ex Ef. rewrite (sad_command _ _ _ _ _ _ Ex). erewrite bind_step by exact Ef.
  by destruct (ok st).
Qed.

(** A command that takes a chunk id sends nothing and prints nothing unless the text is
    a UUID in lower case with its dashes; it then returns EINVAL, and [sad] prints that status and
    exits with 1. *)
Theorem invalid_id_refused id command args t :
  valid (get_string args "--chunk-id") = false →
  command ∈ ["append-chunk"; "read-chunk"; "seal-chunk"; "remove-chunk"; "query-chunk"] →
  sad id "manusya" command args t =
  Some (1, mkTool (world t) (outputs t ++ [PrintedStatus (mkStatus EINVAL "Invalid chunk id")])).
Proof.
  intros Hv Hc. assert (∃ f, sad_execute id (used_only "manusya") (used_only command) = Some f ∧
    f args t = Some (mkStatus EINVAL "Invalid chunk id", t)) as (f & Ef & E).
  { rewrite !elem_of_cons, elem_of_nil in Hc.
    destruct Hc as [-> | [-> | [-> | [-> | [-> | []]]]]]; (eexists; split; [reflexivity|]);
      unfold append_chunk, read_chunk, seal_chunk, remove_chunk, query_chunk; by rewrite Hv. }
  by rewrite (sad_status _ _ _ _ _ _ _ _ Ef E).
Qed.
End command_lemmas.
End Sad.
