(* ===== verification/SadPrint.v ===== *)
(** * What the tool prints ([src/sad/common.cc], the callbacks of [src/sad/manusya.cc])

    [print] makes a JSON object: a header of its own, made from the controller of the call, into which
    the response is merged, and that a callback of the command may change. [Sad] keeps the response and
    the texts that the callback puts in; here is the object. JSON values are data; merging
    and the conversion of messages are third-party ([JsonOps]): [merge_patch] is that of RFC 7396,
    and of [json2pb] the laws keep that a message becomes an object of its fields. A callback that
    throws leaves the object as it is by then. The text of the object is not modelled. *)
From S2P Require Import Prelude Bytes Iobuf Uuid Proto Future Store Chunk Bank ManusyaService Namespace Deva Op Rsm DevaService KvStore RocksdbStore AsuraService Client Sad.
Import Proto.Proto ManusyaService.ManusyaService Sad.Sad.
Set Default Goal Selector "!".
Local Open Scope Z_scope.

(** ** JSON values *)
Unset Elimination Schemes.
Inductive Json :=
| JNull
| JNumber (z : Z)
| JBool (b : bool)
| JString (s : string)
| JArray (l : list Json)
| JObject (fields : list (string * Json)).
Set Elimination Schemes.

(** The member of an object. *)
Fixpoint member (k : string) (fields : list (string * Json)) : option Json :=
  match fields with
  | [] => None
  | (k', v) :: fields => if bool_decide (k' = k) then Some v else member k fields
  end.
Definition lookup_json (k : string) (j : Json) : option Json :=
  match j with JObject fields => member k fields | _ => None end.
Fixpoint set_member (k : string) (v : Json) (fields : list (string * Json)) : list (string * Json) :=
  match fields with
  | [] => [(k, v)]
  | (k', v') :: fields => if bool_decide (k' = k) then (k, v) :: fields else (k', v') :: set_member k v fields
  end.

Lemma member_set k k' v fields :
  member k (set_member k' v fields) = if bool_decide (k' = k) then Some v else member k fields.
Proof.
  induction fields as [|[k1 v1] fields IH]; cbn [set_member member]; [done|].
  destruct (decide (k1 = k')) as [->|Hne].
  - rewrite bool_decide_eq_true_2 by done. cbn [member]. by destruct (bool_decide (k' = k)).
  - rewrite bool_decide_eq_false_2 by done. cbn [member]. rewrite IH.
    destruct (decide (k1 = k)) as [->|]; [|by rewrite bool_decide_eq_false_2].
    by rewrite bool_decide_eq_true_2, (bool_decide_eq_false_2 (k' = k)).
Qed.

(** A header in JSON, and an id. *)
Definition header_json (h : Header) : Json :=
  JObject [("status", JNumber (status h)); ("message", JString (message h))].
Definition uuid_json (m : UUIDMsg) : Json :=
  JObject [("low", JNumber (msg_low m)); ("high", JNumber (msg_high m))].

(** The header of a response; the answers of the registry have none that is ever set. *)
Definition header_of (m : Message) : Header :=
  match m with
  | MCreateChunk r => cc_header r
  | MAppendChunk r => acr_header r
  | MListChunk r => lcr_header r
  | MReadChunk r => rcr_header r
  | MQueryAndSealChunk r => qs_header r
  | MRemoveChunk r => rm_header r
  | MQueryChunk r => qc_header r
  | MOpenFile r => DevaService.of_header r
  | MRegisterDeva _ | MListDeva _ | MRegisterManusya _ | MListManusya _ => default_header
  end.

Class JsonOps := {
  merge_patch : Json → Json → Json;
  message_json : Message → Json;       (* [Json::parse] of [ProtoMessageToJson] *)
}.
Class JsonLaws `{JsonOps} : Prop := {
  (* RFC 7396 *)
  merge_value t p : (∀ fields, p ≠ JObject fields) → merge_patch t p = p;
  merge_is_object t p : ∃ fields, merge_patch t (JObject p) = JObject fields;
  merge_object t p k : NoDup (fst <$> p) →
    lookup_json k (merge_patch t (JObject p)) =
    match member k p with
    | None => lookup_json k t
    | Some JNull => None
    | Some v => Some (merge_patch (default JNull (lookup_json k t)) v)
    end;
  (* a message is an object; a header that was never set is left out *)
  message_fields m : ∃ fields, message_json m = JObject fields ∧ NoDup (fst <$> fields) ∧
    (member "header" fields = Some (header_json (header_of m)) ∨
     member "header" fields = None ∧ header_of m = default_header);
  (* ids: fields with primitive values are always printed, empty lists too *)
  created_json r :
    lookup_json "chunk_id" (message_json (MCreateChunk r)) = uuid_json <$> cc_chunk_id r;
  listed_json r :
    lookup_json "chunk_ids" (message_json (MListChunk r)) = Some (JArray (uuid_json <$> lcr_chunk_ids r));
}.

Module SadPrint.

(** What a call leaves in its controller, and the trace of the process. *)
Record Controller := mkController { ErrorCode : Z; ErrorText : string; remote_side : string }.

Section print.
Context `{JsonOps} `{UuidOps}.

(** [pb_to_json]. *)
Definition pb_to_json (message : Message) : Json := message_json message.

(** A callback changes the object, and may throw on the way. *)
Definition Callback : Type := Json → Json * bool.

(** [out[k]] on an object: a member that is missing is made, null. *)
Definition index (k : string) (j : Json) : option (Json * Json) :=
  match j with
  | JObject fields =>
      match member k fields with
      | Some v => Some (v, j)
      | None => Some (JNull, JObject (set_member k JNull fields))
      end
  | JNull => Some (JNull, JObject [(k, JNull)])
  | _ => None
  end.
Definition assign (k : string) (v j : Json) : Json :=
  match j with JObject fields => JObject (set_member k v fields) | JNull => JObject [(k, v)] | _ => j end.

(** [uint64_t x = j[k];]: the object with the member, and the number if it is one. *)
Definition number_at (k : string) (j : Json) : Json * option Z :=
  match index k j with
  | None => (j, None)
  | Some (JNumber z, j) => (j, Some z)
  | Some (_, j) => (j, None)
  end.

(** The two reads of an id in the callbacks, and the text that replaces it. *)
Definition id_text (j : Json) : Json * option string :=
  match number_at "low" j with
  | (j, None) => (j, None)
  | (j, Some low) =>
      match number_at "high" j with
      | (j, None) => (j, None)
      | (j, Some high) => (j, Some (uuid_str (uuid_ctor high low)))
      end
  end.

(** The callback of [create_chunk]. *)
Definition create_chunk_callback : Callback := λ out,
  match index "chunk_id" out with
  | None => (out, true)
  | Some (id, out) =>
      match id_text id with
      | (_, Some text) => (assign "chunk_id" (JString text) out, false)
      | (id, None) => (assign "chunk_id" id out, true)
      end
  end.

(** The callback of [list_chunk]: element by element, up to the first that has no numbers. *)
Fixpoint replace_ids (l : list Json) : list Json * bool :=
  match l with
  | [] => ([], false)
  | j :: l =>
      match id_text j with
      | (_, Some text) => let '(l, thrown) := replace_ids l in (JString text :: l, thrown)
      | (j, None) => (j :: l, true)
      end
  end.
Definition list_chunk_callback : Callback := λ out,
  match index "chunk_ids" out with
  | Some (JArray l, out) => let '(l, thrown) := replace_ids l in (assign "chunk_ids" (JArray l) out, thrown)
  | Some (JObject fields, out) =>
      let '(l, thrown) := replace_ids (snd <$> fields) in
      (assign "chunk_ids" (JObject (zip (fst <$> fields) l)) out, thrown)
  | Some (JNull, out) => (out, false)                                 (* no elements *)
  | Some (_, out) => (out, true)                                      (* its own element *)
  | None => (out, true)
  end.

Definition callback_of (m : Message) : option Callback :=
  match m with
  | MCreateChunk _ => Some create_chunk_callback
  | MListChunk _ => Some list_chunk_callback
  | _ => None
  end.

(** [print(const Status&)]. *)
Definition print_status (trace_id : string) (s : Status) : Json :=
  assign "header" (JObject [("status", JNumber (error_code s)); ("message", JString (error_str s));
    ("trace_id", JString trace_id)]) JNull.

(** [print(cntl, message, f)]: the object that is dumped. *)
Definition print (trace_id : string) (cntl : Controller) (message : option Message) (f : option Callback) : Json :=
  let out := assign "header" (JObject [("status", JNumber (ErrorCode cntl)); ("message", JString (ErrorText cntl));
    ("trace_id", JString trace_id); ("remote_side", JString (remote_side cntl))]) JNull in
  let out := match message with Some m => merge_patch out (pb_to_json m) | None => out end in
  match f with Some f => fst (f out) | None => out end.

(** What a command prints for a response, after a call that did not fail. *)
Definition printed_json (trace_id remote : string) (m : Message) : Json :=
  print trace_id (mkController 0 "" remote) (Some m) (callback_of m).
End print.

(** ** Theorems *)
Section theorems.
Context `{JsonLaws} `{UuidLaws}.

(** Merging a response into the header that [print] makes: an object again; its members. *)
Definition own_header (trace_id : string) (cntl : Controller) : Json :=
  JObject [("status", JNumber (ErrorCode cntl)); ("message", JString (ErrorText cntl));
    ("trace_id", JString trace_id); ("remote_side", JString (remote_side cntl))].
Definition merged (trace_id : string) (cntl : Controller) (m : Message) : Json :=
  merge_patch (JObject [("header", own_header trace_id cntl)]) (pb_to_json m).

Lemma merged_object trace_id cntl m : ∃ fields, merged trace_id cntl m = JObject fields.
Proof. unfold merged, pb_to_json. destruct (message_fields m) as (p & -> & _). apply merge_is_object. Qed.

Lemma merge_member t p k v :
  NoDup (fst <$> p) → member k p = Some v → v ≠ JNull →
  lookup_json k (merge_patch t (JObject p)) = Some (merge_patch (default JNull (lookup_json k t)) v).
Proof. intros Hd Hk Hv. rewrite merge_object, Hk by done. by destruct v. Qed.

Lemma merge_keep t p k :
  NoDup (fst <$> p) → member k p = None → lookup_json k (merge_patch t (JObject p)) = lookup_json k t.
Proof. intros Hd Hk. by rewrite merge_object, Hk. Qed.

Lemma merged_other trace_id cntl m k v :
  k ≠ "header" → v ≠ JNull → lookup_json k (pb_to_json m) = Some v →
  lookup_json k (merged trace_id cntl m) = Some (merge_patch JNull v).
Proof.
  intros Hk Hv. unfold merged, pb_to_json. destruct (message_fields m) as (p & -> & Hd & _). cbn [lookup_json].
  intros E. rewrite (merge_member _ p k v Hd E Hv). cbn. by rewrite bool_decide_eq_false_2.
Qed.
Lemma merged_missing trace_id cntl m k :
  k ≠ "header" → lookup_json k (pb_to_json m) = None → lookup_json k (merged trace_id cntl m) = None.
Proof.
  intros Hk. unfold merged, pb_to_json. destruct (message_fields m) as (p & -> & Hd & _). cbn [lookup_json].
  intros E. rewrite merge_keep by done. cbn. by rewrite bool_decide_eq_false_2.
Qed.

(** The members of a header that is printed. *)
Definition header_shows (trace_id remote : string) (h : Header) (j : Json) : Prop :=
  ∃ hj, lookup_json "header" j = Some hj ∧
    lookup_json "status" hj = Some (JNumber (status h)) ∧ lookup_json "message" hj = Some (JString (message h)) ∧
    lookup_json "trace_id" hj = Some (JString trace_id) ∧ lookup_json "remote_side" hj = Some (JString remote).

Lemma merged_header trace_id remote m :
  header_shows trace_id remote (header_of m) (merged trace_id (mkController 0 "" remote) m).
Proof.
  unfold merged, pb_to_json. destruct (message_fields m) as (p & -> & Hd & [Hh|[Hh Hdef]]).
  - eexists. split; [by apply (merge_member _ p _ _ Hd Hh)|]. cbn [lookup_json member default from_option].
    rewrite bool_decide_eq_true_2 by done. unfold header_json.
    assert (NoDup ("status" :: ["message"])) as Hn by (apply (bool_decide_unpack _); by vm_compute).
    split_and!.
    + erewrite merge_member; [by rewrite merge_value|exact Hn|reflexivity|done].
    + erewrite merge_member; [by rewrite merge_value|exact Hn|reflexivity|done].
    + by rewrite merge_keep.
    + by rewrite merge_keep.
  - eexists. split; [by rewrite merge_keep|]. by rewrite Hdef.
Qed.

(** Assigning another member leaves the header alone. *)
Lemma header_shows_assign trace_id remote h k v fields :
  k ≠ "header" → header_shows trace_id remote h (JObject fields) →
  header_shows trace_id remote h (assign k v (JObject fields)).
Proof.
  intros Hk (hj & Hh & Hrest). exists hj. split; [|done]. cbn [lookup_json assign] in *.
  by rewrite member_set, bool_decide_eq_false_2.
Qed.

Lemma index_object k fields :
  ∃ v fields', index k (JObject fields) = Some (v, JObject fields') ∧
    v = default JNull (member k fields) ∧
    (fields' = fields ∨ fields' = set_member k JNull fields).
Proof. cbn. destruct (member k fields) as [v|]; eexists _, _; (split; [done|]); split; auto. Qed.

Lemma header_shows_index trace_id remote h k v fields fields' :
  k ≠ "header" → header_shows trace_id remote h (JObject fields) →
  index k (JObject fields) = Some (v, JObject fields') → header_shows trace_id remote h (JObject fields').
Proof.
  intros Hk Hh E. destruct (index_object k fields) as (v1 & f1 & E1 & _ & Hf). rewrite E1 in E. injection E as -> ->.
  destruct Hf as [->| ->]; [done|]. exact (header_shows_assign trace_id remote h k JNull fields Hk Hh).
Qed.

(** For a call that did not fail the tool prints the status and the message that the response
    carries, with the trace and the server of the call, whatever the callback of the command does. *)
Theorem header_printed trace_id remote m :
  header_shows trace_id remote (header_of m) (printed_json trace_id remote m).
Proof.
  pose proof (merged_header trace_id remote m) as Hh.
  destruct (merged_object trace_id (mkController 0 "" remote) m) as [fields E].
  unfold printed_json, print. change (merge_patch _ (pb_to_json m)) with (merged trace_id (mkController 0 "" remote) m).
  rewrite E in *. destruct m; cbn [callback_of]; try exact Hh.
  - unfold create_chunk_callback. destruct (index_object "chunk_id" fields) as (v & f' & Ei & _).
    rewrite Ei. pose proof (header_shows_index _ _ _ "chunk_id" _ _ _ ltac:(done) Hh Ei) as Hh'.
    destruct (id_text v) as [v' [text|]]; cbn [fst]; by apply header_shows_assign.
  - unfold list_chunk_callback. destruct (index_object "chunk_ids" fields) as (v & f' & Ei & _).
    rewrite Ei. pose proof (header_shows_index _ _ _ "chunk_ids" _ _ _ ltac:(done) Hh Ei) as Hh'.
    destruct v; try exact Hh'; destruct (replace_ids _) as [l' thrown]; cbn [fst]; by apply header_shows_assign.
Qed.

Lemma id_text_members fields l h :
  member "low" fields = Some (JNumber l) → member "high" fields = Some (JNumber h) →
  id_text (JObject fields) = (JObject fields, Some (uuid_str (uuid_ctor h l))).
Proof. intros Hl Hh. unfold id_text, number_at, index. by rewrite Hl, Hh. Qed.

Lemma replace_ids_texts ms :
  replace_ids (uuid_json <$> ms) = ((λ m, JString (uuid_str (msg_uuid m))) <$> ms, false).
Proof. induction ms as [|m ms IH]; [done|]. cbn [fmap list_fmap replace_ids]. rewrite IH. done. Qed.

Lemma id_text_merged m : snd (id_text (merge_patch JNull (uuid_json m))) = Some (uuid_str (msg_uuid m)).
Proof.
  assert (NoDup ("low" :: ["high"])) as Hn by (apply (bool_decide_unpack _); by vm_compute).
  unfold uuid_json. set (p := [("low", JNumber (msg_low m)); ("high", JNumber (msg_high m))]).
  destruct (merge_is_object JNull p) as [fields E].
  pose proof (merge_member JNull p "low" (JNumber (msg_low m)) Hn eq_refl ltac:(done)) as Hl.
  pose proof (merge_member JNull p "high" (JNumber (msg_high m)) Hn eq_refl ltac:(done)) as Hh.
  rewrite (merge_value _ (JNumber _)) in Hl by done. rewrite (merge_value _ (JNumber _)) in Hh by done.
  rewrite E in *. by erewrite id_text_members.
Qed.

Lemma lookup_assigned k v fields : lookup_json k (assign k v (JObject fields)) = Some v.
Proof. cbn. by rewrite member_set, bool_decide_eq_true_2. Qed.

Lemma printed_eq trace_id remote m :
  printed_json trace_id remote m =
  match callback_of m with
  | Some f => fst (f (merged trace_id (mkController 0 "" remote) m))
  | None => merged trace_id (mkController 0 "" remote) m
  end.
Proof. done. Qed.

(** [create-chunk] prints the id of the new chunk as the text that the other commands take, and
    [list-chunk] the texts of the ids it was answered, in their order: what [Sad] says that they
    print. When no chunk was made, the callback throws halfway, and an empty id is printed. *)
Theorem ids_printed trace_id remote r rl :
  lookup_json "chunk_id" (printed_json trace_id remote (MCreateChunk r)) =
    Some (match cc_chunk_id r with
          | Some m => JString (uuid_str (msg_uuid m))
          | None => JObject [("low", JNull)]
          end) ∧
  lookup_json "chunk_ids" (printed_json trace_id remote (MListChunk rl)) =
    Some (JArray ((λ m, JString (uuid_str (msg_uuid m))) <$> lcr_chunk_ids rl)).
Proof.
  rewrite !printed_eq. cbn [callback_of]. set (c := mkController 0 "" remote). split.
  - pose proof (created_json r) as Hj. destruct (merged_object trace_id c (MCreateChunk r)) as [fields E].
    unfold create_chunk_callback. destruct (cc_chunk_id r) as [m|].
    + pose proof (merged_other trace_id c (MCreateChunk r) "chunk_id" (uuid_json m) ltac:(done) ltac:(done) Hj) as Hm.
      rewrite E in *. cbn [lookup_json] in Hm.
      destruct (index_object "chunk_id" fields) as (v & f' & -> & -> & Hf). rewrite Hm. cbn [default from_option].
      pose proof (id_text_merged m) as Ht. unfold id. destruct (id_text _) as [v' o]. cbn in Ht. subst o. cbn [fst].
      apply lookup_assigned.
    + pose proof (merged_missing trace_id c (MCreateChunk r) "chunk_id" ltac:(done) Hj) as Hm.
      rewrite E in *. cbn [lookup_json] in Hm.
      destruct (index_object "chunk_id" fields) as (v & f' & -> & -> & Hf). rewrite Hm. apply lookup_assigned.
  - pose proof (listed_json rl) as Hj. destruct (merged_object trace_id c (MListChunk rl)) as [fields E].
    pose proof (merged_other trace_id c (MListChunk rl) "chunk_ids" (JArray (uuid_json <$> lcr_chunk_ids rl)) ltac:(done) ltac:(done) Hj) as Hm.
    rewrite E in *. cbn [lookup_json] in Hm. rewrite (merge_value _ (JArray _)) in Hm by done.
    unfold list_chunk_callback. destruct (index_object "chunk_ids" fields) as (v & f' & -> & -> & Hf). rewrite Hm.
    cbn [default from_option]. unfold id. rewrite replace_ids_texts. cbn [fst]. apply lookup_assigned.
Qed.
End theorems.
End SadPrint.

(** ** Merging and conversion, and witnesses *)
Module PlainJson.

Fixpoint remove_member (k : string) (fields : list (string * Json)) : list (string * Json) :=
  match fields with
  | [] => []
  | (k', v) :: fields => if bool_decide (k' = k) then remove_member k fields else (k', v) :: remove_member k fields
  end.

(** RFC 7396. *)
Fixpoint merge (p t : Json) {struct p} : Json :=
  match p with
  | JObject ps =>
      JObject ((fix go (ps : list (string * Json)) (acc : list (string * Json)) :=
        match ps with
        | [] => acc
        | (k, v) :: ps =>
            go ps (match v with
                   | JNull => remove_member k acc
                   | _ => set_member k (merge v (default JNull (member k acc))) acc
                   end)
        end) ps (match t with JObject ts => ts | _ => [] end))
  | _ => p
  end.
Definition merge_fields := fix go (ps : list (string * Json)) (acc : list (string * Json)) :=
  match ps with
  | [] => acc
  | (k, v) :: ps =>
      go ps (match v with
             | JNull => remove_member k acc
             | _ => set_member k (merge v (default JNull (member k acc))) acc
             end)
  end.

Definition with_header (h : Header) (fields : list (string * Json)) : Json :=
  JObject (("header", header_json h) :: fields).
Definition to_json (m : Message) : Json :=
  match m with
  | MCreateChunk r =>
      with_header (cc_header r) (match cc_chunk_id r with Some i => [("chunk_id", uuid_json i)] | None => [] end)
  | MAppendChunk r => with_header (acr_header r) [("offset", JNumber (acr_offset r))]
  | MListChunk r =>
      with_header (lcr_header r) [("has_more", JBool (lcr_has_more r)); ("chunk_ids", JArray (uuid_json <$> lcr_chunk_ids r))]
  | MQueryAndSealChunk r => with_header (qs_header r) [("size", JNumber (qs_size r))]
  | MQueryChunk r => with_header (qc_header r) [("size", JNumber (qc_size r)); ("sealed", JBool (qc_sealed r))]
  | MReadChunk _ | MRemoveChunk _ | MOpenFile _ => with_header (header_of m) []
  | MRegisterDeva _ | MListDeva _ | MRegisterManusya _ | MListManusya _ => JObject []
  end.

#[export] Instance ops : JsonOps := { merge_patch t p := merge p t; message_json := to_json }.

Lemma member_remove k k' fields :
  member k (remove_member k' fields) = if bool_decide (k' = k) then None else member k fields.
Proof.
  induction fields as [|[k1 v1] fields IH]; cbn [remove_member member]; [by destruct (bool_decide _)|].
  destruct (decide (k1 = k')) as [->|Hne].
  - rewrite bool_decide_eq_true_2 by done. rewrite IH. by destruct (bool_decide (k' = k)).
  - rewrite bool_decide_eq_false_2 by done. cbn [member]. rewrite IH.
    destruct (decide (k1 = k)) as [->|]; [|by rewrite (bool_decide_eq_false_2 (k1 = k))].
    by rewrite bool_decide_eq_true_2, (bool_decide_eq_false_2 (k' = k)).
Qed.

Lemma member_absent k ps : k ∉ fst <$> ps → member k ps = None.
Proof.
  induction ps as [|[k1 v1] ps IH]; [done|]. cbn. rewrite not_elem_of_cons. intros [Hne Hn].
  rewrite bool_decide_eq_false_2 by done. by apply IH.
Qed.

Lemma merge_fields_member k ps acc :
  NoDup (fst <$> ps) →
  member k (merge_fields ps acc) =
  match member k ps with
  | None => member k acc
  | Some JNull => None
  | Some v => Some (merge v (default JNull (member k acc)))
  end.
Proof.
  revert acc; induction ps as [|[k' v] ps IH]; intros acc Hd; [done|]. cbn in Hd. apply NoDup_cons in Hd as [Hn Hd].
  cbn [merge_fields member]. rewrite IH by done. destruct (decide (k' = k)) as [->|Hne].
  - rewrite (bool_decide_eq_true_2 (k = k)), member_absent by done.
    destruct v; by rewrite ?member_set, ?member_remove, bool_decide_eq_true_2.
  - rewrite (bool_decide_eq_false_2 (k' = k)) by done.
    destruct v; by rewrite ?member_set, ?member_remove, bool_decide_eq_false_2.
Qed.

#[export] Instance laws : JsonLaws.
Proof.
  split.
  - intros t p Hp. destruct p; cbn; done || by destruct (Hp fields).
  - intros t p. by eexists.
  - intros t p k Hd. change (merge_patch t (JObject p))
      with (JObject (merge_fields p (match t with JObject ts => ts | _ => [] end))).
    cbn [lookup_json]. rewrite merge_fields_member by done. by destruct t.
  - intros m. assert (∀ fields, NoDup ("header" :: (fst <$> fields)) →
      ∃ f, with_header (header_of m) fields = JObject f ∧ NoDup (fst <$> f) ∧
        (member "header" f = Some (header_json (header_of m)) ∨
         member "header" f = None ∧ header_of m = default_header)) as Hw.
    { intros fields Hn. eexists. split; [reflexivity|]. split; [exact Hn|]. by left. }
    destruct m as [r| | | | | | | | | | |]; try (apply Hw, (bool_decide_unpack _); by vm_compute);
      try (exists []; split; [done|]; split; [constructor|by right]).
    apply Hw. destruct (cc_chunk_id r); apply (bool_decide_unpack _); by vm_compute.
  - intros r. cbn. by destruct (cc_chunk_id r).
  - done.
Qed.
End PlainJson.

Module Witness.
Import SadPrint.
#[local] Existing Instances PlainJson.ops PlainJson.laws HexUuid.ops HexUuid.laws.

(** What [remove-chunk] prints for a chunk that is not there. *)
Example not_found_json :
  printed_json "t" "127.0.0.1:8003" (MRemoveChunk (mkRemoveChunkResponse (mkHeader 2 "Chunk not found"))) =
  JObject [("header", JObject [("status", JNumber 2); ("message", JString "Chunk not found");
    ("trace_id", JString "t"); ("remote_side", JString "127.0.0.1:8003")])].
Proof. by vm_compute. Qed.
(** What [create-chunk] prints when no chunk was made. *)
Example not_created_json :
  lookup_json "chunk_id" (printed_json "t" "h" (MCreateChunk (mkCreateChunkResponse (mkHeader 5 "io") None))) =
  Some (JObject [("low", JNull)]).
Proof. by vm_compute. Qed.
End Witness.
