(* ===== verification/SadServers.v ===== *)
(** * The command line tool against the servers

    The composition of [Sad.v] with the chunk server of [ManusyaService.v], the registry of
    [AsuraService.v] and the metadata server of [Deployment.v]: a call runs the handler on the
    state of the server, and a handler that does not answer is a time-out of the call. *)
From S2P Require Import Prelude Bytes Iobuf Uuid Proto Future Store MemStore Chunk Reassembly ChunkSpec Bank ManusyaService Namespace Deva Op Rsm DevaService KvStore RocksdbStore AsuraService Client Deployment Sad SadPrint.
From Stdlib Require Import Strings.String.
Import Chunk Reassembly Bank Proto.Proto ManusyaService.ManusyaService Sad.Sad.
Set Default Goal Selector "!".
Local Open Scope Z_scope.

Module SadServers.

Section servers.
Context `{IOBufOps} `{UuidOps} `{Op.ProtoOps} `{KvOps St It} `{Asura.ServerProto}.
Context {CSt FH : Type} `{!StoreOps CSt FH}.
Abbreviation Bank := (Bank.Bank (St := CSt) (FH := FH)).

Record Servers := mkServers {
  cluster : Deployment.Cluster St;      (* metadata server and registry *)
  bank : Bank;                          (* chunk server *)
  created : nat;                        (* chunks that were asked for *)
}.
Definition set_cluster (c : Deployment.Cluster St) (w : Servers) : Servers :=
  mkServers c (bank w) (created w).
Definition set_bank (b : Bank) (w : Servers) : Servers := mkServers (cluster w) b (created w).

Context (padding : list byte) (list_fuel : nat) (node : string).
Context (ids chunk_ids : nat → UUID) (clocks : nat → DevaService.Clock) (times : nat → Z).
Context (refusals : nat → option Status).

Definition time_out : Z * string := (Deployment.ERPCTIMEDOUT, "Reached timeout").

(** A handler of the chunk server: an answer, a failure set on the controller, or none yet. *)
Definition serve_bank {A} (handler : Prog Bank (option ((Z * string) + A))) (w : Servers) :
    ((Z * string) + A) * Servers :=
  match handler (bank w) with
  | Some (Some answer, b) => (answer, set_bank b w)
  | Some (None, b) => (inl time_out, set_bank b w)
  | None => (inl time_out, w)
  end.
Definition answers {A} (p : Prog Bank A) : Prog Bank (option ((Z * string) + A)) :=
  a ← p; mret (Some (inr a)).
Definition may_fail {A} (p : Prog Bank (A * Failure)) : Prog Bank (option ((Z * string) + A)) :=
  '(a, failure) ← p;
  mret (Some (match failure with Some e => inl e | None => inr a end)).
Definition replies_of (r : AppendReply) : option ((Z * string) + AppendChunkResponse) :=
  match r with Replied response => Some (inr response) | Blocked _ _ => None end.

Definition serve_registry {A} (handler : Prog St A) (w : Servers) : ((Z * string) + A) * Servers :=
  match handler (Deployment.registry (cluster w)) with
  | Some (a, s) => (inr a, set_cluster (Deployment.set_registry s (cluster w)) w)
  | None => (inl time_out, w)
  end.

#[export] Instance servers : SadOps Servers := {|
  channel_init _ _ := true;
  sad_CreateChunk _ _ w :=
    let '(a, w') := serve_bank (answers (CreateChunk (chunk_ids (created w)))) w in
    (a, mkServers (cluster w') (bank w') (S (created w')));
  sad_AppendChunk _ q w := serve_bank (r ← AppendChunk (fst q) (snd q); mret (replies_of r)) w;
  sad_ListChunk _ q w := serve_bank (answers (ListChunk q)) w;
  sad_ReadChunk _ q w := serve_bank (may_fail (ReadChunk q iob_empty)) w;
  sad_QueryAndSealChunk _ q w := serve_bank (may_fail (QueryAndSealChunk q)) w;
  sad_RemoveChunk _ q w := serve_bank (answers (RemoveChunk q)) w;
  sad_QueryChunk _ q w := serve_bank (answers (QueryChunk q)) w;
  sad_RegisterDeva _ q w := serve_registry (Asura.RegisterDeva q []) w;
  sad_ListDeva _ _ w := serve_registry (Asura.ListDeva list_fuel []) w;
  sad_RegisterManusya _ q w := serve_registry (Asura.RegisterManusya q []) w;
  sad_ListManusya _ _ w := serve_registry (Asura.ListManusya list_fuel []) w;
  sad_OpenFile _ q w :=
    let stubs := Deployment.stubs padding node list_fuel ids clocks times refusals in
    let '(a, c) := Client.Client.stub_OpenFile (StubOps := stubs) node q (cluster w) in
    (a, set_cluster c w);
|}.
End servers.

(** ** Chunks through the tool *)
Section chunks.
Context `{StoreReliable CSt FH} `{!UuidOps} `{!UuidLaws}.
Context `{!Op.ProtoOps} `{!IteratorOps It} `{!KvOps St It} `{!Asura.ServerProto}.
Context (padding : list byte) (list_fuel : nat) (node : string).
Context (ids chunk_ids : nat → UUID) (clocks : nat → DevaService.Clock) (times : nat → Z).
Context (refusals : nat → option Status) (id : UUID).
#[local] Instance the_servers : SadOps Servers :=
  servers (St := St) (CSt := CSt) padding list_fuel node ids chunk_ids clocks times refusals.
Abbreviation World := (Servers (St := St) (CSt := CSt) (FH := FH)).
Implicit Types (t : Tool World).

(** The text that the last command printed in the place of a UUID. *)
Definition printed_uuid t : string :=
  match last (outputs t) with Some (Printed _ (s :: _)) => s | _ => "" end.

Lemma serve_bank_eq {A} (handler : Prog (Bank.Bank (St := CSt) (FH := FH)) (option ((Z * string) + A)))
    (w : World) r b :
  handler (bank w) = Some (r, b) → serve_bank handler w = (default (inl time_out) r, set_bank b w).
Proof. intros E. unfold serve_bank. rewrite E. by destruct r. Qed.

(** Run a call of the chunk server whose handler is known to answer by [E]. *)
Ltac run_send E :=
  erewrite send_eq;
  [|done|cbn [sad_AppendChunk sad_ReadChunk sad_QueryAndSealChunk sad_RemoveChunk sad_QueryChunk the_servers
              servers fst snd];
   eapply serve_bank_eq; unfold answers, may_fail; erewrite bind_step by E; reflexivity];
  reflexivity.

(** What a user does: makes a chunk, appends to the chunk with the id that the tool printed, and
    reads it; the exit codes. *)
Definition session (data : string) : Prog (Tool World) (list Z) :=
  c1 ← sad id "manusya" "create-chunk" create_chunk_args;
  chunk_id ← gets printed_uuid;
  c2 ← sad id "manusya" "append-chunk" (append_chunk_args chunk_id data None);
  c3 ← sad id "manusya" "read-chunk"
         (read_chunk_args chunk_id None (Some (len (list_byte_of_string data))) None);
  mret [c1; c2; c3].

Lemma sad_create t :
  let uuid := chunk_ids (created (world t)) in
  bank_inv (bank (world t)) → files (_store (bank (world t))) !! uuid_str uuid = None →
  _chunks (bank (world t)) !! uuid = None →
  ∃ t', sad id "manusya" "create-chunk" create_chunk_args t = Some (0, t') ∧
        printed_uuid t' = uuid_str uuid ∧ holds (bank (world t')) uuid [].
Proof.
  intros uuid Hb Hnew Hno. destruct (create_chunk_eq uuid _ Hb Hnew Hno) as (b1 & Ec & Hh).
  eexists. split; [|split].
  - erewrite sad_status; [|reflexivity|].
    2: { unfold create_chunk. erewrite send_eq; [|done|].
         2: { cbn [sad_CreateChunk the_servers servers]. erewrite serve_bank_eq; [reflexivity|].
              unfold answers. fold uuid. by erewrite bind_step by exact Ec. }
         reflexivity. }
    reflexivity.
  - unfold printed_uuid. cbn [outputs]. rewrite last_snoc. cbn [cc_chunk_id]. by rewrite msg_uuid_msg.
  - exact Hh.
Qed.

Lemma sad_append uuid data t :
  holds (bank (world t)) uuid [] → len (list_byte_of_string data) < 2 ^ 32 →
  ∃ t', sad id "manusya" "append-chunk" (append_chunk_args (uuid_str uuid) data None) t = Some (0, t') ∧
    ∃ l c, _chunks (bank (world t')) !! uuid = Some l ∧ heap (bank (world t')) !! l = Some c ∧
      inv (mkWorld (_store (bank (world t'))) c) (list_byte_of_string data).
Proof.
  intros Hh Hlen. set (bytes := list_byte_of_string data) in *.
  set (buf := iob_append_raw iob_empty bytes).
  assert (iob_bytes buf = bytes) as Hbuf.
  { unfold buf. by rewrite iob_bytes_append_raw, iob_bytes_empty. }
  rewrite <-Hbuf in Hlen.
  destruct (append_chunk_eq uuid buf _ Hh Hlen) as (b' & Ea & l & c & El & Ecl & Hi & _).
  rewrite Hbuf in Hi. exists (mkTool (set_bank b' (world t)) (outputs t ++
    [Printed (MAppendChunk (mkAppendChunkResponse default_header (len (iob_bytes buf)))) []])).
  split; [|by exists l, c]. erewrite sad_status; [|reflexivity|].
  2: { rewrite append_chunk_valid. run_send ltac:(exact Ea). }
  reflexivity.
Qed.

Lemma sad_read uuid bs n t l c :
  _chunks (bank (world t)) !! uuid = Some l → heap (bank (world t)) !! l = Some c →
  inv (mkWorld (_store (bank (world t))) c) bs → len bs < 2 ^ 32 → len bs <= n < 2 ^ 32 →
  ∃ t', sad id "manusya" "read-chunk" (read_chunk_args (uuid_str uuid) None (Some n) None) t =
          Some (if n =? len bs then 0 else 1, t') ∧
        (n = len bs → last (outputs t') = Some (PrintedText bs)).
Proof.
  intros El Ecl Hi Hlen Hn.
  destruct (Z.eqb_spec n (len bs)) as [->|Hne].
  - destruct (read_chunk_eq uuid bs _ l c El Ecl Hi Hlen) as (buf & b' & Er & Hbuf & _).
    eexists. split.
    + erewrite sad_status; [|reflexivity|rewrite read_chunk_valid].
      2: run_send ltac:(exact Er).
      reflexivity.
    + intros _. cbn [outputs]. by rewrite last_snoc, Hbuf.
  - destruct (read_chunk_beyond uuid bs n _ l c El Ecl Hi) as (e & buf & b' & Er); [lia|].
    eexists. split; [|done].
    erewrite sad_status; [|reflexivity|rewrite read_chunk_valid].
    2: run_send ltac:(exact Er).
    reflexivity.
Qed.

(** With the tool and a chunk server whose store does not fail: the id that [create-chunk]
    prints is accepted by the other commands, and what [append-chunk] was given [read-chunk] prints, when
    it is told the length; all three exit with 0. *)
Theorem session_roundtrip data t :
  let uuid := chunk_ids (created (world t)) in
  bank_inv (bank (world t)) → files (_store (bank (world t))) !! uuid_str uuid = None →
  _chunks (bank (world t)) !! uuid = None → len (list_byte_of_string data) < 2 ^ 32 →
  wp (session data) t (λ codes t', codes = [0; 0; 0] ∧
    last (outputs t') = Some (PrintedText (list_byte_of_string data))).
Proof.
  intros uuid Hb Hnew Hno Hlen. destruct (sad_create t Hb Hnew Hno) as (t1 & E1 & Ep & Hh).
  destruct (sad_append uuid data t1 Hh Hlen) as (t2 & E2 & l & c & El & Ecl & Hi).
  destruct (sad_read uuid _ (len (list_byte_of_string data)) t2 l c El Ecl Hi Hlen) as (t3 & E3 & Hlast);
    [lia|].
  unfold session. eapply wp_step; [exact E1|]. eapply wp_step; [done|]. rewrite Ep.
  eapply wp_step; [exact E2|]. eapply wp_step; [exact E3|]. eapply wp_eval; [done|].
  rewrite Z.eqb_refl. split; [done|]. by apply Hlast.
Qed.

(** Without [--length] the tool asks for 1024 bytes, and the server fails the call for every
    chunk that holds fewer. *)
Theorem default_length_fails uuid bs t l c :
  _chunks (bank (world t)) !! uuid = Some l → heap (bank (world t)) !! l = Some c →
  inv (mkWorld (_store (bank (world t))) c) bs → len bs < 1024 →
  wp (sad id "manusya" "read-chunk" (read_chunk_args (uuid_str uuid) None None None)) t
    (λ code _, code = 1).
Proof.
  intros El Ecl Hi Hlen. destruct (sad_read uuid bs 1024 t l c El Ecl Hi) as (t' & E & _); [lia|lia|].
  eapply wp_eval; [exact E|]. cbv beta. by rewrite (proj2 (Z.eqb_neq _ _)) by lia.
Qed.

(** For the id of a chunk that the server does not have, [append-chunk], [read-chunk],
    [remove-chunk] and [query-chunk] exit with 0 like successful commands - the error is in the
    header that they print - and [read-chunk] prints an empty text; only [seal-chunk] exits with 1. *)
Theorem unknown_chunk_exits uuid data t :
  _chunks (bank (world t)) !! uuid = None →
  let s := uuid_str uuid in
  let code command args := fst <$> sad id "manusya" command args t in
  code "append-chunk" (append_chunk_args s data None) = Some 0 ∧
  code "read-chunk" (read_chunk_args s None None None) = Some 0 ∧
  code "remove-chunk" (chunk_args s) = Some 0 ∧
  code "query-chunk" (chunk_args s) = Some 0 ∧
  code "seal-chunk" (chunk_args s) = Some 1.
Proof.
  intros Hno s code. subst s. rewrite <-(msg_uuid_msg uuid) in Hno.
  destruct (unknown_chunk (uuid_msg uuid) (bank (world t)) Hno) as (Ha & Hr & Hq & Hs & Hm).
  assert (∀ command args f st t' z, sad_execute id (used_only "manusya") (used_only command) = Some f →
    f args t = Some (st, t') → (if ok st then 0 else 1) = z → code command args = Some z) as Hcode.
  { intros command args f st t' z Ex Ef <-. unfold code. rewrite (sad_status _ _ _ _ _ _ _ _ Ex Ef).
    by destruct (ok st). }
  split_and!; (eapply Hcode; [reflexivity| |]).
  - rewrite append_chunk_valid. run_send ltac:(apply Ha).
  - reflexivity.
  - rewrite read_chunk_valid. run_send ltac:(apply Hr).
  - reflexivity.
  - rewrite remove_chunk_valid. run_send ltac:(exact Hm).
  - reflexivity.
  - rewrite query_chunk_valid. run_send ltac:(exact Hq).
  - reflexivity.
  - rewrite seal_chunk_valid. run_send ltac:(exact Hs).
  - reflexivity.
Qed.

(** What the user sees of such a failure is the status in the object that is printed: [remove-chunk]
    for a chunk that does not exist prints ENOENT and exits with 0. *)
Theorem unknown_chunk_shown `{JsonLaws} uuid trace_id remote t :
  _chunks (bank (world t)) !! uuid = None →
  wp (sad id "manusya" "remove-chunk" (chunk_args (uuid_str uuid))) t (λ code t',
    code = 0 ∧ world t' = world t ∧ ∃ m, outputs t' = outputs t ++ [Printed m []] ∧
    SadPrint.header_shows trace_id remote (mkHeader ENOENT "Chunk not found")
      (SadPrint.printed_json trace_id remote m)).
Proof.
  intros Hno. rewrite <-(msg_uuid_msg uuid) in Hno.
  destruct (unknown_chunk (uuid_msg uuid) (bank (world t)) Hno) as (_ & _ & _ & _ & Hm).
  set (r := mkRemoveChunkResponse (mkHeader ENOENT "Chunk not found")).
  apply (wp_eval _ _ 0 (mkTool (world t) (outputs t ++ [Printed (MRemoveChunk r) []]))).
  - erewrite sad_status; [|reflexivity|rewrite remove_chunk_valid; run_send ltac:(exact Hm)].
    cbn. by destruct (world t).
  - split_and!; [done|done|]. exists (MRemoveChunk r). split; [done|].
    exact (SadPrint.header_printed trace_id remote (MRemoveChunk r)).
Qed.
End chunks.

(** ** Witnesses: an empty chunk server in memory *)
Module Witness.
Import ChunkSpec.Example Bank.Witness Namespace.Witness Op.Witness RocksdbStore.MapRocksdb.
#[local] Existing Instances ListIOBuf.ops ListIOBuf.laws HexUuid.ops HexUuid.laws
  Op.CountProto.ops Asura.CountServer.ops PlainJson.ops PlainJson.laws.

Definition tool0 : Tool (Servers (St := RocksdbStore.RocksdbStore DB) (CSt := MemStore.MemStore)
    (FH := MemStore.MemFileHandle)) :=
  mkTool (mkServers Deployment.Witness.cluster0 bank0 0) [].
Definition chunk_ids0 (n : nat) : UUID := uuid.
#[local] Instance servers0 : SadOps (Servers (St := RocksdbStore.RocksdbStore DB)
    (CSt := MemStore.MemStore) (FH := MemStore.MemFileHandle)) :=
  servers padding0 3 "" chunk_ids0 chunk_ids0 Deployment.Witness.clocks0 Deployment.Witness.times0
    (λ _, None).

Lemma names_distinct : NoDup ((format_command ∘ fst) <$> manusya_commands (W := Servers
    (St := RocksdbStore.RocksdbStore DB) (CSt := MemStore.MemStore) (FH := MemStore.MemFileHandle))).
Proof. apply (bool_decide_unpack _). vm_compute. exact I. Qed.

Lemma execute_finds_witness :
  let commands := manusya_commands (W := Servers
    (St := RocksdbStore.RocksdbStore DB) (CSt := MemStore.MemStore) (FH := MemStore.MemFileHandle)) in
  let used := used_only "append-chunk" in
  execute used (register_all add commands) = Some append_chunk ∧
  asura_execute used (register_all asura_add commands) = Some append_chunk ∧
  deva_execute used (register_all deva_add commands) = Some append_chunk.
Proof.
  apply (execute_finds manusya_commands "append_chunk" append_chunk names_distinct).
  right. left.
Defined.

Lemma invalid_id_refused_witness :
  sad uuid "manusya" "query-chunk" (chunk_args "123E4567-e89b-12d3-a456-426655440000") tool0 =
  Some (1, mkTool (world tool0) [PrintedStatus (mkStatus EINVAL "Invalid chunk id")]).
Proof.
  apply (invalid_id_refused uuid "query-chunk" (chunk_args "123E4567-e89b-12d3-a456-426655440000") tool0).
  - reflexivity.
  - right. right. right. right. left.
Defined.

Lemma text_short : len (list_byte_of_string "hello") < 2 ^ 32.
Proof. by vm_compute. Qed.

Lemma session_roundtrip_witness :
  wp (session padding0 3 "" chunk_ids0 chunk_ids0 Deployment.Witness.clocks0 Deployment.Witness.times0
        (λ _, None) uuid "hello") tool0 (λ codes t', codes = [0; 0; 0] ∧
    last (outputs t') = Some (PrintedText (list_byte_of_string "hello"))).
Proof.
  exact (session_roundtrip padding0 3 "" chunk_ids0 chunk_ids0 Deployment.Witness.clocks0
    Deployment.Witness.times0 (λ _, None) uuid "hello" tool0 (new_bank_inv store0) bank0_files bank0_chunks
    text_short).
Defined.

Lemma unknown_chunk_shown_witness :
  wp (sad uuid "manusya" "remove-chunk" (chunk_args (uuid_str uuid))) tool0 (λ code t',
    code = 0 ∧ world t' = world tool0 ∧ ∃ m, outputs t' = [Printed m []] ∧
    SadPrint.header_shows "t" "127.0.0.1:8003" (mkHeader ENOENT "Chunk not found")
      (SadPrint.printed_json "t" "127.0.0.1:8003" m)).
Proof.
  exact (unknown_chunk_shown padding0 3 "" chunk_ids0 chunk_ids0 Deployment.Witness.clocks0
    Deployment.Witness.times0 (λ _, None) uuid uuid "t" "127.0.0.1:8003" tool0 bank0_chunks).
Defined.

Lemma unknown_chunk_exits_witness :
  fst <$> sad uuid "manusya" "query-chunk" (chunk_args (uuid_str uuid)) tool0 = Some 0.
Proof.
  destruct (unknown_chunk_exits padding0 3 "" chunk_ids0 chunk_ids0 Deployment.Witness.clocks0
    Deployment.Witness.times0 (λ _, None) uuid uuid "hello" tool0 bank0_chunks) as (_ & _ & _ & Hq & _).
  exact Hq.
Defined.
End Witness.
End SadServers.
