(* ===== verification/CommandLine.v ===== *)
(** * The command line of the tool ([src/sad/parse_args.cc], [src/sad/macro.h], the parsers of
    [src/sad/manusya.cc], [src/sad/asura.cc] and [src/sad/deva.cc])

    The parsers of [sad] are static objects: constructors that the macros [EXECUTE] and [REGISTER]
    define enter them in the parser of the program, file by file, before [main] runs. Here they
    are programs on a store of parsers ([Statics]); a parser holds references to its subparsers, and
    [add_parents] copies the arguments that the parent has at that moment. Parsing itself is
    argparse's ([ArgparseOps]): of its documentation [ArgparseLaws] keeps what happens to command
    lines of the form [options command options command options], with a value after each option
    that takes one. The theorems lead from the words of a command line to the commands of [Sad], and
    with [SadServers] to the servers. *)
From S2P Require Import Prelude Bytes Iobuf Uuid Proto Future Store MemStore Chunk Reassembly ChunkSpec Bank ManusyaService Namespace Deva Op Rsm DevaService KvStore RocksdbStore AsuraService Client Deployment Sad SadServers.
From Stdlib Require Import Strings.Ascii.
Import Chunk Reassembly Bank Proto.Proto ManusyaService.ManusyaService Sad.Sad.
Set Default Goal Selector "!".
Local Open Scope Z_scope.

(** ** Parsers as data *)

(** What an argument is read as: a string, an integer of some width ([scan<'i', T>]), or a flag
    with an implicit value. *)
Inductive Kind := KString | KUint (bits : Z) | KFlag.
Inductive Value := VString (s : string) | VUint (z : Z) | VBool (b : bool).
Record Argument := mkArgument {
  names : list string;
  kind : Kind;
  default_value : option Value;
  required : bool;
}.
#[export] Instance kind_eq_dec : EqDecision Kind.
Proof. solve_decision. Defined.
#[export] Instance value_eq_dec : EqDecision Value.
Proof. solve_decision. Defined.
#[export] Instance argument_eq_dec : EqDecision Argument.
Proof. solve_decision. Defined.

(** A parser: its name, whether it has the arguments for help and version, its arguments, and the
    keys of its subparsers. *)
Record Parser := mkParser {
  parser_name : string;
  default_arguments : bool;
  arguments : list Argument;
  subparsers : list string;
}.
Definition Statics : Type := gmap string Parser.
#[export] Instance parser_eq_dec : EqDecision Parser.
Proof. solve_decision. Defined.

Definition find_argument (p : Parser) (n : string) : option Argument :=
  snd <$> list_find (λ a, n ∈ names a) (arguments p).
Definition subparser_named (st : Statics) (p : Parser) (n : string) : option string :=
  snd <$> list_find (λ key, parser_name <$> st !! key = Some n) (subparsers p).

(** ** Command lines *)

(** Options as they are given: a name, and the word after it. *)
Definition Given : Type := list (string * option string).
Definition tokens (opts : Given) : list string := concat ((λ '(n, v), n :: option_list v) <$> opts).
(** A word that does not look like an option. *)
Definition plain_word (s : string) : bool := match s with String "-" _ => false | _ => true end.

(** [scan bits s]: the unsigned integer of that width that a word denotes. *)
Definition reads (scan : Z → string → option Z) (a : Argument) (word : option string) (v : Value) : Prop :=
  match kind a, word with
  | KString, Some s => plain_word s = true ∧ v = VString s
  | KUint bits, Some s => plain_word s = true ∧ ∃ z, scan bits s = Some z ∧ v = VUint z
  | KFlag, None => v = VBool true
  | _, _ => False
  end.

(** The options of one parser: all known, no argument twice, every word readable. *)
Definition accepts scan (p : Parser) (opts : Given) (vals : list (Argument * Value)) : Prop :=
  Forall2 (λ o av, find_argument p (fst o) = Some (fst av) ∧ reads scan (fst av) (snd o) (snd av)) opts vals ∧
  NoDup (fst <$> vals).
(** No argument is missing. *)
Definition complete (p : Parser) (vals : list (Argument * Value)) : Prop :=
  Forall (λ a, required a = true → default_value a = None → a ∈ fst <$> vals) (arguments p).
(** What [get] finds. *)
Definition value (p : Parser) (vals : list (Argument * Value)) (n : string) : option Value :=
  a ← find_argument p n;
  match list_find (λ av, fst av = a) vals with
  | Some (_, (_, v)) => Some v
  | None => default_value a
  end.

(** A command line for the parser [key]: the words, the path of subcommands, and for every
    parser on the path the values it is given. *)
Inductive line scan (st : Statics) : string → list string → list string → list (Parser * list (Argument * Value)) → Prop :=
| line_last key p opts vals :
    st !! key = Some p → accepts scan p opts vals → complete p vals →
    line scan st key (tokens opts) [] [(p, vals)]
| line_command key p opts vals sub name rest path l :
    st !! key = Some p → accepts scan p opts vals → complete p vals →
    find_argument p name = None → subparser_named st p name = Some sub →
    line scan st sub rest path l →
    line scan st key (tokens opts ++ name :: rest) (name :: path) ((p, vals) :: l).
(** A command line whose last parser misses an argument. *)
Inductive line_missing scan (st : Statics) : string → list string → Prop :=
| missing_last key p opts vals :
    st !! key = Some p → accepts scan p opts vals → ¬ complete p vals →
    line_missing scan st key (tokens opts)
| missing_command key p opts vals sub name rest :
    st !! key = Some p → accepts scan p opts vals →
    find_argument p name = None → subparser_named st p name = Some sub →
    line_missing scan st sub rest →
    line_missing scan st key (tokens opts ++ name :: rest).

(** ** argparse *)

(** What [parse_args] leaves: the subcommands that were used, outermost first, and the values of
    the parsers on the way, by the path to them. *)
Record Parsed := mkParsed {
  used : list string;
  get_value : list string → string → option Value;
}.

Class ArgparseOps := {
  scan_uint : Z → string → option Z;
  (* the parser, the words after the name of the program: the text of the exception, or the values *)
  parse_args : Statics → string → list string → string + Parsed;
}.
Class ArgparseLaws `{ArgparseOps} : Prop := {
  parse_line st key words path l :
    line scan_uint st key words path l →
    ∃ parsed, parse_args st key words = inr parsed ∧ used parsed = path ∧
      ∀ i p vals n, l !! i = Some (p, vals) → get_value parsed (take i path) n = value p vals n;
  parse_missing st key words :
    line_missing scan_uint st key words → ∃ what, parse_args st key words = inl what;
}.

Module CommandLine.

(** ** Static objects *)

(** Access to a parser; a reference to none does not return. *)
Definition the_parser (key : string) : Prog Statics Parser :=
  st ← get; match st !! key with Some p => mret p | None => abort end.
Definition set_parser (key : string) (p : Parser) : Prog Statics unit := modify <[key := p]>.

(** [ArgumentParser(name, version, default_arguments)]. *)
Definition new_parser (key name : string) (defaults : bool) : Prog Statics unit :=
  set_parser key (mkParser name defaults [] []).
(** A static object of a function, made by its first call. *)
Definition static_parser (key name : string) (defaults : bool) : Prog Statics string :=
  st ← get;
  (match st !! key with Some _ => mret tt | None => new_parser key name defaults end);;
  mret key.

Definition add_argument (key : string) (a : Argument) : Prog Statics unit :=
  p ← the_parser key;
  set_parser key (mkParser (parser_name p) (default_arguments p) (arguments p ++ [a]) (subparsers p)).
Definition add_subparser (key sub : string) : Prog Statics unit :=
  _ ← the_parser sub;
  p ← the_parser key;
  set_parser key (mkParser (parser_name p) (default_arguments p) (arguments p) (subparsers p ++ [sub])).
Definition add_parents (key parent : string) : Prog Statics unit :=
  q ← the_parser parent;
  p ← the_parser key;
  set_parser key (mkParser (parser_name p) (default_arguments p) (arguments p ++ arguments q) (subparsers p)).

Definition program : Prog Statics string := static_parser "program" "program_name" true.
Definition manusya_parser : Prog Statics string := static_parser "manusya" "manusya" false.
Definition deva_parser : Prog Statics string := static_parser "deva" "deva" false.

(** [REGISTER(cmd, parent, callback)]. *)
Definition REGISTER (cmd : string) (parent : Prog Statics string) (callback : string → Prog Statics unit) :
    Prog Statics unit :=
  new_parser cmd (format_command cmd) true;;
  parent' ← parent;
  add_subparser parent' cmd;;
  parent'' ← parent;
  add_parents cmd parent'';;
  callback cmd.

(** The chains of calls on [add_argument]: a required string; a string or a number with a default. *)
Definition needed (names : list string) : Argument := mkArgument names KString None true.
Definition optional (names : list string) (default : string) : Argument :=
  mkArgument names KString (Some (VString default)) false.
Definition number (names : list string) (bits default : Z) : Argument :=
  mkArgument names (KUint bits) (Some (VUint default)) false.
Definition host (default : string) : Argument := optional ["--host"] default.

Definition chunk_id_only (parser : string) : Prog Statics unit := add_argument parser (needed ["-c"; "--chunk-id"]).

(** The commands of [manusya.cc]. *)
Definition create_chunk_parser : Prog Statics unit := REGISTER "create_chunk" manusya_parser (λ parser, mret tt).
Definition append_chunk_parser : Prog Statics unit :=
  REGISTER "append_chunk" manusya_parser (λ parser,
    add_argument parser (needed ["-c"; "--chunk-id"]);;
    add_argument parser (number ["-o"; "--offset"] 64 0);;
    add_argument parser (needed ["-d"; "--data"])).
Definition list_chunk_parser : Prog Statics unit :=
  REGISTER "list_chunk" manusya_parser (λ parser,
    add_argument parser (optional ["--start"] "00000000-0000-0000-0000-000000000000");;
    add_argument parser (number ["--limit"] 32 10)).
Definition read_chunk_parser : Prog Statics unit :=
  REGISTER "read_chunk" manusya_parser (λ parser,
    add_argument parser (needed ["-c"; "--chunk-id"]);;
    add_argument parser (number ["--offset"] 64 0);;
    add_argument parser (number ["-l"; "--length"] 32 1024);;
    add_argument parser (optional ["-o"; "--output"] "-")).
Definition seal_chunk_parser : Prog Statics unit := REGISTER "seal_chunk" manusya_parser chunk_id_only.
Definition remove_chunk_parser : Prog Statics unit := REGISTER "remove_chunk" manusya_parser chunk_id_only.
Definition query_chunk_parser : Prog Statics unit := REGISTER "query_chunk" manusya_parser chunk_id_only.

(** The commands of [asura.cc], and that of [deva.cc]. *)
Definition register_deva_parser : Prog Statics unit :=
  REGISTER "register_deva" (mret "asura") (λ parser,
    add_argument parser (needed ["--ip"]);;
    add_argument parser (mkArgument ["--port"] (KUint 32) None true)).
Definition list_deva_parser : Prog Statics unit := REGISTER "list_deva" (mret "asura") (λ parser, mret tt).
Definition register_manusya_parser : Prog Statics unit :=
  REGISTER "register_manusya" (mret "asura") (λ parser,
    add_argument parser (needed ["--ip"]);;
    add_argument parser (mkArgument ["--port"] (KUint 32) (Some (VUint 0)) true);;
    add_argument parser (needed ["--pool"])).
Definition list_manusya_parser : Prog Statics unit := REGISTER "list_manusya" (mret "asura") (λ parser, mret tt).
Definition open_parser : Prog Statics unit :=
  REGISTER "open" deva_parser (λ parser,
    add_argument parser (needed ["--path"]);;
    add_argument parser (mkArgument ["-c"; "--create"] KFlag (Some (VBool false)) false)).

(** The parsers of the servers: the first statements of the files. *)
Definition manusya_server : Prog Statics unit :=
  p ← program; m ← manusya_parser; add_subparser p m;;
  m ← manusya_parser; add_argument m (host "127.0.0.1:8003").
Definition asura_server : Prog Statics unit :=
  new_parser "asura" "asura" false;;
  p ← program; add_subparser p "asura";;
  add_argument "asura" (host "127.0.0.1:8201").
Definition deva_server : Prog Statics unit :=
  p ← program; d ← deva_parser; add_subparser p d;;
  d ← deva_parser; add_argument d (host "127.0.0.1:8001").

(** The static objects of [manusya.cc], [asura.cc] and [deva.cc], in the order of the files. *)
Definition manusya_statics : Prog Statics unit :=
  manusya_server;;
  create_chunk_parser;; append_chunk_parser;; list_chunk_parser;; read_chunk_parser;;
  seal_chunk_parser;; remove_chunk_parser;; query_chunk_parser.
Definition asura_statics : Prog Statics unit :=
  asura_server;; register_deva_parser;; list_deva_parser;; register_manusya_parser;; list_manusya_parser.
Definition deva_statics : Prog Statics unit := deva_server;; open_parser.

(** The files are initialized in an order that the language does not fix. *)
Inductive File := FManusya | FAsura | FDeva.
Definition statics (f : File) : Prog Statics unit :=
  match f with FManusya => manusya_statics | FAsura => asura_statics | FDeva => deva_statics end.
Fixpoint initialize (files : list File) : Prog Statics unit :=
  match files with [] => mret tt | f :: files => statics f;; initialize files end.

(** ** [init] and [main] *)
Section main.
Context `{ArgparseOps} `{SadOps W} `{UuidOps} (id : UUID).

(** [init]: declares the argument of the program and parses. *)
Definition init (argv : list string) : Prog Statics (string + Parsed) :=
  p ← program;
  add_argument p (mkArgument ["--log-level"] KString (Some (VString "debug")) true);;
  st ← get;
  mret (parse_args st p (tail argv)).

(** The parser of a command as the arguments of [Sad]: [args.get<T>(name)]. For a name that the
    parser has not, or a value of another type, [get] throws; the commands of [Sad] ask their parsers
    only for what these declare ([parser_of]), so that the other answers given here are never
    used. *)
Definition args_at (parsed : Parsed) (path : list string) : Args :=
  mkArgs
    (λ n, match get_value parsed path n with Some (VString s) => s | _ => "" end)
    (λ n, match get_value parsed path n with Some (VUint z) => z | _ => 0 end)
    (λ n, match get_value parsed path n with Some (VBool b) => b | _ => false end).

(** A run of the tool, from its words, as far as its outputs and its exit code go (the rest of [main],
    its logger among it, is in [sad_main]): an exception of [parse_args] prints the usage and
    exits. *)
Definition tool (files : list File) (argv : list string) : Prog (Tool W) Z := λ t,
  match (initialize files;; init argv) ∅ with
  | None => None
  | Some (inl what, _) => (emit Usage;; mret 1) t
  | Some (inr parsed, _) =>
      main id (λ s, bool_decide (take 1 (used parsed) = [s])) (λ c, bool_decide (drop 1 (used parsed) = [c]))
        (args_at parsed (used parsed)) t
  end.

(** [main] with what it does around the command: logger, sink, tracer. [std::exit] runs no
    destructors of automatic objects, so that it skips the scope guard that cleans up the tracer. *)
Inductive Event := MakeLogger (level : string) | SetLogSink | Warn (desc : string) | LogError (s : Status) | InitTracer | CleanupTracer.
Definition sad_main (files : list File) (argv : list string) (t : Tool W) : option (Z * list Event * Tool W) :=
  match (initialize files;; init argv) ∅ with
  | None => None
  | Some (inl what, _) => Some (1, [], mkTool (world t) (outputs t ++ [Usage]))
  | Some (inr parsed, _) =>
      let level := match get_value parsed [] "--log-level" with Some (VString s) => s | _ => "" end in
      let started := [MakeLogger level; SetLogSink; Warn "sad start"; InitTracer] in
      match sad_execute id (λ s, bool_decide (take 1 (used parsed) = [s])) (λ c, bool_decide (drop 1 (used parsed) = [c])) with
      | None => Some (1, started, mkTool (world t) (outputs t ++ [Usage]))
      | Some func =>
          '(status, t) ← func (args_at parsed (used parsed)) t;
          if negb (ok status) then
            Some (1, started ++ [LogError status; Warn "sad exit"; CleanupTracer],
                  mkTool (world t) (outputs t ++ [PrintedStatus status]))
          else Some (0, started ++ [Warn "sad exit"; CleanupTracer], t)
      end
  end.
End main.

(** ** Lemmas: initialization *)

(** The parsers other than that of the program, whatever the order of the files. *)
Definition declared : Statics :=
  match initialize [FManusya; FAsura; FDeva] ∅ with Some (_, st) => delete "program" st | None => ∅ end.
Definition log_level : Argument := mkArgument ["--log-level"] KString (Some (VString "debug")) true.
(** The store of parsers with the program's, whose arguments and subparsers are given. *)
Definition with_program (args : list Argument) (subs : list string) : Statics :=
  <["program" := mkParser "program_name" true args subs]> declared.
Definition server_of (f : File) : string :=
  match f with FManusya => "manusya" | FAsura => "asura" | FDeva => "deva" end.
Definition all_files : list File := [FManusya; FAsura; FDeva].

Lemma file_orders (P : list File → Prop) :
  Forall P (permutations all_files) → ∀ files, files ≡ₚ all_files → P files.
Proof.
  intros HP files Hf. rewrite Forall_forall in HP. apply HP, permutations_Permutation. by symmetry.
Qed.

Lemma program_at args subs :
  with_program args subs !! "program" = Some (mkParser "program_name" true args subs).
Proof. unfold with_program. generalize declared. intros m. apply lookup_insert_eq. Qed.
Lemma with_program_insert args subs args' :
  <["program" := mkParser "program_name" true args' subs]> (with_program args subs) = with_program args' subs.
Proof. unfold with_program. generalize declared. intros m. apply insert_insert_eq. Qed.

(** The static objects of the tool are constructed without touching one that does not exist yet,
    and in whatever order its files are initialized the parsers that result are the same, but for the
    order in which the program lists its subparsers. *)
Theorem initialization_order files :
  files ≡ₚ all_files →
  initialize files ∅ = Some (tt, with_program [] (server_of <$> files)).
Proof. revert files. apply file_orders, (bool_decide_unpack _). vm_compute. exact I. Qed.

(** The commands: the server, the word on the command line, the parser. *)
Definition commands : list (string * string * string) :=
  [("manusya", "create-chunk", "create_chunk"); ("manusya", "append-chunk", "append_chunk");
   ("manusya", "list-chunk", "list_chunk"); ("manusya", "read-chunk", "read_chunk");
   ("manusya", "seal-chunk", "seal_chunk"); ("manusya", "remove-chunk", "remove_chunk");
   ("manusya", "query-chunk", "query_chunk");
   ("asura", "register-deva", "register_deva"); ("asura", "list-deva", "list_deva");
   ("asura", "register-manusya", "register_manusya"); ("asura", "list-manusya", "list_manusya");
   ("deva", "open", "open")].
Definition parser_of (key : string) : Parser := default (mkParser "" false [] []) (declared !! key).

(** What a command line needs to get to a command. *)
Definition leads (files : list File) (c : string * string * string) : Prop :=
  let '(server, command, key) := c in
  let subs := server_of <$> files in
  let st := with_program [log_level] subs in
  let p := mkParser "program_name" true [log_level] subs in
  let ps := parser_of server in
  st !! server = Some ps ∧ find_argument p server = None ∧ subparser_named st p server = Some server ∧
  find_argument ps command = None ∧ subparser_named st ps command = Some key ∧ st !! key = Some (parser_of key).
#[local] Instance leads_dec files c : Decision (leads files c).
Proof. destruct c as [[server command] key]. unfold leads. apply _. Defined.

Lemma commands_lead files c : files ≡ₚ all_files → c ∈ commands → leads files c.
Proof.
  intros Hf Hc. revert files Hf. apply file_orders.
  assert (Forall (λ c, Forall (λ files, leads files c) (permutations all_files)) commands) as Hall.
  { apply (bool_decide_unpack _). vm_compute. exact I. }
  rewrite Forall_forall in Hall. by apply Hall.
Qed.

(** ** Lemmas: from words to arguments *)

(** Rewrite with the equations of [agree]. *)
Ltac simpl_agree :=
  repeat match goal with
  | H : _ ∧ _ |- _ => destruct H
  | H : ?f ?a ?n = _ |- context [?f ?a ?n] => rewrite H
  end.

Section lemmas.
Context `{ArgparseLaws} `{SadOps W} `{UuidOps} `{!UuidLaws} (id : UUID).
Implicit Types (t : Tool W).

Lemma init_ok files argv :
  files ≡ₚ all_files →
  (initialize files;; init argv) ∅ =
  Some (parse_args (with_program [log_level] (server_of <$> files)) "program" (tail argv),
        with_program [log_level] (server_of <$> files)).
Proof.
  intros Hf. erewrite bind_step by (by apply initialization_order).
  unfold init, program, static_parser, add_argument, the_parser, set_parser, mbind, prog_bind, mret, prog_ret,
    get, modify.
  rewrite program_at. cbn. rewrite program_at. cbn. by rewrite with_program_insert.
Qed.

(** A command line with options at each of its three parsers. *)
Definition words (o0 : Given) (server : string) (o1 : Given) (command : string) (o2 : Given) : list string :=
  tokens o0 ++ server :: (tokens o1 ++ command :: tokens o2).

Lemma parse_words files server command key o0 v0 o1 v1 o2 v2 :
  let st := with_program [log_level] (server_of <$> files) in
  files ≡ₚ all_files → (server, command, key) ∈ commands →
  accepts scan_uint (mkParser "program_name" true [log_level] []) o0 v0 →
  accepts scan_uint (parser_of server) o1 v1 → accepts scan_uint (parser_of key) o2 v2 →
  complete (parser_of server) v1 → complete (parser_of key) v2 →
  ∃ parsed, parse_args st "program" (words o0 server o1 command o2) = inr parsed ∧
    used parsed = [server; command] ∧ ∀ n, get_value parsed [server; command] n = value (parser_of key) v2 n.
Proof.
  intros st Hf Hc A0 A1 A2 C1 C2.
  destruct (commands_lead files _ Hf Hc) as (Es & Hn & Hs & Hn' & Hs' & Ek).
  set (p := mkParser "program_name" true [log_level] (server_of <$> files)) in *.
  destruct (parse_line st "program" (words o0 server o1 command o2) [server; command]
    [(p, v0); (parser_of server, v1); (parser_of key, v2)]) as (parsed & E & Hu & Hv).
  - eapply line_command; [apply program_at| | |exact Hn|exact Hs|].
    + exact A0.
    + by repeat constructor.
    + eapply line_command; [exact Es|done|done|exact Hn'|exact Hs'|]. by eapply line_last.
  - exists parsed. split_and!; [done|done|]. intros n. by apply (Hv 2%nat).
Qed.

(** The names that commands ask for, and arguments that do not differ on them. *)
Definition asked : list string :=
  ["--host"; "--chunk-id"; "--data"; "--offset"; "--start"; "--limit"; "--length"; "--output"; "--ip"; "--port";
   "--pool"; "--path"; "--create"].
Definition agree (a a' : Args) : Prop :=
  Forall (λ n, get_string a n = get_string a' n ∧ get_uint a n = get_uint a' n ∧ get_bool a n = get_bool a' n) asked.

Lemma execute_elem {F} used (m : Subcommands F) f : execute used m = Some f → f ∈ m.*2.
Proof.
  induction m as [|[n g] m IH]; cbn; [done|]. destruct (used n); [intros [= <-]; by left|]. intros E. right. by apply IH.
Qed.

(** Commands depend on their arguments through the names they ask for only. *)
Lemma command_agrees used sub f (a a' : Args) :
  agree a a' → sad_execute (W := W) id used sub = Some f → f a = f a'.
Proof.
  intros Ha. unfold agree, asked in Ha. rewrite !Forall_cons in Ha. destruct_and! Ha.
  assert (∀ l : list (Command (W := W)), Forall (λ f, f a = f a') l → ∀ f, f ∈ l → f a = f a') as Hall.
  { intros l Hl. by rewrite Forall_forall in Hl. }
  unfold sad_execute. destruct (used "manusya"); [|destruct (used "deva"); [|destruct (used "asura"); [|done]]].
  - intros E%execute_elem. revert E. apply Hall.
    repeat constructor; cbv delta [create_chunk append_chunk list_chunk read_chunk seal_chunk remove_chunk query_chunk];
      cbn [snd]; by simpl_agree.
  - rewrite (proj2 (executes_agree _ _)). intros E%execute_elem. revert E. apply Hall.
    repeat constructor; cbv delta [open]; cbn [snd]; by simpl_agree.
  - rewrite (proj1 (executes_agree _ _)). intros E%execute_elem. revert E. apply Hall.
    repeat constructor; cbv delta [register_deva list_deva register_manusya list_manusya]; cbn [snd]; by simpl_agree.
Qed.

Lemma execute_ext {F} used used' (m : Subcommands F) :
  (∀ n, used n = used' n) → execute used m = execute used' m.
Proof. intros Hu. induction m as [|[n f] m IH]; cbn; [done|]. by rewrite Hu, IH. Qed.

Lemma sad_execute_ext used used' sub sub' :
  (∀ n, used n = used' n) → (∀ n, sub n = sub' n) →
  sad_execute (W := W) id used sub = sad_execute id used' sub'.
Proof.
  intros Hu Hs. unfold sad_execute.
  rewrite !Hu. destruct (used' "manusya"); [by apply execute_ext|].
  destruct (used' "deva"); [rewrite !(proj2 (executes_agree _ _)); by apply execute_ext|].
  destruct (used' "asura"); [rewrite !(proj1 (executes_agree _ _)); by apply execute_ext|done].
Qed.

(** The arguments of a command that are made of the values of its parser. *)
Definition args_of_values (p : Parser) (vals : list (Argument * Value)) : Args :=
  mkArgs
    (λ n, match value p vals n with Some (VString s) => s | _ => "" end)
    (λ n, match value p vals n with Some (VUint z) => z | _ => 0 end)
    (λ n, match value p vals n with Some (VBool b) => b | _ => false end).

(** C40: What a user types reaches the command that it names, with the values that it gives: only the
    options that follow the command reach it. (Of those before it, [--log-level] sets the level of
    the logger, see [sad_main].) *)
Theorem words_reach files server command key o0 v0 o1 v1 o2 v2 args t :
  files ≡ₚ all_files → (server, command, key) ∈ commands →
  accepts scan_uint (mkParser "program_name" true [log_level] []) o0 v0 →
  accepts scan_uint (parser_of server) o1 v1 → accepts scan_uint (parser_of key) o2 v2 →
  complete (parser_of server) v1 → complete (parser_of key) v2 →
  agree (args_of_values (parser_of key) v2) args →
  tool id files ("sad" :: words o0 server o1 command o2) t = sad id server command args t.
Proof.
  intros Hf Hc A0 A1 A2 C1 C2 Ha.
  destruct (parse_words files server command key o0 v0 o1 v1 o2 v2 Hf Hc A0 A1 A2 C1 C2) as (parsed & E & Hu & Hv).
  unfold tool. rewrite (init_ok _ _ Hf). cbn [tail]. rewrite E. unfold sad, main. rewrite Hu.
  rewrite (sad_execute_ext _ (λ s, bool_decide (s = server)) _ (λ c, bool_decide (c = command))).
  2,3: intros n; apply bool_decide_ext; cbn; split; congruence.
  destruct (sad_execute _ _ _) as [f|] eqn:Ex; [|done].
  erewrite (command_agrees _ _ f (args_at parsed [server; command]) args); [done| |exact Ex].
  unfold agree in *. rewrite Forall_forall in *. intros n Hn. specialize (Ha n Hn). cbn in *. by rewrite Hv.
Qed.

(** Where an argument is missing the tool prints its usage, exits with 1 and calls nobody. *)
Theorem words_missing files words t :
  files ≡ₚ all_files →
  line_missing scan_uint (with_program [log_level] (server_of <$> files)) "program" words →
  tool id files ("sad" :: words) t = Some (1, mkTool (world t) (outputs t ++ [Usage])).
Proof.
  intros Hf Hl. destruct (parse_missing _ _ _ Hl) as [what E]. unfold tool. rewrite (init_ok _ _ Hf). cbn [tail].
  by rewrite E.
Qed.
End lemmas.

(** ** The parsers of the commands of a chunk server *)
Definition chunk_host : Argument := host "127.0.0.1:8003".
Definition chunk_id : Argument := needed ["-c"; "--chunk-id"].
Definition data_ : Argument := needed ["-d"; "--data"].
Definition length_ : Argument := number ["-l"; "--length"] 32 1024.
Lemma create_parser : parser_of "create_chunk" = mkParser "create-chunk" true [chunk_host] [].
Proof. by vm_compute. Qed.
Lemma append_parser :
  parser_of "append_chunk" =
  mkParser "append-chunk" true [chunk_host; chunk_id; number ["-o"; "--offset"] 64 0; data_] [].
Proof. by vm_compute. Qed.
Lemma read_parser :
  parser_of "read_chunk" =
  mkParser "read-chunk" true
    [chunk_host; chunk_id; number ["--offset"] 64 0; length_; optional ["-o"; "--output"] "-"] [].
Proof. by vm_compute. Qed.
Lemma manusya_parser_eq :
  arguments (parser_of "manusya") = [chunk_host].
Proof. by vm_compute. Qed.

Lemma valid_word s : valid s = true → plain_word s = true.
Proof.
  intros Hv. destruct s as [|c s]; [done|]. unfold plain_word.
  destruct (decide (c = "-"%char)) as [->|Hc].
  - exfalso. revert Hv. unfold valid. destruct (_ =? _)%nat; cbn; done.
  - unfold plain_word. by repeat (case_match; try done).
Qed.

Section chunk_words.
Context `{ArgparseLaws}.

Lemma accepts_nil p : accepts scan_uint p [] [].
Proof. split; [constructor|constructor]. Qed.

(** The words of the commands that a session is made of. *)
Definition append_options (id data : string) : Given := [("--chunk-id", Some id); ("--data", Some data)].
Definition read_options (id length : string) : Given := [("--chunk-id", Some id); ("--length", Some length)].

Lemma create_accepts : accepts scan_uint (parser_of "create_chunk") [] [] ∧ complete (parser_of "create_chunk") [].
Proof. rewrite create_parser. split; [apply accepts_nil|]. by repeat constructor. Qed.

Lemma append_accepts id data :
  plain_word id = true → plain_word data = true →
  let vals := [(chunk_id, VString id); (data_, VString data)] in
  accepts scan_uint (parser_of "append_chunk") (append_options id data) vals ∧
  complete (parser_of "append_chunk") vals ∧
  agree (args_of_values (parser_of "append_chunk") vals) (append_chunk_args id data None).
Proof.
  intros Hi Hd vals. rewrite append_parser. split_and!.
  - split; [|apply (bool_decide_unpack _); by vm_compute].
    repeat constructor; cbn; by rewrite ?Hi, ?Hd.
  - repeat constructor; cbn; by set_solver.
  - repeat constructor.
Qed.

Lemma read_accepts id text n :
  plain_word id = true → plain_word text = true → scan_uint 32 text = Some n →
  let vals := [(chunk_id, VString id); (length_, VUint n)] in
  accepts scan_uint (parser_of "read_chunk") (read_options id text) vals ∧
  complete (parser_of "read_chunk") vals ∧
  agree (args_of_values (parser_of "read_chunk") vals) (read_chunk_args id None (Some n) None).
Proof.
  intros Hi Ht Hn vals. rewrite read_parser. split_and!.
  - split; [|apply (bool_decide_unpack _); by vm_compute].
    repeat constructor; cbn; eauto.
  - repeat constructor; cbn; by set_solver.
  - repeat constructor.
Qed.
End chunk_words.

(** ** What users may not expect *)
Section surprises.
Context `{ArgparseLaws} `{SadOps W} `{UuidOps} `{!UuidLaws} (id : UUID).
Implicit Types (t : Tool W).

Lemma host_accepts parser h :
  find_argument parser "--host" = Some chunk_host → plain_word h = true →
  accepts scan_uint parser [("--host", Some h)] [(chunk_host, VString h)].
Proof.
  intros Hf Hh. split; [|apply (bool_decide_unpack _); by vm_compute]. constructor; [|constructor]. by split; [exact Hf|].
Qed.

(** The option [--host] is an argument of the parser of the server and, copied, of each command. Given
    before the command it is accepted and has no effect: the request goes to the default host. *)
Theorem host_before_command files h t :
  files ≡ₚ all_files → plain_word h = true →
  tool id files ["sad"; "manusya"; "--host"; h; "create-chunk"] t =
    sad id "manusya" "create-chunk" create_chunk_args t ∧
  tool id files ["sad"; "manusya"; "create-chunk"; "--host"; h] t =
    sad id "manusya" "create-chunk" (args_of [("--host", h)] []) t.
Proof.
  intros Hf Hh. destruct create_accepts as [Ha Hc]. split.
  - eapply (words_reach id files "manusya" "create-chunk" "create_chunk" [] [] [("--host", Some h)] _ [] _ _ t Hf);
      [left|apply accepts_nil|by apply host_accepts|exact Ha| |exact Hc|].
    + unfold complete. rewrite manusya_parser_eq. by repeat constructor.
    + rewrite create_parser. repeat constructor.
  - eapply (words_reach id files "manusya" "create-chunk" "create_chunk" [] [] [] [] [("--host", Some h)]
      [(chunk_host, VString h)] _ t Hf); [left|apply accepts_nil|apply accepts_nil| | | |].
    + rewrite create_parser. by apply host_accepts.
    + unfold complete. rewrite manusya_parser_eq. by repeat constructor.
    + rewrite create_parser. by repeat constructor.
    + rewrite create_parser. repeat constructor.
Qed.

(** Without [--data] the tool appends nothing: it exits with 1 before it calls a server. *)
Theorem append_without_data files u t :
  files ≡ₚ all_files →
  tool id files ["sad"; "manusya"; "append-chunk"; "--chunk-id"; uuid_str u] t =
  Some (1, mkTool (world t) (outputs t ++ [Usage])).
Proof.
  intros Hf. pose proof (valid_word _ (valid_str u)) as Hu. apply words_missing; [done|].
  destruct (commands_lead files ("manusya", "append-chunk", "append_chunk") Hf) as (Es & Hn & Hs & Hn' & Hs' & Ek);
    [right; left|].
  apply (missing_command scan_uint _ "program" _ [] [] "manusya" "manusya" _ (program_at _ _) (accepts_nil _) Hn Hs).
  apply (missing_command scan_uint _ "manusya" _ [] [] "append_chunk" "append-chunk" _ Es (accepts_nil _) Hn' Hs').
  apply (missing_last scan_uint _ "append_chunk" _ [("--chunk-id", Some (uuid_str u))] [(chunk_id, VString (uuid_str u))] Ek).
  - rewrite append_parser. split; [|apply (bool_decide_unpack _); by vm_compute].
    repeat constructor; cbn; by rewrite ?Hu.
  - rewrite append_parser. unfold complete. cbn [arguments]. rewrite !Forall_cons. intros (_ & _ & _ & Hd & _).
    specialize (Hd eq_refl eq_refl). revert Hd. apply (bool_decide_unpack _). by vm_compute.
Qed.

(** The process is [tool] with its surroundings; of the processes that set up a tracer, those that
    run a command clean it up, and one that is not told a command leaves it, with what it holds. *)
Theorem sad_main_cleans_up files argv t :
  ((λ '(code, _, t'), (code, t')) <$> sad_main id files argv t) = tool id files argv t ∧
  ∀ code events t', sad_main id files argv t = Some (code, events, t') → InitTracer ∈ events →
    CleanupTracer ∈ events ∨ (code = 1 ∧ outputs t' = outputs t ++ [Usage]).
Proof.
  unfold sad_main, tool, main. destruct ((initialize files;; init argv) ∅) as [[[what|parsed] st]|]; [..|done].
  { split; [done|]. intros code events t' [= <- <- <-] Hin. by apply elem_of_nil in Hin. }
  destruct (sad_execute _ _ _) as [func|].
  - unfold mbind, option_bind, prog_bind. destruct (func _ t) as [[status t1]|]; [|done].
    destruct (ok status); cbn [negb]; (split; [done|]); intros code events t' [= <- <- <-] _; left;
      repeat first [by apply list_elem_of_here|apply list_elem_of_further].
  - split; [done|]. intros code events t' [= <- <- <-] _. by right.
Qed.
End surprises.

(** ** The tool from its words to a chunk server *)
Section session.
Context `{StoreReliable CSt FH} `{!UuidOps} `{!UuidLaws} `{!ArgparseOps} `{!ArgparseLaws}.
Context `{!Op.ProtoOps} `{!IteratorOps It} `{!KvOps St It} `{!Asura.ServerProto}.
Context (padding : list byte) (list_fuel : nat) (node : string).
Context (ids chunk_ids : nat → UUID) (clocks : nat → DevaService.Clock) (times : nat → Z).
Context (refusals : nat → option Status) (id : UUID) (files : list File).
#[local] Instance session_servers : SadOps SadServers.SadServers.Servers :=
  SadServers.SadServers.servers (St := St) (CSt := CSt) padding list_fuel node ids chunk_ids clocks times refusals.
Abbreviation World := (SadServers.SadServers.Servers (St := St) (CSt := CSt) (FH := FH)).
Implicit Types (t : Tool World).

Lemma manusya_complete : complete (parser_of "manusya") [].
Proof. unfold complete. rewrite manusya_parser_eq. by repeat constructor. Qed.

Lemma tool_create t :
  files ≡ₚ all_files →
  tool id files ["sad"; "manusya"; "create-chunk"] t = sad id "manusya" "create-chunk" create_chunk_args t.
Proof.
  intros Hf. destruct create_accepts as [Ha Hc].
  apply (words_reach id files "manusya" "create-chunk" "create_chunk" [] [] [] [] [] [] create_chunk_args t Hf);
    [|apply accepts_nil|apply accepts_nil|done|apply manusya_complete|done|].
  - left.
  - rewrite create_parser. repeat constructor.
Qed.

Lemma tool_append t u data :
  files ≡ₚ all_files → plain_word data = true →
  tool id files ["sad"; "manusya"; "append-chunk"; "--chunk-id"; uuid_str u; "--data"; data] t =
  sad id "manusya" "append-chunk" (append_chunk_args (uuid_str u) data None) t.
Proof.
  intros Hf Hd. destruct (append_accepts (uuid_str u) data (valid_word _ (valid_str u)) Hd) as (Ha & Hc & Hg).
  eapply (words_reach id files "manusya" "append-chunk" "append_chunk" [] [] [] []
    (append_options (uuid_str u) data) _ _ t Hf);
    [right; left|apply accepts_nil|apply accepts_nil|exact Ha|apply manusya_complete|exact Hc|exact Hg].
Qed.

Lemma tool_read t u text n :
  files ≡ₚ all_files → plain_word text = true → scan_uint 32 text = Some n →
  tool id files ["sad"; "manusya"; "read-chunk"; "--chunk-id"; uuid_str u; "--length"; text] t =
  sad id "manusya" "read-chunk" (read_chunk_args (uuid_str u) None (Some n) None) t.
Proof.
  intros Hf Ht Hn. destruct (read_accepts (uuid_str u) text n (valid_word _ (valid_str u)) Ht Hn) as (Ha & Hc & Hg).
  eapply (words_reach id files "manusya" "read-chunk" "read_chunk" [] [] [] []
    (read_options (uuid_str u) text) _ _ t Hf);
    [do 3 right; left|apply accepts_nil|apply accepts_nil|exact Ha|apply manusya_complete|exact Hc|exact Hg].
Qed.

(** What a user types: make a chunk, append to the id that was printed, read as many bytes. *)
Definition typed_session (data length : string) : Prog (Tool World) (list Z) :=
  c1 ← tool id files ["sad"; "manusya"; "create-chunk"];
  chunk_id ← gets (SadServers.SadServers.printed_uuid (St := St) (CSt := CSt) (FH := FH));
  c2 ← tool id files ["sad"; "manusya"; "append-chunk"; "--chunk-id"; chunk_id; "--data"; data];
  c3 ← tool id files ["sad"; "manusya"; "read-chunk"; "--chunk-id"; chunk_id; "--length"; length];
  mret [c1; c2; c3].

(** C11: From the words of three command lines to a chunk server whose store does not fail, whatever
    order the static objects of the tool are initialized in: the id that [create-chunk] prints is
    accepted by the other commands, what [append-chunk] is given [read-chunk] prints, when it is told
    the length, and all three exit with 0. *)
Theorem typed_session_roundtrip data length t :
  let uuid := chunk_ids (SadServers.SadServers.created (world t)) in
  files ≡ₚ all_files → plain_word data = true → plain_word length = true →
  scan_uint 32 length = Some (len (String.list_byte_of_string data)) →
  bank_inv (SadServers.SadServers.bank (world t)) →
  Store.files (_store (SadServers.SadServers.bank (world t))) !! uuid_str uuid = None →
  _chunks (SadServers.SadServers.bank (world t)) !! uuid = None →
  len (String.list_byte_of_string data) < 2 ^ 32 →
  wp (typed_session data length) t (λ codes t', codes = [0; 0; 0] ∧
    last (outputs t') = Some (PrintedText (String.list_byte_of_string data))).
Proof.
  intros uuid Hf Hd Hl Hscan Hb Hnew Hno Hlen.
  destruct (SadServers.SadServers.sad_create padding list_fuel node ids chunk_ids clocks times refusals id
    t Hb Hnew Hno) as (t1 & E1 & Ep & Hh).
  destruct (SadServers.SadServers.sad_append padding list_fuel node ids chunk_ids clocks times refusals id
    uuid data t1 Hh Hlen) as (t2 & E2 & l & c & El & Ecl & Hi).
  destruct (SadServers.SadServers.sad_read padding list_fuel node ids chunk_ids clocks times refusals id
    uuid _ (len (String.list_byte_of_string data)) t2 l c El Ecl Hi Hlen) as (t3 & E3 & Hlast); [lia|].
  unfold typed_session. eapply wp_step; [by rewrite tool_create|]. eapply wp_step; [done|]. rewrite Ep.
  eapply wp_step; [by rewrite tool_append|].
  eapply wp_step; [by rewrite (tool_read _ _ _ _ Hf Hl Hscan)|]. eapply wp_eval; [done|].
  rewrite Z.eqb_refl. split; [done|]. by apply Hlast.
Qed.
End session.
End CommandLine.

(** ** A parser of command lines *)
Module WalkArgparse.

Fixpoint decimal (acc : Z) (s : string) : option Z :=
  match s with
  | EmptyString => Some acc
  | String c s =>
      let d := Z.of_nat (nat_of_ascii c) - 48 in
      if (0 <=? d) && (d <=? 9) then decimal (acc * 10 + d) s else None
  end.
Definition scan (bits : Z) (s : string) : option Z :=
  match s with
  | EmptyString => None
  | _ => z ← decimal 0 s; if z <? 2 ^ bits then Some z else None
  end.

Definition read_word (a : Argument) (s : string) : option Value :=
  if negb (plain_word s) then None else
  match kind a with KString => Some (VString s) | KUint bits => VUint <$> scan bits s | KFlag => None end.

Abbreviation Values := (list (Argument * Value)).
Definition completeb (p : Parser) (vals : Values) : bool :=
  forallb (λ a, negb (required a) || bool_decide (is_Some (default_value a)) || bool_decide (a ∈ fst <$> vals))
    (arguments p).

Fixpoint walk (st : Statics) (p : Parser) (vals : Values) (ws : list string) :
    string + (list string * list (Parser * Values)) :=
  match ws with
  | [] => if completeb p vals then inr ([], [(p, vals)]) else inl "required"
  | w :: ws =>
      match find_argument p w with
      | Some a =>
          if bool_decide (a ∈ fst <$> vals) then inl "Duplicate argument" else
          match kind a, ws with
          | KFlag, _ => walk st p (vals ++ [(a, VBool true)]) ws
          | _, v :: ws' =>
              match read_word a v with
              | Some x => walk st p (vals ++ [(a, x)]) ws'
              | None => inl "Failed to parse"
              end
          | _, [] => inl "Too few arguments"
          end
      | None =>
          match subparser_named st p w ≫= (st !!.) with
          | None => inl "Maximum number of positional arguments exceeded"
          | Some p' =>
              if negb (completeb p vals) then inl "required" else
              match walk st p' [] ws with
              | inl e => inl e
              | inr (path, l) => inr (w :: path, (p, vals) :: l)
              end
          end
      end
  end.

#[export] Instance ops : ArgparseOps := {
  scan_uint := scan;
  parse_args st key ws :=
    match st !! key with
    | None => inl "no parser"
    | Some p =>
        match walk st p [] ws with
        | inl e => inl e
        | inr (path, l) =>
            inr (mkParsed path (λ path n, '(p, vals) ← l !! length path; value p vals n))
        end
    end;
}.

Lemma completeb_spec p vals : completeb p vals = true ↔ complete p vals.
Proof.
  unfold completeb, complete. rewrite forallb_forall, Forall_forall. setoid_rewrite <-list_elem_of_In.
  apply forall_proper. intros a. split.
  - intros Ha Hin Hr Hd. specialize (Ha Hin). rewrite Hr, Hd in Ha. cbn in Ha. by case_bool_decide.
  - intros Ha Hin. specialize (Ha Hin). destruct (required a); [|done]. destruct (default_value a); [done|].
    cbn. apply bool_decide_eq_true_2. by apply Ha.
Qed.

Lemma read_word_ok a s v : reads scan a (Some s) v → read_word a s = Some v ∧ kind a ≠ KFlag.
Proof.
  unfold reads, read_word. destruct (kind a); [..|done].
  - intros [-> ->]. done.
  - intros [-> (z & -> & ->)]. done.
Qed.

(** The options of one parser, read one after the other. *)
Lemma walk_options st p opts vals acc rest :
  Forall2 (λ o av, find_argument p (fst o) = Some (fst av) ∧ reads scan (fst av) (snd o) (snd av)) opts vals →
  NoDup (fst <$> acc ++ vals) →
  walk st p acc (tokens opts ++ rest) = walk st p (acc ++ vals) rest.
Proof.
  intros Hv. revert acc. induction Hv as [|[n w] [a v] opts vals [Hf Hr] Hv IH]; intros acc Hd.
  { by rewrite app_nil_r. }
  cbn in Hf, Hr.
  assert (a ∉ fst <$> acc) as Ha.
  { rewrite fmap_app in Hd. cbn in Hd. apply NoDup_app in Hd as (_ & Hn & _). intros Hin. apply (Hn a Hin). by left. }
  replace (acc ++ (a, v) :: vals) with ((acc ++ [(a, v)]) ++ vals) in * by (by rewrite <-app_assoc).
  rewrite <-(IH (acc ++ [(a, v)]) Hd). clear IH.
  change (tokens ((n, w) :: opts)) with (n :: option_list w ++ tokens opts). cbn [app walk].
  rewrite Hf, bool_decide_eq_false_2 by done. destruct w as [s|].
  - destruct (read_word_ok a s v Hr) as [E Hk]. destruct (kind a); [cbn; by rewrite E..|done].
  - unfold reads in Hr. destruct (kind a); [done|done|]. by subst v.
Qed.

Lemma walk_line st key ws path l :
  line scan st key ws path l →
  ∃ p, st !! key = Some p ∧ walk st p [] ws = inr (path, l) ∧ length l = S (length path).
Proof.
  induction 1 as [key p opts vals Hp [Hv Hd] Hc|key p opts vals sub name rest path l Hp [Hv Hd] Hc Hn Hs Hl IH];
    exists p; (split; [done|]).
  - rewrite <-(app_nil_r (tokens opts)), walk_options with (vals := vals) by done. cbn [app walk].
    by rewrite (proj2 (completeb_spec p vals) Hc).
  - rewrite walk_options with (vals := vals) by done. destruct IH as (p' & Hp' & IH & Hlen). cbn [app walk].
    rewrite Hn, Hs. cbn. rewrite Hp', (proj2 (completeb_spec p vals) Hc). cbn. rewrite IH. cbn. by rewrite Hlen.
Qed.

Lemma walk_missing st key ws :
  line_missing scan st key ws → ∃ p e, st !! key = Some p ∧ walk st p [] ws = inl e.
Proof.
  induction 1 as [key p opts vals Hp [Hv Hd] Hc|key p opts vals sub name rest Hp [Hv Hd] Hn Hs Hl IH]; exists p.
  - rewrite <-(app_nil_r (tokens opts)), walk_options with (vals := vals) by done. cbn [app walk].
    destruct (completeb p vals) eqn:E; [by apply completeb_spec in E|]. by eexists.
  - rewrite walk_options with (vals := vals) by done. destruct IH as (p' & e & Hp' & IH). cbn [app walk].
    rewrite Hn, Hs. cbn. rewrite Hp'. destruct (negb _); [by eexists|]. rewrite IH. by eexists.
Qed.

#[export] Instance laws : ArgparseLaws.
Proof.
  split.
  - intros st key ws path l (p & Hp & Hw & Hlen)%walk_line. cbn. rewrite Hp, Hw. eexists. split_and!; [done|done|].
    intros i q vals n Hi. cbn. pose proof (lookup_lt_Some _ _ _ Hi).
    rewrite length_take, Nat.min_l by lia. by rewrite Hi.
  - intros st key ws (p & e & Hp & Hw)%walk_missing. cbn. rewrite Hp, Hw. by eexists.
Qed.
End WalkArgparse.

(** ** Witnesses: the parser above and an empty chunk server in memory *)
Module Witness.
Import CommandLine SadServers.SadServers.Witness Bank.Witness ChunkSpec.Example Namespace.Witness Op.Witness
  RocksdbStore.MapRocksdb.
#[local] Existing Instances ListIOBuf.ops ListIOBuf.laws HexUuid.ops HexUuid.laws Op.CountProto.ops
  Asura.CountServer.ops servers0 WalkArgparse.ops WalkArgparse.laws.

Definition files0 : list File := [FDeva; FManusya; FAsura].
Lemma files0_all : files0 ≡ₚ all_files.
Proof. apply (Permutation_cons_append [FManusya; FAsura] FDeva). Qed.

Lemma initialization_order_witness :
  initialize files0 ∅ = Some (tt, with_program [] ["deva"; "manusya"; "asura"]).
Proof. exact (initialization_order files0 files0_all). Defined.

Lemma typed_session_roundtrip_witness :
  wp (typed_session padding0 3 "" chunk_ids0 chunk_ids0 Deployment.Witness.clocks0 Deployment.Witness.times0
        (λ _, None) uuid files0 "hello" "5") tool0 (λ codes t', codes = [0; 0; 0] ∧
    last (outputs t') = Some (PrintedText (String.list_byte_of_string "hello"))).
Proof.
  exact (typed_session_roundtrip padding0 3 "" chunk_ids0 chunk_ids0 Deployment.Witness.clocks0
    Deployment.Witness.times0 (λ _, None) uuid files0 "hello" "5" tool0 files0_all eq_refl eq_refl eq_refl
    (new_bank_inv store0) bank0_files bank0_chunks text_short).
Defined.

Lemma words_reach_witness :
  tool uuid files0 ["sad"; "manusya"; "create-chunk"] tool0 = sad uuid "manusya" "create-chunk" create_chunk_args tool0.
Proof.
  destruct create_accepts as [Ha Hc].
  apply (words_reach uuid files0 "manusya" "create-chunk" "create_chunk" [] [] [] [] [] [] create_chunk_args tool0
    files0_all); [left|apply accepts_nil|apply accepts_nil|exact Ha|apply manusya_complete|exact Hc|].
  rewrite create_parser. repeat constructor.
Defined.

Lemma host_before_command_witness :
  tool uuid files0 ["sad"; "manusya"; "--host"; "10.0.0.1:80"; "create-chunk"] tool0 =
    sad uuid "manusya" "create-chunk" create_chunk_args tool0 ∧
  tool uuid files0 ["sad"; "manusya"; "create-chunk"; "--host"; "10.0.0.1:80"] tool0 =
    sad uuid "manusya" "create-chunk" (args_of [("--host", "10.0.0.1:80")] []) tool0.
Proof. exact (host_before_command uuid files0 "10.0.0.1:80" tool0 files0_all eq_refl). Defined.

Lemma append_without_data_witness :
  tool uuid files0 ["sad"; "manusya"; "append-chunk"; "--chunk-id"; uuid_str uuid] tool0 =
  Some (1, mkTool (world tool0) [Usage]).
Proof. exact (append_without_data uuid files0 uuid tool0 files0_all). Defined.
End Witness.
