(* ===== verification/Process.v ===== *)
(** * The processes of the three servers ([src/manusya/main.cc], [src/deva/main.cc], [src/asura/main.cc])

    Each [main] sets up logging and tracing, brings its component up, adds its services to a
    brpc server, starts it and serves until it is asked to quit: [RunUntilAskedToQuit], which stops
    the server and joins it, so that it returns when no request is in progress. What third-party calls return is
    an argument ([Calls]); the requests that are handled are programs on the component, placed
    where the server may handle them. A run is the exit code, what the handlers answered and the
    events of the process in order.

    The theorems compose the start-up with the components: the registry keeps its servers across a
    restart, a restarted chunk server knows none of its chunks, and a metadata server that could
    not start its raft node, or has not yet, leaves its clients waiting for ever, and then does not
    end itself. *)
From S2P Require Import Prelude Bytes Iobuf Uuid Store MemStore Chunk ChunkSpec Bank Proto ManusyaService.
From S2P Require Import Namespace Deva Op Rsm DevaService KvStore RocksdbStore AsuraService.
Import Proto.Proto ManusyaService.ManusyaService Op.Op.
Set Default Goal Selector "!".
Local Open Scope Z_scope.

Module Process.

Inductive Event :=
| MakeLogger (name : string)          (* [make_logger], whose result flushes at exit *)
| SetLogSink
| InitTracer (service : string)
| CleanupTracer
| LogError (text : string)
| Serve                               (* [RunUntilAskedToQuit] *)
| ShutdownNode (called : bool)        (* [Rsm::shutdown], [Rsm::join]: is there a node? *)
| StopServer
| JoinNode (called : bool)
| JoinServer.
#[export] Instance Event_eq_dec : EqDecision Event.
Proof. solve_decision. Defined.

(** What [AddService], [braft::add_service], [Start] and [Node::init] return. *)
Record Calls := mkCalls { add_service : Z; add_raft_service : Z; start_server : Z; node_init : Z }.

(** A process: its events so far and its component. *)
Record Process {P : Type} := mkProcess { events : list Event; part : P }.
#[global] Arguments Process P : clear implicits.
#[global] Arguments mkProcess {P}.

Section process.
Context {P : Type}.
Definition emit (e : Event) : Prog (Process P) unit := modify (λ p, mkProcess (events p ++ [e]) (part p)).
Definition on_part {A} (f : Prog P A) : Prog (Process P) A := zoom part (λ x p, mkProcess (events p) x) f.
(** [return code] after an error message. *)
Definition fail {A} (text : string) : Prog (Process P) (Z * option A) := emit (LogError text);; mret (-1, None).
(** [auto stop_tracer = make_scope_exit(cleanup_tracer)] and the rest of its scope. *)
Definition with_tracer {A} (service : string) (body : Prog (Process P) A) : Prog (Process P) A :=
  emit (InitTracer service);;
  r ← body;
  emit CleanupTracer;;
  mret r.
Definition set_up (name : string) : Prog (Process P) unit := emit (MakeLogger name);; emit SetLogSink.
End process.

(** ** [src/manusya/main.cc] *)
Section manusya.
Context `{IOBufOps} `{UuidOps} `{!StoreOps St FH}.
Abbreviation Bank := (Bank.Bank (St := St) (FH := FH)).

Definition manusya_main {A} (c : Calls) (serve : Prog Bank A) : Prog (Process Bank) (Z * option A) :=
  set_up "manusya";;
  status ← on_part Bank.load;
  if negb (ok status) then fail "Failed to load bank" else
  with_tracer "manusya" (
    if negb (add_service c =? 0) then fail "Fail to add service" else
    if negb (start_server c =? 0) then fail "Fail to start EchoServer" else
    emit Serve;;
    answer ← on_part serve;
    mret (0, Some answer)).
End manusya.

(** ** [src/deva/main.cc] *)

(** What handlers have answered, [None] for one that waits for ever; whether joining the server
    returns, which waits until the requests in progress are done. *)
Abbreviation Answers R := (list (option R)).
Definition join_returns {R} (answers : Answers R) : bool := forallb (λ a, bool_decide (is_Some a)) answers.

Section deva.
Context `{IOBufOps} `{UuidOps} `{ProtoOps}.
Abbreviation Rsm := Rsm.Rsm.

(** The server handles requests from [Start] on: [early] before the raft node is started, [serve]
    after that. [RunUntilAskedToQuit] ends by stopping and joining the server, so that there are no
    requests after it, and that the second [Join] finds none in progress. The exit code is [None] for a
    process that does not end. *)
Definition deva_main {R} (c : Calls) (early serve : Prog Rsm (Answers R)) :
    Prog (Process Rsm) (option Z * option (Answers R)) :=
  set_up "deva";;
  emit (InitTracer "deva");;
  '(code, answers) ← (
    let fail text := emit (LogError text);; mret (Some (-1), None) in
    if negb (add_service c =? 0) then fail "Fail to add service" else
    if negb (add_raft_service c =? 0) then fail "Fail to add raft service" else
    if negb (start_server c =? 0) then fail "Fail to start EchoServer" else
    a ← on_part early;
    _ ← on_part (Rsm.start (node_init c));
    emit Serve;;
    b ← on_part serve;
    if negb (join_returns (a ++ b)) then mret (None, Some (a ++ b)) else
    called ← on_part Rsm.shutdown;
    emit (ShutdownNode called);;
    emit StopServer;;
    called ← on_part Rsm.join;
    emit (JoinNode called);;
    emit JoinServer;;
    mret (Some 0, Some (a ++ b)));
  (match code with Some _ => emit CleanupTracer | None => mret tt end);;
  mret (code, answers).
End deva.

(** ** [src/asura/main.cc] *)
Section asura.
Context {DB Disk : Type} `{!DiskOps DB Disk}.
Abbreviation World := (World DB Disk).

(** The scope of the store: its destructor closes it. *)
Definition with_store {A} (s : RocksdbStore DB) (body : Prog (Process World) A) : Prog (Process Disk) A := λ p,
  match (r ← body; _ ← on_part rocks_dtor; mret r) (mkProcess (events p) (part p, s)) with
  | Some (a, p') => Some (a, mkProcess (events p') (fst (part p')))
  | None => None
  end.

Definition asura_main {A} (c : Calls) (data_path : string) (serve : Prog World A) :
    Prog (Process Disk) (Z * option A) :=
  set_up "asura";;
  '(status, store) ← on_part (rocks_open (Some (data_path +:+ "/topology")) (Some None));
  if negb (ok status) then fail "Fail to open RocksdbStore" else
  match store with
  | Some (Some s) =>
      with_store s (with_tracer "asura" (
        if negb (add_service c =? 0) then fail "Fail to add service" else
        if negb (start_server c =? 0) then fail "Fail to start EchoServer" else
        emit Serve;;
        answer ← on_part serve;
        emit StopServer;;
        emit JoinServer;;
        _ ← on_part close;
        mret (0, Some answer)))
  | _ => abort
  end.
End asura.

(** ** Lemmas *)
Section process_lemmas.
Context {P : Type}.
Implicit Types (p : Process P).

Lemma wp_emit {B} e (k : unit → Prog (Process P) B) p Q :
  wp (k tt) (mkProcess (events p ++ [e]) (part p)) Q → wp (emit e ≫= k) p Q.
Proof. done. Qed.
Lemma wp_on_part {A B} (f : Prog P A) (k : A → Prog (Process P) B) p Q :
  wp f (part p) (λ a x, wp (k a) (mkProcess (events p) x) Q) → wp (on_part f ≫= k) p Q.
Proof. intros Hf. apply wp_bind. by apply wp_zoom. Qed.
Lemma wlp_on_part {A B} (f : Prog P A) (k : A → Prog (Process P) B) p Q :
  wlp f (part p) (λ a x, wlp (k a) (mkProcess (events p) x) Q) → wlp (on_part f ≫= k) p Q.
Proof. intros Hf. apply wlp_bind. by apply wlp_zoom. Qed.
Lemma wp_with_tracer {A B} service (body : Prog (Process P) A) (k : A → Prog (Process P) B) p Q :
  wp body (mkProcess (events p ++ [InitTracer service]) (part p))
    (λ a p', wp (k a) (mkProcess (events p' ++ [CleanupTracer]) (part p')) Q) →
  wp (with_tracer service body ≫= k) p Q.
Proof.
  intros Hb. apply wp_bind. unfold with_tracer. apply wp_emit, wp_bind. eapply wp_mono; [exact Hb|]. cbv beta.
  intros a p' Hk. by apply wp_emit.
Qed.
Lemma wlp_any {S A} (f : Prog S A) s Q : (∀ a s', Q a s') → wlp f s Q.
Proof. unfold wlp. destruct (f s) as [[a s']|]; auto. Qed.
Lemma wlp_emit {B} e (k : unit → Prog (Process P) B) p Q :
  wlp (k tt) (mkProcess (events p ++ [e]) (part p)) Q → wlp (emit e ≫= k) p Q.
Proof. done. Qed.
Lemma wlp_with_tracer {A B} service (body : Prog (Process P) A) (k : A → Prog (Process P) B) p Q :
  wlp body (mkProcess (events p ++ [InitTracer service]) (part p))
    (λ a p', wlp (k a) (mkProcess (events p' ++ [CleanupTracer]) (part p')) Q) →
  wlp (with_tracer service body ≫= k) p Q.
Proof.
  intros Hb. apply wlp_bind. unfold with_tracer. apply wlp_emit, wlp_bind. eapply wlp_mono; [exact Hb|]. cbv beta.
  intros a p' Hk. by apply wlp_emit.
Qed.
Lemma wlp_set_up {B} name (k : unit → Prog (Process P) B) p Q :
  wlp (k tt) (mkProcess ((events p ++ [MakeLogger name]) ++ [SetLogSink]) (part p)) Q → wlp (set_up name ≫= k) p Q.
Proof. done. Qed.
Lemma wp_set_up {B} name (k : unit → Prog (Process P) B) p Q :
  wp (k tt) (mkProcess ((events p ++ [MakeLogger name]) ++ [SetLogSink]) (part p)) Q → wp (set_up name ≫= k) p Q.
Proof. done. Qed.
Lemma wp_last {A} (f : Prog (Process P) A) p Q : wp (f ≫= mret) p Q → wp f p Q.
Proof. unfold wp, mbind, prog_bind. by destruct (f p) as [[a p']|]. Qed.
Lemma wlp_last {A} (f : Prog (Process P) A) p Q : wlp (f ≫= mret) p Q → wlp f p Q.
Proof. unfold wlp, mbind, prog_bind. by destruct (f p) as [[a p']|]. Qed.
End process_lemmas.

Section manusya_lemmas.
Context `{StoreLaws St FH} `{UuidLaws}.
Abbreviation Bank := (Bank.Bank (St := St) (FH := FH)).

(** C24: A chunk server that starts on a store that holds chunk files, as after a restart, serves with
    an empty bank: every request to read or append to a chunk is answered with ENOENT, while the
    files are all there. *)
Theorem restart_forgets c (b : Bank) id offset n buf data :
  add_service c = 0 → start_server c = 0 → Bank._chunks b = ∅ →
  (∀ path, path ∈ store_paths (Bank._store b) → ∃ u, path = uuid_str u) →
  wp (manusya_main c (
        a ← ManusyaService.ReadChunk (mkReadChunkRequest id offset n) buf;
        b ← ManusyaService.AppendChunk (mkAppendChunkRequest id offset) data; mret (a, b))) (mkProcess [] b)
    (λ '(code, answers) p,
      code = 0 ∧
      answers = Some ((mkReadChunkResponse ManusyaService.chunk_not_found, buf, None),
                      ManusyaService.Replied (mkAppendChunkResponse ManusyaService.chunk_not_found 0)) ∧
      Bank._chunks (part p) = ∅ ∧ files (Bank._store (part p)) = files (Bank._store b)).
Proof.
  intros Ha Hs Hc Hp. unfold manusya_main. rewrite Ha, Hs. cbn [Z.eqb negb]. apply wp_set_up, wp_on_part. eapply wp_mono; [by apply Bank.load_loads_nothing|]. cbv beta. intros st b1 (->&Hc1&Hf1).
  change (negb (ok OK)) with false. cbv iota. apply wp_last, wp_with_tracer, wp_emit, wp_on_part. cbn [part events].
  destruct (ManusyaService.unknown_chunk id b1) as (Happ&Hread&_); [rewrite Hc1; cbn [part]; by rewrite Hc, lookup_empty|].
  eapply wp_step; [apply Hread|]. eapply wp_step; [apply Happ|]. eapply wp_eval; [done|].
  eapply wp_eval; [done|]. eapply wp_eval; [done|]. cbn. split_and!; [done|done|by rewrite Hc1|by rewrite Hf1].
Qed.
End manusya_lemmas.

Section deva_lemmas.
Context `{IOBufOps} `{UuidOps} `{ProtoOps} (padding : list byte).
Abbreviation Rsm := Rsm.Rsm.
Abbreviation create path flags now id clock index :=
  (DevaService.open_file padding now id clock (DevaService.Committed index) (DevaService.mkOpenFileRequest path flags)).


End deva_lemmas.

Section asura_lemmas.
Context `{DiskReliable DB RIt Disk} `{UuidOps} `{Asura.ServerProtoLaws}.
Abbreviation World := (World DB Disk).
Implicit Types (d : Disk) (h : Hashes) (s : RocksdbStore DB).
#[local] Existing Instance Asura.table_separated.
#[local] Instance registry_laws : KvLaws (St := RocksdbStore DB) Asura.table := rocksdb_kv_laws Asura.table.

(** The database on disk holds the hashes [h]. *)
Definition stored (path : string) h d : Prop :=
  ∃ m, dir_content d path = Some m ∧ ∀ db, db_content db = m → db_rep Asura.table db h.
(** The open store that holds [h] and closes into [path]. *)
Definition open_store (path : string) h s : Prop :=
  ∃ db, _db s = Opened db ∧ db_path db = path ∧ db_rep Asura.table db h.

Lemma db_rep_content db db' h :
  db_content db = db_content db' → db_rep Asura.table db h → db_rep Asura.table db' h.
Proof. intros E [He Hf]. split; rewrite <- E; auto. Qed.

Lemma rocks_open_wp path h d :
  stored path h d →
  wp (rocks_open (Some path) (Some None)) d (λ '(st, store) _,
    st = OK ∧ ∃ s, store = Some (Some s) ∧ open_store path h s).
Proof.
  intros (m&Hm&Hrep). unfold rocks_open. apply wp_bind. eapply wp_eval; [done|].
  rewrite dir_content_exists by (by eexists). cbn [negb]. apply wp_bind. eapply wp_eval; [done|]. cbn [negb].
  apply wp_bind. eapply wp_eval; [done|]. pose proof (db_open_ok true path d ltac:(by eexists)) as Hok.
  destruct (db_open true path d) as [[st db] d'] eqn:E. cbn in Hok. subst st.
  destruct (db_open_law _ _ _ _ _ E) as [Hp [Hc|(_&Hc&_)]]; [|by rewrite Hm in Hc].
  apply wp_bind. eapply wp_eval; [done|]. eapply wp_eval; [done|]. split; [done|]. eexists. split; [done|].
  exists db. split_and!; [done|done|]. apply Hrep. rewrite Hm in Hc. by injection Hc.
Qed.

Lemma close_wp path h d s :
  open_store path h s →
  wp close (d, s) (λ _ w, stored path h (fst w) ∧ _db (snd w) = Null).
Proof.
  intros (db&Hdb&Hp&Hrep). unfold close. eapply wp_step; [done|]. cbv beta iota. rewrite Hdb.
  pose proof (db_close_ok db d) as Hok. destruct (db_close db d) as [st d'] eqn:E. cbn in Hok. subst st.
  destruct (db_close_law _ _ _ _ E) as [Hc _]. specialize (Hc eq_refl). apply wp_bind. eapply wp_eval; [done|].
  eapply wp_eval; [done|]. cbn. split; [|done]. exists (db_content db). rewrite <- Hp. split; [done|].
  intros db' Hdb'. by eapply db_rep_content.
Qed.
Lemma dtor_after_close d s : _db s = Null → rocks_dtor (d, s) = Some ([], (d, s)).
Proof. intros E. unfold rocks_dtor, close, mbind, prog_bind, get. by rewrite E. Qed.

(** A run of the registry whose calls succeed: what the handlers leave is what is stored. *)
Lemma asura_main_wp {A} (c : Calls) (data_path : string) (serve : Prog (RocksdbStore DB) A) h (Q : A → Hashes → Prop) d :
  add_service c = 0 → start_server c = 0 → stored (data_path +:+ "/topology") h d →
  (∀ s, open_store (data_path +:+ "/topology") h s →
     wp serve s (λ a s', ∃ h', open_store (data_path +:+ "/topology") h' s' ∧ Q a h')) →
  wp (asura_main c data_path (on_store serve)) (mkProcess [] d) (λ '(code, answer) p,
    code = 0 ∧ ∃ a h', answer = Some a ∧ stored (data_path +:+ "/topology") h' (part p) ∧ Q a h').
Proof.
  intros Ha Hs Hst Hserve. unfold asura_main. rewrite Ha, Hs. cbn [Z.eqb negb]. apply wp_set_up, wp_on_part.
  cbn [part]. eapply wp_mono; [by apply rocks_open_wp|]. intros [st store] d1 (->&s&->&Hopen).
  change (negb (ok OK)) with false. cbv iota.
  match goal with |- wp (with_store s ?body) ?p ?Q => 
    enough (Hb : wp (r ← body; _ ← on_part rocks_dtor; mret r) (mkProcess (events p) (part p, s))
      (λ a p', Q a (mkProcess (events p') (fst (part p'))))) end.
  { unfold wp, with_store in *. by destruct (_ ≫= _) as [[a p']|]. }
  apply wp_with_tracer, wp_emit, wp_on_part. cbn [part events]. apply wp_zoom.
  eapply wp_mono; [by apply Hserve|]. cbv beta. intros a s1 (h'&Hopen'&HQ).
  apply wp_emit, wp_emit, wp_on_part. cbn [part]. eapply wp_mono; [by apply close_wp|]. cbv beta.
  intros _ [d2 s2] [Hst2 Hnone]. eapply wp_eval; [done|]. apply wp_on_part. cbn [part fst snd] in *.
  eapply wp_eval; [by apply dtor_after_close|]. eapply wp_eval; [done|]. cbn. split; [done|]. by exists a, h'.
Qed.

(** Registrations leave the database where it is. *)
Definition located (path : string) s : Prop := ∃ db, _db s = Opened db ∧ db_path db = path.

Lemma hset_located path k f v s : located path s → wlp (hset k f v) s (λ _ s', located path s').
Proof.
  intros (db&Hdb&Hp). cbn. unfold rocks_hset, the_db. unfold wlp, mbind, prog_bind, get. rewrite Hdb. cbn.
  pose proof (db_put_path (make_key k f) v db) as Hpath. destruct (db_put (make_key k f) v db) as [st db']. cbn in *.
  exists db'. split; [done|congruence].
Qed.
Lemma hexists_located path k f s : located path s → wlp (hexists k f) s (λ _ s', located path s').
Proof.
  intros (db&Hdb&Hp). cbn. unfold rocks_hexists, rocks_hget, the_db. unfold wlp, mbind, prog_bind, get. rewrite Hdb. cbn.
  destruct (db_get (make_key k f) "" db) as [st v]. cbn. by exists db.
Qed.

Lemma RegisterDeva_located path servers results s :
  located path s → wlp (Asura.RegisterDeva servers results) s (λ _ s', located path s').
Proof.
  revert results s. induction servers as [|srv servers IH]; intros results s Hl; [done|]. cbn [Asura.RegisterDeva].
  apply wlp_bind. apply (wlp_mono _ _ (λ _ s1, located path s1)); [|intros r s1; apply IH].
  unfold Asura.register_deva. apply wlp_bind. eapply wlp_mono; [by apply hexists_located|]. cbv beta. intros [] s1 Hl1; [done|].
  apply wlp_bind. eapply wlp_mono; [by apply hset_located|]. by cbv beta.
Qed.

Lemma open_store_intro path h s : located path s → kv_rep s h → open_store path h s.
Proof. intros (db&Hdb&Hp) (db'&Hdb'&Hrep). rewrite Hdb in Hdb'. injection Hdb' as <-. by exists db. Qed.
Lemma open_store_rep path h s : open_store path h s → kv_rep s h ∧ located path s.
Proof. intros (db&Hdb&Hp&Hrep). split; [by exists db|by exists db]. Qed.

(** C20: The registry survives a restart, on a disk where no call fails ([DiskReliable]), from a
    directory that holds the database already, when adding the service and starting the server
    succeed: of a run of the process that takes registrations and ends, and another one on the same
    directory, both exit with 0, and the second lists the servers that were stored before the first
    and those that it accepted. *)
Theorem registry_survives_restart (c : Calls) (data_path : string) servers h d fuel :
  add_service c = 0 → start_server c = 0 → stored (data_path +:+ "/topology") h d →
  (size h + length servers < fuel)%nat →
  wp (asura_main c data_path (on_store (Asura.RegisterDeva servers []))) (mkProcess [] d) (λ '(code, answer) p,
    code = 0 ∧ ∃ results, answer = Some results ∧ length results = length servers ∧
    wp (asura_main c data_path (on_store (Asura.ListDeva fuel []))) (mkProcess [] (part p)) (λ '(code, answer) _,
      code = 0 ∧ ∃ listed, answer = Some listed ∧
      listed ≡ₚ (Asura.parse_deva <$> hash_values h Asura.ASURA_DEVA) ++ Asura.accepted servers results)).
Proof.
  intros Ha Hs Hst Hfuel.
  eapply wp_mono; [apply (asura_main_wp c data_path _ h (λ rs h', ∃ news, rs = [] ++ news ∧ Asura.deva_registered servers news h h')); [done..|]|].
  { intros s Hopen. apply open_store_rep in Hopen as [Hrep Hloc].
    eapply wp_mono; [apply wp_and; [by apply Asura.RegisterDeva_wp|by apply RegisterDeva_located]|]. cbv beta.
    intros rs s' [(news&h'&->&Hrep'&Hreg) Hloc']. exists h'. split; [by apply open_store_intro|]. by exists news. }
  intros [code answer] p (->&a&h'&->&Hst'&news&->&Hreg). split; [done|]. exists ([] ++ news). split; [done|]. cbn [app].
  split; [apply Hreg|]. pose proof (Asura.reg_size _ _ _ _ Hreg) as Hsz.
  eapply wp_mono; [apply (asura_main_wp c data_path _ h' (λ l _, l ≡ₚ Asura.parse_deva <$> hash_values h' Asura.ASURA_DEVA)); [done..|]|].
  { intros s Hopen. pose proof Hopen as [Hrep Hloc]%open_store_rep.
    eapply wp_mono; [by apply Asura.ListDeva_wp; [exact Hrep|lia]|]. cbv beta. intros l s' (->&l1&->&Hl). exists h'. by split. }
  intros [code answer] p' (->&l&h2&->&_&Hl). split; [done|]. exists l. split; [done|].
  rewrite Hl, (Asura.reg_values _ _ _ _ Hreg), fmap_app, <- list_fmap_compose.
  apply Permutation_app_head. rewrite <- (list_fmap_id (Asura.accepted servers news)) at 2.
  erewrite list_fmap_ext; [done|]. intros i x _. cbn. apply Asura.parse_serialize_deva.
Qed.
End asura_lemmas.

(** ** How the processes end *)

(** Of a process that serves with the events [served]: it either served and exits with 0, or
    printed one error and exits with -1; what was set up before is cleaned up. *)
Definition orderly {A} (name : string) (served : list Event) (code : Z) (answer : option A) (evs : list Event) : Prop :=
  (code = 0 ∧ is_Some answer ∧ evs = [MakeLogger name; SetLogSink; InitTracer name] ++ served ++ [CleanupTracer]) ∨
  (code = -1 ∧ answer = None ∧ ∃ text,
     evs = [MakeLogger name; SetLogSink; LogError text] ∨
     evs = [MakeLogger name; SetLogSink; InitTracer name; LogError text; CleanupTracer]).

Section endings.
Context `{IOBufOps} `{UuidOps} `{ProtoOps} `{!StoreOps St FH} `{!DiskOps DB Disk}.

Lemma failed_orderly {A} name served text :
  orderly name served (-1) (None : option A) [MakeLogger name; SetLogSink; InitTracer name; LogError text; CleanupTracer].
Proof. right. split_and!; [done..|]. exists text. by right. Qed.

Lemma manusya_orderly {A} c (serve : Prog (Bank.Bank (St := St) (FH := FH)) A) b :
  wlp (manusya_main c serve) (mkProcess [] b) (λ '(code, answer) p, orderly "manusya" [Serve] code answer (events p)).
Proof.
  unfold manusya_main. apply wlp_set_up, wlp_on_part, wlp_any. intros st b1. destruct (negb (ok st)).
  { cbn. right. split_and!; [done..|]. eexists. by left. }
  apply wlp_last, wlp_with_tracer. destruct (negb _); [by apply failed_orderly|]. destruct (negb _); [by apply failed_orderly|].
  apply wlp_emit, wlp_on_part, wlp_any. intros a b2. cbn. left. by split_and!.
Qed.

Lemma asura_orderly {A} c (data_path : string) (serve : Prog (World DB Disk) A) d :
  wlp (asura_main c data_path serve) (mkProcess [] d) (λ '(code, answer) p,
    orderly "asura" [Serve; StopServer; JoinServer] code answer (events p)).
Proof.
  unfold asura_main. apply wlp_set_up, wlp_on_part, wlp_any. intros [st store] d1. destruct (negb (ok st)).
  { cbn. right. split_and!; [done..|]. eexists. by left. }
  destruct store as [[s|]|]; [|done..].
  match goal with |- wlp (with_store s ?body) ?p ?Q => 
    enough (Hb : wlp (r ← body; _ ← on_part rocks_dtor; mret r) (mkProcess (events p) (part p, s))
      (λ a p', Q a (mkProcess (events p') (fst (part p'))))) end.
  { unfold wlp, with_store in *. by destruct (_ ≫= _) as [[a p']|]. }
  apply wlp_with_tracer. destruct (negb _); [|destruct (negb _)].
  1,2: cbn; apply wlp_on_part, wlp_any; intros st1 w; by apply failed_orderly.
  apply wlp_emit, wlp_on_part, wlp_any. intros a w. apply wlp_emit, wlp_emit, wlp_on_part, wlp_any. intros st1 w1.
  cbn. apply wlp_on_part, wlp_any. intros st2 w2. cbn. left. by split_and!.
Qed.

(** A metadata server that ends does so in order; one that does not is joining its server, which has
    a request in progress. *)
Definition deva_ends {R} (code : option Z) (answer : option (Answers R)) (evs : list Event) : Prop :=
  match code with
  | Some code => ∃ s j, orderly "deva" [Serve; ShutdownNode s; StopServer; JoinNode j; JoinServer] code answer evs
  | None => (∃ answers, answer = Some answers ∧ None ∈ answers) ∧
      evs = [MakeLogger "deva"; SetLogSink; InitTracer "deva"; Serve]
  end.

Lemma join_returns_false {R} (answers : Answers R) : join_returns answers = false → None ∈ answers.
Proof.
  induction answers as [|[a|] answers IH]; [done|..]; cbn.
  - intros Hj. right. by apply IH.
  - intros _. left.
Qed.

Lemma deva_orderly {R} c (early serve : Prog Rsm.Rsm (Answers R)) r :
  wlp (deva_main c early serve) (mkProcess [] r) (λ '(code, answer) p, deva_ends code answer (events p)).
Proof.
  unfold deva_main. apply wlp_set_up, wlp_emit, wlp_bind.
  do 3 (destruct (negb _); [exists false, false; by apply failed_orderly|]).
  apply wlp_on_part, wlp_any. intros a r1. apply wlp_on_part, wlp_any. intros _ r2. apply wlp_emit, wlp_on_part, wlp_any. intros b r3.
  destruct (join_returns (a ++ b)) eqn:Ej; cbn [negb].
  - apply wlp_on_part, wlp_any. intros s r4. apply wlp_emit, wlp_emit, wlp_on_part, wlp_any.
    intros j r6. apply wlp_emit, wlp_emit. cbn. exists s, j. left. by split_and!.
  - cbn. split; [|done]. exists (a ++ b). split; [done|]. by apply join_returns_false.
Qed.

(** However the calls of a server process turn out and whatever it is asked to do, a run that
    ends either served and exits with 0, or reported one error and exits with -1, and the
    tracer it initialised has been cleaned up last; a metadata server that does not end waits for a
    request in progress. *)
Theorem mains_orderly {A B R}
    c (data_path : string) (chunk_requests : Prog (Bank.Bank (St := St) (FH := FH)) A)
    (registry_requests : Prog (World DB Disk) B)
    (early requests : Prog Rsm.Rsm (Answers R)) b d r :
  wlp (manusya_main c chunk_requests) (mkProcess [] b) (λ '(code, answer) p,
    orderly "manusya" [Serve] code answer (events p)) ∧
  wlp (asura_main c data_path registry_requests) (mkProcess [] d) (λ '(code, answer) p,
    orderly "asura" [Serve; StopServer; JoinServer] code answer (events p)) ∧
  wlp (deva_main c early requests) (mkProcess [] r) (λ '(code, answer) p, deva_ends code answer (events p)).
Proof. split_and!; [apply manusya_orderly|apply asura_orderly|apply deva_orderly]. Qed.
End endings.

(** ** Witnesses *)
Module Witness.
Import Namespace.Namespace.Witness Deva.Deva.Witness Op.Witness RocksdbStore.MapRocksdb Asura.Witness.
#[local] Existing Instances ListIOBuf.ops ListIOBuf.laws HexUuid.ops HexUuid.laws CountProto.ops CountProto.laws
  Asura.CountServer.ops Asura.CountServer.laws.

Definition all_well : Calls := mkCalls 0 0 0 0.
Definition disk0 : Disk := {["./data/topology" := ∅]}.

Lemma disk0_stored : stored "./data/topology" ∅ disk0.
Proof.
  exists ∅. split; [by vm_compute|]. intros db E. split; [by intros k f v ?%lookup_empty_Some|].
  intros rk v. cbn in *. rewrite E. by intros ?%lookup_empty_Some.
Qed.

Lemma registry_survives_restart_witness :
  wp (asura_main all_well "./data" (on_store (Asura.RegisterDeva [server0] []))) (mkProcess [] disk0) (λ '(_, answer) p,
    ∃ results, answer = Some results ∧ length results = 1%nat ∧
    wp (asura_main all_well "./data" (on_store (Asura.ListDeva 3 []))) (mkProcess [] (part p)) (λ '(_, answer) _,
      ∃ listed, answer = Some listed ∧ listed ≡ₚ Asura.accepted [server0] results)).
Proof.
  pose proof (registry_survives_restart all_well "./data" [server0] ∅ disk0 3
    eq_refl eq_refl disk0_stored ltac:(rewrite map_size_empty; cbn; lia)) as Hw.
  eapply wp_mono; [exact Hw|]. intros [code answer] p (_&rs&E&Hl&Hw'). exists rs. split; [exact E|]. split; [exact Hl|].
  eapply wp_mono; [exact Hw'|]. intros [code' answer'] p' (_&l&E'&Hl'). exists l. split; [exact E'|exact Hl'].
Defined.

Definition store1 : MemStore.MemStore := ChunkSpec.Example.store1.
Definition bank1 : Bank.Bank (St := MemStore.MemStore) (FH := MemStore.MemFileHandle) := Bank.new_bank store1.

Lemma restart_forgets_witness :
  wp (manusya_main all_well (
        a ← ManusyaService.ReadChunk (mkReadChunkRequest (uuid_msg ChunkSpec.Example.uuid) 0 4) iob_empty;
        b ← ManusyaService.AppendChunk (mkAppendChunkRequest (uuid_msg ChunkSpec.Example.uuid) 0) iob_empty;
        mret (a, b))) (mkProcess [] bank1) (λ '(code, answers) p, code = 0 ∧ is_Some answers).
Proof.
  pose proof (restart_forgets all_well bank1 (uuid_msg ChunkSpec.Example.uuid) 0 4 iob_empty iob_empty
    eq_refl eq_refl eq_refl Bank.Bank.Witness.bank1_paths) as Hw.
  eapply wp_mono; [exact Hw|]. intros [code answers] p (E&->&_). split; [exact E|by eexists].
Defined.

End Witness.
End Process.
