(* ===== verification/MockDeva.v ===== *)
(** * The mock metadata cluster ([src/deva/mock/deva_machine.h], [src/deva/mock/mock_deva.h], [src/deva/mock/mock_deva.cc])

    Tests run three metadata servers in one process: a [DevaMachine] is a server with an [Rsm] of its
    own, [MockDeva] starts and stops three of them on fixed addresses with one configuration, and
    [wait_for_leader] polls braft's route table. The handlers of all of them are those of
    [DevaService.v], which submit to the [default_rsm] of the process and not to the machine's.
    Servers are observed by whether they start ([ServerCalls]); [mkdtemp] is an argument. *)
From S2P Require Import Prelude Bytes Iobuf Uuid Proto Namespace Deva Op Rsm DevaService Client.
Import Op.Op.
Set Default Goal Selector "!".
Local Open Scope Z_scope.

Definition ENODEV : Z := 19.

Module MockDeva.

(** What [AddService], [braft::add_service] and [Start] of a server and [Node::init] return. *)
Record ServerCalls := mkServerCalls { add_service : Z; add_raft_service : Z; start_server : Z; node_init : Z }.

Section mock.
Context `{IOBufOps} `{UuidOps} `{ProtoOps} `{Rsm.RaftOps}.

(** ** [DevaMachine] *)
Record DevaMachine := mkDevaMachine { _address : string; _config : Rsm.RsmConfig; _rsm : Rsm.Rsm }.

(** [DevaMachine(...)]; an address or configuration that does not parse fails an assertion. braft
    leaves [disable_cli] false. *)
Definition machine_new (data_path group address node_conf : string) : option DevaMachine :=
  match Rsm.parse_conf node_conf, Rsm.str2endpoint address with
  | Some conf, Some addr =>
      let prefix := "local://" +:+ data_path in
      Some (mkDevaMachine address
        (Rsm.mkRsmConfig addr group
           (Rsm.mkNodeOptions conf 5000 false 30 (prefix +:+ "/" +:+ group +:+ "/log")
              (prefix +:+ "/" +:+ group +:+ "/raft_meta") (prefix +:+ "/" +:+ group +:+ "/snapshot") false))
        Rsm.new_rsm)
  | _, _ => None
  end.

Definition on_rsm {A} (f : Prog Rsm.Rsm A) : Prog DevaMachine A :=
  zoom _rsm (λ r m, mkDevaMachine (_address m) (_config m) r) f.

(** [DevaMachine::start]; the result of [Rsm::start] is not looked at. *)
Definition machine_start (c : ServerCalls) : Prog DevaMachine Status :=
  if negb (add_service c =? 0) then mret (mkStatus EINVAL "Fail to add service") else
  if negb (add_raft_service c =? 0) then mret (mkStatus EINVAL "Fail to add raft service") else
  if negb (start_server c =? 0) then mret (mkStatus EINVAL "Fail to start EchoServer") else
  _ ← on_rsm (Rsm.start (node_init c));
  mret OK.

(** [DevaMachine::stop], after the server was stopped and joined. *)
Definition machine_stop : Prog DevaMachine unit :=
  _ ← on_rsm Rsm.shutdown; _ ← on_rsm Rsm.join; mret tt.

(** ** [MockDeva] *)
Record MockDeva := mkMockDeva {
  _group : string; _node_conf : string; _data_path : string;
  _data_paths : list string; _node_addrs : list string;
  _deva_machine : list (option DevaMachine);      (* [None] is a null pointer *)
}.

Definition join_comma (l : list string) : string :=
  match l with [] => "" | a :: l => foldl (λ s b, s +:+ "," +:+ b) a l end.

(** [include/pain/base/path.h]: [mkdtemp] and [mkstemp] change the path in place, or fail. The
    descriptor of a file that was made is dropped, and stays open. *)
Definition make_temp_dir_or_die {S} (mkdtemp : string → option string) (path : string) : Prog S string :=
  match mkdtemp path with None => abort | Some path => mret path end.
Definition make_temp_file_or_die {S} (mkstemp : string → Z * string) (path : string) : Prog S string :=
  let '(fd, path) := mkstemp path in
  if fd =? -1 then abort else mret path.

(** [MockDeva()]. *)
Definition mock_new `{NetOps W} (mkdtemp : string → option string) : Prog W MockDeva :=
  let group := "test_group" in
  let node_addrs := ["127.0.0.1:8200"; "127.0.0.1:8201"; "127.0.0.1:8202"] in
  let node_conf := join_comma node_addrs in
  data_path ← make_temp_dir_or_die mkdtemp "/tmp/deva_mock_data_XXXXXX";
  modify (update_configuration group node_conf);;
  mret (mkMockDeva group node_conf data_path
    ((λ i, data_path +:+ "/" +:+ fmt_u (Z.of_nat i)) <$> seq 0 (length node_addrs))
    node_addrs (replicate (length node_addrs) None)).

Definition set_machine (i : nat) (x : option DevaMachine) (m : MockDeva) : MockDeva :=
  mkMockDeva (_group m) (_node_conf m) (_data_path m) (_data_paths m) (_node_addrs m)
    (<[i := x]> (_deva_machine m)).

(** [MockDeva::start(int)]; an index without a node is out of the bounds of the vectors. *)
Definition mock_start_at (c : ServerCalls) (index : nat) : Prog MockDeva Status :=
  m ← get;
  match _data_paths m !! index, _node_addrs m !! index, _deva_machine m !! index with
  | Some data_path, Some addr, Some _ =>
      match machine_new data_path (_group m) addr (_node_conf m) with
      | None => abort
      | Some machine =>
          match machine_start c machine with
          | None => abort
          | Some (status, machine) => modify (set_machine index (Some machine));; mret status
          end
      end
  | _, _, _ => abort
  end.

(** [MockDeva::start()]: the first failure ends it. [calls] are those of each machine. *)
Fixpoint start_from (calls : nat → ServerCalls) (n i : nat) : Prog MockDeva Status :=
  match n with
  | O => mret OK
  | S n => status ← mock_start_at (calls i) i; if negb (ok status) then mret status else start_from calls n (S i)
  end.
Definition mock_start (calls : nat → ServerCalls) : Prog MockDeva Status :=
  m ← get; start_from calls (length (_deva_machine m)) 0.

(** [MockDeva::stop(int)], [MockDeva::stop()]. *)
Definition mock_stop_at (index : nat) : Prog MockDeva unit :=
  m ← get;
  match _deva_machine m !! index with
  | None => abort
  | Some None => mret tt
  | Some (Some machine) =>
      match machine_stop machine with
      | None => abort
      | Some _ => modify (set_machine index None)
      end
  end.
Fixpoint stop_from (n i : nat) : Prog MockDeva unit :=
  match n with O => mret tt | S n => mock_stop_at i;; stop_from n (S i) end.
Definition mock_stop : Prog MockDeva unit := m ← get; stop_from (length (_deva_machine m)) 0.
(** [~MockDeva()]: stops, and answers the directory that is removed. *)
Definition mock_dtor : Prog MockDeva string := mock_stop;; gets _data_path.
End mock.

(** [MockDeva::wait_for_leader]: the status, the address if one was found, and how often it slept
    for 500 milliseconds. *)
Section wait.
Context `{NetOps W} `{!EqDecision PeerId}.
Definition sleep_interval_ms : Z := 500.

Fixpoint poll (rounds : nat) (group : string) (slept : nat) : Prog W (Status * option string * nat) :=
  match rounds with
  | O => mret (mkStatus ENODEV "No leader", None, slept)
  | S rounds =>
      status ← external (refresh_leader group sleep_interval_ms);
      if negb (ok status) then poll rounds group (S slept) else
      selected ← gets (select_leader group);
      let leader := match selected with Some peer => peer | None => no_peer end in
      if bool_decide (leader = no_peer) then poll rounds group (S slept)
      else mret (OK, Some (peer_to_string leader), slept)
  end.
Definition wait_for_leader (group : string) (timeout_ms : Z) : Prog W (Status * option string * nat) :=
  poll (Z.to_nat (Z.quot timeout_ms sleep_interval_ms)) group 0.
End wait.

(** ** Theorems *)
Section wait_theorems.
Context `{NetLaws W} `{!EqDecision PeerId}.
Implicit Types (w : W).

Lemma poll_spec rounds group slept w :
  wp (poll rounds group slept) w (λ '(st, addr, slept') w',
    (slept <= slept' <= slept + rounds)%nat ∧
    ((st = OK ∧ ∃ p, select_leader group w' = Some p ∧ p ≠ no_peer ∧ addr = Some (peer_to_string p)) ∨
     (st = mkStatus ENODEV "No leader" ∧ addr = None ∧ slept' = (slept + rounds)%nat))).
Proof.
  revert slept w. induction rounds as [|rounds IH]; intros slept w; cbn [poll].
  { eapply wp_eval; [done|]. split; [lia|]. right. split_and!; [done|done|lia]. }
  assert (Hnext : ∀ w1, wp (poll rounds group (S slept)) w1 (λ '(st, addr, slept') w',
    (slept <= slept' <= slept + S rounds)%nat ∧
    ((st = OK ∧ ∃ p, select_leader group w' = Some p ∧ p ≠ no_peer ∧ addr = Some (peer_to_string p)) ∨
     (st = mkStatus ENODEV "No leader" ∧ addr = None ∧ slept' = (slept + S rounds)%nat)))).
  { intros w1. eapply wp_mono; [apply IH|]. intros [[st addr] slept'] w' [Hs Hr]. split; [lia|].
    destruct Hr as [Hr|(?&?&?)]; [by left|right]. split_and!; [done|done|lia]. }
  apply wp_external. destruct (refresh_leader group sleep_interval_ms w) as [st w1]. cbn [fst snd].
  destruct (negb (ok st)); [apply Hnext|]. eapply wp_step; [done|]. cbv beta zeta.
  destruct (select_leader group w1) as [p|] eqn:E; case_bool_decide as Hp; try apply Hnext; [|done].
  eapply wp_eval; [done|]. split; [lia|]. left. split; [done|]. by exists p.
Qed.

(** [wait_for_leader] returns: the leader of the route table, or ENODEV after sleeping the whole of
    its rounds. Refreshing may take 500 milliseconds of its own in each of them, so it may take
    twice the timeout. *)
Theorem wait_for_leader_spec group timeout_ms w :
  0 <= timeout_ms →
  wp (wait_for_leader group timeout_ms) w (λ '(st, addr, slept) w',
    Z.of_nat slept * sleep_interval_ms <= timeout_ms ∧
    ((st = OK ∧ ∃ p, select_leader group w' = Some p ∧ p ≠ no_peer ∧ addr = Some (peer_to_string p)) ∨
     (error_code st = ENODEV ∧ addr = None ∧ timeout_ms < (Z.of_nat slept + 1) * sleep_interval_ms))).
Proof.
  intros Ht. unfold wait_for_leader, sleep_interval_ms. rewrite Z.quot_div_nonneg by lia.
  pose proof (Z.div_mod timeout_ms 500 ltac:(lia)) as E. pose proof (Z.mod_pos_bound timeout_ms 500 ltac:(lia)) as Hm.
  pose proof (Z.div_pos timeout_ms 500 Ht ltac:(lia)) as Hd.
  eapply wp_mono; [apply poll_spec|]. intros [[st addr] slept] w' [Hs Hr]. split; [lia|].
  destruct Hr as [Hr|(->&->&->)]; [by left|right]. split_and!; [done|done|lia].
Qed.

(** With less than 500 milliseconds it does not look at all, whatever leader is known. *)
Theorem wait_too_short group timeout_ms w :
  0 <= timeout_ms < 500 → wait_for_leader group timeout_ms w = Some (mkStatus ENODEV "No leader", None, O, w).
Proof. intros Ht. unfold wait_for_leader, sleep_interval_ms. by rewrite Z.quot_small by lia. Qed.
End wait_theorems.

Section mock_theorems.
Context `{IOBufOps} `{UuidOps} `{ProtoOps} `{Rsm.RaftOps}.
Implicit Types (m : MockDeva).

(** A machine that is up: its raft node runs, for the group and configuration of the cluster. *)
Definition up m (i : nat) : Prop :=
  ∃ machine conf, _deva_machine m !! i = Some (Some machine) ∧ Rsm._node (_rsm machine) = true ∧
    Rsm.group (_config machine) = _group m ∧ Rsm.parse_conf (_node_conf m) = Some conf ∧
    Rsm.initial_conf (Rsm.node_options (_config machine)) = conf ∧ _node_addrs m !! i = Some (_address machine).
(** What does not change. *)
Definition same_cluster m m' : Prop :=
  _group m' = _group m ∧ _node_conf m' = _node_conf m ∧ _data_paths m' = _data_paths m ∧
  _node_addrs m' = _node_addrs m ∧ length (_deva_machine m') = length (_deva_machine m).
(** A cluster whose vectors have one length and whose addresses parse. *)
Definition sound m : Prop :=
  length (_data_paths m) = length (_deva_machine m) ∧ length (_node_addrs m) = length (_deva_machine m) ∧
  is_Some (Rsm.parse_conf (_node_conf m)) ∧ Forall (λ a, is_Some (Rsm.str2endpoint a)) (_node_addrs m).

Definition all_well : ServerCalls := mkServerCalls 0 0 0 0.

Lemma same_cluster_sound m m' : same_cluster m m' → sound m → sound m'.
Proof. intros (?&Ec&Ep&Ea&El) (?&?&?&?). unfold sound. by rewrite Ec, Ep, Ea, El. Qed.
Lemma same_cluster_trans m1 m2 m3 : same_cluster m1 m2 → same_cluster m2 m3 → same_cluster m1 m3.
Proof. unfold same_cluster. intros (?&?&?&?&?) (?&?&?&?&?). split_and!; congruence. Qed.

Lemma mock_start_at_wp i m :
  sound m → (i < length (_deva_machine m))%nat →
  wp (mock_start_at all_well i) m (λ st m', st = OK ∧ same_cluster m m' ∧ up m' i ∧
    ∀ j, j ≠ i → _deva_machine m' !! j = _deva_machine m !! j).
Proof.
  intros (Hp&Ha&[conf Hc]&Hpa) Hi. unfold mock_start_at. eapply wp_step; [done|].
  destruct (lookup_lt_is_Some_2 (_data_paths m) i) as [path ->]; [lia|].
  destruct (lookup_lt_is_Some_2 (_node_addrs m) i) as [addr Haddr]; [lia|]. rewrite Haddr.
  destruct (lookup_lt_is_Some_2 (_deva_machine m) i) as [old ->]; [lia|].
  destruct (Forall_lookup_1 _ _ _ _ Hpa Haddr) as [ep Hep]. unfold machine_new. rewrite Hc, Hep. cbn.
  split; [done|]. unfold same_cluster, set_machine. cbn. split_and!; try done; [by rewrite length_insert| |].
  - eexists _, conf. cbn. rewrite list_lookup_insert_eq by done. by split_and!.
  - intros j Hj. by rewrite list_lookup_insert_ne.
Qed.

Lemma up_kept m m' i : same_cluster m m' → _deva_machine m' !! i = _deva_machine m !! i → up m i → up m' i.
Proof.
  intros (Eg&Ec&Ep&Ea&El) E (machine&conf&?&?&?&?&?&?). exists machine, conf. by rewrite E, Eg, Ec, Ea.
Qed.

Lemma start_from_wp n i m :
  sound m → (i + n = length (_deva_machine m))%nat → (∀ j, (j < i)%nat → up m j) →
  wp (start_from (λ _, all_well) n i) m (λ st m', st = OK ∧ same_cluster m m' ∧
    ∀ j, (j < length (_deva_machine m))%nat → up m' j).
Proof.
  revert i m. induction n as [|n IH]; intros i m Hs Hi Hup; cbn [start_from].
  { eapply wp_eval; [done|]. split_and!; [done|by unfold same_cluster|]. intros j Hj. apply Hup. lia. }
  apply wp_bind. eapply wp_mono; [apply mock_start_at_wp; [done|lia]|]. cbv beta. intros st m1 (->&Hsame&Hupi&Hother).
  change (negb (ok OK)) with false. cbv iota. pose proof Hsame as (_&_&_&_&El).
  eapply wp_mono; [apply IH; [by eapply same_cluster_sound|lia|]|].
  - intros j Hj. destruct (decide (j = i)) as [->|Hne]; [done|]. eapply up_kept; [done|by apply Hother|]. apply Hup. lia.
  - cbv beta. intros st m2 (->&Hsame2&Hall). split_and!; [done|by eapply same_cluster_trans|]. by rewrite <- El.
Qed.

(** When all calls succeed, [start] brings every machine up, in one group with one configuration. *)
Theorem mock_start_all m :
  sound m →
  wp (mock_start (λ _, all_well)) m (λ st m', st = OK ∧ same_cluster m m' ∧
    ∀ i, (i < length (_deva_machine m))%nat → up m' i).
Proof. intros Hs. unfold mock_start. eapply wp_step; [done|]. apply start_from_wp; [done|done|lia]. Qed.

Lemma stop_from_wp n i m :
  (i + n = length (_deva_machine m))%nat → (∀ j, (j < i)%nat → _deva_machine m !! j = Some None) →
  wp (stop_from n i) m (λ _ m', ∀ j, (j < length (_deva_machine m))%nat → _deva_machine m' !! j = Some None).
Proof.
  revert i m. induction n as [|n IH]; intros i m Hi Hnone; cbn [stop_from].
  { eapply wp_eval; [done|]. intros j Hj. apply Hnone. lia. }
  apply wp_bind. unfold mock_stop_at. eapply wp_step; [done|].
  destruct (lookup_lt_is_Some_2 (_deva_machine m) i) as [old Hold]; [lia|]. rewrite Hold. destruct old as [machine|].
  - eapply wp_eval; [reflexivity|]. eapply wp_mono; [apply IH; cbn; [rewrite length_insert; lia|]|].
    + intros j Hj. destruct (decide (j = i)) as [->|Hne]; [by rewrite list_lookup_insert_eq by lia|].
      rewrite list_lookup_insert_ne by done. apply Hnone. lia.
    + cbn. intros _ m' Hall j Hj. apply Hall. by rewrite length_insert.
  - eapply wp_eval; [done|]. apply IH; [lia|]. intros j Hj. destruct (decide (j = i)) as [->|Hne]; [done|]. apply Hnone. lia.
Qed.

(** [stop] leaves no machine, whichever were running. *)
Theorem mock_stop_all m :
  wp mock_stop m (λ _ m', ∀ i, (i < length (_deva_machine m))%nat → _deva_machine m' !! i = Some None).
Proof. unfold mock_stop. eapply wp_step; [done|]. apply stop_from_wp; [done|lia]. Qed.

(** The handlers of the machines submit to the [default_rsm] of the process, which nothing in the
    mock starts: with the whole cluster up, a request that creates a file is never answered. *)
Definition on_mock {A} (f : Prog MockDeva A) : Prog (MockDeva * Rsm.Rsm) A := zoom fst (λ m s, (m, snd s)) f.
Definition on_default {A} (f : Prog Rsm.Rsm A) : Prog (MockDeva * Rsm.Rsm) A := zoom snd (λ r s, (fst s, r)) f.

Theorem mock_never_answers padding path flags now id clock index m :
  sound m → Z.land flags DevaService.OPEN_CREATE ≠ 0 →
  wp (_ ← on_mock (mock_start (λ _, all_well));
      on_default (DevaService.open_file padding now id clock (DevaService.Committed index)
                    (DevaService.mkOpenFileRequest path flags))) (m, Rsm.new_rsm)
    (λ answer s, answer = None ∧ ∀ i, (i < length (_deva_machine m))%nat → up (fst s) i).
Proof.
  intros Hs Hfl. apply wp_bind, wp_zoom. eapply wp_mono; [by apply mock_start_all|]. cbv beta. intros st m' (_&_&Hup).
  apply wp_zoom. eapply wp_eval; [by apply DevaService.open_file_hangs|]. by split.
Qed.
End mock_theorems.

(** ** Witnesses *)
Module Witness.
Import Namespace.Namespace.Witness Client.Client.Witness.
#[local] Existing Instances ListIOBuf.ops HexUuid.ops CountProto.ops Client.Client.Witness.net Client.Client.Witness.net_laws.
#[local] Instance raft : Rsm.RaftOps := {|
  Rsm.EndPoint := string; Rsm.Configuration := string;
  Rsm.str2endpoint s := Some s; Rsm.parse_conf s := Some s;
|}.

Definition mkdtemp (template : string) : option string := Some "/tmp/deva_mock_data_a1b2c3".
Definition cluster : MockDeva :=
  match mock_new mkdtemp (∅ : Routes) with Some (m, _) => m | None => mkMockDeva "" "" "" [] [] [] end.
Lemma cluster_sound : sound cluster.
Proof. repeat split; [by eexists|]. by repeat constructor; eexists. Qed.

Lemma mock_never_answers_witness :
  wp (_ ← on_mock (mock_start (λ _, all_well));
      on_default (DevaService.open_file [] 5 ino1 (DevaService.mkClock 1 2 3) (DevaService.Committed 1)
                    (DevaService.mkOpenFileRequest "/a" 4))) (cluster, Rsm.new_rsm)
    (λ answer s, answer = None ∧ ∀ i, (i < 3)%nat → up (fst s) i).
Proof. exact (mock_never_answers [] "/a" 4 5 ino1 (DevaService.mkClock 1 2 3) 1 cluster cluster_sound ltac:(done)). Defined.

#[local] Instance peer_eq_dec : EqDecision (PeerId (W := Routes)) := String.string_dec.
Lemma wait_for_leader_spec_witness :
  wp (wait_for_leader "test_group" 10000) (∅ : Routes) (λ '(_, _, slept) _, Z.of_nat slept * 500 <= 10000).
Proof.
  eapply wp_mono; [exact (wait_for_leader_spec "test_group" 10000 (∅ : Routes) ltac:(lia))|].
  intros [[st addr] slept] w (E&_). exact E.
Defined.
End Witness.
End MockDeva.
